(* ===== verification/_CoqProject ===== *)
-Q . S2P
Prelude.v
Arena.v
BoundedBuf.v
Url.v
Allocator.v
HeaderId.v
HeaderMap.v
Query.v
Regions.v
HttpRequest.v
Simd.v
Router.v
RouterMatch.v
Routing.v
Base64.v
WebSocket.v
Csv.v
LfQueue.v
CircuitBreaker.v
HandlerChain.v
KvStore.v
BodyPool.v
Mq.v
MqWal.v
Connection.v
Http1Serialize.v
Response.v
Serve.v
MvccCache.v
Workflow.v
WorkflowDag.v
WorkflowWal.v
Rcu.v
RcuInv.v
RcuFlow.v
RcuScan.v
RcuSafe.v
