(* ===== verification/Prelude.v ===== *)
(** * csilk: a verification development

    csilk (src/) is an HTTP application framework in C.  A worker thread runs an
    event loop; it accepts connections, takes client objects from a pool, feeds
    the bytes it reads to a parser, routes the request, and runs a chain of
    middlewares and handlers on a request context.  The context owns an arena,
    header maps, a key-value store, deferred cleanups and the request and
    response bodies.  Beside the request path there are WebSockets, a message
    queue with a write-ahead log, an engine for workflows, a shared cache, and
    utilities.  This development translates
    the parts listed here into executable definitions and proves what makes
    them correct.

    ** Conventions

    A C string or buffer is a [list ascii].  Machine integers are [Z] with the
    wrap-around written out ([wrap64], [wrap32], ...).  A stateful component is a
    record, and an operation a function on it.  Undefined behaviour (an access
    outside an array, a use after free, signed overflow, a null string passed to
    [strcmp]) is the absence of a result, [None], so that a theorem that an
    operation returns [Some] is also its safety theorem.  Allocation failure is
    taken from an oracle, a list of answers, so that each failure branch is taken
    for some oracle.  Code that is not part of the sources (the event loop,
    libc's [fnmatch], handlers of the application) is a parameter, or a
    choice made by the sequence of steps.

    ** Files

    Memory and text.
    - Arena: src/src/core/primitives/arena.c, the bump allocator, its chunks and
      the cache of chunks.  Regions handed out are disjoint, inside live blocks,
      and respect the limit; no script of requests up to 2^62 bytes is undefined.
    - Allocator: the interface ([Class]) the request-scoped components use, with
      the arena as its instance.  It records every request with its answer, so
      that theorems speak of the requests an operation made ([refused]).
    - Regions: the further contract ([Class]) that what is handed out is disjoint
      from what was handed out before and from blocks of others.
    - BoundedBuf: bounded_buf.c, the string and JSON builders; documents built
      stay in the array and decode to what was put in.
    - Url, Query: url.c, query.c; in-place decoding equals a recursive
      reference, splitting and parsing are inverse to printing.
    - HeaderId, HeaderMap: header_map.c; name recognition is exact, the map
      refines a case-insensitive multimap.
    - Simd: router_simd.c; each vector variant equals a list-level reference and
      reads only mapped memory.
    - Base64, Csv: src/src/crypto/base64.c, src/src/util/csv.c; round trips.

    Requests.
    - Router, RouterMatch, Routing: router.c, router_trie.c; registration keeps
      the trie sorted, the matching machine terminates and selects the first
      matching route, and together they refine a table of routes.
    - HandlerChain: csilk_next, csilk_abort, deferred cleanups, panic and recovery
      (context.c, ctx_defer.c, recovery.c); handlers run in order, cleanups once.
    - HttpRequest: the callbacks of http1_parse.c that build a request and the
      two ways bytes are read (connection_io.c, tls.c); however reads and spans
      cut a request, the handlers see what was sent.
    - KvStore: kv_store.c; refines a bounded map, and values are destroyed once
      as long as the caller hands them over once.
    - BodyPool: the body buffers of context.c and the body callbacks of
      http1_parse.c and h2_callbacks.c; each block has one owner.
    - Http1Serialize: http1_serialize.c, and a reader of HTTP/1.1 messages that is
      written without reference to it; the bytes of a response stay inside the
      buffer allocated for them and are read back.
    - Response: response.c; what a handler says by its calls is what a client
      reads, and (without TLS) a streamed response is read back as the data
      written.
    - Serve: _csilk_dispatch_request of context.c, joining HttpRequest, Routing,
      HandlerChain and Response: a request from its bytes to the bytes of its
      answer, and the 500 that the recovery middleware sends after a panic.
    - WebSocket: src/src/protocols/websocket.c; frames round-trip, parsing is safe
      on any bytes, sending balances references and blocks.
    - CircuitBreaker: src/src/middleware/circuit_breaker.c; refines a three-state
      reference breaker.

    Concurrency and persistence.
    - LfQueue: lfqueue.h; the steps of all producers and the consumer interleave,
      the queue is first in, first out, and a quiescent dequeue returns.
    - MvccCache: src/src/core/cache/mvcc_cache.c; the shared cache refines a finite
      map, views stay readable until they are given back, nothing leaks.
    - Connection: connection_state.c, connection_close.c, connection_pool.c and the
      accept and write paths; the state machine follows its rules, and a client
      object is never used after it was freed, nor recycled while referenced,
      as long as accepting and setting up TLS succeed.
    - Mq: mq_core.c, mq_dispatch.c, mq_pubsub.c, mq_offload.c, mq_context.c of
      src/src/messaging; accepted messages are taken out once and in order,
      and each reaches its handlers unless memory for the chain is refused.
    - Workflow: src/src/workflow/wf_graph.c, wf_node.c, wf_run.c, wf_ctx.c; for any
      graph and any order of events of the loop and of the thread that starts the
      execution, but for one race, its context outlives what uses it.  WorkflowDag: acyclic workflows run every node once, after what it
      depends on, to the end.  WorkflowWal: wf_wal.c, workflow_wal.c, wf_resume.c;
      an interrupted acyclic workflow is resumed and completed.
    - Rcu, RcuInv, RcuFlow, RcuScan, RcuSafe: server_rcu.c and hooks.c; the model
      at the granularity of atomic accesses, its invariants, what a step moves,
      what scans establish, and the safety of replacing routers and hooks under
      readers, with the discipline that callers have to respect.
    - MqWal: mq_wal.c on top of Mq; after a crash the recovery restores exactly
      the messages whose frames are complete, and it always terminates; short
      writes and torn tails are the subject of its observations.

    This file holds what they share: byte strings, machine arithmetic, checked
    stores, lemmas on lists, the tactics and the hint database [csilk].

    ** How components interact

    HeaderMap, Query, HttpRequest and Response are proved against [Allocator],
    which Allocator discharges for Arena.  HandlerChain takes the calls on the
    response as an argument with their laws; Serve supplies those of Response.  Query uses the decoder of Url and the maps of
    HeaderMap.  Router uses the segments of Simd; Routing composes Router and
    RouterMatch.  MqWal reads and writes the queue of Mq.  WorkflowDag and
    WorkflowWal are about the engine of Workflow.  Response builds the header
    maps of HeaderMap over any [Allocator] and sends them with Http1Serialize,
    which uses the connection states of Connection.

    ** Fuel

    Loops that are not structural take fuel.  [match_node] gets twice the number
    of nodes of the trie, since every node is entered and left at most once.
    [csilk_next] and [csilk_mq_next] get one more than the length of the chain,
    since every nested call advances the index.  The recovery of MqWal and the
    reader of WorkflowWal get the length of the file (and one more), since every
    record consumes bytes; so do the lines and chunks of the reader of
    Http1Serialize.  The theorems show that this is enough: the functions return.

    ** Limits of the models

    Interleavings are sequentially consistent; weaker memory orders are not
    modelled.  Except in LfQueue and Rcu an operation of another thread is one
    step; in Workflow the end of a node is two, the decrement of its counter and
    the second reading, and the start of a run one for each node.
    [csilk_wf_resume], and in WorkflowDag [csilk_wf_run], run uninterrupted.
    The examples named in the section of observations at the end of some files
    show where the code departs from its comments or from what it means to do.

    ** Not modelled

    Parsing of HTTP itself (llhttp), HTTP/2 (nghttp2), TLS and most
    cryptography (OpenSSL), JSON documents (yyjson), WebAssembly, database and AI
    clients: the sources only call libraries that are not part of them.  System
    calls and device memory: io_uring, AF_XDP and DPDK, sockets, signals, file
    watching, logging.  Not modelled yet: AI nodes, tools and monitors of workflows, Raft,
    rate limiting, sessions, CSRF, multipart and validation middlewares, reflection,
    JSON-RPC and WebSocket rooms. *)

From Stdlib Require Export ZArith Lia Ascii String.
From stdpp Require Export base tactics numbers list strings.

(** ** Byte strings *)

Abbreviation bytes := (list ascii).

#[local] Open Scope Z_scope.

Create HintDb csilk.

(** A C string literal. *)
Definition lit (s : string) : bytes := String.list_ascii_of_string s.

(** The value of a byte, [(unsigned char) c], and the conversion back. *)
Definition cval (c : ascii) : Z := Z.of_N (N_of_ascii c).
Definition chr (z : Z) : ascii := ascii_of_N (Z.to_N (z `mod` 256)).

Definition NUL : ascii := "000"%char.

Lemma cval_range (c : ascii) : 0 <= cval c < 256.
Proof. unfold cval. pose proof (N_ascii_bounded c). lia. Qed.

Lemma chr_cval (c : ascii) : chr (cval c) = c.
Proof.
  unfold chr. rewrite Z.mod_small by apply cval_range.
  unfold cval. rewrite N2Z.id. apply ascii_N_embedding.
Qed.

Lemma cval_chr (z : Z) : cval (chr z) = z `mod` 256.
Proof.
  unfold chr, cval. pose proof (Z.mod_pos_bound z 256 ltac:(lia)).
  rewrite N_ascii_embedding by lia. lia.
Qed.

Lemma cval_inj (a b : ascii) : cval a = cval b -> a = b.
Proof. intros H. rewrite <- (chr_cval a), H. apply chr_cval. Qed.

#[export] Hint Resolve cval_range : csilk.

(** Decide a statement about one byte by running it on all 256 of them. *)
Definition all_ascii : list ascii := map (fun n => ascii_of_nat n) (seq 0 256).

Lemma all_ascii_complete (c : ascii) : In c all_ascii.
Proof.
  unfold all_ascii. apply in_map_iff. exists (nat_of_ascii c). split.
  - apply ascii_nat_embedding.
  - apply in_seq. pose proof (nat_ascii_bounded c). lia.
Qed.

Lemma forall_ascii (P : ascii -> bool) :
  forallb P all_ascii = true -> forall c, P c = true.
Proof. intros H c. rewrite forallb_forall in H. apply H, all_ascii_complete. Qed.

(** ** Machine integers *)

Definition wrap (w z : Z) : Z := z `mod` 2 ^ w.
Definition wrap64 (z : Z) : Z := wrap 64 z.
Definition wrap32 (z : Z) : Z := wrap 32 z.
Definition wrap16 (z : Z) : Z := wrap 16 z.
Definition SIZE_MAX : Z := 2 ^ 64 - 1.

Lemma wrap64_small (z : Z) : 0 <= z < 2 ^ 64 -> wrap64 z = z.
Proof. intros H. by apply Z.mod_small. Qed.

Lemma wrap32_small (z : Z) : 0 <= z < 2 ^ 32 -> wrap32 z = z.
Proof. intros H. by apply Z.mod_small. Qed.

Lemma wrap64_range (z : Z) : 0 <= wrap64 z < 2 ^ 64.
Proof. by apply Z.mod_pos_bound. Qed.

Lemma wrap32_range (z : Z) : 0 <= wrap32 z < 2 ^ 32.
Proof. by apply Z.mod_pos_bound. Qed.

#[export] Hint Resolve wrap64_range wrap32_range : csilk.

(** [(x + a - 1) & ~(a - 1)] on 64-bit operands. *)
Definition align_up (a x : Z) : Z := Z.land (wrap64 (x + a - 1)) (Z.lnot (a - 1)).

Lemma land_lnot_low (k x : Z) :
  0 <= k -> Z.land x (Z.lnot (2 ^ k - 1)) = x / 2 ^ k * 2 ^ k.
Proof.
  intros Hk. rewrite <- Z.ldiff_land.
  replace (2 ^ k - 1) with (Z.ones k) by (rewrite Z.ones_equiv; lia).
  rewrite Z.ldiff_ones_r, Z.shiftl_mul_pow2, Z.shiftr_div_pow2 by lia. done.
Qed.

Lemma align_up_spec (k x : Z) :
  0 <= k -> 0 <= x -> x + 2 ^ k - 1 < 2 ^ 64 ->
  x <= align_up (2 ^ k) x < x + 2 ^ k /\ align_up (2 ^ k) x `mod` 2 ^ k = 0.
Proof.
  intros Hk Hx Hlt. unfold align_up.
  assert (0 < 2 ^ k) by (apply Z.pow_pos_nonneg; lia).
  rewrite wrap64_small by lia. rewrite land_lnot_low by done.
  split; [|by rewrite Z.mod_mul by lia].
  pose proof (Z.div_mod (x + 2 ^ k - 1) (2 ^ k) ltac:(lia)).
  pose proof (Z.mod_pos_bound (x + 2 ^ k - 1) (2 ^ k) ltac:(lia)). lia.
Qed.

(** Disjoint bit fields: [(hi << k) | lo]. *)
Lemma testbit_high (lo k n : Z) : 0 <= lo < 2 ^ k -> k <= n -> Z.testbit lo n = false.
Proof.
  intros [Hl Hu] Hn. destruct (Z.eq_dec lo 0) as [->|]; [apply Z.bits_0|].
  apply Z.bits_above_log2; [done|]. apply Z.log2_lt_pow2 in Hu; lia.
Qed.

Lemma lor_shiftl_add (hi lo k : Z) :
  0 <= k -> 0 <= lo < 2 ^ k -> Z.lor (Z.shiftl hi k) lo = hi * 2 ^ k + lo.
Proof.
  intros Hk Hlo. rewrite <- Z.shiftl_mul_pow2, <- Z.add_lor_land by done.
  assert (Z.land (Z.shiftl hi k) lo = 0) as ->; [|lia].
  apply Z.bits_inj'. intros n Hn. rewrite Z.land_spec, Z.shiftl_spec, Z.bits_0 by done.
  destruct (Z.lt_ge_cases n k).
  - by rewrite Z.testbit_neg_r by lia.
  - rewrite (testbit_high lo k n) by done. apply andb_false_r.
Qed.

Lemma lor_bound (a b k : Z) : 0 <= k -> 0 <= a < 2 ^ k -> 0 <= b < 2 ^ k -> 0 <= Z.lor a b < 2 ^ k.
Proof.
  intros Hk Ha Hb. assert (0 <= Z.lor a b) by (apply Z.lor_nonneg; lia). split; [done|].
  destruct (Z.eq_dec (Z.lor a b) 0) as [->|]; [lia|]. apply Z.log2_lt_pow2; [lia|].
  rewrite Z.log2_lor by lia. pose proof (Z.log2_nonneg a). pose proof (Z.log2_nonneg b).
  assert (a = 0 \/ Z.log2 a < k) as Ha' by (destruct (Z.eq_dec a 0); [by left|right; apply Z.log2_lt_pow2; lia]).
  assert (b = 0 \/ Z.log2 b < k) as Hb' by (destruct (Z.eq_dec b 0); [by left|right; apply Z.log2_lt_pow2; lia]).
  destruct Ha' as [->|], Hb' as [->|]; [done|rewrite ?Z.lor_0_l in *; change (Z.log2 0) with 0; lia..].
Qed.

Lemma lxor_bound (a b k : Z) : 0 <= k -> 0 <= a < 2 ^ k -> 0 <= b < 2 ^ k -> 0 <= Z.lxor a b < 2 ^ k.
Proof.
  intros Hk Ha Hb. assert (0 <= Z.lxor a b) by (apply Z.lxor_nonneg; lia).
  pose proof (lor_bound a b k Hk Ha Hb). pose proof (Z.sub_lor_land a b).
  assert (0 <= Z.land a b) by (apply Z.land_nonneg; lia). lia.
Qed.

(** ** [strcmp] and [tolower] in the C locale *)

Fixpoint strcmp (a b : bytes) : comparison :=
  match a, b with
  | [], [] => Eq
  | [], _ :: _ => Lt
  | _ :: _, [] => Gt
  | x :: a', y :: b' =>
      match cval x ?= cval y with
      | Eq => strcmp a' b'
      | c => c
      end
  end.

Lemma strcmp_eq (a b : bytes) : strcmp a b = Eq <-> a = b.
Proof.
  revert b. induction a as [|x a IH]; intros [|y b]; simpl; try naive_solver.
  destruct (cval x ?= cval y) eqn:E.
  - apply Z.compare_eq, cval_inj in E as ->. rewrite IH. naive_solver.
  - split; [done|]. intros [= -> ->]. by rewrite Z.compare_refl in E.
  - split; [done|]. intros [= -> ->]. by rewrite Z.compare_refl in E.
Qed.

Lemma strcmp_antisym (a b : bytes) : strcmp b a = CompOpp (strcmp a b).
Proof.
  revert b. induction a as [|x a IH]; intros [|y b]; simpl; try done.
  rewrite (Z.compare_antisym (cval x) (cval y)).
  destruct (cval x ?= cval y); simpl; auto.
Qed.

Lemma strcmp_lt_trans (a b c : bytes) :
  strcmp a b = Lt -> strcmp b c = Lt -> strcmp a c = Lt.
Proof.
  revert b c. induction a as [|x a IH]; intros [|y b] [|z c]; simpl; try done.
  destruct (cval x ?= cval y) eqn:E1; destruct (cval y ?= cval z) eqn:E2; try done;
    intros H1 H2; rewrite ?Z.compare_eq_iff, ?Z.compare_lt_iff in *.
  - rewrite E1, E2, Z.compare_refl. eauto.
  - assert (cval x < cval z) as ->%Z.compare_lt_iff by lia. done.
  - assert (cval x < cval z) as ->%Z.compare_lt_iff by lia. done.
  - assert (cval x < cval z) as ->%Z.compare_lt_iff by lia. done.
Qed.

Definition is_upper (c : ascii) : bool := (65 <=? cval c) && (cval c <=? 90).
Definition tolower (c : ascii) : ascii :=
  if is_upper c then chr (cval c + 32) else c.

(** The C string held in a buffer: the bytes up to the first NUL. *)
Fixpoint cstr (l : bytes) : bytes :=
  match l with
  | [] => []
  | c :: l' => if Ascii.eqb c NUL then [] else c :: cstr l'
  end.

Definition nul_free (s : bytes) : Prop := NUL ∉ s.

Lemma nul_free_cons c s : nul_free (c :: s) <-> c <> NUL /\ nul_free s.
Proof. unfold nul_free. rewrite not_elem_of_cons. naive_solver. Qed.

Lemma cstr_nul_free (l : bytes) : nul_free (cstr l).
Proof.
  induction l as [|c l IH]; simpl; [by apply not_elem_of_nil|].
  destruct (Ascii.eqb_spec c NUL); [by apply not_elem_of_nil|].
  by apply nul_free_cons.
Qed.

Lemma cstr_app (s rest : bytes) : nul_free s -> cstr (s ++ NUL :: rest) = s.
Proof.
  induction s as [|c s IH]; simpl; [done|].
  intros [Hc Hs]%nul_free_cons. destruct (Ascii.eqb_spec c NUL); [done|].
  by rewrite IH.
Qed.

Lemma cstr_id s : nul_free s -> cstr s = s.
Proof.
  induction s as [|c s IH]; [done|]. intros [Hc Hs]%nul_free_cons. cbn.
  destruct (Ascii.eqb_spec c NUL); [done|]. by rewrite IH.
Qed.

Lemma nul_free_app (a b : bytes) : nul_free (a ++ b) <-> nul_free a /\ nul_free b.
Proof. unfold nul_free. rewrite not_elem_of_app. done. Qed.

(** ** Little-endian integers *)

Fixpoint le (w : nat) (n : Z) : bytes :=
  match w with
  | O => []
  | S w' => chr n :: le w' (n / 256)
  end.

Definition of_le (b : bytes) : Z := foldr (fun c acc => cval c + 256 * acc) 0 b.

Lemma le_length (w : nat) (n : Z) : length (le w n) = w.
Proof. revert n. induction w as [|w IH]; intros n; [done|]. cbn. by rewrite IH. Qed.

Lemma of_le_le (w : nat) (n : Z) : 0 <= n < 256 ^ Z.of_nat w -> of_le (le w n) = n.
Proof.
  revert n. induction w as [|w IH]; intros n H; [change (256 ^ Z.of_nat 0) with 1 in H; cbn; lia|]. cbn [le of_le foldr]. fold (of_le (le w (n / 256))).
  rewrite Nat2Z.inj_succ, Z.pow_succ_r in H by lia. rewrite IH, cval_chr by (split; [apply Z.div_pos; lia|apply Z.div_lt_upper_bound; lia]). pose proof (Z.div_mod n 256). lia.
Qed.

Lemma of_le_range (b : bytes) : 0 <= of_le b < 256 ^ Z.of_nat (length b).
Proof.
  induction b as [|c b IH]; [done|]. cbn [of_le foldr length]. fold (of_le b). rewrite Nat2Z.inj_succ, Z.pow_succ_r by lia. pose proof (cval_range c). lia.
Qed.

#[export] Hint Resolve cstr_nul_free : csilk.

(** ** Arrays with checked writes

    [store i c l] is [l[i] = c]; an index outside the array is undefined
    behaviour and has no result. *)
Definition store (i : Z) (c : ascii) (l : bytes) : option bytes :=
  if (0 <=? i) && (i <? Z.of_nat (length l))
  then Some (<[Z.to_nat i := c]> l) else None.

Lemma store_ok (i : Z) (c : ascii) (l : bytes) :
  0 <= i < Z.of_nat (length l) -> store i c l = Some (<[Z.to_nat i := c]> l).
Proof.
  intros H. unfold store.
  destruct (Z.leb_spec 0 i), (Z.ltb_spec i (Z.of_nat (length l))); simpl; done || lia.
Qed.

Lemma store_app (c x : ascii) (pre rest : bytes) :
  store (Z.of_nat (length pre)) c (pre ++ x :: rest) = Some (pre ++ c :: rest).
Proof.
  rewrite store_ok by (rewrite length_app; cbn [length]; lia).
  by rewrite Nat2Z.id, insert_app_r_alt, Nat.sub_diag by lia.
Qed.

Lemma take_insert_end {A} (l : list A) (n : nat) (x : A) :
  (n < length l)%nat -> take (S n) (<[n := x]> l) = take n l ++ [x].
Proof.
  intros H. rewrite (take_S_r _ n x) by by apply list_lookup_insert_eq.
  by rewrite take_insert_ge.
Qed.

(** Run the binds of the option monad, and nothing else. *)
Ltac run_binds := cbn [mbind option_bind].

Lemma drop_insert_here {A} (l : list A) (n : nat) (x : A) :
  (n < length l)%nat -> drop n (<[n := x]> l) = x :: drop (S n) l.
Proof.
  intros H. rewrite (drop_S _ x n) by by apply list_lookup_insert_eq.
  rewrite drop_insert_lt by lia. done.
Qed.

Lemma lookup_app_at {A} (pre l : list A) (i : nat) : (pre ++ l) !! (length pre + i)%nat = l !! i.
Proof. rewrite lookup_app_r by lia. f_equal. lia. Qed.

Lemma lit_cons (c : ascii) (s : string) : lit (String c s) = c :: lit s.
Proof. done. Qed.

(** ** Decimal text *)

Definition is_digit (c : ascii) : bool := (48 <=? cval c) && (cval c <=? 57).
Definition is_space (c : ascii) : bool := (cval c =? 32) || ((9 <=? cval c) && (cval c <=? 13)).

Fixpoint digits_value (acc : Z) (s : bytes) : Z :=
  match s with
  | c :: s' => if is_digit c then digits_value (acc * 10 + (cval c - 48)) s' else acc
  | [] => acc
  end.

Fixpoint skip_space (s : bytes) : bytes :=
  match s with
  | c :: s' => if is_space c then skip_space s' else s
  | [] => []
  end.

Fixpoint dec_loop (fuel : nat) (n : Z) (acc : bytes) : bytes :=
  match fuel with
  | O => acc
  | S fuel' => let acc := chr (48 + n `mod` 10) :: acc in if n / 10 =? 0 then acc else dec_loop fuel' (n / 10) acc
  end.

Lemma is_digit_chr d : 0 <= d < 10 -> is_digit (chr (48 + d)) = true /\ cval (chr (48 + d)) = 48 + d.
Proof. intros H. unfold is_digit. rewrite cval_chr, Z.mod_small by lia. split; [|done]. apply andb_true_intro. lia. Qed.

Lemma dec_loop_value f n : 0 <= n < 10 ^ Z.of_nat f -> forall a, exists w, forall rest,
  digits_value a (dec_loop f n rest) = digits_value (a * w + n) rest.
Proof.
  revert n. induction f as [|f IH]; intros n Hn a.
  { exists 1. intros rest. cbn [dec_loop]. f_equal. cbn in Hn. lia. }
  cbn [dec_loop]. destruct (is_digit_chr (n `mod` 10)) as [Hd Hv]; [apply Z.mod_pos_bound; lia|].
  destruct (Z.eqb_spec (n / 10) 0) as [Hz|Hz].
  - exists 10. intros rest. cbn [digits_value]. rewrite Hd, Hv. f_equal. pose proof (Z.div_mod n 10). lia.
  - destruct (IH (n / 10)) with (a := a) as [w Hw].
    { rewrite Nat2Z.inj_succ, Z.pow_succ_r in Hn by lia. split; [apply Z.div_pos; lia|apply Z.div_lt_upper_bound; lia]. }
    exists (w * 10). intros rest. rewrite Hw. cbn [digits_value]. rewrite Hd, Hv. f_equal. pose proof (Z.div_mod n 10). lia.
Qed.

Lemma dec_loop_head f n rest : exists c t, dec_loop (S f) n rest = c :: t /\ is_digit c = true.
Proof.
  revert n rest. induction f as [|f IH]; intros n rest; cbn [dec_loop];
    destruct (is_digit_chr (n `mod` 10)) as [Hd _]; try (apply Z.mod_pos_bound; lia); destruct (n / 10 =? 0); eauto.
Qed.
