(* ===== verification/Arena.v ===== *)
(** * Arena allocator

    Models src/src/core/primitives/arena.c (the build without DEBUG_ARENA,
    TEST_OOM and __APPLE__): the bump allocator behind every request, its
    chunk list, the thread-local cache of chunks per size tier, and the libc
    heap it draws from.  Addresses and sizes are 64-bit machine integers; a
    pointer is its address, 0 the null pointer.

    The libc heap is a list of live blocks and a list of proposals: the next
    call of [posix_memalign] takes the first proposal and returns it when it is
    an aligned placement disjoint from every live block, and fails otherwise.
    Every behaviour of a conforming allocator, failure included, is one list of
    proposals.  Freeing an address that is not the base of a live block has no
    result ([None]), so a theorem that an operation returns [Some] includes the
    absence of double and invalid frees. *)

From S2P Require Import Prelude.
From stdpp Require Import gmap.

#[local] Open Scope Z_scope.

Definition CSILK_CACHE_LINE_SIZE : Z := 64.
Definition CSILK_DEFAULT_ARENA_SIZE : Z := 4096.
Definition MAX_TLS_CHUNKS_PER_TIER : Z := 8.
Definition CSILK_MAX_TLS_CHUNKS : Z := 16.
(** [sizeof(csilk_arena_chunk_t)] and [sizeof(csilk_arena_t)] on LP64. *)
Definition sizeof_chunk : Z := 64.
Definition sizeof_arena : Z := 64.

(** ** The libc heap *)

(** No object reaches past [PTRDIFF_MAX]. *)
Definition ADDR_LIMIT : Z := 2 ^ 63.

Record heap := mk_heap {
  live : list (Z * Z);
  proposals : list Z;
  contents : gmap Z ascii;
}.

Definition disjoint_blocks (x y : Z * Z) : bool :=
  (x.1 + x.2 <=? y.1) || (y.1 + y.2 <=? x.1).

Definition valid_placement (h : heap) (a sz : Z) : bool :=
  (64 <=? a) && (a `mod` 64 =? 0) && (0 <? sz) && (a + sz <=? ADDR_LIMIT)
  && forallb (disjoint_blocks (a, sz)) h.(live).

Definition posix_memalign (sz : Z) (h : heap) : Z * heap :=
  match h.(proposals) with
  | [] => (0, h)
  | a :: ps =>
      if valid_placement h a sz
      then (a, mk_heap ((a, sz) :: h.(live)) ps h.(contents))
      else (0, mk_heap h.(live) ps h.(contents))
  end.

Definition heap_free (a : Z) (h : heap) : option heap :=
  if existsb (fun b => b.1 =? a) h.(live)
  then Some (mk_heap (List.filter (fun b => negb (b.1 =? a)) h.(live)) h.(proposals) h.(contents))
  else None.

(** ** Chunks, tiers and the thread-local cache *)

Record csilk_arena_chunk_t := mk_chunk {
  caddr : Z;
  csize : Z;
  cused : Z;
}.

(** The flexible array member. *)
Definition cdata (c : csilk_arena_chunk_t) : Z := c.(caddr) + sizeof_chunk.
Definition set_used (c : csilk_arena_chunk_t) (u : Z) : csilk_arena_chunk_t :=
  mk_chunk c.(caddr) c.(csize) u.

Inductive tier := TIER_SMALL | TIER_MEDIUM | TIER_LARGE.

#[export] Instance tier_eq_dec : EqDecision tier.
Proof. solve_decision. Defined.

Definition arena_size_to_tier (size : Z) : option tier :=
  if size =? CSILK_DEFAULT_ARENA_SIZE then Some TIER_SMALL
  else if size =? 16384 then Some TIER_MEDIUM
  else if size =? 65536 then Some TIER_LARGE
  else None.

(** What the operations act on: the libc heap and this thread's cache. *)
Record mem := mk_mem {
  hp : heap;
  tls_tier_free_lists : tier -> list csilk_arena_chunk_t;
  tls_tier_counts : tier -> Z;
}.

Definition upd {A} (f : tier -> A) (t : tier) (x : A) : tier -> A :=
  fun t' => if decide (t = t') then x else f t'.

Definition with_heap (m : mem) (h : heap) : mem :=
  mk_mem h m.(tls_tier_free_lists) m.(tls_tier_counts).

Definition arena_get_total_tls_chunk_count (m : mem) : Z :=
  m.(tls_tier_counts) TIER_SMALL + m.(tls_tier_counts) TIER_MEDIUM + m.(tls_tier_counts) TIER_LARGE.

(** [(size + CLS - 1) & ~(CLS - 1)]: what libc is asked for. *)
Definition aligned_size_of (size : Z) : Z := align_up CSILK_CACHE_LINE_SIZE size.

Definition arena_aligned_alloc (size : Z) (h : heap) : Z * heap :=
  if size >? SIZE_MAX - (CSILK_CACHE_LINE_SIZE - 1) then (0, h)
  else posix_memalign (aligned_size_of size) h.

Definition arena_aligned_free (p : Z) (h : heap) : option heap :=
  if p =? 0 then Some h else heap_free p h.

Definition free_chunk (c : csilk_arena_chunk_t) (h : heap) : option heap :=
  arena_aligned_free c.(caddr) h.

(** Chunk [c] goes to its tier's free list if there is room, and back to libc
    otherwise (the block of code shared by free, reset and the roll-back). *)
Definition release_chunk (c : csilk_arena_chunk_t) (m : mem) : option mem :=
  match arena_size_to_tier c.(csize) with
  | Some t =>
      if (m.(tls_tier_counts) t <? MAX_TLS_CHUNKS_PER_TIER)
         && (arena_get_total_tls_chunk_count m <? CSILK_MAX_TLS_CHUNKS)
      then Some (mk_mem m.(hp)
                   (upd m.(tls_tier_free_lists) t (c :: m.(tls_tier_free_lists) t))
                   (upd m.(tls_tier_counts) t (m.(tls_tier_counts) t + 1)))
      else h ← free_chunk c m.(hp); Some (with_heap m h)
  | None => h ← free_chunk c m.(hp); Some (with_heap m h)
  end.

Fixpoint free_chunks (l : list csilk_arena_chunk_t) (h : heap) : option heap :=
  match l with
  | [] => Some h
  | c :: l' => h' ← free_chunk c h; free_chunks l' h'
  end.

Definition flush_tier (t : tier) (m : mem) : option mem :=
  h ← free_chunks (m.(tls_tier_free_lists) t) m.(hp);
  Some (mk_mem h (upd m.(tls_tier_free_lists) t []) (upd m.(tls_tier_counts) t 0)).

Definition csilk_arena_flush_free_list (m : mem) : option mem :=
  m1 ← flush_tier TIER_SMALL m;
  m2 ← flush_tier TIER_MEDIUM m1;
  flush_tier TIER_LARGE m2.

(** ** The arena *)

Record csilk_arena_t := mk_arena {
  self : Z;                    (**r address of the header itself *)
  ptr : Z;
  end_ : Z;
  head : list csilk_arena_chunk_t;
  default_chunk_size : Z;
  max_total_bytes : Z;
  total_allocated : Z;
  align_64 : bool;
}.

Definition set_ptr (a : csilk_arena_t) (p : Z) : csilk_arena_t :=
  mk_arena a.(self) p a.(end_) a.(head) a.(default_chunk_size) a.(max_total_bytes)
    a.(total_allocated) a.(align_64).
Definition set_head (a : csilk_arena_t) (l : list csilk_arena_chunk_t) : csilk_arena_t :=
  mk_arena a.(self) a.(ptr) a.(end_) l a.(default_chunk_size) a.(max_total_bytes)
    a.(total_allocated) a.(align_64).

Definition csilk_arena_new (dflt : Z) (m : mem) : option csilk_arena_t * mem :=
  let '(p, h) := arena_aligned_alloc sizeof_arena m.(hp) in
  if p =? 0 then (None, with_heap m h)
  else (Some (mk_arena p 0 0 [] (if dflt >? 0 then dflt else CSILK_DEFAULT_ARENA_SIZE) 0 0 false),
        with_heap m h).

(** On a null arena the setters and [csilk_arena_reset] do nothing. *)
Definition csilk_arena_set_alignment (a : csilk_arena_t) (enabled : bool) : csilk_arena_t :=
  mk_arena a.(self) a.(ptr) a.(end_) a.(head) a.(default_chunk_size) a.(max_total_bytes)
    a.(total_allocated) enabled.

Definition csilk_arena_set_max_bytes (a : csilk_arena_t) (max_bytes : Z) : csilk_arena_t :=
  mk_arena a.(self) a.(ptr) a.(end_) a.(head) a.(default_chunk_size) max_bytes 0 a.(align_64).

(** [arena->head->used = arena->ptr - arena->head->data]. *)
Definition sync_head (a : csilk_arena_t) : csilk_arena_t :=
  match a.(head) with
  | c :: l => set_head a (set_used c (wrap64 (a.(ptr) - cdata c)) :: l)
  | [] => a
  end.

(** [chunk_size] of [arena_alloc_slow]. *)
Definition slow_chunk_size (a : csilk_arena_t) (aligned_size alignment : Z) : Z :=
  let cs := if aligned_size >? a.(default_chunk_size) then aligned_size else a.(default_chunk_size) in
  if (alignment >? 8) && (cs <? aligned_size) && (cs <=? SIZE_MAX - alignment)
  then aligned_size + alignment else cs.

(** A chunk of [chunk_size] bytes: from the tier's free list, or from libc. *)
Definition take_chunk (chunk_size : Z) (m : mem) : option csilk_arena_chunk_t * mem :=
  match arena_size_to_tier chunk_size with
  | Some t =>
      match m.(tls_tier_free_lists) t with
      | c :: l => (Some c, mk_mem m.(hp) (upd m.(tls_tier_free_lists) t l)
                             (upd m.(tls_tier_counts) t (m.(tls_tier_counts) t - 1)))
      | [] => let '(p, h) := arena_aligned_alloc (sizeof_chunk + chunk_size) m.(hp) in
              (if p =? 0 then None else Some (mk_chunk p chunk_size 0), with_heap m h)
      end
  | None => let '(p, h) := arena_aligned_alloc (sizeof_chunk + chunk_size) m.(hp) in
            (if p =? 0 then None else Some (mk_chunk p chunk_size 0), with_heap m h)
  end.

Definition arena_alloc_slow (a : csilk_arena_t) (size alignment : Z) (m : mem)
  : option (Z * csilk_arena_t * mem) :=
  if size >? SIZE_MAX - (alignment - 1) then Some (0, a, m) else
  let aligned_size := align_up alignment size in
  let a1 := if negb (a.(ptr) =? 0) then sync_head a else a in
  let chunk_size := slow_chunk_size a1 aligned_size alignment in
  if chunk_size >? SIZE_MAX - sizeof_chunk then Some (0, a1, m) else
  if (a1.(max_total_bytes) >? 0)
     && (chunk_size >? wrap64 (a1.(max_total_bytes) - a1.(total_allocated)))
  then Some (0, a1, m) else
  match take_chunk chunk_size m with
  | (None, m1) => Some (0, a1, m1)
  | (Some c, m1) =>
      let c1 := mk_chunk c.(caddr) chunk_size c.(cused) in
      if chunk_size >? SIZE_MAX - a1.(total_allocated) then
        m2 ← release_chunk c1 m1;
        Some (0, a1, m2)
      else
        let base := cdata c1 in
        let aligned_base := align_up alignment base in
        let p := wrap64 (aligned_base + aligned_size) in
        let c2 := set_used c1 (wrap64 (p - base)) in
        Some (aligned_base,
              mk_arena a1.(self) p (base + chunk_size) (c2 :: a1.(head)) a1.(default_chunk_size)
                a1.(max_total_bytes) (a1.(total_allocated) + chunk_size) a1.(align_64),
              m1)
  end.

(** The null arena is [None]; a zero-size request answers the pointer 1. *)
Definition csilk_arena_alloc (oa : option csilk_arena_t) (size : Z) (m : mem)
  : option (Z * option csilk_arena_t * mem) :=
  match oa with
  | None => Some (if size =? 0 then 1 else 0, None, m)
  | Some a =>
      if size =? 0 then Some (1, Some a, m) else
      if negb a.(align_64) then
        if size >? SIZE_MAX - 7 then Some (0, Some a, m) else
        let aligned_size := align_up 8 size in
        let next := wrap64 (a.(ptr) + aligned_size) in
        if (next <=? a.(end_)) && negb (a.(ptr) =? 0) then Some (a.(ptr), Some (set_ptr a next), m)
        else '(p, a', m') ← arena_alloc_slow a size 8 m; Some (p, Some a', m')
      else
        if size >? SIZE_MAX - 63 then Some (0, Some a, m) else
        let aligned_size := align_up 64 size in
        let aligned_cur := align_up 64 a.(ptr) in
        let next := wrap64 (aligned_cur + aligned_size) in
        if (next <=? a.(end_)) && negb (a.(ptr) =? 0) then Some (aligned_cur, Some (set_ptr a next), m)
        else '(p, a', m') ← arena_alloc_slow a size 64 m; Some (p, Some a', m')
  end.

(** ** Byte contents *)

Fixpoint write_bytes (p : Z) (l : bytes) (g : gmap Z ascii) : gmap Z ascii :=
  match l with
  | [] => g
  | c :: l' => <[p := c]> (write_bytes (p + 1) l' g)
  end.

Fixpoint read_bytes (p : Z) (n : nat) (g : gmap Z ascii) : option bytes :=
  match n with
  | O => Some []
  | S n' => c ← g !! p; l ← read_bytes (p + 1) n' g; Some (c :: l)
  end.

(** [memcpy] / [memset] of the bytes [l] at [p]. *)
Definition mem_put (p : Z) (l : bytes) (m : mem) : mem :=
  with_heap m (mk_heap m.(hp).(live) m.(hp).(proposals) (write_bytes p l m.(hp).(contents))).

Definition csilk_arena_calloc (oa : option csilk_arena_t) (count size : Z) (m : mem)
  : option (Z * option csilk_arena_t * mem) :=
  if (count >? 0) && (size >? SIZE_MAX / count) then Some (0, oa, m) else
  let total := wrap64 (count * size) in
  '(p, oa', m') ← csilk_arena_alloc oa total m;
  if negb (p =? 0) && (total >? 0)
  then Some (p, oa', mem_put p (replicate (Z.to_nat total) NUL) m')
  else Some (p, oa', m').

(** [s] is the string without its terminator. *)
Definition csilk_arena_strdup (oa : option csilk_arena_t) (s : option bytes) (m : mem)
  : option (Z * option csilk_arena_t * mem) :=
  match s with
  | None => Some (0, oa, m)
  | Some s =>
      '(p, oa', m') ← csilk_arena_alloc oa (wrap64 (Z.of_nat (length s) + 1)) m;
      if negb (p =? 0) then Some (p, oa', mem_put p (s ++ [NUL]) m') else Some (p, oa', m')
  end.

(** [s] is the [n] bytes the caller passes; [n + 1] is a [size_t] sum. *)
Definition csilk_arena_strndup (oa : option csilk_arena_t) (s : option bytes) (m : mem)
  : option (Z * option csilk_arena_t * mem) :=
  match s with
  | None => Some (0, oa, m)
  | Some s =>
      '(p, oa', m') ← csilk_arena_alloc oa (wrap64 (Z.of_nat (length s) + 1)) m;
      if negb (p =? 0) then Some (p, oa', mem_put p (s ++ [NUL]) m') else Some (p, oa', m')
  end.

(** ** Giving chunks back *)

(** The loop of [csilk_arena_free] over the chunk list. *)
Fixpoint free_loop (l : list csilk_arena_chunk_t) (total : Z) (m : mem) : option (Z * mem) :=
  match l with
  | [] => Some (total, m)
  | c :: l' =>
      let total' := if c.(csize) >? total then 0 else total - c.(csize) in
      m' ← release_chunk (set_used c 0) m;
      free_loop l' total' m'
  end.

Definition csilk_arena_free (oa : option csilk_arena_t) (m : mem) : option mem :=
  match oa with
  | None => Some m
  | Some a =>
      let a1 := sync_head a in
      '(_, m1) ← free_loop a1.(head) a1.(total_allocated) m;
      h ← arena_aligned_free a1.(self) m1.(hp);
      Some (with_heap m1 h)
  end.

(** The loop of [csilk_arena_reset] over the chunks behind the head. *)
Fixpoint release_all (l : list csilk_arena_chunk_t) (m : mem) : option mem :=
  match l with
  | [] => Some m
  | c :: l' => m' ← release_chunk (set_used c 0) m; release_all l' m'
  end.

Definition csilk_arena_reset (a : csilk_arena_t) (m : mem) : option (csilk_arena_t * mem) :=
  match a.(head) with
  | c :: l =>
      m' ← release_all l m;
      Some (mk_arena a.(self) (cdata c) (cdata c + c.(csize)) [set_used c 0] a.(default_chunk_size)
              a.(max_total_bytes) c.(csize) a.(align_64), m')
  | [] => Some (mk_arena a.(self) 0 0 [] a.(default_chunk_size) a.(max_total_bytes) 0 a.(align_64), m)
  end.

(** Saturating sums of [csilk_arena_get_stats]. *)
Definition sat_add (x y : Z) : Z := if y >? SIZE_MAX - x then SIZE_MAX else x + y.

Fixpoint stats_loop (l : list csilk_arena_chunk_t) (total_size total_used : Z) : Z * Z :=
  match l with
  | [] => (total_size, total_used)
  | c :: l' => stats_loop l' (sat_add total_size c.(csize)) (sat_add total_used c.(cused))
  end.

Definition csilk_arena_get_stats (a : csilk_arena_t) : csilk_arena_t * (Z * Z) :=
  let a1 := sync_head a in (a1, stats_loop a1.(head) 0 0).

Definition csilk_arena_contains (oa : option csilk_arena_t) (p : Z) : bool :=
  match oa with
  | None => false
  | Some a =>
      if p =? 0 then false
      else existsb (fun c => (cdata c <=? p) && (p <? cdata c + c.(csize))) a.(head)
  end.

(** ** Well-formed heaps and caches *)

Definition disj (x y : Z * Z) : Prop := x.1 + x.2 <= y.1 \/ y.1 + y.2 <= x.1.

Definition block_ok (b : Z * Z) : Prop :=
  64 <= b.1 /\ b.1 `mod` 64 = 0 /\ 0 < b.2 /\ b.1 + b.2 <= ADDR_LIMIT.

Record heap_wf (h : heap) : Prop := {
  hw_ok : Forall block_ok h.(live);
  hw_disj : forall b1 b2, b1 ∈ h.(live) -> b2 ∈ h.(live) -> b1 = b2 \/ disj b1 b2;
}.

Definition all_tls (m : mem) : list csilk_arena_chunk_t :=
  m.(tls_tier_free_lists) TIER_SMALL ++ m.(tls_tier_free_lists) TIER_MEDIUM
    ++ m.(tls_tier_free_lists) TIER_LARGE.

Record tls_wf (m : mem) : Prop := {
  tw_count : forall t, m.(tls_tier_counts) t = Z.of_nat (length (m.(tls_tier_free_lists) t));
  tw_tier_max : forall t, m.(tls_tier_counts) t <= MAX_TLS_CHUNKS_PER_TIER;
  tw_max : arena_get_total_tls_chunk_count m <= CSILK_MAX_TLS_CHUNKS;
  tw_tier : forall t, Forall (fun c => arena_size_to_tier c.(csize) = Some t) (m.(tls_tier_free_lists) t);
}.

(** The chunk lies in a live block with room for its header and its data. *)
Definition owned (h : heap) (c : csilk_arena_chunk_t) : Prop :=
  exists sz, (c.(caddr), sz) ∈ h.(live) /\ sizeof_chunk + c.(csize) <= sz /\ 0 < c.(csize).

(** The chunks [L] and the blocks at [ex] are live and pairwise distinct. *)
Record owns (h : heap) (ex : list Z) (L : list csilk_arena_chunk_t) : Prop := {
  ow_chunks : Forall (owned h) L;
  ow_extra : Forall (fun e => exists sz, (e, sz) ∈ h.(live)) ex;
  ow_nodup : NoDup (ex ++ map caddr L);
}.

#[export] Instance owns_proper h ex : Proper ((≡ₚ) ==> iff) (owns h ex).
Proof.
  assert (forall L1 L2, L1 ≡ₚ L2 -> owns h ex L1 -> owns h ex L2) as H.
  { intros L1 L2 HL [? ? ?]. constructor; [by rewrite <- HL|done|].
    assert (map caddr L1 ≡ₚ map caddr L2) as <- by by apply Permutation_map. done. }
  intros L1 L2 HL. split; apply H; [done|by symmetry].
Qed.

(** Two chunks whose addresses differ have disjoint data areas. *)
Lemma owned_disj h c1 c2 :
  heap_wf h -> owned h c1 -> owned h c2 -> caddr c1 <> caddr c2 ->
  disj (cdata c1, csize c1) (cdata c2, csize c2).
Proof.
  intros [_ Hd] (s1 & H1 & ? & ?) (s2 & H2 & ? & ?) Hne.
  destruct (Hd _ _ H1 H2) as [[=]|[Hlt|Hlt]]; [done|left|right];
    unfold cdata, sizeof_chunk in *; simpl in *; lia.
Qed.

Lemma owned_data_range h c :
  heap_wf h -> owned h c ->
  128 <= cdata c /\ cdata c `mod` 64 = 0 /\ cdata c + csize c <= ADDR_LIMIT.
Proof.
  intros [Ho _] (s & H & ? & ?). rewrite Forall_forall in Ho.
  destruct (Ho _ H) as (? & Hm & ? & ?); simpl in *. unfold cdata, sizeof_chunk in *.
  split_and!; [lia| |lia]. rewrite Z.add_mod, Hm by lia. done.
Qed.

(** ** libc *)

Lemma valid_placement_spec h a sz :
  valid_placement h a sz = true ->
  block_ok (a, sz) /\ Forall (disj (a, sz)) h.(live).
Proof.
  unfold valid_placement. rewrite !andb_true_iff. intros [[[[? ?] ?] ?] Hf].
  split; [unfold block_ok; cbn; lia|].
  apply Forall_forall. intros b Hb. rewrite forallb_forall in Hf.
  specialize (Hf b (proj1 (list_elem_of_In _ _) Hb)). unfold disjoint_blocks, disj in *. lia.
Qed.

Lemma posix_memalign_spec sz h p h' :
  heap_wf h -> posix_memalign sz h = (p, h') ->
  heap_wf h' /\ contents h' = contents h /\
  ((p = 0 /\ live h' = live h) \/
   (p <> 0 /\ live h' = (p, sz) :: live h /\ block_ok (p, sz) /\ Forall (disj (p, sz)) (live h))).
Proof.
  intros [Ho Hd] E. unfold posix_memalign in E. destruct (proposals h) as [|a ps]; simplify_eq.
  { split; [done|]. split; [done|]. by left. }
  destruct (valid_placement h a sz) eqn:V; simplify_eq; cbn.
  - destruct (valid_placement_spec _ _ _ V) as [Hb Hf].
    split; [|split; [done|]; right; split_and!; [unfold block_ok in Hb; cbn in Hb; lia|done..]].
    constructor; cbn; [by constructor|]. rewrite Forall_forall in Hf.
    intros b1 b2 H1 H2. apply elem_of_cons in H1 as [->|H1], H2 as [->|H2]; auto.
    right. destruct (Hf _ H1); [right|left]; done.
  - split; [done|]. split; [done|]. by left.
Qed.

Lemma aligned_size_spec size :
  0 < size -> size <= SIZE_MAX - 63 -> size <= aligned_size_of size < size + 64.
Proof.
  intros H1 H2. unfold aligned_size_of, CSILK_CACHE_LINE_SIZE, SIZE_MAX in *.
  pose proof (align_up_spec 6 size) as H. change (2 ^ 6) with 64 in H. lia.
Qed.

Lemma heap_free_spec p sz h :
  heap_wf h -> (p, sz) ∈ live h ->
  exists h', heap_free p h = Some h' /\ heap_wf h' /\ contents h' = contents h /\
    forall b, b ∈ live h' <-> b ∈ live h /\ b.1 <> p.
Proof.
  intros [Ho Hd] Hin. unfold heap_free.
  assert (existsb (fun b => b.1 =? p) (live h) = true) as ->.
  { apply existsb_exists. exists (p, sz). split; [by apply list_elem_of_In|apply Z.eqb_refl]. }
  eexists; split; [done|]. cbn.
  assert (forall b, b ∈ List.filter (fun b => negb (b.1 =? p)) (live h) <-> b ∈ live h /\ b.1 <> p) as Hf.
  { intros b. rewrite !list_elem_of_In, filter_In, negb_true_iff, Z.eqb_neq. done. }
  split; [|by split]. constructor; cbn.
  - apply Forall_forall. intros b [Hb _]%Hf. by eapply Forall_forall in Ho.
  - intros b1 b2 [H1 _]%Hf [H2 _]%Hf. auto.
Qed.

(** ** The chunk cache *)

Lemma upd_same {A} (f : tier -> A) t x : upd f t x t = x.
Proof. unfold upd. by rewrite decide_True. Qed.
Lemma upd_other {A} (f : tier -> A) t t' x : t <> t' -> upd f t x t' = f t'.
Proof. intros H. unfold upd. by rewrite decide_False. Qed.

(** Rewrite the three lookups of an update at a known tier. *)
Ltac upd_simpl t :=
  destruct t; unfold upd; repeat case_decide; try congruence.

Lemma all_tls_push m t c cs :
  all_tls (mk_mem (hp m) (upd (tls_tier_free_lists m) t (c :: tls_tier_free_lists m t)) cs)
    ≡ₚ c :: all_tls m.
Proof. unfold all_tls; cbn. upd_simpl t; cbn; rewrite <- ?Permutation_middle; done. Qed.

Lemma all_tls_pop m t c l cs :
  tls_tier_free_lists m t = c :: l ->
  c :: all_tls (mk_mem (hp m) (upd (tls_tier_free_lists m) t l) cs) ≡ₚ all_tls m.
Proof. intros E. unfold all_tls; cbn. upd_simpl t; rewrite E; cbn; rewrite <- ?Permutation_middle; done. Qed.

Lemma tls_wf_heap m h : tls_wf m -> tls_wf (with_heap m h).
Proof. intros [? ? ? ?]. by constructor. Qed.

Lemma total_upd m h ls t x :
  arena_get_total_tls_chunk_count (mk_mem h ls (upd (tls_tier_counts m) t x)) =
  arena_get_total_tls_chunk_count m + x - tls_tier_counts m t.
Proof. unfold arena_get_total_tls_chunk_count. cbn [tls_tier_counts]. upd_simpl t; lia. Qed.

Lemma tls_wf_push m t c :
  tls_wf m -> arena_size_to_tier (csize c) = Some t ->
  tls_tier_counts m t < MAX_TLS_CHUNKS_PER_TIER ->
  arena_get_total_tls_chunk_count m < CSILK_MAX_TLS_CHUNKS ->
  tls_wf (mk_mem (hp m) (upd (tls_tier_free_lists m) t (c :: tls_tier_free_lists m t))
            (upd (tls_tier_counts m) t (tls_tier_counts m t + 1))).
Proof.
  intros [Hc Hm Ht Hs] Et Hlt1 Hlt2. constructor; cbn.
  - intros t'. destruct (decide (t = t')) as [<-|]; [rewrite !upd_same, Hc; cbn [length]; lia|by rewrite !upd_other].
  - intros t'. destruct (decide (t = t')) as [<-|]; [rewrite upd_same; lia|by rewrite upd_other].
  - rewrite total_upd. lia.
  - intros t'. destruct (decide (t = t')) as [<-|]; [rewrite upd_same; by constructor|by rewrite upd_other].
Qed.

Lemma tls_wf_pop m t c l :
  tls_wf m -> tls_tier_free_lists m t = c :: l ->
  tls_wf (mk_mem (hp m) (upd (tls_tier_free_lists m) t l) (upd (tls_tier_counts m) t (tls_tier_counts m t - 1))).
Proof.
  intros [Hc Hm Ht Hs] E.
  assert (tls_tier_counts m t = Z.of_nat (length l) + 1) as Hn by (rewrite Hc, E; cbn [length]; lia).
  constructor; cbn.
  - intros t'. destruct (decide (t = t')) as [<-|]; [rewrite !upd_same; lia|by rewrite !upd_other].
  - intros t'. pose proof (Hm t). destruct (decide (t = t')) as [<-|]; [rewrite upd_same; lia|by rewrite upd_other].
  - rewrite total_upd. lia.
  - intros t'. destruct (decide (t = t')) as [<-|]; [|by rewrite upd_other].
    rewrite upd_same. specialize (Hs t). rewrite E in Hs. by inversion Hs.
Qed.

(** [c] has been given back, next to the blocks [ex] and the chunks [K]: it is
    cached, or its block is freed; everything else is untouched. *)
Record released (ex : list Z) (K : list csilk_arena_chunk_t) (c : csilk_arena_chunk_t) (m m' : mem) : Prop := {
  rl_heap : heap_wf (hp m');
  rl_tls : tls_wf m';
  rl_owns : owns (hp m') ex (K ++ all_tls m');
  rl_contents : contents (hp m') = contents (hp m);
  rl_sub : forall b, b ∈ live (hp m') -> b ∈ live (hp m);
  rl_keep : forall b, b ∈ live (hp m) -> b.1 <> caddr c -> b ∈ live (hp m');
  rl_gone : caddr c ∈ map caddr (all_tls m') \/ forall sz, (caddr c, sz) ∉ live (hp m');
  rl_tls_mono : forall x, x ∈ map caddr (all_tls m) -> x ∈ map caddr (all_tls m');
}.

(** A chunk is, for the heap, one more block. *)
Lemma owns_as_extra h ex c L : owns h ex (c :: L) -> owns h (caddr c :: ex) L.
Proof.
  intros [Hc Hx Hn]. apply Forall_cons in Hc as [(sz & ? & _) Hc].
  constructor; [done|constructor; eauto|]. cbn in *. by rewrite Permutation_middle.
Qed.

Lemma free_extra_spec h e ex L :
  heap_wf h -> owns h (e :: ex) L ->
  exists h', arena_aligned_free e h = Some h' /\ heap_wf h' /\ contents h' = contents h /\
    (forall b, b ∈ live h' <-> b ∈ live h /\ b.1 <> e) /\ owns h' ex L.
Proof.
  intros Hh [Hc Hx Hn]. apply Forall_cons in Hx as [(sz & Hin) Hx].
  assert (0 < e) as Hnz.
  { destruct Hh as [Hok _]. rewrite Forall_forall in Hok. destruct (Hok _ Hin) as (? & _); cbn in *; lia. }
  destruct (heap_free_spec _ _ _ Hh Hin) as (h' & E & Hh' & Hct & Hlive).
  unfold arena_aligned_free. rewrite (proj2 (Z.eqb_neq e 0)) by lia.
  exists h'. split_and!; [done..|]. cbn in Hn. apply NoDup_cons in Hn as [Hni Hn].
  constructor; [| |done]; apply Forall_forall.
  - intros d Hd. rewrite Forall_forall in Hc. destruct (Hc _ Hd) as (s & ? & ? & ?).
    exists s. rewrite Hlive. split_and!; [done| |done..]. cbn. intros Heq. apply Hni.
    apply elem_of_app. right. rewrite <- Heq. by apply list_elem_of_fmap_2.
  - intros e' He. rewrite Forall_forall in Hx. destruct (Hx _ He) as (s & ?).
    exists s. rewrite Hlive. split; [done|]. cbn. intros Heq. apply Hni, elem_of_app. left. by rewrite <- Heq.
Qed.

Lemma release_chunk_spec ex c K m :
  heap_wf (hp m) -> tls_wf m -> owns (hp m) ex (c :: K ++ all_tls m) ->
  exists m', release_chunk c m = Some m' /\ released ex K c m m'.
Proof.
  intros Hh Ht Ho.
  assert (exists m', (h ← free_chunk c m.(hp); Some (with_heap m h)) = Some m' /\ released ex K c m m') as Hfree.
  { apply owns_as_extra in Ho. destruct (free_extra_spec _ _ _ _ Hh Ho) as (h' & E & Hh' & Hct & Hlive & Ho').
    unfold free_chunk. rewrite E. eexists; split; [done|].
    constructor; cbn; [done|by apply tls_wf_heap|done|done| | | |done].
    - intros b [? _]%Hlive. done.
    - intros b ? ?. by apply Hlive.
    - right. intros s [_ ?]%Hlive. done. }
  unfold release_chunk. destruct (arena_size_to_tier (csize c)) as [t|] eqn:Et; [|exact Hfree].
  destruct (_ && _) eqn:Eb; [|exact Hfree]. apply andb_true_iff in Eb as [B1 B2].
  eexists; split; [done|]. constructor; cbn [hp]; [done|apply tls_wf_push; done || lia| |done|auto|auto| |].
  - rewrite all_tls_push. by rewrite <- Permutation_middle.
  - left. rewrite all_tls_push. by left.
  - intros x Hx. rewrite all_tls_push. by right.
Qed.

Lemma size_to_tier_inj s1 s2 t :
  arena_size_to_tier s1 = Some t -> arena_size_to_tier s2 = Some t -> s1 = s2.
Proof. unfold arena_size_to_tier, CSILK_DEFAULT_ARENA_SIZE. repeat case_match; intros; simplify_eq; lia. Qed.

Lemma owned_mono h h' c : (forall b, b ∈ live h -> b ∈ live h') -> owned h c -> owned h' c.
Proof. intros H (sz & ? & ?). exists sz. auto. Qed.

Lemma owns_mono h h' ex L : (forall b, b ∈ live h -> b ∈ live h') -> owns h ex L -> owns h' ex L.
Proof.
  intros H [Hc Hx Hn]. constructor; [| |done].
  - eapply Forall_impl; [done|]. intros. by eapply owned_mono.
  - eapply Forall_impl; [done|]. intros e (sz & ?). exists sz. auto.
Qed.

(** A block just obtained from libc is not at the address of an owned one. *)
Lemma fresh_owns h h' ex L p sz u cs :
  heap_wf h -> owns h ex L -> Forall (disj (p, sz)) (live h) -> block_ok (p, sz) ->
  live h' = (p, sz) :: live h -> 0 < cs -> sizeof_chunk + cs <= sz ->
  owns h' ex (mk_chunk p cs u :: L).
Proof.
  intros Hw Ho Hf Hb El Hcs Hsz.
  assert (forall a s, (a, s) ∈ live h -> a <> p) as Hne.
  { intros a s Hin ->. rewrite Forall_forall in Hf. pose proof (Hf _ Hin) as [Hd|Hd]; cbn in Hd;
      destruct Hw as [Hok _]; rewrite Forall_forall in Hok; destruct (Hok _ Hin) as (_ & _ & ? & _);
      unfold block_ok in Hb; cbn in *; lia. }
  assert (p ∉ ex ++ map caddr L) as Hp.
  { destruct Ho as [Hc Hx _]. rewrite Forall_forall in Hx. rewrite Forall_forall in Hc. rewrite elem_of_app. intros [Hin|Hin].
    - destruct (Hx _ Hin) as (s & Hs). by apply (Hne p s).
    - apply list_elem_of_fmap in Hin as (c & -> & Hin). destruct (Hc _ Hin) as (s & Hs & _). by apply (Hne _ s Hs). }
  apply (owns_mono _ h') in Ho as [Hc Hx Hn]; [|rewrite El; by right].
  constructor; [|done|].
  - constructor; [|done]. exists sz. rewrite El. split; [by left|done].
  - cbn. rewrite <- Permutation_middle. by apply NoDup_cons.
Qed.

Lemma arena_aligned_alloc_spec size h p h' :
  heap_wf h -> 0 < size -> arena_aligned_alloc size h = (p, h') ->
  heap_wf h' /\ contents h' = contents h /\
  ((p = 0 /\ live h' = live h) \/
   exists sz, p <> 0 /\ size <= sz /\ live h' = (p, sz) :: live h /\ block_ok (p, sz) /\ Forall (disj (p, sz)) (live h)).
Proof.
  intros Hw Hs. unfold arena_aligned_alloc, CSILK_CACHE_LINE_SIZE.
  destruct (Z.gtb_spec size (SIZE_MAX - (64 - 1))).
  { intros [= <- <-]. split; [done|]. split; [done|]. by left. }
  intros (Hw' & Hc & Hd)%posix_memalign_spec; [|done]. split; [done|]. split; [done|].
  destruct Hd as [?|(? & ? & ? & ?)]; [by left|right]. exists (aligned_size_of size).
  pose proof (aligned_size_spec size). split_and!; [done|lia|done..].
Qed.

(** What [take_chunk] answers. *)
Record taken (ex : list Z) (K : list csilk_arena_chunk_t) (cs : Z) (oc : option csilk_arena_chunk_t) (m m' : mem) : Prop := {
  tk_heap : heap_wf (hp m');
  tk_tls : tls_wf m';
  tk_contents : contents (hp m') = contents (hp m);
  tk_mono : forall b, b ∈ live (hp m) -> b ∈ live (hp m');
  tk_owns : match oc with
            | None => owns (hp m') ex (K ++ all_tls m')
            | Some c => csize c = cs /\ owns (hp m') ex (c :: K ++ all_tls m')
            end;
  tk_new : forall c b, oc = Some c -> b ∈ live (hp m) -> b.1 = caddr c -> b.1 ∈ map caddr (all_tls m);
  tk_live : forall b, b ∈ live (hp m') -> b ∈ live (hp m) \/ exists c, oc = Some c /\ b.1 = caddr c;
  tk_kept : forall x, x ∈ map caddr (all_tls m) -> x ∈ map caddr (all_tls m') \/ exists c, oc = Some c /\ x = caddr c;
}.

(** A block just obtained from libc is at a new address. *)
Lemma fresh_addr h p sz b :
  heap_wf h -> Forall (disj (p, sz)) (live h) -> block_ok (p, sz) -> b ∈ live h -> b.1 <> p.
Proof.
  intros [Hok _] Hf Hb Hin Heq. rewrite Forall_forall in Hok. rewrite Forall_forall in Hf.
  destruct (Hok _ Hin) as (_ & _ & ? & _). destruct (Hf _ Hin); unfold block_ok in Hb; cbn in *; lia.
Qed.

Lemma take_chunk_spec ex K cs m oc m' :
  heap_wf (hp m) -> tls_wf m -> owns (hp m) ex (K ++ all_tls m) -> 0 < cs ->
  take_chunk cs m = (oc, m') -> taken ex K cs oc m m'.
Proof.
  intros Hw Ht Ho Hcs.
  assert (forall p h, arena_aligned_alloc (sizeof_chunk + cs) (hp m) = (p, h) ->
    taken ex K cs (if p =? 0 then None else Some (mk_chunk p cs 0)) m (with_heap m h)) as Hsys.
  { intros p h (Hw' & Hct & Hd)%arena_aligned_alloc_spec; [|done|unfold sizeof_chunk; lia].
    constructor; cbn; [done|by apply tls_wf_heap|done| | | | |by left].
    - destruct Hd as [[_ ->]|(? & _ & _ & -> & _)]; [done|by right].
    - destruct Hd as [[-> El]|(sz & Hnz & Hle & El & Hb & Hf)]; cbn.
      + eapply owns_mono; [|done]. by rewrite El.
      + rewrite (proj2 (Z.eqb_neq p 0)) by done. split; [done|]. by apply (fresh_owns (hp m) h ex (K ++ all_tls m) p sz).
    - intros c b E Hin Heq. destruct Hd as [[-> El]|(sz & Hnz & Hle & El & Hb & Hf)]; [done|].
      rewrite (proj2 (Z.eqb_neq p 0)) in E by done. simplify_eq. by destruct (fresh_addr (hp m) p sz b).
    - intros b Hb. destruct Hd as [[_ El]|(sz & Hnz & _ & El & _)]; rewrite El in Hb; [by left|].
      apply elem_of_cons in Hb as [->|]; [|by left]. right. rewrite (proj2 (Z.eqb_neq p 0)) by done. eauto. }
  unfold take_chunk. destruct (arena_size_to_tier cs) as [t|] eqn:Et.
  - destruct (tls_tier_free_lists m t) as [|c l] eqn:El.
    + destruct (arena_aligned_alloc _ _) eqn:E. intros [= <- <-]. by apply Hsys.
    + intros [= <- <-]. constructor; cbn [hp]; [done|by eapply tls_wf_pop|done|done| | |by left|].
      3: { intros x. rewrite <- (all_tls_pop m t c l (tls_tier_counts m)) by done.
           intros [->|?]%elem_of_cons; [right; eauto|by left]. }
      2: { intros c' b [= <-] Hin ->. apply list_elem_of_fmap_2. rewrite <- (all_tls_pop m t c l (tls_tier_counts m)) by done. by left. }
      split.
      * pose proof (tw_tier _ Ht t) as Hf. rewrite El in Hf. inversion Hf; subst. by eapply size_to_tier_inj.
      * rewrite Permutation_middle. by rewrite all_tls_pop.
  - destruct (arena_aligned_alloc _ _) eqn:E. intros [= <- <-]. by apply Hsys.
Qed.

(** ** Well-formed arenas and the regions they have handed out *)

Record arena_wf (a : csilk_arena_t) (m : mem) : Prop := {
  aw_heap : heap_wf (hp m);
  aw_tls : tls_wf m;
  aw_owns : owns (hp m) [self a] (head a ++ all_tls m);
  aw_dflt : 0 < default_chunk_size a < 2 ^ 64;
  aw_max : 0 <= max_total_bytes a < 2 ^ 64;
  aw_total : 0 <= total_allocated a < 2 ^ 64;
  aw_ptr : match head a with
           | [] => ptr a = 0 /\ end_ a = 0
           | c :: _ => end_ a = cdata c + csize c /\ cdata c <= ptr a <= end_ a /\ ptr a `mod` 8 = 0
           end;
}.

(** The region lies in the used part of the active chunk, or in an older one. *)
Definition in_use (a : csilk_arena_t) (r : Z * Z) : Prop :=
  match head a with
  | [] => False
  | c :: l => (cdata c <= r.1 /\ r.1 + r.2 <= ptr a) \/
              exists c', c' ∈ l /\ cdata c' <= r.1 /\ r.1 + r.2 <= cdata c' + csize c'
  end.

(** [regs] is a list of pairwise disjoint, non-empty regions in use. *)
Fixpoint separate (l : list (Z * Z)) : Prop :=
  match l with
  | [] => True
  | r :: l' => 0 < r.2 /\ Forall (disj r) l' /\ separate l'
  end.

Record regs_ok (a : csilk_arena_t) (regs : list (Z * Z)) : Prop := {
  ro_use : Forall (in_use a) regs;
  ro_sep : separate regs;
}.

(** [sync_head] only changes bookkeeping. *)
Lemma sync_head_fields a :
  self (sync_head a) = self a /\ ptr (sync_head a) = ptr a /\ end_ (sync_head a) = end_ a /\
  default_chunk_size (sync_head a) = default_chunk_size a /\
  max_total_bytes (sync_head a) = max_total_bytes a /\
  total_allocated (sync_head a) = total_allocated a /\ align_64 (sync_head a) = align_64 a /\
  map (fun c => (caddr c, csize c)) (head (sync_head a)) = map (fun c => (caddr c, csize c)) (head a).
Proof. unfold sync_head. by destruct (head a) eqn:E; cbn; rewrite ?E. Qed.

Lemma sync_head_addrs a :
  self (sync_head a) = self a /\ map caddr (head (sync_head a)) = map caddr (head a).
Proof. unfold sync_head. by destruct (head a) eqn:E; cbn; rewrite ?E. Qed.

Lemma sync_head_wf a m : arena_wf a m -> arena_wf (sync_head a) m.
Proof.
  intros [? ? Ho ? ? ? Hp]. unfold sync_head. destruct (head a) as [|c l] eqn:E; [by constructor; rewrite ?E|].
  constructor; cbn; [done..| |done|done|done|done].
  destruct Ho as [Hc Hx Hn]. constructor; [|done|done].
  inversion Hc; subst. by constructor.
Qed.

Lemma sync_head_regs a regs : regs_ok a regs -> regs_ok (sync_head a) regs.
Proof.
  intros [Hu Hs]. constructor; [|done]. eapply Forall_impl; [done|]. intros r.
  unfold in_use, sync_head. by destruct (head a) as [|c l] eqn:E; cbn; rewrite ?E.
Qed.

(** The regions of an arena lie in its chunks, so a chunk at a new address is
    disjoint from all of them. *)
Lemma in_use_chunk a m r :
  arena_wf a m -> in_use a r ->
  exists c, c ∈ head a /\ cdata c <= r.1 /\ r.1 + r.2 <= cdata c + csize c.
Proof.
  intros Hw. destruct Hw as [_ _ _ _ _ _ Hp]. unfold in_use.
  destruct (head a) as [|c l]; [done|]. intros [[? ?]|(c' & Hin & ? & ?)].
  - exists c. split; [by left|]. lia.
  - exists c'. split; [by right|done].
Qed.

Lemma fresh_chunk_regs a m h c regs :
  arena_wf a m -> regs_ok a regs -> heap_wf h ->
  (forall b, b ∈ live (hp m) -> b ∈ live h) ->
  owns h [self a] (c :: head a ++ all_tls m) ->
  Forall (disj (cdata c, csize c)) regs.
Proof.
  intros Hw [Hu Hs] Hh Hmono [Hc _ Hn]. apply Forall_forall. intros r Hr.
  rewrite Forall_forall in Hu. destruct (in_use_chunk _ _ _ Hw (Hu _ Hr)) as (d & Hd & H1 & H2).
  apply Forall_cons in Hc as [Hoc Hc]. rewrite Forall_forall in Hc.
  assert (caddr c <> caddr d) as Hne.
  { cbn in Hn. rewrite NoDup_cons, NoDup_cons in Hn. destruct Hn as (_ & Hni & _). intros Heq. apply Hni.
    rewrite Heq. apply list_elem_of_fmap_2, elem_of_app. by left. }
  assert (owned h d) as Hod by (apply Hc, elem_of_app; by left).
  destruct (owned_disj h c d Hh Hoc Hod Hne); [left|right]; cbn in *; lia.
Qed.

(** Every live block is the arena's, cached, or one of [base]. *)
Definition accounted (base : list (Z * Z)) (a : csilk_arena_t) (m : mem) : Prop :=
  forall b, b ∈ live (hp m) -> b.1 ∈ self a :: map caddr (head a ++ all_tls m) \/ b ∈ base.

Lemma accounted_eq base a a' m :
  self a' = self a -> map caddr (head a') = map caddr (head a) ->
  accounted base a m -> accounted base a' m.
Proof. intros Es Eh H b Hb. rewrite Es, map_app, Eh, <- map_app. auto. Qed.

(** A live block stays accounted for when a chunk is taken ... *)
Lemma accounted_take base a a' cs oc m m1 :
  taken [self a] (head a) cs oc m m1 -> self a' = self a ->
  map caddr (head a') = (match oc with Some c => [caddr c] | None => [] end) ++ map caddr (head a) ->
  accounted base a m -> accounted base a' m1.
Proof.
  intros Htk Es Eh H b Hb. rewrite Es, map_app, Eh.
  destruct (tk_live _ _ _ _ _ _ Htk b Hb) as [Hb'|(c & -> & Hc)].
  2: { left. right. rewrite Hc. by left. }
  destruct (H b Hb') as [Hin|]; [left|by right]. rewrite map_app in Hin.
  apply elem_of_cons in Hin as [->|Hin]; [by left|right]. rewrite !elem_of_app in *.
  destruct Hin as [?|Hin]; [by left; right|].
  destruct (tk_kept _ _ _ _ _ _ Htk _ Hin) as [?|(c & -> & ->)]; [by right|]. left; left. by left.
Qed.

(** ... and when one is given back. *)
Lemma accounted_release base a a1 ex c m m' :
  released ex (head a) c m m' -> self a1 = self a -> map caddr (head a1) = caddr c :: map caddr (head a) ->
  accounted base a1 m -> accounted base a m'.
Proof.
  intros [_ _ _ _ Hs _ Hg Hm] Es Eh H b Hb. destruct (H b (Hs b Hb)) as [Hin|]; [left|by right].
  rewrite map_app in *. rewrite Es, Eh in Hin. cbn in Hin. rewrite !elem_of_cons, elem_of_app in *.
  destruct Hin as [?|[Hc|[?|Hin]]]; auto.
  destruct Hg as [Hg|Hg]; [rewrite Hc; auto|]. destruct b as [p sz]. cbn in Hc. subst p. by destruct (Hg sz).
Qed.

(** What an allocation request answers. *)
Record alloc_post (a : csilk_arena_t) (m : mem) (regs : list (Z * Z)) (size align p : Z)
    (a' : csilk_arena_t) (m' : mem) : Prop := {
  ap_wf : arena_wf a' m';
  ap_self : self a' = self a /\ align_64 a' = align_64 a;
  ap_contents : contents (hp m') = contents (hp m);
  ap_keep : forall b, b ∈ live (hp m) -> b.1 ∉ map caddr (all_tls m) -> b ∈ live (hp m');
  ap_acc : forall base, accounted base a m -> accounted base a' m';
  ap_result : (p = 0 /\ regs_ok a' regs) \/
              (p <> 0 /\ p `mod` align = 0 /\ regs_ok a' ((p, size) :: regs));
}.

(** The chunk size is at least the aligned request: the branch that would add
    the alignment is never taken. *)
Lemma slow_chunk_size_eq a asz al :
  slow_chunk_size a asz al = Z.max asz (default_chunk_size a).
Proof.
  unfold slow_chunk_size. destruct (Z.gtb_spec asz (default_chunk_size a)).
  - rewrite (proj2 (Z.ltb_ge _ _)), andb_false_r by lia. cbn. lia.
  - rewrite (proj2 (Z.ltb_ge _ _)), andb_false_r by lia. cbn. lia.
Qed.

(** Changing [used] changes nothing the ownership predicates look at. *)
Lemma owns_set_used h ex c u L : owns h ex (set_used c u :: L) <-> owns h ex (c :: L).
Proof. by split; intros [Hc Hx Hn]; (constructor; [|done|done]); inversion Hc; subst; constructor. Qed.

Lemma align_up_aligned k x :
  0 <= k -> 0 <= x -> x + 2 ^ k - 1 < 2 ^ 64 -> x `mod` 2 ^ k = 0 -> align_up (2 ^ k) x = x.
Proof.
  intros Hk Hx Hb Hm. destruct (align_up_spec k x Hk Hx Hb) as [Hr Hm'].
  assert (0 < 2 ^ k) by (apply Z.pow_pos_nonneg; lia).
  apply Z.mod_divide in Hm as [u ->], Hm' as [v Hv]; [|lia..]. rewrite Hv in *. f_equal.
  assert (u <= v) by (apply (Z.mul_le_mono_pos_r _ _ (2 ^ k)); lia).
  assert (v < u + 1) by (apply (Z.mul_lt_mono_pos_r (2 ^ k)); lia). lia.
Qed.

Lemma mod_8_of_64 x : x `mod` 64 = 0 -> x `mod` 8 = 0.
Proof. intros H. apply Z.mod_divide in H as [u ->]; [|lia]. replace (u * 64) with (u * 8 * 8) by lia. by apply Z.mod_mul. Qed.

(** The alignments in use are 8 and 64. *)
Definition good_align (k : Z) : Prop := k = 3 \/ k = 6.

Lemma good_align_8 k x : good_align k -> x `mod` 2 ^ k = 0 -> x `mod` 8 = 0.
Proof. intros [->| ->]; [done|apply mod_8_of_64]. Qed.

Lemma good_align_64 k x : good_align k -> x `mod` 64 = 0 -> x `mod` 2 ^ k = 0.
Proof. intros [->| ->]; [apply mod_8_of_64|done]. Qed.

Lemma good_align_range k : good_align k -> 0 <= k /\ 8 <= 2 ^ k <= 64.
Proof. intros [->| ->]; cbn; lia. Qed.

(** A new chunk takes over as the head and serves the request. *)
Lemma slow_take_over a m c m1 regs size k :
  arena_wf a m -> regs_ok a regs -> good_align k -> 0 < size <= SIZE_MAX - 63 ->
  taken [self a] (head a) (csize c) (Some c) m m1 ->
  align_up (2 ^ k) size <= csize c -> total_allocated a + csize c < 2 ^ 64 ->
  let p := wrap64 (align_up (2 ^ k) (cdata c) + align_up (2 ^ k) size) in
  alloc_post a m regs size (2 ^ k) (align_up (2 ^ k) (cdata c))
    (mk_arena (self a) p (cdata c + csize c) (set_used c (wrap64 (p - cdata c)) :: head a)
       (default_chunk_size a) (max_total_bytes a) (total_allocated a + csize c) (align_64 a)) m1.
Proof.
  intros Hw Hr Hk Hs Htk Hle Htot p.
  pose proof Htk as [Hh Ht Hct Hmono [_ Ho] _ _ _].
  destruct (good_align_range k Hk) as [Hk0 Hk8]. unfold SIZE_MAX in *.
  destruct (align_up_spec k size) as [Hsz Hszm]; [lia..|].
  assert (owned (hp m1) c) as Hoc by (destruct Ho as [Hc _ _]; by inversion Hc).
  destruct (owned_data_range _ _ Hh Hoc) as (Hd1 & Hd2 & Hd3). unfold ADDR_LIMIT in *.
  assert (align_up (2 ^ k) (cdata c) = cdata c) as Eb
    by (apply align_up_aligned; [lia..|by apply good_align_64]).
  assert (Forall (disj (cdata c, csize c)) regs) as Hdisj.
  { eapply (fresh_chunk_regs a m1 (hp m1)); [|done..]. destruct Hw. constructor; try done.
    destruct Ho as [Hc Hx Hn]. constructor; [by inversion Hc|done|].
    cbn in *. rewrite !NoDup_cons in *. destruct Hn as (Hn1 & _ & Hn2). split; [|done].
    intros ?. apply Hn1. by right. }
  assert (p = cdata c + align_up (2 ^ k) size) as Ep by (unfold p; rewrite Eb, wrap64_small; lia).
  rewrite Ep, Eb. destruct Hw. constructor; cbn -[wrap64 align_up]; [|done|done|auto|by intros base; apply (accounted_take base a _ _ _ m m1 Htk)|].
  - constructor; cbn -[wrap64 align_up]; [done|done| |done|done|lia|].
    + by rewrite app_comm_cons, <- app_comm_cons, owns_set_used.
    + change (cdata (set_used c _)) with (cdata c). split; [done|]. split; [lia|].
      rewrite Z.add_mod, (mod_8_of_64 _ Hd2), (good_align_8 _ _ Hk Hszm) by lia. done.
  - right. split; [lia|]. split; [by apply good_align_64|]. destruct Hr as [Hu Hsep]. constructor.
    + constructor; [left; cbn -[align_up cdata]; change (cdata (set_used c _)) with (cdata c); lia|].
      eapply Forall_impl; [exact Hu|]. intros r. unfold in_use. cbn -[align_up cdata]. revert aw_ptr0.
      destruct (head a) as [|d l]; [done|]. intros ? Hin. right.
      destruct Hin as [[? ?]|(d' & ? & ?)]; [exists d|exists d']; (split; [by constructor|]); [lia|done].
    + split; [cbn; lia|]. split; [|done]. eapply Forall_impl; [exact Hdisj|].
      intros r [?|?]; [left|right]; cbn in *; lia.
Qed.

(** The request is refused and only bookkeeping has changed. *)
Lemma alloc_post_refused a m m' regs size al :
  arena_wf a m -> regs_ok a regs ->
  heap_wf (hp m') -> tls_wf m' -> owns (hp m') [self a] (head a ++ all_tls m') ->
  contents (hp m') = contents (hp m) -> (forall b, b ∈ live (hp m) -> b.1 ∉ map caddr (all_tls m) -> b ∈ live (hp m')) ->
  (forall base, accounted base a m -> accounted base a m') ->
  alloc_post a m regs size al 0 a m'.
Proof.
  intros [? ? ? ? ? ? ?] Hr ? ? ? ? ? ?. constructor; [by constructor|done|done|done|done|]. by left.
Qed.

Lemma alloc_post_refused_here a m regs size al :
  arena_wf a m -> regs_ok a regs -> alloc_post a m regs size al 0 a m.
Proof. intros Hw ?. by apply alloc_post_refused; try apply Hw. Qed.

Lemma slow_synced a m regs size k :
  arena_wf a m -> regs_ok a regs -> good_align k -> 0 < size <= SIZE_MAX - 63 ->
  let cs := slow_chunk_size a (align_up (2 ^ k) size) (2 ^ k) in
  0 < cs <= SIZE_MAX - sizeof_chunk ->
  exists p a' m',
    match take_chunk cs m with
    | (None, m1) => Some (0, a, m1)
    | (Some c, m1) =>
        let c1 := mk_chunk c.(caddr) cs c.(cused) in
        if cs >? SIZE_MAX - a.(total_allocated) then m2 ← release_chunk c1 m1; Some (0, a, m2)
        else
          let base := cdata c1 in
          let aligned_base := align_up (2 ^ k) base in
          let p := wrap64 (aligned_base + align_up (2 ^ k) size) in
          Some (aligned_base,
                mk_arena a.(self) p (base + cs) (set_used c1 (wrap64 (p - base)) :: a.(head))
                  a.(default_chunk_size) a.(max_total_bytes) (a.(total_allocated) + cs) a.(align_64), m1)
    end = Some (p, a', m') /\ alloc_post a m regs size (2 ^ k) p a' m'.
Proof.
  intros Hw Hr Hk Hs cs Hcs. destruct (take_chunk cs m) as [oc m1] eqn:Et.
  pose proof (take_chunk_spec [self a] (head a) cs m oc m1 (aw_heap _ _ Hw) (aw_tls _ _ Hw)
    (aw_owns _ _ Hw) (proj1 Hcs) Et) as Htk.
  destruct oc as [c|].
  2: { eexists _, _, _. split; [done|]. apply alloc_post_refused; try apply Htk; auto.
       - intros. by apply Htk.
       - intros base. by apply (accounted_take base a a cs None). }
  assert (csize c = cs) as Ec by apply Htk. rewrite <- Ec. cbn zeta.
  assert (mk_chunk (caddr c) (csize c) (cused c) = c) as -> by by destruct c.
  destruct (Z.gtb_spec (csize c) (SIZE_MAX - total_allocated a)).
  - pose proof Htk as [Hh Ht Hct Hmono [_ Ho] Hnew _ _].
    destruct (release_chunk_spec [self a] c (head a) m1 Hh Ht Ho) as (m2 & -> & Hrl).
    pose proof Hrl as [? ? ? ? ? Hkeep _ _].
    eexists _, _, _. split; [done|]. apply alloc_post_refused; [done..|congruence| |].
    + intros b Hb Hni. apply Hkeep; [by apply Hmono|]. intros Heq. by apply Hni, (Hnew c).
    + intros base Hacc. apply (accounted_release base a (set_head a (c :: head a)) _ _ _ _ Hrl); [done..|].
      by apply (accounted_take base a _ _ _ m m1 Htk).
  - eexists _, _, _. split; [done|]. apply slow_take_over; [done..|by rewrite Ec| |unfold SIZE_MAX in *; lia].
    rewrite Ec. unfold cs. rewrite slow_chunk_size_eq. lia.
Qed.

Lemma alloc_post_sync a m regs size al p a' m' :
  alloc_post (sync_head a) m regs size al p a' m' -> alloc_post a m regs size al p a' m'.
Proof.
  intros [? [? ?] ? ? Hacc ?]. destruct (sync_head_fields a) as (? & _ & _ & _ & _ & _ & ? & Em).
  constructor; try done; [split; congruence|]. intros base H'. apply Hacc. revert H'. apply accounted_eq; [done|].
  apply (f_equal (map fst)) in Em. by rewrite !map_map in Em.
Qed.

Lemma arena_alloc_slow_spec a m regs size k :
  arena_wf a m -> regs_ok a regs -> good_align k -> 0 < size <= SIZE_MAX - 63 ->
  exists p a' m', arena_alloc_slow a size (2 ^ k) m = Some (p, a', m') /\
    alloc_post a m regs size (2 ^ k) p a' m'.
Proof.
  intros Hw Hr Hk Hs. destruct (good_align_range k Hk) as [Hk0 Hk8]. unfold arena_alloc_slow.
  destruct (Z.gtb_spec size (SIZE_MAX - (2 ^ k - 1))); [lia|].
  set (a1 := if negb (ptr a =? 0) then sync_head a else a).
  assert (arena_wf a1 m) as Hw1 by (subst a1; case_match; [by apply sync_head_wf|done]).
  assert (regs_ok a1 regs) as Hr1 by (subst a1; case_match; [by apply sync_head_regs|done]).
  assert (forall p a' m', alloc_post a1 m regs size (2 ^ k) p a' m' -> alloc_post a m regs size (2 ^ k) p a' m') as Hpost
    by (subst a1; case_match; [by intros; apply alloc_post_sync|done]).
  cbn zeta. set (cs := slow_chunk_size a1 _ _).
  assert (0 < cs).
  { subst cs. rewrite slow_chunk_size_eq. pose proof (aw_dflt _ _ Hw1). lia. }
  destruct (Z.gtb_spec cs (SIZE_MAX - sizeof_chunk));
    [eexists _, _, _; split; [done|]; by apply Hpost, alloc_post_refused_here|].
  destruct (_ && _); [eexists _, _, _; split; [done|]; by apply Hpost, alloc_post_refused_here|].
  destruct (slow_synced a1 m regs size k Hw1 Hr1 Hk Hs) as (p & a' & m' & E & Hp); [fold cs; lia|].
  exists p, a', m'. split; [exact E|by apply Hpost].
Qed.

(** The fast path: the bump pointer moves past the region. *)
Lemma fast_path a m regs size k p :
  arena_wf a m -> regs_ok a regs -> good_align k -> 0 < size <= 2 ^ 62 -> ptr a <> 0 ->
  p = align_up (2 ^ k) (ptr a) ->
  wrap64 (p + align_up (2 ^ k) size) <= end_ a ->
  alloc_post a m regs size (2 ^ k) p (set_ptr a (wrap64 (p + align_up (2 ^ k) size))) m.
Proof.
  intros Hw [Hu Hsep] Hk Hs Hnz -> Hle. destruct (good_align_range k Hk) as [Hk0 Hk8].
  pose proof (aw_ptr _ _ Hw) as Hp. unfold in_use in Hu. destruct (head a) as [|c l] eqn:Eh; [lia|].
  destruct Hp as (He & Hr & H8).
  assert (owned (hp m) c) as Hoc.
  { pose proof (aw_owns _ _ Hw) as [Hc _ _]. rewrite Eh in Hc. by inversion Hc. }
  destruct (owned_data_range _ _ (aw_heap _ _ Hw) Hoc) as (? & ? & ?). unfold ADDR_LIMIT in *.
  destruct (align_up_spec k size) as [Hsz Hszm]; [lia..|].
  destruct (align_up_spec k (ptr a)) as [Hpr Hpm]; [lia..|].
  assert (wrap64 (align_up (2 ^ k) (ptr a) + align_up (2 ^ k) size)
          = align_up (2 ^ k) (ptr a) + align_up (2 ^ k) size) as E by (apply wrap64_small; lia).
  rewrite E in *. destruct Hw. constructor; [|done|done|done|done|].
  - constructor; try done. cbn -[cdata align_up]. rewrite Eh. split; [done|]. split; [lia|].
    rewrite Z.add_mod, (good_align_8 _ _ Hk Hpm), (good_align_8 _ _ Hk Hszm) by lia. done.
  - right. split; [lia|]. split; [done|]. constructor.
    + unfold in_use. cbn -[cdata align_up]. rewrite Eh. constructor; [left; cbn -[cdata align_up]; lia|].
      eapply Forall_impl; [exact Hu|]. intros r [[? ?]|?]; [left; lia|by right].
    + split; [cbn; lia|]. split; [|done]. eapply Forall_impl; [exact Hu|]. intros r Hin.
      destruct Hin as [?|(c' & Hin & ? & ?)]; [right; cbn -[align_up]; lia|].
      rewrite Eh in aw_owns0. destruct aw_owns0 as [Hc _ Hn]. apply Forall_cons in Hc as [_ Hc].
      rewrite Forall_forall in Hc. cbn in Hn. rewrite !NoDup_cons in Hn. destruct Hn as (_ & Hni & _).
      destruct (owned_disj (hp m) c c' aw_heap0 Hoc) as [?|?].
      * apply Hc, elem_of_app. by left.
      * intros Heq. apply Hni. rewrite Heq. apply list_elem_of_fmap_2, elem_of_app. by left.
      * left. cbn -[align_up cdata] in *. lia.
      * right. cbn -[align_up cdata] in *. lia.
Qed.

(** The alignment an arena serves, as an exponent. *)
Definition align_exp (a : csilk_arena_t) : Z := if align_64 a then 6 else 3.

Lemma csilk_arena_alloc_spec a m regs size :
  arena_wf a m -> regs_ok a regs -> 0 < size <= 2 ^ 62 ->
  exists p a' m', csilk_arena_alloc (Some a) size m = Some (p, Some a', m') /\
    alloc_post a m regs size (2 ^ align_exp a) p a' m'.
Proof.
  intros Hw Hr Hs. unfold csilk_arena_alloc, align_exp.
  rewrite (proj2 (Z.eqb_neq size 0)) by lia.
  assert (0 < size <= SIZE_MAX - 63) by (unfold SIZE_MAX; lia).
  assert (0 <= ptr a <= 2 ^ 63 /\ ptr a `mod` 8 = 0) as [Hp H8].
  { pose proof (aw_ptr _ _ Hw) as Hp. destruct (head a) as [|c l] eqn:Eh; [by destruct Hp as [-> _]|].
    pose proof (aw_owns _ _ Hw) as [Hc _ _]. rewrite Eh in Hc.
    destruct (owned_data_range _ c (aw_heap _ _ Hw)) as (? & ? & ?); [by inversion Hc|].
    unfold ADDR_LIMIT in *. lia. }
  destruct (align_64 a); cbn [negb].
  - destruct (Z.gtb_spec size (SIZE_MAX - 63)); [lia|]. cbn zeta. destruct (_ && _) eqn:Ef.
    + eexists _, _, _. split; [done|]. apply andb_true_iff in Ef as [? ?].
      apply (fast_path a m regs size 6); [done|done|by right|done|lia|done|change (2 ^ 6) with 64; lia].
    + destruct (arena_alloc_slow_spec a m regs size 6) as (p & a' & m' & E & ?); [done|done|by right|done|].
      change (2 ^ 6) with 64 in *. rewrite E. eexists _, _, _. by split.
  - destruct (Z.gtb_spec size (SIZE_MAX - 7)); [unfold SIZE_MAX in *; lia|]. cbn zeta. destruct (_ && _) eqn:Ef.
    + eexists _, _, _. split; [done|]. apply andb_true_iff in Ef as [? ?].
      apply (fast_path a m regs size 3); [done|done|by left|done|lia| |change (2 ^ 3) with 8; lia].
      symmetry. apply (align_up_aligned 3); [lia..|done].
    + destruct (arena_alloc_slow_spec a m regs size 3) as (p & a' & m' & E & ?); [done|done|by left|done|].
      change (2 ^ 3) with 8 in *. rewrite E. eexists _, _, _. by split.
Qed.

(** ** Giving the chunks back *)

(** The chunks [L] have been given back, next to the blocks [ex] and [K]. *)
Record all_released (ex : list Z) (K L : list csilk_arena_chunk_t) (m m' : mem) : Prop := {
  al_heap : heap_wf (hp m');
  al_tls : tls_wf m';
  al_owns : owns (hp m') ex (K ++ all_tls m');
  al_contents : contents (hp m') = contents (hp m);
  al_sub : forall b, b ∈ live (hp m') -> b ∈ live (hp m);
  al_keep : forall b, b ∈ live (hp m) -> b.1 ∉ map caddr L -> b ∈ live (hp m');
  al_gone : forall c, c ∈ L -> caddr c ∈ map caddr (all_tls m') \/ forall sz, (caddr c, sz) ∉ live (hp m');
  al_tls_mono : forall x, x ∈ map caddr (all_tls m) -> x ∈ map caddr (all_tls m');
}.

Lemma release_all_spec ex K L m :
  heap_wf (hp m) -> tls_wf m -> owns (hp m) ex (L ++ K ++ all_tls m) ->
  exists m', release_all L m = Some m' /\ all_released ex K L m m'.
Proof.
  revert m. induction L as [|c L IH]; intros m Hh Ht Ho.
  { eexists; split; [done|]. constructor; auto. by intros c []%not_elem_of_nil. }
  assert (owns (hp m) ex (set_used c 0 :: (L ++ K) ++ all_tls m)) as Ho'
    by by rewrite owns_set_used, <- app_assoc.
  destruct (release_chunk_spec ex (set_used c 0) (L ++ K) m Hh Ht Ho')
    as (m1 & E1 & [Hh1 Ht1 Ho1 Hc1 Hs1 Hk1 Hg1 Hm1]).
  rewrite <- app_assoc in Ho1. destruct (IH m1 Hh1 Ht1 Ho1) as (m2 & E2 & [Hh2 Ht2 Ho2 Hc2 Hs2 Hk2 Hg2 Hm2]).
  exists m2. split; [cbn; by rewrite E1|]. constructor; auto; [congruence| |].
  - intros b Hb. cbn. rewrite not_elem_of_cons. intros [? ?]. auto.
  - intros d [->|Hd]%elem_of_cons; [|auto]. destruct Hg1 as [Hg|Hg]; [left; by apply Hm2|].
    right. intros sz Hsz. by apply (Hg sz), Hs2.
Qed.

Lemma accounted_release_all base a a1 ex K L m m' :
  all_released ex K L m m' -> self a1 = self a -> map caddr (head a) = map caddr K ->
  (forall x, x ∈ map caddr (head a1) -> x ∈ map caddr L \/ x ∈ map caddr K) ->
  accounted base a1 m -> accounted base a m'.
Proof.
  intros [_ _ _ _ Hs _ Hg Hm] Es Ea Eh H b Hb. destruct (H b (Hs b Hb)) as [Hin|]; [left|by right].
  rewrite map_app in *. rewrite Es in Hin. rewrite Ea. rewrite !elem_of_cons, elem_of_app in *.
  destruct Hin as [?|[[Hc|?]%Eh|Hin]]; auto.
  apply list_elem_of_fmap in Hc as (c & Hc & HcL).
  destruct (Hg c HcL) as [Hg'|Hg']; [rewrite Hc; auto|]. destruct b as [p sz]. cbn in Hc. subst p. by destruct (Hg' sz).
Qed.

(** [csilk_arena_free]'s loop releases the same chunks, next to its total. *)
Lemma free_loop_release_all L tot m m' :
  release_all L m = Some m' -> exists tot', free_loop L tot m = Some (tot', m').
Proof.
  revert tot m. induction L as [|c L IH]; intros tot m; cbn; [intros [= ->]; eauto|].
  destruct (release_chunk (set_used c 0) m) as [m1|]; [cbn; eauto|done].
Qed.

(** Resetting keeps the newest chunk, empty, and gives the rest back. *)
Lemma csilk_arena_reset_spec a m :
  arena_wf a m ->
  exists a' m', csilk_arena_reset a m = Some (a', m') /\ arena_wf a' m' /\
    all_released [self a] (head a') (drop 1 (head a)) m m' /\
    head a' = map (fun c => set_used c 0) (take 1 (head a)) /\ self a' = self a /\
    align_64 a' = align_64 a /\ (forall base, accounted base a m -> accounted base a' m').
Proof.
  intros Hw. pose proof Hw as [Hh Ht Ho Hd Hm Htot Hp]. unfold csilk_arena_reset.
  destruct (head a) as [|c l] eqn:Eh.
  - eexists _, _. split; [done|]. split_and!; [by constructor| |done..|].
    cbn. constructor; auto. by intros d []%not_elem_of_nil.
    intros base. by apply accounted_eq; cbn; rewrite ?Eh.
  - assert (owns (hp m) [self a] (l ++ [set_used c 0] ++ all_tls m)) as Ho'.
    { cbn in *. rewrite <- Permutation_middle. by rewrite owns_set_used. }
    destruct (release_all_spec [self a] [set_used c 0] l m Hh Ht Ho') as (m' & -> & Hr).
    eexists _, _. split; [done|]. cbn [head drop take map]. split_and!; [|by rewrite ?drop_0|done..|].
    2: { intros base. apply (accounted_release_all base _ a _ _ _ _ _ Hr); [done..|]. intros x. rewrite Eh.
         cbn. rewrite !elem_of_cons. naive_solver. }
    destruct Hr. constructor; cbn; [done..| |].
    + pose proof (ow_chunks _ _ _ Ho) as Hc. apply Forall_cons in Hc as [Hoc _].
      destruct (owned_data_range _ _ Hh Hoc) as (? & ? & ?). destruct Hoc as (? & _ & _ & ?).
      unfold ADDR_LIMIT in *. lia.
    + change (cdata (set_used c 0)) with (cdata c).
      pose proof (ow_chunks _ _ _ Ho) as Hc. apply Forall_cons in Hc as [Hoc _].
      destruct (owned_data_range _ _ Hh Hoc) as (? & H64 & ?). destruct Hoc as (? & _ & _ & ?).
      apply mod_8_of_64 in H64. unfold cdata in *. split; [done|lia].
Qed.

(** Freeing gives every chunk back and frees the header. *)
Lemma csilk_arena_free_spec a m :
  arena_wf a m ->
  exists m', csilk_arena_free (Some a) m = Some m' /\
    all_released [] [] (mk_chunk (self a) 0 0 :: head a) m m' /\ forall sz, (self a, sz) ∉ live (hp m').
Proof.
  intros Hw. apply sync_head_wf in Hw as Hw1. destruct (sync_head_fields a) as (Es & _ & _ & _ & _ & _ & _ & Em).
  unfold csilk_arena_free. cbn zeta. destruct Hw1 as [Hh Ht Ho Hd Hm Htot Hp].
  destruct (release_all_spec [self (sync_head a)] [] (head (sync_head a)) m Hh Ht Ho) as (m1 & E1 & Hr).
  destruct (free_loop_release_all _ (total_allocated (sync_head a)) _ _ E1) as (tot' & ->). run_binds.
  destruct Hr as [Hh1 Ht1 Ho1 Hc1 Hs1 Hk1 Hg1 Hm1]. rewrite Es in *.
  destruct (free_extra_spec _ _ _ _ Hh1 Ho1) as (h & -> & Hwh & Hch & Hl & Hoh).
  assert (map caddr (head (sync_head a)) = map caddr (head a)) as Ea.
  { apply (f_equal (map fst)) in Em. by rewrite !map_map in Em. }
  eexists; split; [done|]. split; [|by intros sz [_ ?]%Hl]. constructor; cbn [with_heap hp]; [done|by apply tls_wf_heap|done|congruence| | | |done].
  - intros b [? _]%Hl. auto.
  - intros b Hb. cbn. rewrite not_elem_of_cons, <- Ea. intros [? ?]. apply Hl. auto.
  - intros c [->|Hc]%elem_of_cons; [right; by intros sz [_ ?]%Hl|].
    assert (caddr c ∈ map caddr (head (sync_head a))) as Hc' by (rewrite Ea; by apply list_elem_of_fmap_2).
    apply list_elem_of_fmap in Hc' as (c' & -> & Hc'). destruct (Hg1 _ Hc') as [?|Hg]; [by left|].
    right. intros sz [? _]%Hl. by apply (Hg sz).
Qed.

(** ** Contents of the regions *)

Lemma lookup_write_bytes_outside p l g q :
  q < p \/ p + Z.of_nat (length l) <= q -> write_bytes p l g !! q = g !! q.
Proof.
  revert p. induction l as [|c l IH]; intros p H; cbn [write_bytes]; [done|]. cbn [length] in H.
  rewrite lookup_insert_ne by lia. apply IH. lia.
Qed.

Lemma read_bytes_ext p n g g' :
  (forall q, p <= q < p + Z.of_nat n -> g !! q = g' !! q) -> read_bytes p n g = read_bytes p n g'.
Proof.
  revert p. induction n as [|n IH]; intros p H; cbn [read_bytes]; [done|].
  rewrite (H p) by lia. rewrite (IH (p + 1)); [done|]. intros q Hq. apply H. lia.
Qed.

Lemma read_write_same p l g : read_bytes p (length l) (write_bytes p l g) = Some l.
Proof.
  revert p. induction l as [|c l IH]; intros p; cbn [length read_bytes write_bytes]; [done|].
  rewrite lookup_insert_eq. cbn [mbind option_bind].
  rewrite (read_bytes_ext _ _ _ (write_bytes (p + 1) l g)), IH; [done|].
  intros q Hq. apply lookup_insert_ne. lia.
Qed.

Lemma read_write_disj p n q l g :
  disj (p, Z.of_nat n) (q, Z.of_nat (length l)) ->
  read_bytes p n (write_bytes q l g) = read_bytes p n g.
Proof.
  intros H. apply read_bytes_ext. intros x Hx. apply lookup_write_bytes_outside.
  destruct H; cbn in *; lia.
Qed.

(** ** Scripts of operations

    The ghost state of a run: the regions handed out since the last reset, and
    the bytes that the copying operations stored in some of them. *)

Inductive op :=
  | OAlloc (n : Z)
  | OCalloc (count size : Z)
  | OStrdup (s : bytes)
  | OStrndup (s : bytes)
  | OReset
  | OAlign (b : bool)
  | OMax (n : Z)
  | OStats.

Record run := mk_run {
  r_arena : csilk_arena_t;
  r_mem : mem;
  r_regs : list (Z * Z);
  r_data : list (Z * bytes);
}.

(** Record an answer: null and the pointer for zero bytes are no regions. *)
Definition answer (size : Z) (data : option bytes) (regs : list (Z * Z)) (ds : list (Z * bytes))
    (res : option (Z * option csilk_arena_t * mem)) : option run :=
  '(p, oa, m) ← res; a ← oa;
  if (p =? 0) || (size =? 0) then Some (mk_run a m regs ds)
  else Some (mk_run a m ((p, size) :: regs)
               (match data with Some d => (p, d) :: ds | None => ds end)).

Definition run_op (o : op) (r : run) : option run :=
  let '(mk_run a m regs ds) := r in
  match o with
  | OAlloc n => answer n None regs ds (csilk_arena_alloc (Some a) n m)
  | OCalloc c n => answer (wrap64 (c * n)) (Some (replicate (Z.to_nat (wrap64 (c * n))) NUL)) regs ds
                     (csilk_arena_calloc (Some a) c n m)
  | OStrdup s => answer (Z.of_nat (length s) + 1) (Some (s ++ [NUL])) regs ds
                   (csilk_arena_strdup (Some a) (Some s) m)
  | OStrndup s => answer (Z.of_nat (length s) + 1) (Some (s ++ [NUL])) regs ds
                    (csilk_arena_strndup (Some a) (Some s) m)
  | OReset => '(a', m') ← csilk_arena_reset a m; Some (mk_run a' m' [] [])
  | OAlign b => Some (mk_run (csilk_arena_set_alignment a b) m regs ds)
  | OMax n => Some (mk_run (csilk_arena_set_max_bytes a n) m regs ds)
  | OStats => Some (mk_run (csilk_arena_get_stats a).1 m regs ds)
  end.

Fixpoint run_ops (l : list op) (r : run) : option run :=
  match l with
  | [] => Some r
  | o :: l' => r' ← run_op o r; run_ops l' r'
  end.

(** Requests of at most 2^62 bytes, as any real caller makes. *)
Definition MAX_REQUEST : Z := 2 ^ 62.
Definition op_ok (o : op) : Prop :=
  match o with
  | OAlloc n => 0 <= n <= MAX_REQUEST
  | OCalloc c n => 0 <= c <= SIZE_MAX /\ 0 <= n <= SIZE_MAX /\ (c * n <= MAX_REQUEST \/ SIZE_MAX < c * n)
  | OStrdup s | OStrndup s => Z.of_nat (length s) < MAX_REQUEST
  | OMax n => 0 <= n <= SIZE_MAX
  | OReset | OAlign _ | OStats => True
  end.

Record run_wf (base : list (Z * Z)) (r : run) : Prop := {
  rw_arena : arena_wf (r_arena r) (r_mem r);
  rw_regs : regs_ok (r_arena r) (r_regs r);
  rw_data : Forall (fun d => (d.1, Z.of_nat (length d.2)) ∈ r_regs r /\
                     read_bytes d.1 (length d.2) (contents (hp (r_mem r))) = Some d.2) (r_data r);
  rw_acc : accounted base (r_arena r) (r_mem r);
}.

Lemma arena_wf_contents a m l :
  arena_wf a m -> forall p, arena_wf a (mem_put p l m).
Proof.
  intros [[Hok Hd] [? ? ? ?] [Hc Hx Hn] ? ? ? ?] p. constructor; try done; by constructor.
Qed.

(** The answer of an allocation that stores [d] (or nothing) in the region. *)
Lemma answer_wf base a m regs ds size al data p a' m' :
  arena_wf a m -> regs_ok a regs -> run_wf base (mk_run a m regs ds) ->
  0 < size -> (forall d, data = Some d -> Z.of_nat (length d) = size) ->
  alloc_post a m regs size al p a' m' ->
  exists r, answer size data regs ds
              (Some (p, Some a', match data with
                                 | Some d => if p =? 0 then m' else mem_put p d m'
                                 | None => m' end)) = Some r /\ run_wf base r.
Proof.
  intros Hw Hr [_ _ Hd Ha] Hs Hlen [Hw' _ Hct Hk Hacc Hres]. cbn in Ha. apply Hacc in Ha. unfold answer. run_binds.
  rewrite (proj2 (Z.eqb_neq size 0)), orb_false_r by lia.
  destruct Hres as [[-> Hr']|(Hnz & _ & Hr')].
  { cbn. eexists; split; [done|]. constructor; cbn; [by destruct data|done| |by destruct data]. cbn in Hd.
    destruct data; by rewrite Hct. }
  rewrite (proj2 (Z.eqb_neq p 0)) by done. eexists; split; [done|]. cbn in Hd.
  assert (Forall (fun d => (d.1, Z.of_nat (length d.2)) ∈ (p, size) :: regs /\
    read_bytes d.1 (length d.2) (contents (hp m')) = Some d.2) ds) as Hd'.
  { eapply Forall_impl; [exact Hd|]. intros d [? ?]. rewrite Hct. split; [by right|done]. }
  destruct data as [d|]; constructor; cbn; [by apply arena_wf_contents|done| |done..].
  specialize (Hlen d eq_refl). constructor.
  { split; [cbn; rewrite Hlen; by left|]. apply read_write_same. }
  eapply Forall_impl; [exact Hd|]. intros e [Hin Hrd]. split; [by right|]. cbn.
  destruct Hr' as [_ (_ & Hdj & _)]. rewrite Forall_forall in Hdj. rewrite read_write_disj; [by rewrite Hct|].
  cbn; rewrite Hlen. destruct (Hdj _ Hin); [right|left]; done.
Qed.

Lemma calloc_total c n :
  0 <= c <= SIZE_MAX -> 0 <= n <= SIZE_MAX ->
  ((c >? 0) && (n >? SIZE_MAX / c) = true <-> SIZE_MAX < c * n).
Proof.
  intros Hc Hn. rewrite andb_true_iff, !Z.gtb_lt. split.
  - intros [H1 H2]. pose proof (Z.mul_succ_div_gt SIZE_MAX c ltac:(lia)). nia.
  - intros H. destruct (decide (c = 0)) as [->|]; [lia|]. split; [lia|].
    apply Z.div_lt_upper_bound; lia.
Qed.

(** [csilk_arena_strdup] and [csilk_arena_strndup] share their body. *)
Lemma copy_ok base s a m regs ds :
  Z.of_nat (length s) < MAX_REQUEST -> run_wf base (mk_run a m regs ds) ->
  exists r, answer (Z.of_nat (length s) + 1) (Some (s ++ [NUL])) regs ds
    (csilk_arena_strdup (Some a) (Some s) m) = Some r /\ run_wf base r.
Proof.
  unfold MAX_REQUEST. intros Hs Hr. pose proof Hr as [Hw Hg _ _]. cbn in Hw, Hg.
  unfold csilk_arena_strdup. rewrite wrap64_small by lia.
  destruct (csilk_arena_alloc_spec a m regs (Z.of_nat (length s) + 1) Hw Hg) as (p & a' & m' & -> & Hp); [lia|].
  run_binds.
  destruct (answer_wf base a m regs ds (Z.of_nat (length s) + 1) (2 ^ align_exp a) (Some (s ++ [NUL])) p a' m' Hw Hg Hr)
    as (r' & E & Hr'); [lia| |done|].
  { intros d [= <-]. rewrite length_app. cbn [length]. lia. }
  exists r'. split; [|done]. rewrite <- E. by destruct (p =? 0).
Qed.

Lemma run_op_ok base o r : op_ok o -> run_wf base r -> exists r', run_op o r = Some r' /\ run_wf base r'.
Proof.
  intros Ho Hr. destruct r as [a m regs ds]. pose proof Hr as [Hw Hg Hd Ha]. cbn in Hw, Hg, Hd, Ha.
  destruct o as [n|c n|s|s| |b|n|]; cbn [run_op op_ok] in *; unfold MAX_REQUEST in *.
  - destruct (decide (n = 0)) as [->|].
    { cbn. eexists; split; [done|]. done. }
    destruct (csilk_arena_alloc_spec a m regs n Hw Hg) as (p & a' & m' & -> & Hp); [lia|].
    eapply (answer_wf base a m regs ds n _ None); [done..|lia|done|done].
  - destruct Ho as (Hc & Hn & Hcn). unfold csilk_arena_calloc.
    destruct (_ && _) eqn:Eov. { eexists; split; [done|]. done. }
    assert (c * n <= 2 ^ 62) as Hle.
    { destruct Hcn as [|Hcn]; [done|]. apply calloc_total in Hcn; [congruence|done..]. }
    assert (wrap64 (c * n) = c * n) as -> by (apply wrap64_small; nia). cbn zeta.
    destruct (decide (c * n = 0)) as [E|].
    { rewrite E. cbn. eexists; split; [done|]. done. }
    destruct (csilk_arena_alloc_spec a m regs (c * n) Hw Hg) as (p & a' & m' & -> & Hp); [nia|]. run_binds.
    rewrite (proj2 (Z.gtb_lt (c * n) 0)), andb_true_r by nia.
    destruct (answer_wf base a m regs ds (c * n) (2 ^ align_exp a) (Some (replicate (Z.to_nat (c * n)) NUL)) p a' m' Hw Hg Hr)
      as (r' & E & Hr'); [nia| |done|].
    { intros d [= <-]. rewrite length_replicate. nia. }
    exists r'. split; [|done]. rewrite <- E. by destruct (p =? 0).
  - by apply copy_ok.
  - by apply copy_ok.
  - destruct (csilk_arena_reset_spec a m Hw) as (a' & m' & -> & Hw' & _ & _ & _ & _ & Hacc). cbn. eexists; split; [done|].
    constructor; cbn; [done|by constructor; [constructor|]|constructor|by apply Hacc].
  - eexists; split; [done|]. destruct Hw, Hg. constructor; [by constructor|by constructor|done|done].
  - eexists; split; [done|]. destruct Hw, Hg. unfold SIZE_MAX in *.
    constructor; [constructor; cbn; try done; lia|by constructor|done|done].
  - eexists; split; [done|]. constructor; cbn; [by apply sync_head_wf|by apply sync_head_regs|done|].
    revert Ha. apply accounted_eq; apply sync_head_addrs.
Qed.

(** ** Flushing the cache *)

Lemma free_chunks_spec ex L K h :
  heap_wf h -> owns h ex (L ++ K) ->
  exists h', free_chunks L h = Some h' /\ heap_wf h' /\ owns h' ex K /\
    forall b, b ∈ live h' <-> b ∈ live h /\ b.1 ∉ map caddr L.
Proof.
  revert h. induction L as [|c L IH]; intros h Hh Ho.
  { exists h. split_and!; [done..|]. intros b. cbn. pose proof (not_elem_of_nil b.1). naive_solver. }
  cbn in Ho. apply owns_as_extra in Ho.
  destruct (free_extra_spec _ _ _ _ Hh Ho) as (h1 & E1 & Hh1 & _ & Hl1 & Ho1).
  destruct (IH h1 Hh1 Ho1) as (h2 & E2 & Hh2 & Ho2 & Hl2).
  exists h2. split; [cbn; unfold free_chunk; by rewrite E1|]. split_and!; [done..|].
  intros b. cbn. rewrite Hl2, Hl1, not_elem_of_cons. naive_solver.
Qed.

(** A thread's heap and cache outside any arena: the cached chunks are live. *)
Record mem_wf (m : mem) : Prop := {
  mw_heap : heap_wf (hp m);
  mw_tls : tls_wf m;
  mw_owns : owns (hp m) [] (all_tls m);
}.

Lemma flush_tier_spec t m K :
  heap_wf (hp m) -> tls_wf m -> owns (hp m) [] (tls_tier_free_lists m t ++ K) ->
  exists m', flush_tier t m = Some m' /\ heap_wf (hp m') /\ tls_wf m' /\ owns (hp m') [] K /\
    tls_tier_free_lists m' = upd (tls_tier_free_lists m) t [] /\
    forall b, b ∈ live (hp m') <-> b ∈ live (hp m) /\ b.1 ∉ map caddr (tls_tier_free_lists m t).
Proof.
  intros Hh [Hc Hm Ht Hs] Ho. destruct (free_chunks_spec _ _ _ _ Hh Ho) as (h & E & Hh' & Ho' & Hl).
  unfold flush_tier. rewrite E. eexists; split; [done|]. cbn. split_and!; [done| |done..].
  constructor; cbn.
  - intros t'. destruct (decide (t = t')) as [<-|]; [by rewrite !upd_same|by rewrite !upd_other].
  - intros t'. destruct (decide (t = t')) as [<-|]; [by rewrite upd_same|by rewrite upd_other].
  - rewrite total_upd. pose proof (Hc t). lia.
  - intros t'. destruct (decide (t = t')) as [<-|]; [rewrite upd_same; constructor|by rewrite upd_other].
Qed.

Lemma flush_spec m :
  mem_wf m ->
  exists m', csilk_arena_flush_free_list m = Some m' /\ mem_wf m' /\ all_tls m' = [] /\
    forall b, b ∈ live (hp m') <-> b ∈ live (hp m) /\ b.1 ∉ map caddr (all_tls m).
Proof.
  intros [Hh Ht Ho]. unfold csilk_arena_flush_free_list, all_tls in *.
  destruct (flush_tier_spec TIER_SMALL m _ Hh Ht Ho) as (m1 & -> & Hh1 & Ht1 & Ho1 & E1 & Hl1). run_binds.
  assert (tls_tier_free_lists m1 TIER_MEDIUM = tls_tier_free_lists m TIER_MEDIUM) as Em by by rewrite E1.
  assert (tls_tier_free_lists m1 TIER_LARGE = tls_tier_free_lists m TIER_LARGE) as El by by rewrite E1.
  rewrite <- Em in Ho1.
  destruct (flush_tier_spec TIER_MEDIUM m1 _ Hh1 Ht1 Ho1) as (m2 & -> & Hh2 & Ht2 & Ho2 & E2 & Hl2). run_binds.
  assert (tls_tier_free_lists m2 TIER_LARGE = tls_tier_free_lists m TIER_LARGE) as El2 by by rewrite E2.
  rewrite <- El2, <- (app_nil_r (tls_tier_free_lists m2 _)) in Ho2.
  destruct (flush_tier_spec TIER_LARGE m2 _ Hh2 Ht2 Ho2) as (m3 & -> & Hh3 & Ht3 & Ho3 & E3 & Hl3).
  assert (all_tls m3 = []) as E0 by (unfold all_tls; by rewrite E3, E2, E1).
  exists m3. split; [done|]. split; [constructor; [done..|by rewrite E0]|]. split; [done|].
  intros b. rewrite Hl3, Hl2, Hl1, Em, El2, !map_app, !not_elem_of_app. naive_solver.
Qed.

(** ** The life of an arena *)

Lemma csilk_arena_new_spec dflt m a m' :
  mem_wf m -> 0 <= dflt <= SIZE_MAX -> csilk_arena_new dflt m = (Some a, m') ->
  run_wf (live (hp m)) (mk_run a m' [] []).
Proof.
  intros [Hh Ht Ho] Hd. unfold csilk_arena_new, SIZE_MAX in *.
  destruct (arena_aligned_alloc sizeof_arena (hp m)) as [p h] eqn:E.
  apply arena_aligned_alloc_spec in E as (Hh' & _ & Hd'); [|done|unfold sizeof_arena; lia].
  destruct Hd' as [[-> _]|(sz & Hnz & Hle & El & Hb & Hf)]; [done|].
  rewrite (proj2 (Z.eqb_neq p 0)) by done. intros [= <- <-].
  assert (p ∉ map caddr (all_tls m)) as Hni.
  { intros (c & -> & Hc)%list_elem_of_fmap. destruct Ho as [Ho _ _]. rewrite Forall_forall in Ho.
    destruct (Ho c Hc) as (s & Hs & _). by destruct (fresh_addr (hp m) (caddr c) sz (caddr c, s)). }
  constructor; cbn; [|by constructor; [constructor|]|constructor|].
  - constructor; cbn; [done|by apply tls_wf_heap| |destruct (Z.gtb_spec dflt 0);
      unfold CSILK_DEFAULT_ARENA_SIZE; lia|done..].
    destruct Ho as [Hc _ Hn]. constructor.
    + eapply Forall_impl; [exact Hc|]. intros c. apply owned_mono. rewrite El. by right.
    + constructor; [|constructor]. exists sz. rewrite El. by left.
    + cbn. apply NoDup_cons. by split.
  - intros b Hb'. cbn in *. rewrite El in Hb'. apply elem_of_cons in Hb' as [->|]; [left; by left|by right].
Qed.

Lemma run_ops_ok base ops r :
  Forall op_ok ops -> run_wf base r -> exists r', run_ops ops r = Some r' /\ run_wf base r'.
Proof.
  intros Ho. revert r. induction Ho as [|o ops Ho _ IH]; intros r Hr; [by eexists|].
  destruct (run_op_ok base o r Ho Hr) as (r1 & E1 & Hr1). destruct (IH r1 Hr1) as (r2 & E2 & Hr2).
  exists r2. split; [cbn; by rewrite E1|done].
Qed.

(** ** The byte limit *)

Definition chunk_sum (l : list csilk_arena_chunk_t) : Z := foldr (fun c n => csize c + n) 0 l.

Definition limit_ok (a : csilk_arena_t) : Prop :=
  0 < max_total_bytes a -> chunk_sum (head a) <= total_allocated a <= max_total_bytes a.

Lemma limit_ok_sync a : limit_ok a -> limit_ok (sync_head a).
Proof. unfold limit_ok, sync_head. by destruct (head a) eqn:E; cbn; rewrite ?E. Qed.

Lemma arena_alloc_slow_limit a size al m p a' m' :
  arena_alloc_slow a size al m = Some (p, a', m') ->
  0 <= total_allocated a -> max_total_bytes a < 2 ^ 64 -> limit_ok a ->
  limit_ok a' /\ max_total_bytes a' = max_total_bytes a.
Proof.
  intros E Ht Hm Hl. unfold arena_alloc_slow in E. destruct (_ >? _); [by simplify_eq|]. cbn zeta in E.
  set (a1 := if negb (ptr a =? 0) then sync_head a else a) in *.
  destruct (sync_head_fields a) as (_ & _ & _ & _ & Em & Et & _ & _).
  assert (limit_ok a1) as Hl1 by (subst a1; destruct (negb _); [by apply limit_ok_sync|done]).
  assert (max_total_bytes a1 = max_total_bytes a) as Em1 by (subst a1; by destruct (negb _)).
  assert (total_allocated a1 = total_allocated a) as Et1 by (subst a1; by destruct (negb _)).
  clearbody a1. destruct (_ >? _); [by simplify_eq|]. destruct (_ && _) eqn:Eb; [by simplify_eq|].
  destruct (take_chunk _ _) as [[c|] m1]; [|by simplify_eq].
  destruct (_ >? SIZE_MAX - total_allocated a1).
  { destruct (release_chunk _ _); by simplify_eq/=. }
  simplify_eq/=. split; [|done]. unfold limit_ok in *. cbn. intros Hpos. rewrite Em1, Et1 in *.
  rewrite (proj2 (Z.gtb_lt _ 0)) in Eb by done. cbn in Eb.
  rewrite wrap64_small in Eb by lia. unfold chunk_sum in Hl1 |- *. cbn. lia.
Qed.

Lemma csilk_arena_alloc_limit a size m p a' m' :
  csilk_arena_alloc (Some a) size m = Some (p, Some a', m') ->
  0 <= total_allocated a -> max_total_bytes a < 2 ^ 64 -> limit_ok a ->
  limit_ok a' /\ max_total_bytes a' = max_total_bytes a.
Proof.
  intros E Ht Hm Hl. unfold csilk_arena_alloc in E. destruct (size =? 0); [by simplify_eq|].
  destruct (negb _); (destruct (_ >? _); [by simplify_eq|]); cbn zeta in E;
    (destruct (_ && _); [by simplify_eq|]);
    destruct (arena_alloc_slow _ _ _ _) as [[[? ?] ?]|] eqn:Es; simplify_eq/=;
    by eapply arena_alloc_slow_limit.
Qed.

Lemma csilk_arena_reset_limit a m a' m' :
  arena_wf a m -> csilk_arena_reset a m = Some (a', m') -> limit_ok a ->
  limit_ok a' /\ max_total_bytes a' = max_total_bytes a.
Proof.
  intros Hw E Hl. pose proof (ow_chunks _ _ _ (aw_owns _ _ Hw)) as Ho. apply Forall_app in Ho as [Ho _].
  unfold csilk_arena_reset, limit_ok in *. destruct (head a) as [|c l]; simplify_eq/=; [by cbn; split; [lia|]|].
  destruct (release_all l m); simplify_eq/=. split; [|done]. intros Hpos. specialize (Hl Hpos).
  assert (0 <= chunk_sum l).
  { apply Forall_cons in Ho as [_ Ho]. clear -Ho.
    induction Ho as [|d l (? & _ & _ & ?) _ IH]; unfold chunk_sum in *; cbn in *; lia. }
  unfold chunk_sum in *. cbn in *. lia.
Qed.

Lemma answer_arena size data regs ds p a m r :
  answer size data regs ds (Some (p, Some a, m)) = Some r -> r_arena r = a.
Proof. unfold answer. run_binds. destruct (_ || _); intros [= <-]; done. Qed.

Lemma run_op_limit base o r r' :
  op_ok o -> run_wf base r -> (forall n, o <> OMax n) -> run_op o r = Some r' -> limit_ok (r_arena r) ->
  limit_ok (r_arena r') /\ max_total_bytes (r_arena r') = max_total_bytes (r_arena r).
Proof.
  intros Ho [Hw Hg _ _] Hmx E Hl. destruct r as [a m regs ds]. cbn in Hw, Hg, Hl.
  pose proof (aw_total _ _ Hw). pose proof (aw_max _ _ Hw).
  assert (forall size p oa m' data s, csilk_arena_alloc (Some a) size m = Some (p, oa, m') ->
    forall m'', answer s data regs ds (Some (p, oa, m'')) = Some r' ->
    limit_ok (r_arena r') /\ max_total_bytes (r_arena r') = max_total_bytes a) as Halloc.
  { intros size p oa m' data s Ea m'' Er. destruct oa as [a'|]; [|done].
    rewrite (answer_arena _ _ _ _ _ _ _ _ Er). eapply csilk_arena_alloc_limit; [done|lia..|done]. }
  destruct o as [n|c n|s|s| |b|n|]; cbn [run_op] in E;
    unfold csilk_arena_calloc, csilk_arena_strdup, csilk_arena_strndup in E; cbn zeta in E.
  - destruct (csilk_arena_alloc _ _ _) as [[[p oa] m']|] eqn:Ea; [by eapply Halloc|done].
  - destruct (_ && _); [by rewrite (answer_arena _ _ _ _ _ _ _ _ E)|].
    destruct (csilk_arena_alloc _ _ _) as [[[p oa] m']|] eqn:Ea; [|done]. revert E. run_binds.
    destruct (_ && _); by eapply Halloc.
  - destruct (csilk_arena_alloc _ _ _) as [[[p oa] m']|] eqn:Ea; [|done]. revert E. run_binds.
    destruct (negb _); by eapply Halloc.
  - destruct (csilk_arena_alloc _ _ _) as [[[p oa] m']|] eqn:Ea; [|done]. revert E. run_binds.
    destruct (negb _); by eapply Halloc.
  - destruct (csilk_arena_reset a m) as [[a' m']|] eqn:Er; simplify_eq/=. by eapply csilk_arena_reset_limit.
  - by simplify_eq/=.
  - by destruct (Hmx n).
  - simplify_eq/=. split; [by apply limit_ok_sync|apply sync_head_fields].
Qed.

Lemma run_ops_limit base ops r r' :
  Forall op_ok ops -> Forall (fun o => forall n, o <> OMax n) ops -> run_wf base r ->
  run_ops ops r = Some r' -> limit_ok (r_arena r) ->
  limit_ok (r_arena r') /\ max_total_bytes (r_arena r') = max_total_bytes (r_arena r).
Proof.
  intros Ho. revert r. induction Ho as [|o ops Ho _ IH]; intros r Hm Hr E Hl; [by simplify_eq/=|].
  apply Forall_cons in Hm as [Hmo Hm]. destruct (run_op_ok base o r Ho Hr) as (r1 & E1 & Hr1).
  cbn in E. rewrite E1 in E. destruct (run_op_limit base o r r1 Ho Hr Hmo E1 Hl) as [Hl1 Em].
  destruct (IH r1 Hm Hr1 E Hl1). split; [done|congruence].
Qed.

(** ** The properties *)

(** A heap that answers successive requests at increasing megabytes. *)
Definition demo_mem : mem :=
  mk_mem (mk_heap [] (map (fun i => 2 ^ 20 * Z.of_nat i) (seq 1 20)) ∅) (fun _ => []) (fun _ => 0).

Lemma demo_mem_wf : mem_wf demo_mem.
Proof.
  constructor; [constructor; [constructor|]; intros ? ? []%not_elem_of_nil|constructor; try done; constructor|].
  constructor; constructor.
Qed.

(** C2: the life of an arena. From any well-formed heap and chunk cache,
    create an arena and run any script of alloc, calloc, strdup, strndup,
    reset, set_alignment, set_max_bytes and get_stats calls in which no
    request or string exceeds 2^62 bytes (for sizes near [SIZE_MAX] the
    claim is false: [huge_request_overlaps]). No step is
    undefined behaviour; the regions handed out since the last reset are
    pairwise disjoint and each lies inside a live heap block; every string or
    zeroed block still reads back what was stored. Freeing the arena and
    flushing the cache then succeed, and leave no block of the arena behind. *)
Theorem arena_lifetime dflt ops m a m0 :
  mem_wf m -> 0 <= dflt <= SIZE_MAX -> csilk_arena_new dflt m = (Some a, m0) -> Forall op_ok ops ->
  exists r m1 m2,
    run_ops ops (mk_run a m0 [] []) = Some r /\
    separate (r_regs r) /\
    (forall p n, (p, n) ∈ r_regs r -> exists q sz, (q, sz) ∈ live (hp (r_mem r)) /\ q <= p /\ p + n <= q + sz) /\
    (forall p s, (p, s) ∈ r_data r -> read_bytes p (length s) (contents (hp (r_mem r))) = Some s) /\
    csilk_arena_free (Some (r_arena r)) (r_mem r) = Some m1 /\ mem_wf m1 /\
    csilk_arena_flush_free_list m1 = Some m2 /\
    forall b, b ∈ live (hp m2) -> b ∈ live (hp m).
Proof.
  intros Hm Hd En Ho. pose proof (csilk_arena_new_spec _ _ _ _ Hm Hd En) as Hr0.
  destruct (run_ops_ok _ _ _ Ho Hr0) as (r & Er & [Hw [Hu Hs] Hdt Hacc]).
  destruct (csilk_arena_free_spec _ _ Hw) as (m1 & Ef & Hrel & Hself).
  assert (mem_wf m1) as Hm1 by (destruct Hrel; by constructor).
  destruct (flush_spec m1 Hm1) as (m2 & Efl & _ & _ & Hl).
  exists r, m1, m2. split_and!; try done.
  - intros p n Hin. rewrite Forall_forall in Hu.
    destruct (in_use_chunk _ _ _ Hw (Hu _ Hin)) as (c & Hc & H1 & H2). cbn in H1, H2.
    pose proof (ow_chunks _ _ _ (aw_owns _ _ Hw)) as Hoc. rewrite Forall_forall in Hoc.
    destruct (Hoc c) as (sz & Hsz & ? & _); [apply elem_of_app; by left|].
    exists (caddr c), sz. unfold cdata, sizeof_chunk in *. split; [done|lia].
  - intros p s Hin. rewrite Forall_forall in Hdt. apply (Hdt _ Hin).
  - intros b [Hb Hni]%Hl. destruct Hrel as [_ _ _ _ Hsub _ Hg Hmono].
    destruct (Hacc b (Hsub b Hb)) as [Hin|]; [|done]. exfalso. destruct b as [p sz]. cbn in *.
    rewrite map_app, elem_of_cons, elem_of_app in Hin. destruct Hin as [->|[Hin|Hin]]; [by destruct (Hself sz)| |by apply Hni, Hmono].
    apply list_elem_of_fmap in Hin as (c & -> & Hc). destruct (Hg c) as [?|Hg']; [by right|done|by destruct (Hg' sz)].
Qed.

Lemma arena_lifetime_witness :
  exists r m1 m2,
    run_ops [OAlloc 100; OAlign true; OStrdup (lit "csilk"); OAlloc 5000; OCalloc 3 7; OReset; OStrndup (lit "x")]
      (mk_run (mk_arena (2 ^ 20) 0 0 [] 4096 0 0 false) (csilk_arena_new 4096 demo_mem).2 [] []) = Some r /\
    r_regs r = [(4 * 2 ^ 20 + 64, 2)] /\
    csilk_arena_free (Some (r_arena r)) (r_mem r) = Some m1 /\
    csilk_arena_flush_free_list m1 = Some m2 /\ live (hp m2) = [].
Proof.
  destruct (arena_lifetime 4096
    [OAlloc 100; OAlign true; OStrdup (lit "csilk"); OAlloc 5000; OCalloc 3 7; OReset; OStrndup (lit "x")]
    demo_mem (mk_arena (2 ^ 20) 0 0 [] 4096 0 0 false) (csilk_arena_new 4096 demo_mem).2)
    as (r & m1 & m2 & E & _ & _ & _ & Ef & _ & Efl & Hsub).
  - apply demo_mem_wf.
  - by unfold SIZE_MAX.
  - by vm_compute.
  - repeat constructor; by vm_compute.
  - exists r, m1, m2. split; [exact E|]. split; [vm_compute in E; injection E as <-; reflexivity|]. split; [exact Ef|].
    split; [exact Efl|]. destruct (live (hp m2)) as [|b l]; [done|].
    destruct (not_elem_of_nil b). apply Hsub. by left.
Defined.

(** C30: one request. On a well-formed arena a request of 1 to 2^62 bytes
    terminates without undefined behaviour and keeps the arena well-formed; it
    answers null and keeps every region, or a pointer aligned to 64 bytes (8
    when cache-line alignment is off) to a region disjoint from every region
    handed out before. *)
Theorem arena_alloc_contract a m regs size :
  arena_wf a m -> regs_ok a regs -> 0 < size <= MAX_REQUEST ->
  exists p a' m', csilk_arena_alloc (Some a) size m = Some (p, Some a', m') /\ arena_wf a' m' /\
    ((p = 0 /\ regs_ok a' regs) \/
     (p <> 0 /\ p `mod` (if align_64 a then 64 else 8) = 0 /\ regs_ok a' ((p, size) :: regs))).
Proof.
  intros Hw Hr Hs. destruct (csilk_arena_alloc_spec a m regs size Hw Hr Hs) as (p & a' & m' & E & Hp).
  exists p, a', m'. split; [done|]. split; [apply Hp|]. destruct (ap_result _ _ _ _ _ _ _ _ Hp) as [?|H]; [by left|right].
  unfold align_exp in H. by destruct (align_64 a).
Qed.

Lemma arena_alloc_contract_witness :
  let a := mk_arena (2 ^ 20) 0 0 [] 4096 0 0 true in
  exists p a' m', csilk_arena_alloc (Some a) 100 (csilk_arena_new 4096 demo_mem).2 = Some (p, Some a', m') /\
    regs_ok a' [(2 * 2 ^ 20 + 64, 100)].
Proof.
  cbn zeta.
  pose proof (csilk_arena_new_spec 4096 demo_mem (mk_arena (2 ^ 20) 0 0 [] 4096 0 0 false)
    (csilk_arena_new 4096 demo_mem).2 demo_mem_wf ltac:(by unfold SIZE_MAX) ltac:(by vm_compute)) as [Hw Hg _ _].
  destruct (arena_alloc_contract (mk_arena (2 ^ 20) 0 0 [] 4096 0 0 true) (csilk_arena_new 4096 demo_mem).2 [] 100)
    as (p & a' & m' & E & _ & H).
  - destruct Hw. by constructor.
  - constructor; [constructor|done].
  - by unfold MAX_REQUEST.
  - exists p, a', m'. split; [exact E|]. vm_compute in E. injection E as <- <- <-.
    destruct H as [[? _]|(_ & _ & H)]; [done|exact H].
Defined.

(** C34: the byte limit. When a limit is set on a new arena, then after any
    script that does not set it again the chunks the arena holds add up to at
    most that many bytes. *)
Theorem arena_limit_respected dflt n ops m a m0 r :
  mem_wf m -> 0 <= dflt <= SIZE_MAX -> csilk_arena_new dflt m = (Some a, m0) -> 0 < n <= SIZE_MAX ->
  Forall op_ok ops -> Forall (fun o => forall k, o <> OMax k) ops ->
  run_ops ops (mk_run (csilk_arena_set_max_bytes a n) m0 [] []) = Some r ->
  chunk_sum (head (r_arena r)) <= n.
Proof.
  intros Hm Hd En Hn Ho Hx Er. pose proof (csilk_arena_new_spec _ _ _ _ Hm Hd En) as Hr0.
  destruct (run_op_ok _ (OMax n) _ ltac:(cbn; lia) Hr0) as (r1 & [= <-] & Hr1).
  assert (head a = []) as Eh.
  { unfold csilk_arena_new in En. destruct (arena_aligned_alloc _ _) as [p h]. by destruct (p =? 0); simplify_eq. }
  destruct (run_ops_limit _ _ _ _ Ho Hx Hr1 Er) as [Hl Em].
  { unfold limit_ok. cbn. rewrite Eh. cbn. lia. }
  cbn in Em. unfold limit_ok in Hl. rewrite Em in Hl. lia.
Qed.

Lemma arena_limit_respected_witness :
  exists r, run_ops [OAlloc 4000; OAlloc 4000; OAlloc 4000]
    (mk_run (mk_arena (2 ^ 20) 0 0 [] 4096 9000 0 false) (csilk_arena_new 4096 demo_mem).2 [] []) = Some r /\
    length (head (r_arena r)) = 2%nat /\ chunk_sum (head (r_arena r)) <= 9000.
Proof.
  eexists. split; [by vm_compute|]. split; [done|].
  eapply (arena_limit_respected 4096 9000 [OAlloc 4000; OAlloc 4000; OAlloc 4000] demo_mem
    (mk_arena (2 ^ 20) 0 0 [] 4096 0 0 false) (csilk_arena_new 4096 demo_mem).2).
  - apply demo_mem_wf.
  - by unfold SIZE_MAX.
  - by vm_compute.
  - by unfold SIZE_MAX.
  - repeat constructor; by vm_compute.
  - repeat constructor; done.
  - by vm_compute.
Defined.

(** ** Outside the contract *)

(** A limit set below the size of the chunk in use is lifted by the next
    reset: [max_total_bytes - total_allocated] wraps around, and a request far
    beyond the limit is served. *)
Example limit_lost_after_reset :
  exists r, run_ops [OAlloc 5000; OMax 4096; OReset; OAlloc 1000000]
    (mk_run (mk_arena (2 ^ 20) 0 0 [] 4096 0 0 false) (csilk_arena_new 4096 demo_mem).2 [] []) = Some r /\
    max_total_bytes (r_arena r) = 4096 /\ chunk_sum (head (r_arena r)) = 1005000 + 0.
Proof. eexists. split; [by vm_compute|]. by vm_compute. Qed.

(** The bump pointer wraps for a request of almost 2^64 bytes: it is answered
    with a pointer, and the next request gets memory already handed out. *)
Example huge_request_overlaps :
  exists r p q n, run_ops [OAlloc 64; OAlloc (2 ^ 64 - 16); OAlloc 8]
    (mk_run (mk_arena (2 ^ 20) 0 0 [] 4096 0 0 false) (csilk_arena_new 4096 demo_mem).2 [] []) = Some r /\
    r_regs r = [(q, 8); (p + 64, n); (p, 64)] /\ p <= q /\ q + 8 <= p + 64.
Proof.
  eexists _, (2 * 2 ^ 20 + 64), (2 * 2 ^ 20 + 64 + 48), _. split; [by vm_compute|]. by vm_compute.
Qed.
