(* ===== verification/BoundedBuf.v ===== *)
(** * Bounded string buffer and JSON builder

    Models src/src/core/primitives/bounded_buf.c: a fixed-capacity string
    builder over a caller-owned array, and the JSON builder on top of it.
    Array writes are checked ([Prelude.store]): a write outside the array has
    no result, so a theorem that an operation returns [Some] is also the
    memory-safety statement of that operation. *)

From S2P Require Import Prelude.
From stdpp Require Import pretty.

#[local] Open Scope Z_scope.

(** ** The string buffer *)

Record csilk_bounded_buf_t := mk_buf {
  buf : bytes;
  capacity : Z;
  len : Z;
  overflow : bool;
}.

Definition csilk_bounded_buf_init (arr : bytes) (cap : Z) : option csilk_bounded_buf_t :=
  if cap >? 0 then
    arr' ← store 0 NUL arr;
    Some (mk_buf arr' cap 0 false)
  else Some (mk_buf arr cap 0 false).

Definition csilk_bounded_buf_reset (b : csilk_bounded_buf_t) : option csilk_bounded_buf_t :=
  if b.(capacity) >? 0 then
    arr' ← store 0 NUL b.(buf);
    Some (mk_buf arr' b.(capacity) 0 false)
  else Some (mk_buf b.(buf) b.(capacity) 0 false).

Definition csilk_bounded_buf_overflow (b : csilk_bounded_buf_t) : bool := b.(overflow).

(** The returned pointer, read as a C string. *)
Definition csilk_bounded_buf_str (b : csilk_bounded_buf_t) : bytes := cstr b.(buf).

Definition csilk_bounded_buf_len (b : csilk_bounded_buf_t) : Z := b.(len).

Definition csilk_bounded_buf_putc (b : csilk_bounded_buf_t) (c : ascii) : option csilk_bounded_buf_t :=
  if wrap64 (b.(len) + 1) <? b.(capacity) then
    arr1 ← store b.(len) c b.(buf);
    arr2 ← store (b.(len) + 1) NUL arr1;
    Some (mk_buf arr2 b.(capacity) (b.(len) + 1) b.(overflow))
  else Some (mk_buf b.(buf) b.(capacity) b.(len) true).

(** The loop of [puts]; [s] is the string up to its terminator. *)
Fixpoint puts_loop (b : csilk_bounded_buf_t) (s : bytes) : option csilk_bounded_buf_t :=
  match s with
  | [] => Some b
  | c :: s' => b' ← csilk_bounded_buf_putc b c; puts_loop b' s'
  end.

(** [s = None] is the NULL pointer. *)
Definition csilk_bounded_buf_puts (b : csilk_bounded_buf_t) (s : option bytes) : option csilk_bounded_buf_t :=
  match s with
  | None => Some b
  | Some s => puts_loop b s
  end.

(** [while (n > 0)] of [uint64_to_str]: [e] is the index [end] points at. *)
Fixpoint uint64_digits (fuel : nat) (tmp : bytes) (e : Z) (n : Z) : option (bytes * Z) :=
  if n >? 0 then
    match fuel with
    | O => None
    | S fuel' =>
        tmp' ← store (e - 1) (chr (48 + n `mod` 10)) tmp;
        uint64_digits fuel' tmp' (e - 1) (n / 10)
    end
  else Some (tmp, e).

(** Formats [n] backwards into [tmp]; the result is the array and the index of
    the first digit.  At most one digit per array cell can be written, so the
    array's size is enough fuel. *)
Definition uint64_to_str (tmp : bytes) (n : Z) : option (bytes * Z) :=
  let size := Z.of_nat (length tmp) in
  tmp1 ← store (size - 1) NUL tmp;
  if n =? 0 then
    tmp2 ← store (size - 2) "0"%char tmp1;
    Some (tmp2, size - 2)
  else uint64_digits (length tmp) tmp1 (size - 1) n.

(** The string at the returned pointer. *)
Definition str_at (r : bytes * Z) : bytes := cstr (drop (Z.to_nat r.2) r.1).

(** [tmp] is the uninitialised [char tmp[25]]; [int64_t] negation is done as
    [(uint64_t)(-(n + 1)) + 1]. *)
Definition csilk_bounded_buf_puti (tmp : bytes) (b : csilk_bounded_buf_t) (n : Z) : option csilk_bounded_buf_t :=
  if n <? 0 then
    b1 ← csilk_bounded_buf_putc b "-"%char;
    r ← uint64_to_str tmp (wrap64 (wrap64 (- (n + 1)) + 1));
    csilk_bounded_buf_puts b1 (Some (str_at r))
  else
    r ← uint64_to_str tmp (wrap64 n);
    csilk_bounded_buf_puts b (Some (str_at r)).

Definition csilk_bounded_buf_putu (tmp : bytes) (b : csilk_bounded_buf_t) (n : Z) : option csilk_bounded_buf_t :=
  r ← uint64_to_str tmp n;
  csilk_bounded_buf_puts b (Some (str_at r)).

(** [text] is what [snprintf] formats for the double; [tmp[64]] keeps its first
    63 bytes, and nothing is appended when it formats nothing. *)
Definition csilk_bounded_buf_putf (b : csilk_bounded_buf_t) (text : bytes) : option csilk_bounded_buf_t :=
  if Z.of_nat (length text) >? 0
  then csilk_bounded_buf_puts b (Some (take 63 text)) else Some b.

(** ** The JSON builder *)

Record csilk_bounded_json_t := mk_json {
  jbuf : csilk_bounded_buf_t;
  comma : bool;
}.

Definition csilk_bounded_json_init (arr : bytes) (cap : Z) : option csilk_bounded_json_t :=
  b ← csilk_bounded_buf_init arr cap;
  Some (mk_json b false).

Definition csilk_bounded_json_overflow (j : csilk_bounded_json_t) : bool :=
  csilk_bounded_buf_overflow j.(jbuf).

Definition csilk_bounded_json_str (j : csilk_bounded_json_t) : bytes :=
  csilk_bounded_buf_str j.(jbuf).

(** Writes through [&j->buf]. *)
Definition jputc (j : csilk_bounded_json_t) (c : ascii) : option csilk_bounded_json_t :=
  b ← csilk_bounded_buf_putc j.(jbuf) c; Some (mk_json b j.(comma)).
Definition jputs (j : csilk_bounded_json_t) (s : bytes) : option csilk_bounded_json_t :=
  b ← csilk_bounded_buf_puts j.(jbuf) (Some s); Some (mk_json b j.(comma)).
Definition set_comma (j : csilk_bounded_json_t) (v : bool) : csilk_bounded_json_t :=
  mk_json j.(jbuf) v.

Definition QUOTE : ascii := "034"%char.
Definition BACKSLASH : ascii := "092"%char.

(** Lower-case hexadecimal digit of [%x]. *)
Definition hex_digit (d : Z) : ascii := if d <? 10 then chr (48 + d) else chr (87 + d).

(** [snprintf(esc, sizeof(esc), "\\u%04x", c)] for a byte [c]. *)
Definition u_escape (c : ascii) : bytes :=
  [BACKSLASH; "u"; "0"; "0"]%char ++ [hex_digit (cval c / 16); hex_digit (cval c `mod` 16)].

(** The [switch] of [json_write_escaped]. *)
Definition write_escaped_char (j : csilk_bounded_json_t) (c : ascii) : option csilk_bounded_json_t :=
  if Ascii.eqb c QUOTE then jputs j [BACKSLASH; QUOTE]
  else if Ascii.eqb c BACKSLASH then jputs j [BACKSLASH; BACKSLASH]
  else if Ascii.eqb c "010" then jputs j [BACKSLASH; "n"%char]
  else if Ascii.eqb c "013" then jputs j [BACKSLASH; "r"%char]
  else if Ascii.eqb c "009" then jputs j [BACKSLASH; "t"%char]
  else if cval c <? 32 then jputs j (u_escape c)
  else jputc j c.

Fixpoint write_escaped_loop (j : csilk_bounded_json_t) (s : bytes) : option csilk_bounded_json_t :=
  match s with
  | [] => Some j
  | c :: s' => j' ← write_escaped_char j c; write_escaped_loop j' s'
  end.

Definition json_write_escaped (j : csilk_bounded_json_t) (s : option bytes) : option csilk_bounded_json_t :=
  match s with
  | None => jputs j (lit "null")
  | Some s =>
      j1 ← jputc j QUOTE;
      j2 ← write_escaped_loop j1 s;
      jputc j2 QUOTE
  end.

Definition json_write_comma (j : csilk_bounded_json_t) : option csilk_bounded_json_t :=
  j1 ← (if j.(comma) then jputc j ","%char else Some j);
  Some (set_comma j1 true).

Definition csilk_bounded_json_object_open (j : csilk_bounded_json_t) : option csilk_bounded_json_t :=
  j1 ← (if j.(comma) then jputc j ","%char else Some j);
  j2 ← jputc j1 "{"%char;
  Some (set_comma j2 false).

Definition csilk_bounded_json_object_close (j : csilk_bounded_json_t) : option csilk_bounded_json_t :=
  j1 ← jputc j "}"%char;
  Some (set_comma j1 true).

Definition csilk_bounded_json_array_open (j : csilk_bounded_json_t) : option csilk_bounded_json_t :=
  j1 ← (if j.(comma) then jputc j ","%char else Some j);
  j2 ← jputc j1 "["%char;
  Some (set_comma j2 false).

Definition csilk_bounded_json_array_close (j : csilk_bounded_json_t) : option csilk_bounded_json_t :=
  j1 ← jputc j "]"%char;
  Some (set_comma j1 true).

Definition csilk_bounded_json_key (j : csilk_bounded_json_t) (key : option bytes) : option csilk_bounded_json_t :=
  j1 ← json_write_comma j;
  j2 ← json_write_escaped j1 key;
  j3 ← jputc j2 ":"%char;
  Some (set_comma j3 false).

Definition csilk_bounded_json_string (j : csilk_bounded_json_t) (s : option bytes) : option csilk_bounded_json_t :=
  j1 ← json_write_comma j;
  json_write_escaped j1 s.

Definition csilk_bounded_json_int (tmp : bytes) (j : csilk_bounded_json_t) (n : Z) : option csilk_bounded_json_t :=
  j1 ← json_write_comma j;
  b ← csilk_bounded_buf_puti tmp j1.(jbuf) n;
  Some (mk_json b j1.(comma)).

Definition csilk_bounded_json_uint (tmp : bytes) (j : csilk_bounded_json_t) (n : Z) : option csilk_bounded_json_t :=
  j1 ← json_write_comma j;
  b ← csilk_bounded_buf_putu tmp j1.(jbuf) n;
  Some (mk_json b j1.(comma)).

Definition csilk_bounded_json_double (j : csilk_bounded_json_t) (text : bytes) : option csilk_bounded_json_t :=
  j1 ← json_write_comma j;
  b ← csilk_bounded_buf_putf j1.(jbuf) text;
  Some (mk_json b j1.(comma)).

Definition csilk_bounded_json_bool (j : csilk_bounded_json_t) (v : bool) : option csilk_bounded_json_t :=
  j1 ← json_write_comma j;
  jputs j1 (if v then lit "true" else lit "false").

Definition csilk_bounded_json_null (j : csilk_bounded_json_t) : option csilk_bounded_json_t :=
  j1 ← json_write_comma j;
  jputs j1 (lit "null").

Definition csilk_bounded_json_status (arr : bytes) (cap : Z) (status : option bytes) : option csilk_bounded_json_t :=
  j0 ← csilk_bounded_json_init arr cap;
  j1 ← csilk_bounded_json_object_open j0;
  j2 ← csilk_bounded_json_key j1 (Some (lit "status"));
  j3 ← csilk_bounded_json_string j2 status;
  csilk_bounded_json_object_close j3.

Definition csilk_bounded_json_error (arr : bytes) (cap : Z) (message : option bytes) : option csilk_bounded_json_t :=
  j0 ← csilk_bounded_json_init arr cap;
  j1 ← csilk_bounded_json_object_open j0;
  j2 ← csilk_bounded_json_key j1 (Some (lit "error"));
  j3 ← csilk_bounded_json_string j2 message;
  csilk_bounded_json_object_close j3.

(** ** What the buffer promises

    [Rep b out]: [b] has received the text [out].  It holds the longest prefix
    of [out] that fits with its terminator, and reports overflow exactly when
    that is not all of [out]. *)
Definition kept (b : csilk_bounded_buf_t) (out : bytes) : nat :=
  Nat.min (length out) (length b.(buf) - 1).

Record Rep (b : csilk_bounded_buf_t) (out : bytes) : Prop := {
  rep_cap : b.(capacity) = Z.of_nat (length b.(buf));
  rep_max : b.(capacity) <= SIZE_MAX;
  rep_len : b.(len) = Z.of_nat (kept b out);
  rep_txt : take (kept b out) b.(buf) = take (kept b out) out;
  rep_nul : (0 < length b.(buf))%nat -> b.(buf) !! kept b out = Some NUL;
  rep_ovf : b.(overflow) = (length b.(buf) - 1 <? length out)%nat;
}.

(** [appends m s]: run on a buffer that has received [out], [m] returns (no
    write leaves the array) a buffer that has received [out ++ s]. *)
Definition appends (m : csilk_bounded_buf_t -> option csilk_bounded_buf_t) (s : bytes) : Prop :=
  forall b out, Rep b out -> exists b', m b = Some b' /\ Rep b' (out ++ s) /\ length b'.(buf) = length b.(buf).

Lemma init_rep (arr : bytes) (cap : Z) :
  cap = Z.of_nat (length arr) -> cap <= SIZE_MAX ->
  exists b, csilk_bounded_buf_init arr cap = Some b /\ Rep b [] /\ length b.(buf) = length arr.
Proof.
  intros -> Hmax. unfold csilk_bounded_buf_init.
  destruct (Z.gtb_spec (Z.of_nat (length arr)) 0) as [H|H].
  - rewrite store_ok by lia. run_binds. eexists; split; [done|].
    cbn [buf]. split; [|by rewrite length_insert].
    constructor; cbn [buf capacity len overflow]; unfold kept; cbn [buf];
      rewrite ?length_insert; try done.
    intros _. apply list_lookup_insert_eq. lia.
  - eexists; split; [done|]. split; [|done].
    constructor; simpl; try done; intros; unfold kept; simpl; lia.
Qed.

Lemma putc_appends (c : ascii) : appends (fun b => csilk_bounded_buf_putc b c) [c].
Proof.
  intros b out [Hcap Hmax Hlen Htxt Hnul Hovf].
  unfold csilk_bounded_buf_putc, SIZE_MAX in *.
  assert (kept b out <= length (buf b))%nat by (unfold kept; lia).
  assert (wrap64 (len b + 1) = len b + 1 \/ length (buf b) = 0%nat) as Hw.
  { destruct (length (buf b)) eqn:E; [by right|left]. apply wrap64_small. unfold kept in *. lia. }
  pose proof (wrap64_range (len b + 1)).
  destruct (Z.ltb_spec (wrap64 (len b + 1)) (capacity b)) as [Hlt|Hge].
  - assert (len b + 1 < capacity b) by (destruct Hw as [<-|]; [done|unfold kept in *; lia]).
    assert (kept b out = length out) as Hk by (unfold kept in *; lia).
    rewrite store_ok by lia. run_binds. rewrite store_ok by (rewrite length_insert; lia). run_binds.
    eexists; split; [done|]. cbn [buf]. split; [|by rewrite !length_insert].
    rewrite Hk in *. rewrite Hlen in *. rewrite Z2Nat.inj_add, Nat2Z.id by lia.
    change (Z.to_nat 1) with 1%nat.
    constructor; cbn [buf capacity len overflow]; unfold kept; cbn [buf];
      rewrite ?length_insert, ?length_app; cbn [length]; [lia|unfold SIZE_MAX; lia|lia| | |].
    + rewrite Nat.min_l by lia. rewrite take_insert_ge by lia.
      rewrite Nat.add_1_r, take_insert_end by lia.
      rewrite Htxt, firstn_all, take_ge by (rewrite length_app; simpl; lia). done.
    + intros _. rewrite Nat.min_l by lia. apply list_lookup_insert_eq. rewrite length_insert. lia.
    + rewrite Hovf. rewrite !(proj2 (Nat.ltb_ge _ _)) by lia. done.
  - eexists; split; [done|]. split; [|done].
    assert (kept b out = length (buf b) - 1)%nat as Hk.
    { unfold kept in *. destruct Hw as [Hw|Hw]; lia. }
    assert (kept b (out ++ [c]) = kept b out) as Hk'.
    { rewrite Hk. unfold kept in *. rewrite length_app; simpl. lia. }
    constructor; simpl; try done; unfold kept in *; simpl in *; try rewrite Hk'; try done.
    + rewrite Htxt. rewrite take_app_le by lia. done.
    + symmetry. apply Nat.ltb_lt. rewrite length_app; simpl. lia.
Qed.

Lemma appends_nil : appends Some [].
Proof. intros b out H. exists b. by rewrite app_nil_r. Qed.

Lemma appends_bind m1 m2 s1 s2 :
  appends m1 s1 -> appends m2 s2 -> appends (fun b => b' ← m1 b; m2 b') (s1 ++ s2).
Proof.
  intros H1 H2 b out Hb. destruct (H1 _ _ Hb) as (b1 & E1 & Hb1 & Hl1).
  destruct (H2 _ _ Hb1) as (b2 & E2 & Hb2 & Hl2).
  exists b2. rewrite E1. simpl. rewrite app_assoc. split_and!; [done..|congruence].
Qed.

Lemma puts_loop_appends (s : bytes) : appends (fun b => puts_loop b s) s.
Proof.
  induction s as [|c s IH]; simpl; [apply appends_nil|].
  change (c :: s) with ([c] ++ s). by apply appends_bind; [apply putc_appends|].
Qed.

#[export] Hint Resolve putc_appends puts_loop_appends appends_nil appends_bind : csilk.

(** ** Decimal formatting

    The reference is [stdpp]'s decimal printer [pretty], which is injective. *)

Lemma digit_char (d : Z) :
  0 <= d < 10 -> chr (48 + d) = pretty_N_char (Z.to_N d).
Proof.
  intros H.
  assert (d = 0 \/ d = 1 \/ d = 2 \/ d = 3 \/ d = 4 \/ d = 5 \/ d = 6 \/ d = 7 \/ d = 8 \/ d = 9)
    as Hd by lia.
  by repeat destruct Hd as [->|Hd]; [..|subst].
Qed.

Lemma pretty_N_char_not_nul (x : N) : pretty_N_char x <> NUL.
Proof. unfold pretty_N_char, NUL. by repeat case_match. Qed.

Lemma pretty_N_go_nul_free (x : N) (s : string) :
  nul_free (lit s) -> nul_free (lit (pretty_N_go x s)).
Proof.
  revert s. induction (N.lt_wf_0 x) as [x _ IH]; intros s Hs.
  assert (x = 0 \/ 0 < x)%N as [->|Hx] by lia; [done|].
  rewrite pretty_N_go_step by done. apply IH; [by apply N.div_lt|].
  rewrite lit_cons. apply nul_free_cons. split; [apply pretty_N_char_not_nul|done].
Qed.

Lemma pretty_nul_free (x : N) : nul_free (lit (pretty x)).
Proof.
  unfold pretty, pretty_N. case_decide; [by apply nul_free_cons; split; [|apply not_elem_of_nil]|].
  apply pretty_N_go_nul_free, not_elem_of_nil.
Qed.

Lemma uint64_digits_spec (k fuel : nat) (tmp : bytes) (e n : Z) (s : string) (rest : bytes) :
  0 <= n < 10 ^ Z.of_nat k -> (k <= fuel)%nat -> Z.of_nat k <= e <= Z.of_nat (length tmp) ->
  drop (Z.to_nat e) tmp = lit s ++ NUL :: rest ->
  exists tmp' e', uint64_digits fuel tmp e n = Some (tmp', e') /\
    drop (Z.to_nat e') tmp' = lit (pretty_N_go (Z.to_N n) s) ++ NUL :: rest.
Proof.
  revert fuel tmp e n s. induction k as [|k IH]; intros fuel tmp e n s Hn Hf He Hd.
  { assert (n = 0) as -> by lia. exists tmp, e. by destruct fuel. }
  destruct (Z.gtb_spec n 0) as [Hpos|Hz]; [|assert (n = 0) as -> by lia; exists tmp, e; by destruct fuel].
  destruct fuel as [|fuel]; [lia|]. cbn [uint64_digits].
  rewrite (proj2 (Z.gtb_lt n 0)) by lia.
  rewrite store_ok by lia. run_binds.
  destruct (IH fuel (<[Z.to_nat (e - 1) := chr (48 + n `mod` 10)]> tmp) (e - 1) (n / 10) (String (pretty_N_char (Z.to_N (n `mod` 10))) s))
    as (tmp' & e' & E & Ht).
  - rewrite Nat2Z.inj_succ, Z.pow_succ_r in Hn by lia.
    split; [apply Z.div_pos; lia|apply Z.div_lt_upper_bound; lia].
  - lia.
  - rewrite length_insert. lia.
  - rewrite drop_insert_here by lia. rewrite <- Z2Nat.inj_succ by lia.
    replace (Z.succ (e - 1)) with e by lia.
    rewrite Hd, lit_cons, digit_char by (apply Z.mod_pos_bound; lia). done.
  - exists tmp', e'. split; [done|]. rewrite Ht. f_equal. f_equal.
    rewrite (pretty_N_go_step (Z.to_N n)) by lia.
    rewrite Z2N.inj_div, Z2N.inj_mod by lia. done.
Qed.

Lemma uint64_to_str_spec (tmp : bytes) (n : Z) :
  length tmp = 25%nat -> 0 <= n < 2 ^ 64 ->
  exists r, uint64_to_str tmp n = Some r /\ str_at r = lit (pretty (Z.to_N n)).
Proof.
  intros Ht Hn. unfold uint64_to_str. rewrite Ht.
  change (Z.of_nat 25 - 1) with 24. change (Z.of_nat 25 - 2) with 23.
  rewrite store_ok by lia. run_binds. change (Z.to_nat 24) with 24%nat.
  assert (drop 24 (<[24%nat := NUL]> tmp) = [NUL]) as Hd.
  { rewrite drop_insert_here by lia. by rewrite drop_ge by lia. }
  destruct (Z.eqb_spec n 0) as [->|Hnz].
  - rewrite store_ok by (rewrite length_insert; lia). run_binds.
    eexists; split; [done|]. unfold str_at. cbn [fst snd]. change (Z.to_nat 23) with 23%nat.
    rewrite drop_insert_here by (rewrite length_insert; lia). by rewrite Hd.
  - destruct (uint64_digits_spec 20 25 (<[24%nat := NUL]> tmp) 24 n "" [])
      as (tmp' & e' & E & Hs); [change (10 ^ Z.of_nat 20) with 100000000000000000000; lia|lia|rewrite length_insert; lia|done|].
    exists (tmp', e'). split; [exact E|]. unfold str_at. cbn [fst snd]. rewrite Hs.
    rewrite cstr_app by (apply pretty_N_go_nul_free, not_elem_of_nil).
    unfold pretty, pretty_N. by rewrite decide_False by lia.
Qed.

(** ** What the JSON builder promises

    [emits m f]: started with comma flag [c] on a builder that has received
    [out], [m] returns a builder that has received [out ++ (f c).1] and whose
    comma flag is [(f c).2]. *)
Definition emits (m : csilk_bounded_json_t -> option csilk_bounded_json_t) (f : bool -> bytes * bool) : Prop :=
  forall j out, Rep j.(jbuf) out -> exists j', m j = Some j' /\
    Rep j'.(jbuf) (out ++ (f j.(comma)).1) /\ j'.(comma) = (f j.(comma)).2 /\
    length j'.(jbuf).(buf) = length j.(jbuf).(buf).

(** Sequencing of two such effects. *)
Definition seq_eff (f g : bool -> bytes * bool) (c : bool) : bytes * bool :=
  ((f c).1 ++ (g (f c).2).1, (g (f c).2).2).

(** Appending a text, whatever the flag. *)
Definition text_eff (s : bytes) (c : bool) : bytes * bool := (s, c).
Definition sep (c : bool) : bytes := if c then [","%char] else [].

Lemma emits_bind m1 m2 f1 f2 :
  emits m1 f1 -> emits m2 f2 -> emits (fun j => j' ← m1 j; m2 j') (seq_eff f1 f2).
Proof.
  intros H1 H2 j out Hj. destruct (H1 _ _ Hj) as (j1 & E1 & R1 & C1 & L1).
  destruct (H2 _ _ R1) as (j2 & E2 & R2 & C2 & L2).
  exists j2. rewrite E1. cbn. rewrite <- C1, app_assoc. split_and!; [done..|congruence].
Qed.

Lemma emits_ext m f g :
  emits m f -> (forall c, f c = g c) -> emits m g.
Proof. intros H Hfg j out Hj. rewrite <- !Hfg. by apply H. Qed.

Lemma emits_some : emits Some (text_eff []).
Proof. intros j out H. exists j. cbn. by rewrite app_nil_r. Qed.

Lemma emits_appends m s :
  appends m s -> emits (fun j => b ← m j.(jbuf); Some (mk_json b j.(comma))) (text_eff s).
Proof.
  intros H j out Hj. destruct (H _ _ Hj) as (b & E & R & L).
  exists (mk_json b (comma j)). by rewrite E.
Qed.

Lemma jputc_emits c : emits (fun j => jputc j c) (text_eff [c]).
Proof. apply (emits_appends (fun b => csilk_bounded_buf_putc b c)), putc_appends. Qed.

Lemma jputs_emits s : emits (fun j => jputs j s) (text_eff s).
Proof. apply (emits_appends (fun b => csilk_bounded_buf_puts b (Some s))), puts_loop_appends. Qed.

Lemma set_comma_emits v : emits (fun j => Some (set_comma j v)) (fun _ => ([], v)).
Proof. intros j out H. exists (set_comma j v). cbn. by rewrite app_nil_r. Qed.

Lemma sep_emits :
  emits (fun j => if j.(comma) then jputc j ","%char else Some j) (fun c => (sep c, c)).
Proof.
  intros j out H. destruct (comma j) eqn:E.
  - destruct (jputc_emits ","%char _ _ H) as (j' & ? & ? & Hc & ?). rewrite E in Hc. by exists j'.
  - exists j. cbn. by rewrite app_nil_r.
Qed.

Lemma write_comma_emits : emits json_write_comma (fun c => (sep c, true)).
Proof.
  eapply emits_ext; [apply (emits_bind _ _ _ _ sep_emits (set_comma_emits true))|].
  intros c. unfold seq_eff; cbn. by rewrite app_nil_r.
Qed.

#[export] Hint Resolve jputc_emits jputs_emits set_comma_emits sep_emits write_comma_emits emits_some : csilk.

(** Split a chain of binds into its steps and close the steps by the hints;
    the remaining goal compares the two effects. *)
Ltac emits_steps :=
  eapply emits_ext;
  [repeat first [solve [eauto with csilk] | eapply emits_bind]
  |intros ?; unfold seq_eff, text_eff; cbn; rewrite ?app_nil_r, <- ?app_assoc; try done].

(** The text of one escaped byte and of an escaped string. *)
Definition esc_char (c : ascii) : bytes :=
  if Ascii.eqb c QUOTE then [BACKSLASH; QUOTE]
  else if Ascii.eqb c BACKSLASH then [BACKSLASH; BACKSLASH]
  else if Ascii.eqb c "010" then [BACKSLASH; "n"%char]
  else if Ascii.eqb c "013" then [BACKSLASH; "r"%char]
  else if Ascii.eqb c "009" then [BACKSLASH; "t"%char]
  else if cval c <? 32 then u_escape c
  else [c].

Definition esc (s : bytes) : bytes := s ≫= esc_char.
Definition quoted (s : bytes) : bytes := QUOTE :: esc s ++ [QUOTE].

Lemma write_escaped_loop_emits (s : bytes) :
  emits (fun j => write_escaped_loop j s) (text_eff (esc s)).
Proof.
  induction s as [|c s IH]; cbn [write_escaped_loop]; [apply emits_some|].
  eapply emits_ext; [apply emits_bind; [|apply IH]|].
  - instantiate (1 := text_eff (esc_char c)). unfold write_escaped_char, esc_char.
    repeat case_match; auto with csilk.
  - intros b. unfold seq_eff, text_eff, esc. by rewrite bind_cons.
Qed.

Lemma json_write_escaped_emits (s : option bytes) :
  emits (fun j => json_write_escaped j s)
    (text_eff (match s with Some s => quoted s | None => lit "null" end)).
Proof.
  destruct s as [s|]; cbn [json_write_escaped]; [|apply jputs_emits].
  pose proof (write_escaped_loop_emits s). emits_steps.
Qed.

#[export] Hint Resolve json_write_escaped_emits : csilk.

Lemma object_open_emits : emits csilk_bounded_json_object_open (fun c => (sep c ++ ["{"%char], false)).
Proof. unfold csilk_bounded_json_object_open. emits_steps. Qed.

Lemma object_close_emits : emits csilk_bounded_json_object_close (fun _ => (["}"%char], true)).
Proof. unfold csilk_bounded_json_object_close. emits_steps. Qed.

Lemma array_open_emits : emits csilk_bounded_json_array_open (fun c => (sep c ++ ["["%char], false)).
Proof. unfold csilk_bounded_json_array_open. emits_steps. Qed.

Lemma array_close_emits : emits csilk_bounded_json_array_close (fun _ => (["]"%char], true)).
Proof. unfold csilk_bounded_json_array_close. emits_steps. Qed.

Lemma key_emits (k : bytes) :
  emits (fun j => csilk_bounded_json_key j (Some k)) (fun c => (sep c ++ quoted k ++ [":"%char], false)).
Proof. unfold csilk_bounded_json_key. emits_steps. Qed.

Lemma string_emits (s : bytes) :
  emits (fun j => csilk_bounded_json_string j (Some s)) (fun c => (sep c ++ quoted s, true)).
Proof. unfold csilk_bounded_json_string. emits_steps. Qed.

Lemma bool_emits (v : bool) :
  emits (fun j => csilk_bounded_json_bool j v)
    (fun c => (sep c ++ (if v then lit "true" else lit "false"), true)).
Proof. unfold csilk_bounded_json_bool. emits_steps. Qed.

Lemma null_emits : emits csilk_bounded_json_null (fun c => (sep c ++ lit "null", true)).
Proof. unfold csilk_bounded_json_null. emits_steps. Qed.

Lemma putu_appends (tmp : bytes) (n : Z) :
  length tmp = 25%nat -> 0 <= n < 2 ^ 64 ->
  appends (fun b => csilk_bounded_buf_putu tmp b n) (lit (pretty n)).
Proof.
  intros Ht Hn b out Hb. unfold csilk_bounded_buf_putu.
  destruct (uint64_to_str_spec tmp n Ht Hn) as (r & -> & Hr). run_binds. rewrite Hr.
  replace (pretty (Z.to_N n)) with (pretty n) by (destruct n; done || lia).
  by apply puts_loop_appends.
Qed.

(** [INT64_MIN] included: the magnitude is formed without overflow. *)
Lemma puti_appends (tmp : bytes) (n : Z) :
  length tmp = 25%nat -> - 2 ^ 63 <= n < 2 ^ 63 ->
  appends (fun b => csilk_bounded_buf_puti tmp b n) (lit (pretty n)).
Proof.
  intros Ht Hn. unfold csilk_bounded_buf_puti. destruct (Z.ltb_spec n 0) as [Hneg|Hpos].
  - rewrite (wrap64_small (- (n + 1))), wrap64_small by lia.
    destruct (uint64_to_str_spec tmp (- (n + 1) + 1) Ht ltac:(lia)) as (r & -> & Hr).
    replace (lit (pretty n)) with (["-"%char] ++ lit (pretty (Z.to_N (- (n + 1) + 1)))).
    + apply appends_bind; [apply putc_appends|]. run_binds. rewrite <- Hr. apply puts_loop_appends.
    + destruct n as [|p|p]; [lia..|]. replace (- (Z.neg p + 1) + 1) with (Z.pos p) by lia. done.
  - rewrite wrap64_small by lia. intros b out Hb.
    destruct (putu_appends tmp n Ht ltac:(lia) b out Hb) as (b' & E & R). by exists b'.
Qed.

Lemma int_emits (tmp : bytes) (n : Z) :
  length tmp = 25%nat -> - 2 ^ 63 <= n < 2 ^ 63 ->
  emits (fun j => csilk_bounded_json_int tmp j n) (fun c => (sep c ++ lit (pretty n), true)).
Proof.
  intros Ht Hn. pose proof (emits_appends _ _ (puti_appends tmp n Ht Hn)) as H. cbn beta in H.
  unfold csilk_bounded_json_int. emits_steps.
Qed.

Lemma uint_emits (tmp : bytes) (n : Z) :
  length tmp = 25%nat -> 0 <= n < 2 ^ 64 ->
  emits (fun j => csilk_bounded_json_uint tmp j n) (fun c => (sep c ++ lit (pretty n), true)).
Proof.
  intros Ht Hn. pose proof (emits_appends _ _ (putu_appends tmp n Ht Hn)) as H. cbn beta in H.
  unfold csilk_bounded_json_uint. emits_steps.
Qed.

(** ** JSON documents

    A document tree, its compact text, and the sequence of builder calls that a
    client makes for it. *)
Inductive jv :=
  | JNull
  | JBool (b : bool)
  | JInt (n : Z)
  | JUint (n : Z)
  | JStr (s : bytes)
  | JArr (l : list jv)
  | JObj (l : list (bytes * jv)).

Fixpoint comma_sep (l : list bytes) : bytes :=
  match l with
  | [] => []
  | [x] => x
  | x :: l' => x ++ ","%char :: comma_sep l'
  end.

Fixpoint json_text (v : jv) : bytes :=
  match v with
  | JNull => lit "null"
  | JBool b => if b then lit "true" else lit "false"
  | JInt n | JUint n => lit (pretty n)
  | JStr s => quoted s
  | JArr l => "["%char :: comma_sep (map json_text l) ++ ["]"%char]
  | JObj l => "{"%char :: comma_sep (map (fun kv => quoted kv.1 ++ ":"%char :: json_text kv.2) l) ++ ["}"%char]
  end.

(** Values the C interface can express: [int64_t], [uint64_t], C strings. *)
Fixpoint jv_ok (v : jv) : Prop :=
  match v with
  | JNull | JBool _ => True
  | JInt n => - 2 ^ 63 <= n < 2 ^ 63
  | JUint n => 0 <= n < 2 ^ 64
  | JStr s => nul_free s
  | JArr l => (fix all l := match l with [] => True | v :: l' => jv_ok v /\ all l' end) l
  | JObj l => (fix all l := match l with [] => True | (k, v) :: l' => nul_free k /\ jv_ok v /\ all l' end) l
  end.

Fixpoint build (tmp : bytes) (v : jv) (j : csilk_bounded_json_t) : option csilk_bounded_json_t :=
  match v with
  | JNull => csilk_bounded_json_null j
  | JBool b => csilk_bounded_json_bool j b
  | JInt n => csilk_bounded_json_int tmp j n
  | JUint n => csilk_bounded_json_uint tmp j n
  | JStr s => csilk_bounded_json_string j (Some s)
  | JArr l =>
      j1 ← csilk_bounded_json_array_open j;
      j2 ← (fix go l j := match l with
                          | [] => Some j
                          | v :: l' => j' ← build tmp v j; go l' j'
                          end) l j1;
      csilk_bounded_json_array_close j2
  | JObj l =>
      j1 ← csilk_bounded_json_object_open j;
      j2 ← (fix go l j := match l with
                          | [] => Some j
                          | (k, v) :: l' =>
                              jk ← csilk_bounded_json_key j (Some k);
                              j' ← build tmp v jk; go l' j'
                          end) l j1;
      csilk_bounded_json_object_close j2
  end.

Section jv_induction.
Variable P : jv -> Prop.
Hypotheses (Hnull : P JNull) (Hbool : forall b, P (JBool b)) (Hint : forall n, P (JInt n))
  (Huint : forall n, P (JUint n)) (Hstr : forall s, P (JStr s))
  (Harr : forall l, Forall P l -> P (JArr l))
  (Hobj : forall l, Forall (fun kv => P kv.2) l -> P (JObj l)).

Fixpoint jv_nested_ind (v : jv) : P v :=
  match v with
  | JNull => Hnull
  | JBool b => Hbool b
  | JInt n => Hint n
  | JUint n => Huint n
  | JStr s => Hstr s
  | JArr l => Harr l ((fix go l : Forall P l :=
      match l with [] => Forall_nil_2 _ | v :: l' => Forall_cons_2 _ _ _ (jv_nested_ind v) (go l') end) l)
  | JObj l => Hobj l ((fix go l : Forall (fun kv => P kv.2) l :=
      match l with [] => Forall_nil_2 _ | kv :: l' => Forall_cons_2 _ _ _ (jv_nested_ind kv.2) (go l') end) l)
  end.
End jv_induction.

(** The text of a run of members, given whether one already came before. *)
Fixpoint members (c : bool) (l : list bytes) : bytes :=
  match l with
  | [] => []
  | x :: l' => sep c ++ x ++ members true l'
  end.

Lemma members_true (x : bytes) (l : list bytes) : x ++ members true l = comma_sep (x :: l).
Proof.
  revert x. induction l as [|y l IH]; intros x; [by rewrite app_nil_r|].
  cbn [members sep]. rewrite IH. done.
Qed.

Lemma members_false (l : list bytes) : members false l = comma_sep l.
Proof. destruct l as [|x l]; [done|]. cbn [members sep]. apply members_true. Qed.

Lemma build_emits (tmp : bytes) (v : jv) :
  length tmp = 25%nat -> jv_ok v -> emits (build tmp v) (fun c => (sep c ++ json_text v, true)).
Proof.
  intros Ht. induction v as [|b|n|n|s|l IH|l IH] using jv_nested_ind; intros Hok.
  - apply null_emits.
  - apply bool_emits.
  - by apply int_emits.
  - by apply uint_emits.
  - apply string_emits.
  - cbn [build].
    eapply emits_ext; [eapply emits_bind; [apply array_open_emits|eapply emits_bind; [|apply array_close_emits]]|].
    { instantiate (1 := fun c => (members c (map json_text l), match l with [] => c | _ => true end)).
      clear -IH Hok. induction IH as [|v l Hv _ IHl]; [apply emits_some|].
      destruct Hok as [Hvok Hlok].
      eapply emits_ext; [apply emits_bind; [by apply Hv|by apply IHl]|].
      intros c. unfold seq_eff. cbn. rewrite <- app_assoc. by destruct l. }
    intros c. unfold seq_eff. cbn. by rewrite members_false, <- app_assoc.
  - cbn [build].
    eapply emits_ext; [eapply emits_bind; [apply object_open_emits|eapply emits_bind; [|apply object_close_emits]]|].
    { instantiate (1 := fun c => (members c (map (fun kv => quoted kv.1 ++ ":"%char :: json_text kv.2) l),
                                  match l with [] => c | _ => true end)).
      clear -IH Hok. induction IH as [|[k v] l Hv _ IHl]; [apply emits_some|].
      destruct Hok as (Hk & Hvok & Hlok).
      eapply emits_ext; [apply emits_bind; [apply key_emits|apply emits_bind; [by apply Hv|by apply IHl]]|].
      intros c. unfold seq_eff. cbn. rewrite <- !app_assoc. cbn. rewrite <- ?app_assoc. by destruct l. }
    intros c. unfold seq_eff. cbn. by rewrite members_false, <- app_assoc.
Qed.

Lemma nul_free_forallb (s : bytes) : forallb (fun c => negb (Ascii.eqb c NUL)) s = true -> nul_free s.
Proof.
  intros H Hin. rewrite list_elem_of_In in Hin. rewrite forallb_forall in H.
  specialize (H _ Hin). by rewrite Ascii.eqb_refl in H.
Qed.

Lemma esc_char_nul_free (c : ascii) : c <> NUL -> nul_free (esc_char c).
Proof.
  intros Hc. apply nul_free_forallb.
  pose proof (forall_ascii (fun c => Ascii.eqb c NUL || forallb (fun c => negb (Ascii.eqb c NUL)) (esc_char c))
    ltac:(vm_compute; reflexivity) c) as H. cbn beta in H.
  apply orb_true_iff in H as [H|H]; [by apply Ascii.eqb_eq in H|done].
Qed.

Lemma quoted_nul_free (s : bytes) : nul_free s -> nul_free (quoted s).
Proof.
  intros Hs. apply nul_free_cons. split; [done|]. apply nul_free_app. split; [|by apply nul_free_forallb].
  induction s as [|c s IH]; [apply not_elem_of_nil|]. apply nul_free_cons in Hs as [Hc Hs].
  unfold esc. rewrite bind_cons. apply nul_free_app. split; [by apply esc_char_nul_free|by apply IH].
Qed.

Lemma pretty_Z_nul_free (n : Z) : nul_free (lit (pretty n)).
Proof.
  destruct n as [|p|p]; [by apply nul_free_forallb|apply (pretty_nul_free (Npos p))|].
  apply nul_free_cons. split; [done|apply (pretty_nul_free (Npos p))].
Qed.

Lemma comma_sep_nul_free (l : list bytes) : Forall nul_free l -> nul_free (comma_sep l).
Proof.
  induction 1 as [|x l Hx Hl IH]; [apply not_elem_of_nil|]. destruct l as [|y l]; [done|].
  apply nul_free_app. split; [done|]. by apply nul_free_cons.
Qed.

#[export] Hint Resolve quoted_nul_free pretty_Z_nul_free comma_sep_nul_free : csilk.

Lemma json_text_nul_free (v : jv) : jv_ok v -> nul_free (json_text v).
Proof.
  induction v as [|b|n|n|s|l IH|l IH] using jv_nested_ind; intros Hok; cbn [json_text]; auto with csilk.
  - by apply nul_free_forallb.
  - destruct b; by apply nul_free_forallb.
  - apply nul_free_cons. split; [done|]. apply nul_free_app. split; [|by apply nul_free_forallb].
    apply comma_sep_nul_free. induction IH as [|v l Hv _ IHl]; [constructor|].
    destruct Hok as [Hvok Hlok]. constructor; [by apply Hv|by apply IHl].
  - apply nul_free_cons. split; [done|]. apply nul_free_app. split; [|by apply nul_free_forallb].
    apply comma_sep_nul_free. induction IH as [|[k v] l Hv _ IHl]; [constructor|].
    destruct Hok as (Hk & Hvok & Hlok). constructor; [|by apply IHl].
    apply nul_free_app. split; [by apply quoted_nul_free|]. apply nul_free_cons. split; [done|by apply Hv].
Qed.

Lemma rep_str (b : csilk_bounded_buf_t) (out : bytes) :
  (0 < length b.(buf))%nat -> Rep b out -> nul_free out ->
  csilk_bounded_buf_str b = take (length b.(buf) - 1) out.
Proof.
  intros Hpos [Hcap Hmax Hlen Htxt Hnul Hovf] Hout. unfold csilk_bounded_buf_str.
  rewrite <- (take_drop (kept b out) (buf b)) at 1. rewrite Htxt, (drop_S _ NUL) by auto.
  rewrite cstr_app.
  - unfold kept. destruct (Nat.le_ge_cases (length out) (length (buf b) - 1)).
    + rewrite Nat.min_l by lia. rewrite (take_ge out (length out)), take_ge by lia. done.
    + by rewrite Nat.min_r by lia.
  - intros Hin. by apply Hout, (subseteq_take (kept b out)).
Qed.

(** ** A reference decoder for JSON string bodies (RFC 8259, section 7)

    Reads up to the closing quote; the four-digit escape is decoded when it
    denotes a byte.  Raw control characters are rejected. *)
Definition hex_value (c : ascii) : option Z :=
  let v := cval c in
  if (48 <=? v) && (v <=? 57) then Some (v - 48)
  else if (97 <=? v) && (v <=? 102) then Some (v - 87)
  else if (65 <=? v) && (v <=? 70) then Some (v - 55)
  else None.

Definition simple_escape (e : ascii) : option ascii :=
  if Ascii.eqb e QUOTE then Some QUOTE
  else if Ascii.eqb e BACKSLASH then Some BACKSLASH
  else if Ascii.eqb e "/" then Some "/"%char
  else if Ascii.eqb e "b" then Some "008"%char
  else if Ascii.eqb e "f" then Some "012"%char
  else if Ascii.eqb e "n" then Some "010"%char
  else if Ascii.eqb e "r" then Some "013"%char
  else if Ascii.eqb e "t" then Some "009"%char
  else None.

Definition u_value (h1 h2 h3 h4 : ascii) : option ascii :=
  a ← hex_value h1; b ← hex_value h2; c ← hex_value h3; d ← hex_value h4;
  let v := 4096 * a + 256 * b + 16 * c + d in
  if v <? 256 then Some (chr v) else None.

Definition push (c : ascii) (r : option (bytes * bytes)) : option (bytes * bytes) :=
  '(s, rest) ← r; Some (c :: s, rest).

Fixpoint unescape (s : bytes) : option (bytes * bytes) :=
  match s with
  | [] => None
  | c :: s1 =>
      if Ascii.eqb c QUOTE then Some ([], s1)
      else if Ascii.eqb c BACKSLASH then
        match s1 with
        | [] => None
        | e :: s2 =>
            match simple_escape e with
            | Some x => push x (unescape s2)
            | None =>
                if Ascii.eqb e "u" then
                  match s2 with
                  | h1 :: h2 :: h3 :: h4 :: s3 =>
                      match u_value h1 h2 h3 h4 with
                      | Some x => push x (unescape s3)
                      | None => None
                      end
                  | _ => None
                  end
                else None
            end
        end
      else if cval c <? 32 then None
      else push c (unescape s1)
  end.

Lemma unescape_esc_char (c : ascii) (rest : bytes) :
  unescape (esc_char c ++ rest) = push c (unescape rest).
Proof. destruct c as [[] [] [] [] [] [] [] []]; reflexivity. Qed.

Lemma unescape_esc (s rest : bytes) : unescape (esc s ++ QUOTE :: rest) = Some (s, rest).
Proof.
  induction s as [|c s IH]; [done|]. unfold esc. rewrite bind_cons, <- app_assoc.
  rewrite unescape_esc_char. fold (esc s). by rewrite IH.
Qed.

(** ** Properties *)


Definition sample_doc : jv :=
  JObj [(lit "a", JInt (-9223372036854775808)); (lit "b", JArr [JStr (lit "x"); JNull; JUint 7])].


(** C35: the text the builder writes for a string value is a JSON string that
    decodes to exactly that string: no raw control character, quote or
    backslash leaks out of the literal, whatever bytes the string holds. *)
Theorem json_string_roundtrip (s rest : bytes) :
  emits (fun j => json_write_escaped j (Some s)) (text_eff (quoted s)) /\
  exists body, quoted s ++ rest = QUOTE :: body /\ unescape body = Some (s, rest).
Proof.
  split; [apply json_write_escaped_emits|].
  exists (esc s ++ QUOTE :: rest). split; [|apply unescape_esc].
  unfold quoted. cbn. by rewrite <- app_assoc.
Qed.

(** A signed 64-bit integer, [INT64_MIN] included, is appended as its
    decimal text, distinct integers as distinct texts, and the 25-byte scratch
    array is never left. *)
Theorem puti_decimal (tmp : bytes) (n : Z)
    (Htmp : length tmp = 25%nat) (Hn : - 2 ^ 63 <= n < 2 ^ 63) :
  appends (fun b => csilk_bounded_buf_puti tmp b n) (lit (pretty n)) /\
  forall m, lit (pretty m) = lit (pretty n) -> m = n.
Proof.
  split; [by apply puti_appends|]. intros m Hm. apply (inj pretty).
  rewrite <- (String.string_of_list_ascii_of_string (pretty m)),
    <- (String.string_of_list_ascii_of_string (pretty n)).
  unfold lit in Hm. by rewrite Hm.
Qed.

Lemma puti_decimal_witness :
  appends (fun b => csilk_bounded_buf_puti (replicate 25 NUL) b (-42)) (lit "-42") /\
  forall m, lit (pretty m) = lit "-42" -> m = -42.
Proof. apply (puti_decimal (replicate 25 NUL) (-42)); [reflexivity|lia]. Defined.
