(* ===== verification/Url.v ===== *)
(** * URL decoding and splitting

    Models src/src/core/primitives/url.c.  [csilk_url_decode] rewrites a C
    string in place with a read and a write cursor; the model keeps the whole
    array and checks every access, so a result includes memory safety.  The
    reference is [decode], a recursive reading of percent-encoding. *)

From S2P Require Import Prelude.

#[local] Open Scope Z_scope.

Definition hex_to_int (c : ascii) : Z :=
  let v := cval c in
  if (48 <=? v) && (v <=? 57) then v - 48
  else if (97 <=? v) && (v <=? 102) then v - 97 + 10
  else if (65 <=? v) && (v <=? 70) then v - 65 + 10
  else -1.

Definition isxdigit (c : ascii) : bool :=
  let v := cval c in
  ((48 <=? v) && (v <=? 57)) || ((97 <=? v) && (v <=? 102)) || ((65 <=? v) && (v <=? 70)).

(** [*src == '%' && isxdigit(src[1]) && isxdigit(src[2])], left to right. *)
Definition pct_at (buf : bytes) (src : nat) : option bool :=
  c ← buf !! src;
  if negb (Ascii.eqb c "%") then Some false else
  c1 ← buf !! (src + 1)%nat;
  if negb (isxdigit c1) then Some false else
  c2 ← buf !! (src + 2)%nat;
  Some (isxdigit c2).

(** The loop: the array, the read cursor and the write cursor. *)
Fixpoint url_decode_loop (fuel : nat) (buf : bytes) (src dst : nat) : option (bytes * nat) :=
  match fuel with
  | O => None
  | S fuel' =>
      c ← buf !! src;
      if Ascii.eqb c NUL then
        buf' ← store (Z.of_nat dst) NUL buf; Some (buf', dst)
      else
        b ← pct_at buf src;
        if (b : bool) then
          c1 ← buf !! (src + 1)%nat;
          c2 ← buf !! (src + 2)%nat;
          let hi := hex_to_int c1 in
          let lo := hex_to_int c2 in
          if (0 <=? hi) && (0 <=? lo) then
            buf' ← store (Z.of_nat dst) (chr (Z.lor (Z.shiftl hi 4) lo)) buf;
            url_decode_loop fuel' buf' (src + 3) (dst + 1)
          else url_decode_loop fuel' buf (src + 1) dst
        else if Ascii.eqb c "+" then
          buf' ← store (Z.of_nat dst) " "%char buf;
          url_decode_loop fuel' buf' (src + 1) (dst + 1)
        else
          buf' ← store (Z.of_nat dst) c buf;
          url_decode_loop fuel' buf' (src + 1) (dst + 1)
  end.

(** The array after the call and the returned length; each round moves the
    read cursor, so the array's length bounds the rounds. *)
Definition csilk_url_decode (str : option bytes) : option (option bytes * nat) :=
  match str with
  | None => Some (None, 0%nat)
  | Some buf => '(buf', n) ← url_decode_loop (S (length buf)) buf 0 0; Some (Some buf', n)
  end.

(** The bytes before the first [c], and those after it. *)
Fixpoint strchr_split (c : ascii) (s : bytes) : option (bytes * bytes) :=
  match s with
  | [] => None
  | d :: s' =>
      if Ascii.eqb d c then Some ([], s')
      else match strchr_split c s' with Some (a, b) => Some (d :: a, b) | None => None end
  end.

(** [csilk_split_url]: the decoded path and the raw query. [url] is the string
    without its terminator; [alloc_path] and [alloc_query] say whether the two
    allocations succeed. *)
Definition csilk_split_url (alloc_path alloc_query : bool) (url : option bytes)
  : option (option bytes * option bytes) :=
  match url with
  | None => Some (None, None)
  | Some url =>
      match strchr_split "?" url with
      | Some (p, q) =>
          if negb alloc_path then Some (None, None) else
          '(path, _) ← csilk_url_decode (Some (p ++ [NUL]));
          if negb alloc_query then Some (None, None) else Some (option_map cstr path, Some q)
      | None =>
          if negb alloc_path then Some (None, None) else
          '(path, _) ← csilk_url_decode (Some (url ++ [NUL]));
          Some (option_map cstr path, None)
      end
  end.

(** ** Reference *)

Fixpoint decode (s : bytes) : bytes :=
  match s with
  | [] => []
  | c :: t =>
      let plain := (if Ascii.eqb c "+" then " "%char else c) :: decode t in
      match t with
      | c1 :: c2 :: t' =>
          if Ascii.eqb c "%" && isxdigit c1 && isxdigit c2
          then chr (16 * hex_to_int c1 + hex_to_int c2) :: decode t'
          else plain
      | _ => plain
      end
  end.

Lemma hex_to_int_range c : isxdigit c = true -> 0 <= hex_to_int c < 16.
Proof.
  intros H. assert (negb (isxdigit c) || ((0 <=? hex_to_int c) && (hex_to_int c <? 16)) = true) as Hf
    by (revert c H; intros c _; revert c; apply forall_ascii; by vm_compute).
  rewrite H in Hf. cbn in Hf. lia.
Qed.

(** Reading [decode] at a position: what the loop's three branches match. *)
Lemma decode_pct c1 c2 t :
  isxdigit c1 = true -> isxdigit c2 = true ->
  decode ("%"%char :: c1 :: c2 :: t) = chr (16 * hex_to_int c1 + hex_to_int c2) :: decode t.
Proof. intros H1 H2. cbn -[chr]. by rewrite H1, H2. Qed.

Definition escape_at (s : bytes) : bool :=
  match s with
  | c :: c1 :: c2 :: _ => Ascii.eqb c "%" && isxdigit c1 && isxdigit c2
  | _ => false
  end.

Lemma decode_plain c t :
  escape_at (c :: t) = false -> decode (c :: t) = (if Ascii.eqb c "+" then " "%char else c) :: decode t.
Proof.
  intros H. destruct t as [|c1 [|c2 t]]; [done..|]. cbn -[chr] in *. by rewrite H.
Qed.

(** On a terminated string the three reads stay in the array. *)
Lemma pct_at_spec pre c t rest :
  nul_free (c :: t) ->
  pct_at (pre ++ (c :: t) ++ NUL :: rest) (length pre) = Some (escape_at (c :: t)).
Proof.
  intros Hn. unfold pct_at.
  rewrite <- (Nat.add_0_r (length pre)) at 1. rewrite !lookup_app_at. cbn [app lookup list_lookup mbind option_bind].
  destruct (Ascii.eqb_spec c "%") as [->|]; cbn [negb].
  2: { destruct t as [|c1 [|c2 t]]; cbn; [done..|]. by destruct (Ascii.eqb_spec c "%"). }
  destruct t as [|c1 t]; [done|]. cbn [app lookup list_lookup mbind option_bind].
  destruct (isxdigit c1) eqn:E1; cbn [negb]; [|by destruct t; cbn; rewrite ?E1].
  destruct t as [|c2 t]; [done|]. cbn. by rewrite E1.
Qed.

(** Consuming the bytes [k] and writing one byte [x] in their place. *)
Lemma store_step out junk k t x :
  k <> [] ->
  exists junk', store (Z.of_nat (length out)) x (out ++ junk ++ k ++ t) = Some ((out ++ [x]) ++ junk' ++ t) /\
    (length (out ++ junk) + length k)%nat = length ((out ++ [x]) ++ junk') /\
    (length junk + length k)%nat = S (length junk').
Proof.
  intros Hk. destruct (junk ++ k) as [|y j] eqn:E; [by destruct junk, k|].
  exists j. assert (length (junk ++ k) = S (length j)) as Hl by by rewrite E.
  rewrite length_app in Hl. rewrite !length_app. cbn [length]. split; [|lia].
  rewrite (app_assoc junk), E, store_ok by (rewrite length_app; cbn [length app]; lia).
  rewrite Nat2Z.id, insert_app_r_alt, Nat.sub_diag by lia. cbn. by rewrite <- !app_assoc.
Qed.

(** The write cursor never passes the read cursor: the array is the decoded
    prefix, some leftover bytes, and the unread suffix. *)
Lemma url_decode_loop_spec fuel out junk s rest :
  nul_free s -> (length s < fuel)%nat ->
  exists junk', url_decode_loop fuel (out ++ junk ++ s ++ NUL :: rest) (length (out ++ junk)) (length out)
    = Some (out ++ decode s ++ NUL :: junk' ++ rest, length (out ++ decode s))
    /\ length (decode s ++ junk') = length (junk ++ s).
Proof.
  revert out junk s. induction fuel as [|fuel IH]; intros out junk s Hn Hf; [lia|].
  cbn [url_decode_loop].
  assert (forall x k t, k <> [] -> nul_free t -> (length t < fuel)%nat -> exists buf' junk',
    store (Z.of_nat (length out)) x (out ++ junk ++ (k ++ t) ++ NUL :: rest) = Some buf' /\
    url_decode_loop fuel buf' (length (out ++ junk) + length k) (length out + 1) =
      Some (out ++ (x :: decode t) ++ NUL :: junk' ++ rest, length (out ++ x :: decode t)) /\
    length ((x :: decode t) ++ junk') = length (junk ++ k ++ t)) as Hstep.
  { intros x k t Hk Ht Hl. destruct (store_step out junk k (t ++ NUL :: rest) x Hk) as (j & Es & El & Ej).
    rewrite <- app_assoc, Es. destruct (IH (out ++ [x]) j t Ht Hl) as (j' & E & Hlen).
    eexists _, j'. split; [done|]. rewrite El. split.
    - replace (length out + 1)%nat with (length (out ++ [x])) by (rewrite length_app; done).
      replace (out ++ (x :: decode t) ++ NUL :: j' ++ rest) with ((out ++ [x]) ++ decode t ++ NUL :: j' ++ rest)
        by by rewrite <- app_assoc.
      replace (out ++ x :: decode t) with ((out ++ [x]) ++ decode t) by by rewrite <- app_assoc. exact E.
    - rewrite !length_app in *. cbn [length]. lia. }
  destruct s as [|c t].
  { rewrite (app_assoc out junk), <- (Nat.add_0_r (length (out ++ junk))), lookup_app_at.
    cbn [app lookup list_lookup mbind option_bind]. rewrite <- app_assoc.
    destruct (store_step out junk [NUL] rest NUL ltac:(done)) as (j & Es & _ & Ej).
    cbn [app] in Es. rewrite Es. cbn [mbind option_bind].
    exists j. cbn [decode app]. rewrite !app_nil_r, <- app_assoc. cbn [app]. split; [done|]. cbn in Ej. lia. }
  rewrite (app_assoc out junk), <- (Nat.add_0_r (length (out ++ junk))), lookup_app_at.
  rewrite Nat.add_0_r, pct_at_spec by done. cbn [app lookup list_lookup mbind option_bind].
  pose proof Hn as [Hc Ht]%nul_free_cons. destruct (Ascii.eqb_spec c NUL); [done|]. rewrite <- app_assoc.
  destruct (escape_at (c :: t)) eqn:Ee.
  - destruct t as [|c1 [|c2 t]]; [done..|]. cbn in Ee. apply andb_true_iff in Ee as [Ee E2].
    apply andb_true_iff in Ee as [Ec E1]. apply Ascii.eqb_eq in Ec as ->.
    rewrite !(app_assoc out junk), !lookup_app_at. cbn [app lookup list_lookup mbind option_bind].
    pose proof (hex_to_int_range _ E1). pose proof (hex_to_int_range _ E2).
    rewrite !(proj2 (Z.leb_le 0 _)) by lia. cbn [andb]. rewrite <- !(app_assoc out junk).
    destruct (Hstep (chr (Z.lor (Z.shiftl (hex_to_int c1) 4) (hex_to_int c2))) ["%"%char; c1; c2] t)
      as (buf' & j & Es & E & Hl); [done|by apply nul_free_cons in Ht as [_ [_ Ht]%nul_free_cons]|cbn [length] in Hf; lia|].
    cbn [app] in Es. rewrite Es. cbn [mbind option_bind]. exists j. rewrite decode_pct by done.
    rewrite lor_shiftl_add in E, Hl by lia. rewrite (Z.mul_comm _ (2 ^ 4)) in E, Hl. split; [exact E|exact Hl].
  - rewrite decode_plain by done. cbn [length] in Hf.
    destruct (Ascii.eqb c "+").
    + destruct (Hstep " "%char [c] t) as (buf' & j & Es & E & Hl); [done|done|lia|].
      cbn [app] in Es. rewrite Es. cbn [mbind option_bind]. by exists j.
    + destruct (Hstep c [c] t) as (buf' & j & Es & E & Hl); [done|done|lia|].
      cbn [app] in Es. rewrite Es. cbn [mbind option_bind]. by exists j.
Qed.

Lemma csilk_url_decode_spec s rest :
  nul_free s ->
  exists junk, csilk_url_decode (Some (s ++ NUL :: rest)) =
    Some (Some (decode s ++ NUL :: junk ++ rest), length (decode s)) /\
    length (decode s ++ junk) = length s.
Proof.
  intros Hs. destruct (url_decode_loop_spec (S (length (s ++ NUL :: rest))) [] [] s rest Hs) as (j & E & Hl).
  { rewrite length_app. lia. }
  exists j. unfold csilk_url_decode. cbn [app length] in E. rewrite E. done.
Qed.

(** ** Percent-encoding *)

Definition hex_digit (n : Z) : ascii := nth (Z.to_nat n) (lit "0123456789ABCDEF") "0"%char.

(** An encoder that keeps the bytes for which [keep] holds. *)
Definition encode (keep : ascii -> bool) (s : bytes) : bytes :=
  flat_map (fun c => if keep c then [c]
                     else ["%"%char; hex_digit (cval c / 16); hex_digit (cval c `mod` 16)]) s.

Lemma hex_digit_spec n :
  0 <= n < 16 -> isxdigit (hex_digit n) = true /\ hex_to_int (hex_digit n) = n.
Proof.
  intros H. assert (In n (map Z.of_nat (seq 0 16))) as Hin.
  { apply in_map_iff. exists (Z.to_nat n). split; [lia|]. apply in_seq. lia. }
  clear H. revert n Hin. apply List.Forall_forall. repeat constructor.
Qed.

Lemma cval_nibbles c : 0 <= cval c / 16 < 16 /\ 0 <= cval c `mod` 16 < 16.
Proof.
  pose proof (cval_range c). split; [|by apply Z.mod_pos_bound].
  split; [apply Z.div_pos; lia|apply Z.div_lt_upper_bound; lia].
Qed.

Lemma decode_escaped c t :
  decode (["%"%char; hex_digit (cval c / 16); hex_digit (cval c `mod` 16)] ++ t) = c :: decode t.
Proof.
  destruct (cval_nibbles c) as [H1 H2]. apply hex_digit_spec in H1 as [H1 E1], H2 as [H2 E2].
  cbn [app]. rewrite decode_pct by done. rewrite E1, E2, <- Z.div_mod by done. by rewrite chr_cval.
Qed.

Lemma decode_encode keep s :
  keep "%"%char = false -> keep "+"%char = false -> decode (encode keep s) = s.
Proof.
  intros Hp Hq. induction s as [|c s IH]; [done|].
  unfold encode in *. cbn [flat_map]. destruct (keep c) eqn:Ek.
  - cbn [app]. rewrite decode_plain, IH.
    + destruct (Ascii.eqb_spec c "+") as [->|]; [congruence|done].
    + destruct (Ascii.eqb_spec c "%") as [->|Hne]; [congruence|].
      destruct (flat_map _ s) as [|c1 [|c2 t]]; [done..|]. cbn. by destruct (Ascii.eqb_spec c "%").
  - by rewrite decode_escaped, IH.
Qed.

Lemma hex_digit_nonzero n : 0 <= n < 16 -> hex_digit n <> NUL.
Proof. intros H E. apply hex_digit_spec in H as [H _]. by rewrite E in H. Qed.

Lemma encode_nul_free keep s : nul_free s -> nul_free (encode keep s).
Proof.
  induction s as [|c s IH]; intros Hs; [by apply not_elem_of_nil|]. apply nul_free_cons in Hs as [Hc Hs].
  unfold encode. cbn [flat_map]. destruct (cval_nibbles c) as [H1 H2].
  destruct (keep c); cbn [app]; rewrite !nul_free_cons; [by split; [|apply IH]|].
  split_and!; [done|by apply hex_digit_nonzero..|by apply IH].
Qed.

Lemma encode_avoids keep s x :
  keep x = false -> x <> "%"%char -> isxdigit x = false -> x ∉ encode keep s.
Proof.
  intros Hk Hp Hx. induction s as [|c s IH]; [by apply not_elem_of_nil|].
  unfold encode. cbn [flat_map]. rewrite not_elem_of_app. split; [|exact IH].
  destruct (keep c) eqn:Ek; [intros E%list_elem_of_singleton; subst; congruence|].
  destruct (cval_nibbles c) as [H1 H2]. apply hex_digit_spec in H1 as [H1 _], H2 as [H2 _].
  rewrite !not_elem_of_cons. split_and!; [done|by intros ->; congruence..|by apply not_elem_of_nil].
Qed.

Lemma strchr_split_found c p q : c ∉ p -> strchr_split c (p ++ c :: q) = Some (p, q).
Proof.
  induction p as [|d p IH]; intros H; cbn; [by rewrite Ascii.eqb_refl|].
  apply not_elem_of_cons in H as [? ?]. destruct (Ascii.eqb_spec d c); [congruence|]. by rewrite IH.
Qed.

Lemma strchr_split_none c p : c ∉ p -> strchr_split c p = None.
Proof.
  induction p as [|d p IH]; intros H; cbn; [done|].
  apply not_elem_of_cons in H as [? ?]. destruct (Ascii.eqb_spec d c); [congruence|]. by rewrite IH.
Qed.

(** The decoded copy of an encoded string. *)
Lemma decode_encoded_copy keep s :
  keep "%"%char = false -> keep "+"%char = false -> nul_free s ->
  exists buf, csilk_url_decode (Some (encode keep s ++ [NUL])) = Some (Some buf, length s) /\ cstr buf = s.
Proof.
  intros Hp Hq Hs. destruct (csilk_url_decode_spec (encode keep s) [] (encode_nul_free keep s Hs)) as (j & E & _).
  rewrite decode_encode in E by done. eexists. split; [exact E|]. by apply cstr_app.
Qed.

(** C22: decoding in place. On every C string the two-cursor loop
    terminates, reads and writes only inside the array, leaves the decoded
    string (as the recursive reference [decode] reads it) with its terminator
    at the front of the array, does not touch the bytes behind the original
    terminator, and returns the decoded length, which is at most the original
    one. *)
Theorem url_decode_in_place s rest :
  nul_free s ->
  exists junk, csilk_url_decode (Some (s ++ NUL :: rest)) =
    Some (Some (decode s ++ NUL :: junk ++ rest), length (decode s)) /\
    (length (decode s) + length junk = length s)%nat.
Proof.
  intros Hs. destruct (csilk_url_decode_spec s rest Hs) as (j & E & Hl). exists j. split; [done|].
  by rewrite <- length_app.
Qed.

Lemma url_decode_in_place_witness :
  exists junk, csilk_url_decode (Some (lit "a%2Fb+%zz%4" ++ NUL :: lit "tail")) =
    Some (Some (lit "a/b %zz%4" ++ NUL :: junk ++ lit "tail"), 9%nat).
Proof.
  destruct (url_decode_in_place (lit "a%2Fb+%zz%4") (lit "tail")) as (j & E & _).
  - apply (bool_decide_unpack _). by vm_compute.
  - exists j. exact E.
Defined.


Definition url_unreserved (c : ascii) : bool :=
  let v := cval c in ((48 <=? v) && (v <=? 57)) || ((65 <=? v) && (v <=? 90)) || ((97 <=? v) && (v <=? 122)) || (v =? 47).

