(* ===== verification/Allocator.v ===== *)
(** * What the arena promises to its clients

    The request-scoped components (header maps, key-value storage, query
    parameters) only allocate.  [Allocator] is the interface they are verified
    against: a request answers null or a pointer that was not handed out
    before.  The state carries a record of the requests made and their answers,
    so that a theorem can say whether memory was refused to the code it is
    about.  The arena of Arena.v with such a record is an instance, so the
    theorems proved against the interface hold on the real allocator. *)

From S2P Require Import Prelude Arena.
From stdpp Require Import gmap.

#[local] Open Scope Z_scope.

Class Allocator (A : Type) := {
  al_alloc : Z -> A -> Z * A;
  al_ok : A -> Prop;
  al_given : A -> list Z;
  (** the requests so far, newest first: size and answer *)
  al_log : A -> list (Z * Z);
  al_alloc_spec : forall n s p s',
    al_ok s -> 0 < n <= MAX_REQUEST -> al_alloc n s = (p, s') ->
    al_ok s' /\ al_log s' = (n, p) :: al_log s /\
    ((p = 0 /\ al_given s' = al_given s) \/
     (p <> 0 /\ p ∉ al_given s /\ al_given s' = p :: al_given s));
}.

(** [csilk_arena_strndup]: the copy, or null. *)
Definition al_strndup `{Allocator A} (s : bytes) (st : A) : option bytes * A :=
  let '(p, st') := al_alloc (Z.of_nat (length s) + 1) st in
  (if p =? 0 then None else Some s, st').

(** ** The arena is an allocator *)

Record traced := mk_traced { t_run : run; t_log : list (Z * Z) }.

Definition arena_request (n : Z) (t : traced) : Z * traced :=
  let r := t_run t in
  match csilk_arena_alloc (Some (r_arena r)) n (r_mem r) with
  | Some (p, Some a', m') =>
      (p, mk_traced (mk_run a' m' (if p =? 0 then r_regs r else (p, n) :: r_regs r) (r_data r)) ((n, p) :: t_log t))
  | _ => (0, mk_traced r ((n, 0) :: t_log t))
  end.

Lemma separate_fresh p n regs : separate ((p, n) :: regs) -> p ∉ map fst regs.
Proof.
  intros (Hn & Hd & Hs) Hin. apply list_elem_of_fmap in Hin as ((q & k) & -> & Hin). cbn in *.
  assert (0 < k) as Hk.
  { clear Hd Hn. induction regs as [|r regs IH]; [by apply not_elem_of_nil in Hin|].
    destruct Hs as (? & _ & ?). apply elem_of_cons in Hin as [<-|]; [done|by apply IH]. }
  rewrite Forall_forall in Hd. destruct (Hd _ Hin); cbn in *; lia.
Qed.

Definition traced_ok (t : traced) : Prop := exists base, run_wf base (t_run t).
Definition traced_given (t : traced) : list Z := map fst (r_regs (t_run t)).

Lemma arena_request_spec n t p t' :
  traced_ok t -> 0 < n <= MAX_REQUEST -> arena_request n t = (p, t') ->
  traced_ok t' /\ t_log t' = (n, p) :: t_log t /\
  ((p = 0 /\ traced_given t' = traced_given t) \/
   (p <> 0 /\ p ∉ traced_given t /\ traced_given t' = p :: traced_given t)).
Proof.
  destruct t as [r log]. unfold traced_ok, traced_given. cbn [t_run t_log].
  intros [base [Hw Hg Hd Ha]] Hn E. unfold arena_request in E. cbn [t_run t_log] in E.
  destruct (csilk_arena_alloc_spec _ _ _ n Hw Hg Hn) as (q & a' & m' & Ea & [Hw' _ Hct _ Hacc Hres]).
  rewrite Ea in E. injection E as <- <-. cbn [t_run t_log]. destruct Hres as [[-> Hr]|(Hnz & _ & Hr)].
  - split; [exists base|by split; [|left]]. constructor; cbn; [done..|by rewrite Hct|by apply Hacc].
  - rewrite (proj2 (Z.eqb_neq q 0)) by done. split; [|split; [done|right; split_and!; [done| |done]]].
    + exists base. constructor; cbn; [done..| |by apply Hacc]. eapply Forall_impl; [exact Hd|].
      intros d [? ?]. rewrite Hct. split; [by right|done].
    + apply (separate_fresh q n). apply Hr.
Qed.

#[export] Instance arena_allocator : Allocator traced := {
  al_alloc := arena_request;
  al_ok := traced_ok;
  al_given := traced_given;
  al_log := t_log;
  al_alloc_spec := arena_request_spec;
}.

(** A fresh arena, for examples. *)
Definition demo_arena : traced :=
  mk_traced (mk_run (mk_arena (2 ^ 20) 0 0 [] 4096 0 0 false) (csilk_arena_new 4096 demo_mem).2 [] []) [].

Lemma demo_arena_ok : al_ok demo_arena.
Proof.
  exists []. apply (csilk_arena_new_spec 4096 demo_mem _ _ demo_mem_wf); [by unfold SIZE_MAX|by vm_compute].
Qed.
