(* ===== verification/HeaderId.v ===== *)
(** * Header name interning

    Models the first part of src/src/core/primitives/header_map.c: the table of
    canonical names and [csilk_header_id_from_name], which recognises a header
    name by its length and by word-sized comparisons under the mask 0x20.  The
    reference is a case-insensitive look-up of the table. *)

From S2P Require Import Prelude.

#[local] Open Scope Z_scope.

Inductive csilk_header_id_t :=
  | CSILK_HDR_UNKNOWN
  | CSILK_HDR_HOST
  | CSILK_HDR_CONTENT_TYPE
  | CSILK_HDR_CONTENT_LENGTH
  | CSILK_HDR_AUTHORIZATION
  | CSILK_HDR_COOKIE
  | CSILK_HDR_SET_COOKIE
  | CSILK_HDR_ACCEPT
  | CSILK_HDR_ACCEPT_ENCODING
  | CSILK_HDR_ACCEPT_LANGUAGE
  | CSILK_HDR_USER_AGENT
  | CSILK_HDR_CONNECTION
  | CSILK_HDR_UPGRADE
  | CSILK_HDR_CACHE_CONTROL
  | CSILK_HDR_ORIGIN
  | CSILK_HDR_REFERER
  | CSILK_HDR_SEC_WEBSOCKET_KEY
  | CSILK_HDR_SEC_WEBSOCKET_VERSION
  | CSILK_HDR_SEC_WEBSOCKET_EXTENSIONS
  | CSILK_HDR_SEC_WEBSOCKET_PROTOCOL
  | CSILK_HDR_TRANSFER_ENCODING
  | CSILK_HDR_LOCATION
  | CSILK_HDR_IF_MODIFIED_SINCE
  | CSILK_HDR_IF_NONE_MATCH
  | CSILK_HDR_ETAG
  | CSILK_HDR_SERVER
  | CSILK_HDR_DATE
  | CSILK_HDR_VARY
  | CSILK_HDR_X_REQUEST_ID
  | CSILK_HDR_X_FORWARDED_FOR
  | CSILK_HDR_X_REAL_IP
  | CSILK_HDR_CONTENT_ENCODING.

#[export] Instance csilk_header_id_eq_dec : EqDecision csilk_header_id_t.
Proof. solve_decision. Defined.

Definition csilk_header_id_name (id : csilk_header_id_t) : bytes :=
  match id with
  | CSILK_HDR_UNKNOWN => lit "Unknown"
  | CSILK_HDR_HOST => lit "Host"
  | CSILK_HDR_CONTENT_TYPE => lit "Content-Type"
  | CSILK_HDR_CONTENT_LENGTH => lit "Content-Length"
  | CSILK_HDR_AUTHORIZATION => lit "Authorization"
  | CSILK_HDR_COOKIE => lit "Cookie"
  | CSILK_HDR_SET_COOKIE => lit "Set-Cookie"
  | CSILK_HDR_ACCEPT => lit "Accept"
  | CSILK_HDR_ACCEPT_ENCODING => lit "Accept-Encoding"
  | CSILK_HDR_ACCEPT_LANGUAGE => lit "Accept-Language"
  | CSILK_HDR_USER_AGENT => lit "User-Agent"
  | CSILK_HDR_CONNECTION => lit "Connection"
  | CSILK_HDR_UPGRADE => lit "Upgrade"
  | CSILK_HDR_CACHE_CONTROL => lit "Cache-Control"
  | CSILK_HDR_ORIGIN => lit "Origin"
  | CSILK_HDR_REFERER => lit "Referer"
  | CSILK_HDR_SEC_WEBSOCKET_KEY => lit "Sec-WebSocket-Key"
  | CSILK_HDR_SEC_WEBSOCKET_VERSION => lit "Sec-WebSocket-Version"
  | CSILK_HDR_SEC_WEBSOCKET_EXTENSIONS => lit "Sec-WebSocket-Extensions"
  | CSILK_HDR_SEC_WEBSOCKET_PROTOCOL => lit "Sec-WebSocket-Protocol"
  | CSILK_HDR_TRANSFER_ENCODING => lit "Transfer-Encoding"
  | CSILK_HDR_LOCATION => lit "Location"
  | CSILK_HDR_IF_MODIFIED_SINCE => lit "If-Modified-Since"
  | CSILK_HDR_IF_NONE_MATCH => lit "If-None-Match"
  | CSILK_HDR_ETAG => lit "ETag"
  | CSILK_HDR_SERVER => lit "Server"
  | CSILK_HDR_DATE => lit "Date"
  | CSILK_HDR_VARY => lit "Vary"
  | CSILK_HDR_X_REQUEST_ID => lit "X-Request-ID"
  | CSILK_HDR_X_FORWARDED_FOR => lit "X-Forwarded-For"
  | CSILK_HDR_X_REAL_IP => lit "X-Real-IP"
  | CSILK_HDR_CONTENT_ENCODING => lit "Content-Encoding"
  end.

Definition all_header_ids : list csilk_header_id_t :=
  [CSILK_HDR_HOST; CSILK_HDR_CONTENT_TYPE; CSILK_HDR_CONTENT_LENGTH; CSILK_HDR_AUTHORIZATION; CSILK_HDR_COOKIE; CSILK_HDR_SET_COOKIE; CSILK_HDR_ACCEPT; CSILK_HDR_ACCEPT_ENCODING; CSILK_HDR_ACCEPT_LANGUAGE; CSILK_HDR_USER_AGENT; CSILK_HDR_CONNECTION; CSILK_HDR_UPGRADE; CSILK_HDR_CACHE_CONTROL; CSILK_HDR_ORIGIN; CSILK_HDR_REFERER; CSILK_HDR_SEC_WEBSOCKET_KEY; CSILK_HDR_SEC_WEBSOCKET_VERSION; CSILK_HDR_SEC_WEBSOCKET_EXTENSIONS; CSILK_HDR_SEC_WEBSOCKET_PROTOCOL; CSILK_HDR_TRANSFER_ENCODING; CSILK_HDR_LOCATION; CSILK_HDR_IF_MODIFIED_SINCE; CSILK_HDR_IF_NONE_MATCH; CSILK_HDR_ETAG; CSILK_HDR_SERVER; CSILK_HDR_DATE; CSILK_HDR_VARY; CSILK_HDR_X_REQUEST_ID; CSILK_HDR_X_FORWARDED_FOR; CSILK_HDR_X_REAL_IP; CSILK_HDR_CONTENT_ENCODING].

(** [memcpy] of the [n] bytes at [off] into a little-endian word. *)
Fixpoint load_le (l : bytes) : Z :=
  match l with
  | [] => 0
  | c :: l' => cval c + 256 * load_le l'
  end.
Definition word (name : bytes) (off n : nat) : Z := load_le (take n (drop off name)).

(** [name[i] | 0x20] as a byte. *)
Definition or20 (c : ascii) : ascii := chr (Z.lor (cval c) 32).
Definition char20 (name : bytes) (i : nat) : ascii := or20 (nth i name NUL).

(** [strncasecmp(a, b, n) == 0]; the end of a list is its terminator. *)
Fixpoint strncasecmp0 (a b : bytes) (n : nat) : bool :=
  match n with
  | O => true
  | S n' =>
      match a, b with
      | x :: a', y :: b' =>
          if Ascii.eqb (tolower x) (tolower y)
          then if Ascii.eqb x NUL then true else strncasecmp0 a' b' n'
          else false
      | [], [] => true
      | x :: _, [] => Ascii.eqb x NUL
      | [], y :: _ => Ascii.eqb y NUL
      end
  end.
(** The arms of the switch on the length. *)

Definition id_len4 (name : bytes) : csilk_header_id_t :=
  let v := Z.lor (word name 0 4) 0x20202020 in
  if v =? 0x74736f68 then CSILK_HDR_HOST
  else if v =? 0x67617465 then CSILK_HDR_ETAG
  else if v =? 0x65746164 then CSILK_HDR_DATE
  else if v =? 0x79726176 then CSILK_HDR_VARY
  else CSILK_HDR_UNKNOWN.

Definition id_len6 (name : bytes) : csilk_header_id_t :=
  let v4 := Z.lor (word name 0 4) 0x20202020 in
  let v2 := Z.lor (word name 4 2) 0x2020 in
  if (v4 =? 0x65636361) && (v2 =? 0x7470) then CSILK_HDR_ACCEPT
  else if (v4 =? 0x6b6f6f63) && (v2 =? 0x6569) then CSILK_HDR_COOKIE
  else if (v4 =? 0x6769726f) && (v2 =? 0x6e69) then CSILK_HDR_ORIGIN
  else if (v4 =? 0x76726573) && (v2 =? 0x7265) then CSILK_HDR_SERVER
  else CSILK_HDR_UNKNOWN.

Definition id_len7 (name : bytes) : csilk_header_id_t :=
  let c0 := char20 name 0 in
  if Ascii.eqb c0 "u" && strncasecmp0 (drop 1 name) (lit "pgrade") 6 then CSILK_HDR_UPGRADE
  else if Ascii.eqb c0 "r" && strncasecmp0 (drop 1 name) (lit "eferer") 6 then CSILK_HDR_REFERER
  else CSILK_HDR_UNKNOWN.

Definition id_len8 (name : bytes) : csilk_header_id_t :=
  let v8 := Z.lor (word name 0 8) 0x2020202020202020 in
  if v8 =? 0x6e6f697461636f6c then CSILK_HDR_LOCATION else CSILK_HDR_UNKNOWN.

Definition id_len9 (name : bytes) : csilk_header_id_t :=
  if strncasecmp0 name (lit "x-real-ip") 9 then CSILK_HDR_X_REAL_IP else CSILK_HDR_UNKNOWN.

Definition id_len10 (name : bytes) : csilk_header_id_t :=
  let v8 := Z.lor (word name 0 8) 0x2020202020202020 in
  let v2 := Z.lor (word name 8 2) 0x2020 in
  if (v8 =? 0x697463656e6e6f63) && (v2 =? 0x6e6f) then CSILK_HDR_CONNECTION
  else if (v8 =? 0x6567612d72657375) && (v2 =? 0x746e) then CSILK_HDR_USER_AGENT
  else if (v8 =? 0x6b6f6f632d746573) && (v2 =? 0x6569) then CSILK_HDR_SET_COOKIE
  else CSILK_HDR_UNKNOWN.

Definition id_len12 (name : bytes) : csilk_header_id_t :=
  let v8 := Z.lor (word name 0 8) 0x2020202020202020 in
  let v4 := Z.lor (word name 8 4) 0x20202020 in
  if (v8 =? 0x2d746e65746e6f63) && (v4 =? 0x65707974) then CSILK_HDR_CONTENT_TYPE
  else if (v8 =? 0x7365757165722d78) && (v4 =? 0x64692d74) then CSILK_HDR_X_REQUEST_ID
  else CSILK_HDR_UNKNOWN.

Definition id_len13 (name : bytes) : csilk_header_id_t :=
  let c0 := char20 name 0 in
  if Ascii.eqb c0 "a" && strncasecmp0 (drop 1 name) (lit "uthorization") 12 then CSILK_HDR_AUTHORIZATION
  else if Ascii.eqb c0 "c" && strncasecmp0 (drop 1 name) (lit "ache-control") 12 then CSILK_HDR_CACHE_CONTROL
  else if Ascii.eqb c0 "i" && strncasecmp0 (drop 1 name) (lit "f-none-match") 12 then CSILK_HDR_IF_NONE_MATCH
  else CSILK_HDR_UNKNOWN.

Definition id_len14 (name : bytes) : csilk_header_id_t :=
  let v8 := Z.lor (word name 0 8) 0x2020202020202020 in
  let v4 := Z.lor (word name 8 4) 0x20202020 in
  let v2 := Z.lor (word name 12 2) 0x2020 in
  if (v8 =? 0x2d746e65746e6f63) && (v4 =? 0x676e656c) && (v2 =? 0x6874)
  then CSILK_HDR_CONTENT_LENGTH else CSILK_HDR_UNKNOWN.

Definition id_len15 (name : bytes) : csilk_header_id_t :=
  let c1 := char20 name 1 in
  if Ascii.eqb c1 "c" then
    let c7 := char20 name 7 in
    if Ascii.eqb c7 "e" && strncasecmp0 name (lit "accept-encoding") 15 then CSILK_HDR_ACCEPT_ENCODING
    else if Ascii.eqb c7 "l" && strncasecmp0 name (lit "accept-language") 15 then CSILK_HDR_ACCEPT_LANGUAGE
    else CSILK_HDR_UNKNOWN
  else if Ascii.eqb c1 "-" then
    if strncasecmp0 name (lit "x-forwarded-for") 15 then CSILK_HDR_X_FORWARDED_FOR else CSILK_HDR_UNKNOWN
  else CSILK_HDR_UNKNOWN.

Definition id_len17 (name : bytes) : csilk_header_id_t :=
  let c0 := char20 name 0 in
  if Ascii.eqb c0 "i" && strncasecmp0 (drop 1 name) (lit "f-modified-since") 16 then CSILK_HDR_IF_MODIFIED_SINCE
  else if Ascii.eqb c0 "s" && strncasecmp0 (drop 1 name) (lit "ec-websocket-key") 16
  then CSILK_HDR_SEC_WEBSOCKET_KEY
  else if Ascii.eqb c0 "t" && strncasecmp0 (drop 1 name) (lit "ransfer-encoding") 16
  then CSILK_HDR_TRANSFER_ENCODING
  else CSILK_HDR_UNKNOWN.

(** [name] is the [len] bytes the caller passes. *)
Definition csilk_header_id_from_name (name : bytes) : csilk_header_id_t :=
  match length name with
  | 4%nat => id_len4 name
  | 6%nat => id_len6 name
  | 7%nat => id_len7 name
  | 8%nat => id_len8 name
  | 9%nat => id_len9 name
  | 10%nat => id_len10 name
  | 12%nat => id_len12 name
  | 13%nat => id_len13 name
  | 14%nat => id_len14 name
  | 15%nat => id_len15 name
  | 16%nat => if strncasecmp0 name (lit "content-encoding") 16 then CSILK_HDR_CONTENT_ENCODING
              else CSILK_HDR_UNKNOWN
  | 17%nat => id_len17 name
  | 21%nat => if strncasecmp0 name (lit "sec-websocket-version") 21 then CSILK_HDR_SEC_WEBSOCKET_VERSION
              else CSILK_HDR_UNKNOWN
  | 22%nat => if strncasecmp0 name (lit "sec-websocket-protocol") 22 then CSILK_HDR_SEC_WEBSOCKET_PROTOCOL
              else CSILK_HDR_UNKNOWN
  | 24%nat => if strncasecmp0 name (lit "sec-websocket-extensions") 24
              then CSILK_HDR_SEC_WEBSOCKET_EXTENSIONS else CSILK_HDR_UNKNOWN
  | _ => CSILK_HDR_UNKNOWN
  end.

(** ** Comparisons under the mask *)

Definition lower (s : bytes) : bytes := map tolower s.

Lemma or20_lower c : or20 (tolower c) = or20 c.
Proof.
  assert (Ascii.eqb (or20 (tolower c)) (or20 c) = true) as H; [|by apply Ascii.eqb_eq].
  revert c. apply forall_ascii. by vm_compute.
Qed.

Lemma tolower_idem c : tolower (tolower c) = tolower c.
Proof.
  assert (Ascii.eqb (tolower (tolower c)) (tolower c) = true) as H; [|by apply Ascii.eqb_eq].
  revert c. apply forall_ascii. by vm_compute.
Qed.

(** A byte that the mask maps to a letter or a hyphen is, unless it is a
    carriage return, that letter in either case or that hyphen. *)
Definition token_char (c : ascii) : bool := ((97 <=? cval c) && (cval c <=? 122)) || (cval c =? 45).

Lemma or20_token c w : c <> "013"%char -> token_char w = true -> or20 c = w -> tolower c = w.
Proof.
  intros Hc Hw <-.
  assert (Ascii.eqb c "013" || negb (token_char (or20 c)) || Ascii.eqb (tolower c) (or20 c) = true) as H
    by (clear; revert c; apply forall_ascii; by vm_compute).
  rewrite Hw in H. destruct (Ascii.eqb_spec c "013"); [done|]. by apply Ascii.eqb_eq.
Qed.

Lemma load_le_inj a b : length a = length b -> load_le a = load_le b -> a = b.
Proof.
  revert b. induction a as [|x a IH]; intros [|y b] Hl H; try done. cbn in *.
  pose proof (cval_range x). pose proof (cval_range y).
  assert (cval x = cval y /\ load_le a = load_le b) as [?%cval_inj ?] by lia. f_equal; auto.
Qed.

Lemma lor_low_byte a x b y :
  0 <= a < 256 -> 0 <= b < 256 -> Z.lor (a + 256 * x) (b + 256 * y) = Z.lor a b + 256 * Z.lor x y.
Proof.
  intros Ha Hb.
  pose proof (lor_bound a b 8 ltac:(lia) Ha Hb).
  replace (a + 256 * x) with (Z.lor (Z.shiftl x 8) a) by (rewrite lor_shiftl_add by lia; lia).
  replace (b + 256 * y) with (Z.lor (Z.shiftl y 8) b) by (rewrite lor_shiftl_add by lia; lia).
  replace (Z.lor a b + 256 * Z.lor x y) with (Z.lor (Z.shiftl (Z.lor x y) 8) (Z.lor a b))
    by (rewrite lor_shiftl_add by lia; lia).
  rewrite Z.shiftl_lor, !Z.lor_assoc. f_equal. rewrite <- !Z.lor_assoc. f_equal. apply Z.lor_comm.
Qed.

Lemma cval_or20 c : cval (or20 c) = Z.lor (cval c) 32.
Proof.
  unfold or20. rewrite cval_chr. apply Z.mod_small.
  apply (lor_bound _ _ 8); [lia|apply cval_range|lia].
Qed.

(** The mask acts byte by byte. *)
Lemma lor_word l : Z.lor (load_le l) (load_le (replicate (length l) " "%char)) = load_le (map or20 l).
Proof.
  induction l as [|c l IH]; [done|]. cbn [length replicate load_le map].
  rewrite lor_low_byte by apply cval_range. by rewrite IH, cval_or20.
Qed.

(** What a masked word comparison decides; [k] is the word of [w]. *)
Lemma word_match name off n mask k (w : bytes) :
  (off + n <= length name)%nat -> mask = load_le (replicate n " "%char) -> k = load_le w -> length w = n ->
  (Z.lor (word name off n) mask =? k) = bool_decide (map or20 (take n (drop off name)) = w).
Proof.
  intros Hl -> -> Hw. unfold word. set (l := take n (drop off name)).
  assert (length l = n) as El by (subst l; rewrite length_take, length_drop; lia).
  rewrite <- El at 1. rewrite lor_word. apply eq_true_iff_eq. rewrite Z.eqb_eq, bool_decide_eq_true.
  split; [|by intros ->]. apply load_le_inj. rewrite length_map. lia.
Qed.

Lemma tolower_nul c : tolower c = NUL -> c = NUL.
Proof.
  intros H. assert (negb (Ascii.eqb (tolower c) NUL) || Ascii.eqb c NUL = true) as Hf
    by (clear; revert c; apply forall_ascii; by vm_compute).
  rewrite H in Hf. by apply Ascii.eqb_eq.
Qed.

Lemma strncasecmp0_spec a b n :
  nul_free b -> (n <= length a)%nat -> (n <= length b)%nat ->
  strncasecmp0 a b n = bool_decide (lower (take n a) = lower (take n b)).
Proof.
  revert a b. induction n as [|n IH]; intros [|x a] [|y b] Hb Ha Hn; cbn [length] in *; try done || lia.
  apply nul_free_cons in Hb as [Hy Hb]. cbn [strncasecmp0 take lower map].
  destruct (Ascii.eqb_spec (tolower x) (tolower y)) as [E|E].
  - destruct (Ascii.eqb_spec x NUL) as [->|]; [by destruct Hy; apply tolower_nul|].
    rewrite IH by (done || lia). apply bool_decide_ext. unfold lower. rewrite E. split; [by intros ->|by intros [= ->]].
  - symmetry. apply bool_decide_eq_false. by intros [= ? ?].
Qed.

(** *** The identifier only depends on the lower-case name *)

Lemma lower_length s : length (lower s) = length s.
Proof. apply length_map. Qed.

Lemma word_lower s off n mask :
  (off + n <= length s)%nat -> mask = load_le (replicate n " "%char) ->
  Z.lor (word (lower s) off n) mask = Z.lor (word s off n) mask.
Proof.
  intros Hl ->. unfold word, lower. rewrite <- fmap_drop, <- fmap_take. set (l := take n (drop off s)).
  assert (length l = n) as El by (subst l; rewrite length_take, length_drop; lia).
  rewrite <- El. rewrite lor_word. rewrite <- (length_map tolower l) at 1.
  change (tolower <$> l) with (map tolower l). rewrite lor_word, map_map. f_equal. apply map_ext, or20_lower.
Qed.

Lemma char20_lower s i : char20 (lower s) i = char20 s i.
Proof. unfold char20, lower. change NUL with (tolower NUL) at 1. by rewrite map_nth, or20_lower. Qed.

Lemma lower_take n s : lower (take n s) = take n (lower s).
Proof. apply (fmap_take tolower). Qed.
Lemma lower_drop n s : lower (drop n s) = drop n (lower s).
Proof. apply (fmap_drop tolower). Qed.
Lemma lower_app a b : lower (a ++ b) = lower a ++ lower b.
Proof. apply map_app. Qed.
Lemma lower_lower s : lower (lower s) = lower s.
Proof. unfold lower. rewrite map_map. apply map_ext, tolower_idem. Qed.

Lemma strncasecmp0_lower a b n :
  nul_free b -> (n <= length a)%nat -> (n <= length b)%nat ->
  strncasecmp0 (lower a) b n = strncasecmp0 a b n.
Proof.
  intros. rewrite !strncasecmp0_spec by (rewrite ?lower_length; done || lia).
  by rewrite !lower_take, lower_lower.
Qed.

Ltac nul_free_lit := apply (bool_decide_unpack _); vm_compute; exact I.

Lemma from_name_lower s : csilk_header_id_from_name (lower s) = csilk_header_id_from_name s.
Proof.
  unfold csilk_header_id_from_name. rewrite lower_length.
  unfold id_len4, id_len6, id_len7, id_len8, id_len9, id_len10, id_len12, id_len13, id_len14, id_len15, id_len17.
  destruct (length s) as [|[|[|[|[|[|[|[|[|[|[|[|[|[|[|[|[|[|[|[|[|[|[|[|[|?]]]]]]]]]]]]]]]]]]]]]]]]] eqn:El;
    try done; cbn zeta;
    rewrite <- ?lower_drop, ?word_lower, ?char20_lower, ?strncasecmp0_lower
      by (rewrite ?length_drop; first [nul_free_lit | reflexivity | lia | cbn; lia]); done.
Qed.

(** *** What a successful comparison says about the lower-case name *)

Definition CR : ascii := "013"%char.

(** The [n] bytes of the word [k]. *)
Fixpoint unload (n : nat) (k : Z) : bytes :=
  match n with
  | O => []
  | S n' => chr k :: unload n' (k / 256)
  end.

Lemma length_unload n k : length (unload n k) = n.
Proof. revert k. induction n as [|n IH]; intros k; cbn; auto. Qed.

Lemma or20_tokens l w :
  CR ∉ l -> forallb token_char w = true -> map or20 l = w -> lower l = w.
Proof.
  intros Hc Hw <-. induction l as [|c l IH]; [done|]. apply not_elem_of_cons in Hc as [Hc Hcl].
  cbn in Hw. apply andb_true_iff in Hw as [Hw1 Hw2]. cbn. f_equal; [|by apply IH].
  by apply or20_token.
Qed.

Section Arms.
  Context (name : bytes) (Hcr : CR ∉ name).

Lemma cr_slice off n : CR ∉ take n (drop off name).
Proof.
  intros H. apply Hcr. rewrite <- (take_drop off name), elem_of_app. right.
  rewrite <- (take_drop n (drop off name)), elem_of_app. by left.
Qed.

Lemma word_true off n mask k :
  (Z.lor (word name off n) mask =? k) = true ->
  (off + n <= length name)%nat -> mask = load_le (replicate n " "%char) -> k = load_le (unload n k) ->
  forallb token_char (unload n k) = true -> lower (take n (drop off name)) = unload n k.
Proof.
  intros H Hl Hm Hk Hw. rewrite (word_match _ _ _ _ _ (unload n k)) in H by (done || apply length_unload).
  apply bool_decide_eq_true in H. apply or20_tokens; [apply cr_slice|done|done].
Qed.

Lemma char_true i c :
  Ascii.eqb (char20 name i) c = true -> (i < length name)%nat -> token_char c = true ->
  lower (take 1 (drop i name)) = [c].
Proof.
  intros H Hl Hc. apply Ascii.eqb_eq in H. unfold char20 in H.
  destruct (lookup_lt_is_Some_2 name i Hl) as [x Hx]. rewrite (nth_lookup_Some _ _ _ _ Hx) in H.
  rewrite (drop_S _ _ _ Hx). cbn. f_equal. apply or20_token; [|done|done].
  intros ->. apply Hcr. by eapply list_elem_of_lookup_2.
Qed.

Lemma case_true off n w :
  strncasecmp0 (drop off name) w n = true -> nul_free w -> (off + n <= length name)%nat -> length w = n ->
  lower (take n (drop off name)) = lower w.
Proof.
  intros H Hw Hl Hn. rewrite strncasecmp0_spec in H by (rewrite ?length_drop; done || lia).
  apply bool_decide_eq_true in H. by rewrite (take_ge w) in H by lia.
Qed.

(** The name is the concatenation of the compared slices. *)
Lemma lower_cat1 n w : length name = n -> lower (take n (drop 0 name)) = w -> lower name = w.
Proof. intros Hl <-. by rewrite drop_0, take_ge by lia. Qed.

Lemma lower_cat2 n1 n2 w1 w2 :
  length name = (n1 + n2)%nat -> lower (take n1 (drop 0 name)) = w1 -> lower (take n2 (drop n1 name)) = w2 ->
  lower name = w1 ++ w2.
Proof.
  intros Hl <- <-. rewrite <- (take_drop n1 name) at 1. rewrite lower_app, drop_0. f_equal.
  by rewrite (take_ge (drop n1 name)) by (rewrite length_drop; lia).
Qed.

Lemma lower_cat3 n1 n2 n3 w1 w2 w3 :
  length name = (n1 + n2 + n3)%nat -> lower (take n1 (drop 0 name)) = w1 ->
  lower (take n2 (drop n1 name)) = w2 -> lower (take n3 (drop (n1 + n2) name)) = w3 ->
  lower name = w1 ++ w2 ++ w3.
Proof.
  intros Hl <- <- <-. rewrite <- (take_drop n1 name) at 1. rewrite lower_app, drop_0. f_equal.
  rewrite <- (take_drop n2 (drop n1 name)) at 1. rewrite lower_app, drop_drop. f_equal.
  by rewrite (take_ge (drop (n1 + n2) name)) by (rewrite length_drop; lia).
Qed.

End Arms.

(** Turn the comparisons in the context into equations on slices. *)
Ltac slices Hcr :=
  repeat match goal with
  | H : _ && _ = true |- _ => apply andb_true_iff in H as [? ?]
  | H : (Z.lor _ _ =? _) = true |- _ =>
      apply (word_true _ Hcr) in H; [|lia|reflexivity|reflexivity|reflexivity]; vm_compute unload in H
  | H : Ascii.eqb (char20 _ _) _ = true |- _ => apply (char_true _ Hcr) in H; [|lia|reflexivity]
  | H : strncasecmp0 ?s ?w ?n = true |- _ => is_var s; change (strncasecmp0 (drop 0 s) w n = true) in H
  | H : strncasecmp0 (drop _ _) _ _ = true |- _ =>
      apply case_true in H; [|nul_free_lit|lia|reflexivity]; vm_compute (lower (lit _)) in H
  end.

(** Put the slices together. *)
Ltac cat_slices name El :=
  match goal with
  | H1 : lower (take ?n1 (drop 0 name)) = _, H2 : lower (take ?n2 (drop ?n1 name)) = _,
    H3 : lower (take ?n3 (drop ?n12 name)) = _ |- _ => rewrite (lower_cat3 name n1 n2 n3 _ _ _ El H1 H2 H3)
  | H1 : lower (take ?n1 (drop 0 name)) = _, H2 : lower (take ?n2 (drop ?n1 name)) = _ |- _ =>
      rewrite (lower_cat2 name n1 n2 _ _ El H1 H2)
  | H1 : lower (take ?n1 (drop 0 name)) = _ |- _ => rewrite (lower_cat1 name n1 _ El H1)
  end; reflexivity.

Lemma from_name_sound name id :
  CR ∉ name -> csilk_header_id_from_name name = id -> id <> CSILK_HDR_UNKNOWN ->
  lower name = lower (csilk_header_id_name id).
Proof.
  intros Hcr H Hid. unfold csilk_header_id_from_name in H.
  unfold id_len4, id_len6, id_len7, id_len8, id_len9, id_len10, id_len12, id_len13, id_len14, id_len15, id_len17 in H.
  destruct (length name) as [|[|[|[|[|[|[|[|[|[|[|[|[|[|[|[|[|[|[|[|[|[|[|[|[|?]]]]]]]]]]]]]]]]]]]]]]]]] eqn:El;
    try congruence; cbn zeta in H;
    repeat match type of H with (if ?b then _ else _) = _ => destruct b eqn:? end;
    subst id; try done; slices Hcr; cat_slices name El.
Qed.

(** C33: the interning function is a case-insensitive look-up. For every
    name without a carriage return, [csilk_header_id_from_name] returns a known
    identifier exactly when the name is, up to case, that identifier's
    canonical name. *)
Theorem header_id_exact name id :
  CR ∉ name -> id <> CSILK_HDR_UNKNOWN ->
  csilk_header_id_from_name name = id <-> lower name = lower (csilk_header_id_name id).
Proof.
  intros Hcr Hid. split; [intros; by apply from_name_sound|].
  intros E. rewrite <- from_name_lower, E. destruct id; [done|vm_compute; reflexivity..].
Qed.

Lemma header_id_exact_witness :
  csilk_header_id_from_name (lit "sEc-wEbsocket-KEY") = CSILK_HDR_SEC_WEBSOCKET_KEY.
Proof.
  apply header_id_exact; [|done|reflexivity]. apply (bool_decide_unpack _). vm_compute. exact I.
Defined.

(** A carriage return counts as a hyphen in the masked comparisons. *)
Example cr_matches_hyphen :
  csilk_header_id_from_name (lit "Content" ++ CR :: lit "Type") = CSILK_HDR_CONTENT_TYPE.
Proof. reflexivity. Qed.
