(* ===== verification/HeaderMap.v ===== *)
(** * Header and key-value maps

    Models the rest of src/src/core/primitives/header_map.c and the structs of
    src/src/core/ctx/ctx_internal.h.  A node is shared: the same
    [csilk_header_t] hangs in a bucket chain and in the slot of its interned
    identifier, and a write through one is seen through the other.  So nodes
    live in a store, indexed by the address the allocator answered, and chains
    and slots hold addresses.  A null key pointer that the code would
    dereference has no result ([None]).

    The reference is a multimap from lower-case names to lists of values,
    newest first. *)

From S2P Require Import Prelude Arena Allocator HeaderId.
From stdpp Require Import gmap.

#[local] Open Scope Z_scope.

Record csilk_header_t := mk_header {
  key : option bytes;
  value : option bytes;
  key_len : nat;
  value_len : nat;
  hash : Z;
  hid : csilk_header_id_t;
}.

Definition CSILK_HEADER_BUCKETS : Z := 16.
Definition CSILK_KV_BUCKETS : Z := 16.
(** [sizeof(csilk_header_t)] on LP64. *)
Definition sizeof_header : Z := 48.

Record csilk_header_map_t := mk_hmap {
  nodes : gmap Z csilk_header_t;
  buckets : Z -> list Z;
  known : csilk_header_id_t -> option Z;
  count : Z;
  used : bool;
}.

Definition empty_map : csilk_header_map_t := mk_hmap ∅ (fun _ => []) (fun _ => None) 0 false.

Definition set_bucket (f : Z -> list Z) (b : Z) (l : list Z) : Z -> list Z :=
  fun b' => if b =? b' then l else f b'.
Definition set_known (f : csilk_header_id_t -> option Z) (i : csilk_header_id_t) (a : Z)
  : csilk_header_id_t -> option Z := fun i' => if decide (i = i') then Some a else f i'.

(** [h->value = v; h->value_len = n]. *)
Definition set_value (v : option bytes) (n : nat) (h : csilk_header_t) : csilk_header_t :=
  mk_header h.(key) v h.(key_len) n h.(hash) h.(hid).

(** ** Hashing *)

Definition hash_step (h : Z) (c : ascii) : Z :=
  let v := if is_upper c then Z.lor (cval c) 32 else cval c in
  wrap32 (wrap32 (wrap32 (Z.shiftl h 5) + h) + v).

Definition header_hash_view (data : bytes) : Z := fold_left hash_step data 5381.

(** On a C string, with the length computed on the way. *)
Fixpoint header_hash_loop (key : bytes) (h : Z) (len : nat) : Z * nat :=
  match key with
  | [] => (h, len)
  | c :: key' => header_hash_loop key' (hash_step h c) (S len)
  end.
Definition header_hash (key : bytes) : Z := (header_hash_loop key 5381 0).1.

Definition hash_key (key : option bytes) : Z :=
  match key with
  | None => 0
  | Some k => Z.land (header_hash k) (CSILK_HEADER_BUCKETS - 1)
  end.

(** ** Look-up *)

Definition memcmp0 (a b : bytes) (n : nat) : bool := bool_decide (take n a = take n b).

(** [memcmp(h->key, key, len) == 0 || strncasecmp(h->key, key, len) == 0]
    behind the hash and length filters. *)
Definition header_matches (h : csilk_header_t) (hs : Z) (k : bytes) : option bool :=
  if (h.(hash) =? hs) && (h.(key_len) =? length k)%nat then
    hk ← h.(key); Some (memcmp0 hk k (length k) || strncasecmp0 hk k (length k))
  else Some false.

(** The [while (h)] loops: the first matching node of the chain. *)
Fixpoint chain_find (ns : gmap Z csilk_header_t) (hs : Z) (k : bytes) (l : list Z) : option (option Z) :=
  match l with
  | [] => Some None
  | a :: l' =>
      h ← ns !! a;
      b ← header_matches h hs k;
      if (b : bool) then Some (Some a) else chain_find ns hs k l'
  end.

(** [csilk_view(h->value, h->value_len ? h->value_len : strlen(h->value))]. *)
Definition header_view (h : csilk_header_t) : option bytes * nat :=
  (h.(value), if (h.(value_len) =? 0)%nat
              then match h.(value) with Some v => length v | None => 0%nat end
              else h.(value_len)).

Definition map_get_id (m : csilk_header_map_t) (i : csilk_header_id_t) : option (option bytes) :=
  if decide (i = CSILK_HDR_UNKNOWN) then Some None else
  match m.(known) i with
  | Some a => h ← m.(nodes) !! a; Some h.(value)
  | None => Some None
  end.

Definition map_get_id_view (m : csilk_header_map_t) (i : csilk_header_id_t) : option (option bytes * nat) :=
  if decide (i = CSILK_HDR_UNKNOWN) then Some (None, 0%nat) else
  match m.(known) i with
  | Some a => h ← m.(nodes) !! a; Some (header_view h)
  | None => Some (None, 0%nat)
  end.

(** The node [map_get] and [map_get_view] select. *)
Definition map_find (m : csilk_header_map_t) (k : bytes) : option (option Z) :=
  let i := csilk_header_id_from_name k in
  match (if decide (i = CSILK_HDR_UNKNOWN) then None else m.(known) i) with
  | Some a => Some (Some a)
  | None =>
      let hs := header_hash k in
      chain_find m.(nodes) hs k (m.(buckets) (Z.land hs (CSILK_HEADER_BUCKETS - 1)))
  end.

Definition map_get (m : csilk_header_map_t) (k : option bytes) : option (option bytes) :=
  match k with
  | None => Some None
  | Some k =>
      r ← map_find m k;
      match r with
      | Some a => h ← m.(nodes) !! a; Some h.(value)
      | None => Some None
      end
  end.

Definition map_get_view (m : csilk_header_map_t) (k : option bytes) : option (option bytes * nat) :=
  match k with
  | None => Some (None, 0%nat)
  | Some k =>
      if negb m.(used) || (length k =? 0)%nat then Some (None, 0%nat) else
      r ← map_find m k;
      match r with
      | Some a => h ← m.(nodes) !! a; Some (header_view h)
      | None => Some (None, 0%nat)
      end
  end.

(** ** Insertion and update *)

Definition mark_used (m : csilk_header_map_t) : csilk_header_map_t :=
  mk_hmap m.(nodes) m.(buckets) m.(known) m.(count) true.

(** Overwrite the value of node [a]. *)
Definition write_value (m : csilk_header_map_t) (a : Z) (v : option bytes) (n : nat) : csilk_header_map_t :=
  mk_hmap (alter (set_value v n) a m.(nodes)) m.(buckets) m.(known) m.(count) m.(used).

Definition point_known (m : csilk_header_map_t) (i : csilk_header_id_t) (a : Z) : csilk_header_map_t :=
  if decide (i = CSILK_HDR_UNKNOWN) then m
  else mk_hmap m.(nodes) m.(buckets) (set_known m.(known) i a) m.(count) m.(used).

(** Link a filled node in front of its chain. *)
Definition link_node (m : csilk_header_map_t) (a : Z) (h : csilk_header_t) : csilk_header_map_t :=
  let b := Z.land h.(hash) (CSILK_HEADER_BUCKETS - 1) in
  point_known (mk_hmap (<[a := h]> m.(nodes)) (set_bucket m.(buckets) b (a :: m.(buckets) b))
                 m.(known) (wrap16 (m.(count) + 1)) m.(used)) h.(hid) a.

Section Ops.
  Context `{Allocator A}.

Definition map_set_view (m : csilk_header_map_t) (k v : bytes) (st : A) : option (csilk_header_map_t * A) :=
  let m := mark_used m in
  let i := csilk_header_id_from_name k in
  let hs := header_hash_view k in
  let b := Z.land hs (CSILK_HEADER_BUCKETS - 1) in
  match (if decide (i = CSILK_HDR_UNKNOWN) then None else m.(known) i) with
  | Some a =>
      let '(v', st1) := al_strndup v st in
      Some (write_value m a v' (length v), st1)
  | None =>
      r ← chain_find m.(nodes) hs k (m.(buckets) b);
      match r with
      | Some a =>
          let '(v', st1) := al_strndup v st in
          Some (point_known (write_value m a v' (length v)) i a, st1)
      | None =>
          let '(p, st1) := al_alloc sizeof_header st in
          if p =? 0 then Some (m, st1) else
          let '(k', st2) := al_strndup k st1 in
          let '(v', st3) := al_strndup v st2 in
          Some (link_node m p (mk_header k' v' (length k) (length v) hs i), st3)
      end
  end.

(** [_csilk_sanitize_header_str]: the copy without CR and LF. *)
Definition not_crlf (c : ascii) : bool := negb (Ascii.eqb c CR) && negb (Ascii.eqb c "010").
Definition _csilk_sanitize_header_str (s : bytes) (st : A) : option bytes * A :=
  let '(p, st') := al_alloc (Z.of_nat (length s) + 1) st in
  (if p =? 0 then None else Some (List.filter not_crlf s), st').

(** The two copies that [map_set], [map_add] and [map_kv_add] start with. *)
Definition clean_pair (k v : bytes) (st : A) : option (bytes * bytes) * A :=
  let '(k', st1) := _csilk_sanitize_header_str k st in
  match k' with
  | Some (c :: ck) =>
      let '(v', st2) := _csilk_sanitize_header_str v st1 in
      (match v' with Some cv => Some (c :: ck, cv) | None => None end, st2)
  | _ => (None, st1)
  end.

Definition map_set (m : csilk_header_map_t) (k v : bytes) (st : A) : option (csilk_header_map_t * A) :=
  let m := mark_used m in
  let '(r, st1) := clean_pair k v st in
  match r with
  | None => Some (m, st1)
  | Some (ck, cv) =>
      let hs := header_hash_view ck in
      let i := csilk_header_id_from_name ck in
      let b := Z.land hs (CSILK_HEADER_BUCKETS - 1) in
      match (if decide (i = CSILK_HDR_UNKNOWN) then None else m.(known) i) with
      | Some a => Some (write_value m a (Some cv) (length cv), st1)
      | None =>
          r ← chain_find m.(nodes) hs ck (m.(buckets) b);
          match r with
          | Some a => Some (point_known (write_value m a (Some cv) (length cv)) i a, st1)
          | None =>
              let '(p, st2) := al_alloc sizeof_header st1 in
              if p =? 0 then Some (m, st2) else
              Some (link_node m p (mk_header (Some ck) (Some cv) (length ck) (length cv) hs i), st2)
          end
      end
  end.

Definition map_add (m : csilk_header_map_t) (k v : bytes) (st : A) : csilk_header_map_t * A :=
  let m := mark_used m in
  let '(r, st1) := clean_pair k v st in
  match r with
  | None => (m, st1)
  | Some (ck, cv) =>
      let hs := header_hash_view ck in
      let i := csilk_header_id_from_name ck in
      let '(p, st2) := al_alloc sizeof_header st1 in
      if p =? 0 then (m, st2) else
      (link_node m p (mk_header (Some ck) (Some cv) (length ck) (length cv) hs i), st2)
  end.

End Ops.

(** ** Key-value maps (query and form parameters) *)

Record csilk_kv_map_t := mk_kvmap {
  knodes : gmap Z csilk_header_t;
  kbuckets : Z -> list Z;
  kused : bool;
}.

Definition empty_kv_map : csilk_kv_map_t := mk_kvmap ∅ (fun _ => []) false.

Definition map_kv_find (m : csilk_kv_map_t) (k : bytes) : option (option Z) :=
  let hs := header_hash k in
  chain_find m.(knodes) hs k (m.(kbuckets) (Z.land hs (CSILK_KV_BUCKETS - 1))).

Definition map_kv_get (m : csilk_kv_map_t) (k : option bytes) : option (option bytes) :=
  match k with
  | None => Some None
  | Some k =>
      r ← map_kv_find m k;
      match r with
      | Some a => h ← m.(knodes) !! a; Some h.(value)
      | None => Some None
      end
  end.

Definition map_kv_get_view (m : csilk_kv_map_t) (k : option bytes) : option (option bytes * nat) :=
  match k with
  | None => Some (None, 0%nat)
  | Some k =>
      if negb m.(kused) || (length k =? 0)%nat then Some (None, 0%nat) else
      r ← map_kv_find m k;
      match r with
      | Some a => h ← m.(knodes) !! a; Some (header_view h)
      | None => Some (None, 0%nat)
      end
  end.

Definition map_kv_add `{Allocator A} (m : csilk_kv_map_t) (k v : bytes) (st : A) : csilk_kv_map_t * A :=
  let m := mk_kvmap m.(knodes) m.(kbuckets) true in
  let '(r, st1) := clean_pair k v st in
  match r with
  | None => (m, st1)
  | Some (ck, cv) =>
      let hs := header_hash_view ck in
      let b := Z.land hs (CSILK_KV_BUCKETS - 1) in
      let '(p, st2) := al_alloc sizeof_header st1 in
      if p =? 0 then (m, st2) else
      (mk_kvmap (<[p := mk_header (Some ck) (Some cv) (length ck) (length cv) hs CSILK_HDR_UNKNOWN]> m.(knodes))
         (set_bucket m.(kbuckets) b (p :: m.(kbuckets) b)) true, st2)
  end.

(** ** Hash and comparison only see the lower-case name *)

Lemma hash_step_lower h c : hash_step h (tolower c) = hash_step h c.
Proof.
  unfold hash_step. f_equal. f_equal.
  assert ((if is_upper (tolower c) then Z.lor (cval (tolower c)) 32 else cval (tolower c))
          =? (if is_upper c then Z.lor (cval c) 32 else cval c) = true) as E.
  { revert c. apply forall_ascii. by vm_compute. }
  by apply Z.eqb_eq.
Qed.

Lemma header_hash_lower k : header_hash_view (lower k) = header_hash_view k.
Proof.
  unfold header_hash_view. generalize 5381. induction k as [|c k IH]; intros h; [done|].
  cbn. rewrite IH. f_equal. apply hash_step_lower.
Qed.

Lemma header_hash_eq k : header_hash k = header_hash_view k.
Proof.
  unfold header_hash, header_hash_view. generalize 5381, 0%nat.
  induction k as [|c k IH]; intros h n; [done|]. cbn. apply IH.
Qed.

Definition bucket_of (k : bytes) : Z := Z.land (header_hash_view k) (CSILK_HEADER_BUCKETS - 1).

Lemma bucket_of_lower k k' : lower k = lower k' -> bucket_of k = bucket_of k'.
Proof. intros E. unfold bucket_of. by rewrite <- (header_hash_lower k), E, header_hash_lower. Qed.

(** ** Invariant *)

Record node_wf (b : Z) (h : csilk_header_t) (hk : bytes) : Prop := {
  nw_key : key h = Some hk;
  nw_nul : nul_free hk;
  nw_cr : CR ∉ hk;
  nw_len : key_len h = length hk;
  nw_hash : hash h = header_hash_view hk;
  nw_bucket : b = bucket_of hk;
  nw_vlen : forall v, value h = Some v -> value_len h = length v;
}.

(** The node at [a] is named [k], up to case. *)
Definition named (ns : gmap Z csilk_header_t) (k : bytes) (a : Z) : bool :=
  match ns !! a with
  | Some h => match key h with Some hk => bool_decide (lower hk = lower k) | None => false end
  | None => false
  end.

(** The nodes of a store and its chains are well-formed. *)
Record chains_wf (ns : gmap Z csilk_header_t) (bs : Z -> list Z) (given : list Z) : Prop := {
  cw_nodup : forall b, NoDup (bs b);
  cw_node : forall b a, a ∈ bs b -> exists h hk, ns !! a = Some h /\ node_wf b h hk;
  cw_dom : forall a, is_Some (ns !! a) -> a ∈ given;
}.

(** The nodes named [k], newest first, and their values. *)
Definition entries_in (ns : gmap Z csilk_header_t) (bs : Z -> list Z) (k : bytes) : list Z :=
  List.filter (named ns k) (bs (bucket_of k)).
Definition vals_in (ns : gmap Z csilk_header_t) (bs : Z -> list Z) (k : bytes) : list (option bytes) :=
  map (fun a => from_option value None (ns !! a)) (entries_in ns bs k).

Definition entries (m : csilk_header_map_t) (k : bytes) : list Z := entries_in m.(nodes) m.(buckets) k.
Definition vals (m : csilk_header_map_t) (k : bytes) : list (option bytes) := vals_in m.(nodes) m.(buckets) k.

Record map_inv (m : csilk_header_map_t) (given : list Z) : Prop := {
  mi_chains : chains_wf m.(nodes) m.(buckets) given;
  mi_ids : forall b a h hk, a ∈ m.(buckets) b -> m.(nodes) !! a = Some h -> key h = Some hk ->
             hid h = csilk_header_id_from_name hk;
  mi_known : forall i, m.(known) i = if decide (i = CSILK_HDR_UNKNOWN) then None
                                     else List.hd_error (entries m (csilk_header_id_name i));
}.

Lemma entries_lower ns bs k k' : lower k = lower k' -> entries_in ns bs k = entries_in ns bs k'.
Proof.
  intros E. unfold entries_in. rewrite (bucket_of_lower k k' E). apply List.filter_ext.
  intros a. unfold named. destruct (ns !! a) as [h|]; [|done]. destruct (key h); [|done]. by rewrite E.
Qed.

Lemma header_matches_spec b h hk k :
  node_wf b h hk -> nul_free k ->
  header_matches h (header_hash_view k) k = Some (bool_decide (lower hk = lower k)).
Proof.
  intros [Ek Hn _ El Eh _ _] Hk. unfold header_matches. rewrite Ek, El, Eh.
  destruct (_ && _) eqn:Ef; cbn [mbind option_bind]; f_equal.
  - apply andb_true_iff in Ef as [_ Ef]. apply Nat.eqb_eq in Ef.
    unfold memcmp0. rewrite strncasecmp0_spec by (done || lia). rewrite <- Ef, !take_ge by lia.
    destruct (decide (hk = k)) as [->|]; [by rewrite !bool_decide_true by done|].
    by rewrite (bool_decide_false (hk = k)) by done.
  - symmetry. apply bool_decide_eq_false. intros E. apply andb_false_iff in Ef as [Ef|Ef].
    + apply Z.eqb_neq in Ef. apply Ef. by rewrite <- (header_hash_lower hk), E, header_hash_lower.
    + apply Nat.eqb_neq in Ef. apply Ef. by rewrite <- lower_length, E, lower_length.
Qed.

Lemma chain_find_spec ns k l :
  nul_free k -> (forall a, a ∈ l -> exists b h hk, ns !! a = Some h /\ node_wf b h hk) ->
  chain_find ns (header_hash_view k) k l = Some (List.hd_error (List.filter (named ns k) l)).
Proof.
  intros Hk. induction l as [|a l IH]; intros Hl; [done|]. cbn [chain_find List.filter].
  destruct (Hl a) as (b & h & hk & En & Hw); [by left|]. unfold named at 1. rewrite En. cbn [mbind option_bind].
  rewrite (header_matches_spec b h hk k Hw Hk), (nw_key _ _ _ Hw). cbn [mbind option_bind].
  case_bool_decide; [done|]. apply IH. intros a' Ha'. apply Hl. by right.
Qed.

Lemma chain_find_entries ns bs given k :
  chains_wf ns bs given -> nul_free k ->
  chain_find ns (header_hash_view k) k (bs (bucket_of k)) = Some (List.hd_error (entries_in ns bs k)).
Proof.
  intros Hc Hk. apply chain_find_spec; [done|]. intros a Ha.
  destruct (cw_node _ _ _ Hc _ _ Ha) as (h & hk & ? & ?). eauto.
Qed.

(** Both ways of selecting a node agree: the slot of an interned name holds the
    newest node of that name. *)
Lemma map_find_spec m given k :
  map_inv m given -> nul_free k -> CR ∉ k -> map_find m k = Some (List.hd_error (entries m k)).
Proof.
  intros [Hc _ Hkn] Hk Hcr. unfold map_find. rewrite header_hash_eq.
  change (Z.land (header_hash_view k) _) with (bucket_of k). rewrite (chain_find_entries _ _ _ _ Hc Hk).
  destruct (decide _) as [|Hid]; [done|].
  pose proof (from_name_sound k _ Hcr eq_refl Hid) as El. rewrite Hkn, decide_False by done.
  unfold entries. rewrite <- (entries_lower _ _ _ _ El). by destruct (List.hd_error _).
Qed.

Lemma slot_spec m given k :
  map_inv m given -> CR ∉ k ->
  (if decide (csilk_header_id_from_name k = CSILK_HDR_UNKNOWN) then None
   else m.(known) (csilk_header_id_from_name k)) =
  (if decide (csilk_header_id_from_name k = CSILK_HDR_UNKNOWN) then None else List.hd_error (entries m k)).
Proof.
  intros [_ _ Hkn] Hcr. destruct (decide _) as [|Hid]; [done|]. rewrite Hkn, decide_False by done.
  unfold entries. by rewrite <- (entries_lower _ _ _ _ (from_name_sound k _ Hcr eq_refl Hid)).
Qed.

(** ** Linking a new node *)

Section Link.
  Context (ns : gmap Z csilk_header_t) (bs : Z -> list Z) (given : list Z).
  Context (p : Z) (h : csilk_header_t) (hk : bytes).
  Context (Hc : chains_wf ns bs given) (Hp : p ∉ given) (Hw : node_wf (bucket_of hk) h hk).

Lemma link_fresh b : p ∉ bs b.
Proof.
  intros Hin. destruct (cw_node _ _ _ Hc _ _ Hin) as (h' & ? & E & _). apply Hp, (cw_dom _ _ _ Hc). eauto.
Qed.

Lemma link_chains :
  chains_wf (<[p := h]> ns) (set_bucket bs (bucket_of hk) (p :: bs (bucket_of hk))) (p :: given).
Proof.
  pose proof link_fresh as Hf. constructor.
  - intros b. unfold set_bucket. destruct (_ =? _); [|apply Hc]. apply NoDup_cons. split; [apply Hf|apply Hc].
  - intros b a Ha. unfold set_bucket in Ha. destruct (Z.eqb_spec (bucket_of hk) b) as [<-|].
    + apply elem_of_cons in Ha as [->|Ha]; [exists h, hk; by rewrite lookup_insert_eq|].
      destruct (cw_node _ _ _ Hc _ _ Ha) as (h' & hk' & ? & ?). exists h', hk'.
      rewrite lookup_insert_ne; [done|]. intros <-. by apply (Hf (bucket_of hk)).
    + destruct (cw_node _ _ _ Hc _ _ Ha) as (h' & hk' & ? & ?). exists h', hk'.
      rewrite lookup_insert_ne; [done|]. intros <-. by apply (Hf b).
  - intros a [h' Ha]. destruct (decide (p = a)) as [->|]; [by left|].
    rewrite lookup_insert_ne in Ha by done. right. apply (cw_dom _ _ _ Hc). eauto.
Qed.

Lemma named_insert k a : a <> p -> named (<[p := h]> ns) k a = named ns k a.
Proof. intros Hne. unfold named. by rewrite lookup_insert_ne. Qed.

Lemma filter_named_insert k l :
  p ∉ l -> List.filter (named (<[p := h]> ns) k) l = List.filter (named ns k) l.
Proof.
  intros Hl. apply List.filter_ext_in. intros a Ha. apply named_insert. intros ->.
  apply Hl. by apply list_elem_of_In.
Qed.

Lemma link_entries k :
  entries_in (<[p := h]> ns) (set_bucket bs (bucket_of hk) (p :: bs (bucket_of hk))) k =
  (if decide (lower hk = lower k) then [p] else []) ++ entries_in ns bs k.
Proof.
  unfold entries_in, set_bucket. destruct (Z.eqb_spec (bucket_of hk) (bucket_of k)) as [Eb|Eb].
  - cbn [List.filter]. unfold named at 1. rewrite lookup_insert_eq, (nw_key _ _ _ Hw), filter_named_insert, Eb by apply link_fresh.
    destruct (decide (lower hk = lower k)); [by rewrite bool_decide_true|by rewrite bool_decide_false].
  - rewrite decide_False by (intros E; by apply Eb, bucket_of_lower).
    cbn. apply filter_named_insert, link_fresh.
Qed.

Lemma link_vals k :
  vals_in (<[p := h]> ns) (set_bucket bs (bucket_of hk) (p :: bs (bucket_of hk))) k =
  (if decide (lower hk = lower k) then [value h] else []) ++ vals_in ns bs k.
Proof.
  unfold vals_in. rewrite link_entries, map_app. f_equal.
  - destruct (decide _); cbn; by rewrite ?lookup_insert_eq.
  - apply map_ext_in. intros a Ha. rewrite lookup_insert_ne; [done|]. intros <-.
    unfold entries_in in Ha. apply filter_In in Ha as [Ha _]. apply list_elem_of_In in Ha. by apply link_fresh in Ha.
Qed.

End Link.

(** ** Overwriting a value *)

Lemma named_alter ns k a a' v n : named (alter (set_value v n) a ns) k a' = named ns k a'.
Proof.
  unfold named. destruct (decide (a = a')) as [->|]; [|by rewrite lookup_alter_ne].
  rewrite lookup_alter_eq. by destruct (ns !! a').
Qed.

Lemma entries_alter ns bs k a v n : entries_in (alter (set_value v n) a ns) bs k = entries_in ns bs k.
Proof. apply List.filter_ext. intros. apply named_alter. Qed.

Lemma chains_alter ns bs given a v n :
  chains_wf ns bs given -> (forall x, v = Some x -> n = length x) ->
  chains_wf (alter (set_value v n) a ns) bs given.
Proof.
  intros [Hn Hnd Hd] Hv. constructor; [done| |].
  - intros b a' Ha'. destruct (Hnd b a' Ha') as (h & hk & E & Hw). destruct (decide (a = a')) as [->|].
    + exists (set_value v n h), hk. rewrite lookup_alter_eq, E. split; [done|]. destruct Hw. by constructor.
    + exists h, hk. by rewrite lookup_alter_ne.
  - intros a' Ha'. apply Hd. destruct (decide (a = a')) as [->|].
    + rewrite lookup_alter_eq in Ha'. by destruct (ns !! a'); [|destruct Ha'].
    + by rewrite lookup_alter_ne in Ha'.
Qed.

(** The newest value of [k] is replaced, everything else is as before. *)
Lemma vals_alter ns bs given k a l v n k' :
  chains_wf ns bs given -> entries_in ns bs k = a :: l ->
  vals_in (alter (set_value v n) a ns) bs k' =
  if decide (lower k = lower k') then v :: tl (vals_in ns bs k') else vals_in ns bs k'.
Proof.
  intros Hc E. unfold vals_in. rewrite entries_alter.
  assert (In a (bs (bucket_of k)) /\ named ns k a = true) as [Hin Hnm].
  { apply filter_In. unfold entries_in in E. rewrite E. by left. }
  apply list_elem_of_In in Hin. destruct (cw_node _ _ _ Hc _ _ Hin) as (h & hk & En & Hw).
  assert (lower hk = lower k) as Ek.
  { unfold named in Hnm. rewrite En, (nw_key _ _ _ Hw) in Hnm. by apply bool_decide_eq_true in Hnm. }
  assert (forall l', a ∉ l' -> map (fun a0 => from_option value None (alter (set_value v n) a ns !! a0)) l' =
    map (fun a0 => from_option value None (ns !! a0)) l') as Hmap.
  { intros l' Hl'. apply map_ext_in. intros a0 Ha0. rewrite lookup_alter_ne; [done|]. intros ->.
    apply Hl'. by apply list_elem_of_In. }
  destruct (decide (lower k = lower k')) as [El|El].
  - rewrite <- (entries_lower _ _ _ _ El), E. cbn. rewrite lookup_alter_eq, En. cbn. f_equal. apply Hmap.
    pose proof (cw_nodup _ _ _ Hc (bucket_of k)) as Hnd. apply NoDup_ListNoDup in Hnd.
    apply (List.NoDup_filter (named ns k)) in Hnd. unfold entries_in in E. rewrite E in Hnd.
    rewrite list_elem_of_In. by inversion Hnd.
  - apply Hmap. intros Ha. apply El. unfold entries_in in Ha. rewrite list_elem_of_In, filter_In in Ha.
    destruct Ha as [_ Ha]. unfold named in Ha. rewrite En, (nw_key _ _ _ Hw) in Ha.
    apply bool_decide_eq_true in Ha. congruence.
Qed.

(** ** The operations preserve the invariant *)

Lemma header_id_name_lower i hk :
  i <> CSILK_HDR_UNKNOWN -> CR ∉ hk ->
  (lower hk = lower (csilk_header_id_name i) <-> csilk_header_id_from_name hk = i).
Proof.
  intros Hi Hcr. split; [|intros <-; by apply from_name_sound].
  intros E. rewrite <- from_name_lower, E. destruct i; [done|vm_compute; reflexivity..].
Qed.

(** [link_node] on a map: the new node comes first under its name. *)
Lemma link_node_inv m given p h hk :
  map_inv m given -> p ∉ given -> node_wf (bucket_of hk) h hk -> hid h = csilk_header_id_from_name hk ->
  map_inv (link_node m p h) (p :: given) /\
  (forall k, vals (link_node m p h) k = (if decide (lower hk = lower k) then [value h] else []) ++ vals m k).
Proof.
  intros [Hc Hid Hkn] Hp Hw Hh.
  assert (nodes (link_node m p h) = <[p := h]> (nodes m) /\
    buckets (link_node m p h) = set_bucket (buckets m) (bucket_of hk) (p :: buckets m (bucket_of hk)) /\
    known (link_node m p h) = if decide (hid h = CSILK_HDR_UNKNOWN) then known m else set_known (known m) (hid h) p)
    as (En & Eb & Ek).
  { unfold link_node, point_known, bucket_of. rewrite (nw_hash _ _ _ Hw). by destruct (decide _). }
  unfold vals. rewrite En, Eb. split; [|intros k; by eapply link_vals].
  constructor; rewrite ?En, ?Eb, ?Ek.
  - by apply link_chains.
  - intros b a h' hk' Ha Eh Ehk. destruct (decide (a = p)) as [->|].
    + rewrite lookup_insert_eq in Eh. injection Eh as <-. rewrite (nw_key _ _ _ Hw) in Ehk. by injection Ehk as <-.
    + rewrite lookup_insert_ne in Eh by done. apply (Hid b a h' hk'); [|done..].
      unfold set_bucket in Ha. destruct (Z.eqb_spec (bucket_of hk) b) as [<-|]; [|done].
      by apply elem_of_cons in Ha as [->|].
  - intros i. unfold entries. rewrite En, Eb, (link_entries _ _ _ _ _ _ Hc Hp Hw).
    pose proof (Hkn i) as Hkni. destruct (decide (hid h = CSILK_HDR_UNKNOWN)) as [Eu|Eu].
    + rewrite Hkni. destruct (decide (i = CSILK_HDR_UNKNOWN)) as [|Hi]; [done|].
      rewrite decide_False; [done|]. rewrite header_id_name_lower by (done || apply Hw). congruence.
    + unfold set_known. destruct (decide (hid h = i)) as [<-|Hne].
      * rewrite decide_False by done. rewrite decide_True; [done|]. by apply header_id_name_lower; [|apply Hw|].
      * rewrite Hkni. destruct (decide (i = CSILK_HDR_UNKNOWN)) as [|Hi]; [done|].
        rewrite decide_False; [done|]. rewrite header_id_name_lower by (done || apply Hw). congruence.
Qed.

(** Overwriting the newest node of [k]. *)
Lemma write_value_inv m given k a l v n :
  map_inv m given -> (forall x, v = Some x -> n = length x) -> entries m k = a :: l ->
  map_inv (write_value m a v n) given /\
  (forall k', vals (write_value m a v n) k' =
     if decide (lower k = lower k') then v :: tl (vals m k') else vals m k').
Proof.
  intros [Hc Hid Hkn] Hv E. split; [|intros k'; by eapply vals_alter].
  constructor; cbn [nodes buckets known write_value]; [by apply chains_alter| |].
  - intros b a' h hk Ha Eh Ek. destruct (decide (a = a')) as [->|].
    + rewrite lookup_alter_eq in Eh. destruct (nodes m !! a') as [h'|] eqn:En; [|done]. cbn in Eh. injection Eh as <-.
      by apply (Hid b a' h' hk).
    + rewrite lookup_alter_ne in Eh by done. by apply (Hid b a' h hk).
  - intros i. unfold entries. cbn [nodes buckets write_value]. rewrite entries_alter. apply Hkn.
Qed.

(** Pointing the slot at the node it already denotes changes nothing. *)
Lemma point_known_inv m given k a l :
  map_inv m given -> CR ∉ k -> entries m k = a :: l ->
  map_inv (point_known m (csilk_header_id_from_name k) a) given /\
  (forall k', vals (point_known m (csilk_header_id_from_name k) a) k' = vals m k').
Proof.
  intros Hm Hcr E. unfold point_known. destruct (decide _) as [|Hi]; [done|]. split; [|done].
  destruct Hm as [Hc Hid Hkn]. constructor; cbn [nodes buckets known]; [done..|]. intros i. unfold entries. cbn [nodes buckets].
  unfold set_known. destruct (decide (_ = i)) as [<-|]; [|apply Hkn]. rewrite decide_False by done.
  rewrite <- (entries_lower _ _ _ _ (from_name_sound k _ Hcr eq_refl Hi)). unfold entries in E. by rewrite E.
Qed.

Lemma chains_mono ns bs g g' : (forall a, a ∈ g -> a ∈ g') -> chains_wf ns bs g -> chains_wf ns bs g'.
Proof. intros Hg [? ? Hd]. constructor; [done..|]. intros a Ha. by apply Hg, Hd. Qed.

Lemma map_inv_mono m g g' : (forall a, a ∈ g -> a ∈ g') -> map_inv m g -> map_inv m g'.
Proof. intros Hg [? ? ?]. constructor; [by eapply chains_mono|done..]. Qed.

Lemma mark_used_inv m g : map_inv m g -> map_inv (mark_used m) g.
Proof. intros [? ? ?]. by constructor. Qed.

Section Specs.
  Context `{Allocator A}.

(** What every use of the allocator keeps. *)
Record grows (st st' : A) : Prop := {
  gr_ok : al_ok st';
  gr_given : forall a, a ∈ al_given st -> a ∈ al_given st';
  gr_log : exists new, al_log st' = new ++ al_log st;
}.

(** Of the requests made between [st] and [st'], one was answered with null. *)
Definition refused (st st' : A) : Prop :=
  exists new n, al_log st' = new ++ al_log st /\ (n, 0) ∈ new.

Lemma not_refused st st' new : al_log st' = new ++ al_log st -> Forall (fun q => q.2 <> 0) new -> ~ refused st st'.
Proof.
  intros E Hn (new' & n & E' & Hin). rewrite E in E'. apply app_inv_tail in E' as <-. rewrite Forall_forall in Hn. by apply (Hn _ Hin).
Qed.

Lemma grows_refl st : al_ok st -> grows st st.
Proof. intros. constructor; [done|done|by exists []]. Qed.
Lemma grows_trans st1 st2 st3 : grows st1 st2 -> grows st2 st3 -> grows st1 st3.
Proof.
  intros [? H1 [n1 E1]] [? H2 [n2 E2]]. constructor; [done|auto|]. exists (n2 ++ n1). by rewrite E2, E1, app_assoc.
Qed.

Lemma refused_weaken st1 st2 st3 st4 : grows st1 st2 -> refused st2 st3 -> grows st3 st4 -> refused st1 st4.
Proof.
  intros [_ _ [n1 E1]] (new & n & E & Hin) [_ _ [n2 E2]]. exists (n2 ++ new ++ n1), n.
  split; [by rewrite E2, E, E1, !app_assoc|]. rewrite !elem_of_app. auto.
Qed.

Lemma refused_first st1 st2 st3 : refused st1 st2 -> grows st2 st3 -> refused st1 st3.
Proof. intros (new & n & E & Hin) [_ _ [n2 E2]]. exists (n2 ++ new), n. rewrite E2, E, app_assoc, elem_of_app. auto. Qed.

Lemma refused_last st1 st2 st3 : grows st1 st2 -> refused st2 st3 -> refused st1 st3.
Proof. intros [_ _ [n1 E1]] (new & n & E & Hin). exists (new ++ n1), n. rewrite E, E1, app_assoc, elem_of_app. auto. Qed.

(** The same by looking at the record. *)
Definition refusedb (st st' : A) : bool :=
  existsb (fun q => q.2 =? 0) (take (length (al_log st') - length (al_log st)) (al_log st')).

Lemma refusedb_spec st st' : grows st st' -> refusedb st st' = true <-> refused st st'.
Proof.
  intros [_ _ [new E]]. unfold refusedb, refused. rewrite E, length_app, Nat.add_sub, take_app_length, existsb_exists. split.
  - intros ([n p] & Hin & Hz%Z.eqb_eq). cbn in Hz. subst p. exists new, n. split; [done|]. by apply list_elem_of_In.
  - intros (new' & n & E' & Hin). apply app_inv_tail in E' as <-. exists (n, 0). split; [by apply list_elem_of_In|done].
Qed.

Lemma refusedb_false st st' : refusedb st st' = false -> ~ refused st st'.
Proof.
  intros Hf (new & n & E & Hin). unfold refusedb in Hf. rewrite E, length_app, Nat.add_sub, take_app_length in Hf.
  apply Bool.not_true_iff_false in Hf. apply Hf, existsb_exists. exists (n, 0). split; [by apply list_elem_of_In|done].
Qed.

Lemma alloc_grows n st p st' :
  al_ok st -> 0 < n <= MAX_REQUEST -> al_alloc n st = (p, st') ->
  grows st st' /\ ((p = 0 /\ refused st st') \/ (p <> 0 /\ p ∉ al_given st /\ al_given st' = p :: al_given st)).
Proof.
  intros Ho Hn E. destruct (al_alloc_spec _ _ _ _ Ho Hn E) as (Ho' & El & Hr).
  assert (exists new, al_log st' = new ++ al_log st) as Hl by (by exists [(n, p)]). destruct Hr as [[-> Eg]|(Hnz & Hf & Eg)].
  - split; [constructor; [done|by rewrite Eg|done]|]. left. split; [done|]. exists [(n, 0)], n. split; [done|by left].
  - split; [|by right]. constructor; [done| |done]. rewrite Eg. by right.
Qed.

Definition clean (s : bytes) : bytes := List.filter not_crlf s.

Lemma clean_cr s : CR ∉ clean s.
Proof. intros Hin. apply list_elem_of_In, filter_In in Hin as [_ Hin]. done. Qed.

Lemma clean_nul s : nul_free s -> nul_free (clean s).
Proof. intros Hs Hin. apply Hs. apply list_elem_of_In, filter_In in Hin as [Hin _]. by apply list_elem_of_In. Qed.

Definition small (s : bytes) : Prop := Z.of_nat (length s) < MAX_REQUEST.

Lemma sanitize_spec s st r st' :
  al_ok st -> small s -> _csilk_sanitize_header_str s st = (r, st') ->
  grows st st' /\ ((r = None /\ refused st st') \/ r = Some (clean s)).
Proof.
  unfold small. intros Ho Hs E. unfold _csilk_sanitize_header_str in E. destruct (al_alloc _ st) as [p st1] eqn:Ea.
  injection E as <- <-. apply alloc_grows in Ea as [G [[-> Hr]|(Hnz & _)]]; [..|done|lia].
  - split; [done|by left].
  - split; [done|right]. by rewrite (proj2 (Z.eqb_neq p 0)).
Qed.

Lemma strndup_spec s st r st' :
  al_ok st -> small s -> al_strndup s st = (r, st') ->
  grows st st' /\ ((r = None /\ refused st st') \/ r = Some s).
Proof.
  unfold small. intros Ho Hs E. unfold al_strndup in E. destruct (al_alloc _ st) as [p st1] eqn:Ea.
  injection E as <- <-. apply alloc_grows in Ea as [G [[-> Hr]|(Hnz & _)]]; [..|done|lia].
  - split; [done|by left].
  - split; [done|right]. by rewrite (proj2 (Z.eqb_neq p 0)).
Qed.

Lemma clean_pair_spec k v st r st' :
  al_ok st -> small k -> small v -> clean_pair k v st = (r, st') ->
  grows st st' /\
  ((r = None /\ (clean k = [] \/ refused st st')) \/ (r = Some (clean k, clean v) /\ clean k <> [])).
Proof.
  intros Ho Hk Hv E. unfold clean_pair in E.
  destruct (_csilk_sanitize_header_str k st) as [k' st1] eqn:E1.
  apply sanitize_spec in E1 as [G1 [[-> Hr]| ->]]; [..|done|done].
  { injection E as <- <-. split; [done|]. left. auto. }
  destruct (clean k) as [|c ck] eqn:Ec.
  { injection E as <- <-. split; [done|]. left. auto. }
  destruct (_csilk_sanitize_header_str v st1) as [v' st2] eqn:E2.
  apply sanitize_spec in E2 as [G2 [[-> Hr]| ->]]; [..|apply G1|done]; injection E as <- <-;
    (split; [by eapply grows_trans|]).
  - left. split; [done|right]. eapply refused_weaken; [exact G1|exact Hr|apply grows_refl, G2].
  - by right.
Qed.

(** The reference multimap: lower-case names to values, newest first. *)
Definition amap : Type := bytes -> list (option bytes).
Definition a_set (am : amap) (k : bytes) (v : option bytes) : amap :=
  fun k' => if decide (lower k = lower k') then v :: tl (am k') else am k'.
Definition a_add (am : amap) (k : bytes) (v : option bytes) : amap :=
  fun k' => if decide (lower k = lower k') then v :: am k' else am k'.

Lemma fresh_node_wf k v :
  nul_free k -> CR ∉ k ->
  node_wf (bucket_of k) (mk_header (Some k) (Some v) (length k) (length v) (header_hash_view k)
    (csilk_header_id_from_name k)) k.
Proof. intros Hn Hc. constructor; cbn; try done. by intros ? [= <-]. Qed.

Lemma a_set_new m k v k' :
  List.hd_error (entries m k) = None ->
  (if decide (lower k = lower k') then [v] else []) ++ vals m k' = a_set (vals m) k v k'.
Proof.
  intros E. unfold a_set. destruct (decide _) as [El|]; [|done].
  unfold vals, vals_in. rewrite <- (entries_lower _ _ _ _ El). unfold entries in E.
  by destruct (entries_in _ _ k).
Qed.

Lemma entries_head m k a : List.hd_error (entries m k) = Some a -> exists l, entries m k = a :: l.
Proof. destruct (entries m k) as [|x l]; [done|]. intros [= ->]. eauto. Qed.

(** Updating the newest node of [k], with the slot re-pointed. *)
Lemma update_spec m given k a v n :
  map_inv m given -> CR ∉ k -> (forall x, v = Some x -> n = length x) -> List.hd_error (entries m k) = Some a ->
  map_inv (write_value m a v n) given /\
  map_inv (point_known (write_value m a v n) (csilk_header_id_from_name k) a) given /\
  (forall k', vals (write_value m a v n) k' = a_set (vals m) k v k') /\
  (forall k', vals (point_known (write_value m a v n) (csilk_header_id_from_name k) a) k' = a_set (vals m) k v k').
Proof.
  intros Hm Hcr Hv E. apply entries_head in E as [l E].
  destruct (write_value_inv m given k a l v n Hm Hv E) as [Hm' Hvals].
  assert (entries (write_value m a v n) k = a :: l) as E'.
  { unfold entries in *. cbn [nodes buckets write_value]. by rewrite entries_alter. }
  destruct (point_known_inv _ _ k a l Hm' Hcr E') as [Hm'' Hvals'].
  split_and!; [done|done|done|]. intros k'. by rewrite Hvals'.
Qed.

Definition clean_node (k v : bytes) : csilk_header_t :=
  mk_header (Some k) (Some v) (length k) (length v) (header_hash_view k) (csilk_header_id_from_name k).

Lemma insert_spec m st k v p st' :
  al_ok st -> map_inv m (al_given st) -> nul_free k -> CR ∉ k -> al_alloc sizeof_header st = (p, st') ->
  grows st st' /\
  ((p = 0 /\ refused st st') \/
   (p <> 0 /\ map_inv (link_node m p (clean_node k v)) (al_given st') /\
    forall k', vals (link_node m p (clean_node k v)) k' = a_add (vals m) k (Some v) k')).
Proof.
  intros Ho Hm Hn Hcr Ea.
  apply alloc_grows in Ea as [G [[-> Hr]|(Hnz & Hf & Eg)]]; [..|done|by unfold sizeof_header, MAX_REQUEST].
  - split; [done|by left].
  - split; [done|right]. split; [done|]. rewrite Eg.
    destruct (link_node_inv m (al_given st) p (clean_node k v) k Hm Hf (fresh_node_wf k v Hn Hcr) eq_refl) as [Hm' Hv].
    split; [done|]. intros k'. rewrite Hv. unfold a_add. by destruct (decide _).
Qed.

Lemma a_add_new m k v k' : entries m k = [] -> a_add (vals m) k v k' = a_set (vals m) k v k'.
Proof.
  intros E. unfold a_add, a_set, vals, vals_in, entries in *. destruct (decide _) as [El|]; [|done].
  rewrite <- (entries_lower _ _ _ _ El). by rewrite E.
Qed.

Lemma used_link m p h : used (link_node m p h) = used m.
Proof. unfold link_node, point_known. by case_decide. Qed.
Lemma used_point m i a : used (point_known m i a) = used m.
Proof. unfold point_known. by case_decide. Qed.

Lemma map_set_spec m st k v :
  al_ok st -> map_inv m (al_given st) -> nul_free k -> small k -> small v ->
  exists m' st', map_set m k v st = Some (m', st') /\ grows st st' /\ map_inv m' (al_given st') /\ used m' = true /\
    ((forall k', vals m' k' = vals m k') /\ (clean k = [] \/ refused st st') \/
     clean k <> [] /\ forall k', vals m' k' = a_set (vals m) (clean k) (Some (clean v)) k').
Proof.
  intros Ho Hm Hn Hk Hv. unfold map_set. cbn zeta. destruct (clean_pair k v st) as [r st1] eqn:Ep.
  apply clean_pair_spec in Ep as [G1 [[-> Hr]|[-> Hne]]]; [..|done|done|done];
    apply (map_inv_mono _ _ (al_given st1)) in Hm; [|apply G1| |apply G1]; apply mark_used_inv in Hm.
  { eexists _, _. split_and!; [done..|]. by left. }
  pose proof (clean_cr k) as Hcr. pose proof (clean_nul k Hn) as Hcn.
  rewrite (slot_spec _ _ _ Hm Hcr). change (Z.land (header_hash_view (clean k)) _) with (bucket_of (clean k)).
  rewrite (chain_find_entries _ _ _ _ (mi_chains _ _ Hm) Hcn). cbn [mbind option_bind].
  change (entries_in _ _ (clean k)) with (entries (mark_used m) (clean k)).
  destruct (entries (mark_used m) (clean k)) as [|a l] eqn:Eh; cbn [List.hd_error].
  - destruct (al_alloc sizeof_header st1) as [p st2] eqn:Ea.
    destruct (insert_spec _ _ (clean k) (clean v) _ _ (gr_ok _ _ G1) Hm Hcn Hcr Ea) as [G2 Hres].
    pose proof (grows_trans _ _ _ G1 G2) as G. exists (if p =? 0 then mark_used m else link_node (mark_used m) p (clean_node (clean k) (clean v))), st2.
    split; [by destruct (decide _), (p =? 0)|]. split; [done|].
    destruct Hres as [[-> Hr]|(Hnz & I & V)].
    + cbn. split_and!; [apply (map_inv_mono _ (al_given st1)); [apply G2|done]|done|]. left. split; [done|right].
      eapply refused_weaken; [exact G1|exact Hr|apply grows_refl, G2].
    + rewrite (proj2 (Z.eqb_neq p 0)) by done. split_and!; [done|by rewrite used_link|]. right. split; [done|].
      intros k'. rewrite V. exact (a_add_new (mark_used m) _ _ _ Eh).
  - destruct (update_spec _ _ (clean k) a (Some (clean v)) (length (clean v)) Hm Hcr) as (I1 & I2 & V1 & V2);
      [by intros ? [= <-]|by rewrite Eh|].
    destruct (decide _); eexists _, _; (split; [done|]); (split; [done|]); (split; [done|]);
      rewrite ?used_point; (split; [done|]); right; by split.
Qed.

Lemma map_add_spec m st k v m' st' :
  al_ok st -> map_inv m (al_given st) -> nul_free k -> small k -> small v -> map_add m k v st = (m', st') ->
  grows st st' /\ map_inv m' (al_given st') /\ used m' = true /\
    ((forall k', vals m' k' = vals m k') /\ (clean k = [] \/ refused st st') \/
     clean k <> [] /\ forall k', vals m' k' = a_add (vals m) (clean k) (Some (clean v)) k').
Proof.
  intros Ho Hm Hn Hk Hv E. unfold map_add in E. cbn zeta in E. destruct (clean_pair k v st) as [r st1] eqn:Ep.
  apply clean_pair_spec in Ep as [G1 [[-> Hr]|[-> Hne]]]; [..|done|done|done];
    apply (map_inv_mono _ _ (al_given st1)) in Hm; [|apply G1| |apply G1]; apply mark_used_inv in Hm.
  { injection E as <- <-. split_and!; [done..|]. by left. }
  destruct (al_alloc sizeof_header st1) as [p st2] eqn:Ea.
  destruct (insert_spec _ _ (clean k) (clean v) _ _ (gr_ok _ _ G1) Hm (clean_nul k Hn) (clean_cr k) Ea) as [G2 Hres].
  pose proof (grows_trans _ _ _ G1 G2) as G. destruct Hres as [[-> Hr]|(Hnz & I & V)].
  - injection E as <- <-. split_and!; [done|apply (map_inv_mono _ (al_given st1)); [apply G2|done]|done|].
    left. split; [done|right]. eapply refused_weaken; [exact G1|exact Hr|apply grows_refl, G2].
  - rewrite (proj2 (Z.eqb_neq p 0)) in E by done. injection E as <- <-.
    split_and!; [done|done|by rewrite used_link|]. right. split; [done|exact V].
Qed.
(** A node whose key pointer is null hangs in a chain. *)
Definition null_key (m : csilk_header_map_t) : Prop :=
  exists b a h, a ∈ buckets m b /\ nodes m !! a = Some h /\ key h = None.

Lemma null_key_link m p h : key h = None -> null_key (link_node m p h).
Proof.
  intros E. exists (Z.land (hash h) (CSILK_HEADER_BUCKETS - 1)), p, h. unfold link_node, point_known.
  case_decide; cbn; unfold set_bucket; rewrite Z.eqb_refl, lookup_insert_eq; (split; [by left|done]).
Qed.

Lemma map_set_view_spec m st k v :
  al_ok st -> map_inv m (al_given st) -> nul_free k -> CR ∉ k -> small k -> small v ->
  exists m' st', map_set_view m k v st = Some (m', st') /\ grows st st' /\ used m' = true /\
    (map_inv m' (al_given st') /\
       ((forall k', vals m' k' = vals m k') /\ refused st st' \/
        exists v', (v' = Some v \/ v' = None /\ refused st st') /\
          forall k', vals m' k' = a_set (vals m) k v' k') \/
     refused st st' /\ null_key m').
Proof.
  intros Ho Hm Hn Hcr Hk Hv. unfold map_set_view. cbn zeta. apply mark_used_inv in Hm.
  rewrite (slot_spec _ _ _ Hm Hcr). change (Z.land (header_hash_view k) _) with (bucket_of k).
  rewrite (chain_find_entries _ _ _ _ (mi_chains _ _ Hm) Hn). cbn [mbind option_bind].
  change (entries_in _ _ k) with (entries (mark_used m) k).
  destruct (entries (mark_used m) k) as [|a l] eqn:Eh; cbn [List.hd_error].
  - destruct (al_alloc sizeof_header st) as [p st1] eqn:Ea.
    apply alloc_grows in Ea as [G1 [[-> Hr]|(Hnz & Hf & Eg)]]; [..|done|by unfold sizeof_header, MAX_REQUEST].
    { exists (mark_used m), st1. split; [by destruct (decide _)|]. split_and!; [done..|]. left.
      split; [apply (map_inv_mono _ (al_given st)); [apply G1|done]|]. by left. }
    destruct (al_strndup k st1) as [k' st2] eqn:E2. destruct (al_strndup v st2) as [v' st3] eqn:E3.
    apply strndup_spec in E2 as [G2 Hk']; [|apply G1|done]. apply strndup_spec in E3 as [G3 Hv']; [|apply G2|done].
    pose proof (grows_trans _ _ _ G1 G2) as G12. pose proof (grows_trans _ _ _ G12 G3) as G.
    exists (link_node (mark_used m) p (mk_header k' v' (length k) (length v) (header_hash_view k) (csilk_header_id_from_name k))), st3.
    rewrite (proj2 (Z.eqb_neq p 0)) by done. split; [by destruct (decide _)|]. split; [done|]. split; [by rewrite used_link|].
    destruct Hk' as [[-> Hr]| ->].
    { right. split; [by eapply refused_weaken; [exact G1|exact Hr|exact G3]|]. by apply null_key_link. }
    left. destruct (link_node_inv (mark_used m) (al_given st) p
      (mk_header (Some k) v' (length k) (length v) (header_hash_view k) (csilk_header_id_from_name k)) k Hm Hf) as [I V].
    { constructor; cbn; try done. intros x ->. by destruct Hv' as [[? _]|[= ->]]. }
    { done. }
    split. { apply (map_inv_mono _ (p :: al_given st)); [rewrite <- Eg; intros x Hx; by apply G3, G2|done]. }
    right. exists v'. split.
    { destruct Hv' as [[-> Hr]| ->]; [right|by left]. split; [done|]. eapply refused_weaken; [exact G12|exact Hr|apply grows_refl, G3]. }
    intros k'. rewrite V. change (vals m) with (vals (mark_used m)).
    rewrite <- (a_add_new (mark_used m) k v' k' Eh). unfold a_add. by destruct (decide _).
  - destruct (al_strndup v st) as [v' st1] eqn:Ev. apply strndup_spec in Ev as [G1 Hv']; [|done|done].
    apply (map_inv_mono _ _ (al_given st1)) in Hm; [|apply G1].
    destruct (update_spec _ _ k a v' (length v) Hm Hcr) as (I1 & I2 & V1 & V2);
      [intros x ->; by destruct Hv' as [[? _]|[= ->]]|by rewrite Eh|].
    assert (v' = Some v \/ v' = None /\ refused st st1) as Hv'' by (destruct Hv' as [[-> ?]| ->]; auto).
    destruct (decide _); eexists _, _; (split; [done|]); (split; [done|]); rewrite ?used_point; (split; [done|]);
      left; (split; [done|]); right; exists v'; by split.
Qed.

(** ** Reading *)

Lemma map_value_spec m given k a l :
  map_inv m given -> entries m k = a :: l ->
  exists h, nodes m !! a = Some h /\ List.hd_error (vals m k) = Some (value h) /\
    header_view h = (value h, match value h with Some v => length v | None => value_len h end).
Proof.
  intros Hm E. assert (In a (buckets m (bucket_of k))) as Hin.
  { unfold entries, entries_in in E. eapply (proj1 (filter_In _ _ _)). rewrite E. by left. }
  apply list_elem_of_In in Hin. destruct (cw_node _ _ _ (mi_chains _ _ Hm) _ _ Hin) as (h & hk & En & Hw).
  exists h. split; [done|]. split.
  - unfold vals, vals_in. unfold entries in E. rewrite E. cbn. by rewrite En.
  - unfold header_view. f_equal. destruct (value h) as [v|] eqn:Ev.
    + rewrite (nw_vlen _ _ _ Hw v Ev). by destruct (length v).
    + by destruct (value_len h).
Qed.

Lemma map_get_spec m given k :
  map_inv m given -> nul_free k -> CR ∉ k -> map_get m (Some k) = Some (hd None (vals m k)).
Proof.
  intros Hm Hn Hcr. unfold map_get. rewrite (map_find_spec _ _ _ Hm Hn Hcr). cbn [mbind option_bind].
  destruct (entries m k) as [|a l] eqn:E; cbn [List.hd_error].
  - unfold vals, vals_in. unfold entries in E. by rewrite E.
  - destruct (map_value_spec m given k a l Hm E) as (h & -> & Eh & _). cbn.
    destruct (vals m k); [done|]. cbn in *. by injection Eh as ->.
Qed.

Lemma map_get_id_spec m given i :
  map_inv m given -> i <> CSILK_HDR_UNKNOWN ->
  map_get_id m i = Some (hd None (vals m (csilk_header_id_name i))).
Proof.
  intros Hm Hi. unfold map_get_id. rewrite (mi_known _ _ Hm), !decide_False by done.
  destruct (entries m (csilk_header_id_name i)) as [|a l] eqn:E; cbn [List.hd_error].
  - unfold vals, vals_in. unfold entries in E. by rewrite E.
  - destruct (map_value_spec m given _ a l Hm E) as (h & -> & Eh & _). cbn.
    destruct (vals m _); [done|]. cbn in *. by injection Eh as ->.
Qed.

End Specs.

(** ** Scripts of header operations *)

Inductive hop :=
  | HSet (k v : bytes)
  | HAdd (k v : bytes).

Definition hop_name (o : hop) : bytes := match o with HSet k _ | HAdd k _ => k end.

Definition hop_ok (o : hop) : Prop :=
  match o with HSet k v | HAdd k v => nul_free k /\ small k /\ small v end.

Section Script.
  Context `{Allocator A}.

Definition run_hop (o : hop) (m : csilk_header_map_t) (st : A) : option (csilk_header_map_t * A) :=
  match o with
  | HSet k v => map_set m k v st
  | HAdd k v => Some (map_add m k v st)
  end.

Fixpoint run_hops (l : list hop) (m : csilk_header_map_t) (st : A) : option (csilk_header_map_t * A) :=
  match l with
  | [] => Some (m, st)
  | o :: l' => '(m', st') ← run_hop o m st; run_hops l' m' st'
  end.

(** The reference beside the run. An operation takes effect, with CR and LF
    removed from name and value; it is dropped only for a name with nothing
    left, or when a request made by that very operation was refused. *)
Inductive asteps : list hop -> csilk_header_map_t -> A -> A -> amap -> amap -> Prop :=
  | as_nil m st am : asteps [] m st st am am
  | as_set k v l m m1 st st1 st2 am am2 :
      run_hop (HSet k v) m st = Some (m1, st1) -> clean k <> [] ->
      asteps l m1 st1 st2 (a_set am (clean k) (Some (clean v))) am2 -> asteps (HSet k v :: l) m st st2 am am2
  | as_add k v l m m1 st st1 st2 am am2 :
      run_hop (HAdd k v) m st = Some (m1, st1) -> clean k <> [] ->
      asteps l m1 st1 st2 (a_add am (clean k) (Some (clean v))) am2 -> asteps (HAdd k v :: l) m st st2 am am2
  | as_drop o l m m1 st st1 st2 am am2 :
      run_hop o m st = Some (m1, st1) -> clean (hop_name o) = [] \/ refused st st1 ->
      asteps l m1 st1 st2 am am2 -> asteps (o :: l) m st st2 am am2.

Lemma run_hops_sim l m st am :
  al_ok st -> map_inv m (al_given st) -> Forall hop_ok l -> (forall k, vals m k = am k) ->
  exists m' st' am', run_hops l m st = Some (m', st') /\ al_ok st' /\ map_inv m' (al_given st') /\
    asteps l m st st' am am' /\ forall k, vals m' k = am' k.
Proof.
  intros Ho Hm Hl. revert m st am Ho Hm. induction Hl as [|o l Hok _ IH]; intros m st am Ho Hm Hv.
  { exists m, st, am. split_and!; [done..|constructor|done]. }
  destruct o as [k v|k v]; destruct Hok as (Hn & Hk & Hsv).
  - destruct (map_set_spec m st k v Ho Hm Hn Hk Hsv) as (m1 & st1 & E & G & I & _ & [[V Hd]|[Hne V]]).
    + destruct (IH m1 st1 am (gr_ok _ _ G) I) as (m2 & st2 & am2 & E2 & ? & ? & S & ?); [intros; by rewrite V|].
      exists m2, st2, am2. cbn. rewrite E. split_and!; [done..|by eapply as_drop|done].
    + destruct (IH m1 st1 (a_set am (clean k) (Some (clean v))) (gr_ok _ _ G) I) as (m2 & st2 & am2 & E2 & ? & ? & S & ?).
      { intros k'. rewrite V. unfold a_set. by rewrite Hv. }
      exists m2, st2, am2. cbn. rewrite E. split_and!; [done..|by eapply as_set|done].
  - destruct (map_add m k v st) as [m1 st1] eqn:E. assert (run_hop (HAdd k v) m st = Some (m1, st1)) as E' by (cbn; by rewrite E).
    destruct (map_add_spec m st k v m1 st1 Ho Hm Hn Hk Hsv E) as (G & I & _ & [[V Hd]|[Hne V]]).
    + destruct (IH m1 st1 am (gr_ok _ _ G) I) as (m2 & st2 & am2 & E2 & ? & ? & S & ?); [intros; by rewrite V|].
      exists m2, st2, am2. cbn. rewrite E. split_and!; [done..|by eapply as_drop|done].
    + destruct (IH m1 st1 (a_add am (clean k) (Some (clean v))) (gr_ok _ _ G) I) as (m2 & st2 & am2 & E2 & ? & ? & S & ?).
      { intros k'. rewrite V. unfold a_add. by rewrite Hv. }
      exists m2, st2, am2. cbn. rewrite E. split_and!; [done..|by eapply as_add|done].
Qed.

(** What a script means when memory is never refused. *)
Definition hop_ref (am : amap) (o : hop) : amap :=
  if decide (clean (hop_name o) = []) then am
  else match o with HSet k v => a_set am (clean k) (Some (clean v)) | HAdd k v => a_add am (clean k) (Some (clean v)) end.

Lemma run_hop_grows o m st m' st' :
  al_ok st -> map_inv m (al_given st) -> hop_ok o -> run_hop o m st = Some (m', st') -> grows st st' /\ map_inv m' (al_given st').
Proof.
  intros Ho Hm. destruct o as [k v|k v]; intros (Hn & Hk & Hsv) E; cbn in E.
  - destruct (map_set_spec m st k v Ho Hm Hn Hk Hsv) as (m1 & st1 & E1 & G & I & _). rewrite E1 in E. by injection E as <- <-.
  - injection E as E. by destruct (map_add_spec m st k v m' st' Ho Hm Hn Hk Hsv E) as (G & I & _).
Qed.

Lemma asteps_exact l m st st' am am' :
  asteps l m st st' am am' -> al_ok st -> map_inv m (al_given st) -> Forall hop_ok l ->
  grows st st' /\ (refused st st' \/ am' = foldl hop_ref am l).
Proof.
  induction 1 as [m st am|k v l m m1 st st1 st2 am am2 E Hne S IH|k v l m m1 st st1 st2 am am2 E Hne S IH|o l m m1 st st1 st2 am am2 E Hd S IH];
    intros Ho Hm Hl; [split; [by apply grows_refl|by right]| | |];
    apply Forall_cons in Hl as [Hok Hl]; destruct (run_hop_grows _ _ _ _ _ Ho Hm Hok E) as [G I];
    destruct (IH (gr_ok _ _ G) I Hl) as [G2 D]; (split; [by eapply grows_trans|]);
    (destruct D as [R|D]; [left; by eapply refused_last|]).
  - right. rewrite D. cbn [foldl]. unfold hop_ref at 3. cbn [hop_name]. by rewrite decide_False.
  - right. rewrite D. cbn [foldl]. unfold hop_ref at 3. cbn [hop_name]. by rewrite decide_False.
  - destruct Hd as [Ek|R]; [right|left; by eapply refused_first]. rewrite D. cbn [foldl]. unfold hop_ref at 3. by rewrite decide_True.
Qed.

Lemma empty_map_inv (st : A) : map_inv empty_map (al_given st).
Proof.
  constructor; cbn.
  - constructor; [constructor|by intros ? ? []%not_elem_of_nil|by intros ? [? []%lookup_empty_Some]].
  - by intros ? ? ? ? []%not_elem_of_nil.
  - intros i. by destruct (decide _).
Qed.

(** C14: the header map refines a case-insensitive multimap. Any script of
    [map_set] and [map_add] calls on an empty map, over any allocator, runs
    without undefined behaviour and behaves as the reference: [map_set]
    replaces the newest value of a name, [map_add] puts a new one in front, CR
    and LF never enter the map, and an operation is lost only when a request
    that this operation made was answered with null, or nothing is left of the
    name; when no request was, the reference is the fold of the script.
    Afterwards [map_get] on every name, in any case, and the O(1) [map_get_id] on every
    interned header return the newest value of the reference. *)
Theorem header_map_refines l (st : A) :
  al_ok st -> Forall hop_ok l ->
  exists m st' am, run_hops l empty_map st = Some (m, st') /\ asteps l empty_map st st' (fun _ => []) am /\
    (~ refused st st' -> am = foldl hop_ref (fun _ => []) l) /\
    (forall k, nul_free k -> CR ∉ k -> map_get m (Some k) = Some (hd None (am k))) /\
    (forall i, i <> CSILK_HDR_UNKNOWN -> map_get_id m i = Some (hd None (am (csilk_header_id_name i)))).
Proof.
  intros Ho Hl. destruct (run_hops_sim l empty_map st (fun _ => []) Ho (empty_map_inv st) Hl) as
    (m & st' & am & E & _ & Hm & Hs & Hv); [done|].
  exists m, st', am. split_and!; [done..| | |].
  - destruct (asteps_exact _ _ _ _ _ _ Hs Ho (empty_map_inv st) Hl) as [_ [?|?]]; done.
  - intros k Hn Hcr. rewrite (map_get_spec _ _ _ Hm Hn Hcr). by rewrite Hv.
  - intros i Hi. rewrite (map_get_id_spec _ _ _ Hm Hi). by rewrite Hv.
Qed.

End Script.

Definition demo_hops : list hop :=
  [HSet (lit "Content-Type") (lit "text/html"); HAdd (lit "X-Tag") (lit "one");
   HAdd (lit "x-tag") (lit "two" ++ CR :: "010"%char :: lit "Evil: 1"); HSet (lit "CONTENT-TYPE") (lit "text/plain")].

Lemma header_map_refines_witness :
  exists m st' am, run_hops demo_hops empty_map demo_arena = Some (m, st') /\
    asteps demo_hops empty_map demo_arena st' (fun _ => []) am /\ am = foldl hop_ref (fun _ => []) demo_hops /\
    map_get m (Some (lit "X-TAG")) = Some (Some (lit "twoEvil: 1")) /\
    map_get_id m CSILK_HDR_CONTENT_TYPE = Some (Some (lit "text/plain")).
Proof.
  destruct (header_map_refines demo_hops demo_arena demo_arena_ok) as (m & st' & am & E & Hs & Hr & _ & _).
  - repeat constructor; (apply (bool_decide_unpack _); vm_compute; exact I) || (vm_compute; reflexivity).
  - exists m, st', am. split; [exact E|]. split; [exact Hs|].
    assert (refusedb demo_arena st' = false) as Hf. { clear -E. vm_compute in E. injection E as _ <-. by vm_compute. }
    split; [by apply Hr, refusedb_false|]. clear -E. vm_compute in E. injection E as <- _. by vm_compute.
Defined.

(** persisting a parsed header. On a well-formed map [map_set_view]
    never faults; it replaces the newest value of the name or adds the header,
    exactly as the reference, unless the allocator refused memory. In that case
    the map is unchanged, or the header is stored with a null value, or a node
    with a null key has been linked: the only outcome that leaves the
    invariant, and one that makes a later look-up of the chain dereference a
    null pointer. *)
Theorem map_set_view_refines `{Allocator A} m (st : A) k v :
  al_ok st -> map_inv m (al_given st) -> nul_free k -> CR ∉ k -> small k -> small v ->
  exists m' st', map_set_view m k v st = Some (m', st') /\ al_ok st' /\
    ((map_inv m' (al_given st') /\ forall k', vals m' k' = a_set (vals m) k (Some v) k') \/
     (refused st st' /\
        (map_inv m' (al_given st') /\
           ((forall k', vals m' k' = vals m k') \/ forall k', vals m' k' = a_set (vals m) k None k') \/
         null_key m'))).
Proof.
  intros Ho Hm Hn Hcr Hk Hv.
  destruct (map_set_view_spec m st k v Ho Hm Hn Hcr Hk Hv) as (m' & st' & E & G & _ & Hr).
  exists m', st'. split; [done|]. split; [apply G|].
  destruct Hr as [[I [[V R]|(v' & [->|[-> R]] & V)]]|[R N]]; [right|left; by split|right|right]; split; try done; auto.
Qed.

Lemma map_set_view_refines_witness :
  exists m' st', map_set_view empty_map (lit "Host") (lit "example.org") demo_arena = Some (m', st') /\
    vals m' (lit "hOST") = [Some (lit "example.org")].
Proof.
  destruct (map_set_view_refines empty_map demo_arena (lit "Host") (lit "example.org")) as (m' & st' & E & _).
  - apply demo_arena_ok.
  - apply empty_map_inv.
  - apply (bool_decide_unpack _). by vm_compute.
  - apply (bool_decide_unpack _). by vm_compute.
  - by vm_compute.
  - by vm_compute.
  - exists m', st'. split; [exact E|]. vm_compute in E. injection E as <- <-. by vm_compute.
Defined.

(** The null key is dereferenced by the next look-up with the same hash. *)
Example null_key_lookup :
  let h := mk_header None (Some (lit "v")) 1 1 (header_hash_view (lit "x")) CSILK_HDR_UNKNOWN in
  map_get (link_node empty_map 64 h) (Some (lit "X")) = None.
Proof. reflexivity. Qed.
