(* ===== verification/Query.v ===== *)
(** * Query strings and form bodies

    Models src/src/core/primitives/query.c on top of the decoder of Url.v and
    the key-value maps of HeaderMap.v.  The parser cuts an arena copy of the
    string in place: a key or value is the C string at its position once the
    separators are overwritten, and [csilk_url_decode] runs inside it. *)

From stdpp Require Import gmap.
From S2P Require Import Prelude Arena Allocator Url HeaderId HeaderMap.

#[local] Open Scope Z_scope.

(** [csilk_url_decode(s)] on a C string of the copy, and the string it leaves. *)
Definition decode_cstr (s : bytes) : option bytes :=
  '(buf, _) ← csilk_url_decode (Some (s ++ [NUL]));
  b ← buf; Some (cstr b).

Section Parse.
  Context `{Allocator A}.

(** One round on the segment between two separators. *)
Definition parse_segment (seg : bytes) (m : csilk_kv_map_t) (st : A) : option (csilk_kv_map_t * A) :=
  let '(key, value) := match strchr_split "=" seg with Some kv => kv | None => (seg, []) end in
  match key with
  | [] => Some (m, st)
  | _ =>
      key' ← decode_cstr key;
      value' ← (match value with [] => Some [] | _ => decode_cstr value end);
      Some (map_kv_add m key' value' st)
  end.

(** [while (pos && *pos)]; every round moves [pos], so the length bounds them. *)
Fixpoint parse_key_value_pairs (fuel : nat) (pos : bytes) (m : csilk_kv_map_t) (st : A)
  : option (csilk_kv_map_t * A) :=
  match fuel with
  | O => None
  | S fuel' =>
      match pos with
      | [] => Some (m, st)
      | _ =>
          match strchr_split "&" pos with
          | Some (seg, rest) =>
              '(m1, st1) ← parse_segment seg m st;
              parse_key_value_pairs fuel' rest m1 st1
          | None => parse_segment pos m st
          end
      end
  end.

(** The query string is null ([None]) or a C string. *)
Definition csilk_parse_query (query_string : option bytes) (m : csilk_kv_map_t) (st : A)
  : option (csilk_kv_map_t * A) :=
  match query_string with
  | None | Some [] => Some (m, st)
  | Some s =>
      let '(qs, st1) := al_strndup s st in
      match qs with
      | None => Some (m, st1)
      | Some qs => parse_key_value_pairs (S (length qs)) qs m st1
      end
  end.

(** [strncmp(ct, lit, 33) == 0] and the check of the byte behind the prefix. *)
Definition isspace (c : ascii) : bool :=
  let v := cval c in ((9 <=? v) && (v <=? 13)) || (v =? 32).
Definition form_content_type : bytes := lit "application/x-www-form-urlencoded".
Definition is_form_content_type (ct : bytes) : bool :=
  bool_decide (take 33 ct = form_content_type)
  && match ct !! 33%nat with
     | None => true
     | Some sep => Ascii.eqb sep ";" || isspace sep
     end.

(** The body is null or its [body_len] bytes; [headers] are the request's. *)
Definition csilk_parse_form_urlencoded (body : option bytes) (headers : csilk_header_map_t)
    (m : csilk_kv_map_t) (st : A) : option (csilk_kv_map_t * A) :=
  match body with
  | None | Some [] => Some (m, st)
  | Some body =>
      ct ← map_get headers (Some (lit "Content-Type"));
      match ct with
      | None => Some (m, st)
      | Some ct =>
          if negb (is_form_content_type ct) then Some (m, st) else
          let '(qs, st1) := al_strndup body st in
          match qs with
          | None => Some (m, st1)
          | Some qs => parse_key_value_pairs (S (length (cstr qs))) (cstr qs) m st1
          end
      end
  end.

End Parse.

Definition csilk_get_form_field (m : csilk_kv_map_t) (key : option bytes) : option (option bytes) :=
  map_kv_get m key.

(** ** Reference: the list of pairs a string denotes *)

Fixpoint split_on (c : ascii) (s : bytes) : list bytes :=
  match s with
  | [] => [[]]
  | d :: s' =>
      if Ascii.eqb d c then [] :: split_on c s'
      else match split_on c s' with
           | seg :: segs => (d :: seg) :: segs
           | [] => [[d]]
           end
  end.

Definition segment_pair (seg : bytes) : option (bytes * bytes) :=
  let '(k, v) := match strchr_split "=" seg with Some kv => kv | None => (seg, []) end in
  match k with [] => None | _ => Some (cstr (decode k), cstr (decode v)) end.

Definition query_pairs (s : bytes) : list (bytes * bytes) := omap segment_pair (split_on "&" s).

(** ** Key-value maps *)

Definition kvals (m : csilk_kv_map_t) (k : bytes) : list (option bytes) := vals_in m.(knodes) m.(kbuckets) k.

Lemma map_kv_get_spec m given k :
  chains_wf m.(knodes) m.(kbuckets) given -> nul_free k ->
  map_kv_get m (Some k) = Some (hd None (kvals m k)).
Proof.
  intros Hc Hn. unfold map_kv_get, map_kv_find. rewrite header_hash_eq.
  change (Z.land (header_hash_view k) _) with (bucket_of k).
  rewrite (chain_find_entries _ _ _ _ Hc Hn). cbn [mbind option_bind]. unfold kvals, vals_in.
  destruct (entries_in _ _ k) as [|a l] eqn:E; [done|]. cbn.
  assert (In a (kbuckets m (bucket_of k))) as Hin.
  { unfold entries_in in E. eapply (proj1 (filter_In _ _ _)). rewrite E. by left. }
  apply list_elem_of_In in Hin. by destruct (cw_node _ _ _ Hc _ _ Hin) as (h & hk & -> & _).
Qed.

Section KvSpec.
  Context `{Allocator A}.

Definition kv_inv (m : csilk_kv_map_t) (st : A) : Prop :=
  al_ok st /\ chains_wf m.(knodes) m.(kbuckets) (al_given st).

Lemma map_kv_add_spec m st k v m' st' :
  kv_inv m st -> nul_free k -> small k -> small v -> map_kv_add m k v st = (m', st') ->
  grows st st' /\ kv_inv m' st' /\
    ((forall k', kvals m' k' = kvals m k') /\ (clean k = [] \/ refused st st') \/
     clean k <> [] /\ forall k', kvals m' k' = a_add (kvals m) (clean k) (Some (clean v)) k').
Proof.
  intros [Ho Hm] Hn Hk Hv E. unfold map_kv_add in E. cbn zeta in E. destruct (clean_pair k v st) as [r st1] eqn:Ep.
  apply clean_pair_spec in Ep as [G1 [[-> Hr]|[-> Hne]]]; [..|done|done|done];
    apply (chains_mono _ _ _ (al_given st1)) in Hm; [|apply G1| |apply G1].
  { injection E as <- <-. split_and!; [done|by split; [apply G1|]|]. by left. }
  destruct (al_alloc sizeof_header st1) as [p st2] eqn:Ea.
  apply alloc_grows in Ea as [G2 [[-> Hr]|(Hnz & Hf & Eg)]]; [..|apply G1|by unfold sizeof_header, MAX_REQUEST];
    pose proof (grows_trans _ _ _ G1 G2) as G.
  - injection E as <- <-. split_and!; [done|split; [apply G2|by apply (chains_mono _ _ (al_given st1)); [apply G2|]]|].
    left. split; [done|right]. eapply refused_weaken; [exact G1|exact Hr|apply grows_refl, G2].
  - rewrite (proj2 (Z.eqb_neq p 0)) in E by done. injection E as <- <-.
    change (Z.land (header_hash_view (clean k)) _) with (bucket_of (clean k)). cbn [knodes kbuckets].
    set (h := mk_header _ _ _ _ _ _).
    assert (node_wf (bucket_of (clean k)) h (clean k)) as Hw.
    { constructor; cbn; try done; [by apply clean_nul|apply clean_cr|by intros ? [= <-]]. }
    split; [done|]. split; [split; [apply G2|]|right; split; [done|]].
    + cbn [knodes kbuckets]. rewrite Eg. by apply link_chains.
    + intros k'. unfold kvals at 1. cbn [knodes kbuckets]. rewrite (link_vals _ _ _ _ _ _ Hm Hf Hw).
      unfold a_add. by destruct (decide _).
Qed.

End KvSpec.

(** ** The parser computes the reference pairs *)

Lemma decode_cstr_spec s : nul_free s -> decode_cstr s = Some (cstr (decode s)).
Proof.
  intros Hs. unfold decode_cstr. destruct (csilk_url_decode_spec s [] Hs) as (j & E & _).
  rewrite E. cbn [mbind option_bind]. f_equal. generalize (decode s). intros d.
  induction d as [|c d IH]; [done|]. cbn. by destruct (Ascii.eqb c NUL); [|rewrite IH].
Qed.

Lemma strchr_split_parts c s a b : strchr_split c s = Some (a, b) -> s = a ++ c :: b.
Proof.
  revert a b. induction s as [|d s IH]; intros a b E; cbn in E; [done|].
  destruct (Ascii.eqb_spec d c) as [->|]; [by injection E as <- <-|].
  destruct (strchr_split c s) as [[a' b']|]; [|done]. injection E as <- <-. cbn. f_equal. by apply IH.
Qed.

Lemma nul_free_parts s a b c : nul_free s -> s = a ++ c :: b -> nul_free a /\ nul_free b.
Proof.
  intros Hs ->. unfold nul_free in *. rewrite not_elem_of_app, not_elem_of_cons in Hs. naive_solver.
Qed.

(** [strchr] finds the first separator: the head of the split. *)
Lemma split_on_spec c s :
  split_on c s = match strchr_split c s with Some (a, b) => a :: split_on c b | None => [s] end.
Proof.
  induction s as [|d s IH]; [done|]. cbn. destruct (Ascii.eqb d c); [done|].
  rewrite IH. by destruct (strchr_split c s) as [[a b]|].
Qed.

Section ParseSpec.
  Context `{Allocator A}.

(** The reference run over a list of pairs. *)
Inductive kv_steps : list (bytes * bytes) -> A -> A -> amap -> amap -> Prop :=
  | ks_nil st st' am : grows st st' -> kv_steps [] st st' am am
  | ks_add k v l st st1 st2 am am2 :
      grows st st1 -> clean k <> [] ->
      kv_steps l st1 st2 (a_add am (clean k) (Some (clean v))) am2 -> kv_steps ((k, v) :: l) st st2 am am2
  | ks_drop k v l st st1 st2 am am2 :
      grows st st1 -> clean k = [] \/ refused st st1 -> kv_steps l st1 st2 am am2 ->
      kv_steps ((k, v) :: l) st st2 am am2.

Lemma kv_steps_weaken l st0 st st' am am' : grows st0 st -> kv_steps l st st' am am' -> kv_steps l st0 st' am am'.
Proof.
  intros G S. destruct S as [st st' am G'|k v l st st1 st2 am am2 G' Hne S|k v l st st1 st2 am am2 G' Hd S].
  - apply ks_nil. by eapply grows_trans.
  - eapply ks_add; [by eapply grows_trans|done|done].
  - eapply ks_drop; [by eapply grows_trans| |done]. destruct Hd as [?|Hr]; [by left|right].
    eapply refused_weaken; [exact G|exact Hr|]. apply grows_refl, G'.
Qed.

Lemma kv_steps_grows l st st' am am' : kv_steps l st st' am am' -> grows st st'.
Proof. induction 1; [done|by eapply grows_trans..]. Qed.

(** What a list of pairs means when memory is never refused. *)
Definition kv_ref (am : amap) (p : bytes * bytes) : amap :=
  if decide (clean p.1 = []) then am else a_add am (clean p.1) (Some (clean p.2)).

Lemma kv_steps_exact l st st' am am' : kv_steps l st st' am am' -> refused st st' \/ am' = foldl kv_ref am l.
Proof.
  induction 1 as [st st' am G|k v l st st1 st2 am am2 G Hne S IH|k v l st st1 st2 am am2 G Hd S IH]; [by right| |].
  - destruct IH as [R| ->]; [left; by eapply refused_last|right]. cbn [foldl]. unfold kv_ref at 3. cbn [fst snd]. by rewrite decide_False.
  - destruct IH as [R| ->]; [left; by eapply refused_last|]. destruct Hd as [Ek|R].
    + right. cbn [foldl]. unfold kv_ref at 3. cbn [fst snd]. by rewrite decide_True.
    + left. eapply refused_first; [exact R|by eapply kv_steps_grows].
Qed.

(** The length of every decoded piece is bounded by the string's. *)
Lemma decode_length s : nul_free s -> (length (cstr (decode s)) <= length s)%nat.
Proof.
  intros Hs. destruct (csilk_url_decode_spec s [] Hs) as (j & _ & Hl). rewrite length_app in Hl.
  assert (forall d, (length (cstr d) <= length d)%nat) as Hc.
  { induction d as [|c d IH]; cbn; [done|]. destruct (Ascii.eqb c NUL); cbn; lia. }
  specialize (Hc (decode s)). lia.
Qed.

Lemma parse_segment_spec seg m st :
  kv_inv m st -> nul_free seg -> small seg ->
  exists m' st', parse_segment seg m st = Some (m', st') /\ kv_inv m' st' /\
    forall am, (forall k, kvals m k = am k) ->
      exists am', (forall k, kvals m' k = am' k) /\
        forall l st2 am2, kv_steps l st' st2 am' am2 ->
          kv_steps (match segment_pair seg with Some p => p :: l | None => l end) st st2 am am2.
Proof.
  intros Hm Hn Hs. unfold parse_segment, segment_pair.
  assert (exists k v, (match strchr_split "=" seg with Some kv => kv | None => (seg, []) end) = (k, v)
    /\ nul_free k /\ nul_free v /\ small k /\ small v) as (k & v & -> & Hnk & Hnv & Hsk & Hsv).
  { destruct (strchr_split "=" seg) as [[k v]|] eqn:E.
    - apply strchr_split_parts in E. destruct (nul_free_parts _ _ _ _ Hn E) as [? ?].
      exists k, v. unfold small in *. rewrite E, length_app in Hs. cbn [length] in Hs. split_and!; [done..|lia|lia].
    - exists seg, []. split_and!; [done..|apply not_elem_of_nil|done|]. by vm_compute. }
  destruct k as [|c k]; [exists m, st; split_and!; [done..|]; intros am Ham; by exists am|].
  rewrite (decode_cstr_spec (c :: k)) by done. cbn [mbind option_bind].
  assert ((match v with [] => Some [] | _ => decode_cstr v end) = Some (cstr (decode v))) as ->.
  { destruct v; [done|]. by rewrite decode_cstr_spec. }
  cbn [mbind option_bind]. set (dk := cstr (decode (c :: k))). set (dv := cstr (decode v)).
  destruct (map_kv_add m dk dv st) as [m' st'] eqn:E. exists m', st'.
  assert (small dk) by (unfold small in *; pose proof (decode_length (c :: k) Hnk); subst dk; lia).
  assert (small dv) by (unfold small in *; pose proof (decode_length v Hnv); subst dv; lia).
  apply map_kv_add_spec in E as (G & I & Hr); [|done|apply cstr_nul_free|done|done].
  split; [done|]. split; [done|]. intros am Ham. destruct Hr as [[V Hd]|[Hne V]].
  - exists am. split; [intros k0; by rewrite V|]. intros l st2 am2 S. by eapply ks_drop.
  - exists (a_add am (clean dk) (Some (clean dv))). split; [intros k0; rewrite V; unfold a_add; by rewrite Ham|].
    intros l st2 am2 S. by eapply ks_add.
Qed.

Lemma parse_pairs_spec fuel s m st am :
  (length s < fuel)%nat -> kv_inv m st -> nul_free s -> small s -> (forall k, kvals m k = am k) ->
  exists m' st' am', parse_key_value_pairs fuel s m st = Some (m', st') /\ kv_inv m' st' /\
    kv_steps (query_pairs s) st st' am am' /\ forall k, kvals m' k = am' k.
Proof.
  revert s m st am. induction fuel as [|fuel IH]; intros s m st am Hf Hm Hn Hs Ham; [lia|].
  cbn [parse_key_value_pairs]. destruct s as [|c s].
  { exists m, st, am. split_and!; [done..| |done]. apply ks_nil, grows_refl, Hm. }
  unfold query_pairs. rewrite split_on_spec. destruct (strchr_split "&" (c :: s)) as [[seg rest]|] eqn:E.
  - apply strchr_split_parts in E. destruct (nul_free_parts _ _ _ _ Hn E) as [Hn1 Hn2].
    assert (length (c :: s) = (length seg + S (length rest))%nat) as El by (rewrite E, length_app; done).
    destruct (parse_segment_spec seg m st Hm Hn1) as (m1 & st1 & E1 & I1 & H1); [unfold small in *; lia|].
    destruct (H1 am Ham) as (am1 & Ham1 & Hstep).
    destruct (IH rest m1 st1 am1) as (m2 & st2 & am2 & E2 & I2 & S & Ham2); [lia|done|done|unfold small in *; lia|done|].
    exists m2, st2, am2. rewrite E1. split_and!; [done..| |done]. cbn [omap list_omap].
    specialize (Hstep _ _ _ S). by destruct (segment_pair seg).
  - destruct (parse_segment_spec (c :: s) m st Hm Hn Hs) as (m1 & st1 & E1 & I1 & H1).
    destruct (H1 am Ham) as (am1 & Ham1 & Hstep).
    exists m1, st1, am1. rewrite E1. split_and!; [done..| |done]. cbn [omap list_omap].
    specialize (Hstep [] st1 am1 (ks_nil _ _ _ (grows_refl _ (proj1 I1)))). by destruct (segment_pair (c :: s)).
Qed.

End ParseSpec.

(** ** Printing a query *)

Definition print_pair (keep : ascii -> bool) (p : bytes * bytes) : bytes :=
  encode keep p.1 ++ "="%char :: encode keep p.2.

Fixpoint print_query (keep : ascii -> bool) (l : list (bytes * bytes)) : bytes :=
  match l with
  | [] => []
  | [p] => print_pair keep p
  | p :: l' => print_pair keep p ++ "&"%char :: print_query keep l'
  end.

(** An encoder that escapes the characters with a meaning in a query. *)
Definition query_safe (keep : ascii -> bool) : Prop :=
  keep "%"%char = false /\ keep "+"%char = false /\ keep "&"%char = false /\ keep "="%char = false.

Lemma segment_pair_print keep k v :
  query_safe keep -> k <> [] -> nul_free k -> nul_free v -> segment_pair (print_pair keep (k, v)) = Some (k, v).
Proof.
  intros (Hp & Hq & _ & He) Hne Hk Hv. unfold segment_pair, print_pair. cbn [fst snd].
  rewrite strchr_split_found by by apply encode_avoids.
  assert (encode keep k <> []) as Hne'.
  { intros E. apply Hne. apply (f_equal decode) in E. by rewrite decode_encode in E. }
  destruct (encode keep k) as [|c k'] eqn:E; [done|]. rewrite <- E, !decode_encode by done.
  by rewrite !cstr_id by done.
Qed.

Lemma query_pairs_print keep l :
  query_safe keep -> Forall (fun p => p.1 <> [] /\ nul_free p.1 /\ nul_free p.2) l ->
  query_pairs (print_query keep l) = l.
Proof.
  intros Hk Hl. induction Hl as [|[k v] l (Hne & Hnk & Hnv) Hl IH]; [done|]. cbn in Hne, Hnk, Hnv.
  assert ("&"%char ∉ print_pair keep (k, v)) as Hamp.
  { destruct Hk as (? & ? & ? & ?). unfold print_pair. rewrite not_elem_of_app, not_elem_of_cons.
    split_and!; [by apply encode_avoids|done|by apply encode_avoids]. }
  unfold query_pairs in *. rewrite split_on_spec. destruct l as [|p l].
  - cbn [print_query]. rewrite strchr_split_none by done. cbn [omap list_omap]. by rewrite segment_pair_print.
  - change (print_query keep ((k, v) :: p :: l))
      with (print_pair keep (k, v) ++ "&"%char :: print_query keep (p :: l)).
    rewrite strchr_split_found by done. cbn [omap list_omap]. rewrite segment_pair_print by done. by rewrite IH.
Qed.

Lemma print_query_nul_free keep l :
  Forall (fun p => nul_free p.1 /\ nul_free p.2) l -> nul_free (print_query keep l).
Proof.
  intros Hl. induction Hl as [|[k v] l [Hk Hv] Hl IH]; [by apply not_elem_of_nil|].
  assert (nul_free (print_pair keep (k, v))) as Hp.
  { unfold print_pair, nul_free. rewrite not_elem_of_app, not_elem_of_cons.
    split_and!; [by apply encode_nul_free|done|by apply encode_nul_free]. }
  destruct l as [|p l]; [done|].
  change (nul_free (print_pair keep (k, v) ++ "&"%char :: print_query keep (p :: l))).
  unfold nul_free. rewrite not_elem_of_app, not_elem_of_cons. by split_and!.
Qed.

Section Properties.
  Context `{Allocator A}.

Lemma empty_kv_inv (st : A) : al_ok st -> kv_inv empty_kv_map st.
Proof.
  intros Ho. split; [done|]. constructor; cbn; [constructor|by intros ? ? []%not_elem_of_nil|by intros ? [? []%lookup_empty_Some]].
Qed.

Lemma parse_query_spec s (st : A) :
  al_ok st -> nul_free s -> small s ->
  exists m st' am, csilk_parse_query (Some s) empty_kv_map st = Some (m, st') /\ grows st st' /\
    (kv_steps (query_pairs s) st st' (fun _ => []) am \/ refused st st' /\ am = fun _ => []) /\
    forall k, nul_free k -> map_kv_get m (Some k) = Some (hd None (am k)).
Proof.
  intros Ho Hn Hs. unfold csilk_parse_query. destruct s as [|c s].
  { exists empty_kv_map, st, (fun _ => []). split_and!; [done|by apply grows_refl| |].
    - left. apply ks_nil. by apply grows_refl.
    - intros k Hk. by rewrite (map_kv_get_spec _ _ _ (proj2 (empty_kv_inv st Ho)) Hk). }
  destruct (al_strndup (c :: s) st) as [qs st1] eqn:E. apply strndup_spec in E as [G1 [[-> Hr]| ->]]; [..|done|done].
  { exists empty_kv_map, st1, (fun _ => []). split_and!; [done|exact G1|by right|].
    intros k Hk. by rewrite (map_kv_get_spec _ _ _ (proj2 (empty_kv_inv st Ho)) Hk). }
  destruct (parse_pairs_spec (S (length (c :: s))) (c :: s) empty_kv_map st1 (fun _ => []))
    as (m & st2 & am & E2 & I2 & S & V); [lia|apply empty_kv_inv, G1|done..|].
  exists m, st2, am.
  split_and!; [done|eapply grows_trans; [exact G1|by eapply kv_steps_grows]|left; by eapply kv_steps_weaken|].
  intros k Hk. rewrite (map_kv_get_spec _ _ _ (proj2 I2) Hk). by rewrite V.
Qed.


(** printing and parsing. A list of pairs with non-empty names, printed
    with any encoder that escapes percent, plus, ampersand and equals, is
    parsed back to exactly that list of pairs. *)
Theorem query_roundtrip keep l (st : A) :
  al_ok st -> query_safe keep -> Forall (fun p => p.1 <> [] /\ nul_free p.1 /\ nul_free p.2) l ->
  small (print_query keep l) ->
  exists m st' am, csilk_parse_query (Some (print_query keep l)) empty_kv_map st = Some (m, st') /\
    (kv_steps l st st' (fun _ => []) am \/ refused st st' /\ am = fun _ => []) /\
    forall k, nul_free k -> map_kv_get m (Some k) = Some (hd None (am k)).
Proof.
  intros Ho Hk Hl Hs. destruct (parse_query_spec (print_query keep l) st Ho) as (m & st' & am & E & _ & S & V); [|done|].
  { apply print_query_nul_free. eapply Forall_impl; [exact Hl|]. naive_solver. }
  rewrite query_pairs_print in S by done. by exists m, st', am.
Qed.

End Properties.


Definition alnum (c : ascii) : bool :=
  let v := cval c in ((48 <=? v) && (v <=? 57)) || ((65 <=? v) && (v <=? 90)) || ((97 <=? v) && (v <=? 122)).

Lemma query_roundtrip_witness :
  exists m st', csilk_parse_query (Some (print_query alnum [(lit "q&a", lit "50% = x+y"); (lit "n", [])]))
      empty_kv_map demo_arena = Some (m, st') /\
    map_kv_get m (Some (lit "Q&A")) = Some (Some (lit "50% = x+y")).
Proof.
  destruct (query_roundtrip alnum [(lit "q&a", lit "50% = x+y"); (lit "n", [])] demo_arena demo_arena_ok)
    as (m & st' & am & E & _ & _).
  - by vm_compute.
  - repeat constructor; try done; apply (bool_decide_unpack _); by vm_compute.
  - by vm_compute.
  - exists m, st'. split; [exact E|]. vm_compute in E. injection E as <- <-. by vm_compute.
Defined.
