(* ===== verification/Regions.v ===== *)
(** * Regions of memory an allocator hands out

    [Allocator] speaks of pointers only.  Code that copies bytes into what it
    was given relies on more: a region is disjoint from the regions given before
    and from the blocks that other parts of the program hold.  [Regions] is that
    contract, and the arena of Arena.v is an instance of it. *)

From stdpp Require Import gmap.
From S2P Require Import Prelude Arena Allocator.

#[local] Open Scope Z_scope.

(** [b] lies in [c]. *)
Definition within (b c : Z * Z) : Prop := c.1 <= b.1 /\ b.1 + b.2 <= c.1 + c.2.

Class Regions (A : Type) `{Allocator A} := {
  al_regs : A -> list (Z * Z);
  al_foreign : A -> Z * Z -> Prop;
  al_regs_spec : forall n s p s',
    al_ok s -> 0 < n <= MAX_REQUEST -> al_alloc n s = (p, s') ->
    (forall b, al_foreign s b -> al_foreign s' b) /\
    ((p = 0 /\ al_regs s' = al_regs s) \/
     (0 < p /\ al_regs s' = (p, n) :: al_regs s /\ Forall (disj (p, n)) (al_regs s) /\
      forall b, al_foreign s b -> disj (p, n) b));
}.

(** ** The arena *)

(** A block of libc that neither the arena nor the cache of chunks owns. *)
Definition foreign_block (a : csilk_arena_t) (m : mem) (b : Z * Z) : Prop :=
  b ∈ live (hp m) /\ b.1 ∉ self a :: map caddr (head a ++ all_tls m).
Definition arena_foreign (t : traced) (b : Z * Z) : Prop :=
  exists L, foreign_block (r_arena (t_run t)) (r_mem (t_run t)) L /\ within b L.
Definition arena_regs (t : traced) : list (Z * Z) := r_regs (t_run t).

(** The address of the header is only copied, so the proofs about an arena hold
    for the same arena with a foreign block in the place of its header. *)
Definition set_self (a : csilk_arena_t) (s : Z) : csilk_arena_t :=
  mk_arena s (ptr a) (end_ a) (head a) (default_chunk_size a) (max_total_bytes a) (total_allocated a) (align_64 a).

Lemma sync_head_self a s : sync_head (set_self a s) = set_self (sync_head a) s.
Proof. unfold sync_head. cbn. by destruct (head a). Qed.

Lemma slow_set_self a s size al m :
  arena_alloc_slow (set_self a s) size al m =
  ('(p, a', m') ← arena_alloc_slow a size al m; Some (p, set_self a' s, m')).
Proof.
  unfold arena_alloc_slow. destruct (size >? _); [done|]. cbn zeta. cbn [ptr set_self].
  set (a1 := if negb (ptr a =? 0) then sync_head a else a).
  replace (if negb (ptr a =? 0) then sync_head (set_self a s) else set_self a s) with (set_self a1 s)
    by (unfold a1; rewrite sync_head_self; by destruct (negb _)).
  change (slow_chunk_size (set_self a1 s)) with (slow_chunk_size a1). cbn [max_total_bytes total_allocated set_self].
  destruct (_ >? SIZE_MAX - sizeof_chunk); [done|]. destruct (_ && _); [done|].
  destruct (take_chunk _ m) as [[c|] m1]; [|done]. destruct (_ >? SIZE_MAX - total_allocated a1); [|done].
  by destruct (release_chunk _ m1).
Qed.

Lemma alloc_set_self a s size m p a' m' :
  csilk_arena_alloc (Some a) size m = Some (p, Some a', m') ->
  csilk_arena_alloc (Some (set_self a s)) size m = Some (p, Some (set_self a' s), m').
Proof.
  unfold csilk_arena_alloc. cbn [align_64 ptr end_ set_self]. cbn zeta. rewrite !slow_set_self.
  destruct (size =? 0); [by intros [= <- <- <-]|]. destruct (negb (align_64 a)).
  - destruct (size >? _); [by intros [= <- <- <-]|]. destruct (_ && _); [by intros [= <- <- <-]|].
    destruct (arena_alloc_slow a size 8 m) as [[[p1 a1] m1]|]; [|done]. by intros [= <- <- <-].
  - destruct (size >? _); [by intros [= <- <- <-]|]. destruct (_ && _); [by intros [= <- <- <-]|].
    destruct (arena_alloc_slow a size 64 m) as [[[p1 a1] m1]|]; [|done]. by intros [= <- <- <-].
Qed.

Lemma set_self_wf a m b :
  arena_wf a m -> foreign_block a m b -> arena_wf (set_self a b.1) m.
Proof.
  intros [? ? [Hc Hx Hn] ? ? ? ?] [Hb Hf]. constructor; try done. apply not_elem_of_cons in Hf as [_ Hf].
  constructor; cbn; [done| |].
  - constructor; [|constructor]. exists b.2. by destruct b.
  - apply NoDup_cons. split; [done|]. by inversion Hn.
Qed.

(** A foreign block stays foreign, and no region is taken out of it. *)
Lemma foreign_alloc a m regs size b p a' m' :
  arena_wf a m -> regs_ok a regs -> 0 < size <= 2 ^ 62 -> foreign_block a m b ->
  csilk_arena_alloc (Some a) size m = Some (p, Some a', m') ->
  foreign_block a' m' b /\ (p <> 0 -> disj (p, size) b).
Proof.
  intros Hw Hr Hs Hb E. pose proof Hb as [Hlive Hni]. apply not_elem_of_cons in Hni as [Hself Hni].
  destruct (csilk_arena_alloc_spec _ _ _ _ Hw Hr Hs) as (p1 & a1 & m1 & E1 & P1). rewrite E in E1. injection E1 as <- <- <-.
  destruct (csilk_arena_alloc_spec (set_self a b.1) m regs size) as (p2 & a2 & m2 & E2 & P2);
    [by apply set_self_wf|by destruct Hr|done|].
  rewrite (alloc_set_self _ _ _ _ _ _ _ E) in E2. injection E2 as <- <- <-.
  pose proof (aw_owns _ _ (ap_wf _ _ _ _ _ _ _ _ P2)) as [Hch _ Hn]. cbn in Hn, Hch. apply NoDup_cons in Hn as [Hn _].
  assert (b ∈ live (hp m')) as Hl'.
  { apply (ap_keep _ _ _ _ _ _ _ _ P1); [done|]. intros Hin. apply Hni. rewrite map_app, elem_of_app. by right. }
  split; [split; [done|]|].
  - apply not_elem_of_cons. split; [|done]. by rewrite (proj1 (ap_self _ _ _ _ _ _ _ _ P1)).
  - intros Hp. destruct (ap_result _ _ _ _ _ _ _ _ P1) as [[? _]|(_ & _ & [Hu _])]; [done|].
    apply Forall_cons in Hu as [Hu _].
    destruct (in_use_chunk _ _ _ (ap_wf _ _ _ _ _ _ _ _ P1) Hu) as (c & Hc & H1 & H2). cbn [fst snd] in *.
    rewrite Forall_app in Hch. destruct Hch as [Hch _]. rewrite Forall_forall in Hch.
    destruct (Hch _ Hc) as (sz & Hsz & Hle & _).
    destruct (hw_disj _ (aw_heap _ _ (ap_wf _ _ _ _ _ _ _ _ P1)) _ _ Hsz Hl') as [<-|Hd].
    + exfalso. apply Hn. cbn. rewrite map_app, elem_of_app. left. by apply list_elem_of_fmap_2.
    + unfold disj, cdata, sizeof_chunk in *. cbn in *. lia.
Qed.

Lemma arena_regs_spec n t p t' :
  al_ok t -> 0 < n <= MAX_REQUEST -> arena_request n t = (p, t') ->
  (forall b, arena_foreign t b -> arena_foreign t' b) /\
  ((p = 0 /\ arena_regs t' = arena_regs t) \/
   (0 < p /\ arena_regs t' = (p, n) :: arena_regs t /\ Forall (disj (p, n)) (arena_regs t) /\
    forall b, arena_foreign t b -> disj (p, n) b)).
Proof.
  destruct t as [r log]. unfold arena_foreign, arena_regs. cbn [t_run].
  intros [base [Hw Hg Hd Ha]] Hn E. unfold arena_request in E. cbn [t_run t_log] in Hw, Hg, Hd, Ha, E.
  destruct (csilk_arena_alloc_spec _ _ _ n Hw Hg Hn) as (q & a' & m' & Ea & P).
  rewrite Ea in E. injection E as <- <-. cbn [t_run r_arena r_mem r_regs].
  pose proof (fun b Hb => foreign_alloc _ _ _ _ b _ _ _ Hw Hg Hn Hb Ea) as Hf. split.
  { intros b (L & HL & Hin). exists L. split; [by apply Hf|done]. }
  destruct (ap_result _ _ _ _ _ _ _ _ P) as [[-> _]|(Hnz & _ & Hr)]; [by left|]. right.
  rewrite (proj2 (Z.eqb_neq q 0)) by done. destruct (ro_sep _ _ Hr) as (_ & Hsep & _).
  split; [|split; [done|split; [done|]]].
  - pose proof (ro_use _ _ Hr) as Hu. apply Forall_cons in Hu as [Hu _].
    destruct (in_use_chunk _ _ _ (ap_wf _ _ _ _ _ _ _ _ P) Hu) as (c & Hc & H1 & H2). cbn [fst snd] in *.
    pose proof (aw_owns _ _ (ap_wf _ _ _ _ _ _ _ _ P)) as [Hch _ _]. rewrite Forall_app in Hch. destruct Hch as [Hch _].
    rewrite Forall_forall in Hch. destruct (owned_data_range _ _ (aw_heap _ _ (ap_wf _ _ _ _ _ _ _ _ P)) (Hch _ Hc)). lia.
  - intros b (L & HL & [H1 H2]). destruct (Hf L HL) as [_ Hdis]. destruct (Hdis Hnz); [left|right]; cbn in *; lia.
Qed.

#[export] Instance arena_regions : Regions traced := {
  al_regs := arena_regs;
  al_foreign := arena_foreign;
  al_regs_spec := arena_regs_spec;
}.
