(* ===== verification/HttpRequest.v ===== *)
(** * From the bytes of a request to the request context

    Models the llhttp callbacks of src/src/core/http/http1_parse.c: the views of
    the URL and of the current header that point into the receive buffers, their
    extension in place or their copy into the arena when a buffer boundary cuts
    them, the limits, and [finalize_request].  The reads that feed the parser are
    those of [on_read] (src/src/core/server/connection_io.c), which keeps the
    buffer for the length of the request, and of [process_tls_read]
    (src/src/core/http/tls.c), which decrypts into the arena.

    llhttp is not part of the sources: which callbacks it makes, and where it
    cuts, are choices of the sequence of events.  Memory is one address space;
    an access outside the registered buffers and the regions of the arena has
    no result ([None]).  Headers and parameters are the maps of HeaderMap.v,
    bodies are in BodyPool.v. *)

From stdpp Require Import gmap.
From S2P Require Import Prelude Arena Allocator Regions Url HeaderId HeaderMap Query.

#[local] Open Scope Z_scope.

(** [csilk_str_view_t]; the null view has address 0. *)
Record csilk_str_view_t := mk_view { vdata : Z; vlen : Z }.
Definition null_view : csilk_str_view_t := mk_view 0 0.
Definition is_null (v : csilk_str_view_t) : bool := vdata v =? 0.

Inductive llhttp_errno := HPE_OK | HPE_USER.

(** [llhttp_method_t]: the methods that [finalize_request] names, or another one. *)
Inductive llhttp_method :=
  | HTTP_GET | HTTP_POST | HTTP_PUT | HTTP_DELETE | HTTP_HEAD | HTTP_OPTIONS | HTTP_PATCH
  | HTTP_OTHER (n : Z).

(** What happens on a connection, in order.  [EBuf b data]: the loop has read
    [data] into the buffer [b] and [on_read] has registered it.  [ETls data]:
    [process_tls_read] has decrypted [data].  The others are the callbacks of
    llhttp; a span is given by its offset in the bytes last read. *)
Inductive event :=
  | EBuf (b : Z * Z) (data : bytes)
  | ETls (data : bytes)
  | EBegin
  | EUrl (off n : nat)
  | EField (off n : nat)
  | EFieldDone
  | EValue (off n : nat)
  | EValueDone
  | EHeadersDone
  | EComplete (m : llhttp_method).

Definition TLS_READ : Z := 4096.

Section Parser.
  Context `{Regions A}.
  (** The limits of the server's configuration (0: no limit, but for
      [max_header], which the getter never answers with 0). *)
  Context (max_url max_header max_count : Z).
  Context (llhttp_method_name : Z -> bytes).

(** ** Memory *)

(** [cur] is the buffer that [llhttp_execute] was called with. *)
Record memory := mk_memory {
  cells : Z -> ascii;
  bufs : list (Z * Z);
  arena : A;
  cur : Z;
}.

Definition inside (p : Z) (b : Z * Z) : bool := (b.1 <=? p) && (p <? b.1 + b.2).

Definition load (w : memory) (p : Z) : option ascii :=
  if existsb (inside p) (bufs w ++ al_regs (arena w)) then Some (cells w p) else None.

Fixpoint load_bytes (w : memory) (p : Z) (n : nat) : option bytes :=
  match n with
  | O => Some []
  | S n' => x ← load w p; s ← load_bytes w (p + 1) n'; Some (x :: s)
  end.

Definition put (w : memory) (p : Z) (x : ascii) : memory :=
  mk_memory (fun q => if q =? p then x else cells w q) (bufs w) (arena w) (cur w).

Fixpoint store_bytes (w : memory) (p : Z) (s : bytes) : option memory :=
  match s with
  | [] => Some w
  | x :: s' =>
      if existsb (inside p) (bufs w ++ al_regs (arena w)) then store_bytes (put w p x) (p + 1) s' else None
  end.

Definition with_arena (w : memory) (st : A) : memory := mk_memory (cells w) (bufs w) st (cur w).

(** [memcpy]. *)
Definition copy (w : memory) (dst src : Z) (n : Z) : option memory :=
  s ← load_bytes w src (Z.to_nat n); store_bytes w dst s.

(** A span that does not follow the view in memory: view and span are copied
    to the arena; header fields and values get a terminator there. *)
Definition join_view (terminate : bool) (w : memory) (v : csilk_str_view_t) (at_ length : Z)
  : option (option csilk_str_view_t * memory) :=
  let '(p, st) := al_alloc (wrap64 (vlen v + length + 1)) (arena w) in
  let w := with_arena w st in
  if p =? 0 then Some (None, w) else
  w ← copy w p (vdata v) (vlen v);
  w ← copy w (p + vlen v) at_ length;
  w ← (if terminate then store_bytes w (p + (vlen v + length)) [NUL] else Some w);
  Some (Some (mk_view p (wrap64 (vlen v + length))), w).

(** A further span of a view that is not null. *)
Definition extend_view (terminate : bool) (w : memory) (v : csilk_str_view_t) (at_ length : Z)
  : option (option csilk_str_view_t * memory) :=
  if at_ =? vdata v + vlen v then Some (Some (mk_view (vdata v) (wrap64 (vlen v + length))), w)
  else join_view terminate w v at_ length.

(** ** The client *)

Record client := mk_client {
  mm : memory;
  current_url : csilk_str_view_t;
  current_header_field : csilk_str_view_t;
  current_header_value : csilk_str_view_t;
  header_field_completed : bool;
  total_header_size : Z;
  header_count : Z;
  req_headers : csilk_header_map_t;
  query_params : csilk_kv_map_t;
  path : option bytes;
  method : option bytes;
}.

Definition set_mm (c : client) (w : memory) : client :=
  mk_client w (current_url c) (current_header_field c) (current_header_value c) (header_field_completed c)
    (total_header_size c) (header_count c) (req_headers c) (query_params c) (path c) (method c).
Definition set_url (c : client) (v : csilk_str_view_t) : client :=
  mk_client (mm c) v (current_header_field c) (current_header_value c) (header_field_completed c)
    (total_header_size c) (header_count c) (req_headers c) (query_params c) (path c) (method c).
Definition set_field (c : client) (v : csilk_str_view_t) : client :=
  mk_client (mm c) (current_url c) v (current_header_value c) (header_field_completed c)
    (total_header_size c) (header_count c) (req_headers c) (query_params c) (path c) (method c).
Definition set_val (c : client) (v : csilk_str_view_t) : client :=
  mk_client (mm c) (current_url c) (current_header_field c) v (header_field_completed c)
    (total_header_size c) (header_count c) (req_headers c) (query_params c) (path c) (method c).
Definition set_completed (c : client) (b : bool) : client :=
  mk_client (mm c) (current_url c) (current_header_field c) (current_header_value c) b
    (total_header_size c) (header_count c) (req_headers c) (query_params c) (path c) (method c).
Definition set_total (c : client) (n : Z) : client :=
  mk_client (mm c) (current_url c) (current_header_field c) (current_header_value c) (header_field_completed c)
    n (header_count c) (req_headers c) (query_params c) (path c) (method c).
Definition set_count (c : client) (n : Z) : client :=
  mk_client (mm c) (current_url c) (current_header_field c) (current_header_value c) (header_field_completed c)
    (total_header_size c) n (req_headers c) (query_params c) (path c) (method c).
Definition set_headers (c : client) (h : csilk_header_map_t) (st : A) : client :=
  mk_client (with_arena (mm c) st) (current_url c) (current_header_field c) (current_header_value c)
    (header_field_completed c) (total_header_size c) (header_count c) h (query_params c) (path c) (method c).
Definition set_query (c : client) (q : csilk_kv_map_t) (st : A) : client :=
  mk_client (with_arena (mm c) st) (current_url c) (current_header_field c) (current_header_value c)
    (header_field_completed c) (total_header_size c) (header_count c) (req_headers c) q (path c) (method c).
Definition set_path (c : client) (p : option bytes) : client :=
  mk_client (mm c) (current_url c) (current_header_field c) (current_header_value c) (header_field_completed c)
    (total_header_size c) (header_count c) (req_headers c) (query_params c) p (method c).
Definition set_method (c : client) (m : bytes) : client :=
  mk_client (mm c) (current_url c) (current_header_field c) (current_header_value c) (header_field_completed c)
    (total_header_size c) (header_count c) (req_headers c) (query_params c) (path c) (Some m).

Definition read_view (c : client) (v : csilk_str_view_t) : option bytes :=
  load_bytes (mm c) (vdata v) (Z.to_nat (vlen v)).

(** [_csilk_persist_header]: [v] is [None] for the empty literal. *)
Definition _csilk_persist_header (c : client) (field : csilk_str_view_t) (v : option csilk_str_view_t) : option client :=
  if is_null field then Some c else
  k ← read_view c field;
  s ← (match v with Some v => read_view c v | None => Some [] end);
  '(h, st) ← map_set_view (req_headers c) k s (arena (mm c));
  Some (set_headers c h st).

(** The block that four functions share: hand the pending header over. *)
Definition flush_header (c : client) : option client :=
  if is_null (current_header_field c) then Some c else
  c ← _csilk_persist_header c (current_header_field c)
        (if is_null (current_header_value c) then None else Some (current_header_value c));
  Some (set_val (set_field c null_view) null_view).

(** ** The callbacks *)

Definition on_message_begin (c : client) : client :=
  set_val (set_field (set_completed (set_count (set_total c 0) 0) false) null_view) null_view.

Definition on_url (c : client) (at_ length : Z) : option (llhttp_errno * client) :=
  if (0 <? max_url) && (max_url <? length) then Some (HPE_USER, set_url c null_view)
  else if is_null (current_url c) then Some (HPE_OK, set_url c (mk_view at_ length))
  else
    '(r, w) ← extend_view false (mm c) (current_url c) at_ length;
    let c := set_mm c w in
    match r with
    | Some v => Some (HPE_OK, set_url c v)
    | None => Some (HPE_USER, set_url c null_view)
    end.

Definition on_header_field (c : client) (at_ length : Z) : option (llhttp_errno * client) :=
  let c := set_total c (wrap64 (total_header_size c + length)) in
  if max_header <? total_header_size c then Some (HPE_USER, c) else
  c ← (if header_field_completed c
       then c ← flush_header c; Some (set_completed c false)
       else Some c);
  if is_null (current_header_field c) then
    let c := set_count c (wrap64 (header_count c + 1)) in
    if (0 <? max_count) && (max_count <? header_count c) then Some (HPE_USER, c)
    else Some (HPE_OK, set_val (set_field c (mk_view at_ length)) null_view)
  else
    '(r, w) ← extend_view true (mm c) (current_header_field c) at_ length;
    let c := set_mm c w in
    match r with
    | Some v => Some (HPE_OK, set_field c v)
    | None => Some (HPE_USER, set_field c null_view)
    end.

Definition on_header_field_complete (c : client) : client := set_completed c true.

Definition on_header_value (c : client) (at_ length : Z) : option (llhttp_errno * client) :=
  let c := set_total c (wrap64 (total_header_size c + length)) in
  if max_header <? total_header_size c then Some (HPE_USER, set_val (set_field c null_view) null_view) else
  if is_null (current_header_value c) then Some (HPE_OK, set_val c (mk_view at_ length))
  else
    '(r, w) ← extend_view true (mm c) (current_header_value c) at_ length;
    let c := set_mm c w in
    match r with
    | Some v => Some (HPE_OK, set_val c v)
    | None => Some (HPE_USER, set_val c null_view)
    end.

Definition on_header_value_complete (c : client) : option client := flush_header (set_completed c false).
Definition on_headers_complete (c : client) : option client := flush_header (set_completed c false).

(** ** Finalization *)

(** The arena copy of [s] with its terminator, decoded: [request.path]. *)
Definition make_path (c : client) (s : bytes) : option client :=
  let '(p, st) := al_alloc (wrap64 (Z.of_nat (length s) + 1)) (arena (mm c)) in
  let c := set_mm c (with_arena (mm c) st) in
  if p =? 0 then Some c else d ← decode_cstr (cstr s); Some (set_path c (Some d)).

Definition make_query (c : client) (s : bytes) : option client :=
  let '(p, st) := al_alloc (wrap64 (Z.of_nat (length s) + 1)) (arena (mm c)) in
  let c := set_mm c (with_arena (mm c) st) in
  if p =? 0 then Some c else
  '(q, st) ← csilk_parse_query (Some (cstr s)) (query_params c) (arena (mm c));
  Some (set_query c q st).

Definition method_name (m : llhttp_method) : bytes :=
  match m with
  | HTTP_GET => lit "GET"
  | HTTP_POST => lit "POST"
  | HTTP_PUT => lit "PUT"
  | HTTP_DELETE => lit "DELETE"
  | HTTP_HEAD => lit "HEAD"
  | HTTP_OPTIONS => lit "OPTIONS"
  | HTTP_PATCH => lit "PATCH"
  | HTTP_OTHER n => llhttp_method_name n
  end.

(** [memchr(udata, '?', ulen)] cuts the view at the first question mark. *)
Definition finalize_request (c : client) (m : llhttp_method) : option client :=
  c ← flush_header c;
  let c := set_completed c false in
  c ← (if is_null (current_url c) || (vlen (current_url c) =? 0) then Some c
       else
         udata ← read_view c (current_url c);
         c ← (match strchr_split "?" udata with
              | None => make_path c udata
              | Some (p, q) => c ← make_path c p; make_query c q
              end);
         Some (set_url c null_view));
  Some (set_method c (method_name m)).

(** ** The run of a connection *)

(** [on_read] registers its buffer; its bytes are in memory. *)
Definition on_read_buffer (c : client) (b : Z * Z) (data : bytes) : option client :=
  let w := mk_memory (cells (mm c)) (bufs (mm c) ++ [b]) (arena (mm c)) b.1 in
  w ← store_bytes w b.1 data; Some (set_mm c w).

(** One round of [process_tls_read]; without memory the connection is closed. *)
Definition process_tls_read (c : client) (data : bytes) : option (llhttp_errno * client) :=
  let '(p, st) := al_alloc TLS_READ (arena (mm c)) in
  let w := mk_memory (cells (mm c)) (bufs (mm c)) st p in
  if p =? 0 then Some (HPE_USER, set_mm c w) else
  w ← store_bytes w p data; Some (HPE_OK, set_mm c w).

Definition step (e : event) (c : client) : option (llhttp_errno * client) :=
  let at_ off := cur (mm c) + Z.of_nat off in
  let ok c := Some (HPE_OK, c) in
  match e with
  | EBuf b data => c ← on_read_buffer c b data; ok c
  | ETls data => process_tls_read c data
  | EBegin => ok (on_message_begin c)
  | EUrl off n => on_url c (at_ off) (Z.of_nat n)
  | EField off n => on_header_field c (at_ off) (Z.of_nat n)
  | EFieldDone => ok (on_header_field_complete c)
  | EValue off n => on_header_value c (at_ off) (Z.of_nat n)
  | EValueDone => c ← on_header_value_complete c; ok c
  | EHeadersDone => c ← on_headers_complete c; ok c
  | EComplete m => c ← finalize_request c m; ok c
  end.

(** The parser stops at the first callback that does not answer [HPE_OK]. *)
Fixpoint run_events (l : list event) (c : client) : option (llhttp_errno * client) :=
  match l with
  | [] => Some (HPE_OK, c)
  | e :: l' =>
      '(v, c1) ← step e c;
      match v with HPE_OK => run_events l' c1 | HPE_USER => Some (HPE_USER, c1) end
  end.

(** A client whose context was initialised and that has read nothing. *)
Definition new_client (st : A) : client :=
  mk_client (mk_memory (fun _ => NUL) [] st 0) null_view null_view null_view false 0 0
    empty_map empty_kv_map None None.

(** ** Memory: what a store keeps *)

Definition readable (w : memory) (p : Z) : Prop := existsb (inside p) (bufs w ++ al_regs (arena w)) = true.

Lemma readable_spec w p : readable w p <-> exists b, (b ∈ bufs w \/ b ∈ al_regs (arena w)) /\ b.1 <= p < b.1 + b.2.
Proof.
  unfold readable. rewrite existsb_exists. split; intros (b & Hb & Hi); exists b.
  - apply list_elem_of_In, elem_of_app in Hb. split; [done|]. apply andb_prop in Hi. lia.
  - split; [by apply list_elem_of_In, elem_of_app|]. apply andb_true_intro. lia.
Qed.

Lemma load_some w p x : load w p = Some x <-> readable w p /\ cells w p = x.
Proof. unfold load, readable. destruct (existsb _ _); naive_solver. Qed.

Lemma load_bytes_length w p n s : load_bytes w p n = Some s -> length s = n.
Proof.
  revert p s. induction n as [|n IH]; intros p s E; [by injection E as <-|]. cbn [load_bytes] in E.
  destruct (load w p) as [x|]; [|done]. destruct (load_bytes w (p + 1) n) as [t|] eqn:Et; [|done].
  injection E as <-. cbn. f_equal. by eapply IH.
Qed.

Lemma load_bytes_app w p n m s t :
  load_bytes w p n = Some s -> load_bytes w (p + Z.of_nat n) m = Some t -> load_bytes w p (n + m) = Some (s ++ t).
Proof.
  revert p s. induction n as [|n IH]; intros p s E Et; [injection E as <-; by rewrite Z.add_0_r in Et|].
  cbn [load_bytes Nat.add] in *. destruct (load w p) as [x|]; [|done].
  destruct (load_bytes w (p + 1) n) as [s1|] eqn:E1; [|done]. injection E as <-. run_binds.
  rewrite (IH (p + 1) s1 E1); [done|]. rewrite <- Et. f_equal. lia.
Qed.

Lemma load_bytes_split w p n m s :
  load_bytes w p (n + m) = Some s ->
  load_bytes w p n = Some (take n s) /\ load_bytes w (p + Z.of_nat n) m = Some (drop n s).
Proof.
  revert p s. induction n as [|n IH]; intros p s E; [by rewrite Z.add_0_r|]. cbn [load_bytes Nat.add] in *.
  destruct (load w p) as [x|]; [|done]. destruct (load_bytes w (p + 1) (n + m)) as [t|] eqn:Et; [|done].
  injection E as <-. apply IH in Et as [E1 E2]. run_binds. rewrite E1. split; [done|]. cbn [drop]. rewrite <- E2. f_equal. lia.
Qed.

(** A span of what a buffer holds. *)
Lemma load_bytes_sub w p d off n :
  load_bytes w p (length d) = Some d -> (off + n <= length d)%nat ->
  load_bytes w (p + Z.of_nat off) n = Some (take n (drop off d)).
Proof.
  intros E Hn. replace (length d) with (off + (n + (length d - off - n)))%nat in E by lia.
  apply load_bytes_split in E as [_ E]. by apply load_bytes_split in E as [E _].
Qed.

Lemma load_bytes_keep w w' p n s :
  (forall q x, p <= q < p + Z.of_nat n -> load w q = Some x -> load w' q = Some x) ->
  load_bytes w p n = Some s -> load_bytes w' p n = Some s.
Proof.
  revert p s. induction n as [|n IH]; intros p s Hk E; [done|]. cbn [load_bytes] in *.
  destruct (load w p) as [x|] eqn:Ex; [|done]. rewrite (Hk p x) by (done || lia). run_binds.
  destruct (load_bytes w (p + 1) n) as [t|] eqn:Et; [|done]. injection E as <-. rewrite (IH (p + 1) t); [done| |done].
  intros q y Hq. apply Hk. lia.
Qed.

Lemma load_bytes_readable w p n s q : load_bytes w p n = Some s -> p <= q < p + Z.of_nat n -> readable w q.
Proof.
  revert p s. induction n as [|n IH]; intros p s E Hq; [lia|]. cbn [load_bytes] in E.
  destruct (load w p) as [x|] eqn:Ex; [|done]. destruct (load_bytes w (p + 1) n) as [t|] eqn:Et; [|done].
  destruct (decide (q = p)) as [->|]; [by apply load_some in Ex as [? _]|]. eapply IH; [done|lia].
Qed.

(** Everything but the cells from [p] on is as before. *)
Record frame (p n : Z) (w w' : memory) : Prop := {
  fr_bufs : bufs w' = bufs w;
  fr_arena : arena w' = arena w;
  fr_cur : cur w' = cur w;
  fr_cells : forall q, ~ (p <= q < p + n) -> cells w' q = cells w q;
}.

Lemma frame_readable p n w w' q : frame p n w w' -> readable w' q <-> readable w q.
Proof. intros [Eb Ea _ _]. unfold readable. by rewrite Eb, Ea. Qed.

Lemma frame_load p n w w' a k s :
  frame p n w w' -> (forall q, a <= q < a + Z.of_nat k -> readable w q -> ~ (p <= q < p + n)) ->
  load_bytes w a k = Some s -> load_bytes w' a k = Some s.
Proof.
  intros F Hd. apply load_bytes_keep. intros q x Hq [Hr Hc]%load_some. apply load_some.
  split; [by rewrite (frame_readable _ _ _ _ _ F)|]. rewrite (fr_cells _ _ _ _ F); [done|]. by apply Hd.
Qed.

Lemma store_spec w p s :
  (forall q, p <= q < p + Z.of_nat (length s) -> readable w q) ->
  exists w', store_bytes w p s = Some w' /\ frame p (Z.of_nat (length s)) w w' /\
    load_bytes w' p (length s) = Some s.
Proof.
  revert w p. induction s as [|x s IH]; intros w p Hr; [by exists w|].
  cbn [store_bytes]. cbn [length] in *. rewrite (Hr p) by lia.
  destruct (IH (put w p x) (p + 1)) as (w' & E & F & L). { intros q Hq. apply (Hr q). lia. }
  exists w'. split; [done|]. destruct F as [Eb Ea Ec Fc]. split; [constructor; [done..|]|].
  - intros q Hq. rewrite Fc by lia. cbn. destruct (Z.eqb_spec q p); [lia|done].
  - cbn [load_bytes]. assert (load w' p = Some x) as ->; [|run_binds; by rewrite L].
    apply load_some. split; [unfold readable; rewrite Eb, Ea; apply (Hr p); lia|].
    rewrite Fc by lia. cbn. by rewrite Z.eqb_refl.
Qed.

(** ** What the arena promises here *)

Record regs_grow (st st' : A) : Prop := {
  rg_grows : grows st st';
  rg_foreign : forall b, al_foreign st b -> al_foreign st' b;
  rg_regs : forall r, r ∈ al_regs st -> r ∈ al_regs st';
  rg_sep : forall b, al_foreign st b -> Forall (disj b) (al_regs st) -> Forall (disj b) (al_regs st');
}.

Lemma regs_grow_refl st : al_ok st -> regs_grow st st.
Proof. intros Ho. constructor; auto. by apply grows_refl. Qed.

Lemma regs_grow_trans st1 st2 st3 : regs_grow st1 st2 -> regs_grow st2 st3 -> regs_grow st1 st3.
Proof. intros [? ? ? ?] [? ? ? ?]. constructor; auto. by eapply grows_trans. Qed.

Lemma disj_sym x y : disj x y -> disj y x.
Proof. unfold disj. lia. Qed.

Lemma alloc_regs n st p st' :
  al_ok st -> 0 < n <= MAX_REQUEST -> al_alloc n st = (p, st') ->
  regs_grow st st' /\ ((p = 0 /\ refused st st') \/
    (0 < p /\ (p, n) ∈ al_regs st' /\ Forall (disj (p, n)) (al_regs st) /\ forall b, al_foreign st b -> disj (p, n) b)).
Proof.
  intros Ho Hn E. destruct (alloc_grows _ _ _ _ Ho Hn E) as [G Hg].
  destruct (al_regs_spec _ _ _ _ Ho Hn E) as [Hf [[-> Er]|(Hp & Er & Hd & Hb)]].
  - split; [constructor; [done|done|by rewrite Er|by rewrite Er]|]. left. split; [done|]. by destruct Hg as [[_ ?]|[? _]].
  - split.
    + constructor; [done|done|intros r Hr; rewrite Er; by right|].
      intros b Hfb Hs. rewrite Er. constructor; [|done]. by apply disj_sym, Hb.
    + right. rewrite Er. split; [done|]. split; [by left|done].
Qed.

Lemma strndup_regs s st r st' : al_ok st -> small s -> al_strndup s st = (r, st') -> regs_grow st st'.
Proof.
  intros Ho Hs E. unfold al_strndup in E. destruct (al_alloc _ st) as [p st1] eqn:Ea. injection E as <- <-.
  unfold small in Hs. by apply alloc_regs in Ea as [G _]; [|done|lia].
Qed.

Lemma map_set_view_regs m k v st m' st' :
  al_ok st -> small k -> small v -> map_set_view m k v st = Some (m', st') -> regs_grow st st'.
Proof.
  intros Ho Hk Hv E. unfold map_set_view in E. cbn zeta in E.
  assert (forall r st1, al_strndup v st = (r, st1) -> regs_grow st st1) as Hd by (intros r st1; by apply strndup_regs).
  destruct (if decide _ then _ else _) as [a|].
  { destruct (al_strndup v st) as [v' st1] eqn:Ev. injection E as <- <-. by eapply Hd. }
  destruct (chain_find _ _ _ _) as [[a|]|]; [|clear Hd|done]; cbn in E.
  { destruct (al_strndup v st) as [v' st1] eqn:Ev. injection E as <- <-. by eapply Hd. }
  destruct (al_alloc sizeof_header st) as [p st1] eqn:Ea.
  apply alloc_regs in Ea as [G1 _]; [|done|by unfold sizeof_header, MAX_REQUEST].
  destruct (p =? 0); [by injection E as <- <-|].
  destruct (al_strndup k st1) as [k' st2] eqn:E2. destruct (al_strndup v st2) as [v' st3] eqn:E3. injection E as <- <-.
  apply strndup_regs in E2; [|apply G1|done]. apply strndup_regs in E3; [|apply E2|done].
  by eapply regs_grow_trans; [|eapply regs_grow_trans].
Qed.

(** [blocks]: the receive buffers, those registered and those to come. *)
Record mem_ok (blocks : list (Z * Z)) (w : memory) : Prop := {
  mo_ok : al_ok (arena w);
  mo_blocks : Forall (fun b => 0 < b.1 /\ al_foreign (arena w) b /\ Forall (disj b) (al_regs (arena w))) blocks;
  mo_bufs : forall b, b ∈ bufs w -> b ∈ blocks;
}.

(** The memory has grown and nothing that could be read has changed. *)
Record evolves (blocks : list (Z * Z)) (w w' : memory) : Prop := {
  ev_ok : mem_ok blocks w';
  ev_grows : grows (arena w) (arena w');
  ev_bufs : bufs w' = bufs w;
  ev_cur : cur w' = cur w;
  ev_load : forall p n s, load_bytes w p n = Some s -> load_bytes w' p n = Some s;
}.

Lemma evolves_refl blocks w : mem_ok blocks w -> evolves blocks w w.
Proof. intros Hw. constructor; auto. apply grows_refl, Hw. Qed.

Lemma evolves_trans blocks w1 w2 w3 : evolves blocks w1 w2 -> evolves blocks w2 w3 -> evolves blocks w1 w3.
Proof. intros [? G1 B1 C1 ?] [? G2 B2 C2 ?]. constructor; [done|by eapply grows_trans|by rewrite B2|by rewrite C2|auto]. Qed.

Lemma mem_ok_arena blocks w st : mem_ok blocks w -> regs_grow (arena w) st -> mem_ok blocks (with_arena w st).
Proof.
  intros [Ho Hb Hi] G. constructor; [apply G| |done]. eapply Forall_impl; [exact Hb|].
  intros b (Hp & Hf & Hs). split; [done|]. split; [by apply G|by apply (rg_sep _ _ G)].
Qed.

Lemma arena_evolves blocks w st : mem_ok blocks w -> regs_grow (arena w) st -> evolves blocks w (with_arena w st).
Proof.
  intros Hw G. constructor; [by apply mem_ok_arena|apply G|done|done|]. intros p n s. apply load_bytes_keep.
  intros q x _ [Hr Hc]%load_some. apply load_some. split; [|done]. apply readable_spec in Hr as (b & Hb & Hq).
  apply readable_spec. exists b. split; [|done]. destruct Hb as [?|?]; [by left|right; by apply G].
Qed.

Lemma frame_mem_ok blocks p n w w' : frame p n w w' -> mem_ok blocks w -> mem_ok blocks w'.
Proof. intros [Eb Ea _ _] [Ho Hb Hi]. constructor; rewrite ?Ea, ?Eb; done. Qed.

(** A fresh region holds no byte that could be read before. *)
Lemma fresh_unreadable blocks w n p st q :
  mem_ok blocks w -> 0 < n <= MAX_REQUEST -> al_alloc n (arena w) = (p, st) -> p <> 0 -> readable w q -> ~ (p <= q < p + n).
Proof.
  intros Hw Hn E Hp (b & Hb & Hq)%readable_spec Hin.
  destruct (alloc_regs _ _ _ _ (mo_ok _ _ Hw) Hn E) as [_ [[? _]|(_ & _ & Hd & Hf)]]; [done|].
  assert (disj (p, n) b) as [|]; [|cbn in *; lia..]. destruct Hb as [Hb|Hb].
  - apply Hf. apply (mo_bufs _ _ Hw) in Hb. pose proof (mo_blocks _ _ Hw) as HF. rewrite Forall_forall in HF.
    by apply (HF b Hb).
  - rewrite Forall_forall in Hd. by apply Hd.
Qed.

Lemma region_readable w p n q : (p, n) ∈ al_regs (arena w) -> p <= q < p + n -> readable w q.
Proof. intros Hr Hq. apply readable_spec. exists (p, n). split; [by right|done]. Qed.

Lemma copy_spec w p n dst src s :
  (p, n) ∈ al_regs (arena w) -> p <= dst -> dst + Z.of_nat (length s) <= p + n ->
  load_bytes w src (length s) = Some s ->
  exists w', copy w dst src (Z.of_nat (length s)) = Some w' /\ frame dst (Z.of_nat (length s)) w w' /\
    load_bytes w' dst (length s) = Some s.
Proof.
  intros Hr H1 H2 E. unfold copy. rewrite Nat2Z.id, E. run_binds. apply store_spec.
  intros q Hq. eapply region_readable; [done|lia].
Qed.

Definition holds (w : memory) (v : csilk_str_view_t) (o : option bytes) : Prop :=
  match o with
  | None => v = null_view
  | Some s => 0 < vdata v /\ vlen v = Z.of_nat (length s) /\ load_bytes w (vdata v) (length s) = Some s
  end.

Lemma holds_evolves blocks w w' v o : evolves blocks w w' -> holds w v o -> holds w' v o.
Proof. intros Hv. destruct o as [s|]; [|done]. intros (? & ? & ?). split; [done|]. split; [done|]. by apply Hv. Qed.

(** The outcome of one more span. *)
Definition extended (blocks : list (Z * Z)) (w : memory) (s : bytes) (r : option (option csilk_str_view_t * memory)) : Prop :=
  exists o w', r = Some (o, w') /\ evolves blocks w w' /\
    ((o = None /\ refused (arena w) (arena w')) \/ exists v, o = Some v /\ holds w' v (Some s)).

Lemma join_view_spec blocks t w v s at_ u :
  mem_ok blocks w -> holds w v (Some s) -> load_bytes w at_ (length u) = Some u ->
  Z.of_nat (length s) + Z.of_nat (length u) + 1 <= MAX_REQUEST ->
  extended blocks w (s ++ u) (join_view t w v at_ (Z.of_nat (length u))).
Proof.
  intros Hw (Hv & El & Es) Eu Hm. unfold join_view. rewrite El. unfold MAX_REQUEST in Hm.
  rewrite (wrap64_small (_ + 1)), wrap64_small by lia. set (n := _ + _ + 1) in *.
  destruct (al_alloc n (arena w)) as [p st] eqn:Ea.
  assert (0 < n <= MAX_REQUEST) as Hn by (unfold n, MAX_REQUEST; lia).
  destruct (alloc_regs _ _ _ _ (mo_ok _ _ Hw) Hn Ea) as [G [[-> Hr]|(Hp & Hreg & _)]].
  { exists None, (with_arena w st). split; [done|]. split; [by apply arena_evolves|]. by left. }
  rewrite (proj2 (Z.eqb_neq p 0)) by lia. set (w1 := with_arena w st).
  pose proof (arena_evolves _ _ _ Hw G : evolves blocks w w1) as V1.
  destruct (copy_spec w1 p n p (vdata v) s Hreg) as (w2 & -> & F2 & L2); [lia|lia|by apply V1|]. run_binds.
  assert (forall a k x, load_bytes w a k = Some x -> load_bytes w2 a k = Some x) as K2.
  { intros a k x E. eapply (frame_load _ _ _ _ _ _ _ F2); [|by apply V1]. intros q Hq _.
    pose proof (fresh_unreadable _ _ _ _ _ q Hw Hn Ea ltac:(lia) (load_bytes_readable _ _ _ _ _ E Hq)). lia. }
  destruct (copy_spec w2 p n (p + Z.of_nat (length s)) at_ u) as (w3 & -> & F3 & L3);
    [by rewrite (fr_arena _ _ _ _ F2)|lia|lia|by apply K2|]. run_binds.
  assert (load_bytes w3 p (length s + length u) = Some (s ++ u)) as L.
  { apply load_bytes_app; [|done]. eapply (frame_load _ _ _ _ _ _ _ F3); [|done]. lia. }
  assert (exists w4, (if t then store_bytes w3 (p + (Z.of_nat (length s) + Z.of_nat (length u))) [NUL] else Some w3) = Some w4 /\
    frame (p + (Z.of_nat (length s) + Z.of_nat (length u))) 1 w3 w4) as (w4 & -> & F4).
  { destruct t; [|by exists w3].
    destruct (store_spec w3 (p + (Z.of_nat (length s) + Z.of_nat (length u))) [NUL]) as (w4 & -> & F & _); [|by exists w4].
    intros q Hq. eapply (region_readable _ p n); [by rewrite (fr_arena _ _ _ _ F3), (fr_arena _ _ _ _ F2)|cbn in Hq; lia]. }
  run_binds. eexists _, w4. split; [done|]. split.
  - constructor.
    + do 3 (eapply frame_mem_ok; [done|]). apply V1.
    + rewrite (fr_arena _ _ _ _ F4), (fr_arena _ _ _ _ F3), (fr_arena _ _ _ _ F2). apply V1.
    + by rewrite (fr_bufs _ _ _ _ F4), (fr_bufs _ _ _ _ F3), (fr_bufs _ _ _ _ F2).
    + by rewrite (fr_cur _ _ _ _ F4), (fr_cur _ _ _ _ F3), (fr_cur _ _ _ _ F2).
    + intros a k x E. pose proof (fun q Hq => fresh_unreadable _ _ _ _ _ q Hw Hn Ea ltac:(lia) (load_bytes_readable _ _ _ _ _ E Hq)) as Hu.
      eapply (frame_load _ _ _ _ _ _ _ F4); [|eapply (frame_load _ _ _ _ _ _ _ F3); [|by apply K2]];
        intros q Hq _; specialize (Hu q Hq); lia.
  - right. eexists. split; [done|]. split; [done|]. cbn [vdata vlen]. rewrite length_app. split; [lia|].
    eapply (frame_load _ _ _ _ _ _ _ F4); [lia|done].
Qed.

Lemma extend_view_spec blocks t w v s at_ u :
  mem_ok blocks w -> holds w v (Some s) -> load_bytes w at_ (length u) = Some u ->
  Z.of_nat (length s) + Z.of_nat (length u) + 1 <= MAX_REQUEST ->
  extended blocks w (s ++ u) (extend_view t w v at_ (Z.of_nat (length u))).
Proof.
  intros Hw Hv Eu Hm. unfold extend_view. destruct (Z.eqb_spec at_ (vdata v + vlen v)) as [->|]; [|by apply join_view_spec].
  eexists _, w. split; [done|]. split; [by apply evolves_refl|]. right. eexists. split; [done|].
  destruct Hv as (Hp & El & Es). unfold MAX_REQUEST in Hm. cbn [holds vdata vlen]. rewrite length_app, El, wrap64_small by lia.
  split; [done|]. split; [lia|]. apply load_bytes_app; [done|]. by rewrite El in Eu.
Qed.

(** ** Reference: the same callbacks on the bytes they report *)

Inductive token :=
  | TBegin
  | TUrl (s : bytes)
  | TField (s : bytes)
  | TFieldDone
  | TValue (s : bytes)
  | TValueDone
  | THeadersDone.

Record rstate := mk_rstate {
  r_url : option bytes;
  r_field : option bytes;
  r_value : option bytes;
  r_done : bool;
  r_total : Z;
  r_count : Z;
  r_am : amap;
}.

Definition rstart : rstate := mk_rstate None None None false 0 0 (fun _ => []).

Definition more (o : option bytes) (s : bytes) : option bytes := Some (default [] o ++ s).

Definition r_flush (r : rstate) : rstate :=
  match r_field r with
  | None => r
  | Some k => mk_rstate (r_url r) None None (r_done r) (r_total r) (r_count r) (a_set (r_am r) k (Some (default [] (r_value r))))
  end.
Definition r_set_done (r : rstate) (b : bool) : rstate :=
  mk_rstate (r_url r) (r_field r) (r_value r) b (r_total r) (r_count r) (r_am r).

(** [None]: the request is refused. *)
Definition rstep (t : token) (r : rstate) : option rstate :=
  match t with
  | TBegin => Some (mk_rstate (r_url r) None None false 0 0 (r_am r))
  | TUrl s =>
      if (0 <? max_url) && (max_url <? Z.of_nat (length s)) then None
      else Some (mk_rstate (more (r_url r) s) (r_field r) (r_value r) (r_done r) (r_total r) (r_count r) (r_am r))
  | TField s =>
      let n := r_total r + Z.of_nat (length s) in
      if max_header <? n then None else
      let r := if r_done r then r_set_done (r_flush r) false else r in
      match r_field r with
      | None =>
          if (0 <? max_count) && (max_count <? r_count r + 1) then None
          else Some (mk_rstate (r_url r) (Some s) None (r_done r) n (r_count r + 1) (r_am r))
      | Some k => Some (mk_rstate (r_url r) (Some (k ++ s)) (r_value r) (r_done r) n (r_count r) (r_am r))
      end
  | TFieldDone => Some (r_set_done r true)
  | TValue s =>
      let n := r_total r + Z.of_nat (length s) in
      if max_header <? n then None
      else Some (mk_rstate (r_url r) (r_field r) (more (r_value r) s) (r_done r) n (r_count r) (r_am r))
  | TValueDone | THeadersDone => Some (r_flush (r_set_done r false))
  end.

(** The size of a token, and room for tokens of size [n] to come. *)
Definition weight (t : token) : Z :=
  match t with TUrl s | TField s | TValue s => 1 + Z.of_nat (length s) | _ => 1 end.
Definition osize (o : option bytes) : Z := match o with Some s => Z.of_nat (length s) | None => 0 end.

Record fits (r : rstate) (n : Z) : Prop := {
  ft_n : 0 <= n;
  ft_url : osize (r_url r) + n < MAX_REQUEST;
  ft_field : osize (r_field r) + n < MAX_REQUEST;
  ft_value : osize (r_value r) + n < MAX_REQUEST;
  ft_total : 0 <= r_total r /\ r_total r + n < MAX_REQUEST;
  ft_count : 0 <= r_count r /\ r_count r + n < MAX_REQUEST;
}.

Definition name_ok (s : bytes) : Prop := nul_free s /\ CR ∉ s.

(** The bytes of the current read are in memory. *)
Definition at_hand (w : memory) (pl : option bytes) : Prop :=
  match pl with Some d => 0 < cur w /\ load_bytes w (cur w) (length d) = Some d | None => True end.

Record sim (blocks : list (Z * Z)) (c : client) (r : rstate) : Prop := {
  sm_mem : mem_ok blocks (mm c);
  sm_url : holds (mm c) (current_url c) (r_url r);
  sm_field : holds (mm c) (current_header_field c) (r_field r);
  sm_value : holds (mm c) (current_header_value c) (r_value r);
  sm_done : header_field_completed c = r_done r;
  sm_total : total_header_size c = r_total r;
  sm_count : header_count c = r_count r;
  sm_inv : map_inv (req_headers c) (al_given (arena (mm c)));
  sm_vals : forall k, vals (req_headers c) k = r_am r k;
  sm_name : forall k, r_field r = Some k -> name_ok k;
  sm_query : query_params c = empty_kv_map;
  sm_path : path c = None;
}.

Lemma holds_null w v o : holds w v o -> is_null v = match o with Some _ => false | None => true end.
Proof. unfold is_null. destruct o as [s|]; cbn; [intros (? & _); lia|by intros ->]. Qed.

Lemma sim_keep blocks c r w :
  sim blocks c r -> mem_ok blocks w -> grows (arena (mm c)) (arena w) ->
  (forall p n s, load_bytes (mm c) p n = Some s -> load_bytes w p n = Some s) -> sim blocks (set_mm c w) r.
Proof.
  intros [] Hw G Hl.
  assert (forall v o, holds (mm c) v o -> holds w v o) as Hh.
  { intros v [s|]; [|done]. intros (? & ? & ?). split; [done|]. split; [done|]. by apply Hl. }
  constructor; cbn; auto. eapply map_inv_mono; [apply G|done].
Qed.

Lemma sim_evolves blocks c r w :
  sim blocks c r -> evolves blocks (mm c) w -> sim blocks (set_mm c w) r.
Proof. intros S []. by apply sim_keep. Qed.

(** The flush never fails, and hands the header over unless memory is refused. *)
Lemma flush_header_spec blocks c r n :
  sim blocks c r -> fits r n ->
  exists c', flush_header c = Some c' /\ evolves blocks (mm c) (mm c') /\
    current_header_field c' = null_view /\ current_url c' = current_url c /\ query_params c' = empty_kv_map /\
    total_header_size c' = total_header_size c /\ path c' = None /\
    (refused (arena (mm c)) (arena (mm c')) \/ sim blocks c' (r_flush r)).
Proof.
  intros S Hf. pose proof S as [Hw Hu Hk Hv Hd Ht Hc Hi Ha Hn Hq Hp]. unfold flush_header. rewrite (holds_null _ _ _ Hk).
  unfold r_flush. destruct (r_field r) as [k|] eqn:Ek.
  2:{ exists c. cbn in Hk. split; [done|]. split; [by apply evolves_refl|]. auto 10. }
  unfold _csilk_persist_header. rewrite (holds_null _ _ _ Hk). unfold read_view. cbn in Hk. destruct Hk as (Hk0 & El & Lk).
  rewrite El, Nat2Z.id, Lk. run_binds.
  assert ((match (if is_null (current_header_value c) then None else Some (current_header_value c)) with
     | Some v => load_bytes (mm c) (vdata v) (Z.to_nat (vlen v)) | None => Some [] end) = Some (default [] (r_value r))) as ->.
  { rewrite (holds_null _ _ _ Hv). destruct (r_value r) as [s|]; [|done]. cbn in Hv. destruct Hv as (_ & -> & Lv). by rewrite Nat2Z.id. }
  run_binds. destruct (Hn k eq_refl) as [Hnk Hck]. pose proof Hf as [? _ Hfk Hfv _ _]. rewrite Ek in Hfk. cbn in Hfk.
  assert (small k) as Hsk by (unfold small; lia).
  assert (small (default [] (r_value r))) as Hsv.
  { unfold small. destruct (r_value r); cbn in *; lia. }
  destruct (map_set_view_spec (req_headers c) (arena (mm c)) k (default [] (r_value r))) as (m' & st' & E & G & _ & Hr);
    [apply Hw|done..|].
  pose proof (map_set_view_regs _ _ _ _ _ _ (mo_ok _ _ Hw) Hsk Hsv E) as R. rewrite E. run_binds.
  pose proof (arena_evolves _ _ _ Hw R) as V. eexists. split; [done|]. split; [exact V|].
  split; [done|]. split; [done|]. split; [done|]. split; [done|]. split; [done|].
  destruct Hr as [[I [[_ R']|(v' & [->|[_ R']] & Hs)]]|[R' _]]; [by left|right|by left..].
  constructor; cbn; try done; [apply V|by eapply holds_evolves|]. intros k'. rewrite Hs. unfold a_set. by rewrite Ha.
Qed.

(** ** Each callback follows the reference, unless memory is refused *)

Definition answers (blocks : list (Z * Z)) (c : client) (ro : option rstate) (res : option (llhttp_errno * client)) : Prop :=
  exists v c', res = Some (v, c') /\ evolves blocks (mm c) (mm c') /\
    (refused (arena (mm c)) (arena (mm c')) \/
     match ro with Some r => v = HPE_OK /\ sim blocks c' r | None => v = HPE_USER end).

(** A span that starts a view. *)
Lemma holds_first w at_ u : 0 < at_ -> load_bytes w at_ (length u) = Some u -> holds w (mk_view at_ (Z.of_nat (length u))) (Some u).
Proof. done. Qed.

Lemma on_url_spec blocks c r at_ u n :
  sim blocks c r -> fits r (weight (TUrl u) + n) -> 0 <= n -> 0 < at_ -> load_bytes (mm c) at_ (length u) = Some u ->
  answers blocks c (rstep (TUrl u) r) (on_url c at_ (Z.of_nat (length u))).
Proof.
  intros S [_ Hf _ _ _ _] Hn0 Ha Lu. pose proof S as [Hw Hu Hk Hv Hd Ht Hc Hi Hm Hn Hq Hp]. unfold on_url, rstep. cbn in Hf.
  destruct (_ && _). { eexists _, _. split; [done|]. split; [by apply evolves_refl|]. by right. }
  rewrite (holds_null _ _ _ Hu). destruct (r_url r) as [s|] eqn:Eu; cbn [more default osize] in *.
  - destruct (extend_view_spec blocks false (mm c) (current_url c) s at_ u Hw Hu Lu) as (o & w & -> & V & Ho); [lia|].
    run_binds. destruct Ho as [[-> R]|(v & -> & Hh)]; eexists _, _; (split; [done|]); (split; [exact V|]); [by left|right].
    split; [done|]. pose proof (sim_evolves _ _ _ _ S V) as []. by constructor.
  - eexists _, _. split; [done|]. split; [by apply evolves_refl|]. right. split; [done|]. by constructor.
Qed.

Lemma on_header_field_spec blocks c r at_ u n :
  sim blocks c r -> fits r (weight (TField u) + n) -> 0 <= n -> name_ok u -> 0 < at_ ->
  load_bytes (mm c) at_ (length u) = Some u ->
  answers blocks c (rstep (TField u) r) (on_header_field c at_ (Z.of_nat (length u))).
Proof.
  intros S F Hn0 Hu Ha Lu. pose proof (ft_total _ _ F) as [Ht0 Ht1]. pose proof (ft_count _ _ F) as [Hc0 Hc1].
  unfold on_header_field, rstep. cbn zeta. cbn [total_header_size set_total weight] in *.
  rewrite (sm_total _ _ _ S), wrap64_small by (unfold MAX_REQUEST in *; lia).
  destruct (max_header <? _). { eexists _, _. split; [done|]. split; [by apply evolves_refl, S|]. by right. }
  set (c1 := set_total c _). cbn [header_field_completed].
  set (r1 := mk_rstate (r_url r) (r_field r) (r_value r) (r_done r) (r_total r + Z.of_nat (length u)) (r_count r) (r_am r)).
  assert (sim blocks c1 r1) as S1 by (destruct S; by constructor).
  assert (fits r1 0) as F1 by (destruct F; constructor; cbn in *; lia).
  change (header_field_completed c1) with (header_field_completed c). rewrite (sm_done _ _ _ S).
  assert (exists c2, (if r_done r then c ← flush_header c1; Some (set_completed c false) else Some c1) = Some c2 /\
    evolves blocks (mm c) (mm c2) /\
    (refused (arena (mm c)) (arena (mm c2)) /\ current_header_field c2 = null_view \/
     sim blocks c2 (if r_done r then r_set_done (r_flush r1) false else r1))) as (c2 & -> & V2 & H2).
  { destruct (r_done r).
    - destruct (flush_header_spec _ _ _ _ S1 F1) as (c2 & -> & V & Ef & _ & _ & _ & _ & Hr). eexists. split; [done|].
      split; [exact V|]. destruct Hr as [R|S2]; [by left|right]. destruct S2. by constructor.
    - exists c1. split; [done|]. split; [by apply evolves_refl, S|by right]. }
  run_binds. destruct H2 as [[R Ef]|S2].
  { match goal with |- answers _ _ ?x _ => generalize x; intros ro end. rewrite Ef. cbn.
    destruct (_ && _); eexists _, _; (split; [done|]); (split; [exact V2|by left]). }
  rewrite (holds_null _ _ _ (sm_field _ _ _ S2)).
  set (r2 := if r_done r then r_set_done (r_flush r1) false else r1) in *.
  assert (r_count r2 = r_count r /\ r_total r2 = r_total r + Z.of_nat (length u) /\ osize (r_field r2) <= osize (r_field r)) as (Ec & Et & Eo).
  { unfold r2, r_flush, r1. destruct (r_done r); [|done]. cbn. destruct (r_field r); cbn; lia. }
  assert ((if r_done r then r_set_done (r_flush r) false else r) =
    mk_rstate (r_url r2) (r_field r2) (r_value r2) (r_done r2) (r_total r) (r_count r2) (r_am r2)) as ->.
  { unfold r2, r1, r_flush. destruct r as [? [|] ? [|] ? ? ?]; done. }
  cbn [r_url r_field r_value r_done r_count r_am]. pose proof S2 as [Hw Hu2 Hk Hv Hd Ht Hc Hi Hm Hn Hq Hp].
  pose proof (ft_field _ _ F) as Hff. destruct (r_field r2) as [k|] eqn:Ek.
  - cbn in Eo, Hff. destruct (extend_view_spec blocks true (mm c2) (current_header_field c2) k at_ u Hw Hk) as (o & w & -> & V & Ho);
      [by apply V2|lia|].
    run_binds. destruct Ho as [[-> R]|(v & -> & Hh)]; eexists _, _; (split; [done|]); (split; [by eapply evolves_trans|]);
      [left; eapply refused_weaken; [apply V2|exact R|apply grows_refl, V]|right].
    split; [done|]. pose proof (sim_evolves _ _ _ _ S2 V) as []. constructor; cbn; try done; [by rewrite <- Et|].
    intros k' [= <-]. destruct (Hn k eq_refl), Hu. split; [by apply nul_free_app|]. by apply not_elem_of_app.
  - cbn [header_count set_count]. rewrite Hc, Ec, wrap64_small by (unfold MAX_REQUEST in *; lia).
    destruct (_ && _); eexists _, _; (split; [done|]); (split; [exact V2|]); right; [done|]. split; [done|].
    constructor; cbn; try done; [|by rewrite <- Et|by intros ? [= <-]]. by apply holds_first; [|apply V2].
Qed.

Lemma on_header_value_spec blocks c r at_ u n :
  sim blocks c r -> fits r (weight (TValue u) + n) -> 0 <= n -> 0 < at_ -> load_bytes (mm c) at_ (length u) = Some u ->
  answers blocks c (rstep (TValue u) r) (on_header_value c at_ (Z.of_nat (length u))).
Proof.
  intros S [_ _ _ Hf [Ht0 Ht1] _] Hn0 Ha Lu. pose proof S as [Hw Hu Hk Hv Hd Ht Hc Hi Hm Hn Hq Hp].
  unfold on_header_value, rstep. cbn zeta. cbn [weight total_header_size set_total current_header_value mm] in *.
  rewrite Ht, wrap64_small by (unfold MAX_REQUEST in *; lia).
  destruct (max_header <? _). { eexists _, _. split; [done|]. split; [by apply evolves_refl, S|]. by right. }
  rewrite (holds_null _ _ _ Hv). destruct (r_value r) as [s|] eqn:Ev; cbn [more default osize] in *.
  - destruct (extend_view_spec blocks true (mm c) (current_header_value c) s at_ u Hw Hv Lu) as (o & w & -> & V & Ho); [lia|].
    run_binds. destruct Ho as [[-> R]|(v & -> & Hh)]; eexists _, _; (split; [done|]); (split; [exact V|]); [by left|right].
    split; [done|]. pose proof (sim_evolves _ _ _ _ S V) as []. by constructor.
  - eexists _, _. split; [done|]. split; [by apply evolves_refl|]. right. split; [done|]. by constructor.
Qed.

Lemma complete_spec blocks c r n :
  sim blocks c r -> fits r n ->
  answers blocks c (Some (r_flush (r_set_done r false))) (c ← flush_header (set_completed c false); Some (HPE_OK, c)).
Proof.
  intros S F. destruct (flush_header_spec blocks (set_completed c false) (r_set_done r false) n) as (c' & -> & V & _ & _ & _ & _ & _ & Hr).
  - destruct S. by constructor.
  - destruct F. by constructor.
  - eexists _, _. split; [done|]. split; [exact V|]. destruct Hr as [?|?]; [by left|by right].
Qed.

(** ** Reads *)

Definition apart (blocks : list (Z * Z)) : Prop :=
  forall i j b b', blocks !! i = Some b -> blocks !! j = Some b' -> i <> j -> disj b b'.

(** Another buffer is registered: what was readable stays as it was. *)
Lemma on_read_buffer_spec blocks c r b fut d :
  sim blocks c r -> blocks = bufs (mm c) ++ b :: fut -> apart blocks -> Z.of_nat (length d) <= b.2 ->
  exists c', on_read_buffer c b d = Some c' /\ sim blocks c' r /\ arena (mm c') = arena (mm c) /\
    bufs (mm c') = bufs (mm c) ++ [b] /\ at_hand (mm c') (Some d).
Proof.
  intros S Eb Hap Hd. pose proof (sm_mem _ _ _ S) as Hw. unfold on_read_buffer. set (w := mk_memory _ _ _ _).
  assert (b ∈ blocks) as Hb by (rewrite Eb; apply elem_of_app; right; by left).
  pose proof (mo_blocks _ _ Hw) as HF. rewrite Forall_forall in HF. destruct (HF b Hb) as (Hp & _ & Hsep).
  assert (forall q, readable (mm c) q -> ~ (b.1 <= q < b.1 + b.2)) as Hout.
  { intros q (x & Hx & Hq)%readable_spec Hin. assert (disj b x) as [|]; [|lia..]. destruct Hx as [Hx|Hx].
    - apply list_elem_of_lookup in Hx as [i Hi]. apply (Hap (length (bufs (mm c))) i); [| |].
      + rewrite Eb. by rewrite list_lookup_middle.
      + rewrite Eb. by apply lookup_app_l_Some.
      + apply lookup_lt_Some in Hi. lia.
    - rewrite Forall_forall in Hsep. by apply Hsep. }
  destruct (store_spec w b.1 d) as (w' & -> & F & L).
  { intros q Hq. apply readable_spec. exists b. cbn. split; [left; apply elem_of_app; right; by left|lia]. }
  run_binds. pose proof F as [Fb Fa Fc _]. eexists. split; [done|]. split; [|cbn; rewrite ?Fb, ?Fa, ?Fc; auto].
  apply sim_keep; [done| | |].
  - apply (frame_mem_ok _ _ _ _ _ F). destruct Hw as [? ? Hi]. constructor; cbn; [done..|]. intros x.
    rewrite elem_of_app, list_elem_of_singleton. intros [?| ->]; auto.
  - rewrite Fa. apply grows_refl, Hw.
  - intros p n s E. eapply (frame_load _ _ _ _ _ _ _ F).
    + intros q Hq _. pose proof (Hout q (load_bytes_readable _ _ _ _ _ E Hq)). lia.
    + revert E. apply load_bytes_keep. intros q x _ [Hr Hc]%load_some. apply load_some. split; [|done].
      apply readable_spec in Hr as (y & Hy & Hq). apply readable_spec. exists y. cbn. rewrite elem_of_app. naive_solver.
Qed.

Lemma process_tls_read_spec blocks c r d :
  sim blocks c r -> Z.of_nat (length d) <= TLS_READ ->
  exists v c', process_tls_read c d = Some (v, c') /\ grows (arena (mm c)) (arena (mm c')) /\
    (refused (arena (mm c)) (arena (mm c')) \/
     v = HPE_OK /\ sim blocks c' r /\ bufs (mm c') = bufs (mm c) /\ at_hand (mm c') (Some d)).
Proof.
  intros S Hd. pose proof (sm_mem _ _ _ S) as Hw. unfold process_tls_read.
  destruct (al_alloc TLS_READ (arena (mm c))) as [p st] eqn:Ea.
  assert (0 < TLS_READ <= MAX_REQUEST) as Hn by by vm_compute.
  destruct (alloc_regs _ _ _ _ (mo_ok _ _ Hw) Hn Ea) as [G [[-> Hr]|(Hp & Hreg & _)]].
  { eexists _, _. split; [done|]. split; [apply G|]. by left. }
  rewrite (proj2 (Z.eqb_neq p 0)) by lia. set (w := mk_memory _ _ _ _).
  destruct (store_spec w p d) as (w' & -> & F & L).
  { intros q Hq. eapply (region_readable _ p TLS_READ); [done|lia]. }
  run_binds. pose proof F as [Fb Fa Fc _]. pose proof (arena_evolves _ _ _ Hw G) as V.
  eexists _, _. split; [done|]. cbn [mm set_mm]. rewrite Fa. split; [apply G|]. right. split; [done|].
  split; [|cbn; rewrite ?Fb, ?Fc; auto]. apply sim_keep; [done| | |].
  - apply (frame_mem_ok _ _ _ _ _ F). destruct (ev_ok _ _ _ V). by constructor.
  - rewrite Fa. apply G.
  - intros a n s E. eapply (frame_load _ _ _ _ _ _ _ F).
    + intros q Hq _. pose proof (fresh_unreadable _ _ _ _ _ q Hw Hn Ea ltac:(lia) (load_bytes_readable _ _ _ _ _ E Hq)). lia.
    + apply V in E. revert E. by apply load_bytes_keep.
Qed.

(** ** Runs *)

Definition span (pl : option bytes) (off n : nat) : bytes := take n (drop off (default [] pl)).

(** What a sequence of events reports, and the buffers it reads into. *)
Fixpoint tokens (pl : option bytes) (l : list event) : list token :=
  match l with
  | [] => []
  | EBuf _ d :: l' | ETls d :: l' => tokens (Some d) l'
  | EBegin :: l' => TBegin :: tokens pl l'
  | EUrl off n :: l' => TUrl (span pl off n) :: tokens pl l'
  | EField off n :: l' => TField (span pl off n) :: tokens pl l'
  | EFieldDone :: l' => TFieldDone :: tokens pl l'
  | EValue off n :: l' => TValue (span pl off n) :: tokens pl l'
  | EValueDone :: l' => TValueDone :: tokens pl l'
  | EHeadersDone :: l' => THeadersDone :: tokens pl l'
  | EComplete _ :: l' => tokens pl l'
  end.

Fixpoint event_bufs (l : list event) : list (Z * Z) :=
  match l with
  | [] => []
  | EBuf b _ :: l' => b :: event_bufs l'
  | _ :: l' => event_bufs l'
  end.

(** llhttp reports spans of the bytes it was given; a read fits its buffer. *)
Fixpoint events_wf (pl : option bytes) (l : list event) : Prop :=
  match l with
  | [] => True
  | EBuf b d :: l' => Z.of_nat (length d) <= b.2 /\ events_wf (Some d) l'
  | ETls d :: l' => Z.of_nat (length d) <= TLS_READ /\ events_wf (Some d) l'
  | (EUrl off n | EField off n | EValue off n) :: l' =>
      (exists d, pl = Some d /\ (off + n <= length d)%nat) /\ events_wf pl l'
  | EComplete _ :: _ => False
  | _ :: l' => events_wf pl l'
  end.

Definition token_ok (t : token) : Prop := match t with TField s => name_ok s | _ => True end.

Fixpoint rrun (l : list token) (r : rstate) : option rstate :=
  match l with
  | [] => Some r
  | t :: l' => r1 ← rstep t r; rrun l' r1
  end.

Definition weights (l : list token) : Z := foldr (fun t n => weight t + n) 0 l.

Lemma weight_pos t : 0 < weight t.
Proof. destruct t; cbn; lia. Qed.

Lemma weights_nonneg l : 0 <= weights l.
Proof. induction l as [|t l IH]; cbn [weights foldr]; [done|]. fold (weights l). pose proof (weight_pos t). lia. Qed.

Lemma osize_nonneg o : 0 <= osize o.
Proof. destruct o; cbn; lia. Qed.

Lemma fits_flush r n b : fits r n -> fits (r_flush (r_set_done r b)) n.
Proof.
  intros []. pose proof (osize_nonneg (r_url r)). unfold r_flush. cbn.
  destruct (r_field r) eqn:E; constructor; cbn in *; rewrite ?E; cbn; lia.
Qed.

Lemma fits_step t r r' n : fits r (weight t + n) -> 0 <= n -> rstep t r = Some r' -> fits r' n.
Proof.
  intros F Hn E.
  assert (forall b, fits (r_flush (r_set_done r b)) (weight t + n)) as Hfl by (intros b; by apply fits_flush).
  pose proof (osize_nonneg (r_url r)).
  destruct F as [? ? ? ? [? ?] [? ?]], t; cbn [rstep weight] in *.
  - injection E as <-. by constructor; cbn; lia.
  - destruct (_ && _); [done|]. injection E as <-. constructor; cbn; try lia. rewrite length_app.
    destruct (r_url r); cbn in *; lia.
  - destruct (max_header <? _); [done|].
    assert (fits (if r_done r then r_set_done (r_flush r) false else r) (1 + Z.of_nat (length s) + n)) as F.
    { destruct (r_done r); [|by constructor]. destruct (Hfl false). unfold r_flush in *. cbn in *.
      destruct (r_field r) eqn:Ef; constructor; cbn in *; rewrite ?Ef; cbn; lia. }
    revert E F. generalize (if r_done r then r_set_done (r_flush r) false else r). intros r1 E [? ? ? ? [? ?] [? ?]].
    destruct (r_field r1) as [k|]; [|destruct (_ && _); [done|]]; injection E as <-; constructor; cbn in *;
      rewrite ?length_app; lia.
  - injection E as <-. by constructor; cbn; lia.
  - destruct (max_header <? _); [done|]. injection E as <-. constructor; cbn; try lia. rewrite length_app.
    destruct (r_value r); cbn in *; lia.
  - injection E as <-. destruct (Hfl false). constructor; lia.
  - injection E as <-. destruct (Hfl false). constructor; lia.
Qed.

Lemma fits_run l r r' : fits r (weights l) -> rrun l r = Some r' -> fits r' 0.
Proof.
  revert r. induction l as [|t l IH]; intros r F E; [by injection E as <-|]. cbn [rrun] in E.
  destruct (rstep t r) as [r1|] eqn:E1; [|done]. apply (IH r1); [|done]. eapply fits_step; [exact F|apply weights_nonneg|done].
Qed.

(** The run comes to an event during which the arena refuses memory. *)
Fixpoint out_of_memory (l : list event) (c : client) : bool :=
  match l with
  | [] => false
  | e :: l' =>
      match step e c with
      | Some (v, c1) =>
          refusedb (arena (mm c)) (arena (mm c1)) || match v with HPE_OK => out_of_memory l' c1 | HPE_USER => false end
      | None => false
      end
  end.

Lemma oom_now e l c v c1 :
  step e c = Some (v, c1) -> grows (arena (mm c)) (arena (mm c1)) -> refused (arena (mm c)) (arena (mm c1)) ->
  out_of_memory (e :: l) c = true.
Proof. intros E G R. cbn. rewrite E. by rewrite (proj2 (refusedb_spec _ _ G) R). Qed.

Lemma oom_later e l c c1 : step e c = Some (HPE_OK, c1) -> out_of_memory l c1 = true -> out_of_memory (e :: l) c = true.
Proof. intros E R. cbn. rewrite E, R. apply orb_true_r. Qed.

Lemma oom_app l1 l2 c : out_of_memory l1 c = true -> out_of_memory (l1 ++ l2) c = true.
Proof.
  revert c. induction l1 as [|e l1 IH]; intros c R; [done|]. cbn [app out_of_memory] in *.
  destruct (step e c) as [[[] c1]|]; [|done..]. apply orb_true_iff in R as [->|R]; [done|]. by rewrite (IH _ R), orb_true_r.
Qed.

Lemma oom_end l1 l2 c c1 : run_events l1 c = Some (HPE_OK, c1) -> out_of_memory l2 c1 = true -> out_of_memory (l1 ++ l2) c = true.
Proof.
  revert c. induction l1 as [|e l1 IH]; intros c E R; [by injection E as <-|]. cbn [app run_events out_of_memory] in *.
  destruct (step e c) as [[[] c2]|]; [|done..]. by rewrite (IH _ E R), orb_true_r.
Qed.

(** What a run amounts to, given what the reference makes of its tokens. *)
Definition follows (blocks : list (Z * Z)) (l : list event) (c : client) (ro : option rstate) : Prop :=
  out_of_memory l c = true \/
  exists v c', run_events l c = Some (v, c') /\
    match ro with
    | Some r => v = HPE_OK /\ grows (arena (mm c)) (arena (mm c')) /\ sim blocks c' r
    | None => v = HPE_USER
    end.

Lemma follows_step blocks e l c c1 ro :
  step e c = Some (HPE_OK, c1) -> grows (arena (mm c)) (arena (mm c1)) ->
  follows blocks l c1 ro -> follows blocks (e :: l) c ro.
Proof.
  intros E G [Ho|(v & c' & Er & Hr)]; [left; by eapply oom_later|right]. exists v, c'. cbn. rewrite E. split; [done|].
  destruct ro as [r|]; [|done]. destruct Hr as (? & ? & ?). split; [done|]. split; [by eapply grows_trans|done].
Qed.

Lemma follows_callback blocks e l c t r l' :
  answers blocks c (rstep t r) (step e c) ->
  (forall c1 r1, rstep t r = Some r1 -> sim blocks c1 r1 -> evolves blocks (mm c) (mm c1) -> follows blocks l c1 (rrun l' r1)) ->
  follows blocks (e :: l) c (rrun (t :: l') r).
Proof.
  intros (v & c1 & E & V & Hr) Hl. destruct Hr as [R|Hr]; [left; eapply oom_now; [done|apply V|done]|]. cbn [rrun].
  destruct (rstep t r) as [r1|]; run_binds.
  - destruct Hr as [-> S]. eapply follows_step; [done|apply V|]. by apply Hl.
  - subst v. right. exists HPE_USER, c1. cbn. by rewrite E.
Qed.

Lemma at_hand_evolves blocks w w' pl : evolves blocks w w' -> at_hand w pl -> at_hand w' pl.
Proof. intros V. destruct pl as [d|]; [|done]. intros [? ?]. cbn. rewrite (ev_cur _ _ _ V). split; [done|]. by apply V. Qed.

(** Where a span of the current read lies. *)
Lemma span_at w pl off n d :
  at_hand w pl -> pl = Some d -> (off + n <= length d)%nat ->
  0 < cur w + Z.of_nat off /\ length (span pl off n) = n /\
  load_bytes w (cur w + Z.of_nat off) (length (span pl off n)) = Some (span pl off n).
Proof.
  intros Ha -> Hn. destruct Ha as [Hc Hl]. unfold span. change (default [] (Some d)) with d.
  assert (length (take n (drop off d)) = n) as El by (rewrite length_take, length_drop; lia).
  split; [lia|]. split; [done|]. rewrite El. by apply load_bytes_sub.
Qed.

Lemma run_sim blocks l pl c r :
  sim blocks c r -> at_hand (mm c) pl -> blocks = bufs (mm c) ++ event_bufs l -> apart blocks ->
  events_wf pl l -> Forall token_ok (tokens pl l) -> fits r (weights (tokens pl l)) ->
  follows blocks l c (rrun (tokens pl l) r).
Proof.
  intros S Ha Eb Hap Hwf Hok F. revert pl c r S Ha Eb Hwf Hok F.
  induction l as [|e l IH]; intros pl c r S Ha Eb Hwf Hok F.
  { right. exists HPE_OK, c. cbn. split; [done|]. split; [done|]. split; [apply grows_refl, S|done]. }
  assert (forall t, tokens pl (e :: l) = t :: tokens pl l -> events_wf pl l -> event_bufs (e :: l) = event_bufs l ->
    answers blocks c (rstep t r) (step e c) -> follows blocks (e :: l) c (rrun (tokens pl (e :: l)) r)) as Hcb.
  { intros t Et Hwl Ebl Hans. rewrite Et in *. apply Forall_cons in Hok as [_ Hok]. apply (follows_callback _ _ _ _ _ _ _ Hans).
    intros c1 r1 E1 S1 V1. apply IH; [done|by eapply at_hand_evolves|by rewrite (ev_bufs _ _ _ V1), Eb, Ebl|done|done|].
    eapply fits_step; [exact F|apply weights_nonneg|done]. }
  assert (forall t, tokens pl (e :: l) = t :: tokens pl l -> fits r (weight t + weights (tokens pl l)) /\ token_ok t /\
    0 <= weights (tokens pl l)) as Hft.
  { intros t Et. rewrite Et in *. apply Forall_cons in Hok as [? _]. split; [done|]. split; [done|apply weights_nonneg]. }
  destruct e as [b d|d| |off n|off n| |off n| | |m]; cbn [events_wf] in Hwf.
  - destruct Hwf as [Hd Hwf]. destruct (on_read_buffer_spec blocks c r b (event_bufs l) d S Eb Hap Hd) as (c1 & E & S1 & Ea1 & Eb1 & Ha1).
    eapply follows_step; [cbn; by rewrite E|rewrite Ea1; apply grows_refl, S|].
    apply (IH (Some d)); [done..| |done|done|done]. by rewrite Eb1, <- app_assoc.
  - destruct Hwf as [Hd Hwf]. destruct (process_tls_read_spec blocks c r d S Hd) as (v & c1 & E & G & [R|(-> & S1 & Eb1 & Ha1)]).
    { left. by eapply oom_now. }
    eapply follows_step; [done|done|]. apply (IH (Some d)); [done..| |done|done|done]. by rewrite Eb1.
  - apply (Hcb TBegin); [done..|]. eexists _, _. split; [done|]. split; [by apply evolves_refl, S|]. right. split; [done|].
    destruct S. by constructor.
  - destruct Hwf as [(d & Epl & Hn) Hwf]. destruct (span_at (mm c) pl off n d Ha Epl Hn) as (H1 & H2 & H3).
    apply (Hcb (TUrl (span pl off n))); [done..|]. cbn [step]. rewrite <- H2 at 2.
    destruct (Hft _ eq_refl) as (? & _ & ?). by eapply on_url_spec.
  - destruct Hwf as [(d & Epl & Hn) Hwf]. destruct (span_at (mm c) pl off n d Ha Epl Hn) as (H1 & H2 & H3).
    apply (Hcb (TField (span pl off n))); [done..|]. cbn [step]. rewrite <- H2 at 2.
    destruct (Hft _ eq_refl) as (? & ? & ?). by eapply on_header_field_spec.
  - apply (Hcb TFieldDone); [done..|]. eexists _, _. split; [done|]. split; [by apply evolves_refl, S|]. right. split; [done|].
    destruct S. by constructor.
  - destruct Hwf as [(d & Epl & Hn) Hwf]. destruct (span_at (mm c) pl off n d Ha Epl Hn) as (H1 & H2 & H3).
    apply (Hcb (TValue (span pl off n))); [done..|]. cbn [step]. rewrite <- H2 at 2.
    destruct (Hft _ eq_refl) as (? & _ & ?). by eapply on_header_value_spec.
  - apply (Hcb TValueDone); [done..|]. by eapply complete_spec.
  - apply (Hcb THeadersDone); [done..|]. by eapply complete_spec.
  - done.
Qed.

(** ** Messages

    A request line and headers, each cut into the spans llhttp reports. *)

Definition header_tokens (h : list bytes * list bytes) : list token :=
  map TField h.1 ++ TFieldDone :: map TValue h.2 ++ [TValueDone].

Definition message (urls : list bytes) (hdrs : list (list bytes * list bytes)) : list token :=
  TBegin :: map TUrl urls ++ flat_map header_tokens hdrs ++ [THeadersDone].

Definition url_too_long (s : bytes) : bool := (0 <? max_url) && (max_url <? Z.of_nat (length s)).
Definition header_bytes (h : list bytes * list bytes) : Z := Z.of_nat (length (concat h.1)) + Z.of_nat (length (concat h.2)).
Definition total_bytes (hdrs : list (list bytes * list bytes)) : Z := foldr (fun h n => header_bytes h + n) 0 hdrs.
Definition too_many (n : Z) : bool := (0 <? max_count) && (max_count <? n).

(** The limits, as the callbacks enforce them: on each span of the URL, on the
    bytes of all headers, on their number. *)
Definition within_limits (urls : list bytes) (hdrs : list (list bytes * list bytes)) : bool :=
  negb (existsb url_too_long urls) && negb (max_header <? total_bytes hdrs) && negb (too_many (Z.of_nat (length hdrs))).

Definition concat_onto (o : option bytes) (l : list bytes) : option bytes :=
  match l with [] => o | _ => more o (concat l) end.

Lemma concat_onto_cons o s l : concat_onto (more o s) l = concat_onto o (s :: l).
Proof. destruct l; cbn; unfold more; cbn; [by rewrite app_nil_r|by rewrite <- !app_assoc]. Qed.

Lemma rrun_urls urls l r :
  rrun (map TUrl urls ++ l) r =
  if existsb url_too_long urls then None
  else rrun l (mk_rstate (concat_onto (r_url r) urls) (r_field r) (r_value r) (r_done r) (r_total r) (r_count r) (r_am r)).
Proof.
  revert r. induction urls as [|s urls IH]; intros r; [by destruct r|]. cbn [map app rrun rstep existsb].
  fold (url_too_long s). destruct (url_too_long s); [done|]. run_binds. rewrite IH. cbn [r_url]. by rewrite concat_onto_cons.
Qed.

Lemma rrun_fields f l r k :
  r_field r = Some k -> r_done r = false -> r_total r <= max_header ->
  rrun (map TField f ++ l) r =
  if max_header <? r_total r + Z.of_nat (length (concat f)) then None
  else rrun l (mk_rstate (r_url r) (Some (k ++ concat f)) (r_value r) false (r_total r + Z.of_nat (length (concat f))) (r_count r) (r_am r)).
Proof.
  revert r k. induction f as [|s f IH]; intros r k Ek Ed Ht; cbn [concat].
  { cbn [map app length]. rewrite Z.add_0_r, app_nil_r, (proj2 (Z.ltb_ge _ _)) by lia. destruct r. cbn in *. by subst. }
  cbn [map app rrun rstep]. rewrite Ed, Ek, length_app. destruct (Z.ltb_spec max_header (r_total r + Z.of_nat (length s))); run_binds.
  { rewrite (proj2 (Z.ltb_lt _ _)) by lia. done. }
  rewrite (IH _ (k ++ s)) by done. cbn [r_url r_value r_total r_count r_am]. rewrite <- app_assoc.
  by replace (r_total r + Z.of_nat (length s + length (concat f)))
    with (r_total r + Z.of_nat (length s) + Z.of_nat (length (concat f))) by lia.
Qed.

Lemma rrun_values v l r :
  r_total r <= max_header ->
  rrun (map TValue v ++ l) r =
  if max_header <? r_total r + Z.of_nat (length (concat v)) then None
  else rrun l (mk_rstate (r_url r) (r_field r) (concat_onto (r_value r) v) (r_done r)
    (r_total r + Z.of_nat (length (concat v))) (r_count r) (r_am r)).
Proof.
  revert r. induction v as [|s v IH]; intros r Ht.
  { cbn [map app length concat]. rewrite Z.add_0_r, (proj2 (Z.ltb_ge _ _)) by lia. by destruct r. }
  cbn [map app rrun rstep concat]. rewrite length_app. destruct (Z.ltb_spec max_header (r_total r + Z.of_nat (length s))); run_binds.
  { rewrite (proj2 (Z.ltb_lt _ _)) by lia. done. }
  rewrite IH by done. cbn [r_url r_field r_value r_done r_total r_count r_am]. rewrite concat_onto_cons.
  by replace (r_total r + Z.of_nat (length s + length (concat v)))
    with (r_total r + Z.of_nat (length s) + Z.of_nat (length (concat v))) by lia.
Qed.

(** Between headers nothing is pending. *)
Definition between (url : option bytes) (total count : Z) (am : amap) : rstate := mk_rstate url None None false total count am.

Definition hset (am : amap) (h : list bytes * list bytes) : amap := a_set am (concat h.1) (Some (concat h.2)).

Lemma rrun_header h l url total count am :
  h.1 <> [] -> total <= max_header ->
  rrun (header_tokens h ++ l) (between url total count am) =
  if (max_header <? total + header_bytes h) || too_many (count + 1) then None
  else rrun l (between url (total + header_bytes h) (count + 1) (hset am h)).
Proof.
  destruct h as [[|s f] v]; [done|]. intros _ Ht. unfold header_tokens, header_bytes. cbn [fst snd map concat].
  rewrite <- app_assoc, length_app. cbn [app rrun rstep between r_field r_total r_done r_count r_url r_am].
  fold (too_many (count + 1)). set (ls := Z.of_nat (length s)). set (lf := length (concat f)). set (lv := Z.of_nat (length (concat v))).
  destruct (Z.ltb_spec max_header (total + ls)); run_binds. { rewrite (proj2 (Z.ltb_lt _ _)) by lia. done. }
  destruct (too_many _); [by rewrite orb_true_r|]. run_binds. rewrite orb_false_r, (rrun_fields f _ _ s) by done.
  cbn [r_total r_url r_value r_count r_am]. fold lf.
  destruct (Z.ltb_spec max_header (total + ls + Z.of_nat lf)). { rewrite (proj2 (Z.ltb_lt _ _)) by lia. done. }
  cbn [rrun rstep r_set_done]. run_binds. rewrite <- app_assoc. rewrite rrun_values by done.
  cbn [r_total r_url r_field r_value r_done r_count r_am]. fold lv.
  replace (total + (Z.of_nat (length s + lf) + lv)) with (total + ls + Z.of_nat lf + lv) by lia.
  destruct (max_header <? _); [done|]. cbn [app rrun rstep r_set_done r_flush]. run_binds. unfold between, hset. cbn [fst snd].
  do 2 f_equal. by destruct v.
Qed.

Lemma rrun_headers hdrs l url total count am :
  Forall (fun h => h.1 <> []) hdrs -> total <= max_header -> too_many count = false ->
  rrun (flat_map header_tokens hdrs ++ l) (between url total count am) =
  if (max_header <? total + total_bytes hdrs) || too_many (count + Z.of_nat (length hdrs)) then None
  else rrun l (between url (total + total_bytes hdrs) (count + Z.of_nat (length hdrs)) (foldl hset am hdrs)).
Proof.
  intros Hh. revert total count am. induction Hh as [|h hdrs Hh Hhs IH]; intros total count am Ht Hc.
  { cbn. rewrite !Z.add_0_r, Hc, (proj2 (Z.ltb_ge _ _)) by lia. done. }
  cbn [flat_map foldl length total_bytes foldr]. fold (total_bytes hdrs). rewrite <- app_assoc, rrun_header by done.
  assert (0 <= total_bytes hdrs) as Hb.
  { clear. induction hdrs as [|h hdrs IH]; [done|]. cbn [total_bytes foldr]. fold (total_bytes hdrs). unfold header_bytes. lia. }
  destruct (Z.ltb_spec max_header (total + header_bytes h)); [rewrite (proj2 (Z.ltb_lt max_header _)) by lia; done|]. cbn [orb].
  destruct (too_many (count + 1)) eqn:Ec.
  - assert (too_many (count + Z.of_nat (S (length hdrs))) = true) as ->; [|by rewrite orb_true_r].
    unfold too_many in *. apply andb_prop in Ec as [? ?]. apply andb_true_intro. split; [done|]. rewrite Z.ltb_lt in *. lia.
  - rewrite IH by done. by replace (total + (header_bytes h + total_bytes hdrs)) with (total + header_bytes h + total_bytes hdrs) by lia;
      replace (count + Z.of_nat (S (length hdrs))) with (count + 1 + Z.of_nat (length hdrs)) by lia.
Qed.

Lemma rrun_message urls hdrs :
  Forall (fun h => h.1 <> []) hdrs -> 0 <= max_header ->
  rrun (message urls hdrs) rstart =
  if within_limits urls hdrs
  then Some (between (concat_onto None urls) (total_bytes hdrs) (Z.of_nat (length hdrs)) (foldl hset (fun _ => []) hdrs))
  else None.
Proof.
  intros Hh Hm. unfold message, within_limits. cbn [rrun rstep]. run_binds. rewrite rrun_urls. cbn [rstart r_url r_field r_value r_done r_total r_count r_am].
  destruct (existsb _ urls); [done|]. cbn [negb andb]. fold (between (concat_onto None urls) 0 0 (fun _ => [])).
  rewrite rrun_headers by (done || (unfold too_many; destruct (Z.ltb_spec max_count 0); [|by rewrite andb_false_r]; apply andb_false_iff; lia)).
  rewrite !Z.add_0_l. destruct (max_header <? _); [done|]. destruct (too_many _); [done|]. done.
Qed.

(** ** What the context holds in the end *)

(** The URL before and after its first question mark. *)
Definition url_parts (url : bytes) : bytes * bytes := default (url, []) (strchr_split "?" url).

Definition request_path (url : bytes) : option bytes :=
  match url with [] => None | _ => Some (cstr (decode (cstr (url_parts url).1))) end.

(** The last parameter with a name, in any case. *)
Definition param_step (k : bytes) (o : option bytes) (p : bytes * bytes) : option bytes :=
  if bool_decide (clean p.1 <> [] /\ lower (clean p.1) = lower k) then Some (clean p.2) else o.
Definition query_value (url k : bytes) : option bytes :=
  foldl (param_step k) None (query_pairs (cstr (url_parts url).2)).

(** The last header with a name, in any case. *)
Definition header_step (k : bytes) (o : option bytes) (h : list bytes * list bytes) : option bytes :=
  if bool_decide (lower (concat h.1) = lower k) then Some (concat h.2) else o.
Definition header_value (hdrs : list (list bytes * list bytes)) (k : bytes) : option bytes :=
  foldl (header_step k) None hdrs.

Lemma params_or_refused l st st' am am' :
  kv_steps l st st' am am' -> refused st st' \/ forall k, hd None (am' k) = foldl (param_step k) (hd None (am k)) l.
Proof.
  induction 1 as [st st' am G|k' v l st st1 st2 am am2 G Hne S IH|k' v l st st1 st2 am am2 G Hd S IH]; [by right| |].
  - destruct IH as [R|IH]; [left; by eapply refused_last|right]. intros k. rewrite IH. cbn [foldl]. f_equal.
    unfold param_step, a_add. cbn [fst snd]. case_decide as E; case_bool_decide as E'; naive_solver.
  - destruct IH as [R|IH]; [left; by eapply refused_last|]. destruct Hd as [Ek|R].
    + right. intros k. rewrite IH. cbn [foldl]. f_equal. unfold param_step. cbn [fst snd]. case_bool_decide; naive_solver.
    + left. eapply refused_first; [exact R|by eapply kv_steps_grows].
Qed.

Lemma headers_value hdrs am k : hd None (foldl hset am hdrs k) = foldl (header_step k) (hd None (am k)) hdrs.
Proof.
  revert am. induction hdrs as [|h hdrs IH]; intros am; [done|]. cbn [foldl]. rewrite IH. f_equal.
  unfold header_step, hset, a_set. case_decide; case_bool_decide; naive_solver.
Qed.

Lemma strchr_split_length c s a b : strchr_split c s = Some (a, b) -> (length a + length b < length s)%nat.
Proof. intros ->%strchr_split_parts. rewrite length_app. cbn. lia. Qed.

Lemma cstr_length s : (length (cstr s) <= length s)%nat.
Proof. induction s as [|c s IH]; cbn; [done|]. destruct (Ascii.eqb c NUL); cbn; lia. Qed.

(** The copy for the path. *)
Lemma make_path_spec c s :
  al_ok (arena (mm c)) -> Z.of_nat (length s) < MAX_REQUEST ->
  exists st, regs_grow (arena (mm c)) st /\
    (make_path c s = Some (set_mm c (with_arena (mm c) st)) /\ refused (arena (mm c)) st \/
     make_path c s = Some (set_path (set_mm c (with_arena (mm c) st)) (Some (cstr (decode (cstr s)))))).
Proof.
  intros Ho Hs. unfold make_path. rewrite wrap64_small by (unfold MAX_REQUEST in *; lia).
  destruct (al_alloc _ (arena (mm c))) as [p st] eqn:Ea. exists st.
  apply alloc_regs in Ea as [G [[-> R]|(Hp & _)]]; [..|done|lia]; (split; [done|]); [by left|right].
  rewrite (proj2 (Z.eqb_neq p 0)) by lia. by rewrite decode_cstr_spec by apply cstr_nul_free.
Qed.

Lemma make_query_spec c s :
  al_ok (arena (mm c)) -> Z.of_nat (length s) < MAX_REQUEST -> query_params c = empty_kv_map ->
  exists c', make_query c s = Some c' /\ grows (arena (mm c)) (arena (mm c')) /\
    path c' = path c /\ req_headers c' = req_headers c /\
    (refused (arena (mm c)) (arena (mm c')) \/
     forall k, nul_free k -> map_kv_get (query_params c') (Some k) = Some (foldl (param_step k) None (query_pairs (cstr s)))).
Proof.
  intros Ho Hs Hq. unfold make_query. rewrite wrap64_small by (unfold MAX_REQUEST in *; lia).
  destruct (al_alloc _ (arena (mm c))) as [p st] eqn:Ea.
  apply alloc_grows in Ea as [G [[-> R]|(Hp & _)]]; [..|done|lia].
  { eexists. split; [done|]. split; [done|]. split; [done|]. split; [done|]. by left. }
  rewrite (proj2 (Z.eqb_neq p 0)) by done. change (query_params (set_mm c (with_arena (mm c) st))) with (query_params c).
  change (arena (mm (set_mm c (with_arena (mm c) st)))) with st. rewrite Hq.
  destruct (parse_query_spec (cstr s) st) as (q & st2 & am & -> & G2 & Hk & Hget);
    [apply G|apply cstr_nul_free|unfold small; pose proof (cstr_length s); lia|].
  run_binds. eexists. split; [done|]. cbn [mm set_query set_mm arena with_arena path req_headers query_params].
  split; [by eapply grows_trans|]. split; [done|]. split; [done|]. destruct Hk as [S|[R _]].
  - destruct (params_or_refused _ _ _ _ _ S) as [R|Hv]; [left; by eapply refused_last|right].
    intros k Hn. by rewrite Hget, Hv.
  - left. by eapply refused_last.
Qed.

(** The URL part of [finalize_request] on a view that is not empty. *)
Lemma finalize_url c url :
  al_ok (arena (mm c)) -> Z.of_nat (length url) < MAX_REQUEST -> url <> [] -> query_params c = empty_kv_map ->
  exists c', (match strchr_split "?" url with
              | None => make_path c url
              | Some (p, q) => c ← make_path c p; make_query c q
              end) = Some c' /\
    grows (arena (mm c)) (arena (mm c')) /\ req_headers c' = req_headers c /\
    (refused (arena (mm c)) (arena (mm c')) \/
     path c' = request_path url /\
     forall k, nul_free k -> map_kv_get (query_params c') (Some k) = Some (query_value url k)).
Proof.
  intros Ho Hs Hne Hq. unfold query_value.
  assert (request_path url = Some (cstr (decode (cstr (url_parts url).1)))) as -> by by destruct url.
  unfold url_parts. destruct (strchr_split "?" url) as [[p q]|] eqn:E; cbn [default from_option fst snd].
  - apply strchr_split_length in E. destruct (make_path_spec c p Ho) as (st & G & Hp); [lia|].
    set (c1 := set_mm c (with_arena (mm c) st)) in *.
    destruct Hp as [[-> R]| ->]; run_binds.
    + destruct (make_query_spec c1 q) as (c' & -> & G2 & _ & Eh & _); [apply G|lia|done|]. exists c'. split; [done|].
      split; [eapply grows_trans; [apply G|exact G2]|]. split; [done|]. left. eapply refused_weaken; [apply grows_refl, Ho|exact R|exact G2].
    + destruct (make_query_spec (set_path c1 (Some (cstr (decode (cstr p))))) q) as (c' & -> & G2 & Ep & Eh & Hk); [apply G|lia|done|].
      exists c'. split; [done|]. split; [eapply grows_trans; [apply G|exact G2]|]. split; [done|].
      destruct Hk as [R|Hk]; [left|by right]. eapply refused_last; [apply G|exact R].
  - destruct (make_path_spec c url Ho Hs) as (st & G & [[-> R]| ->]); eexists; (split; [done|]); (split; [apply G|]); (split; [done|]); [by left|right].
    split; [done|]. intros k Hk. cbn [query_params set_path set_mm]. rewrite Hq. by rewrite (map_kv_get_spec _ _ _ (proj2 (empty_kv_inv _ Ho)) Hk).
Qed.

Lemma finalize_request_spec blocks c r m :
  sim blocks c r -> fits r 0 -> r_field r = None ->
  exists c', finalize_request c m = Some c' /\ grows (arena (mm c)) (arena (mm c')) /\
    (refused (arena (mm c)) (arena (mm c')) \/
     path c' = request_path (default [] (r_url r)) /\ method c' = Some (method_name m) /\
     (forall k, nul_free k -> map_kv_get (query_params c') (Some k) = Some (query_value (default [] (r_url r)) k)) /\
     (forall k, name_ok k -> map_get (req_headers c') (Some k) = Some (hd None (r_am r k)))).
Proof.
  intros S F Ef. pose proof S as [Hw Hu Hk _ _ _ _ Hi Hv _ Hq Hp]. unfold finalize_request, flush_header.
  rewrite (holds_null _ _ _ Hk), Ef. run_binds. cbn zeta. cbn [current_url set_completed].
  assert (forall h, h = req_headers c -> forall k, name_ok k -> map_get h (Some k) = Some (hd None (r_am r k))) as Hget.
  { intros h -> k [? ?]. by rewrite (map_get_spec _ _ _ Hi), Hv. }
  assert ((is_null (current_url c) || (vlen (current_url c) =? 0) = true /\ default [] (r_url r) = []) \/
    (is_null (current_url c) || (vlen (current_url c) =? 0) = false /\ default [] (r_url r) <> [] /\
     read_view c (current_url c) = Some (default [] (r_url r)))) as Hc.
  { rewrite (holds_null _ _ _ Hu). unfold read_view. destruct (r_url r) as [[|x url]|]; cbn in Hu |- *; [| |by left].
    - destruct Hu as (_ & -> & _). by left.
    - destruct Hu as (_ & -> & L). right. rewrite Nat2Z.id. split; [by apply Z.eqb_neq; cbn|by split]. }
  destruct Hc as [(-> & ->)|(-> & Hne & Er)]; run_binds.
  { eexists. split; [done|]. split; [apply grows_refl, Hw|]. right. cbn [path method query_params req_headers set_method set_completed].
    split; [done|]. split; [done|]. split; [|by apply Hget]. intros k Hn. rewrite Hq.
    by rewrite (map_kv_get_spec _ _ _ (proj2 (empty_kv_inv (arena (mm c)) (mo_ok _ _ Hw))) Hn). }
  change (read_view (set_completed c false)) with (read_view c). rewrite Er. run_binds.
  destruct (finalize_url (set_completed c false) (default [] (r_url r))) as (c' & -> & G & Eh & Hr);
    [apply Hw|pose proof (ft_url _ _ F); destruct (r_url r); cbn in *; lia|done|done|].
  run_binds. eexists. split; [done|]. split; [exact G|]. destruct Hr as [R|[Ep Hqs]]; [by left|right].
  split; [exact Ep|]. split; [done|]. split; [exact Hqs|]. by apply Hget.
Qed.

Lemma run_events_app l1 l2 c c1 :
  run_events l1 c = Some (HPE_OK, c1) -> run_events (l1 ++ l2) c = run_events l2 c1.
Proof.
  revert c. induction l1 as [|e l1 IH]; intros c E; [by injection E as <-|]. cbn [app run_events] in *.
  destruct (step e c) as [[[] c2]|]; [by apply IH|done..].
Qed.

Lemma run_events_stop l1 l2 c c1 :
  run_events l1 c = Some (HPE_USER, c1) -> run_events (l1 ++ l2) c = Some (HPE_USER, c1).
Proof.
  revert c. induction l1 as [|e l1 IH]; intros c E; [done|]. cbn [app run_events] in *.
  destruct (step e c) as [[[] c2]|]; [by apply IH|done..].
Qed.

Lemma new_client_sim blocks st :
  al_ok st -> Forall (fun b => 0 < b.1 /\ al_foreign st b /\ Forall (disj b) (al_regs st)) blocks ->
  sim blocks (new_client st) rstart.
Proof.
  intros Ho Hb. constructor; cbn; try done; [|apply empty_map_inv]. constructor; cbn; [done..|]. by intros ? []%not_elem_of_nil.
Qed.

(** Every span of a good name is good. *)
Lemma message_ok urls hdrs : Forall (fun h => name_ok (concat h.1)) hdrs -> Forall token_ok (message urls hdrs).
Proof.
  intros Hh. unfold message. constructor; [done|]. apply Forall_app. split; [by apply Forall_map, Forall_true|].
  apply Forall_app. split; [|by repeat constructor]. induction Hh as [|[f v] hdrs Hf _ IH]; [done|]. cbn [flat_map].
  apply Forall_app. split; [|done]. unfold header_tokens. cbn [fst snd] in *. apply Forall_app. split.
  - clear -Hf. induction f as [|s f IHf]; [done|]. destruct Hf as [H1 H2]. cbn [concat] in *.
    apply nul_free_app in H1 as [? ?]. apply not_elem_of_app in H2 as [? ?]. constructor; [by split|]. apply IHf. by split.
  - constructor; [done|]. apply Forall_app. split; [by apply Forall_map, Forall_true|by repeat constructor].
Qed.

(** What the reads and the parser guarantee of the events of one request. *)
Record request_events (st : A) (urls : list bytes) (hdrs : list (list bytes * list bytes)) (l : list event) : Prop := {
  re_blocks : Forall (fun b => 0 < b.1 /\ al_foreign st b /\ Forall (disj b) (al_regs st)) (event_bufs l);
  re_apart : apart (event_bufs l);
  re_wf : events_wf None l;
  re_message : tokens None l = message urls hdrs;
  re_names : Forall (fun h => h.1 <> [] /\ name_ok (concat h.1)) hdrs;
  re_size : weights (message urls hdrs) < MAX_REQUEST;
}.

Lemma request_parsed urls hdrs l m st :
  al_ok st -> 0 <= max_header -> request_events st urls hdrs l ->
  out_of_memory (l ++ [EComplete m]) (new_client st) = true \/
  if within_limits urls hdrs
  then exists c, run_events (l ++ [EComplete m]) (new_client st) = Some (HPE_OK, c) /\
    grows st (arena (mm c)) /\ path c = request_path (concat urls) /\ method c = Some (method_name m) /\
    (forall k, nul_free k -> map_kv_get (query_params c) (Some k) = Some (query_value (concat urls) k)) /\
    (forall k, name_ok k -> map_get (req_headers c) (Some k) = Some (header_value hdrs k))
  else exists c, run_events (l ++ [EComplete m]) (new_client st) = Some (HPE_USER, c).
Proof.
  intros Ho Hm [Hb Hap Hwf Et Hn Hs].
  assert (Forall (fun h : list bytes * list bytes => h.1 <> []) hdrs) as Hne by (eapply Forall_impl; [exact Hn|]; by intros ? [? ?]).
  assert (Forall token_ok (tokens None l)) as Hok.
  { rewrite Et. apply message_ok. eapply Forall_impl; [exact Hn|]. by intros ? [? ?]. }
  assert (fits rstart (weights (tokens None l))) as F.
  { rewrite Et. pose proof (weights_nonneg (message urls hdrs)).
    constructor; cbn [rstart r_url r_field r_value r_total r_count osize]; lia. }
  destruct (run_sim (event_bufs l) l None (new_client st) rstart) as [Hoom|(v & c & Er & Hr)];
    [by apply new_client_sim|done..| |].
  { left. by apply oom_app. }
  pose proof (fits_run (tokens None l) rstart) as F'. rewrite Et, rrun_message in Hr, F' by done. rewrite Et in F.
  destruct (within_limits urls hdrs).
  2:{ right. subst v. exists c. by apply run_events_stop. }
  destruct Hr as (-> & G & S). destruct (finalize_request_spec _ c _ m S (F' _ F eq_refl) eq_refl) as (c' & E & G' & Hr).
  assert (run_events (l ++ [EComplete m]) (new_client st) = Some (HPE_OK, c')) as Erun.
  { rewrite (run_events_app _ _ _ _ Er). cbn. by rewrite E. }
  destruct Hr as [R|(Hp & Hme & Hq & Hh)].
  { left. eapply oom_end; [exact Er|]. eapply oom_now; [cbn; by rewrite E|exact G'|exact R]. }
  right. exists c'. split; [done|]. split; [by eapply grows_trans|]. cbn [between r_url r_am] in *.
  assert (default [] (concat_onto None urls) = concat urls) as Eu by by destruct urls.
  rewrite Eu in *. split; [done|]. split; [done|]. split; [done|]. intros k Hk. rewrite (Hh k Hk). f_equal. apply headers_value.
Qed.


End Parser.

(** ** A request in two reads, with a header name cut by the boundary *)

Definition wire_mem : mem :=
  mk_mem (mk_heap [(2 ^ 30, 4096); (2 ^ 31, 4096)] (map (fun i => 2 ^ 20 * Z.of_nat i) (seq 1 20)) ∅)
    (fun _ => []) (fun _ => 0).
Definition wire_arena : traced :=
  mk_traced (mk_run (mk_arena (2 ^ 20) 0 0 [] 4096 0 0 false) (csilk_arena_new 4096 wire_mem).2 [] []) [].

Lemma wire_mem_wf : mem_wf wire_mem.
Proof.
  constructor; [constructor| |]; cbn.
  - repeat (apply Forall_cons; split; [repeat split; by vm_compute|]). constructor.
  - intros b1 b2. rewrite !elem_of_cons, !elem_of_nil. unfold disj. intros [->|[->|[]]] [->|[->|[]]]; cbn; auto; lia.
  - constructor; try done; constructor.
  - constructor; constructor.
Qed.

Lemma wire_arena_ok : al_ok wire_arena.
Proof.
  exists [(2 ^ 30, 4096); (2 ^ 31, 4096)].
  apply (csilk_arena_new_spec 4096 wire_mem _ _ wire_mem_wf); [by unfold SIZE_MAX|by vm_compute].
Qed.

Definition wire_events : list event :=
  [EBuf (2 ^ 30, 4096) (lit "GET /a%20b?x=1&Y=2 HTTP/1.1" ++ [CR; "010"%char] ++ lit "Ho");
   EBegin; EUrl 4 10; EUrl 14 4; EField 29 2;
   EBuf (2 ^ 31, 4096) (lit "st: example.org" ++ [CR; "010"%char] ++ lit "HOST: b" ++ [CR; "010"%char; CR; "010"%char]);
   EField 0 2; EFieldDone; EValue 4 11; EValueDone; EField 17 4; EFieldDone; EValue 23 1; EValueDone; EHeadersDone].
Definition wire_urls : list bytes := [lit "/a%20b?x=1"; lit "&Y=2"].
Definition wire_headers : list (list bytes * list bytes) :=
  [([lit "Ho"; lit "st"], [lit "example.org"]); ([lit "HOST"], [lit "b"])].

Lemma wire_request : request_events wire_arena wire_urls wire_headers wire_events.
Proof.
  constructor.
  - assert (forall b, b ∈ [(2 ^ 30, 4096); (2 ^ 31, 4096)] -> al_foreign wire_arena b) as Hf.
    { intros b Hb. exists b. split; [|by split]. split; [vm_compute in Hb |- *; by right|].
      rewrite !elem_of_cons, elem_of_nil in Hb. destruct Hb as [->|[->|[]]]; apply (bool_decide_unpack _); by vm_compute. }
    repeat constructor; try done; (apply Hf; cbn; rewrite !elem_of_cons; auto).
  - intros i j b b' Hi Hj Hne. cbn in Hi, Hj. unfold disj.
    destruct i as [|[|i]], j as [|[|j]]; cbn in *; simplify_eq; cbn; lia.
  - cbn [wire_events events_wf]. repeat split; try (by vm_compute); eexists; (split; [done|]); apply (bool_decide_unpack _); by vm_compute.
  - by vm_compute.
  - repeat constructor; try done; apply (bool_decide_unpack _); by vm_compute.
  - by vm_compute.
Qed.


(** The limit on the URL is checked span by span: a URL of 14 bytes passes a
    limit of 10 when a read or the parser cuts it. *)
Example url_limit_per_span :
  (exists c, run_events 10 8192 10 (fun _ => []) (wire_events ++ [EComplete HTTP_GET]) (new_client wire_arena) = Some (HPE_OK, c)) /\
  10 < Z.of_nat (length (concat wire_urls)).
Proof.
  split; [|by vm_compute]. destruct (run_events 10 8192 10 _ _ _) as [[[] c]|] eqn:E; [by exists c|vm_compute in E; discriminate E..].
Qed.
