(* ===== verification/Simd.v ===== *)
(** * Path segments and comparisons with vector instructions

    Models src/src/core/primitives/router_simd.c: the AVX-512, AVX2, NEON and
    scalar variants of [get_next_segment], [csilk_memcmp_fast],
    [csilk_simd_find_char] and [csilk_common_prefix_len_fast].  Memory maps an
    address to a byte, or to nothing where no page is mapped; a load that
    touches an unmapped byte has no result.  A vector register is the list of
    its bytes, a compare mask an integer with one bit per byte (per bit of the
    byte for NEON), as the intrinsics define them. *)

From S2P Require Import Prelude.

#[local] Open Scope Z_scope.

Definition memory := Z -> option ascii.

(** [n] bytes at [a]. *)
Fixpoint load (m : memory) (a : Z) (n : nat) : option bytes :=
  match n with
  | O => Some []
  | S n' => c ← m a; l ← load m (a + 1) n'; Some (c :: l)
  end.

(** [movemask]: bit [i] is set when byte [i] satisfies the comparison. *)
Fixpoint movemask {A} (P : A -> bool) (l : list A) : Z :=
  match l with
  | [] => 0
  | c :: l' => (if P c then 1 else 0) + 2 * movemask P l'
  end.

(** A NEON lane: byte [i] is 0xFF or 0. *)
Fixpoint lane {A} (P : A -> bool) (l : list A) : Z :=
  match l with
  | [] => 0
  | c :: l' => (if P c then 255 else 0) + 256 * lane P l'
  end.

(** Count trailing zeros ([__builtin_ctz], defined for non-zero arguments). *)
Fixpoint ctz_pos (p : positive) : Z :=
  match p with xO p' => 1 + ctz_pos p' | _ => 0 end.
Definition ctz (z : Z) : Z := match z with Zpos p => ctz_pos p | _ => 0 end.

Definition SLASH : ascii := "/"%char.
Definition delim (c : ascii) : bool := Ascii.eqb c SLASH || Ascii.eqb c NUL.

(** ** Skipping and scanning, byte by byte *)

(** [while ( **p == '/') ( *p)++;] *)
Fixpoint skip_slashes (fuel : nat) (m : memory) (p : Z) : option Z :=
  match fuel with
  | O => None
  | S fuel' => c ← m p; if Ascii.eqb c SLASH then skip_slashes fuel' m (p + 1) else Some p
  end.

(** [while ( **p != '/' && **p != 0) ( *p)++;] *)
Fixpoint scan_scalar (fuel : nat) (m : memory) (p : Z) : option Z :=
  match fuel with
  | O => None
  | S fuel' => c ← m p; if delim c then Some p else scan_scalar fuel' m (p + 1)
  end.

(** ** Scanning with vectors *)

(** The index the mask of a 32- or 64-byte compare gives, if it is not zero. *)
Definition mask_index (data : bytes) : option Z :=
  let mask := movemask delim data in
  if mask =? 0 then None else Some (ctz mask).

(** NEON: two 64-bit lanes, trailing zero bits divided by eight. *)
Definition neon_index (P : ascii -> bool) (data : bytes) : option Z :=
  let mask_low := lane P (take 8 data) in
  let mask_high := lane P (drop 8 data) in
  if negb (mask_low =? 0) then Some (ctz mask_low / 8)
  else if negb (mask_high =? 0) then Some (8 + ctz mask_high / 8)
  else None.

(** The [while (1)] loop of the three variants: [W] bytes at a time away from
    the end of a page, one byte at a time near it. *)
Fixpoint scan_vector (index : bytes -> option Z) (W : nat) (fuel : nat) (m : memory) (curr : Z) : option Z :=
  match fuel with
  | O => None
  | S fuel' =>
      if Z.land curr 4095 <=? 4096 - Z.of_nat W then
        data ← load m curr W;
        match index data with
        | Some idx => Some (curr + idx)
        | None => scan_vector index W fuel' m (curr + Z.of_nat W)
        end
      else
        c ← m curr;
        if delim c then Some curr else scan_vector index W fuel' m (curr + 1)
  end.

(** The result of a call: the new [*p] and, unless it is null, the start and
    length of the segment. *)
Definition segment_result : Type := Z * option (Z * Z).

Definition vector_segment (index : bytes -> option Z) (W : nat) (fuel : nat) (m : memory) (p : Z)
  : option segment_result :=
  p ← skip_slashes fuel m p;
  c ← m p;
  if Ascii.eqb c NUL then Some (p, None) else
  curr ← scan_vector index W fuel m p;
  Some (curr, Some (p, curr - p)).

Definition get_next_segment_avx512 := vector_segment mask_index 64.
Definition get_next_segment_avx2 := vector_segment mask_index 32.
Definition get_next_segment_neon := vector_segment (neon_index delim) 16.

Definition get_next_segment_scalar (fuel : nat) (m : memory) (p : Z) : option segment_result :=
  c ← m p;
  if Ascii.eqb c NUL then Some (p, None) else
  p ← skip_slashes fuel m p;
  c ← m p;
  if Ascii.eqb c NUL then Some (p, None) else
  q ← scan_scalar fuel m p;
  Some (q, Some (p, q - p)).

(** What the compiler targets and what the processor reports. *)
Record cpu := mk_cpu { arch_x86_64 : bool; arch_aarch64 : bool; arch_neon : bool; built_avx512 : bool; has_avx512 : bool; has_avx2 : bool }.

Definition csilk_has_avx512 (f : cpu) : bool := built_avx512 f && has_avx512 f.
Definition csilk_has_avx2 (f : cpu) : bool := arch_x86_64 f && has_avx2 f.
Definition csilk_has_neon (f : cpu) : bool := arch_neon f.

Definition get_next_segment (f : cpu) (fuel : nat) (m : memory) (p : Z) : option segment_result :=
  if csilk_has_avx512 f then get_next_segment_avx512 fuel m p
  else if csilk_has_avx2 f then get_next_segment_avx2 fuel m p
  else if negb (arch_x86_64 f) && csilk_has_neon f then get_next_segment_neon fuel m p
  else get_next_segment_scalar fuel m p.

(** ** Reference: segments of a string *)

Fixpoint drop_slashes (s : bytes) : bytes :=
  match s with
  | c :: s' => if Ascii.eqb c SLASH then drop_slashes s' else s
  | [] => []
  end.

Fixpoint until_slash (s : bytes) : bytes * bytes :=
  match s with
  | c :: s' => if Ascii.eqb c SLASH then ([], s) else let '(a, b) := until_slash s' in (c :: a, b)
  | [] => ([], [])
  end.

(** The next segment and the rest of the path, or nothing at the end. *)
Definition next_segment (s : bytes) : option (bytes * bytes) :=
  match drop_slashes s with
  | [] => None
  | t => Some (until_slash t)
  end.

(** ** Strings in paged memory *)

Definition cstring (m : memory) (a : Z) (s : bytes) : Prop :=
  nul_free s /\ forall i c, (s ++ [NUL]) !! i = Some c -> m (a + Z.of_nat i) = Some c.

(** Mapping is per page of 4096 bytes. *)
Definition paged (m : memory) : Prop :=
  forall a b, a / 4096 = b / 4096 -> is_Some (m a) -> is_Some (m b).

Fixpoint first_idx {A} (P : A -> bool) (l : list A) : option nat :=
  match l with
  | [] => None
  | c :: l' => if P c then Some 0%nat else S <$> first_idx P l'
  end.

Lemma movemask_nonneg {A} (P : A -> bool) (l : list A) : 0 <= movemask P l.
Proof. induction l as [|c l IH]; cbn [movemask]; [lia|]. destruct (P c); lia. Qed.

(** The trailing zeros of the mask count the bytes before the first hit. *)
Lemma movemask_ctz {A} (P : A -> bool) (l : list A) :
  match first_idx P l with
  | None => movemask P l = 0
  | Some i => 0 < movemask P l /\ ctz (movemask P l) = Z.of_nat i
  end.
Proof.
  induction l as [|c l IH]; cbn [first_idx movemask]; [done|]. pose proof (movemask_nonneg P l).
  destruct (P c).
  - split; [lia|]. by destruct (movemask P l) as [|p|p]; [..|lia].
  - destruct (first_idx P l) as [j|]; cbn [fmap option_fmap option_map]; [|lia].
    destruct IH as [H1 H2]. destruct (movemask P l) as [|p|p]; [lia| |lia].
    split; [lia|]. change (0 + 2 * Z.pos p) with (Z.pos p~0). cbn [ctz ctz_pos] in *. lia.
Qed.

Lemma lane_nonneg {A} (P : A -> bool) (l : list A) : 0 <= lane P l.
Proof. induction l as [|c l IH]; cbn [lane]; [lia|]. destruct (P c); lia. Qed.

Lemma ctz_256 z : 0 < z -> ctz (256 * z) = 8 + ctz z.
Proof. intros H. destruct z as [|p|p]; [lia| |lia]. change (256 * Z.pos p) with (Z.pos p~0~0~0~0~0~0~0~0). cbn [ctz ctz_pos]. lia. Qed.

Lemma lane_ctz {A} (P : A -> bool) (l : list A) :
  match first_idx P l with
  | None => lane P l = 0
  | Some i => 0 < lane P l /\ ctz (lane P l) / 8 = Z.of_nat i
  end.
Proof.
  induction l as [|c l IH]; cbn [first_idx lane]; [done|]. pose proof (lane_nonneg P l).
  destruct (P c).
  - split; [lia|]. by destruct (lane P l) as [|p|p]; [..|lia].
  - destruct (first_idx P l) as [j|]; cbn [fmap option_fmap option_map]; [|lia].
    destruct IH as [H1 H2]. split; [lia|]. rewrite Z.add_0_l, ctz_256 by done.
    replace (8 + ctz (lane P l)) with (ctz (lane P l) + 1 * 8) by lia. rewrite Z.div_add by lia. lia.
Qed.

Lemma first_idx_app {A} (P : A -> bool) l1 l2 :
  first_idx P (l1 ++ l2) =
  match first_idx P l1 with Some i => Some i | None => (fun i => (length l1 + i)%nat) <$> first_idx P l2 end.
Proof.
  induction l1 as [|c l1 IH]; cbn; [by destruct (first_idx P l2)|]. destruct (P c); [done|]. rewrite IH.
  by destruct (first_idx P l1); [|destruct (first_idx P l2)].
Qed.

(** Both kinds of mask give the first hit. *)
Definition good_index (W : nat) (P : ascii -> bool) (index : bytes -> option Z) : Prop :=
  forall data, length data = W -> index data = Z.of_nat <$> first_idx P data.

Lemma mask_index_good W : good_index W delim mask_index.
Proof.
  intros data _. unfold mask_index. pose proof (movemask_ctz delim data) as H.
  destruct (first_idx delim data) as [i|]; cbn.
  - destruct H as [H1 H2]. destruct (Z.eqb_spec (movemask delim data) 0); [lia|]. by rewrite H2.
  - by rewrite H.
Qed.

Lemma neon_index_good P : good_index 16 P (neon_index P).
Proof.
  intros data Hl. unfold neon_index. pose proof (lane_ctz P (take 8 data)) as H1. pose proof (lane_ctz P (drop 8 data)) as H2.
  rewrite <- (take_drop 8 data) at 5. rewrite first_idx_app, length_take.
  destruct (first_idx P (take 8 data)) as [i|].
  - destruct H1 as [H1 E1]. destruct (Z.eqb_spec (lane P (take 8 data)) 0); [lia|]. cbn. by rewrite E1.
  - rewrite H1. cbn [Z.eqb negb]. destruct (first_idx P (drop 8 data)) as [i|]; cbn [fmap option_fmap option_map].
    + destruct H2 as [H2 E2]. destruct (Z.eqb_spec (lane P (drop 8 data)) 0); [lia|]. cbn [negb]. rewrite E2. f_equal. lia.
    + by rewrite H2.
Qed.

(** ** Loads *)

Lemma load_spec m a n l :
  length l = n -> (forall i c, l !! i = Some c -> m (a + Z.of_nat i) = Some c) -> load m a n = Some l.
Proof.
  intros <-. revert a. induction l as [|c l IH]; intros a H; [done|]. cbn [length load].
  pose proof (H 0%nat c eq_refl) as H0. rewrite Z.add_0_r in H0. rewrite H0. cbn [mbind option_bind].
  rewrite IH; [done|]. intros i c' Hi. rewrite <- (H (S i) c' Hi). f_equal. lia.
Qed.

Lemma load_mapped m a n :
  (forall i, 0 <= i < Z.of_nat n -> is_Some (m (a + i))) ->
  exists l, load m a n = Some l /\ length l = n /\ forall i c, l !! i = Some c -> m (a + Z.of_nat i) = Some c.
Proof.
  revert a. induction n as [|n IH]; intros a H; [by exists []|].
  destruct (H 0) as [c Hc]; [lia|]. rewrite Z.add_0_r in Hc.
  destruct (IH (a + 1)) as (l & El & Hl & Hi).
  { intros i Hi. replace (a + 1 + i) with (a + (1 + i)) by lia. apply H. lia. }
  exists (c :: l). cbn [load length]. rewrite Hc. cbn [mbind option_bind]. rewrite El, Hl. split_and!; [done..|].
  intros [|i] c'; cbn; [intros [= <-]; by rewrite Z.add_0_r|]. intros Hc'. rewrite <- (Hi i c' Hc'). f_equal. lia.
Qed.

(** A load that does not reach the end of the page of a mapped byte. *)
Lemma load_in_page m a W :
  paged m -> is_Some (m a) -> 0 <= a -> Z.land a 4095 <= 4096 - Z.of_nat W ->
  exists l, load m a W = Some l /\ length l = W /\ forall i c, l !! i = Some c -> m (a + Z.of_nat i) = Some c.
Proof.
  intros Hp Ha Hnn Hl. apply load_mapped. intros i Hi. apply (Hp a); [|done].
  change 4095 with (Z.ones 12) in Hl. rewrite Z.land_ones in Hl by lia. change (2 ^ 12) with 4096 in Hl.
  Z.div_mod_to_equations; lia.
Qed.

Lemma first_idx_Some {A} (P : A -> bool) (l : list A) j :
  first_idx P l = Some j <->
  (exists c, l !! j = Some c /\ P c = true) /\ forall i c, (i < j)%nat -> l !! i = Some c -> P c = false.
Proof.
  revert j. induction l as [|x l IH]; intros j; cbn [first_idx].
  { split; [done|]. by intros [(c & H & _) _]. }
  destruct (P x) eqn:Ex.
  - split.
    + intros [= <-]. split; [by exists x|lia].
    + intros [_ H]. destruct j as [|j]; [done|]. specialize (H 0%nat x ltac:(lia) eq_refl). congruence.
  - destruct (first_idx P l) as [k|] eqn:E; cbn [fmap option_fmap option_map].
    + destruct (proj1 (IH k) eq_refl) as [Hk Hb]. split.
      * intros [= <-]. split; [done|]. intros [|i] c Hi; cbn; [by intros [= <-]|]. apply Hb. lia.
      * intros [(c & Hc & HP) Hlt]. destruct j as [|j]; cbn in Hc; [congruence|]. do 2 f_equal.
        assert (Some k = Some j) as [= <-]; [|done]. apply IH. split; [by exists c|].
        intros i c' Hi. apply (Hlt (S i)). lia.
    + split; [done|]. intros [(c & Hc & HP) Hlt]. destruct j as [|j]; cbn in Hc; [congruence|].
      assert (None = Some j) as ?; [|done]. apply IH. split; [by exists c|]. intros i c' Hi. apply (Hlt (S i)). lia.
Qed.

Lemma first_idx_None {A} (P : A -> bool) (l : list A) : first_idx P l = None <-> forall c, c ∈ l -> P c = false.
Proof.
  induction l as [|x l IH]; cbn [first_idx]; [split; [by intros _ c []%not_elem_of_nil|done]|].
  destruct (P x) eqn:Ex.
  - split; [done|]. intros H. specialize (H x ltac:(by left)). congruence.
  - rewrite fmap_None, IH. split; [intros H c [->|]%elem_of_cons; auto|intros H c Hc; apply H; by right].
Qed.

(** A vector that agrees with the memory at [curr] finds the same first hit. *)
Lemma first_idx_agree {A} (P : A -> bool) (l data : list A) j :
  (forall i c, l !! i = Some c -> (i < length data)%nat -> data !! i = Some c) -> first_idx P l = Some j ->
  first_idx P data = if (j <? length data)%nat then Some j else None.
Proof.
  intros Ha Hj. apply first_idx_Some in Hj as [(c & Hc & HP) Hlt].
  pose proof (lookup_lt_Some _ _ _ Hc) as Hjl.
  assert (forall i d, (i < j)%nat -> data !! i = Some d -> P d = false) as Hlt'.
  { intros i d Hi Hd. destruct (lookup_lt_is_Some_2 l i) as [d' Hd']; [lia|].
    pose proof (Ha i d' Hd' (lookup_lt_Some _ _ _ Hd)) as E. rewrite Hd in E. injection E as ->. by apply (Hlt i). }
  destruct (Nat.ltb_spec j (length data)).
  - apply first_idx_Some. split; [exists c; split; [by apply Ha|done]|done].
  - apply first_idx_None. intros d Hd. apply list_elem_of_lookup in Hd as [i Hi].
    apply (Hlt' i); [|done]. apply lookup_lt_Some in Hi. lia.
Qed.

(** ** The scans stop at the first delimiter *)

(** The memory at [a] starts with [l]. *)
Definition starts (m : memory) (a : Z) (l : bytes) : Prop :=
  forall i c, l !! i = Some c -> m (a + Z.of_nat i) = Some c.

Lemma starts_drop m a l n : starts m a l -> starts m (a + Z.of_nat n) (drop n l).
Proof.
  intros H i c Hi. rewrite lookup_drop in Hi. rewrite <- (H _ _ Hi). f_equal. lia.
Qed.

Lemma starts_head m a c l : starts m a (c :: l) -> m a = Some c.
Proof. intros H. specialize (H 0%nat c eq_refl). by rewrite Z.add_0_r in H. Qed.

Lemma starts_tail m a c l : starts m a (c :: l) -> starts m (a + 1) l.
Proof. intros H. exact (starts_drop m a (c :: l) 1 H). Qed.

Lemma first_idx_drop {A} (P : A -> bool) (l : list A) j n :
  first_idx P l = Some j -> (n <= j)%nat -> first_idx P (drop n l) = Some (j - n)%nat.
Proof.
  intros Hj Hn. apply first_idx_Some in Hj as [(c & Hc & HP) Hlt]. apply first_idx_Some. split.
  - exists c. rewrite lookup_drop. split; [|done]. rewrite <- Hc. f_equal. lia.
  - intros i d Hi Hd. rewrite lookup_drop in Hd. apply (Hlt (n + i)%nat); [lia|done].
Qed.

Lemma scan_scalar_spec fuel m a l j :
  starts m a l -> first_idx delim l = Some j -> (j < fuel)%nat -> scan_scalar fuel m a = Some (a + Z.of_nat j).
Proof.
  revert a l j. induction fuel as [|fuel IH]; intros a l j Hs Hj Hf; [lia|].
  destruct l as [|c l]; [done|]. cbn [scan_scalar]. rewrite (starts_head _ _ _ _ Hs). cbn [mbind option_bind].
  cbn [first_idx] in Hj. destruct (delim c); [injection Hj as <-; f_equal; lia|].
  destruct (first_idx delim l) as [k|] eqn:E; [|done]. injection Hj as <-.
  rewrite (IH (a + 1) l k); [f_equal; lia|by eapply starts_tail|done|lia].
Qed.

Lemma scan_vector_spec index W fuel m a l j :
  good_index W delim index -> (0 < W)%nat -> paged m -> 0 <= a ->
  starts m a l -> first_idx delim l = Some j -> (j < fuel)%nat ->
  scan_vector index W fuel m a = Some (a + Z.of_nat j).
Proof.
  intros Hi HW Hp. revert a l j. induction fuel as [|fuel IH]; intros a l j Ha Hs Hj Hf; [lia|].
  cbn [scan_vector]. assert (is_Some (m a)) as Hma.
  { destruct l as [|c l]; [done|]. rewrite (starts_head _ _ _ _ Hs). eauto. }
  destruct (Z.leb_spec (Z.land a 4095) (4096 - Z.of_nat W)).
  - destruct (load_in_page m a W Hp Hma Ha) as (data & -> & Hl & Hd); [done|]. cbn [mbind option_bind].
    rewrite (Hi data Hl), (first_idx_agree delim l data j), Hl; [|..|done].
    2: { intros i c Hic Hlt. destruct (lookup_lt_is_Some_2 data i Hlt) as [d Hdi]. rewrite Hdi.
         pose proof (Hs i c Hic) as E1. rewrite (Hd i d Hdi) in E1. by injection E1 as ->. }
    destruct (Nat.ltb_spec j W); [done|]. cbn [fmap option_fmap option_map].
    rewrite (IH (a + Z.of_nat W) (drop W l) (j - W)%nat); [f_equal; lia|lia|by apply starts_drop|by apply first_idx_drop|lia].
  - destruct l as [|c l]; [done|]. rewrite (starts_head _ _ _ _ Hs). cbn [mbind option_bind].
    cbn [first_idx] in Hj. destruct (delim c); [injection Hj as <-; f_equal; lia|].
    destruct (first_idx delim l) as [k|] eqn:E; [|done]. injection Hj as <-.
    rewrite (IH (a + 1) l k); [f_equal; lia|lia|by eapply starts_tail|done|lia].
Qed.

(** ** Agreement with the reference *)

Lemma skip_slashes_spec fuel m a s :
  (length s < fuel)%nat -> starts m a (s ++ [NUL]) ->
  skip_slashes fuel m a = Some (a + Z.of_nat (length s - length (drop_slashes s))) /\
  starts m (a + Z.of_nat (length s - length (drop_slashes s))) (drop_slashes s ++ [NUL]).
Proof.
  revert a s. induction fuel as [|fuel IH]; intros a s Hf Hs; [lia|].
  destruct s as [|c s]; cbn [skip_slashes drop_slashes app length] in *.
  - rewrite (starts_head _ _ _ _ Hs). cbn [mbind option_bind]. rewrite Z.add_0_r. by split.
  - rewrite (starts_head _ _ _ _ Hs). cbn [mbind option_bind]. destruct (Ascii.eqb_spec c SLASH).
    + destruct (IH (a + 1) s ltac:(lia) (starts_tail _ _ _ _ Hs)) as [E1 E2].
      assert (length (drop_slashes s) <= length s)%nat as Hle
        by (clear; induction s as [|d s IH]; cbn; [done|]; destruct (Ascii.eqb d SLASH); cbn; lia).
      replace (a + Z.of_nat (S (length s) - length (drop_slashes s)))
        with (a + 1 + Z.of_nat (length s - length (drop_slashes s))) by lia. by split.
    + cbn [length]. rewrite Nat.sub_diag, Z.add_0_r. by split.
Qed.

Lemma until_slash_spec t :
  nul_free t ->
  first_idx delim (t ++ [NUL]) = Some (length (until_slash t).1) /\ t = (until_slash t).1 ++ (until_slash t).2.
Proof.
  induction t as [|c t IH]; intros Hn; [done|]. apply nul_free_cons in Hn as [Hc Hn]. destruct (IH Hn) as [E1 E2].
  cbn [app first_idx until_slash]. unfold delim. destruct (Ascii.eqb_spec c SLASH); [done|].
  destruct (Ascii.eqb_spec c NUL); [done|]. cbn [orb].
  change (first_idx (fun c0 => Ascii.eqb c0 SLASH || Ascii.eqb c0 NUL)) with (first_idx delim).
  destruct (until_slash t) as [x y]. cbn [fst snd length app] in *. rewrite E1. by rewrite E2.
Qed.

(** What a call at address [a] of the string [s] gives. *)
Definition segment_at (a : Z) (s : bytes) : segment_result :=
  match next_segment s with
  | None => (a + Z.of_nat (length s), None)
  | Some (seg, rest) =>
      let p := a + Z.of_nat (length s - length (seg ++ rest)) in
      (p + Z.of_nat (length seg), Some (p, Z.of_nat (length seg)))
  end.

Lemma drop_slashes_le s : (length (drop_slashes s) <= length s)%nat.
Proof. induction s as [|c s IH]; cbn; [done|]. destruct (Ascii.eqb c SLASH); cbn; lia. Qed.

Lemma drop_slashes_nul_free s : nul_free s -> nul_free (drop_slashes s).
Proof.
  induction s as [|c s IH]; intros H; [done|]. cbn. destruct (Ascii.eqb c SLASH); [|done].
  apply IH. by apply nul_free_cons in H as [_ H].
Qed.

(** Any scan that stops at the first delimiter makes the body exact. *)
Lemma segment_body m a s fuel scan :
  cstring m a s -> (length s < fuel)%nat -> 0 <= a ->
  (forall p l j, 0 <= p -> starts m p l -> first_idx delim l = Some j -> (j < fuel)%nat -> scan p = Some (p + Z.of_nat j)) ->
  (p ← skip_slashes fuel m a;
   c ← m p;
   if Ascii.eqb c NUL then Some (p, None) else
   curr ← scan p;
   Some (curr, Some (p, curr - p))) = Some (segment_at a s).
Proof.
  intros [Hn Hs] Hf Ha Hscan. destruct (skip_slashes_spec fuel m a s Hf Hs) as [-> Hs'].
  cbn [mbind option_bind]. unfold segment_at, next_segment. pose proof (drop_slashes_le s) as Hle.
  pose proof (drop_slashes_nul_free s Hn) as Hn'. destruct (drop_slashes s) as [|c t] eqn:Ed.
  - rewrite (starts_head _ _ _ _ Hs'). cbn. do 3 f_equal. lia.
  - pose proof (starts_head _ _ _ _ Hs') as ->. cbn [mbind option_bind].
    destruct (until_slash_spec (c :: t) Hn') as [E1 E2]. apply nul_free_cons in Hn' as [Hc _].
    destruct (Ascii.eqb_spec c NUL); [done|]. destruct (until_slash (c :: t)) as [seg rest]. cbn [fst snd] in *.
    assert (length (c :: t) = length (seg ++ rest)) as El by congruence. rewrite <- El. rewrite length_app in El.
    rewrite (Hscan _ ((c :: t) ++ [NUL]) (length seg)); [|lia|done|done|lia].
    cbn [mbind option_bind]. do 3 f_equal. f_equal. lia.
Qed.

Lemma vector_segment_spec index W fuel m a s :
  good_index W delim index -> (0 < W)%nat -> paged m -> 0 <= a -> cstring m a s -> (length s < fuel)%nat ->
  vector_segment index W fuel m a = Some (segment_at a s).
Proof. intros Hi HW Hp Ha Hs Hf. apply segment_body; [done..|]. intros. by eapply scan_vector_spec. Qed.

Lemma get_next_segment_scalar_spec fuel m a s :
  0 <= a -> cstring m a s -> (length s < fuel)%nat -> get_next_segment_scalar fuel m a = Some (segment_at a s).
Proof.
  intros Ha Hs Hf. unfold get_next_segment_scalar. destruct s as [|c s].
  - destruct Hs as [_ Hs]. rewrite (starts_head _ _ _ _ Hs). cbn. by rewrite Z.add_0_r.
  - pose proof (starts_head m a c (s ++ [NUL]) (proj2 Hs)) as ->. cbn [mbind option_bind].
    pose proof (proj1 (proj1 (nul_free_cons c s) (proj1 Hs))) as Hc.
    destruct (Ascii.eqb_spec c NUL); [done|]. apply segment_body; [done..|]. intros. by eapply scan_scalar_spec.
Qed.

(** C23: on every processor (AVX-512, AVX2, NEON or none) [get_next_segment]
    gives the first '/'-delimited segment of the string at [a] and moves the
    pointer past it, or gives no segment and stops at the terminator; no load
    touches an unmapped page although vectors run past the terminator. *)
Theorem get_next_segment_exact (f : cpu) (m : memory) (a : Z) (s : bytes) (fuel : nat)
  (Hm : paged m) (Ha : 0 <= a) (Hs : cstring m a s) (Hf : (length s < fuel)%nat) :
  get_next_segment f fuel m a = Some (segment_at a s).
Proof.
  unfold get_next_segment. destruct (csilk_has_avx512 f).
  { apply vector_segment_spec; auto using mask_index_good; lia. }
  destruct (csilk_has_avx2 f).
  { apply vector_segment_spec; auto using mask_index_good; lia. }
  destruct (negb (arch_x86_64 f) && csilk_has_neon f).
  { apply vector_segment_spec; auto using neon_index_good; lia. }
  by apply get_next_segment_scalar_spec.
Qed.

(** Two mapped pages, the string [s] at [a], zeros elsewhere. *)
Definition demo_pages (a : Z) (s : bytes) : memory := fun x =>
  if (0 <=? x) && (x <? 8192) then Some (if x <? a then NUL else nth (Z.to_nat (x - a)) s NUL) else None.

Lemma demo_pages_paged a s : paged (demo_pages a s).
Proof.
  intros x y Hxy. unfold demo_pages. intros [c Hc]. destruct (Z.leb_spec 0 x), (Z.ltb_spec x 8192); try done.
  destruct (Z.leb_spec 0 y); [|Z.div_mod_to_equations; lia].
  destruct (Z.ltb_spec y 8192); [|Z.div_mod_to_equations; lia]. eexists. by cbn [andb].
Qed.

Lemma demo_pages_string a s :
  0 <= a -> a + Z.of_nat (length s) < 8192 -> nul_free s -> cstring (demo_pages a s) a s.
Proof.
  intros Ha Hl Hn. split; [done|]. intros i c Hi. pose proof (lookup_lt_Some _ _ _ Hi) as H. rewrite length_app in H. cbn in H.
  unfold demo_pages. destruct (Z.leb_spec 0 (a + Z.of_nat i)), (Z.ltb_spec (a + Z.of_nat i) 8192); try lia. cbn [andb].
  destruct (Z.ltb_spec (a + Z.of_nat i) a); [lia|]. f_equal. replace (Z.to_nat (a + Z.of_nat i - a)) with i by lia.
  destruct (decide (i < length s)%nat).
  - rewrite lookup_app_l in Hi by done. by apply nth_lookup_Some.
  - rewrite lookup_app_r in Hi by lia. rewrite nth_overflow by lia.
    replace (i - length s)%nat with 0%nat in Hi by lia. by injection Hi.
Qed.

Lemma get_next_segment_exact_witness :
  let s := lit "//users/42" in
  get_next_segment (mk_cpu true false false false false true) 20 (demo_pages 4086 s) 4086 = Some (4093, Some (4088, 5)).
Proof.
  exact (get_next_segment_exact (mk_cpu true false false false false true) (demo_pages 4086 (lit "//users/42")) 4086
           (lit "//users/42") 20 (demo_pages_paged _ _) ltac:(done)
           (demo_pages_string 4086 (lit "//users/42") ltac:(lia) ltac:(by vm_compute) ltac:(apply (bool_decide_unpack _); by vm_compute))
           ltac:(apply (bool_decide_unpack _); by vm_compute)).
Defined.

(** ** Comparing buffers *)

(** A little-endian word, as [memcpy] into an integer reads it. *)
Fixpoint le_word (l : bytes) : Z :=
  match l with
  | [] => 0
  | c :: l' => cval c + 256 * le_word l'
  end.

Definition same (p : ascii * ascii) : bool := Ascii.eqb p.1 p.2.

(** One step of a comparison loop: are these [W] bytes equal? *)
Definition mask_equal (W : nat) (v1 v2 : bytes) : bool := movemask same (zip v1 v2) =? 2 ^ Z.of_nat W - 1.
Definition neon_equal (v1 v2 : bytes) : bool :=
  (lane same (zip (take 8 v1) (take 8 v2)) =? 2 ^ 64 - 1) && (lane same (zip (drop 8 v1) (drop 8 v2)) =? 2 ^ 64 - 1).
Definition word_equal (v1 v2 : bytes) : bool := le_word v1 =? le_word v2.

(** [while (n >= W)]: [inl tt] is [return 0], [inr] the state after the loop. *)
Fixpoint compare_loop (equal : bytes -> bytes -> bool) (W fuel : nat) (m : memory) (s1 s2 : Z) (n : nat)
  : option (unit + Z * Z * nat) :=
  match fuel with
  | O => None
  | S fuel' =>
      if (W <=? n)%nat then
        v1 ← load m s1 W;
        v2 ← load m s2 W;
        if equal v1 v2 then compare_loop equal W fuel' m (s1 + Z.of_nat W) (s2 + Z.of_nat W) (n - W)
        else Some (inl tt)
      else Some (inr (s1, s2, n))
  end.

(** [if (n >= W)], one step. *)
Definition compare_once (W : nat) (m : memory) (s1 s2 : Z) (n : nat) : option (unit + Z * Z * nat) :=
  if (W <=? n)%nat then
    v1 ← load m s1 W;
    v2 ← load m s2 W;
    if word_equal v1 v2 then Some (inr (s1 + Z.of_nat W, s2 + Z.of_nat W, (n - W)%nat)) else Some (inl tt)
  else Some (inr (s1, s2, n)).

(** What follows in the function when the step did not return. *)
Definition after (r : option (unit + Z * Z * nat)) (k : Z -> Z -> nat -> option bool) : option bool :=
  match r with
  | None => None
  | Some (inl _) => Some false
  | Some (inr (s1, s2, n)) => k s1 s2 n
  end.

(** The word-at-a-time end of [csilk_memcmp_fast]. *)
Definition compare_words (m : memory) (s1 s2 : Z) (n : nat) : option bool :=
  after (compare_loop word_equal 8 (S n) m s1 s2 n) (fun s1 s2 n =>
  after (compare_once 4 m s1 s2 n) (fun s1 s2 n =>
  after (compare_once 2 m s1 s2 n) (fun s1 s2 n =>
  if (n =? 1)%nat then c1 ← m s1; c2 ← m s2; Some (Ascii.eqb c1 c2) else Some true))).

(** [csilk_memcmp_avx512], [_avx2] and [_neon], which call [csilk_memcmp_fast]
    for what is left. *)
Definition compare_vector (equal : bytes -> bytes -> bool) (W : nat)
    (fast : Z -> Z -> nat -> option bool) (m : memory) (s1 s2 : Z) (n : nat) : option bool :=
  after (compare_loop equal W (S n) m s1 s2 n) (fun s1 s2 n =>
  if (n =? 0)%nat then Some true else fast s1 s2 n).

Definition csilk_memcmp_avx512 := compare_vector (mask_equal 64) 64.
Definition csilk_memcmp_avx2 := compare_vector (mask_equal 32) 32.
Definition csilk_memcmp_neon := compare_vector neon_equal 16.

(** [depth] bounds the nested calls: at most three. *)
Fixpoint csilk_memcmp_fast (depth : nat) (f : cpu) (m : memory) (s1 s2 : Z) (n : nat) : option bool :=
  match depth with
  | O => None
  | S depth' =>
      let fast := csilk_memcmp_fast depth' f m in
      if (n =? 0)%nat then Some true
      else if (64 <=? n)%nat && csilk_has_avx512 f then csilk_memcmp_avx512 fast m s1 s2 n
      else if (32 <=? n)%nat && csilk_has_avx2 f then csilk_memcmp_avx2 fast m s1 s2 n
      else if negb (arch_x86_64 f) && (16 <=? n)%nat && csilk_has_neon f then csilk_memcmp_neon fast m s1 s2 n
      else if arch_x86_64 f || arch_aarch64 f then compare_words m s1 s2 n
      else v1 ← load m s1 n; v2 ← load m s2 n; Some (bool_decide (v1 = v2))
  end.

Lemma load_starts m a l W : starts m a l -> (W <= length l)%nat -> load m a W = Some (take W l).
Proof.
  revert a l. induction W as [|W IH]; intros a l Hs HW; [done|]. destruct l as [|c l]; [cbn in HW; lia|].
  cbn [load]. rewrite (starts_head _ _ _ _ Hs). cbn [mbind option_bind].
  rewrite (IH (a + 1) l); [done|by eapply starts_tail|cbn in HW; lia].
Qed.

Definition good_equal (W : nat) (equal : bytes -> bytes -> bool) : Prop :=
  forall v1 v2, length v1 = W -> length v2 = W -> equal v1 v2 = bool_decide (v1 = v2).

(** The rest of a comparison, where fewer than [B] bytes are left. *)
Definition compares (m : memory) (B : nat) (k : Z -> Z -> nat -> option bool) : Prop :=
  forall s1 s2 l1 l2, starts m s1 l1 -> starts m s2 l2 -> length l1 = length l2 -> (length l1 < B)%nat ->
  k s1 s2 (length l1) = Some (bool_decide (l1 = l2)).

Lemma bool_decide_split (l1 l2 : bytes) W :
  bool_decide (l1 = l2) = bool_decide (take W l1 = take W l2) && bool_decide (drop W l1 = drop W l2).
Proof.
  rewrite <- bool_decide_and. apply bool_decide_ext. split; [by intros ->|]. intros [H1 H2].
  by rewrite <- (take_drop W l1), <- (take_drop W l2), H1, H2.
Qed.

Lemma compare_loop_spec m equal W fuel k s1 s2 l1 l2 :
  good_equal W equal -> (0 < W)%nat -> compares m W k -> (length l1 < fuel)%nat ->
  starts m s1 l1 -> starts m s2 l2 -> length l1 = length l2 ->
  after (compare_loop equal W fuel m s1 s2 (length l1)) k = Some (bool_decide (l1 = l2)).
Proof.
  intros He HW Hk. revert s1 s2 l1 l2. induction fuel as [|fuel IH]; intros s1 s2 l1 l2 Hf H1 H2 Hl; [lia|].
  cbn [compare_loop]. destruct (Nat.leb_spec W (length l1)); [|by apply Hk].
  rewrite (load_starts m s1 l1 W H1), (load_starts m s2 l2 W H2) by lia. cbn [mbind option_bind].
  rewrite He by (rewrite length_take; lia). rewrite (bool_decide_split l1 l2 W).
  case_bool_decide; [|done]. cbn [andb]. rewrite <- length_drop.
  apply IH; [rewrite length_drop; lia|by apply starts_drop|by apply starts_drop|rewrite !length_drop; lia].
Qed.

Lemma le_word_inj v1 v2 : length v1 = length v2 -> le_word v1 = le_word v2 -> v1 = v2.
Proof.
  revert v2. induction v1 as [|c v1 IH]; intros [|d v2] Hl He; try done. cbn [le_word length] in *.
  pose proof (cval_range c). pose proof (cval_range d).
  assert (cval c = cval d) as E1%cval_inj by lia. subst d. f_equal. apply IH; lia.
Qed.

Lemma word_equal_good W : good_equal W word_equal.
Proof.
  intros v1 v2 H1 H2. unfold word_equal. case_bool_decide as H; [subst; apply Z.eqb_refl|].
  apply Z.eqb_neq. intros E. apply H. apply le_word_inj; congruence.
Qed.

Lemma compare_once_spec m W k s1 s2 l1 l2 :
  compares m W k -> (length l1 < 2 * W)%nat ->
  starts m s1 l1 -> starts m s2 l2 -> length l1 = length l2 ->
  after (compare_once W m s1 s2 (length l1)) k = Some (bool_decide (l1 = l2)).
Proof.
  intros Hk Hf H1 H2 Hl. unfold compare_once. destruct (Nat.leb_spec W (length l1)); [|by apply Hk].
  rewrite (load_starts m s1 l1 W H1), (load_starts m s2 l2 W H2) by lia. cbn [mbind option_bind].
  rewrite (word_equal_good W) by (rewrite length_take; lia). rewrite (bool_decide_split l1 l2 W).
  case_bool_decide; [|done]. cbn [andb after]. rewrite <- length_drop.
  apply Hk; [by apply starts_drop|by apply starts_drop|rewrite !length_drop; lia|rewrite length_drop; lia].
Qed.

Lemma compare_words_spec m B : compares m B (compare_words m).
Proof.
  intros s1 s2 l1 l2 H1 H2 Hl _. apply compare_loop_spec; auto using word_equal_good; [lia|]. clear.
  intros s1 s2 l1 l2 H1 H2 Hl Hf. apply compare_once_spec; auto. clear.
  intros s1 s2 l1 l2 H1 H2 Hl Hf. apply compare_once_spec; auto. clear.
  intros s1 s2 l1 l2 H1 H2 Hl Hf. destruct l1 as [|c [|? ?]], l2 as [|d [|? ?]]; cbn in Hl, Hf; try lia; cbn.
  - by rewrite bool_decide_true.
  - rewrite (starts_head _ _ _ _ H1), (starts_head _ _ _ _ H2). cbn. f_equal.
    destruct (Ascii.eqb_spec c d); [by rewrite bool_decide_true by congruence|by rewrite bool_decide_false by congruence].
Qed.

(** A full mask: no byte fails the comparison. *)
Lemma movemask_negb {A} (P : A -> bool) l :
  movemask (fun x => negb (P x)) l = 2 ^ Z.of_nat (length l) - 1 - movemask P l.
Proof.
  induction l as [|x l IH]; [done|]. cbn [movemask length]. rewrite IH, Nat2Z.inj_succ, Z.pow_succ_r by lia.
  destruct (P x); cbn [negb]; lia.
Qed.

Lemma lane_negb {A} (P : A -> bool) l :
  lane (fun x => negb (P x)) l = 256 ^ Z.of_nat (length l) - 1 - lane P l.
Proof.
  induction l as [|x l IH]; [done|]. cbn [lane length]. rewrite IH, Nat2Z.inj_succ, Z.pow_succ_r by lia.
  destruct (P x); cbn [negb]; lia.
Qed.

Definition differ (p : ascii * ascii) : bool := negb (same p).

Lemma first_differ_None (v1 v2 : bytes) :
  length v1 = length v2 -> first_idx differ (zip v1 v2) = None <-> v1 = v2.
Proof.
  revert v2. induction v1 as [|c v1 IH]; intros [|d v2] Hl; try done. cbn [zip zip_with first_idx].
  unfold differ at 1, same at 1. cbn [fst snd]. destruct (Ascii.eqb_spec c d) as [->|Hn]; cbn [negb].
  - rewrite fmap_None. setoid_rewrite IH; [|by injection Hl]. split; congruence.
  - split; [done|]. congruence.
Qed.

(** A test of the complement mask decides equality. *)
Lemma full_mask_equal (v1 v2 : bytes) (mask full : Z) :
  length v1 = length v2 ->
  match first_idx differ (zip v1 v2) with None => full - mask = 0 | Some _ => 0 < full - mask end ->
  (mask =? full) = bool_decide (v1 = v2).
Proof.
  intros Hl H. pose proof (first_differ_None v1 v2 Hl) as Hd. destruct (first_idx differ (zip v1 v2)) as [i|].
  - rewrite bool_decide_false by (intros E%Hd; done). apply Z.eqb_neq. lia.
  - rewrite bool_decide_true by by apply Hd. apply Z.eqb_eq. lia.
Qed.

Lemma mask_equal_good W : good_equal W (mask_equal W).
Proof.
  intros v1 v2 H1 H2. apply full_mask_equal; [lia|]. rewrite <- H1, <- (length_zip_with_l pair v1 v2) by lia.
  rewrite <- movemask_negb. pose proof (movemask_ctz differ (zip v1 v2)) as H.
  destruct (first_idx differ (zip v1 v2)); [apply H|done].
Qed.

Lemma lane_full v1 v2 :
  length v1 = 8%nat -> length v2 = 8%nat -> (lane same (zip v1 v2) =? 2 ^ 64 - 1) = bool_decide (v1 = v2).
Proof.
  intros H1 H2. apply full_mask_equal; [lia|]. change (2 ^ 64) with (256 ^ Z.of_nat 8).
  rewrite <- H1, <- (length_zip_with_l pair v1 v2) by lia. rewrite <- lane_negb.
  pose proof (lane_ctz differ (zip v1 v2)) as H. destruct (first_idx differ (zip v1 v2)); [apply H|done].
Qed.

Lemma neon_equal_good : good_equal 16 neon_equal.
Proof.
  intros v1 v2 H1 H2. unfold neon_equal.
  rewrite !lane_full by (rewrite ?length_take, ?length_drop; lia). by rewrite <- bool_decide_split.
Qed.

Lemma compare_vector_spec m equal W B fast :
  good_equal W equal -> (0 < W)%nat -> compares m W fast -> compares m B (compare_vector equal W fast m).
Proof.
  intros He HW Hk s1 s2 l1 l2 H1 H2 Hl _. apply compare_loop_spec; [done..| |lia|done|done|done]. clear - Hk.
  intros s1 s2 l1 l2 H1 H2 Hl Hf. destruct (Nat.eqb_spec (length l1) 0) as [E|E]; [|by apply Hk].
  destruct l1, l2; cbn in E, Hl; try lia. by rewrite bool_decide_true.
Qed.

Lemma compares_weaken m B B' k : (B <= B')%nat -> compares m B' k -> compares m B k.
Proof. intros HB H s1 s2 l1 l2 ??? Hf. apply H; auto. lia. Qed.

Lemma compares_body f m B fast :
  (forall W : nat, W = 64%nat /\ (64 < B)%nat \/ W = 32%nat /\ (32 < B)%nat /\ arch_x86_64 f = true \/
                  W = 16%nat /\ (16 < B)%nat /\ arch_x86_64 f = false -> compares m W fast) ->
  compares m B (fun s1 s2 n =>
    if (n =? 0)%nat then Some true
    else if (64 <=? n)%nat && csilk_has_avx512 f then csilk_memcmp_avx512 fast m s1 s2 n
    else if (32 <=? n)%nat && csilk_has_avx2 f then csilk_memcmp_avx2 fast m s1 s2 n
    else if negb (arch_x86_64 f) && (16 <=? n)%nat && csilk_has_neon f then csilk_memcmp_neon fast m s1 s2 n
    else if arch_x86_64 f || arch_aarch64 f then compare_words m s1 s2 n
    else v1 ← load m s1 n; v2 ← load m s2 n; Some (bool_decide (v1 = v2))).
Proof.
  intros Hk s1 s2 l1 l2 H1 H2 Hl Hf. destruct (Nat.eqb_spec (length l1) 0) as [E|E].
  { destruct l1, l2; cbn in E, Hl; try lia. by rewrite bool_decide_true. }
  destruct (Nat.leb_spec 64 (length l1)), (csilk_has_avx512 f); cbn [andb].
  { apply (compare_vector_spec m _ _ B); auto using mask_equal_good; [lia|apply Hk; lia]. }
  all: destruct (Nat.leb_spec 32 (length l1)), (csilk_has_avx2 f) eqn:Ea; cbn [andb]; try lia.
  all: try (apply (compare_vector_spec m _ _ B); auto using mask_equal_good; [lia|apply Hk]; apply andb_prop in Ea; intuition lia).
  all: destruct (arch_x86_64 f) eqn:Ex; cbn [negb andb orb]; try by apply (compare_words_spec m B).
  all: destruct (Nat.leb_spec 16 (length l1)), (csilk_has_neon f); cbn [andb]; try lia.
  all: try (apply (compare_vector_spec m _ _ B); auto using neon_equal_good; [lia|apply Hk; intuition lia]).
  all: destruct (arch_aarch64 f); [by apply (compare_words_spec m B)|].
  all: rewrite (load_starts m s1 l1), (load_starts m s2 l2) by (done || lia); cbn [mbind option_bind].
  all: by rewrite firstn_all, Hl, firstn_all.
Qed.

Lemma csilk_memcmp_fast_one f m :
  compares m (if arch_x86_64 f then 32 else 16) (csilk_memcmp_fast 1 f m).
Proof. apply compares_body. intros W HW. destruct (arch_x86_64 f); intuition (lia || done). Qed.

Lemma csilk_memcmp_fast_two f m : compares m 64 (csilk_memcmp_fast 2 f m).
Proof.
  apply compares_body. pose proof (csilk_memcmp_fast_one f m) as H.
  intros W [[_ ?]|[(-> & _ & E)|(-> & _ & E)]]; [lia|by rewrite E in H..].
Qed.

(** [csilk_memcmp_fast] returns 1 exactly when the two buffers hold the
    same bytes, on every processor and for every length, with at most three
    nested calls and without reading beyond the [n] bytes of either. *)
Theorem csilk_memcmp_fast_exact (f : cpu) (m : memory) (s1 s2 : Z) (l1 l2 : bytes)
  (H1 : starts m s1 l1) (H2 : starts m s2 l2) (Hl : length l1 = length l2) :
  csilk_memcmp_fast 3 f m s1 s2 (length l1) = Some (bool_decide (l1 = l2)).
Proof.
  apply (compares_body f m (S (length l1))); [|done..|lia].
  pose proof (csilk_memcmp_fast_two f m) as H.
  intros W HW. apply (compares_weaken m W 64); [intuition lia|done].
Qed.

Lemma demo_starts a s : 0 <= a -> a + Z.of_nat (length s) < 8192 -> starts (demo_pages a s) a s.
Proof.
  intros Ha Hl i c Hi. pose proof (lookup_lt_Some _ _ _ Hi) as H. unfold demo_pages.
  destruct (Z.leb_spec 0 (a + Z.of_nat i)), (Z.ltb_spec (a + Z.of_nat i) 8192); try lia. cbn [andb].
  destruct (Z.ltb_spec (a + Z.of_nat i) a); [lia|]. f_equal. replace (Z.to_nat (a + Z.of_nat i - a)) with i by lia.
  by apply nth_lookup_Some.
Qed.

Lemma csilk_memcmp_fast_exact_witness :
  let s := lit "0123456789abcdef0123456789abcdef-0123456789abcdef0123456789abcdeF" in
  csilk_memcmp_fast 3 (mk_cpu true false false false false true) (demo_pages 100 s) 100 133 32 = Some false.
Proof.
  set (s := lit "0123456789abcdef0123456789abcdef-0123456789abcdef0123456789abcdeF").
  pose proof (demo_starts 100 s ltac:(lia) ltac:(by vm_compute)) as H.
  assert (starts (demo_pages 100 s) 100 (take 32 s)) as H1.
  { intros i c Hi. apply H. by apply lookup_take_Some in Hi as [? _]. }
  pose proof (starts_drop _ _ _ 33 H) as H2.
  exact (csilk_memcmp_fast_exact (mk_cpu true false false false false true) _ _ _ _ _ H1 H2 ltac:(by vm_compute)).
Defined.

(** ** Searching a byte *)

Definition char_mask_index (target : ascii) (data : bytes) : option Z :=
  let mask := movemask (Ascii.eqb target) data in
  if mask =? 0 then None else Some (ctz mask).

(** [while (curr + W <= end)]: the address of the first match ([inl]), or
    where the loop stopped ([inr]). *)
Fixpoint find_loop (index : bytes -> option Z) (W fuel : nat) (m : memory) (curr e : Z) : option (Z + Z) :=
  match fuel with
  | O => None
  | S fuel' =>
      if curr + Z.of_nat W <=? e then
        data ← load m curr W;
        match index data with
        | Some idx => Some (inl (curr + idx))
        | None => find_loop index W fuel' m (curr + Z.of_nat W) e
        end
      else Some (inr curr)
  end.

(** The AVX variants return an address either way; the caller looks at the
    byte there. *)
Definition find_vector (index : bytes -> option Z) (W fuel : nat) (m : memory) (target : ascii) (curr e : Z)
  : option (Z + Z) :=
  r ← find_loop index W fuel m curr e;
  let res := match r with inl a => a | inr a => a end in
  if res <? e then c ← m res; Some (if Ascii.eqb c target then inl res else inr res) else Some (inr res).

(** [while (curr < end)], the scalar rest. *)
Fixpoint find_scalar (fuel : nat) (m : memory) (target : ascii) (curr e : Z) : option (option Z) :=
  match fuel with
  | O => None
  | S fuel' =>
      if curr <? e then
        c ← m curr;
        if Ascii.eqb c target then Some (Some curr) else find_scalar fuel' m target (curr + 1) e
      else Some None
  end.

Definition and_then (r : option (Z + Z)) (k : Z -> option (option Z)) : option (option Z) :=
  match r with
  | None => None
  | Some (inl a) => Some (Some a)
  | Some (inr curr) => k curr
  end.

Definition csilk_simd_find_char (f : cpu) (m : memory) (s : Z) (len : nat) (target : ascii) : option (option Z) :=
  if (s =? 0) || (len =? 0)%nat then Some None else
  let e := s + Z.of_nat len in
  let fuel := S len in
  and_then (if csilk_has_avx512 f then find_vector (char_mask_index target) 64 fuel m target s e else Some (inr s)) (fun curr =>
  and_then (if csilk_has_avx2 f then find_vector (char_mask_index target) 32 fuel m target curr e
            else if negb (arch_x86_64 f) && csilk_has_neon f then find_loop (neon_index (Ascii.eqb target)) 16 fuel m curr e
            else Some (inr curr)) (fun curr =>
  find_scalar fuel m target curr e)).

(** ** Common prefixes *)

(** The 32-byte loop and the 8-byte loop: [inl] returns, [inr] goes on at [i]. *)
Fixpoint prefix_loop (diff : bytes -> bytes -> option Z) (W fuel : nat) (m : memory) (s1 s2 : Z) (i max_len : nat)
  : option (nat + nat) :=
  match fuel with
  | O => None
  | S fuel' =>
      if (i + W <=? max_len)%nat then
        v1 ← load m (s1 + Z.of_nat i) W;
        v2 ← load m (s2 + Z.of_nat i) W;
        match diff v1 v2 with
        | Some diff_byte => Some (inl (i + Z.to_nat diff_byte)%nat)
        | None => prefix_loop diff W fuel' m s1 s2 (i + W) max_len
        end
      else Some (inr i)
  end.

(** [__builtin_ctz(~mask)] of the 32-byte comparison. *)
Definition mask_diff (v1 v2 : bytes) : option Z :=
  let mask := movemask same (zip v1 v2) in
  if mask =? 2 ^ 32 - 1 then None else Some (ctz (2 ^ 32 - 1 - mask)).

(** [__builtin_ctzll(v1 ^ v2) / 8], little-endian. *)
Definition word_diff (v1 v2 : bytes) : option Z :=
  if le_word v1 =? le_word v2 then None else Some (ctz (Z.lxor (le_word v1) (le_word v2)) / 8).

Fixpoint prefix_scalar (fuel : nat) (m : memory) (s1 s2 : Z) (i max_len : nat) : option nat :=
  match fuel with
  | O => None
  | S fuel' =>
      if (i <? max_len)%nat then
        c1 ← m (s1 + Z.of_nat i);
        c2 ← m (s2 + Z.of_nat i);
        if Ascii.eqb c1 c2 then prefix_scalar fuel' m s1 s2 (S i) max_len else Some i
      else Some i
  end.

Definition or_from (r : option (nat + nat)) (k : nat -> option nat) : option nat :=
  match r with
  | None => None
  | Some (inl n) => Some n
  | Some (inr i) => k i
  end.

Definition csilk_common_prefix_len_fast (f : cpu) (m : memory) (s1 s2 : Z) (max_len : nat) : option nat :=
  let fuel := S max_len in
  or_from (if csilk_has_avx2 f then prefix_loop mask_diff 32 fuel m s1 s2 0 max_len else Some (inr 0%nat)) (fun i =>
  or_from (if arch_x86_64 f || arch_aarch64 f then prefix_loop word_diff 8 fuel m s1 s2 i max_len else Some (inr i)) (fun i =>
  prefix_scalar fuel m s1 s2 i max_len)).

(** ** The searches and the prefix find the first hit *)

(** No hit among the first [k] elements. *)
Definition clear_to {A} (P : A -> bool) (l : list A) (k : nat) : Prop :=
  (k <= length l)%nat /\ first_idx P (take k l) = None.

Lemma clear_to_0 {A} (P : A -> bool) l : clear_to P l 0.
Proof. split; [lia|done]. Qed.

Lemma clear_to_step {A} (P : A -> bool) l k W :
  clear_to P l k -> (k + W <= length l)%nat ->
  match first_idx P (take W (drop k l)) with
  | Some j => first_idx P l = Some (k + j)%nat
  | None => clear_to P l (k + W)
  end.
Proof.
  intros [Hk Hc] HW. pose proof (take_take_drop l k W) as E. destruct (first_idx P (take W (drop k l))) as [j|] eqn:Ej.
  - rewrite <- (take_drop (k + W) l), first_idx_app, <- E, first_idx_app, Hc, Ej. cbn. f_equal. rewrite length_take. lia.
  - split; [done|]. by rewrite <- E, first_idx_app, Hc, Ej.
Qed.

Lemma clear_to_next {A} (P : A -> bool) l k c :
  clear_to P l k -> l !! k = Some c -> if P c then first_idx P l = Some k else clear_to P l (S k).
Proof.
  intros Hc Hk. pose proof (lookup_lt_Some _ _ _ Hk). pose proof (clear_to_step P l k 1 Hc ltac:(lia)) as H1.
  rewrite (drop_S l c k Hk) in H1. cbn [take first_idx] in H1. destruct (P c); cbn in H1.
  - by rewrite Nat.add_0_r in H1.
  - by rewrite Nat.add_1_r in H1.
Qed.

Lemma clear_to_end {A} (P : A -> bool) l k : clear_to P l k -> (length l <= k)%nat -> first_idx P l = None.
Proof. intros [Hk Hc] Hl. by rewrite take_ge in Hc. Qed.

Section search.
Context (m : memory) (s : Z) (l : bytes) (target : ascii) (Hs : starts m s l).
#[local] Abbreviation hit := (Ascii.eqb target).

(** The state a search step leaves. *)
Definition searched (r : Z + Z) : Prop :=
  match r with
  | inl a => exists j, first_idx hit l = Some j /\ a = s + Z.of_nat j
  | inr a => exists k, clear_to hit l k /\ a = s + Z.of_nat k
  end.

Lemma find_loop_spec index W fuel k :
  good_index W hit index -> (0 < W)%nat -> clear_to hit l k -> (length l < k + fuel)%nat ->
  exists r, find_loop index W fuel m (s + Z.of_nat k) (s + Z.of_nat (length l)) = Some r /\ searched r.
Proof using Hs.
  intros Hi HW. revert k. induction fuel as [|fuel IH]; intros k Hc Hf; [destruct Hc; lia|]. cbn [find_loop].
  destruct (Z.leb_spec (s + Z.of_nat k + Z.of_nat W) (s + Z.of_nat (length l))).
  2: { eexists. split; [done|]. by exists k. }
  rewrite (load_starts m _ (drop k l) W); [|by apply starts_drop|rewrite length_drop; lia]. cbn [mbind option_bind].
  rewrite Hi by (rewrite length_take, length_drop; lia).
  pose proof (clear_to_step hit l k W Hc ltac:(lia)) as Hstep. destruct (first_idx hit (take W (drop k l))) as [j|]; cbn.
  - eexists. split; [done|]. exists (k + j)%nat. split; [done|lia].
  - destruct (IH (k + W)%nat Hstep ltac:(lia)) as (r & Er & Hr). exists r. split; [|done]. rewrite <- Er. f_equal. lia.
Qed.

Lemma find_vector_spec index W fuel k :
  good_index W hit index -> (0 < W)%nat -> clear_to hit l k -> (length l < k + fuel)%nat ->
  exists r, find_vector index W fuel m target (s + Z.of_nat k) (s + Z.of_nat (length l)) = Some r /\ searched r.
Proof using Hs.
  intros Hi HW Hc Hf. unfold find_vector. destruct (find_loop_spec index W fuel k Hi HW Hc Hf) as (r & -> & Hr).
  cbn [mbind option_bind]. destruct r as [a|a].
  - destruct Hr as (j & Hj & ->). pose proof Hj as [(c & Hl & Hh) _]%first_idx_Some.
    pose proof (lookup_lt_Some _ _ _ Hl). destruct (Z.ltb_spec (s + Z.of_nat j) (s + Z.of_nat (length l))); [|lia].
    rewrite (Hs j c Hl). cbn [mbind option_bind]. rewrite Ascii.eqb_sym, Hh. eexists. split; [done|]. by exists j.
  - destruct Hr as (k' & Hk' & ->). destruct (Z.ltb_spec (s + Z.of_nat k') (s + Z.of_nat (length l))).
    2: { eexists. split; [done|]. by exists k'. }
    destruct (lookup_lt_is_Some_2 l k') as [c Hl]; [lia|]. rewrite (Hs k' c Hl). cbn [mbind option_bind].
    rewrite Ascii.eqb_sym. pose proof (clear_to_next hit l k' c Hk' Hl) as Hn.
    destruct (Ascii.eqb target c); eexists; (split; [done|]); by exists k'.
Qed.

Lemma find_scalar_spec fuel k :
  clear_to hit l k -> (length l < k + fuel)%nat ->
  find_scalar fuel m target (s + Z.of_nat k) (s + Z.of_nat (length l)) =
    Some ((fun j => s + Z.of_nat j) <$> first_idx hit l).
Proof using Hs.
  revert k. induction fuel as [|fuel IH]; intros k Hc Hf; [destruct Hc; lia|]. cbn [find_scalar].
  destruct (Z.ltb_spec (s + Z.of_nat k) (s + Z.of_nat (length l))).
  2: { by rewrite (clear_to_end hit l k Hc) by lia. }
  destruct (lookup_lt_is_Some_2 l k) as [c Hl]; [lia|]. rewrite (Hs k c Hl). cbn [mbind option_bind].
  rewrite Ascii.eqb_sym. pose proof (clear_to_next hit l k c Hc Hl) as Hn. destruct (Ascii.eqb target c).
  - by rewrite Hn.
  - rewrite <- (IH (S k) Hn ltac:(lia)). f_equal. lia.
Qed.

(** A search step followed by a correct rest is correct. *)
Lemma and_then_spec r k :
  (exists r', r = Some r' /\ searched r') ->
  (forall n, clear_to hit l n -> k (s + Z.of_nat n) = Some ((fun j => s + Z.of_nat j) <$> first_idx hit l)) ->
  and_then r k = Some ((fun j => s + Z.of_nat j) <$> first_idx hit l).
Proof using Type.
  intros (r' & -> & Hr) Hk. destruct r' as [a|a]; cbn [and_then].
  - destruct Hr as (j & -> & ->). done.
  - destruct Hr as (n & Hn & ->). by apply Hk.
Qed.

End search.

Lemma char_mask_index_good W target : good_index W (Ascii.eqb target) (char_mask_index target).
Proof.
  intros data _. unfold char_mask_index. pose proof (movemask_ctz (Ascii.eqb target) data) as H.
  destruct (first_idx (Ascii.eqb target) data) as [i|]; cbn.
  - destruct H as [H1 H2]. destruct (Z.eqb_spec (movemask (Ascii.eqb target) data) 0); [lia|]. by rewrite H2.
  - by rewrite H.
Qed.

(** [csilk_simd_find_char] returns the address of the first byte of the
    range equal to the target, or null when there is none, on every
    processor, reading only the range. *)
Theorem csilk_simd_find_char_exact (f : cpu) (m : memory) (s : Z) (l : bytes) (target : ascii)
  (Hs : starts m s l) (Hs0 : s <> 0) :
  csilk_simd_find_char f m s (length l) target =
    Some ((fun j => s + Z.of_nat j) <$> first_idx (Ascii.eqb target) l).
Proof.
  unfold csilk_simd_find_char. destruct (Z.eqb_spec s 0); [done|]. cbn [orb].
  destruct (Nat.eqb_spec (length l) 0) as [E|_]; [by destruct l|].
  pose proof (clear_to_0 (Ascii.eqb target) l) as H0.
  assert (forall k, clear_to (Ascii.eqb target) l k -> exists r', Some (inr (s + Z.of_nat k)) = Some r' /\ searched s l target r') as Hskip.
  { intros k Hk. eexists. split; [done|]. by exists k. }
  apply and_then_spec.
  { destruct (csilk_has_avx512 f).
    - pose proof (find_vector_spec m s l target Hs (char_mask_index target) 64 (S (length l)) 0
                    (char_mask_index_good _ _) ltac:(lia) H0 ltac:(lia)) as H. by rewrite Z.add_0_r in H.
    - pose proof (Hskip 0%nat H0) as H. by rewrite Z.add_0_r in H. }
  intros k Hk. apply and_then_spec.
  - destruct (csilk_has_avx2 f); [apply find_vector_spec; auto using char_mask_index_good; lia|].
    destruct (negb (arch_x86_64 f) && csilk_has_neon f); [|by apply Hskip].
    apply find_loop_spec; auto using neon_index_good; lia.
  - intros k' Hk'. apply find_scalar_spec; [done..|lia].
Qed.

Lemma csilk_simd_find_char_exact_witness :
  let s := lit "id=7&name=csilk-framework-for-the-web&x=1#top" in
  csilk_simd_find_char (mk_cpu true false false false false true) (demo_pages 4000 s) 4000 45 "#" = Some (Some 4041).
Proof.
  set (s := lit "id=7&name=csilk-framework-for-the-web&x=1#top").
  exact (csilk_simd_find_char_exact (mk_cpu true false false false false true) (demo_pages 4000 s) 4000 s "#"
           (demo_starts 4000 s ltac:(lia) ltac:(by vm_compute)) ltac:(lia)).
Defined.

(** Reference: the number of leading positions that agree. *)
Fixpoint common_len (l1 l2 : bytes) : nat :=
  match l1, l2 with
  | c1 :: l1', c2 :: l2' => if Ascii.eqb c1 c2 then S (common_len l1' l2') else 0
  | _, _ => 0
  end.

Lemma common_len_first l1 l2 :
  length l1 = length l2 ->
  common_len l1 l2 = match first_idx differ (zip l1 l2) with Some j => j | None => length l1 end.
Proof.
  revert l2. induction l1 as [|c l1 IH]; intros [|d l2] Hl; try done. cbn [common_len zip zip_with first_idx length].
  unfold differ at 1, same at 1. cbn [fst snd]. destruct (Ascii.eqb c d); [|done]. cbn [negb].
  change (zip_with pair l1 l2) with (zip l1 l2). rewrite (IH l2) by by injection Hl.
  by destruct (first_idx differ (zip l1 l2)).
Qed.

Definition good_diff (W : nat) (diff : bytes -> bytes -> option Z) : Prop :=
  forall v1 v2, length v1 = W -> length v2 = W -> diff v1 v2 = Z.of_nat <$> first_idx differ (zip v1 v2).

Lemma mask_diff_good : good_diff 32 mask_diff.
Proof.
  intros v1 v2 H1 H2. unfold mask_diff. pose proof (movemask_ctz differ (zip v1 v2)) as H.
  assert (movemask differ (zip v1 v2) = 2 ^ 32 - 1 - movemask same (zip v1 v2)) as E.
  { change differ with (fun x => negb (same x)). rewrite movemask_negb, length_zip_with_l by lia. by rewrite H1. }
  rewrite <- E. destruct (first_idx differ (zip v1 v2)); cbn.
  - destruct H as [H3 H4]. destruct (Z.eqb_spec (movemask same (zip v1 v2)) (2 ^ 32 - 1)); [lia|]. by rewrite H4.
  - destruct (Z.eqb_spec (movemask same (zip v1 v2)) (2 ^ 32 - 1)); [done|lia].
Qed.

Lemma ctz_pos_nonneg p : 0 <= ctz_pos p.
Proof. induction p; cbn [ctz_pos]; lia. Qed.

Lemma ctz_pos_divide p : (2 ^ ctz_pos p | Z.pos p).
Proof.
  induction p as [p IH|p IH|]; cbn [ctz_pos]; try apply Z.divide_1_l.
  rewrite Z.pow_add_r by (pose proof (ctz_pos_nonneg p); lia). change (Z.pos p~0) with (2 ^ 1 * Z.pos p).
  by apply Z.mul_divide_mono_l.
Qed.

Lemma ctz_low_byte z : 0 < z -> z mod 256 <> 0 -> ctz z / 8 = 0.
Proof.
  intros Hz Hm. destruct z as [|p|p]; try lia. cbn [ctz]. pose proof (ctz_pos_nonneg p).
  apply Z.div_small. split; [done|]. apply Z.nle_gt. intros H8. apply Hm. apply Z.mod_divide; [done|].
  etransitivity; [|apply ctz_pos_divide]. exists (2 ^ (ctz_pos p - 8)).
  change 256 with (2 ^ 8). rewrite <- Z.pow_add_r by lia. f_equal. lia.
Qed.

Lemma lxor_byte_split c d a b :
  0 <= c < 256 -> 0 <= d < 256 -> Z.lxor (c + 256 * a) (d + 256 * b) = Z.lxor c d + 256 * Z.lxor a b.
Proof.
  intros Hc Hd. pose proof (lxor_bound c d 8 ltac:(lia) Hc Hd) as Hx. change (2 ^ 8) with 256 in Hx.
  rewrite (Z.div_mod (Z.lxor (c + 256 * a) (d + 256 * b)) 256) by done.
  assert (forall x y, 0 <= x < 256 -> (x + 256 * y) / 256 = y) as E by (intros; Z.div_mod_to_equations; lia).
  assert (forall x y, 0 <= x < 256 -> (x + 256 * y) mod 256 = x) as E' by (intros; Z.div_mod_to_equations; lia).
  assert (Z.lxor (c + 256 * a) (d + 256 * b) / 256 = Z.lxor a b) as ->.
  { change 256 with (2 ^ 8) at 3. rewrite <- Z.shiftr_div_pow2, Z.shiftr_lxor, !Z.shiftr_div_pow2 by lia.
    change (2 ^ 8) with 256. by rewrite !E. }
  assert (Z.lxor (c + 256 * a) (d + 256 * b) mod 256 = Z.lxor c d) as ->; [|lia].
  rewrite <- (E' c a Hc) at 2. rewrite <- (E' d b Hd) at 2. change 256 with (2 ^ 8) at 3 5 7.
  rewrite <- !Z.land_ones by lia. apply Z.bits_inj'. intros n _. rewrite !Z.land_spec, !Z.lxor_spec, !Z.land_spec.
  by destruct (Z.testbit _ n), (Z.testbit _ n), (Z.testbit _ n).
Qed.

Lemma le_word_nonneg v : 0 <= le_word v.
Proof. induction v as [|c v IH]; cbn [le_word]; [lia|]. pose proof (cval_range c). lia. Qed.

Lemma word_xor_ctz v1 v2 :
  length v1 = length v2 ->
  match first_idx differ (zip v1 v2) with
  | None => le_word v1 = le_word v2
  | Some j => 0 < Z.lxor (le_word v1) (le_word v2) /\ ctz (Z.lxor (le_word v1) (le_word v2)) / 8 = Z.of_nat j
  end.
Proof.
  revert v2. induction v1 as [|c v1 IH]; intros [|d v2] Hl; try done. cbn [zip zip_with first_idx].
  unfold differ at 1, same at 1. cbn [fst snd le_word]. pose proof (cval_range c) as Rc. pose proof (cval_range d) as Rd.
  pose proof (lxor_bound (cval c) (cval d) 8 ltac:(lia) Rc Rd) as Hx. change (2 ^ 8) with 256 in Hx.
  assert (0 <= Z.lxor (le_word v1) (le_word v2)) as Hn
    by (apply Z.lxor_nonneg; pose proof (le_word_nonneg v1); pose proof (le_word_nonneg v2); lia).
  rewrite lxor_byte_split by done. specialize (IH v2 ltac:(by injection Hl)).
  change (zip_with pair v1 v2) with (zip v1 v2). destruct (Ascii.eqb_spec c d) as [->|Hcd]; cbn [negb].
  - rewrite Z.lxor_nilpotent, Z.add_0_l. destruct (first_idx differ (zip v1 v2)) as [j|]; cbn [fmap option_fmap option_map]; [|lia].
    destruct IH as [H1 H2]. split; [lia|]. rewrite ctz_256 by done.
    replace (8 + ctz (Z.lxor (le_word v1) (le_word v2))) with (ctz (Z.lxor (le_word v1) (le_word v2)) + 1 * 8) by lia.
    rewrite Z.div_add by lia. lia.
  - assert (Z.lxor (cval c) (cval d) <> 0) by (intros E%Z.lxor_eq%cval_inj; done).
    split; [lia|]. apply ctz_low_byte; [lia|]. rewrite Z.mul_comm, Z.mod_add, Z.mod_small; lia.
Qed.

Lemma word_diff_good W : good_diff W word_diff.
Proof.
  intros v1 v2 H1 H2. unfold word_diff. pose proof (word_xor_ctz v1 v2 ltac:(lia)) as H.
  destruct (first_idx differ (zip v1 v2)); cbn.
  - destruct H as [H3 H4]. destruct (Z.eqb_spec (le_word v1) (le_word v2)) as [E|]; [|by rewrite H4].
    rewrite E, Z.lxor_nilpotent in H3. lia.
  - by rewrite H, Z.eqb_refl.
Qed.

Section prefix.
Context (m : memory) (s1 s2 : Z) (l1 l2 : bytes).
Context (H1 : starts m s1 l1) (H2 : starts m s2 l2) (Hl : length l1 = length l2).
#[local] Abbreviation pairs := (zip l1 l2).

Definition prefixed (r : nat + nat) : Prop :=
  match r with
  | inl j => first_idx differ pairs = Some j
  | inr k => clear_to differ pairs k
  end.

Lemma pairs_length : length pairs = length l1.
Proof using Hl. by rewrite length_zip_with_l by lia. Qed.

Lemma prefix_loop_spec diff W fuel k :
  good_diff W diff -> (0 < W)%nat -> clear_to differ pairs k -> (length l1 < k + fuel)%nat ->
  exists r, prefix_loop diff W fuel m s1 s2 k (length l1) = Some r /\ prefixed r.
Proof using H1 H2 Hl.
  intros Hi HW. revert k. induction fuel as [|fuel IH]; intros k Hc Hf; [destruct Hc; rewrite pairs_length in *; lia|].
  cbn [prefix_loop]. destruct (Nat.leb_spec (k + W) (length l1)); [|eexists; by split].
  rewrite (load_starts m _ (drop k l1) W (starts_drop _ _ _ k H1)) by (rewrite length_drop; lia).
  rewrite (load_starts m _ (drop k l2) W (starts_drop _ _ _ k H2)) by (rewrite length_drop; lia). cbn [mbind option_bind].
  rewrite Hi by (rewrite length_take, length_drop; lia).
  pose proof (clear_to_step differ pairs k W Hc ltac:(rewrite pairs_length; lia)) as Hstep.
  rewrite zip_with_drop, zip_with_take in Hstep.
  destruct (first_idx differ (zip (take W (drop k l1)) (take W (drop k l2)))) as [j|]; cbn.
  - eexists. split; [done|]. by rewrite Nat2Z.id.
  - apply IH; [done|lia].
Qed.

Lemma prefix_scalar_spec fuel k :
  clear_to differ pairs k -> (length l1 < k + fuel)%nat ->
  prefix_scalar fuel m s1 s2 k (length l1) = Some (common_len l1 l2).
Proof using H1 H2 Hl.
  rewrite common_len_first by done.
  revert k. induction fuel as [|fuel IH]; intros k Hc Hf; [destruct Hc; rewrite pairs_length in *; lia|].
  cbn [prefix_scalar]. destruct (Nat.ltb_spec k (length l1)).
  2: { rewrite (clear_to_end _ _ _ Hc) by (rewrite pairs_length; lia). f_equal. destruct Hc. rewrite pairs_length in *. lia. }
  destruct (lookup_lt_is_Some_2 l1 k) as [c Ec]; [lia|]. destruct (lookup_lt_is_Some_2 l2 k) as [d Ed]; [lia|].
  rewrite (H1 k c Ec), (H2 k d Ed). cbn [mbind option_bind].
  assert (pairs !! k = Some (c, d)) as Ep by (by apply lookup_zip_with_Some; eauto).
  pose proof (clear_to_next differ pairs k _ Hc Ep) as Hn. unfold differ at 1, same at 1 in Hn. cbn [fst snd] in Hn.
  destruct (Ascii.eqb c d); cbn [negb] in Hn; [apply IH; [done|lia]|by rewrite Hn].
Qed.

Lemma or_from_spec r k :
  (exists r', r = Some r' /\ prefixed r') ->
  (forall n, clear_to differ pairs n -> k n = Some (common_len l1 l2)) ->
  or_from r k = Some (common_len l1 l2).
Proof using Hl.
  intros (r' & -> & Hr) Hk. destruct r' as [j|n]; cbn [or_from]; [|by apply Hk].
  rewrite common_len_first by done. cbn in Hr. by rewrite Hr.
Qed.
End prefix.

(** [csilk_common_prefix_len_fast] returns the number of leading equal
    bytes of the two buffers, whether it compares 32, 8 or 1 bytes at a time,
    reading only the [max_len] bytes of each. *)
Theorem csilk_common_prefix_len_exact (f : cpu) (m : memory) (s1 s2 : Z) (l1 l2 : bytes)
  (H1 : starts m s1 l1) (H2 : starts m s2 l2) (Hl : length l1 = length l2) :
  csilk_common_prefix_len_fast f m s1 s2 (length l1) = Some (common_len l1 l2).
Proof.
  unfold csilk_common_prefix_len_fast. apply or_from_spec; [done|..].
  { destruct (csilk_has_avx2 f).
    - apply prefix_loop_spec; auto using mask_diff_good, clear_to_0; lia.
    - eexists. split; [done|]. apply clear_to_0. }
  intros k Hk. apply or_from_spec; [done|..].
  - destruct (arch_x86_64 f || arch_aarch64 f).
    + apply prefix_loop_spec; auto using word_diff_good; lia.
    + eexists. by split.
  - intros k' Hk'. apply prefix_scalar_spec; [done..|lia].
Qed.

Lemma csilk_common_prefix_len_exact_witness :
  let s := lit "api/v1/users/profile|api/v1/users/posts/1" in
  csilk_common_prefix_len_fast (mk_cpu true false false false false true) (demo_pages 8 s) 8 29 20 = Some 14%nat.
Proof.
  set (s := lit "api/v1/users/profile|api/v1/users/posts/1").
  pose proof (demo_starts 8 s ltac:(lia) ltac:(by vm_compute)) as H.
  assert (starts (demo_pages 8 s) 8 (take 20 s)) as H1.
  { intros i c Hi. apply H. by apply lookup_take_Some in Hi as [? _]. }
  pose proof (starts_drop _ _ _ 21 H) as H2.
  exact (csilk_common_prefix_len_exact (mk_cpu true false false false false true) _ _ _ _ _ H1 H2 ltac:(by vm_compute)).
Defined.
