(* ===== verification/Router.v ===== *)
(** * The router: trie nodes and registration

    Models src/src/core/primitives/router.c: node creation, the binary search
    among sorted children, insertion into the growing child array,
    [router_add_full] with its duplicate rule, [csilk_router_compile].  A node
    is a value; the array of children is its list, bounded by the capacity the
    code keeps.  Every allocation consumes one answer of an oracle (a list of
    booleans, success when it is exhausted), so each failure branch is taken
    for some oracle.  Path segments are the [next_segment] of Simd, which the
    scanners of router_simd.c compute.  Handlers are function addresses. *)

From stdpp Require Import sorting.
From S2P Require Import Prelude Simd.

#[local] Open Scope Z_scope.

(** ** Data *)

Inductive csilk_node_type_t := CSILK_NODE_STATIC | CSILK_NODE_PARAM | CSILK_NODE_WILDCARD.

#[export] Instance node_type_eq_dec : EqDecision csilk_node_type_t.
Proof. solve_decision. Defined.

Definition handler := Z.

Record csilk_method_handler_t := mk_mh {
  mh_method : bytes;
  raw_handlers : list handler;
  mh_handlers : list handler;
  mh_path : bytes;
  input_type : option bytes; output_type : option bytes;
  summary : option bytes; description : option bytes;
  perm_required : option bytes; perm_resource : option bytes;
}.

Inductive csilk_router_node_t := Node {
  segment : bytes;
  ntype : csilk_node_type_t;
  handlers : list csilk_method_handler_t;
  children : list csilk_router_node_t;
  children_cap : Z;
  static_first : list Z;
}.

Record csilk_router_t := mk_router {
  root : csilk_router_node_t;
  global_middlewares : list handler;
  global_middleware_count : nat;
}.

Definition CSILK_ROUTER_INLINE_CHILDREN : Z := 8.
Definition CSILK_ROUTER_MAX_DEPTH : nat := 64.

(** ** Allocation *)

Definition oracle := list bool.

Definition alloc (o : oracle) : bool * oracle :=
  match o with
  | [] => (true, [])
  | b :: o' => (b, o')
  end.

(** [n] allocations, up to the first that fails. *)
Fixpoint alloc_n (n : nat) (o : oracle) : bool * oracle :=
  match n with
  | O => (true, o)
  | S n' => let '(ok, o') := alloc o in if ok then alloc_n n' o' else (false, o')
  end.

(** ** Nodes *)

Definition node_new (seg : bytes) (type : csilk_node_type_t) : csilk_router_node_t :=
  Node seg type [] [] CSILK_ROUTER_INLINE_CHILDREN (replicate 256 (-1)).

Definition type_rank (t : csilk_node_type_t) : Z :=
  match t with CSILK_NODE_STATIC => 0 | CSILK_NODE_PARAM => 1 | CSILK_NODE_WILDCARD => 2 end.

Definition node_cmp_key (type : csilk_node_type_t) (seg : bytes) (n : csilk_router_node_t) : comparison :=
  if decide (type = ntype n) then strcmp seg (segment n)
  else if type_rank type <? type_rank (ntype n) then Lt else Gt.

(** The [while (low <= high)] loop: the index found (or -1) and [*out_insert_pos]. *)
Fixpoint find_child_loop (fuel : nat) (cs : list csilk_router_node_t) (type : csilk_node_type_t) (seg : bytes)
    (low high : Z) : option (Z * Z) :=
  match fuel with
  | O => None
  | S fuel' =>
      if low <=? high then
        let mid := low + (high - low) / 2 in
        child ← cs !! Z.to_nat mid;
        match node_cmp_key type seg child with
        | Eq => Some (mid, mid)
        | Lt => find_child_loop fuel' cs type seg low (mid - 1)
        | Gt => find_child_loop fuel' cs type seg (mid + 1) high
        end
      else Some (-1, low)
  end.

Definition node_find_child (parent : csilk_router_node_t) (type : csilk_node_type_t) (seg : bytes) : option (Z * Z) :=
  find_child_loop (S (length (children parent))) (children parent) type seg 0 (Z.of_nat (length (children parent)) - 1).

Definition int16 (z : Z) : Z := (z + 32768) `mod` 65536 - 32768.

(** The child array after making room for one more: [None] when [memcpy] or
    the later store would leave the array, [Some None] when [malloc] fails. *)
Definition grow_children (n : csilk_router_node_t) (o : oracle) : option (option Z) * oracle :=
  let count := Z.of_nat (length (children n)) in
  if children_cap n <=? count then
    let new_cap := wrap16 (children_cap n * 2) in
    let new_cap := if new_cap <? 16 then 16 else new_cap in
    let '(ok, o) := alloc o in
    if negb ok then (Some None, o) else (if new_cap <=? count then None else Some (Some new_cap), o)
  else (Some (Some (children_cap n)), o).

Definition update_static_first (child : csilk_router_node_t) (insert_pos : Z) (sf : list Z) : list Z :=
  match ntype child, segment child with
  | CSILK_NODE_STATIC, c :: _ =>
      let sf := map (fun x => if insert_pos <=? x then int16 (x + 1) else x) sf in
      let first := Z.to_nat (cval c) in
      match sf !! first with
      | Some x => if x <? 0 then <[first := int16 insert_pos]> sf else sf
      | None => sf
      end
  | _, _ => sf
  end.

Definition node_add_child (parent child : csilk_router_node_t) (insert_pos : Z) (o : oracle)
  : option (Z * csilk_router_node_t * oracle) :=
  if (insert_pos <? 0) || (Z.of_nat (length (children parent)) <? insert_pos) then Some (-1, parent, o) else
  let '(g, o) := grow_children parent o in
  room ← g;
  match room with
  | None => Some (-1, parent, o)
  | Some cap =>
      let i := Z.to_nat insert_pos in
      Some (0, Node (segment parent) (ntype parent) (handlers parent)
                 (take i (children parent) ++ child :: drop i (children parent)) cap
                 (update_static_first child insert_pos (static_first parent)), o)
  end.

Definition csilk_router_new (o : oracle) : option csilk_router_t * oracle :=
  let '(ok, o) := alloc o in
  if negb ok then (None, o) else
  let '(ok, o) := alloc_n 2 o in
  if negb ok then (None, o) else
  (Some (mk_router (node_new [] CSILK_NODE_STATIC) (replicate 32 0) 0), o).

(** ** Registration *)

Record route_args := mk_args {
  a_method : bytes;
  a_path : bytes;
  a_handlers : list handler;
  a_pattern : option bytes;
  a_input : option bytes; a_output : option bytes;
  a_summary : option bytes; a_description : option bytes;
  a_perm_required : option bytes; a_perm_resource : option bytes;
}.

(** [seg[0]] decides the kind; the name drops the marker. *)
Definition segment_kind (seg : bytes) : csilk_node_type_t * bytes :=
  match seg with
  | c :: name =>
      if Ascii.eqb c ":" then (CSILK_NODE_PARAM, name)
      else if Ascii.eqb c "*" then (CSILK_NODE_WILDCARD, name)
      else (CSILK_NODE_STATIC, seg)
  | [] => (CSILK_NODE_STATIC, seg)
  end.

(** The cached global middlewares. *)
Definition globals (r : csilk_router_t) : list handler := take (global_middleware_count r) (global_middlewares r).

Definition new_mh (g : list handler) (a : route_args) : csilk_method_handler_t :=
  mk_mh (a_method a) (a_handlers a) (g ++ a_handlers a) (default (a_path a) (a_pattern a))
    (a_input a) (a_output a) (a_summary a) (a_description a) (a_perm_required a) (a_perm_resource a).

Definition has_method (method : bytes) (m : csilk_method_handler_t) : bool := bool_decide (mh_method m = method).

Definition set_handlers (n : csilk_router_node_t) (hs : list csilk_method_handler_t) : csilk_router_node_t :=
  Node (segment n) (ntype n) hs (children n) (children_cap n) (static_first n).

Definition set_child (n : csilk_router_node_t) (i : nat) (child : csilk_router_node_t) : csilk_router_node_t :=
  Node (segment n) (ntype n) (handlers n) (<[i := child]> (children n)) (children_cap n) (static_first n).

(** The end of [router_add_full], at the node the path leads to: the entry,
    its method, the two handler arrays and the pattern are five allocations,
    and any failure undoes the earlier ones. *)
Definition register (g : list handler) (a : route_args) (curr : csilk_router_node_t) (o : oracle)
  : Z * csilk_router_node_t * oracle :=
  if existsb (has_method (a_method a)) (handlers curr) then (0, curr, o) else
  let '(ok, o) := alloc_n 5 o in
  if ok then (0, set_handlers curr (new_mh g a :: handlers curr), o) else (-1, curr, o).

(** The segment loop of [router_add_full]; [curr] is the node it stands at. *)
Fixpoint add_walk (fuel : nat) (g : list handler) (a : route_args) (p : bytes) (curr : csilk_router_node_t) (o : oracle)
  : option (Z * csilk_router_node_t * oracle) :=
  match fuel with
  | O => None
  | S fuel' =>
      match next_segment p with
      | None => Some (register g a curr o)
      | Some (seg, rest) =>
          let '(type, seg_name) := segment_kind seg in
          let descend curr i o :=
            child ← children curr !! i;
            '(r, child', o) ←
              (if decide (type = CSILK_NODE_WILDCARD) then Some (register g a child o)
               else add_walk fuel' g a rest child o);
            Some (r, set_child curr i child', o) in
          let '(ok, o) := alloc o in
          if negb ok then Some (-1, curr, o) else
          '(found_idx, insert_pos) ← node_find_child curr type seg_name;
          if 0 <=? found_idx then descend curr (Z.to_nat found_idx) o else
          let '(ok, o) := alloc_n 2 o in
          if negb ok then Some (-1, curr, o) else
          '(r, curr', o) ← node_add_child curr (node_new seg_name type) insert_pos o;
          if negb (r =? 0) then Some (-1, curr', o) else descend curr' (Z.to_nat insert_pos) o
      end
  end.

Definition router_add_full (r : csilk_router_t) (a : route_args) (o : oracle) : option (Z * csilk_router_t * oracle) :=
  '(ret, root', o) ← add_walk (S (length (a_path a))) (globals r) a (a_path a) (root r) o;
  Some (ret, mk_router root' (global_middlewares r) (global_middleware_count r), o).

Definition csilk_router_add (r : csilk_router_t) (method path : bytes) (hs : list handler) (o : oracle)
  : option (Z * csilk_router_t * oracle) :=
  router_add_full r (mk_args method path hs (Some path) None None None None None None) o.

Definition csilk_router_add_extended (r : csilk_router_t) (method path : bytes) (hs : list handler)
    (path_pattern input output summ descr : option bytes) (o : oracle) : option (Z * csilk_router_t * oracle) :=
  router_add_full r (mk_args method path hs path_pattern input output summ descr None None) o.

Definition csilk_router_add_perm (r : csilk_router_t) (method path : bytes) (hs : list handler)
    (perm res : option bytes) (o : oracle) : option (Z * csilk_router_t * oracle) :=
  router_add_full r (mk_args method path hs (Some path) None None None None perm res) o.

Definition csilk_router_add_extended_perm (r : csilk_router_t) (method path : bytes) (hs : list handler)
    (path_pattern input output summ descr perm res : option bytes) (o : oracle)
  : option (Z * csilk_router_t * oracle) :=
  router_add_full r (mk_args method path hs path_pattern input output summ descr perm res) o.

(** ** Compiling the handler chains *)

Definition compile_mh (g : list handler) (m : csilk_method_handler_t) : csilk_method_handler_t :=
  mk_mh (mh_method m) (raw_handlers m) (g ++ raw_handlers m) (mh_path m) (input_type m) (output_type m)
    (summary m) (description m) (perm_required m) (perm_resource m).

(** The chain keeps its old array where [malloc] fails. *)
Fixpoint compile_chain (g : list handler) (ms : list csilk_method_handler_t) (o : oracle)
  : list csilk_method_handler_t * oracle :=
  match ms with
  | [] => ([], o)
  | m :: ms' =>
      let '(ok, o) := alloc o in
      let '(ms'', o) := compile_chain g ms' o in
      ((if ok then compile_mh g m else m) :: ms'', o)
  end.

Fixpoint node_compile_handlers (g : list handler) (n : csilk_router_node_t) (o : oracle) : csilk_router_node_t * oracle :=
  match n with
  | Node seg type hs cs cap sf =>
      let '(hs', o) := compile_chain g hs o in
      let '(cs', o) :=
        (fix go (cs : list csilk_router_node_t) (o : oracle) :=
           match cs with
           | [] => ([], o)
           | c :: cs' =>
               let '(c', o) := node_compile_handlers g c o in
               let '(cs'', o) := go cs' o in
               (c' :: cs'', o)
           end) cs o in
      (Node seg type hs' cs' cap sf, o)
  end.

(** [None] where [memcpy] would read past [global_mws]. *)
Definition csilk_router_compile (r : csilk_router_t) (global_mws : option (list handler)) (count : nat) (o : oracle)
  : option (csilk_router_t * oracle) :=
  let count := if (32 <? count)%nat then 32%nat else count in
  arr ← match global_mws with
        | Some l =>
            if (length l <? count)%nat then None
            else Some (take count l ++ drop count (global_middlewares r))
        | None => Some (global_middlewares r)
        end;
  let '(root', o) := node_compile_handlers (take count arr) (root r) o in
  Some (mk_router root' arr count, o).

(** ** Reference: the route table of a trie *)

(** A pattern is the list of its segments' kinds and names. *)
Definition key := (csilk_node_type_t * bytes)%type.
Definition pattern := list key.
Definition entry := (pattern * csilk_method_handler_t)%type.

Definition node_key (n : csilk_router_node_t) : key := (ntype n, segment n).

Fixpoint pattern_loop (fuel : nat) (p : bytes) : pattern :=
  match fuel with
  | O => []
  | S fuel' =>
      match next_segment p with
      | None => []
      | Some (seg, rest) =>
          let k := segment_kind seg in
          if decide (k.1 = CSILK_NODE_WILDCARD) then [k] else k :: pattern_loop fuel' rest
      end
  end.

(** The pattern a route path stands for; a wildcard ends it. *)
Definition pattern_of (p : bytes) : pattern := pattern_loop (S (length p)) p.

(** Every route of the trie in the order of a depth-first walk. *)
Fixpoint routes (n : csilk_router_node_t) : list entry :=
  match n with
  | Node _ _ hs cs _ _ =>
      map (fun m => ([], m)) hs ++
      flat_map (fun c => map (fun e : entry => (node_key c :: e.1, e.2)) (routes c)) cs
  end.

Definition kid_routes (c : csilk_router_node_t) : list entry := map (fun e : entry => (node_key c :: e.1, e.2)) (routes c).

(** ** Order of keys *)

Definition key_cmp (a b : key) : comparison :=
  if decide (a.1 = b.1) then strcmp a.2 b.2 else if type_rank a.1 <? type_rank b.1 then Lt else Gt.

Definition key_lt (a b : key) : Prop := key_cmp a b = Lt.

Lemma node_cmp_key_spec type seg n : node_cmp_key type seg n = key_cmp (type, seg) (node_key n).
Proof. done. Qed.

Lemma type_rank_inj a b : type_rank a = type_rank b -> a = b.
Proof. by destruct a, b. Qed.

Lemma key_cmp_eq a b : key_cmp a b = Eq <-> a = b.
Proof.
  unfold key_cmp. destruct a as [t s], b as [t' s']. cbn. case_decide; [subst|].
  - rewrite strcmp_eq. split; congruence.
  - destruct (_ <? _); split; congruence.
Qed.

Lemma key_cmp_antisym a b : key_cmp b a = CompOpp (key_cmp a b).
Proof.
  unfold key_cmp. destruct a as [t s], b as [t' s']. cbn. do 2 case_decide; subst; try done; [apply strcmp_antisym|].
  destruct (Z.ltb_spec (type_rank t) (type_rank t')), (Z.ltb_spec (type_rank t') (type_rank t)); try done; try lia.
  exfalso. by apply H, type_rank_inj, Z.le_antisymm.
Qed.

Lemma key_lt_trans a b c : key_lt a b -> key_lt b c -> key_lt a c.
Proof.
  unfold key_lt, key_cmp. destruct a as [t s], b as [t' s'], c as [t'' s'']. cbn.
  destruct t, t', t''; cbn; try done; apply strcmp_lt_trans.
Qed.

Lemma key_lt_irrefl a : ~ key_lt a a.
Proof. unfold key_lt. assert (key_cmp a a = Eq) as -> by by apply key_cmp_eq. done. Qed.

Lemma key_cmp_gt a b : key_cmp a b = Gt <-> key_lt b a.
Proof. unfold key_lt. rewrite key_cmp_antisym. destruct (key_cmp b a); cbn; split; done. Qed.

Definition node_lt (a b : csilk_router_node_t) : Prop := key_lt (node_key a) (node_key b).

(** ** Invariant *)

(** [w] bounds the number of children; the capacity is 8, 16, ..., 32768. *)
Definition local_wf (w : nat) (n : csilk_router_node_t) : Prop :=
  StronglySorted node_lt (children n) /\
  (ntype n = CSILK_NODE_WILDCARD -> children n = []) /\
  (exists k, 3 <= k <= 15 /\ children_cap n = 2 ^ k) /\
  Z.of_nat (length (children n)) <= children_cap n /\
  (length (children n) <= w)%nat.

Fixpoint wf (w : nat) (n : csilk_router_node_t) : Prop :=
  local_wf w n /\
  match n with
  | Node _ _ _ cs _ _ =>
      (fix all (cs : list csilk_router_node_t) : Prop := match cs with [] => True | c :: cs' => wf w c /\ all cs' end) cs
  end.

Lemma wf_unfold w n : wf w n <-> local_wf w n /\ Forall (wf w) (children n).
Proof.
  destruct n as [seg type hs cs cap sf]. cbn [wf children]. f_equiv.
  induction cs as [|c cs IH]; [by split|]. rewrite Forall_cons, IH. done.
Qed.

Lemma routes_unfold n :
  routes n = @app entry (@map _ entry (fun m => ([], m)) (handlers n)) (@flat_map _ entry kid_routes (children n)).
Proof. by destruct n. Qed.

(** Induction over a trie. *)
Lemma node_induction (P : csilk_router_node_t -> Prop) :
  (forall n, Forall P (children n) -> P n) -> forall n, P n.
Proof.
  intros H. fix IH 1. intros [seg type hs cs cap sf]. apply H. cbn [children].
  induction cs as [|c cs IHcs]; constructor; [apply IH|apply IHcs].
Qed.

(** ** Binary search *)

Lemma sorted_before cs i j a b :
  StronglySorted node_lt cs -> cs !! i = Some a -> cs !! j = Some b -> (i < j)%nat -> node_lt a b.
Proof.
  intros Hs. revert i j. induction Hs as [|c cs Hs IH Hc]; intros i j Ha Hb Hij; [done|].
  destruct j as [|j]; [lia|]. destruct i as [|i]; cbn in Ha, Hb.
  - injection Ha as ->. rewrite Forall_lookup in Hc. by eapply Hc.
  - eapply IH; [done|done|lia].
Qed.

(** The key is above the children before [pos] and below those from it on. *)
Definition gap (cs : list csilk_router_node_t) (k : key) (pos : nat) : Prop :=
  (pos <= length cs)%nat /\
  (forall j c, cs !! j = Some c -> (j < pos)%nat -> key_lt (node_key c) k) /\
  (forall j c, cs !! j = Some c -> (pos <= j)%nat -> key_lt k (node_key c)).

Lemma find_child_loop_spec fuel cs type seg low high :
  StronglySorted node_lt cs -> 0 <= low -> low <= high + 1 -> high < Z.of_nat (length cs) -> high - low + 1 < Z.of_nat fuel ->
  (forall j c, cs !! j = Some c -> Z.of_nat j < low -> key_lt (node_key c) (type, seg)) ->
  (forall j c, cs !! j = Some c -> high < Z.of_nat j -> key_lt (type, seg) (node_key c)) ->
  (exists i c, find_child_loop fuel cs type seg low high = Some (Z.of_nat i, Z.of_nat i) /\
     cs !! i = Some c /\ node_key c = (type, seg)) \/
  (exists pos, find_child_loop fuel cs type seg low high = Some (-1, Z.of_nat pos) /\ gap cs (type, seg) pos).
Proof.
  intros Hs. revert low high. induction fuel as [|fuel IH]; intros low high H0 Hlh Hh Hf Hlo Hhi; [lia|].
  cbn [find_child_loop]. destruct (Z.leb_spec low high) as [Hle|Hgt].
  2: { right. exists (Z.to_nat low). rewrite Z2Nat.id by done. split; [done|]. split_and!; [lia|..].
       - intros j c Hj Hlt. apply (Hlo j c Hj). lia.
       - intros j c Hj Hlt. apply (Hhi j c Hj). lia. }
  set (mid := low + (high - low) / 2). assert (low <= mid <= high) as Hm by (unfold mid; Z.div_mod_to_equations; lia).
  destruct (lookup_lt_is_Some_2 cs (Z.to_nat mid)) as [c Hc]; [lia|]. rewrite Hc. cbn [mbind option_bind].
  rewrite node_cmp_key_spec. destruct (key_cmp (type, seg) (node_key c)) eqn:Ec.
  - left. exists (Z.to_nat mid), c. apply key_cmp_eq in Ec. rewrite Z2Nat.id by lia. done.
  - apply IH; [lia..|done|]. intros j c' Hj Hlt. destruct (decide (j = Z.to_nat mid)) as [->|Hne].
    { rewrite Hc in Hj. by injection Hj as <-. }
    apply (key_lt_trans _ (node_key c)); [done|]. eapply sorted_before; [done|exact Hc|exact Hj|lia].
  - apply IH; [lia..| |done]. intros j c' Hj Hlt. apply key_cmp_gt in Ec. destruct (decide (j = Z.to_nat mid)) as [->|Hne].
    { rewrite Hc in Hj. by injection Hj as <-. }
    apply (key_lt_trans _ (node_key c)); [|done]. eapply sorted_before; [done|exact Hj|exact Hc|lia].
Qed.

Lemma node_find_child_spec n type seg :
  StronglySorted node_lt (children n) ->
  (exists i c, node_find_child n type seg = Some (Z.of_nat i, Z.of_nat i) /\
     children n !! i = Some c /\ node_key c = (type, seg)) \/
  (exists pos, node_find_child n type seg = Some (-1, Z.of_nat pos) /\ gap (children n) (type, seg) pos).
Proof.
  intros Hs. apply find_child_loop_spec; [done|lia..| |].
  - intros j c _ Hj. lia.
  - intros j c Hj Hlt. apply lookup_lt_Some in Hj. lia.
Qed.

(** ** Inserting a child *)

Lemma insert_sorted cs child pos :
  StronglySorted node_lt cs -> gap cs (node_key child) pos ->
  StronglySorted node_lt (take pos cs ++ child :: drop pos cs).
Proof.
  intros Hs. revert pos. induction Hs as [|c cs Hs IH Hc]; intros pos (Hp & Hlo & Hhi).
  { cbn in Hp. replace pos with 0%nat by lia. repeat constructor. }
  destruct pos as [|pos]; cbn [take drop app].
  - constructor; [by constructor|]. apply Forall_lookup. intros j c' Hj. eapply (Hhi j); [done|lia].
  - cbn in Hp. constructor.
    + apply IH. split_and!; [lia|..].
      * intros j c' Hj Hlt. eapply (Hlo (S j)); [done|lia].
      * intros j c' Hj Hlt. eapply (Hhi (S j)); [done|lia].
    + rewrite Forall_app, Forall_cons. rewrite <- (take_drop pos cs), Forall_app in Hc. destruct Hc as [H1 H2].
      split_and!; [done| |done]. eapply (Hlo 0%nat); [done|lia].
Qed.

Lemma alloc_nil : alloc [] = (true, []).
Proof. done. Qed.

Lemma alloc_n_nil n : alloc_n n [] = (true, []).
Proof. by induction n. Qed.

(** With fewer than 32768 children the array grows to hold one more. *)
Lemma grow_children_spec w n o :
  local_wf w n -> Z.of_nat w < 32768 ->
  exists o', (o = [] -> o' = []) /\
    ((grow_children n o = (Some None, o') /\ o <> []) \/
     exists k, 3 <= k <= 15 /\ Z.of_nat (length (children n)) < 2 ^ k /\ grow_children n o = (Some (Some (2 ^ k)), o')).
Proof.
  intros (_ & _ & (k & Hk & Ecap) & Hle & Hw) Hlt. unfold grow_children. rewrite Ecap in *.
  destruct (Z.leb_spec (2 ^ k) (Z.of_nat (length (children n)))) as [Hfull|Hroom].
  2: { exists o. split; [done|]. right. by exists k. }
  assert (k < 15) as Hk'.
  { apply Z.nle_gt. intros H. pose proof (Z.pow_le_mono_r 2 15 k ltac:(lia) H) as Hp. change (2 ^ 15) with 32768 in Hp. lia. }
  pose proof (Z.pow_le_mono_r 2 k 14 ltac:(lia) ltac:(lia)) as Hp. change (2 ^ 14) with 16384 in Hp.
  pose proof (Z.pow_le_mono_r 2 3 k ltac:(lia) ltac:(lia)) as Hp'. change (2 ^ 3) with 8 in Hp'.
  assert (2 ^ (k + 1) = 2 * 2 ^ k) as E by (rewrite Z.pow_add_r by lia; lia).
  assert (wrap16 (2 ^ k * 2) = 2 ^ (k + 1)) as ->.
  { unfold wrap16, wrap. change (2 ^ 16) with 65536. rewrite Z.mod_small by lia. lia. }
  destruct (Z.ltb_spec (2 ^ (k + 1)) 16); [lia|]. destruct o as [|b o]; cbn [alloc negb].
  - exists []. split; [done|]. right. exists (k + 1). split_and!; [lia|lia|lia|].
    destruct (Z.leb_spec (2 ^ (k + 1)) (Z.of_nat (length (children n)))); [lia|done].
  - exists o. split; [done|]. destruct b; cbn [negb]; [right|by left].
    exists (k + 1). split_and!; [lia|lia|lia|].
    destruct (Z.leb_spec (2 ^ (k + 1)) (Z.of_nat (length (children n)))); [lia|done].
Qed.

Lemma wf_weaken w w' n : (w <= w')%nat -> wf w n -> wf w' n.
Proof.
  intros Hw. induction n as [n IH] using node_induction. rewrite !wf_unfold. intros [(H1 & H2 & H3 & H4 & H5) Hall].
  split; [by split_and!; auto; lia|]. rewrite Forall_lookup in *. eauto.
Qed.

Lemma node_new_wf w seg type : wf w (node_new seg type).
Proof.
  apply wf_unfold. split; [|constructor]. unfold local_wf. cbn. split_and!; [apply SSorted_nil|done|by exists 3|done|lia].
Qed.

Lemma node_new_key seg type : node_key (node_new seg type) = (type, seg).
Proof. done. Qed.

Lemma gap_length cs k pos : gap cs k pos -> (pos <= length cs)%nat.
Proof. by intros [? _]. Qed.

Lemma flat_map_app_cons {A B} (f : A -> list B) l1 x l2 :
  flat_map f (l1 ++ x :: l2) = flat_map f l1 ++ f x ++ flat_map f l2.
Proof. by rewrite flat_map_app. Qed.

(** Adding a new, empty child: the routes stay, the invariant too. *)
Lemma node_add_child_spec w n pos seg type o :
  wf w n -> Z.of_nat w < 32768 -> ntype n <> CSILK_NODE_WILDCARD -> gap (children n) (type, seg) pos ->
  exists r n' o', node_add_child n (node_new seg type) (Z.of_nat pos) o = Some (r, n', o') /\ (o = [] -> o' = [] /\ r = 0) /\
    wf (S w) n' /\ node_key n' = node_key n /\ routes n' = routes n /\
    (r = -1 \/ r = 0 /\ children n' !! pos = Some (node_new seg type) /\
       forall j c, children n' !! j = Some c -> j <> pos -> node_key c <> (type, seg)).
Proof.
  intros Hwf Hw Ht Hgap. pose proof Hwf as [Hl Hall]%wf_unfold. pose proof (gap_length _ _ _ Hgap) as Hpos.
  pose proof (wf_weaken w (S w) n ltac:(lia) Hwf) as Hwf'.
  unfold node_add_child. destruct (Z.ltb_spec (Z.of_nat pos) 0), (Z.ltb_spec (Z.of_nat (length (children n))) (Z.of_nat pos)); try lia.
  cbn [orb]. destruct (grow_children_spec w n o Hl Hw) as (o' & Ho & [[-> Hne]|(k & Hk & Hroom & ->)]).
  { eexists _, _, _. split; [done|]. split_and!; auto. done. }
  cbn [mbind option_bind]. rewrite Nat2Z.id. eexists _, _, _. split; [done|]. cbn [children]. split_and!; auto.
  - destruct Hl as (H1 & H2 & H3 & H4 & H5). apply wf_unfold. cbn [children]. split.
    + split_and!; cbn [children ntype children_cap]; [by apply insert_sorted|by intros ?|by exists k|..].
      all: rewrite length_app, length_cons, length_take, length_drop; lia.
    + apply wf_unfold in Hwf' as [_ Hall']. rewrite <- (take_drop pos (children n)), Forall_app in Hall'.
      apply Forall_app; split; [apply Hall'|constructor; [apply node_new_wf|apply Hall']].
  - rewrite !routes_unfold. cbn [handlers children]. f_equal. rewrite flat_map_app_cons. cbn [kid_routes routes node_new map flat_map app].
    by rewrite <- flat_map_app, take_drop.
  - right. split; [done|]. split; [by rewrite list_lookup_middle by (rewrite length_take; lia)|].
    destruct Hgap as (_ & Hlo & Hhi). intros j c Hj Hne Hkey.
    destruct (decide (j < pos)%nat).
    + rewrite lookup_app_l, lookup_take in Hj by (rewrite ?length_take; lia). case_decide; [|done].
      specialize (Hlo j c Hj ltac:(lia)). rewrite Hkey in Hlo. by apply key_lt_irrefl in Hlo.
    + rewrite lookup_app_r in Hj by (rewrite length_take; lia). rewrite length_take in Hj.
      replace (j - min pos (length (children n)))%nat with (S (j - pos - 1)) in Hj by lia.
      change (drop pos (children n) !! (j - pos - 1)%nat = Some c) in Hj. rewrite lookup_drop in Hj. specialize (Hhi _ c Hj ltac:(lia)). rewrite Hkey in Hhi. by apply key_lt_irrefl in Hhi.
Qed.

(** ** Registration adds exactly one route *)

(** What a registration does to the table: nothing on failure or when the
    pattern already has the method, one new entry otherwise. *)
Definition added (pat : pattern) (m : csilk_method_handler_t) (r : Z) (rs rs' : list entry) : Prop :=
  (r = -1 /\ rs' = rs) \/
  (r = 0 /\ (exists m', (pat, m') ∈ rs /\ mh_method m' = mh_method m) /\ rs' = rs) \/
  (r = 0 /\ (forall m', (pat, m') ∈ rs -> mh_method m' <> mh_method m) /\
     exists l1 l2, rs = l1 ++ l2 /\ rs' = l1 ++ (pat, m) :: l2).

Lemma elem_of_kid_routes c e : e ∈ kid_routes c <-> exists p m, e = (node_key c :: p, m) /\ (p, m) ∈ routes c.
Proof.
  unfold kid_routes. change @map with @List.map. rewrite list_elem_of_fmap. split.
  - intros ([p m] & -> & H). by exists p, m.
  - intros (p & m & -> & H). by exists (p, m).
Qed.

Lemma elem_of_flat_kids cs e : e ∈ flat_map kid_routes cs <-> exists c, c ∈ cs /\ e ∈ kid_routes c.
Proof. rewrite !list_elem_of_In, in_flat_map. by setoid_rewrite list_elem_of_In. Qed.

Lemma elem_of_own n m : ([], m) ∈ routes n <-> m ∈ handlers n.
Proof.
  rewrite routes_unfold, elem_of_app, elem_of_flat_kids. split.
  - intros [H|(c & _ & (p & m' & [=] & _)%elem_of_kid_routes)].
    apply list_elem_of_fmap in H as (m' & [= ->] & H). done.
  - intros H. left. apply list_elem_of_fmap. by exists m.
Qed.

Lemma elem_of_deep n k p m :
  (k :: p, m) ∈ routes n <-> exists c, c ∈ children n /\ node_key c = k /\ (p, m) ∈ routes c.
Proof.
  rewrite routes_unfold, elem_of_app, elem_of_flat_kids. split.
  - intros [(m' & [=] & _)%list_elem_of_fmap|(c & Hc & (p' & m' & [= -> -> ->] & H)%elem_of_kid_routes)].
    by exists c.
  - intros (c & Hc & <- & H). right. exists c. split; [done|]. apply elem_of_kid_routes. by exists p, m.
Qed.

Lemma register_spec w g a n o :
  wf w n ->
  let '(r, n', o') := register g a n o in
  (o = [] -> o' = [] /\ r = 0) /\ wf w n' /\ node_key n' = node_key n /\
  added [] (new_mh g a) r (routes n) (routes n').
Proof.
  intros Hwf. unfold register. destruct (existsb (has_method (a_method a)) (handlers n)) eqn:Ed.
  - split_and!; auto. right; left. split_and!; auto. apply existsb_exists in Ed as (m & Hm & Em).
    exists m. rewrite elem_of_own, list_elem_of_In. split; [done|]. by apply bool_decide_eq_true in Em.
  - destruct (alloc_n 5 o) as [ok o'] eqn:Eo. assert (o = [] -> ok = true /\ o' = []) as Hnil.
    { intros ->. rewrite alloc_n_nil in Eo. by injection Eo as <- <-. }
    destruct ok.
    2: { split_and!; auto; [intros E; by destruct (Hnil E)|]. left. done. }
    split_and!; auto; [intros E; by destruct (Hnil E)|..].
    + apply wf_unfold in Hwf as [(H1 & H2 & H3 & H4 & H5) Hall]. apply wf_unfold. split; [split_and!; auto|done].
    + right; right. split_and!; auto.
      * intros m' Hm' Em. apply elem_of_own, list_elem_of_In in Hm'. apply not_true_iff_false in Ed. apply Ed.
        apply existsb_exists. exists m'. split; [done|]. by apply bool_decide_eq_true.
      * exists [], (routes n). split; [done|]. by rewrite !routes_unfold.
Qed.

Lemma sorted_keys cs : StronglySorted node_lt cs <-> StronglySorted key_lt (map node_key cs).
Proof.
  induction cs as [|c cs IH]; cbn [map]; [split; constructor|]. split.
  - intros [H1 H2]%StronglySorted_inv. constructor; [by apply IH|]. by apply Forall_map.
  - intros [H1 H2]%StronglySorted_inv. constructor; [by apply IH|]. exact (proj1 (List.Forall_map _ _ _) H2).
Qed.

Lemma map_insert_same (cs : list csilk_router_node_t) i c c' :
  cs !! i = Some c -> node_key c' = node_key c -> map node_key (<[i := c']> cs) = map node_key cs.
Proof.
  intros Hi Hk. change @map with @List.map. rewrite list_fmap_insert, Hk. apply list_insert_id.
  by rewrite list_lookup_fmap, Hi.
Qed.

Lemma set_child_wf w n i c c' :
  wf w n -> children n !! i = Some c -> node_key c' = node_key c -> wf w c' -> wf w (set_child n i c').
Proof.
  intros [(H1 & H2 & H3 & H4 & H5) Hall]%wf_unfold Hi Hk Hc. apply wf_unfold. split.
  - split_and!; cbn [children ntype children_cap set_child]; auto.
    + apply sorted_keys. rewrite (map_insert_same _ _ c) by done. by apply sorted_keys.
    + intros Ht. rewrite (H2 Ht) in Hi. done.
    + by rewrite length_insert.
    + by rewrite length_insert.
  - cbn [children set_child]. by apply Forall_insert.
Qed.

(** The step under a child whose key no other child has. *)
Lemma set_child_added n i c c' pat m r :
  children n !! i = Some c -> node_key c' = node_key c ->
  (forall j d, children n !! j = Some d -> j <> i -> node_key d <> node_key c) ->
  added pat m r (routes c) (routes c') -> added (node_key c :: pat) m r (routes n) (routes (set_child n i c')).
Proof.
  intros Hi Hk Huniq Ha. pose proof (lookup_lt_Some _ _ _ Hi) as Hlt.
  set (own := map (fun m => ([], m)) (handlers n) : list entry).
  assert (routes n = own ++ flat_map kid_routes (take i (children n)) ++ kid_routes c ++ flat_map kid_routes (drop (S i) (children n))) as E.
  { rewrite routes_unfold. f_equal. by rewrite <- (take_drop_middle _ _ _ Hi) at 1; rewrite flat_map_app_cons. }
  assert (routes (set_child n i c') = own ++ flat_map kid_routes (take i (children n)) ++
            map (fun e : entry => (node_key c :: e.1, e.2)) (routes c') ++ flat_map kid_routes (drop (S i) (children n))) as E'.
  { rewrite routes_unfold. cbn [handlers children set_child]. f_equal.
    rewrite insert_take_drop by done. rewrite flat_map_app_cons. unfold kid_routes at 2. by rewrite Hk. }
  assert (forall m', (node_key c :: pat, m') ∈ routes n -> (pat, m') ∈ routes c) as Hback.
  { intros m' (d & Hd & Ed & Hr)%elem_of_deep. apply list_elem_of_lookup in Hd as [j Hj].
    destruct (decide (j = i)) as [->|Hne]; [rewrite Hi in Hj; by injection Hj as ->|]. by destruct (Huniq j d Hj Hne). }
  destruct Ha as [[-> Er]|[(-> & (m' & Hm & Em) & Er)|(-> & Hno & l1 & l2 & E1 & E2)]].
  - left. split; [done|]. by rewrite E', E, Er.
  - right; left. split; [done|]. split; [|by rewrite E', E, Er]. exists m'. split; [|done].
    apply elem_of_deep. exists c. split; [by eapply list_elem_of_lookup_2|done].
  - right; right. split; [done|]. split; [eauto|].
    exists (own ++ flat_map kid_routes (take i (children n)) ++ map (fun e : entry => (node_key c :: e.1, e.2)) l1),
      (map (fun e : entry => (node_key c :: e.1, e.2)) l2 ++ flat_map kid_routes (drop (S i) (children n))).
    split.
    + rewrite E. unfold kid_routes at 2. rewrite E1, map_app. by rewrite <- !app_assoc.
    + rewrite E', E2, map_app. cbn [map fst snd]. rewrite <- !app_assoc. by cbn [app].
Qed.

Lemma next_segment_shrinks p seg rest : next_segment p = Some (seg, rest) -> (length rest < length p)%nat /\ seg <> [].
Proof.
  unfold next_segment. pose proof (drop_slashes_le p) as Hle.
  assert (forall t, match drop_slashes t with c :: _ => c <> SLASH | [] => True end) as Hhead.
  { induction t as [|c t IH]; cbn; [done|]. destruct (Ascii.eqb_spec c SLASH); done. }
  specialize (Hhead p). destruct (drop_slashes p) as [|c t]; [done|]. cbn [until_slash].
  destruct (Ascii.eqb_spec c SLASH); [done|]. destruct (until_slash t) as [a b] eqn:E. intros [= <- <-].
  assert (length b <= length t)%nat; [|cbn in Hle; split; [lia|done]]. clear - E. revert a b E.
  induction t as [|d t IH]; cbn; intros a b E; [injection E as <- <-; done|].
  destruct (Ascii.eqb d SLASH); [injection E as <- <-; done|]. destruct (until_slash t) as [a' b'].
  injection E as <- <-. specialize (IH a' b' eq_refl). lia.
Qed.

(** Keys of sorted children are distinct. *)
Lemma sorted_unique cs i j c d :
  StronglySorted node_lt cs -> cs !! i = Some c -> cs !! j = Some d -> j <> i -> node_key d <> node_key c.
Proof.
  intros Hs Hi Hj Hne E. destruct (decide (i < j)%nat).
  - pose proof (sorted_before cs i j c d Hs Hi Hj ltac:(lia)) as H. unfold node_lt in H. rewrite E in H. by apply key_lt_irrefl in H.
  - pose proof (sorted_before cs j i d c Hs Hj Hi ltac:(lia)) as H. unfold node_lt in H. rewrite E in H. by apply key_lt_irrefl in H.
Qed.

(** [Q]: no allocation fails. *)
Definition walk_ok (w : nat) (Q : Prop) (n : csilk_router_node_t) (pat : pattern) (m : csilk_method_handler_t)
    (res : option (Z * csilk_router_node_t * oracle)) : Prop :=
  exists r n' o', res = Some (r, n', o') /\ (Q -> o' = [] /\ r = 0) /\
    wf (S w) n' /\ node_key n' = node_key n /\ added pat m r (routes n) (routes n').

Lemma walk_ok_weaken w (Q Q' : Prop) n pat m res : (Q' -> Q) -> walk_ok w Q n pat m res -> walk_ok w Q' n pat m res.
Proof. intros HQ (r & n' & o' & H1 & H2 & H3). exists r, n', o'. split_and!; tauto. Qed.

Lemma walk_failed w (Q : Prop) n n' o pat m :
  ~ Q -> wf (S w) n' -> node_key n' = node_key n -> routes n' = routes n -> walk_ok w Q n pat m (Some (-1, n', o)).
Proof. intros HQ H1 H2 H3. eexists _, _, _. split; [done|]. split_and!; [done..|]. by left. Qed.

(** Going down to child [i] and putting the result back. *)
Lemma descend_ok w Q n0 n i c pat m (sub : csilk_router_node_t -> option (Z * csilk_router_node_t * oracle)) :
  wf (S w) n -> node_key n = node_key n0 -> routes n = routes n0 -> children n !! i = Some c ->
  walk_ok w Q c pat m (sub c) ->
  walk_ok w Q n0 (node_key c :: pat) m
    (child ← children n !! i; '(r, child', o) ← sub child; Some (r, set_child n i child', o)).
Proof.
  intros Hwf Hkn Hrn Hi (r & c' & o' & E & Ho & Hwf' & Hk & Ha). rewrite Hi. cbn [mbind option_bind].
  rewrite E. eexists _, _, _. split; [done|]. split_and!; auto; [by eapply set_child_wf|].
  rewrite <- Hrn. apply set_child_added; auto. intros j d Hj Hne. eapply sorted_unique; [|done..].
  apply wf_unfold in Hwf as [(H & _) _]. done.
Qed.

Lemma alloc_ok o : (let '(ok, o') := alloc o in o = [] -> ok = true /\ o' = []).
Proof. by destruct o. Qed.

Lemma alloc_n_ok n o : (let '(ok, o') := alloc_n n o in o = [] -> ok = true /\ o' = []).
Proof. destruct (alloc_n n o) eqn:E. intros ->. rewrite alloc_n_nil in E. by injection E as <- <-. Qed.

Lemma register_ok w g a n o : wf w n -> walk_ok w (o = []) n [] (new_mh g a) (Some (register g a n o)).
Proof.
  intros Hwf. pose proof (register_spec w g a n o Hwf) as H. destruct (register g a n o) as [[r n'] o'].
  destruct H as (H1 & H2 & H3 & H4). exists r, n', o'. split_and!; auto. eapply wf_weaken, H2. lia.
Qed.

Lemma add_walk_ok g a fuel p n o w :
  wf w n -> Z.of_nat w < 32768 -> ntype n <> CSILK_NODE_WILDCARD -> (length p < fuel)%nat ->
  walk_ok w (o = []) n (pattern_loop fuel p) (new_mh g a) (add_walk fuel g a p n o).
Proof.
  revert p n o. induction fuel as [|fuel IH]; intros p n o Hwf Hw Ht Hf; [lia|]. cbn [add_walk pattern_loop].
  destruct (next_segment p) as [[seg rest]|] eqn:Eseg; [|by apply register_ok].
  destruct (next_segment_shrinks _ _ _ Eseg) as [Hshrink _]. pose proof (wf_weaken w (S w) n ltac:(lia) Hwf) as Hwf'.
  destruct (segment_kind seg) as [type name]. cbn [fst].
  set (rest_pat := if decide (type = CSILK_NODE_WILDCARD) then [] else pattern_loop fuel rest).
  assert (forall c o1 i n1, wf w c -> node_key c = (type, name) -> wf (S w) n1 -> node_key n1 = node_key n -> routes n1 = routes n ->
            children n1 !! i = Some c -> (o = [] -> o1 = []) ->
            walk_ok w (o = []) n ((type, name) :: rest_pat) (new_mh g a)
              (child ← children n1 !! i;
               '(r, child', o) ← (if decide (type = CSILK_NODE_WILDCARD) then Some (register g a child o1) else add_walk fuel g a rest child o1);
               Some (r, set_child n1 i child', o))) as Hdown.
  { intros c o1 i n1 Hc Hk H1 H2 H3 H4 Ho. rewrite <- Hk. apply walk_ok_weaken with (o1 = []); [done|].
    apply (descend_ok w (o1 = []) n n1 i c rest_pat _
             (fun child => if decide (type = CSILK_NODE_WILDCARD) then Some (register g a child o1) else add_walk fuel g a rest child o1));
      [done..|]. unfold rest_pat. case_decide; [by apply register_ok|]. apply IH; [done|done| |lia]. unfold node_key in Hk. congruence. }
  replace (if decide (type = CSILK_NODE_WILDCARD) then [(type, name)] else (type, name) :: pattern_loop fuel rest)
    with ((type, name) :: rest_pat) by (unfold rest_pat; by destruct (decide (type = CSILK_NODE_WILDCARD))).
  pose proof (alloc_ok o) as Ho. destruct (alloc o) as [ok o1]. destruct ok; cbn [negb].
  2: { apply walk_failed; auto. intros E. by destruct (Ho E). }
  pose proof Hwf as [(Hsort & _) Hall]%wf_unfold.
  destruct (node_find_child_spec n type name Hsort) as [(i & c & -> & Hi & Hk)|(pos & -> & Hgap)]; cbn [mbind option_bind].
  { destruct (Z.leb_spec 0 (Z.of_nat i)); [|lia]. rewrite Nat2Z.id. apply (Hdown c); auto; [|by intros [_ ?]%Ho].
    rewrite Forall_lookup in Hall. by eapply Hall. }
  cbn [Z.leb Z.compare]. pose proof (alloc_n_ok 2 o1) as Ho1. destruct (alloc_n 2 o1) as [ok o2]. destruct ok; cbn [negb].
  2: { apply walk_failed; auto. intros [_ E]%Ho. by destruct (Ho1 E). }
  destruct (node_add_child_spec w n pos name type o2 Hwf Hw Ht Hgap) as (r & n' & o3 & -> & Ho2 & H1 & H2 & H3 & Hr).
  cbn [mbind option_bind]. destruct Hr as [->|(-> & Hpos & _)]; cbn [negb Z.eqb].
  { apply walk_failed; auto. intros [_ [_ [_ E]%Ho2]%Ho1]%Ho. done. }
  rewrite Nat2Z.id. apply (Hdown (node_new name type)); auto using node_new_wf. by intros [_ [_ [? _]%Ho2]%Ho1]%Ho.
Qed.
