(* ===== verification/RouterMatch.v ===== *)
(** * The router: matching

    Models src/src/core/primitives/router_trie.c ([match_node] with its stack
    of frames, the capture of parameters and their rollback) and the matching
    entry points of router.c, and shows that the iterative walk returns the
    first route, in the order of the sorted trie, whose pattern matches.
    A path is the string that is left at a frame; both ways the code compares
    a static segment (memcmp and the vector routine of Simd) decide equality
    of the bytes. *)

From stdpp Require Import sorting.
From S2P Require Import Prelude Simd Router.

#[local] Open Scope Z_scope.

Definition CSILK_MAX_PARAMS : nat := 20.

(** ** Parameters of a request *)

(** What matching uses of a request context: whether there is one, whether it
    has an arena, the captured parameters, and the answers of the allocator. *)
Record mctx := mk_mctx {
  has_ctx : bool;
  has_arena : bool;
  params : list (bytes * bytes);
  mem : oracle;
}.

Definition params_count (c : mctx) : nat := if has_ctx c then length (params c) else 0.
Definition set_mem (c : mctx) (o : oracle) : mctx := mk_mctx (has_ctx c) (has_arena c) (params c) o.
Definition push_param (c : mctx) (kv : bytes * bytes) (o : oracle) : mctx :=
  mk_mctx (has_ctx c) (has_arena c) (params c ++ [kv]) o.

(** The two copies of a capture; with an arena the key of a plain parameter
    is borrowed from the node ([own_key] false). *)
Definition capture (own_key : bool) (c : mctx) (key val : bytes) : bool * mctx :=
  if negb (has_ctx c) then (false, c) else
  if (CSILK_MAX_PARAMS <=? length (params c))%nat then (false, c) else
  let '(k_ok, o) := if own_key || negb (has_arena c) then alloc (mem c) else (true, mem c) in
  let '(v_ok, o) := alloc o in
  if k_ok && v_ok then (true, push_param c (key, val) o) else (false, set_mem c o).

Definition capture_param (c : mctx) (key val : bytes) : bool * mctx := capture false c key val.

Definition capture_wildcard_param (c : mctx) (key path : bytes) : bool * mctx :=
  capture true c key (drop_slashes path).

Definition rollback_param (c : mctx) (target_count : nat) : mctx :=
  if has_ctx c then mk_mctx (has_ctx c) (has_arena c) (take target_count (params c)) (mem c) else c.

(** ** The stack machine *)

Record router_stack_frame_t := mk_frame {
  f_node : csilk_router_node_t;
  f_path : bytes;
  f_p : bytes;
  f_seg : option bytes;
  child_idx : nat;
  params_count_snapshot : nat;
  param_added : bool;
  checked_terminal : bool;
}.

Definition new_frame (n : csilk_router_node_t) (path : bytes) (snapshot : nat) (added : bool) : router_stack_frame_t :=
  match next_segment path with
  | Some (seg, p) => mk_frame n path p (Some seg) 0 snapshot added false
  | None => mk_frame n path [] None 0 snapshot added false
  end.

(** The frame after the children before [i] were tried. *)
Definition at_child (f : router_stack_frame_t) (i : nat) : router_stack_frame_t :=
  mk_frame (f_node f) (f_path f) (f_p f) (f_seg f) i (params_count_snapshot f) (param_added f) true.

Definition find_method (method : bytes) (hs : list csilk_method_handler_t) : option csilk_method_handler_t :=
  List.find (has_method method) hs.

Definition is_terminal (path : bytes) : bool :=
  match path with
  | [] => true
  | [c] => Ascii.eqb c SLASH
  | _ => false
  end.

Definition first_byte (s : bytes) : ascii := match s with c :: _ => c | [] => NUL end.

(** The early [continue] on the first byte. *)
Definition first_byte_differs (child : csilk_router_node_t) (seg : option bytes) : bool :=
  match seg with
  | Some s =>
      bool_decide (ntype child = CSILK_NODE_STATIC) && (0 <? length (segment child))%nat &&
      negb (Ascii.eqb (first_byte (segment child)) (first_byte s))
  | None => false
  end.

Definition static_match (child : csilk_router_node_t) (seg : bytes) : bool :=
  (length (segment child) =? length seg)%nat && Ascii.eqb (first_byte (segment child)) (first_byte seg) &&
  bool_decide (segment child = seg).

Inductive scan_result :=
| Matched (mh : csilk_method_handler_t)
| Pushed (g : router_stack_frame_t)
| Exhausted.

(** The inner [while] over the children [cs] from index [i] on. *)
Fixpoint try_children (method : bytes) (f : router_stack_frame_t) (cs : list csilk_router_node_t) (i : nat) (c : mctx)
  : scan_result * nat * mctx :=
  match cs with
  | [] => (Exhausted, i, c)
  | child :: cs' =>
      if first_byte_differs child (f_seg f) then try_children method f cs' (S i) c else
      match ntype child with
      | CSILK_NODE_STATIC =>
          match f_seg f with
          | None => try_children method f cs' (S i) c
          | Some seg =>
              if static_match child seg then (Pushed (new_frame child (f_p f) (params_count c) false), S i, c)
              else try_children method f cs' (S i) c
          end
      | CSILK_NODE_PARAM =>
          match f_seg f with
          | None => try_children method f cs' (S i) c
          | Some seg =>
              let snapshot := params_count c in
              let '(added, c) := capture_param c (segment child) seg in
              (Pushed (new_frame child (f_p f) snapshot added), S i, c)
          end
      | CSILK_NODE_WILDCARD =>
          let snapshot := params_count c in
          let '(added, c) := capture_wildcard_param c (segment child) (f_path f) in
          match find_method method (handlers child) with
          | Some mh => (Matched mh, S i, c)
          | None => try_children method f cs' (S i) (if added then rollback_param c snapshot else c)
          end
      end
  end.

(** Leaving a frame. *)
Definition backtrack (f : router_stack_frame_t) (c : mctx) : mctx :=
  if param_added f then rollback_param c (params_count_snapshot f) else c.

(** One turn of [while (depth >= 0)]; the stack has its top first. *)
Definition match_step (method : bytes) (stack : list router_stack_frame_t) (c : mctx)
  : (option csilk_method_handler_t * mctx) + (list router_stack_frame_t * mctx) :=
  match stack with
  | [] => inl (None, c)
  | f :: below =>
      let hit := if negb (checked_terminal f) && is_terminal (f_path f)
                 then find_method method (handlers (f_node f)) else None in
      match hit with
      | Some mh => inl (Some mh, c)
      | None =>
          if (CSILK_ROUTER_MAX_DEPTH - 1 <=? length below)%nat then inr (below, backtrack f c) else
          match try_children method f (drop (child_idx f) (children (f_node f))) (child_idx f) c with
          | (Matched mh, _, c) => inl (Some mh, c)
          | (Pushed g, i, c) => inr (g :: at_child f i :: below, c)
          | (Exhausted, _, c) => inr (below, backtrack f c)
          end
      end
  end.

Fixpoint match_loop (fuel : nat) (method : bytes) (stack : list router_stack_frame_t) (c : mctx)
  : option (option csilk_method_handler_t * mctx) :=
  match fuel with
  | O => None
  | S fuel' =>
      match match_step method stack c with
      | inl r => Some r
      | inr (stack', c') => match_loop fuel' method stack' c'
      end
  end.

Fixpoint node_count (n : csilk_router_node_t) : nat :=
  match n with Node _ _ _ cs _ _ => S (list_sum (map node_count cs)) end.

(** The number of turns is bounded by twice the number of nodes. *)
Definition match_node (n : csilk_router_node_t) (method path : bytes) (c : mctx)
  : option (option csilk_method_handler_t * mctx) :=
  match_loop (2 * node_count n) method [new_frame n path (params_count c) false] c.

(** ** Entry points *)

Definition csilk_router_match (r : csilk_router_t) (method path : bytes) : option (option (list handler)) :=
  match match_node (root r) method path (mk_mctx false false [] []) with
  | Some (res, _) => Some (option_map mh_handlers res)
  | None => None
  end.

(** The routing fields of a request context. *)
Record route_ctx := mk_route_ctx {
  rc : mctx;
  rc_handlers : list handler;
  rc_handler_count : nat;
  rc_handler_index : Z;
  rc_current : option csilk_method_handler_t;
}.

Definition csilk_router_match_ctx (r : csilk_router_t) (method path : bytes) (x : route_ctx) : option (Z * route_ctx) :=
  '(res, c) ← match_node (root r) method path (mk_mctx true (has_arena (rc x)) [] (mem (rc x)));
  Some match res with
       | Some mh => (1, mk_route_ctx c (mh_handlers mh) (length (mh_handlers mh)) (-1) (Some mh))
       | None => (0, mk_route_ctx c (rc_handlers x) (rc_handler_count x) (rc_handler_index x) (rc_current x))
       end.

(** ** Reference: first matching route *)

(** The parameters a pattern binds on a path, if it matches. *)
Fixpoint pmatch (pat : pattern) (path : bytes) : option (list (bytes * bytes)) :=
  match pat with
  | [] => if is_terminal path then Some [] else None
  | (CSILK_NODE_STATIC, name) :: pat' =>
      '(seg, rest) ← next_segment path; if decide (name = seg) then pmatch pat' rest else None
  | (CSILK_NODE_PARAM, name) :: pat' =>
      '(seg, rest) ← next_segment path; b ← pmatch pat' rest; Some ((name, seg) :: b)
  | (CSILK_NODE_WILDCARD, name) :: pat' =>
      match pat' with [] => Some [(name, drop_slashes path)] | _ => None end
  end.

Definition entry_match (method path : bytes) (e : entry) : option (csilk_method_handler_t * list (bytes * bytes)) :=
  if has_method method e.2 then b ← pmatch e.1 path; Some (e.2, b) else None.

Fixpoint first_match (method path : bytes) (es : list entry) : option (csilk_method_handler_t * list (bytes * bytes)) :=
  match es with
  | [] => None
  | e :: es' =>
      match entry_match method path e with
      | Some r => Some r
      | None => first_match method path es'
      end
  end.

(** Routes within reach of the 64 frames. *)
Definition reachable (d : nat) (e : entry) : bool := (d + length e.1 <? CSILK_ROUTER_MAX_DEPTH)%nat.

(** ** The walk as a recursion *)

(** What the children of a node contribute, given the visit of one child. *)
Definition visit_kids (V : csilk_router_node_t -> bytes -> mctx -> option csilk_method_handler_t * mctx)
    (method path : bytes)
  : list csilk_router_node_t -> mctx -> option csilk_method_handler_t * mctx :=
  fix go (cs : list csilk_router_node_t) (c : mctx) :=
    match cs with
    | [] => (None, c)
    | child :: cs' =>
        match ntype child, next_segment path with
        | CSILK_NODE_STATIC, Some (seg, p) =>
            if decide (segment child = seg) then
              match V child p c with
              | (Some mh, c') => (Some mh, c')
              | (None, c') => go cs' c'
              end
            else go cs' c
        | CSILK_NODE_PARAM, Some (seg, p) =>
            let '(added, c1) := capture_param c (segment child) seg in
            match V child p c1 with
            | (Some mh, c') => (Some mh, c')
            | (None, c') => go cs' (if added then rollback_param c' (params_count c) else c')
            end
        | CSILK_NODE_WILDCARD, _ =>
            let '(added, c1) := capture_wildcard_param c (segment child) path in
            match find_method method (handlers child) with
            | Some mh => (Some mh, c1)
            | None => go cs' (if added then rollback_param c1 (params_count c) else c1)
            end
        | _, None => go cs' c
        end
    end.

Fixpoint visit (method : bytes) (n : csilk_router_node_t) (d : nat) (path : bytes) (c : mctx)
  : option csilk_method_handler_t * mctx :=
  match n with
  | Node _ _ hs cs _ _ =>
      match (if is_terminal path then find_method method hs else None) with
      | Some mh => (Some mh, c)
      | None =>
          if (CSILK_ROUTER_MAX_DEPTH - 1 <=? d)%nat then (None, c)
          else visit_kids (fun child p c => visit method child (S d) p c) method path cs c
      end
  end.

Lemma visit_unfold method n d path c :
  visit method n d path c =
  match (if is_terminal path then find_method method (handlers n) else None) with
  | Some mh => (Some mh, c)
  | None =>
      if (CSILK_ROUTER_MAX_DEPTH - 1 <=? d)%nat then (None, c)
      else visit_kids (fun child p c => visit method child (S d) p c) method path (children n) c
  end.
Proof. by destruct n. Qed.

Lemma new_frame_fields n path snapshot added :
  f_node (new_frame n path snapshot added) = n /\ f_path (new_frame n path snapshot added) = path /\
  child_idx (new_frame n path snapshot added) = 0%nat /\ checked_terminal (new_frame n path snapshot added) = false /\
  param_added (new_frame n path snapshot added) = added /\
  params_count_snapshot (new_frame n path snapshot added) = snapshot /\
  match next_segment path with
  | Some (seg, p) => f_seg (new_frame n path snapshot added) = Some seg /\ f_p (new_frame n path snapshot added) = p
  | None => f_seg (new_frame n path snapshot added) = None
  end.
Proof. unfold new_frame. by destruct (next_segment path) as [[seg p]|]. Qed.

(** The two tests on a static child amount to equality with the segment. *)
Lemma static_child child seg :
  seg <> [] -> ntype child = CSILK_NODE_STATIC ->
  first_byte_differs child (Some seg) = false -> static_match child seg = bool_decide (segment child = seg).
Proof.
  intros Hs Ht _. unfold static_match. case_bool_decide as E; [subst; by rewrite Nat.eqb_refl, Ascii.eqb_refl|].
  by rewrite andb_false_r.
Qed.

Lemma static_skipped child seg :
  first_byte_differs child (Some seg) = true -> ntype child = CSILK_NODE_STATIC /\ segment child <> seg.
Proof.
  unfold first_byte_differs. rewrite !andb_true_iff, bool_decide_eq_true, negb_true_iff. intros [[Ht _] Hb].
  split; [done|]. intros E. by rewrite E, Ascii.eqb_refl in Hb.
Qed.

Lemma backtrack_at_child f i c : backtrack (at_child f i) c = backtrack f c.
Proof. done. Qed.

(** ** The machine computes the recursion *)

Section simulation.
Context (method : bytes).

(** The machine from [stack] behaves as one with [k] turns less and the
    outcome [res] of the walk below the top frame [f]. *)
Definition resumes (f : router_stack_frame_t) (below : list router_stack_frame_t) (c : mctx)
    (res : option csilk_method_handler_t * mctx) (k : nat) : Prop :=
  forall fuel, match_loop (k + fuel) method (f :: below) c =
    match res with
    | (Some mh, c') => Some (Some mh, c')
    | (None, c') => match_loop fuel method below (backtrack f c')
    end.

(** One turn. *)
Lemma turn fuel stack c :
  match_loop (S fuel) method stack c =
  match match_step method stack c with inl r => Some r | inr (s, c') => match_loop fuel method s c' end.
Proof. done. Qed.

(** A frame standing at child [i], where [cs] are the children left. *)
Lemma step_at_child f i below c cs :
  drop i (children (f_node f)) = cs -> (length below < CSILK_ROUTER_MAX_DEPTH - 1)%nat ->
  match_step method (at_child f i :: below) c =
  match try_children method (at_child f i) cs i c with
  | (Matched mh, _, c) => inl (Some mh, c)
  | (Pushed g, i, c) => inr (g :: at_child f i :: below, c)
  | (Exhausted, _, c) => inr (below, backtrack f c)
  end.
Proof.
  intros <- Hd. cbn [match_step checked_terminal at_child negb andb f_node child_idx].
  destruct (Nat.leb_spec (CSILK_ROUTER_MAX_DEPTH - 1) (length below)); [lia|]. done.
Qed.

(** [try_children] reads only the segment and paths of the frame. *)
Lemma try_children_ext f g cs k c :
  f_seg f = f_seg g -> f_p f = f_p g -> f_path f = f_path g -> try_children method f cs k c = try_children method g cs k c.
Proof.
  intros E1 E2 E3. revert k c. induction cs as [|child cs IH]; intros k c; [done|]. cbn [try_children]. rewrite E1, E2, E3.
  destruct (first_byte_differs child (f_seg g)); [apply IH|]. destruct (ntype child).
  - destruct (f_seg g) as [seg|]; [|apply IH]. destruct (static_match child seg); [done|apply IH].
  - destruct (f_seg g); [done|apply IH].
  - destruct (capture_wildcard_param c (segment child) (f_path g)) as [added c1].
    destruct (find_method method (handlers child)); [done|apply IH].
Qed.

Lemma skip_child f i below c child cs k res :
  drop i (children (f_node f)) = child :: cs -> (length below < CSILK_ROUTER_MAX_DEPTH - 1)%nat -> forall c',
  try_children method (at_child f i) (child :: cs) i c = try_children method (at_child f i) cs (S i) c' ->
  resumes (at_child f (S i)) below c' res (S k) -> resumes (at_child f i) below c res (S k).
Proof.
  intros Hdrop Hd c' Htry Hres fuel. specialize (Hres fuel).
  assert (drop (S i) (children (f_node f)) = cs) as Hdrop' by (rewrite <- (skipn_skipn 1 i), Hdrop; done).
  change (S k + fuel)%nat with (S (k + fuel)) in *. rewrite turn in *.
  rewrite (step_at_child _ _ _ _ _ Hdrop Hd), Htry. rewrite (step_at_child _ _ _ _ _ Hdrop' Hd), (try_children_ext (at_child f (S i)) (at_child f i)) in Hres by done.
  done.
Qed.

(** The walk below one child, from any frame that enters it. *)
Definition simulates (child : csilk_router_node_t) : Prop :=
  forall path below c snapshot added, (length below < CSILK_ROUTER_MAX_DEPTH)%nat ->
  exists k, (S k <= 2 * node_count child)%nat /\
    resumes (new_frame child path snapshot added) below c (visit method child (length below) path c) k.

(** A frame pushed for [child]: its walk, then the rest of the children. *)
Lemma push_child f i below c child cs p snapshot added c1 (rest : mctx -> option csilk_method_handler_t * mctx) n :
  drop i (children (f_node f)) = child :: cs -> (length below < CSILK_ROUTER_MAX_DEPTH - 1)%nat -> simulates child ->
  try_children method (at_child f i) (child :: cs) i c = (Pushed (new_frame child p snapshot added), S i, c1) ->
  (forall c', exists k, (S k <= S n)%nat /\ resumes (at_child f (S i)) below c' (rest c') (S k)) ->
  exists k, (S k <= S (2 * node_count child + n))%nat /\
    resumes (at_child f i) below c
      (match visit method child (S (length below)) p c1 with
       | (Some mh, c') => (Some mh, c')
       | (None, c') => rest (if added then rollback_param c' snapshot else c')
       end) (S k).
Proof.
  intros Hdrop Hd Hsim Htry Hrest.
  destruct (Hsim p (at_child f (S i) :: below) c1 snapshot added) as (k1 & Hk1 & H1); [cbn [length]; lia|]. cbn [length] in H1.
  destruct (visit method child (S (length below)) p c1) as [[mh|] c'].
  - exists k1. split; [lia|]. intros fuel. change (S k1 + fuel)%nat with (S (k1 + fuel)). rewrite turn, (step_at_child _ _ _ _ _ Hdrop Hd), Htry.
    apply H1.
  - destruct (Hrest (if added then rollback_param c' snapshot else c')) as (k2 & Hk2 & H2).
    exists (k1 + S k2)%nat. split; [lia|]. intros fuel. change (S (k1 + S k2) + fuel)%nat with (S (k1 + S k2 + fuel)).
    rewrite turn, (step_at_child _ _ _ _ _ Hdrop Hd), Htry.
    replace (k1 + S k2 + fuel)%nat with (k1 + (S k2 + fuel))%nat by lia. rewrite H1, <- H2. f_equal.
    destruct (new_frame_fields child p snapshot added) as (_ & _ & _ & _ & E1 & E2 & _). unfold backtrack. by rewrite E1, E2.
Qed.

(** The fields a frame has for its path. *)
Definition frame_for (f : router_stack_frame_t) (path : bytes) : Prop :=
  f_path f = path /\
  match next_segment path with Some (seg, p) => f_seg f = Some seg /\ f_p f = p | None => f_seg f = None end.

Lemma try_child f path i child cs c :
  frame_for f path ->
  try_children method (at_child f i) (child :: cs) i c =
  match ntype child, next_segment path with
  | CSILK_NODE_STATIC, Some (seg, p) =>
      if decide (segment child = seg) then (Pushed (new_frame child p (params_count c) false), S i, c)
      else try_children method (at_child f i) cs (S i) c
  | CSILK_NODE_PARAM, Some (seg, p) =>
      let '(added, c1) := capture_param c (segment child) seg in
      (Pushed (new_frame child p (params_count c) added), S i, c1)
  | CSILK_NODE_WILDCARD, _ =>
      let '(added, c1) := capture_wildcard_param c (segment child) path in
      match find_method method (handlers child) with
      | Some mh => (Matched mh, S i, c1)
      | None => try_children method (at_child f i) cs (S i) (if added then rollback_param c1 (params_count c) else c1)
      end
  | _, None => try_children method (at_child f i) cs (S i) c
  end.
Proof.
  intros [Hpath Hseg]. cbn [try_children at_child f_seg f_p f_path]. rewrite Hpath.
  destruct (next_segment path) as [[seg p]|] eqn:Eseg.
  - destruct Hseg as [-> ->]. pose proof (next_segment_shrinks _ _ _ Eseg) as [_ Hne].
    destruct (first_byte_differs child (Some seg)) eqn:Efb.
    + destruct (static_skipped _ _ Efb) as [-> Hdiff]. by rewrite decide_False.
    + destruct (ntype child) eqn:Et; [|done|done]. rewrite (static_child child seg Hne Et Efb).
      by rewrite (bool_decide_decide (segment child = seg)); destruct (decide (segment child = seg)).
  - rewrite Hseg. cbn [first_byte_differs]. by destruct (ntype child).
Qed.

Lemma kids_simulate f below path cs :
  frame_for f path -> (length below < CSILK_ROUTER_MAX_DEPTH - 1)%nat -> Forall simulates cs ->
  forall i c, drop i (children (f_node f)) = cs ->
  exists k, (S k <= S (2 * list_sum (map node_count cs)))%nat /\
    resumes (at_child f i) below c
      (visit_kids (fun child p c => visit method child (S (length below)) p c) method path cs c) (S k).
Proof.
  intros Hf Hd Hall. induction Hall as [|child cs Hchild Hall IH]; intros i c Hdrop.
  { exists 0%nat. split; [lia|]. intros fuel. change (1 + fuel)%nat with (S fuel). by rewrite turn, (step_at_child _ _ _ _ _ Hdrop Hd). }
  assert (forall c', exists k, (S k <= S (2 * list_sum (map node_count cs)))%nat /\
            resumes (at_child f (S i)) below c' (visit_kids (fun child p c => visit method child (S (length below)) p c) method path cs c') (S k)) as Hrest.
  { intros c'. apply IH. rewrite <- (skipn_skipn 1 i), Hdrop. done. }
  replace (2 * list_sum (map node_count (child :: cs)))%nat
    with (2 * node_count child + 2 * list_sum (map node_count cs))%nat by (change (list_sum (map node_count (child :: cs))) with (node_count child + list_sum (map node_count cs))%nat; lia).
  pose proof (try_child f path i child cs c Hf) as Htry.
  assert (forall c', try_children method (at_child f i) (child :: cs) i c = try_children method (at_child f i) cs (S i) c' ->
            exists k, (S k <= S (2 * node_count child + 2 * list_sum (map node_count cs)))%nat /\
              resumes (at_child f i) below c (visit_kids (fun child p c => visit method child (S (length below)) p c) method path cs c') (S k)) as Hskip.
  { intros c' Hc'. destruct (Hrest c') as (k & Hk & H). exists k. split; [lia|]. by eapply skip_child. }
  cbn [visit_kids]. destruct (ntype child) eqn:Et, (next_segment path) as [[seg p]|] eqn:Eseg.
  - destruct (decide (segment child = seg)); [|by apply Hskip].
    exact (push_child f i below c child cs p (params_count c) false c _ _ Hdrop Hd Hchild Htry Hrest).
  - by apply Hskip.
  - destruct (capture_param c (segment child) seg) as [added c1].
    exact (push_child f i below c child cs p (params_count c) added c1 _ _ Hdrop Hd Hchild Htry Hrest).
  - by apply Hskip.
  - destruct (capture_wildcard_param c (segment child) path) as [added c1].
    destruct (find_method method (handlers child)) as [mh|]; [|by apply Hskip].
    exists 0%nat. split; [lia|]. intros fuel. change (1 + fuel)%nat with (S fuel). by rewrite turn, (step_at_child _ _ _ _ _ Hdrop Hd), Htry.
  - destruct (capture_wildcard_param c (segment child) path) as [added c1].
    destruct (find_method method (handlers child)) as [mh|]; [|by apply Hskip].
    exists 0%nat. split; [lia|]. intros fuel. change (1 + fuel)%nat with (S fuel). by rewrite turn, (step_at_child _ _ _ _ _ Hdrop Hd), Htry.
Qed.

(** The first turn at a node, when its own handlers do not answer, is a turn
    at its first child. *)
Lemma enter_node n path snapshot added below c :
  (if is_terminal path then find_method method (handlers n) else None) = None ->
  match_step method (new_frame n path snapshot added :: below) c =
  match_step method (at_child (new_frame n path snapshot added) 0 :: below) c.
Proof.
  intros Hno. destruct (new_frame_fields n path snapshot added) as (E1 & E2 & E3 & E4 & E5 & E6 & _).
  cbn [match_step checked_terminal at_child negb andb f_node child_idx]. rewrite E1, E2, E3, E4. cbn [negb andb]. rewrite Hno.
  destruct (CSILK_ROUTER_MAX_DEPTH - 1 <=? length below)%nat; [done|]. 
  by rewrite (try_children_ext (new_frame n path snapshot added) (at_child (new_frame n path snapshot added) 0)).
Qed.

Lemma node_simulates n : simulates n.
Proof.
  induction n as [n IH] using node_induction. intros path below c snapshot added Hd.
  pose proof (new_frame_fields n path snapshot added) as (E1 & E2 & E3 & E4 & E5 & E6 & E7).
  set (f := new_frame n path snapshot added) in *. rewrite visit_unfold.
  destruct (if is_terminal path then find_method method (handlers n) else None) as [mh|] eqn:Ehit.
  { exists 1%nat. split; [destruct n; cbn; lia|]. intros fuel. change (1 + fuel)%nat with (S fuel). rewrite turn.
    cbn [match_step]. rewrite E1, E2, E4. cbn [negb andb]. by rewrite Ehit. }
  destruct (Nat.leb_spec (CSILK_ROUTER_MAX_DEPTH - 1) (length below)) as [Hdeep|Hdeep].
  { exists 1%nat. split; [destruct n; cbn; lia|]. intros fuel. change (1 + fuel)%nat with (S fuel). rewrite turn.
    cbn [match_step]. rewrite E1, E2, E4. cbn [negb andb]. rewrite Ehit.
    destruct (Nat.leb_spec (CSILK_ROUTER_MAX_DEPTH - 1) (length below)); [done|lia]. }
  destruct (kids_simulate f below path (children n)) with (i := 0%nat) (c := c) as (k & Hk & H); [by split|done|done|by rewrite E1|].
  exists (S k). split; [assert (node_count n = S (list_sum (map node_count (children n)))) as -> by (by destruct n); lia|].
  intros fuel. rewrite <- H. change (S k + fuel)%nat with (S (k + fuel)). rewrite !turn. f_equal.
  unfold f. by rewrite enter_node.
Qed.
End simulation.

(** The machine started at a node, with the fuel it is given, computes the
    recursive walk. *)
Lemma match_node_visit n method path c : match_node n method path c = Some (visit method n 0 path c).
Proof.
  destruct (node_simulates method n path [] c (params_count c) false) as (k & Hk & H); [cbn; unfold CSILK_ROUTER_MAX_DEPTH; lia|].
  unfold match_node. replace (2 * node_count n)%nat with (k + S (2 * node_count n - S k))%nat by lia. rewrite H.
  cbn [length]. destruct (visit method n 0 path c) as [[mh|] c']; [done|]. cbn [match_loop match_step].
  unfold backtrack. by destruct (new_frame_fields n path (params_count c) false) as (_ & _ & _ & _ & -> & _).
Qed.

(** ** The recursion finds the first matching route *)

Definition bind_params (c : mctx) (b : list (bytes * bytes)) : mctx :=
  if has_ctx c then mk_mctx true (has_arena c) (take CSILK_MAX_PARAMS (params c ++ b)) (mem c) else c.

Definition same_kind (c c' : mctx) : Prop := has_ctx c' = has_ctx c /\ has_arena c' = has_arena c.

(** The outcome [res] of a search from [c] agrees with the reference answer
    [fm]: same route whatever the allocator answers, parameters restored when
    there is none, and exactly the bindings when no allocation fails. *)
Definition answers (c : mctx) (fm : option (csilk_method_handler_t * list (bytes * bytes)))
    (res : option csilk_method_handler_t * mctx) : Prop :=
  res.1 = fst <$> fm /\ same_kind c res.2 /\ (length (params res.2) <= CSILK_MAX_PARAMS)%nat /\
  (res.1 = None -> params res.2 = params c) /\
  (mem c = [] -> res.2 = match fm with Some (_, b) => bind_params c b | None => c end).

Lemma first_match_app method path es1 es2 :
  first_match method path (es1 ++ es2) =
  match first_match method path es1 with Some r => Some r | None => first_match method path es2 end.
Proof. induction es1 as [|e es1 IH]; cbn; [done|]. by destruct (entry_match method path e). Qed.

Lemma first_match_own method path d hs :
  (d < CSILK_ROUTER_MAX_DEPTH)%nat ->
  first_match method path (List.filter (reachable d) (map (fun m => ([], m)) hs)) =
  (fun m => (m, [])) <$> (if is_terminal path then find_method method hs else None).
Proof.
  intros Hd. induction hs as [|m hs IH]; [by destruct (is_terminal path)|]. cbn [map List.filter]. unfold reachable at 1. cbn [fst length].
  destruct (Nat.ltb_spec (d + 0) CSILK_ROUTER_MAX_DEPTH); [|lia]. cbn [first_match]. unfold entry_match. cbn [fst snd pmatch].
  unfold find_method. cbn [List.find]. rewrite IH. unfold find_method. destruct (has_method method m), (is_terminal path); done.
Qed.

(** Entries below a child: their answer under the child's key. *)
Lemma first_match_kid method path rest k d es (f : list (bytes * bytes) -> list (bytes * bytes)) :
  (forall p, pmatch (k :: p) path = f <$> pmatch p rest) ->
  first_match method path (List.filter (reachable d) (map (fun e : entry => (k :: e.1, e.2)) es)) =
  (fun r => (r.1, f r.2)) <$> first_match method rest (List.filter (reachable (S d)) es).
Proof.
  intros Hp. induction es as [|e es IH]; [done|]. cbn [map List.filter].
  assert (reachable d (k :: e.1, e.2) = reachable (S d) e) as -> by (unfold reachable; cbn [fst length]; f_equal; lia).
  destruct (reachable (S d) e); [|done]. cbn [first_match]. rewrite IH.
  unfold entry_match. cbn [fst snd]. rewrite Hp. destruct (has_method method e.2); [|done]. by destruct (pmatch e.1 rest).
Qed.

Lemma first_match_none method path k d es :
  (forall p, pmatch (k :: p) path = None) ->
  first_match method path (List.filter (reachable d) (map (fun e : entry => (k :: e.1, e.2)) es)) = None.
Proof.
  intros Hp. induction es as [|e es IH]; [done|]. cbn [map List.filter]. destruct (reachable d (k :: e.1, e.2)); [|done].
  cbn [first_match]. unfold entry_match. cbn [fst snd]. rewrite Hp. by destruct (has_method method e.2).
Qed.

Lemma capture_spec own c key val :
  let '(added, c1) := capture own c key val in
  same_kind c c1 /\ (length (params c) <= CSILK_MAX_PARAMS -> length (params c1) <= CSILK_MAX_PARAMS)%nat /\
  (if added then has_ctx c = true /\ params c1 = params c ++ [(key, val)] else params c1 = params c) /\
  (mem c = [] -> (length (params c) <= CSILK_MAX_PARAMS)%nat -> c1 = bind_params c [(key, val)] /\ mem c1 = []).
Proof.
  unfold capture, bind_params. destruct c as [hc ha ps o]. cbn [has_ctx has_arena params mem]. destruct hc; cbn [negb]; [|done].
  destruct (Nat.leb_spec CSILK_MAX_PARAMS (length ps)) as [Hfull|Hroom].
  { split_and!; try done. intros -> Hle. split; [|done]. f_equal. by rewrite take_app_le, take_ge by lia. }
  destruct (if own || negb ha then alloc o else (true, o)) as [k_ok o1] eqn:E1. destruct (alloc o1) as [v_ok o2] eqn:E2.
  assert (o = [] -> k_ok = true /\ v_ok = true /\ o2 = []) as Hnil.
  { intros ->. destruct (own || negb ha); cbn in E1; injection E1 as <- <-; cbn in E2; injection E2 as <- <-; done. }
  destruct k_ok, v_ok; cbn [andb]; unfold push_param, set_mem; cbn [has_ctx has_arena params mem].
  2, 3, 4: split_and!; try done; intros Ho; destruct (Hnil Ho) as (? & ? & ?); done.
  split_and!; try done; [rewrite length_app; cbn; lia|]. intros Ho Hle. destruct (Hnil Ho) as (_ & _ & ->). split; [|done].
  subst o. f_equal. rewrite take_ge; [done|]. rewrite length_app. cbn. lia.
Qed.

Lemma answers_none c : (length (params c) <= CSILK_MAX_PARAMS)%nat -> answers c None (None, c).
Proof. intros H. done. Qed.

(** A fruitless search, then another. *)
Lemma answers_seq c c1 fm2 res :
  answers c None (None, c1) -> answers c1 fm2 res -> answers c fm2 res.
Proof.
  intros (_ & [K1 K2] & _ & H1 & H2) (G1 & [K3 K4] & G2 & G3 & G4). cbn in *. split_and!; try done.
  - split; congruence.
  - intros E. rewrite (G3 E). by apply H1.
  - intros E. rewrite (H2 E) in G4. by apply G4.
Qed.

Lemma bind_params_cons c x b :
  (length (params c) <= CSILK_MAX_PARAMS)%nat -> bind_params (bind_params c [x]) b = bind_params c (x :: b).
Proof.
  intros H. unfold bind_params, CSILK_MAX_PARAMS in *. destruct c as [[] ha ps o]; cbn [has_ctx has_arena params mem] in *; [|done]. f_equal.
  destruct (decide (length ps = 20%nat)) as [E|E].
  - rewrite (take_app_le ps [x]), (take_ge ps) by lia. by rewrite !take_app_le by lia.
  - rewrite (take_ge (ps ++ [x])) by (rewrite length_app; cbn; lia). by rewrite <- app_assoc.
Qed.

Lemma rollback_kind c k : same_kind c (rollback_param c k) /\ mem (rollback_param c k) = mem c.
Proof. unfold rollback_param. by destruct c as [[] ha ps o]. Qed.

(** Below a capture: a found route keeps the parameter, otherwise it is
    rolled back. *)
Lemma answers_capture own c key val added c1 fm r c' :
  capture own c key val = (added, c1) -> (length (params c) <= CSILK_MAX_PARAMS)%nat -> answers c1 fm (r, c') ->
  match r with
  | Some _ => answers c ((fun x => (x.1, (key, val) :: x.2)) <$> fm) (r, c')
  | None => answers c None (None, if added then rollback_param c' (params_count c) else c')
  end.
Proof.
  intros Ec Hle (A1 & [K1 K2] & A2 & A3 & A4). pose proof (capture_spec own c key val) as Hs. rewrite Ec in Hs.
  destruct Hs as ([K3 K4] & Hlen & Hadd & Hmem). cbn [fst snd] in *. destruct r as [mh|].
  - destruct fm as [[mh' b]|]; [|done]. cbn in A1. injection A1 as ->. split_and!; cbn; try done; [split; congruence|].
    intros E. destruct (Hmem E Hle) as [E1 E2]. rewrite (A4 E2), E1. by apply bind_params_cons.
  - specialize (A3 eq_refl). destruct fm as [?|]; [done|].
    assert (params (if added then rollback_param c' (params_count c) else c') = params c) as Hp.
    { destruct added; [|congruence]. destruct Hadd as [Hc Hp1]. unfold rollback_param, params_count.
      rewrite K1, K3, Hc. cbn [params]. by rewrite A3, Hp1, take_app_length. }
    assert (same_kind c (if added then rollback_param c' (params_count c) else c')) as Hk.
    { destruct (rollback_kind c' (params_count c)) as ([R1 R2] & _). split; destruct added; congruence. }
    split_and!; cbn [fst snd]; try done; [by rewrite Hp|]. intros E. destruct (Hmem E Hle) as [E1 E2]. specialize (A4 E2).
    assert (mem (if added then rollback_param c' (params_count c) else c') = []) as Hm.
    { destruct (rollback_kind c' (params_count c)) as (_ & R). destruct added; congruence. }
    destruct Hk as [Hk1 Hk2], (if added then rollback_param c' (params_count c) else c') as [hc ha ps o], c as [hc' ha' ps' o'].
    cbn in *. congruence.
Qed.

Lemma answers_orelse c fm1 r1 c1 fm2 res2 :
  answers c fm1 (r1, c1) -> (r1 = None -> answers c1 fm2 res2) ->
  answers c (match fm1 with Some r => Some r | None => fm2 end) (match r1 with Some mh => (Some mh, c1) | None => res2 end).
Proof.
  intros H1 H2. pose proof H1 as (E & _). cbn in E. destruct r1 as [mh|], fm1 as [x|]; try done.
  eapply answers_seq; [exact H1|by apply H2].
Qed.

Lemma first_match_wildcard method path name d hs :
  (S d < CSILK_ROUTER_MAX_DEPTH)%nat ->
  first_match method path (List.filter (reachable d)
    (map (fun e : entry => ((CSILK_NODE_WILDCARD, name) :: e.1, e.2)) (map (fun m => ([], m)) hs))) =
  (fun m => (m, [(name, drop_slashes path)])) <$> find_method method hs.
Proof.
  intros Hd. induction hs as [|m hs IH]; [done|]. cbn [map List.filter fst snd].
  destruct (reachable d _) eqn:Er; [|apply Nat.ltb_ge in Er; cbn [fst length] in Er; lia].
  cbn [first_match]. unfold entry_match, find_method. cbn [fst snd pmatch List.find]. destruct (has_method method m); [done|].
  exact IH.
Qed.

Section answering.
Context (method : bytes).

Definition visit_answers (d : nat) (n : csilk_router_node_t) : Prop :=
  forall path c, (length (params c) <= CSILK_MAX_PARAMS)%nat ->
  answers c (first_match method path (List.filter (reachable d) (routes n))) (visit method n d path c).

(** The contribution of one child. *)
Definition visit_kid (d : nat) (path : bytes) (child : csilk_router_node_t) (c : mctx) : option csilk_method_handler_t * mctx :=
  visit_kids (fun child p c => visit method child (S d) p c) method path [child] c.

Lemma visit_kids_cons d path child cs c :
  visit_kids (fun child p c => visit method child (S d) p c) method path (child :: cs) c =
  match visit_kid d path child c with
  | (Some mh, c') => (Some mh, c')
  | (None, c') => visit_kids (fun child p c => visit method child (S d) p c) method path cs c'
  end.
Proof.
  unfold visit_kid. cbn [visit_kids]. destruct (ntype child), (next_segment path) as [[seg p]|]; try done.
  - case_decide; [|done]. by destruct (visit method child (S d) p c) as [[]].
  - destruct (capture_param c (segment child) seg) as [added c1]. by destruct (visit method child (S d) p c1) as [[]].
  - destruct (capture_wildcard_param c (segment child) path) as [added c1]. by destruct (find_method method (handlers child)).
  - destruct (capture_wildcard_param c (segment child) path) as [added c1]. by destruct (find_method method (handlers child)).
Qed.

Lemma wildcard_answers d path child c w :
  wf w child -> ntype child = CSILK_NODE_WILDCARD -> (S d < CSILK_ROUTER_MAX_DEPTH)%nat -> (length (params c) <= CSILK_MAX_PARAMS)%nat ->
  answers c (first_match method path (List.filter (reachable d) (kid_routes child)))
    (let '(added, c1) := capture_wildcard_param c (segment child) path in
     match find_method method (handlers child) with
     | Some mh => (Some mh, c1)
     | None => (None, if added then rollback_param c1 (params_count c) else c1)
     end).
Proof.
  intros [(_ & Hleaf & _) _]%wf_unfold Ht Hd Hle. unfold kid_routes, node_key. rewrite routes_unfold, (Hleaf Ht), Ht. cbn [flat_map].
  rewrite app_nil_r, first_match_wildcard by done. unfold capture_wildcard_param.
  destruct (capture true c (segment child) (drop_slashes path)) as [added c1] eqn:Ec.
  pose proof (capture_spec true c (segment child) (drop_slashes path)) as Hs. rewrite Ec in Hs. destruct Hs as (_ & Hl & _).
  destruct (find_method method (handlers child)) as [mh|].
  - apply (answers_capture true c (segment child) (drop_slashes path) added c1 (Some (mh, [])) (Some mh) c1); [done|done|].
    split_and!; cbn; try done; [by apply Hl|]. intros E. unfold bind_params. destruct c1 as [[] ha ps o]; cbn; [|done].
    by rewrite app_nil_r, take_ge by by apply Hl.
  - apply (answers_capture true c (segment child) (drop_slashes path) added c1 None None c1); [done|done|].
    apply answers_none. by apply Hl.
Qed.

Lemma kid_answers d path child c w :
  wf w child -> visit_answers (S d) child -> (S d < CSILK_ROUTER_MAX_DEPTH)%nat -> (length (params c) <= CSILK_MAX_PARAMS)%nat ->
  answers c (first_match method path (List.filter (reachable d) (kid_routes child))) (visit_kid d path child c).
Proof.
  intros Hwf Hv Hd Hle. unfold visit_kid. cbn [visit_kids].
  assert (forall fm, fm = None -> answers c fm (None, c)) as Hskip by (intros fm ->; by apply answers_none).
  destruct (ntype child) eqn:Et.
  - unfold kid_routes, node_key. rewrite Et. destruct (next_segment path) as [[seg p]|] eqn:Eseg.
    2: { apply Hskip. apply first_match_none. intros q. cbn [pmatch]. by rewrite Eseg. }
    case_decide as Hn.
    2: { apply Hskip. apply first_match_none. intros q. cbn [pmatch]. rewrite Eseg. cbn. by rewrite decide_False. }
    rewrite (first_match_kid method path p _ d _ id).
    2: { intros q. cbn [pmatch]. rewrite Eseg. cbn. rewrite decide_True by done. by destruct (pmatch q p). }
    specialize (Hv p c Hle). destruct (first_match method p _) as [[m b]|]; cbn; destruct (visit method child (S d) p c) as [[] ?]; done.
  - unfold kid_routes, node_key. rewrite Et. destruct (next_segment path) as [[seg p]|] eqn:Eseg.
    2: { apply Hskip. apply first_match_none. intros q. cbn [pmatch]. by rewrite Eseg. }
    rewrite (first_match_kid method path p _ d _ (cons (segment child, seg))).
    2: { intros q. cbn [pmatch]. rewrite Eseg. cbn. by destruct (pmatch q p). }
    destruct (capture_param c (segment child) seg) as [added c1] eqn:Ec.
    pose proof (capture_spec false c (segment child) seg) as Hs. unfold capture_param in Ec. rewrite Ec in Hs.
    destruct Hs as (_ & Hl & _). specialize (Hv p c1 (Hl Hle)).
    destruct (visit method child (S d) p c1) as [r c'].
    pose proof (answers_capture false c (segment child) seg added c1 _ r c' Ec Hle Hv) as Ha.
    destruct r; [done|]. destruct Hv as (E & _). cbn in E. destruct (first_match method p _); done.
  - pose proof (wildcard_answers d path child c w Hwf Et Hd Hle) as Hw.
    destruct (capture_wildcard_param c (segment child) path) as [added c1].
    by destruct (next_segment path) as [[seg p]|], (find_method method (handlers child)).
Qed.

Lemma kids_answer d path w cs :
  Forall (wf w) cs -> Forall (visit_answers (S d)) cs -> (S d < CSILK_ROUTER_MAX_DEPTH)%nat -> forall c,
  (length (params c) <= CSILK_MAX_PARAMS)%nat ->
  answers c (first_match method path (List.filter (reachable d) (flat_map kid_routes cs)))
    (visit_kids (fun child p c => visit method child (S d) p c) method path cs c).
Proof.
  intros Hwf Hv Hd. induction cs as [|child cs IH]; intros c Hle; [by apply answers_none|].
  apply Forall_cons in Hwf as [Hw Hwf], Hv as [Hv1 Hv]. specialize (IH Hwf Hv).
  rewrite visit_kids_cons. cbn [flat_map]. rewrite List.filter_app, first_match_app.
  pose proof (kid_answers d path child c w Hw Hv1 Hd Hle) as H. destruct (visit_kid d path child c) as [r c'] eqn:E.
  apply (answers_orelse _ _ r c'); [done|]. intros _. apply IH. by destruct H as (_ & _ & ? & _).
Qed.

Lemma node_answers n d w : wf w n -> (d < CSILK_ROUTER_MAX_DEPTH)%nat -> visit_answers d n.
Proof.
  revert d. induction n as [n IH] using node_induction. intros d Hwf Hd path c Hle. pose proof Hwf as [_ Hall]%wf_unfold.
  rewrite visit_unfold, routes_unfold, List.filter_app, first_match_app, first_match_own by done.
  destruct (if is_terminal path then find_method method (handlers n) else None) as [mh|]; cbn [fmap option_fmap option_map].
  - split_and!; cbn; try done. intros _. unfold bind_params. destruct c as [[] ha ps o]; cbn; [|done]. by rewrite app_nil_r, take_ge.
  - destruct (Nat.leb_spec (CSILK_ROUTER_MAX_DEPTH - 1) d) as [Hdeep|Hdeep].
    + match goal with |- answers _ (first_match _ _ ?l) _ => assert (l = []) as -> end; [|by apply answers_none].
      clear - Hdeep. induction (children n) as [|k cs IHc]; [done|]. cbn [flat_map]. rewrite List.filter_app, IHc, app_nil_r.
      unfold kid_routes. induction (routes k) as [|e es IHe]; [done|]. cbn [map List.filter].
      assert (reachable d (node_key k :: e.1, e.2) = false) as -> by (apply Nat.ltb_ge; cbn [fst length]; lia). done.
    + apply (kids_answer d path w); [done| |lia|done]. rewrite Forall_lookup in *. intros i k Hk. apply (IH i k Hk); [by eapply Hall|lia].
Qed.
End answering.

(** C17: the matching machine. On any well-formed trie the stack machine of
    [match_node] stops within its bound and selects the first route of the
    depth-first order whose pattern (of fewer than 64 segments) matches the
    path and whose method is the request's (the strings are equal; "*" is not
    treated as any method, whatever router.h says). Failing allocations and the limit
    of twenty parameters never change the route selected; without a match
    every captured parameter has been rolled back; with memory available the
    parameters are exactly the bindings, cut at twenty. *)
Theorem match_node_selects (w : nat) (n : csilk_router_node_t) (method path : bytes) (c : mctx)
  (Hwf : wf w n) (Hc : (length (params c) <= CSILK_MAX_PARAMS)%nat) :
  exists res c', match_node n method path c = Some (res, c') /\
    let fm := first_match method path (List.filter (reachable 0) (routes n)) in
    res = option_map fst fm /\ (res = None -> params c' = params c) /\
    (mem c = [] -> has_ctx c = true -> forall m b, fm = Some (m, b) -> params c' = take CSILK_MAX_PARAMS (params c ++ b)).
Proof.
  rewrite match_node_visit.
  pose proof (node_answers method n 0 w Hwf ltac:(unfold CSILK_ROUTER_MAX_DEPTH; lia) path c Hc) as (H1 & _ & _ & H2 & H3).
  destruct (visit method n 0 path c) as [res c']. exists res, c'. split; [done|]. cbn zeta. split_and!; [exact H1|exact H2|].
  intros Hm Hx m b E. cbn [fst snd] in H3. rewrite (H3 Hm), E. unfold bind_params. by rewrite Hx.
Qed.

Definition demo_trie : csilk_router_node_t :=
  let leaf seg type h := Node seg type [mk_mh (lit "GET") [h] [h] [] None None None None None None] [] 8 (replicate 256 (-1)) in
  Node [] CSILK_NODE_STATIC [] [leaf (lit "a") CSILK_NODE_STATIC 1; leaf (lit "p") CSILK_NODE_PARAM 2] 8 (replicate 256 (-1)).

Lemma demo_trie_wf : wf 2 demo_trie.
Proof.
  cbn. unfold local_wf. cbn. split_and!; try done; try (by exists 3); try lia; repeat constructor.
Qed.

Lemma match_node_selects_witness :
  exists res c', match_node demo_trie (lit "GET") (lit "/b") (mk_mctx true true [] []) = Some (res, c') /\
    params c' = [(lit "p", lit "b")].
Proof.
  destruct (match_node_selects 2 demo_trie (lit "GET") (lit "/b") (mk_mctx true true [] []) demo_trie_wf ltac:(cbn; lia))
    as (res & c' & H1 & _ & _ & H). exists res, c'. split; [done|]. by apply (H eq_refl eq_refl _ _ eq_refl).
Defined.
