(* ===== verification/Routing.v ===== *)
(** * The router as a whole

    The abstract view of the router of Router and RouterMatch: a table of
    routes.  Registration adds one entry unless its pattern already has the
    method, compiling prepends the global middlewares to every chain, and
    matching selects the least matching entry, static segments before
    parameters before wildcards. *)

From stdpp Require Import sorting.
From S2P Require Import Prelude Simd Router RouterMatch.

#[local] Open Scope Z_scope.

(** ** The abstract table *)

Definition same_route (pat : pattern) (method : bytes) (e : entry) : bool :=
  bool_decide (e.1 = pat) && has_method method e.2.

Definition table_add (g : list handler) (a : route_args) (t : list entry) : list entry :=
  if existsb (same_route (pattern_of (a_path a)) (a_method a)) t then t
  else (pattern_of (a_path a), new_mh g a) :: t.

Definition table_compile (g : list handler) (t : list entry) : list entry :=
  map (fun e : entry => (e.1, compile_mh g e.2)) t.

(** The router [r], with at most [w] children per node, holds the table [t],
    and every chain is the global middlewares followed by the route's own. *)
Definition router_ok (w : nat) (t : list entry) (r : csilk_router_t) : Prop :=
  wf w (root r) /\ ntype (root r) = CSILK_NODE_STATIC /\ routes (root r) ≡ₚ t /\
  Forall (fun e : entry => mh_handlers e.2 = globals r ++ raw_handlers e.2) t /\
  length (global_middlewares r) = 32%nat /\ (global_middleware_count r <= 32)%nat.

(** Order of patterns: by segment kind, then by name. *)
Fixpoint lex_le (p q : pattern) : Prop :=
  match p, q with
  | [], _ => True
  | _ :: _, [] => False
  | a :: p', b :: q' => key_lt a b \/ a = b /\ lex_le p' q'
  end.

(** ** Registration *)

Lemma existsb_Permutation {A} (f : A -> bool) l l' : l ≡ₚ l' -> existsb f l = existsb f l'.
Proof.
  intros Hp. apply Bool.eq_iff_eq_true. rewrite !existsb_exists. setoid_rewrite <- list_elem_of_In. by setoid_rewrite Hp.
Qed.

Lemma added_table g a r rs rs' t :
  added (pattern_of (a_path a)) (new_mh g a) r rs rs' -> rs ≡ₚ t ->
  (r = -1 /\ rs' ≡ₚ t) \/ (r = 0 /\ rs' ≡ₚ table_add g a t).
Proof.
  intros Ha Hp. unfold table_add. rewrite <- (existsb_Permutation _ _ _ Hp).
  destruct Ha as [[-> ->]|[(-> & (m & Hm & Em) & ->)|(-> & Hno & l1 & l2 & -> & ->)]]; [by left|right|right].
  - split; [done|]. assert (existsb (same_route (pattern_of (a_path a)) (a_method a)) rs = true) as ->; [|done].
    apply existsb_exists. exists (pattern_of (a_path a), m). rewrite <- list_elem_of_In. split; [done|].
    unfold same_route, has_method. by rewrite !bool_decide_true.
  - split; [done|]. destruct (existsb _ _) eqn:E; [|by rewrite <- Hp, Permutation_middle].
    apply existsb_exists in E as ([p m] & Hm & E). apply andb_prop in E as [E1 E2]. apply bool_decide_eq_true in E1, E2.
    cbn in E1. subst p. rewrite <- list_elem_of_In in Hm. by destruct (Hno m Hm).
Qed.

Lemma router_add_spec w t r a o :
  router_ok w t r -> Z.of_nat w < 32768 ->
  exists ret r' o', router_add_full r a o = Some (ret, r', o') /\ (o = [] -> ret = 0 /\ o' = []) /\ globals r' = globals r /\
    ((ret = -1 /\ router_ok (S w) t r') \/ (ret = 0 /\ router_ok (S w) (table_add (globals r) a t) r')).
Proof.
  intros (Hwf & Ht & Hp & Hc & Hl & Hn) Hw. unfold router_add_full.
  destruct (add_walk_ok (globals r) a (S (length (a_path a))) (a_path a) (root r) o w Hwf Hw) as (ret & n' & o' & -> & Ho & Hwf' & Hk & Ha).
  { by rewrite Ht. } { lia. }
  cbn [mbind option_bind]. eexists _, _, _. split; [done|]. split; [intros E; by destruct (Ho E)|]. split; [done|].
  assert (ntype n' = CSILK_NODE_STATIC) as Ht'. { unfold node_key in Hk. congruence. }
  destruct (added_table _ _ _ _ _ t Ha Hp) as [[-> Hp']|[-> Hp']]; [left|right]; (split; [done|]); split_and!; try done.
  unfold table_add. destruct (existsb _ t); [done|]. by constructor.
Qed.

(** ** Compiling *)

Lemma compile_chain_nil g ms : compile_chain g ms [] = (map (compile_mh g) ms, []).
Proof. induction ms as [|m ms IH]; cbn; [done|]. by rewrite IH. Qed.

Lemma node_compile_spec g w n :
  exists n', node_compile_handlers g n [] = (n', []) /\ node_key n' = node_key n /\
    routes n' = table_compile g (routes n) /\ (wf w n -> wf w n').
Proof.
  induction n as [n IH] using node_induction. destruct n as [seg type hs cs cap sf]. cbn [children] in IH.
  cbn [node_compile_handlers]. rewrite compile_chain_nil.
  set (go := fix go (cs : list csilk_router_node_t) (o : oracle) : list csilk_router_node_t * oracle := _).
  assert (exists cs', go cs [] = (cs', []) /\ map node_key cs' = map node_key cs /\
            flat_map kid_routes cs' = table_compile g (flat_map kid_routes cs) /\ (Forall (wf w) cs -> Forall (wf w) cs')) as (cs' & -> & Hkeys & Hr & Hw).
  { induction IH as [|c cs (c' & Ec & Hk & Hr & Hw) _ (cs' & Ecs & Hks & Hrs & Hws)]; [by exists []|].
    cbn [go]. rewrite Ec, Ecs. exists (c' :: cs'). split; [done|]. cbn [map flat_map]. split_and!.
    - by rewrite Hk, Hks.
    - unfold table_compile in *. rewrite map_app, Hrs. f_equal. unfold kid_routes. rewrite Hr, Hk, !map_map. done.
    - intros [H1 H2]%Forall_cons. constructor; auto. }
  eexists. split; [done|]. split_and!; [done|..].
  - rewrite !routes_unfold. cbn [handlers children]. unfold table_compile in *. rewrite map_app, Hr, !map_map. done.
  - rewrite !wf_unfold. unfold local_wf. cbn [children ntype children_cap].
    assert (length cs' = length cs) as El by (by rewrite <- (length_map node_key), Hkeys, length_map).
    intros [(H1 & H2 & H3 & H4 & H5) Hall]. split; [|by apply Hw]. split_and!; try (by rewrite ?El).
    + apply sorted_keys. rewrite Hkeys. by apply sorted_keys.
    + intros E. specialize (H2 E). destruct cs, cs'; done.
Qed.

Lemma router_compile_spec w t r mws :
  router_ok w t r -> (length mws <= 32)%nat ->
  exists r', csilk_router_compile r (Some mws) (length mws) [] = Some (r', []) /\
    globals r' = mws /\ router_ok w (table_compile mws t) r'.
Proof.
  intros (Hwf & Ht & Hp & Hc & Hl & Hn) Hm. unfold csilk_router_compile.
  destruct (Nat.ltb_spec 32 (length mws)); [lia|]. rewrite (proj2 (Nat.ltb_ge _ _)) by lia. cbn [mbind option_bind].
  rewrite firstn_all, take_app_length.
  destruct (node_compile_spec mws w (root r)) as (n' & -> & Hk & Hr & Hw). eexists. split; [done|].
  assert (globals (mk_router n' (mws ++ drop (length mws) (global_middlewares r)) (length mws)) = mws) as Hg
    by (unfold globals; cbn; by rewrite take_app_length).
  split; [done|]. split_and!; cbn [root global_middlewares global_middleware_count]; auto.
  - unfold node_key in Hk. congruence.
  - rewrite Hr. unfold table_compile. by apply Permutation_map.
  - rewrite Hg. apply Forall_map. by apply Forall_true.
  - rewrite length_app, length_drop. lia.
Qed.

(** ** Order of the routes *)

Lemma lex_le_refl p : lex_le p p.
Proof. induction p; cbn; auto. Qed.

Lemma sorted_app {A} (R : A -> A -> Prop) l1 l2 :
  StronglySorted R l1 -> StronglySorted R l2 -> (forall x y, x ∈ l1 -> y ∈ l2 -> R x y) -> StronglySorted R (l1 ++ l2).
Proof.
  induction 1 as [|x l1 H1 IH Hx]; intros H2 Hxy; [done|]. cbn. constructor.
  - apply IH; [done|]. intros a b Ha Hb. apply Hxy; [by right|done].
  - apply Forall_app. split; [done|]. apply Forall_forall. intros y Hy. apply Hxy; [by left|done].
Qed.

Definition entry_le (e e' : entry) : Prop := lex_le e.1 e'.1.

(** The routes of a trie come in the order of their patterns. *)
Lemma routes_sorted w n : wf w n -> StronglySorted entry_le (routes n).
Proof.
  induction n as [n IH] using node_induction. intros [(Hs & _) Hall]%wf_unfold. rewrite routes_unfold. apply sorted_app.
  - induction (handlers n) as [|m ms IHm]; cbn; constructor; [done|]. by apply Forall_true.
  - clear - IH Hs Hall. induction Hs as [|c cs Hs IHs Hc]; cbn [flat_map]; [constructor|].
    apply Forall_cons in IH as [IHc IH], Hall as [Hw Hall]. apply sorted_app; [|by apply IHs|].
    + specialize (IHc Hw). unfold kid_routes. clear - IHc. induction IHc as [|e es _ IHe He]; cbn [map]; constructor; [done|].
      apply Forall_map. eapply Forall_impl; [exact He|]. intros e' H. right. by split.
    + intros x y (p & m & -> & _)%elem_of_kid_routes (c' & Hc' & (q & m' & -> & _)%elem_of_kid_routes)%elem_of_flat_kids.
      left. rewrite Forall_forall in Hc. by apply Hc.
  - intros x y (m & -> & _)%list_elem_of_fmap _. done.
Qed.

(** ** Selecting a route *)

Lemma first_match_none_iff method path es :
  first_match method path es = None <-> forall e, e ∈ es -> entry_match method path e = None.
Proof.
  induction es as [|e es IH]; cbn [first_match]; [split; [by intros _ e []%not_elem_of_nil|done]|].
  destruct (entry_match method path e) eqn:E.
  - split; [done|]. intros H. by rewrite (H e ltac:(by left)) in E.
  - rewrite IH. split; [intros H e' [->|]%elem_of_cons; auto|intros H e' He'; apply H; by right].
Qed.

Lemma first_match_least method path es m b :
  StronglySorted entry_le es -> first_match method path es = Some (m, b) ->
  exists pat, (pat, m) ∈ es /\ mh_method m = method /\ pmatch pat path = Some b /\
    forall e, e ∈ es -> entry_match method path e <> None -> lex_le pat e.1.
Proof.
  induction 1 as [|e es Hs IH He]; cbn [first_match]; [done|]. destruct (entry_match method path e) as [r|] eqn:E.
  - intros [= ->]. unfold entry_match in E. destruct (has_method method e.2) eqn:Em; [|done].
    destruct (pmatch e.1 path) as [b'|] eqn:Eb; [|done]. cbn in E. injection E as <- <-. exists e.1. split_and!.
    + destruct e. by left.
    + by apply bool_decide_eq_true in Em.
    + done.
    + intros e' [->|He']%elem_of_cons _; [apply lex_le_refl|]. rewrite Forall_forall in He. by apply He.
  - intros H. destruct (IH H) as (pat & H1 & H2 & H3 & H4). exists pat. split_and!; [by right|done|done|].
    intros e' [->|He']%elem_of_cons Hm; [done|]. by apply H4.
Qed.

Lemma filter_all {A} (f : A -> bool) l : (forall x, x ∈ l -> f x = true) -> List.filter f l = l.
Proof.
  induction l as [|x l IH]; intros H; cbn; [done|]. rewrite (H x) by (by left). f_equal. apply IH. intros y Hy. apply H. by right.
Qed.

(** The walk over a router that holds [t], all of whose patterns have fewer
    than 64 segments. *)
Lemma match_router w t r method path c :
  router_ok w t r -> Forall (fun e => reachable 0 e = true) t -> (length (params c) <= CSILK_MAX_PARAMS)%nat ->
  exists res c', match_node (root r) method path c = Some (res, c') /\
    answers c (first_match method path (routes (root r))) (res, c').
Proof.
  intros (Hwf & _ & Hp & _) Hreach Hle. rewrite match_node_visit.
  pose proof (node_answers method (root r) 0 w Hwf ltac:(unfold CSILK_ROUTER_MAX_DEPTH; lia) path c Hle) as Ha.
  rewrite filter_all in Ha by (intros e He; rewrite Forall_forall in Hreach; apply Hreach; by rewrite <- Hp).
  destruct (visit method (root r) 0 path c) as [res c']. by exists res, c'.
Qed.

(** What a request context must look like after routing against the table
    [t]: the least matching route with its chain, the captured parameters (at
    most twenty) and a fresh handler index; or nothing but emptied parameters. *)
Definition dispatched (t : list entry) (method path : bytes) (x : route_ctx) (ret : Z) (x' : route_ctx) : Prop :=
  (ret = 1 /\ exists pat m b, (pat, m) ∈ t /\ mh_method m = method /\ pmatch pat path = Some b /\
     (forall pat' m', (pat', m') ∈ t -> mh_method m' = method -> pmatch pat' path <> None -> lex_le pat pat') /\
     x' = mk_route_ctx (mk_mctx true (has_arena (rc x)) (take CSILK_MAX_PARAMS b) []) (mh_handlers m)
            (length (mh_handlers m)) (-1) (Some m)) \/
  (ret = 0 /\ (forall pat m, (pat, m) ∈ t -> mh_method m = method -> pmatch pat path = None) /\
     x' = mk_route_ctx (mk_mctx true (has_arena (rc x)) [] []) (rc_handlers x) (rc_handler_count x)
            (rc_handler_index x) (rc_current x)).

Lemma entry_match_iff method path e :
  entry_match method path e <> None <-> mh_method e.2 = method /\ pmatch e.1 path <> None.
Proof.
  unfold entry_match, has_method. case_bool_decide; [|by split; [|intros [? _]]]. by destruct (pmatch e.1 path); split; [..|intros [_ ?]].
Qed.

Lemma match_ctx_spec w t r method path x :
  router_ok w t r -> Forall (fun e => reachable 0 e = true) t -> mem (rc x) = [] ->
  exists ret x', csilk_router_match_ctx r method path x = Some (ret, x') /\ dispatched t method path x ret x'.
Proof.
  intros Hok Hreach Hm. unfold csilk_router_match_ctx. rewrite Hm.
  destruct (match_router w t r method path (mk_mctx true (has_arena (rc x)) [] []) Hok Hreach) as (res & c' & -> & Ha); [cbn; lia|].
  cbn [mbind option_bind]. destruct Hok as (Hwf & _ & Hp & _). destruct Ha as (E & _ & _ & _ & Hmem). cbn [fst snd mem] in *.
  specialize (Hmem eq_refl). destruct (first_match method path (routes (root r))) as [[m b]|] eqn:Ef; cbn in E; subst res c'.
  - eexists _, _. split; [done|]. left. split; [done|].
    destruct (first_match_least _ _ _ _ _ (routes_sorted w _ Hwf) Ef) as (pat & H1 & H2 & H3 & H4).
    exists pat, m, b. split_and!; try done; [by rewrite <- Hp|]. intros pat' m' Ht' Hm' Hpm.
    apply (H4 (pat', m')); [by rewrite Hp|]. by apply entry_match_iff.
  - eexists _, _. split; [done|]. right. split; [done|]. split; [|done]. intros pat m Ht Hmeth.
    rewrite first_match_none_iff in Ef. specialize (Ef (pat, m) ltac:(by rewrite Hp)).
    destruct (pmatch pat path) eqn:Eb; [|done]. exfalso. revert Ef. apply entry_match_iff. cbn. by rewrite Eb.
Qed.

(** Without a context the same route answers. *)
Lemma match_plain_spec w t r method path :
  router_ok w t r -> Forall (fun e => reachable 0 e = true) t ->
  csilk_router_match r method path =
    Some (option_map (fun x => mh_handlers x.1) (first_match method path (routes (root r)))).
Proof.
  intros Hok Hreach. unfold csilk_router_match.
  destruct (match_router w t r method path (mk_mctx false false [] []) Hok Hreach) as (res & c' & -> & E & _); [cbn; lia|].
  cbn in E. subst res. by destruct (first_match method path (routes (root r))).
Qed.

(** ** Scripts *)

Inductive rop := RAdd (a : route_args) | RCompile (mws : list handler).

Definition run_rop (op : rop) (r : csilk_router_t) : option csilk_router_t :=
  match op with
  | RAdd a => '(ret, r', _) ← router_add_full r a []; if ret =? 0 then Some r' else None
  | RCompile mws => '(r', _) ← csilk_router_compile r (Some mws) (length mws) []; Some r'
  end.

Fixpoint run_rops (ops : list rop) (r : csilk_router_t) : option csilk_router_t :=
  match ops with
  | [] => Some r
  | op :: ops' => r' ← run_rop op r; run_rops ops' r'
  end.

(** The same script on the cached middlewares and the table. *)
Fixpoint table_of (ops : list rop) (g : list handler) (t : list entry) : list entry :=
  match ops with
  | [] => t
  | RAdd a :: ops' => table_of ops' g (table_add g a t)
  | RCompile mws :: ops' => table_of ops' mws (table_compile mws t)
  end.

Definition rop_ok (op : rop) : Prop :=
  match op with
  | RAdd a => (length (pattern_of (a_path a)) < CSILK_ROUTER_MAX_DEPTH)%nat
  | RCompile mws => (length mws <= 32)%nat
  end.

Lemma table_add_reach g a t :
  (length (pattern_of (a_path a)) < CSILK_ROUTER_MAX_DEPTH)%nat ->
  Forall (fun e => reachable 0 e = true) t -> Forall (fun e => reachable 0 e = true) (table_add g a t).
Proof.
  intros Ha Ht. unfold table_add. destruct (existsb _ t); [done|]. constructor; [|done]. by apply Nat.ltb_lt.
Qed.

Lemma run_rops_spec ops w t r :
  router_ok w t r -> Forall rop_ok ops -> Forall (fun e => reachable 0 e = true) t -> Z.of_nat (w + length ops) < 32768 ->
  exists w' r', run_rops ops r = Some r' /\ router_ok w' (table_of ops (globals r) t) r' /\
    Forall (fun e => reachable 0 e = true) (table_of ops (globals r) t).
Proof.
  revert w t r. induction ops as [|op ops IH]; intros w t r Hok Hops Hreach Hw; cbn [run_rops table_of length] in *; [by exists w, r|].
  apply Forall_cons in Hops as [Hop Hops]. destruct op as [a|mws]; cbn [run_rop rop_ok] in *.
  - destruct (router_add_spec w t r a [] Hok ltac:(lia)) as (ret & r' & o' & -> & Ho & Hg & Hr). destruct (Ho eq_refl) as [-> _].
    destruct Hr as [[? _]|[_ Hok']]; [done|]. cbn. rewrite <- Hg in *. apply (IH (S w)); auto using table_add_reach. lia.
  - destruct (router_compile_spec w t r mws Hok Hop) as (r' & -> & Hg & Hok'). cbn. rewrite <- Hg in *. apply (IH w); auto; [|lia].
    apply Forall_map. eapply Forall_impl; [exact Hreach|]. done.
Qed.

Definition empty_router : csilk_router_t := mk_router (node_new [] CSILK_NODE_STATIC) (replicate 32 0) 0.

Lemma empty_router_ok : csilk_router_new [] = (Some empty_router, []) /\ router_ok 0 [] empty_router.
Proof. split; [done|]. split_and!; [apply node_new_wf|done|done|by apply Forall_nil|done|cbn; lia]. Qed.


Definition demo_ops : list rop :=
  let add m p h := RAdd (mk_args (lit m) (lit p) [h] (Some (lit p)) None None None None None None) in
  [add "GET" "/users/:id" 10; add "GET" "/users/me" 11; RCompile [1; 2]; add "GET" "/files/*path" 12; add "POST" "/users/me" 13].

Definition demo_request : route_ctx := mk_route_ctx (mk_mctx true true [] []) [] 0 0 None.

Lemma demo_ops_ok : Forall rop_ok demo_ops.
Proof. repeat (constructor; [apply Nat.ltb_lt; vm_compute; reflexivity || (apply Nat.leb_le; reflexivity)|]). constructor. Qed.


(** The static route wins over the parameter and carries the middlewares. *)
Example demo_dispatch :
  (r ← run_rops demo_ops empty_router; csilk_router_match_ctx r (lit "GET") (lit "/users/me") demo_request)
    ≫= (fun p => Some (rc_handlers p.2)) = Some [1; 2; 11] /\
  (r ← run_rops demo_ops empty_router; csilk_router_match_ctx r (lit "GET") (lit "/users/7/") demo_request)
    ≫= (fun p => Some (params (rc p.2))) = Some [(lit "id", lit "7")].
Proof. by vm_compute. Qed.

(** C18: one registration, whatever the allocator answers. On a router that
    holds a table, [router_add_full] never leaves its arrays; it returns 0
    with the table extended by the route (first registration of a method and
    pattern wins) or -1 with the same table, and with memory available it
    does not fail. Sorted children and the chain invariant are kept. *)
Theorem router_add_correct (w : nat) (t : list entry) (r : csilk_router_t) (a : route_args) (o : oracle)
  (Hok : router_ok w t r) (Hw : Z.of_nat w < 32768) :
  exists ret r' o', router_add_full r a o = Some (ret, r', o') /\ (o = [] -> ret = 0) /\
    ((ret = -1 /\ router_ok (S w) t r') \/ (ret = 0 /\ router_ok (S w) (table_add (globals r) a t) r')).
Proof.
  destruct (router_add_spec w t r a o Hok Hw) as (ret & r' & o' & H1 & H2 & _ & H3).
  exists ret, r', o'. split_and!; [done| |done]. intros E. by destruct (H2 E).
Qed.

Lemma router_add_correct_witness :
  exists ret r' o',
    router_add_full empty_router (mk_args (lit "GET") (lit "/a/:b") [7] None None None None None None None) [true; true; true; true; false]
      = Some (ret, r', o') /\ router_ok 1 [] r' /\ ret = -1.
Proof.
  destruct (router_add_correct 0 [] empty_router (mk_args (lit "GET") (lit "/a/:b") [7] None None None None None None None)
              [true; true; true; true; false] (proj2 empty_router_ok) ltac:(by vm_compute)) as (ret & r' & o' & E & _ & H).
  exists ret, r', o'. split; [done|]. destruct H as [[-> H]|[-> _]]; [done|]. by vm_compute in E.
Defined.

(** ** Observations *)

(** A route for "*", documented as any method, does not serve a GET. *)
Example any_method_is_literal :
  let ops := [RAdd (mk_args (lit "*") (lit "/a") [7] None None None None None None None)] in
  (r ← run_rops ops empty_router; csilk_router_match_ctx r (lit "GET") (lit "/a") demo_request) ≫= (fun p => Some p.1) = Some 0 /\
  (r ← run_rops ops empty_router; csilk_router_match_ctx r (lit "*") (lit "/a") demo_request) ≫= (fun p => Some p.1) = Some 1.
Proof. by vm_compute. Qed.

(** The 16-bit capacity doubles from 32768 to 0: the 32769th child of a node
    is copied into an array of 16. *)
Example child_array_overflow (parent child : csilk_router_node_t) :
  children_cap parent = 32768 -> Z.of_nat (length (children parent)) = 32768 -> node_add_child parent child 32768 [] = None.
Proof.
  intros Hc Hl. unfold node_add_child, grow_children. rewrite Hl, Hc. done.
Qed.

(** [static_first] is said to index the first static child with a byte; after
    inserting "ab" and then "aa" it names the second. *)
Example static_first_not_first :
  let n0 := node_new [] CSILK_NODE_STATIC in
  (n1 ← node_add_child n0 (node_new (lit "ab") CSILK_NODE_STATIC) 0 [];
   n2 ← node_add_child n1.1.2 (node_new (lit "aa") CSILK_NODE_STATIC) 0 [];
   static_first n2.1.2 !! 97%nat) = Some 1.
Proof. by vm_compute. Qed.

(** A trailing single slash is accepted, a double one is not. *)
Example trailing_slashes :
  pmatch (pattern_of (lit "/a")) (lit "/a/") = Some [] /\ pmatch (pattern_of (lit "/a")) (lit "/a//") = None /\
  pmatch (pattern_of (lit "/a//")) (lit "/a//") = None.
Proof. by vm_compute. Qed.
