(* ===== verification/Base64.v ===== *)
(** * Base64

    Models src/src/crypto/base64.c: the three-byte-group encoder, the URL-safe
    variant, and the bit-stream decoder with its reverse table.  Writes to the
    caller's arrays are checked; an [int] that leaves its range has no result. *)

From S2P Require Import Prelude.

#[local] Open Scope Z_scope.

Definition b64_table : bytes := lit "ABCDEFGHIJKLMNOPQRSTUVWXYZabcdefghijklmnopqrstuvwxyz0123456789+/".
Definition b64_char (i : Z) : ascii := nth (Z.to_nat (Z.land i 63)) b64_table NUL.

(** The value packed from the bytes at [i]. *)
Definition pack (src : bytes) (i : nat) : option Z :=
  c0 ← src !! i;
  let v := Z.shiftl (cval c0) 16 in
  let v := match src !! (i + 1)%nat with Some c => Z.lor v (Z.shiftl (cval c) 8) | None => v end in
  Some (match src !! (i + 2)%nat with Some c => Z.lor v (cval c) | None => v end).

(** [out[j++] = c] *)
Definition put (c : ascii) (s : bytes * nat) : option (bytes * nat) :=
  out ← store (Z.of_nat s.2) c s.1; Some (out, S s.2).

Fixpoint encode_loop (fuel : nat) (src : bytes) (i : nat) (s : bytes * nat) : option (bytes * nat) :=
  match fuel with
  | O => None
  | S fuel' =>
      if (i <? length src)%nat then
        v ← pack src i;
        s1 ← put (b64_char (Z.shiftr v 18)) s;
        s2 ← put (b64_char (Z.shiftr v 12)) s1;
        s3 ← (if (i + 1 <? length src)%nat then put (b64_char (Z.shiftr v 6)) s2 else put "="%char s2);
        s4 ← (if (i + 2 <? length src)%nat then put (b64_char v) s3 else put "="%char s3);
        encode_loop fuel' src (i + 3) s4
      else Some s
  end.

(** [out] is the caller's array before the call. *)
Definition csilk_base64_encode (src out : bytes) : option bytes :=
  '(out', j) ← encode_loop (S (length src)) src 0 (out, 0%nat);
  store (Z.of_nat j) NUL out'.

(** The substitution pass of the URL-safe variant. *)
Fixpoint url_subst (l : bytes) : option bytes :=
  match l with
  | [] => None
  | c :: l' =>
      if Ascii.eqb c NUL then Some l
      else if Ascii.eqb c "+" then r ← url_subst l'; Some ("-"%char :: r)
      else if Ascii.eqb c "/" then r ← url_subst l'; Some ("_"%char :: r)
      else if Ascii.eqb c "=" then Some (NUL :: l')
      else r ← url_subst l'; Some (c :: r)
  end.

Definition csilk_base64url_encode (src out : bytes) : option bytes :=
  out' ← csilk_base64_encode src out; url_subst out'.

(** ** Decoding *)

Definition z_range (a n : nat) : list Z := map Z.of_nat (seq a n).
Definition b64_rev_table : list Z :=
  replicate 32 (-1)
  ++ replicate 11 (-1) ++ [62] ++ replicate 3 (-1) ++ [63] ++ z_range 52 10 ++ replicate 6 (-1)
  ++ [-1] ++ z_range 0 26 ++ replicate 5 (-1)
  ++ [-1] ++ z_range 26 26 ++ replicate 5 (-1)
  ++ replicate 128 (-1).

Definition unurl (c : ascii) : ascii :=
  if Ascii.eqb c "-" then "+"%char else if Ascii.eqb c "_" then "/"%char else c.

(** [while (len % 4) tmp[len++] = '=';], at most three rounds. *)
Fixpoint pad_loop (fuel : nat) (tmp : bytes) : bytes :=
  match fuel with
  | O => tmp
  | S fuel' => if (length tmp mod 4 =? 0)%nat then tmp else pad_loop fuel' (tmp ++ ["="%char])
  end.

(** The bit stream: accumulator, pending bits, output array and length. The
    result is the returned length, or -1. *)
Fixpoint decode_loop (tmp : bytes) (v bits : Z) (out : bytes) (decoded_len out_cap : Z)
  : option (Z * bytes) :=
  match tmp with
  | [] => Some (decoded_len, out)
  | c :: tmp' =>
      if Ascii.eqb c "=" then Some (decoded_len, out) else
      let val := nth (Z.to_nat (cval c)) b64_rev_table (-1) in
      if val <? 0 then Some (-1, out) else
      let v := Z.lor (wrap32 (Z.shiftl v 6)) val in
      let bits := bits + 6 in
      if bits >=? 8 then
        let bits := bits - 8 in
        if decoded_len >=? out_cap then Some (-1, out) else
        if decoded_len + 1 >? 2 ^ 31 - 1 then None else
        out' ← store decoded_len (chr (Z.land (Z.shiftr v bits) 255)) out;
        decode_loop tmp' v bits out' (decoded_len + 1) out_cap
      else decode_loop tmp' v bits out decoded_len out_cap
  end.

(** [malloc_ok]: the scratch copy could be allocated. *)
Definition csilk_base64url_decode (malloc_ok : bool) (src out : bytes) (out_cap : Z) : option (Z * bytes) :=
  if negb malloc_ok then Some (-1, out)
  else decode_loop (pad_loop 4 (map unurl src)) 0 0 out 0 out_cap.

(** ** Reference: groups of three bytes *)

Definition sextet (n : Z) : ascii := nth (Z.to_nat n) b64_table NUL.

Fixpoint b64 (l : bytes) : bytes :=
  match l with
  | a :: b :: c :: l' =>
      sextet (cval a / 4) :: sextet ((cval a `mod` 4) * 16 + cval b / 16)
      :: sextet ((cval b `mod` 16) * 4 + cval c / 64) :: sextet (cval c `mod` 64) :: b64 l'
  | [a; b] =>
      [sextet (cval a / 4); sextet ((cval a `mod` 4) * 16 + cval b / 16);
       sextet ((cval b `mod` 16) * 4); "="%char]
  | [a] => [sextet (cval a / 4); sextet ((cval a `mod` 4) * 16); "="%char; "="%char]
  | [] => []
  end.

(** Induction by groups of three. *)
Lemma list_ind3 (P : bytes -> Prop) :
  P [] -> (forall a, P [a]) -> (forall a b, P [a; b]) -> (forall a b c l, P l -> P (a :: b :: c :: l)) ->
  forall l, P l.
Proof.
  intros H0 H1 H2 H3. fix IH 1. intros [|a [|b [|c l]]]; [done..|]. apply H3, IH.
Qed.

(** Writing at the end of the written prefix. *)
Lemma put_spec c pre x rest : put c (pre ++ x :: rest, length pre) = Some ((pre ++ [c]) ++ rest, length (pre ++ [c])).
Proof.
  unfold put. cbn [fst snd]. rewrite store_ok by (rewrite length_app; cbn [length]; lia). cbn [mbind option_bind].
  rewrite Nat2Z.id, insert_app_r_alt, Nat.sub_diag by lia. cbn. rewrite length_app, <- app_assoc. cbn. do 2 f_equal. lia.
Qed.

(** The four indices of a packed group. *)
Lemma b64_char_sextet n : 0 <= n < 64 -> b64_char n = sextet n.
Proof.
  intros H. unfold b64_char, sextet. do 2 f_equal.
  change 63 with (Z.ones 6). rewrite Z.land_ones by lia. by rewrite Z.mod_small.
Qed.

Lemma b64_char_mod n : b64_char n = sextet (n `mod` 64).
Proof. unfold b64_char, sextet. change 63 with (Z.ones 6). by rewrite Z.land_ones by lia. Qed.

Definition triple (a b c : Z) : Z := a * 65536 + b * 256 + c.

Lemma triple_indices a b c :
  0 <= a < 256 -> 0 <= b < 256 -> 0 <= c < 256 ->
  Z.shiftr (triple a b c) 18 `mod` 64 = a / 4 /\
  Z.shiftr (triple a b c) 12 `mod` 64 = (a `mod` 4) * 16 + b / 16 /\
  Z.shiftr (triple a b c) 6 `mod` 64 = (b `mod` 16) * 4 + c / 64 /\
  triple a b c `mod` 64 = c `mod` 64.
Proof.
  intros Ha Hb Hc. unfold triple. rewrite !Z.shiftr_div_pow2 by lia.
  change (2 ^ 18) with 262144. change (2 ^ 12) with 4096. change (2 ^ 6) with 64.
  split_and!; Z.div_mod_to_equations; lia.
Qed.

Lemma lor_triple a b c :
  0 <= a -> 0 <= b < 256 -> 0 <= c < 256 ->
  Z.lor (Z.lor (Z.shiftl a 16) (Z.shiftl b 8)) c = triple a b c.
Proof.
  intros Ha Hb Hc. replace (Z.shiftl a 16) with (Z.shiftl (Z.shiftl a 8) 8) by by rewrite Z.shiftl_shiftl.
  rewrite <- Z.shiftl_lor, (lor_shiftl_add (Z.lor _ _)) by lia. rewrite lor_shiftl_add by lia. unfold triple. lia.
Qed.

Lemma pack_spec src pre l i :
  src = pre ++ l -> length pre = i ->
  pack src i = match l with
               | [] => None
               | [a] => Some (triple (cval a) 0 0)
               | [a; b] => Some (triple (cval a) (cval b) 0)
               | a :: b :: c :: _ => Some (triple (cval a) (cval b) (cval c))
               end.
Proof.
  intros -> <-. unfold pack.
  rewrite <- (Nat.add_0_r (length pre)) at 1. rewrite !lookup_app_at.
  destruct l as [|a [|b [|c l]]]; cbn [lookup list_lookup mbind option_bind]; [done|..]; f_equal.
  - rewrite <- (lor_triple (cval a) 0 0) by (apply cval_range || lia). by rewrite !Z.lor_0_r.
  - rewrite <- (lor_triple (cval a) (cval b) 0) by (apply cval_range || lia). by rewrite Z.lor_0_r.
  - apply lor_triple; apply cval_range.
Qed.

Lemma length_b64_cons3 a b c l : length (b64 (a :: b :: c :: l)) = (4 + length (b64 l))%nat.
Proof. done. Qed.

Lemma encode_loop_done fuel src i s :
  (0 < fuel)%nat -> (length src <= i)%nat -> encode_loop fuel src i s = Some s.
Proof. intros Hf Hi. destruct fuel; [lia|]. cbn [encode_loop]. by rewrite (proj2 (Nat.ltb_ge _ _)) by lia. Qed.

Lemma encode_loop_spec fuel pre3 l pre rest :
  (length l < fuel)%nat -> (length (b64 l) <= length rest)%nat ->
  encode_loop fuel (pre3 ++ l) (length pre3) (pre ++ rest, length pre) =
  Some (pre ++ b64 l ++ drop (length (b64 l)) rest, length (pre ++ b64 l)).
Proof.
  revert pre3 l pre rest. induction fuel as [|fuel IH]; intros pre3 l pre rest Hf Hr; [lia|].
  cbn [encode_loop]. rewrite (pack_spec _ pre3 l _ eq_refl eq_refl).
  destruct l as [|a l].
  { rewrite (proj2 (Nat.ltb_ge _ _)) by (rewrite length_app; cbn; lia). by rewrite app_nil_r, drop_0. }
  rewrite (proj2 (Nat.ltb_lt (length pre3) _)) by (rewrite length_app; cbn; lia).
  rewrite !(length_app pre3).
  assert (exists x1 x2 x3 x4 r, rest = x1 :: x2 :: x3 :: x4 :: r) as (x1 & x2 & x3 & x4 & r & ->).
  { destruct rest as [|x1 [|x2 [|x3 [|x4 r]]]]; [destruct l as [|b [|c l]]; cbn in Hr; lia..|]. by repeat eexists. }
  pose proof (cval_range a) as Ha.
  assert (forall i, length pre3 + i <? length pre3 + length (a :: l) = (i <? length (a :: l)))%nat as Hlt.
  { intros i. apply eq_true_iff_eq. rewrite !Nat.ltb_lt. lia. }
  rewrite !Hlt.
  destruct l as [|b [|c l]]; cbn [mbind option_bind length Nat.ltb Nat.leb];
    repeat (rewrite put_spec; cbn [mbind option_bind]); rewrite !b64_char_mod.
  - destruct (triple_indices (cval a) 0 0) as (-> & -> & _ & _); [lia..|]. change (0 / 16) with 0.
    rewrite encode_loop_done by (rewrite ?length_app; cbn [length] in *; lia).
    rewrite Z.add_0_r, <- !app_assoc. done.
  - pose proof (cval_range b).
    destruct (triple_indices (cval a) (cval b) 0) as (-> & -> & -> & _); [lia..|]. change (0 / 64) with 0.
    rewrite encode_loop_done by (rewrite ?length_app; cbn [length] in *; lia).
    rewrite Z.add_0_r, <- !app_assoc. done.
  - pose proof (cval_range b). pose proof (cval_range c).
    destruct (triple_indices (cval a) (cval b) (cval c)) as (-> & -> & -> & ->); [lia..|].
    replace (pre3 ++ a :: b :: c :: l) with ((pre3 ++ [a; b; c]) ++ l) by by rewrite <- app_assoc.
    replace (length pre3 + 3)%nat with (length (pre3 ++ [a; b; c])) by by rewrite length_app.
    rewrite IH by (cbn in *; lia). cbn [b64 length drop]. by rewrite <- !app_assoc.
Qed.

Lemma base64_encode_spec src out :
  (length (b64 src) < length out)%nat ->
  exists junk, csilk_base64_encode src out = Some (b64 src ++ NUL :: junk) /\
    S (length (b64 src) + length junk) = length out.
Proof.
  intros Hl. unfold csilk_base64_encode.
  pose proof (encode_loop_spec (S (length src)) [] src [] out) as E. cbn [app length] in E.
  rewrite E by lia. cbn [mbind option_bind].
  destruct (drop (length (b64 src)) out) as [|x r] eqn:Ed.
  { apply (f_equal length) in Ed. rewrite length_drop in Ed. cbn in Ed. lia. }
  exists r. assert (length (x :: r) = (length out - length (b64 src))%nat) as Hlr by by rewrite <- Ed, length_drop.
  cbn [length] in Hlr. split; [|lia].
  rewrite store_ok by (rewrite length_app; cbn [length]; lia).
  by rewrite Nat2Z.id, insert_app_r_alt, Nat.sub_diag by lia.
Qed.

(** The encoded length: four characters for every three bytes begun. *)
Lemma length_b64 l : length (b64 l) = (4 * ((length l + 2) / 3))%nat.
Proof.
  induction l as [|a|a b|a b c l IH] using list_ind3; [done..|].
  cbn [b64 length]. rewrite IH. replace (S (S (S (length l))) + 2)%nat with (length l + 2 + 1 * 3)%nat by lia.
  rewrite Nat.div_add by lia. lia.
Qed.

(** ** The URL-safe form *)

Definition url_char (c : ascii) : ascii :=
  if Ascii.eqb c "+" then "-"%char else if Ascii.eqb c "/" then "_"%char else c.

(** The unpadded characters. *)
Fixpoint strip_pad (l : bytes) : bytes :=
  match l with
  | [] => []
  | c :: l' => if Ascii.eqb c "=" then [] else c :: strip_pad l'
  end.

Definition b64url (l : bytes) : bytes := map url_char (strip_pad (b64 l)).

(** Characters of the alphabet are recognised by the reverse table. *)
Definition rev (c : ascii) : Z := nth (Z.to_nat (cval c)) b64_rev_table (-1).

Lemma sextet_spec n :
  0 <= n < 64 ->
  sextet n <> NUL /\ sextet n <> "="%char /\ unurl (url_char (sextet n)) = sextet n /\ rev (sextet n) = n /\
  url_char (sextet n) <> NUL.
Proof.
  intros H. assert (In n (map Z.of_nat (seq 0 64))) as Hin.
  { apply in_map_iff. exists (Z.to_nat n). split; [lia|]. apply in_seq. lia. }
  clear H. revert n Hin. apply List.Forall_forall. repeat constructor; by vm_compute.
Qed.

Lemma url_subst_spec l junk :
  NUL ∉ l -> exists junk', url_subst (l ++ NUL :: junk) = Some (map url_char (strip_pad l) ++ NUL :: junk').
Proof.
  induction l as [|c l IH]; intros H; [by exists junk|]. apply not_elem_of_cons in H as [Hc Hl].
  destruct (IH Hl) as (j & E). cbn [app url_subst strip_pad]. rewrite E.
  destruct (Ascii.eqb_spec c NUL); [by destruct Hc|]. cbn [mbind option_bind].
  destruct (Ascii.eqb_spec c "+") as [->|]; [by exists j|].
  destruct (Ascii.eqb_spec c "/") as [->|]; [by exists j|].
  destruct (Ascii.eqb_spec c "="); [by eexists|]. exists j. cbn. unfold url_char.
  by destruct (Ascii.eqb_spec c "+"), (Ascii.eqb_spec c "/").
Qed.

(** The sextets of a byte string, unpadded. *)
Fixpoint sextets (l : bytes) : list Z :=
  match l with
  | a :: b :: c :: l' =>
      cval a / 4 :: (cval a `mod` 4) * 16 + cval b / 16 :: (cval b `mod` 16) * 4 + cval c / 64
      :: cval c `mod` 64 :: sextets l'
  | [a; b] => [cval a / 4; (cval a `mod` 4) * 16 + cval b / 16; (cval b `mod` 16) * 4]
  | [a] => [cval a / 4; (cval a `mod` 4) * 16]
  | [] => []
  end.

Lemma sextets_range l : Forall (fun n => 0 <= n < 64) (sextets l).
Proof.
  induction l as [|a|a b|a b c l IH] using list_ind3; cbn [sextets].
  - constructor.
  - pose proof (cval_range a). repeat constructor; Z.div_mod_to_equations; lia.
  - pose proof (cval_range a). pose proof (cval_range b). repeat constructor; Z.div_mod_to_equations; lia.
  - pose proof (cval_range a). pose proof (cval_range b). pose proof (cval_range c).
    repeat (constructor; [Z.div_mod_to_equations; lia|]). done.
Qed.

Lemma b64_sextets l : exists k, b64 l = map sextet (sextets l) ++ replicate k "="%char.
Proof.
  induction l as [|a|a b|a b c l [k IH]] using list_ind3;
    [by exists 0%nat|by exists 2%nat|by exists 1%nat|]. exists k. cbn [b64 sextets map app]. by rewrite IH.
Qed.

Lemma strip_pad_sextets ns k :
  Forall (fun n => 0 <= n < 64) ns -> strip_pad (map sextet ns ++ replicate k "="%char) = map sextet ns.
Proof.
  intros H. induction H as [|n ns Hn _ IH]; [by destruct k|]. cbn [map app strip_pad].
  destruct (sextet_spec n Hn) as (_ & Hne & _). destruct (Ascii.eqb_spec (sextet n) "="); [done|]. by rewrite IH.
Qed.

Lemma b64url_sextets l : b64url l = map (fun n => url_char (sextet n)) (sextets l).
Proof.
  unfold b64url. destruct (b64_sextets l) as [k ->]. rewrite strip_pad_sextets by apply sextets_range. by rewrite map_map.
Qed.

Lemma b64_nul_free l : NUL ∉ b64 l.
Proof.
  destruct (b64_sextets l) as [k ->]. pose proof (sextets_range l) as Hr. rewrite not_elem_of_app. split.
  - intros (n & E & Hn)%list_elem_of_fmap. rewrite Forall_forall in Hr.
    destruct (sextet_spec n (Hr n Hn)) as (Hne & _). by apply Hne.
  - by intros [? _]%elem_of_replicate.
Qed.

Lemma unurl_b64url l : map unurl (b64url l) = map sextet (sextets l).
Proof.
  rewrite b64url_sextets, map_map. apply map_ext_in. intros n Hn. pose proof (sextets_range l) as Hr.
  rewrite Forall_forall in Hr. apply list_elem_of_In in Hn. by destruct (sextet_spec n (Hr n Hn)) as (_ & _ & ? & _).
Qed.

Lemma pad_loop_spec fuel tmp : exists k, pad_loop fuel tmp = tmp ++ replicate k "="%char.
Proof.
  revert tmp. induction fuel as [|fuel IH]; intros tmp; cbn [pad_loop]; [exists 0%nat; by rewrite app_nil_r|].
  destruct (_ =? 0)%nat; [exists 0%nat; by rewrite app_nil_r|].
  destruct (IH (tmp ++ ["="%char])) as [k ->]. exists (S k). by rewrite <- app_assoc.
Qed.

(** ** The bit stream *)

Definition push (v n : Z) : Z := Z.lor (wrap32 (Z.shiftl v 6)) n.

(** The low bits of the accumulator are the pending bits, whatever the high
    ones hold. *)
Lemma push_mod v n k : 0 <= n < 64 -> 0 <= k <= 26 -> push v n `mod` 2 ^ (k + 6) = v `mod` 2 ^ k * 64 + n.
Proof.
  intros Hn Hk. unfold push, wrap32, wrap. rewrite Z.shiftl_mul_pow2 by lia.
  assert ((v * 2 ^ 6) `mod` 2 ^ 32 = Z.shiftl (v `mod` 2 ^ 26) 6) as ->.
  { rewrite Z.shiftl_mul_pow2 by lia. change (2 ^ 32) with (2 ^ 26 * 2 ^ 6). by rewrite Z.mul_mod_distr_r. }
  rewrite lor_shiftl_add by lia. rewrite Z.pow_add_r by lia. change (2 ^ 6) with 64.
  assert (0 < 2 ^ k) by (apply Z.pow_pos_nonneg; lia).
  rewrite Z.add_mul_mod_distr_r by (try apply Z.mod_pos_bound; lia). rewrite Z.mod_mod_divide; [done|].
  exists (2 ^ (26 - k)). rewrite <- Z.pow_add_r by lia. f_equal. lia.
Qed.

Lemma extract_byte w s :
  0 <= s -> Z.land (Z.shiftr w s) 255 = (w `mod` 2 ^ (s + 8)) / 2 ^ s.
Proof.
  intros Hs. change 255 with (Z.ones 8). rewrite Z.land_ones, Z.shiftr_div_pow2, Z.pow_add_r by lia.
  assert (0 < 2 ^ s) by (apply Z.pow_pos_nonneg; lia). rewrite Z.rem_mul_r by lia.
  rewrite (Z.mul_comm (2 ^ s)), Z.div_add, (Z.div_small (w `mod` 2 ^ s)) by (try apply Z.mod_pos_bound; lia). done.
Qed.

Lemma decode_skip n tmp v bits out dl cap :
  0 <= n < 64 -> bits + 6 < 8 ->
  decode_loop (sextet n :: tmp) v bits out dl cap = decode_loop tmp (push v n) (bits + 6) out dl cap.
Proof.
  intros Hn Hb. cbn [decode_loop]. destruct (sextet_spec n Hn) as (_ & Hne & _ & Hr & _). unfold rev in Hr.
  destruct (Ascii.eqb_spec (sextet n) "="); [done|]. rewrite Hr. cbn zeta.
  destruct (Z.ltb_spec n 0); [lia|]. destruct (Z.geb_spec (bits + 6) 8); [lia|done].
Qed.

Lemma decode_emit n tmp v bits pre x rest cap :
  0 <= n < 64 -> 2 <= bits <= 8 -> Z.of_nat (length pre) < cap -> Z.of_nat (length pre) < 2 ^ 31 - 1 ->
  decode_loop (sextet n :: tmp) v bits (pre ++ x :: rest) (Z.of_nat (length pre)) cap =
  decode_loop tmp (push v n) (bits - 2)
    ((pre ++ [chr ((push v n `mod` 2 ^ (bits + 6)) / 2 ^ (bits - 2))]) ++ rest)
    (Z.of_nat (length (pre ++ [chr ((push v n `mod` 2 ^ (bits + 6)) / 2 ^ (bits - 2))]))) cap.
Proof.
  intros Hn Hb Hc Hi. cbn [decode_loop]. destruct (sextet_spec n Hn) as (_ & Hne & _ & Hr & _). unfold rev in Hr.
  destruct (Ascii.eqb_spec (sextet n) "="); [done|]. rewrite Hr. cbn zeta.
  destruct (Z.ltb_spec n 0); [lia|]. destruct (Z.geb_spec (bits + 6) 8); [|lia].
  destruct (Z.geb_spec (Z.of_nat (length pre)) cap); [lia|].
  destruct (Z.gtb_spec (Z.of_nat (length pre) + 1) (2 ^ 31 - 1)); [lia|].
  change (Z.lor (wrap32 (Z.shiftl v 6)) n) with (push v n).
  rewrite store_ok by (rewrite length_app; cbn [length]; lia). cbn [mbind option_bind].
  rewrite Nat2Z.id, insert_app_r_alt, Nat.sub_diag, extract_byte by lia.
  replace (bits + 6 - 8) with (bits - 2) by lia. replace (bits - 2 + 8) with (bits + 6) by lia.
  rewrite length_app. cbn [length list_insert]. rewrite <- app_assoc. f_equal. lia.
Qed.

Lemma decode_loop_stop k v bits out dl cap :
  decode_loop (replicate k "="%char) v bits out dl cap = Some (dl, out).
Proof. by destruct k. Qed.

(** Three bytes from four sextets. *)
Lemma group_bytes a b c v :
  0 <= a < 256 -> 0 <= b < 256 -> 0 <= c < 256 ->
  let n1 := a / 4 in let n2 := (a `mod` 4) * 16 + b / 16 in
  let n3 := (b `mod` 16) * 4 + c / 64 in let n4 := c `mod` 64 in
  (push (push v n1) n2 `mod` 2 ^ 12) / 2 ^ 4 = a /\
  (push (push (push v n1) n2) n3 `mod` 2 ^ 10) / 2 ^ 2 = b /\
  (push (push (push (push v n1) n2) n3) n4 `mod` 2 ^ 8) / 2 ^ 0 = c.
Proof.
  intros Ha Hb Hc n1 n2 n3 n4.
  assert (0 <= n1 < 64 /\ 0 <= n2 < 64 /\ 0 <= n3 < 64 /\ 0 <= n4 < 64) as (H1 & H2 & H3 & H4)
    by (subst n1 n2 n3 n4; split_and!; Z.div_mod_to_equations; lia).
  pose proof (push_mod v n1 0 H1 ltac:(lia)) as E1.
  pose proof (push_mod (push v n1) n2 6 H2 ltac:(lia)) as E2.
  pose proof (push_mod (push (push v n1) n2) n3 4 H3 ltac:(lia)) as E3.
  pose proof (push_mod (push (push (push v n1) n2) n3) n4 2 H4 ltac:(lia)) as E4.
  change (0 + 6) with 6 in E1. change (6 + 6) with 12 in E2. change (4 + 6) with 10 in E3. change (2 + 6) with 8 in E4.
  set (w1 := push v n1) in *. set (w2 := push w1 n2) in *. set (w3 := push w2 n3) in *. set (w4 := push w3 n4) in *.
  rewrite E2, E3, E4. change (2 ^ 0) with 1 in *. rewrite Z.mod_1_r in E1. change (2 ^ 6) with 64 in *.
  change (2 ^ 4) with 16 in *. change (2 ^ 2) with 4 in *. change (2 ^ 12) with 4096 in *. change (2 ^ 10) with 1024 in *.
  rewrite E1. subst n1 n2 n3 n4. clearbody w1 w2 w3 w4.
  split_and!; Z.div_mod_to_equations; lia.
Qed.

Lemma decode_emit_byte y n tmp v bits pre x rest cap :
  (push v n `mod` 2 ^ (bits + 6)) / 2 ^ (bits - 2) = cval y ->
  0 <= n < 64 -> 2 <= bits <= 8 -> Z.of_nat (length pre) < cap -> Z.of_nat (length pre) < 2 ^ 31 - 1 ->
  decode_loop (sextet n :: tmp) v bits (pre ++ x :: rest) (Z.of_nat (length pre)) cap =
  decode_loop tmp (push v n) (bits - 2) ((pre ++ [y]) ++ rest) (Z.of_nat (length (pre ++ [y]))) cap.
Proof. intros E ? ? ? ?. rewrite decode_emit by done. by rewrite E, chr_cval. Qed.

Lemma decode_loop_spec l k v pre rest cap :
  (length l <= length rest)%nat -> Z.of_nat (length pre + length l) <= cap ->
  Z.of_nat (length pre + length l) < 2 ^ 31 ->
  decode_loop (map sextet (sextets l) ++ replicate k "="%char) v 0 (pre ++ rest) (Z.of_nat (length pre)) cap =
  Some (Z.of_nat (length (pre ++ l)), pre ++ l ++ drop (length l) rest).
Proof.
  revert v pre rest. induction l as [|a|a b|a b c l IH] using list_ind3; intros v pre rest Hr Hc Hi;
    [cbn [sextets map app length]; rewrite decode_loop_stop; by rewrite app_nil_r, drop_0|..];
    pose proof (cval_range a) as Ha.
  - destruct rest as [|x rest]; cbn [length] in *; [lia|].
    destruct (group_bytes (cval a) 0 0 v) as (E & _); [lia..|]. change (0 / 16) with 0 in E. rewrite Z.add_0_r in E.
    pose proof (sextets_range [a]) as Hn. cbn [sextets map app] in *. rewrite !Forall_cons in Hn. destruct Hn as (H1 & H2 & _).
    rewrite decode_skip by (done || lia). rewrite (decode_emit_byte a) by (exact E || lia).
    rewrite decode_loop_stop. cbn [drop]. by rewrite <- app_assoc.
  - destruct rest as [|x [|y rest]]; cbn [length] in *; [lia..|]. pose proof (cval_range b).
    destruct (group_bytes (cval a) (cval b) 0 v) as (E & E2 & _); [lia..|]. change (0 / 64) with 0 in E2. rewrite Z.add_0_r in E2.
    pose proof (sextets_range [a; b]) as Hn. cbn [sextets map app] in *. rewrite !Forall_cons in Hn. destruct Hn as (H1 & H2 & H3 & _).
    rewrite decode_skip by (done || lia). rewrite (decode_emit_byte a) by (exact E || lia).
    rewrite (decode_emit_byte b) by (exact E2 || rewrite ?length_app; cbn [length]; lia).
    rewrite decode_loop_stop. cbn [drop]. by rewrite <- !app_assoc.
  - destruct rest as [|x [|y [|z rest]]]; cbn [length] in *; [lia..|]. pose proof (cval_range b). pose proof (cval_range c).
    destruct (group_bytes (cval a) (cval b) (cval c) v) as (E & E2 & E3); [lia..|].
    pose proof (sextets_range (a :: b :: c :: l)) as Hn. cbn [sextets map app] in *. rewrite !Forall_cons in Hn. destruct Hn as (H1 & H2 & H3 & H4 & _).
    rewrite decode_skip by (done || lia). rewrite (decode_emit_byte a) by (exact E || lia).
    rewrite (decode_emit_byte b) by (exact E2 || rewrite ?length_app; cbn [length]; lia).
    rewrite (decode_emit_byte c) by (exact E3 || rewrite ?length_app; cbn [length]; lia).
    change (0 + 6 - 2 - 2 - 2) with 0. rewrite IH by (rewrite ?length_app; cbn [length]; lia).
    cbn [drop]. by rewrite <- !app_assoc.
Qed.

(** C29: the round trip. Encode any byte string with the URL-safe encoder
    into an array of at least [4 * ceil(n / 3) + 1] bytes: no write leaves the
    array, the text is terminated, and decoding it, with room for the [n]
    bytes, returns [n] and exactly the original bytes, without touching the
    rest of the output array. *)
Theorem base64url_roundtrip src buf out cap :
  (4 * ((length src + 2) / 3) < length buf)%nat ->
  (length src <= length out)%nat -> Z.of_nat (length src) <= cap -> Z.of_nat (length src) < 2 ^ 31 ->
  exists text junk, csilk_base64url_encode src buf = Some (text ++ NUL :: junk) /\ NUL ∉ text /\
    csilk_base64url_decode true text out cap =
      Some (Z.of_nat (length src), src ++ drop (length src) out).
Proof.
  intros Hb Ho Hc Hi. rewrite <- length_b64 in Hb.
  destruct (base64_encode_spec src buf Hb) as (j & E & _).
  destruct (url_subst_spec (b64 src) j (b64_nul_free src)) as (j' & E').
  exists (b64url src), j'. unfold csilk_base64url_encode. rewrite E. cbn [mbind option_bind].
  split; [exact E'|]. split.
  - rewrite b64url_sextets. intros (n & En & Hn)%list_elem_of_fmap. pose proof (sextets_range src) as Hr.
    rewrite Forall_forall in Hr. destruct (sextet_spec n (Hr n Hn)) as (_ & _ & _ & _ & Hne). congruence.
  - unfold csilk_base64url_decode. cbn [negb]. rewrite unurl_b64url.
    destruct (pad_loop_spec 4 (map sextet (sextets src))) as [k ->].
    exact (decode_loop_spec src k 0 [] out cap Ho Hc Hi).
Qed.

Lemma base64url_roundtrip_witness :
  exists text junk, csilk_base64url_encode (lit "csilk?>") (replicate 13 "#"%char) = Some (text ++ NUL :: junk) /\
    csilk_base64url_decode true text (replicate 9 "."%char) 7 = Some (7, lit "csilk?>..").
Proof.
  destruct (base64url_roundtrip (lit "csilk?>") (replicate 13 "#"%char) (replicate 9 "."%char) 7)
    as (t & j & E1 & _ & E2).
  - cbn. lia.
  - cbn. lia.
  - by vm_compute.
  - by vm_compute.
  - exists t, j. split; [exact E1|exact E2].
Defined.

(** The standard encoder writes exactly the padded groups of RFC 4648,
    [4 * ceil(n / 3)] characters and a terminator, and nothing else. *)
Theorem base64_encode_exact src out :
  (4 * ((length src + 2) / 3) < length out)%nat ->
  exists junk, csilk_base64_encode src out = Some (b64 src ++ NUL :: junk) /\
    length (b64 src) = (4 * ((length src + 2) / 3))%nat /\ length (b64 src ++ NUL :: junk) = length out.
Proof.
  intros Hl. rewrite <- length_b64 in Hl. destruct (base64_encode_spec src out Hl) as (j & E & El).
  exists j. split; [done|]. split; [apply length_b64|]. rewrite length_app. cbn [length]. lia.
Qed.

Lemma base64_encode_exact_witness :
  exists junk, csilk_base64_encode (lit "light w") (replicate 14 "#"%char) = Some (lit "bGlnaHQgdw==" ++ NUL :: junk).
Proof.
  destruct (base64_encode_exact (lit "light w") (replicate 14 "#"%char)) as (j & E & _).
  - cbn. lia.
  - exists j. exact E.
Defined.
