(* ===== verification/WebSocket.v ===== *)
(** * WebSocket frames

    Models src/src/protocols/websocket.c: building and queueing a server frame
    ([csilk_ws_send]), the close frame ([csilk_ws_close]) and the parser
    ([csilk_ws_parse_frame]).  What the functions ask of the event loop and of
    libc (queue sizes, whether [malloc] succeeds, the result of the write) is an
    argument; what they do to the connection (frames queued, references,
    pending writes, heap blocks held) is the state.  Reading a byte past the
    received ones has no result. *)

From S2P Require Import Prelude.

#[local] Open Scope Z_scope.

(** ** Building frames *)

(** [(uint8_t)((len >> (56 - i * 8)) & 0xFF)] for [i = 0 .. 7]. *)
Definition be64 (len : Z) : bytes :=
  map (fun i => chr (Z.land (Z.shiftr len (56 - Z.of_nat i * 8)) 255)) (seq 0 8).

Definition ws_header_len (len : Z) : Z :=
  if (len >? 125) && (len <=? 65535) then 2 + 2
  else if len >? 65535 then 2 + 8
  else 2.

(** Byte 1 and the extended length. *)
Definition ws_length_bytes (len : Z) : bytes :=
  if len <=? 125 then [chr len]
  else if len <=? 65535 then [chr 126; chr (Z.land (Z.shiftr len 8) 255); chr (Z.land len 255)]
  else chr 127 :: be64 len.

Definition ws_frame (opcode : Z) (payload : bytes) : bytes :=
  chr (Z.lor 128 (Z.land opcode 15)) :: ws_length_bytes (Z.of_nat (length payload)) ++ payload.

Record ws_conn := mk_conn {
  queued : list bytes;       (**r frames handed to the event loop, newest first *)
  refs : Z;
  pending_io : Z;
  heap_blocks : Z;           (**r blocks allocated here and not yet freed *)
  streaming : bool;
  write_paused : bool;
}.

Definition set_streaming (s : ws_conn) : ws_conn :=
  mk_conn s.(queued) s.(refs) s.(pending_io) s.(heap_blocks) true s.(write_paused).
Definition set_paused (s : ws_conn) : ws_conn :=
  mk_conn s.(queued) s.(refs) s.(pending_io) s.(heap_blocks) s.(streaming) true.
Definition alloc_block (n : Z) (s : ws_conn) : ws_conn :=
  mk_conn s.(queued) s.(refs) s.(pending_io) (s.(heap_blocks) + n) s.(streaming) s.(write_paused).
(** [csilk_client_ref] / [unref] with [_csilk_client_pending_io_inc] / [dec]. *)
Definition hold (n : Z) (s : ws_conn) : ws_conn :=
  mk_conn s.(queued) (s.(refs) + n) (s.(pending_io) + n) s.(heap_blocks) s.(streaming) s.(write_paused).
Definition enqueue (f : bytes) (s : ws_conn) : ws_conn :=
  mk_conn (f :: s.(queued)) s.(refs) s.(pending_io) s.(heap_blocks) s.(streaming) s.(write_paused).

(** The answers of the environment to one send. *)
Record ws_env := mk_env {
  has_client : bool;
  queue_before : Z;
  queue_after : Z;
  max_write_buffer_size : Z;
  write_high_water_mark : Z;
  malloc_frame : bool;
  malloc_req : bool;
  write_result : Z;
}.

(** The write request: reference, pending count, and the roll-back on error. *)
Definition submit (e : ws_env) (frame : bytes) (s : ws_conn) : Z * ws_conn :=
  if e.(malloc_req) then
    let s := hold 1 (alloc_block 1 s) in
    if e.(write_result) <? 0 then (-1, alloc_block (-2) (hold (-1) s))
    else (0, enqueue frame s)
  else (-1, alloc_block (-1) s).

Definition csilk_ws_send (e : ws_env) (payload : bytes) (opcode : Z) (s : ws_conn) : Z * ws_conn :=
  if negb e.(has_client) then (-1, s) else
  let s := set_streaming s in
  let len := Z.of_nat (length payload) in
  let header_len := ws_header_len len in
  if len >? SIZE_MAX - header_len then (-1, s) else
  let frame_len := header_len + len in
  if (e.(max_write_buffer_size) >? 0)
     && (wrap64 (e.(queue_before) + frame_len) >? e.(max_write_buffer_size)) then (-1, s) else
  if negb e.(malloc_frame) then (-1, s) else
  let '(r, s) := submit e (ws_frame opcode payload) (alloc_block 1 s) in
  if r <? 0 then (-1, s) else
  if (e.(write_high_water_mark) >? 0) && (e.(queue_after) >=? e.(write_high_water_mark))
  then (0, set_paused s) else (1, s).

(** The close frame; [reason] is null or a C string. *)
Definition ws_close_frame (status_code : Z) (reason : option bytes) : bytes :=
  let r := match reason with Some r => r | None => [] end in
  let payload := (if status_code >? 0
                  then [chr (Z.land (Z.shiftr status_code 8) 255); chr (Z.land status_code 255)] else []) ++ r in
  chr 136 :: chr (Z.of_nat (length payload)) :: payload.

Definition csilk_ws_close (e : ws_env) (status_code : Z) (reason : option bytes) (s : ws_conn) : ws_conn :=
  if negb e.(has_client) then s else
  let reason_len := match reason with Some r => Z.of_nat (length r) | None => 0 end in
  let payload_len := if status_code >? 0 then 2 + reason_len else reason_len in
  if payload_len >? 125 then s else
  if negb e.(malloc_frame) then s else
  (submit e (ws_close_frame status_code reason) (alloc_block 1 s)).2.

(** The completion callbacks free both blocks and drop the reference. *)
Definition on_ws_write (s : ws_conn) : ws_conn := hold (-1) (alloc_block (-2) s).

(** ** Parsing *)

Definition CSILK_WS_MAX_FRAME_PAYLOAD : Z := 64 * 1024 * 1024.

Definition byte_at (buf : bytes) (i : Z) : option Z :=
  if i <? 0 then None else c ← buf !! Z.to_nat i; Some (cval c).

(** [payload_len = (payload_len << 8) | buf[2 + i]] for [i = 0 .. 7]. *)
Fixpoint read_be (buf : bytes) (off : Z) (n : nat) (acc : Z) : option Z :=
  match n with
  | O => Some acc
  | S n' => b ← byte_at buf off; read_be buf (off + 1) n' (Z.lor (wrap64 (Z.shiftl acc 8)) b)
  end.

(** The payload length and the offset behind it; [inl tt]: wait for more. *)
Definition read_length (buf : bytes) (nread : Z) : option (unit + Z * Z) :=
  b1 ← byte_at buf 1;
  let payload_len := Z.land b1 127 in
  if payload_len =? 126 then
    if nread <? 4 then Some (inl tt) else
    b2 ← byte_at buf 2; b3 ← byte_at buf 3;
    Some (inr (Z.lor (Z.shiftl b2 8) b3, 4))
  else if payload_len =? 127 then
    if nread <? 10 then Some (inl tt) else
    l ← read_be buf 2 8 0;
    Some (inr (l, 10))
  else Some (inr (payload_len, 2)).

(** [memcpy(dst, buf + off, n)]. *)
Definition read_slice (buf : bytes) (off n : Z) : option bytes :=
  if off + n <=? Z.of_nat (length buf) then Some (take (Z.to_nat n) (drop (Z.to_nat off) buf)) else None.

(** [payload[i] ^= mask[i % 4]]. *)
Definition unmask (mask payload : bytes) : bytes :=
  imap (fun i c => chr (Z.lxor (cval c) (cval (nth (i mod 4) mask NUL)))) payload.

Inductive ws_event :=
  | WsIgnored                               (**r incomplete, oversized, or no memory *)
  | WsClose (close_code : Z)
  | WsMessage (payload : bytes) (opcode : Z).

Definition csilk_ws_parse_frame (malloc_ok : bool) (buf : bytes) : option ws_event :=
  let nread := Z.of_nat (length buf) in
  if nread <? 2 then Some WsIgnored else
  b0 ← byte_at buf 0;
  b1 ← byte_at buf 1;
  let opcode := Z.land b0 15 in
  let masked := Z.land (Z.shiftr b1 7) 1 in
  r ← read_length buf nread;
  match r with
  | inl _ => Some WsIgnored
  | inr (payload_len, offset) =>
      if (masked =? 1) && (nread <? offset + 4) then Some WsIgnored else
      mask ← (if masked =? 1 then read_slice buf offset 4 else Some (replicate 4 NUL));
      let offset := if masked =? 1 then offset + 4 else offset in
      if (payload_len >? CSILK_WS_MAX_FRAME_PAYLOAD) || (payload_len >? SIZE_MAX - offset - 1)
      then Some WsIgnored else
      if nread <? wrap64 (offset + payload_len) then Some WsIgnored else
      if negb malloc_ok then Some WsIgnored else
      raw ← read_slice buf offset payload_len;
      let payload := if masked =? 1 then unmask mask raw else raw in
      if opcode =? 8 then
        match payload with
        | h :: l :: _ => Some (WsClose (wrap16 (Z.lor (Z.shiftl (cval h) 8) (cval l))))
        | _ => Some (WsClose 1005)
        end
      else Some (WsMessage payload opcode)
  end.

(** ** The frame a client sends (RFC 6455, 5.2 and 5.3) *)

(** The [n] low bytes of a number, most significant first. *)
Fixpoint be (n : nat) (v : Z) : bytes :=
  match n with
  | O => []
  | S n' => chr (v / 256 ^ Z.of_nat n') :: be n' v
  end.

(** The payload length: seven bits, or 126 and 16 bits, or 127 and 64 bits. *)
Definition rfc_length (len : Z) : Z * bytes :=
  if len <=? 125 then (len, []) else if len <=? 65535 then (126, be 2 len) else (127, be 8 len).

(** Masking: the key is used up byte by byte and starts over. *)
Fixpoint mask_stream (key payload : bytes) : bytes :=
  match key, payload with
  | k :: key', c :: payload' => chr (Z.lxor (cval c) (cval k)) :: mask_stream (key' ++ [k]) payload'
  | _, _ => []
  end.

Definition client_frame (fin : bool) (opcode : Z) (mask payload : bytes) : bytes :=
  let '(b, ext) := rfc_length (Z.of_nat (length payload)) in
  chr ((if fin then 128 else 0) + opcode) :: chr (128 + b) :: ext ++ mask ++ mask_stream mask payload.

(** ** Big-endian lengths *)

Lemma length_be n v : length (be n v) = n.
Proof. induction n; cbn; auto. Qed.

Lemma chr_land_255 v : chr (Z.land v 255) = chr v.
Proof.
  unfold chr. do 2 f_equal. change 255 with (Z.ones 8). rewrite Z.land_ones by lia. by rewrite Z.mod_mod.
Qed.

Lemma be64_be v : be64 v = be 8 v.
Proof.
  unfold be64. cbn [seq map be]. rewrite !chr_land_255, !Z.shiftr_div_pow2 by lia.
  repeat (f_equal; [by do 2 f_equal|]). done.
Qed.

Lemma byte_at_app pre c rest : byte_at (pre ++ c :: rest) (Z.of_nat (length pre)) = Some (cval c).
Proof.
  unfold byte_at. destruct (Z.ltb_spec (Z.of_nat (length pre)) 0); [lia|].
  by rewrite Nat2Z.id, lookup_app_r, Nat.sub_diag by lia.
Qed.

Lemma read_be_be n v pre rest acc :
  0 <= v -> 0 <= acc -> acc * 256 ^ Z.of_nat n + v `mod` 256 ^ Z.of_nat n < 2 ^ 64 ->
  read_be (pre ++ be n v ++ rest) (Z.of_nat (length pre)) n acc =
  Some (acc * 256 ^ Z.of_nat n + v `mod` 256 ^ Z.of_nat n).
Proof.
  intros Hv. revert pre acc. induction n as [|n IH]; intros pre acc Ha Hb.
  { cbn [read_be be app]. f_equal. change (256 ^ Z.of_nat 0) with 1. rewrite Z.mod_1_r. lia. }
  cbn [read_be be app]. rewrite byte_at_app. cbn [mbind option_bind].
  set (q := 256 ^ Z.of_nat n) in *. assert (0 < q) as Hq by (apply Z.pow_pos_nonneg; lia).
  assert (256 ^ Z.of_nat (S n) = q * 256) as Eq.
  { rewrite Nat2Z.inj_succ, Z.pow_succ_r by lia. subst q. lia. }
  rewrite Eq in *. rewrite Z.rem_mul_r in * by lia. rewrite cval_chr.
  set (d := (v / q) `mod` 256) in *. assert (0 <= d < 256) as Hd by (apply Z.mod_pos_bound; lia).
  pose proof (Z.mod_pos_bound v q Hq) as Hm.
  assert (acc * 256 + d < 2 ^ 64) as Hacc by nia.
  rewrite wrap64_small, lor_shiftl_add by (rewrite ?Z.shiftl_mul_pow2; lia).
  replace (Z.of_nat (length pre) + 1) with (Z.of_nat (length (pre ++ [chr (v / q)]))) by (rewrite length_app; cbn [length]; lia).
  replace (pre ++ chr (v / q) :: be n v ++ rest) with ((pre ++ [chr (v / q)]) ++ be n v ++ rest) by by rewrite <- app_assoc.
  rewrite IH by (change (2 ^ 8) with 256; fold q; nia). f_equal. fold q. change (2 ^ 8) with 256. lia.
Qed.

Lemma ws_length_bytes_spec len :
  0 <= len < 2 ^ 64 ->
  exists b ext, ws_length_bytes len = chr b :: ext /\ 0 <= b <= 127 /\
    forall b0 b1 rest nread, Z.land (cval b1) 127 = b -> nread = Z.of_nat (length (b0 :: b1 :: ext ++ rest)) ->
      read_length (b0 :: b1 :: ext ++ rest) nread = Some (inr (len, 2 + Z.of_nat (length ext))).
Proof.
  intros Hl. unfold ws_length_bytes. destruct (Z.leb_spec len 125); [|destruct (Z.leb_spec len 65535)].
  - exists len, []. split; [done|]. split; [lia|]. intros b0 b1 rest nread Eb _. unfold read_length.
    change (byte_at (b0 :: b1 :: [] ++ rest) 1) with (Some (cval b1)). cbn [mbind option_bind]. rewrite Eb.
    destruct (Z.eqb_spec len 126), (Z.eqb_spec len 127); done || lia.
  - eexists 126, _. split; [done|]. split; [lia|]. intros b0 b1 rest nread Eb ->. unfold read_length.
    change (byte_at (b0 :: b1 :: _) 1) with (Some (cval b1)). cbn [mbind option_bind app length]. rewrite Eb.
    destruct (Z.ltb_spec (Z.of_nat (S (S (S (S (length rest)))))) 4); [lia|].
    assert (forall x y, byte_at (b0 :: b1 :: x :: y :: rest) 2 = Some (cval x) /\
      byte_at (b0 :: b1 :: x :: y :: rest) 3 = Some (cval y)) as Hxy by done.
    rewrite (proj1 (Hxy _ _)), (proj2 (Hxy _ _)). cbn [mbind option_bind Z.eqb Pos.eqb].
    rewrite !chr_land_255, !cval_chr, Z.shiftr_div_pow2 by lia.
    rewrite lor_shiftl_add by (try apply Z.mod_pos_bound; lia). do 4 f_equal. change (2 ^ 8) with 256.
    Z.div_mod_to_equations; lia.
  - eexists 127, _. split; [done|]. split; [lia|]. intros b0 b1 rest nread Eb ->. rewrite be64_be. unfold read_length.
    change (byte_at (b0 :: b1 :: _) 1) with (Some (cval b1)). cbn [mbind option_bind]. rewrite Eb. cbn [Z.eqb Pos.eqb].
    cbn [length]. rewrite length_app, length_be.
    destruct (Z.ltb_spec (Z.of_nat (S (S (8 + length rest)))) 10); [lia|].
    pose proof (read_be_be 8 len [b0; b1] rest 0) as E. cbn [app length] in E. change (Z.of_nat 2) with 2 in E.
    change (256 ^ Z.of_nat 8) with (2 ^ 64) in E. rewrite Z.mod_small in E by lia. rewrite E by lia. done.
Qed.

(** ** Parsing a complete frame *)

Lemma read_slice_app pre l rest :
  read_slice (pre ++ l ++ rest) (Z.of_nat (length pre)) (Z.of_nat (length l)) = Some l.
Proof.
  unfold read_slice. rewrite !length_app. destruct (Z.leb_spec (Z.of_nat (length pre) + Z.of_nat (length l))
    (Z.of_nat (length pre + (length l + length rest)))); [|lia].
  by rewrite !Nat2Z.id, drop_app_length, take_app_length.
Qed.

(** What is delivered for a payload. *)
Definition deliver (opcode : Z) (payload : bytes) : ws_event :=
  if opcode =? 8 then
    match payload with
    | h :: l :: _ => WsClose (wrap16 (Z.lor (Z.shiftl (cval h) 8) (cval l)))
    | _ => WsClose 1005
    end
  else WsMessage payload opcode.

Lemma parse_frame_core (masked : bool) b0 b1 ext mask raw rest :
  let buf := b0 :: b1 :: ext ++ (if masked then mask else []) ++ raw ++ rest in
  length mask = 4%nat -> Z.of_nat (length raw) <= CSILK_WS_MAX_FRAME_PAYLOAD -> (length ext <= 8)%nat ->
  Z.land (Z.shiftr (cval b1) 7) 1 = (if masked then 1 else 0) ->
  read_length buf (Z.of_nat (length buf)) = Some (inr (Z.of_nat (length raw), 2 + Z.of_nat (length ext))) ->
  csilk_ws_parse_frame true buf =
    Some (deliver (Z.land (cval b0) 15) (if masked then unmask mask raw else raw)).
Proof.
  intros buf Hm Hl He Hb Hr. unfold csilk_ws_parse_frame, CSILK_WS_MAX_FRAME_PAYLOAD in *. cbn zeta.
  assert (length buf = (2 + length ext + length (if masked then mask else []) + length raw + length rest)%nat) as El.
  { subst buf. cbn [length]. rewrite !length_app. lia. }
  destruct (Z.ltb_spec (Z.of_nat (length buf)) 2); [lia|].
  change (byte_at buf 0) with (Some (cval b0)). change (byte_at buf 1) with (Some (cval b1)).
  cbn [mbind option_bind]. rewrite Hr, Hb. cbn [mbind option_bind]. unfold SIZE_MAX.
  assert (forall off, 0 <= off <= 14 -> (Z.of_nat (length raw) >? 64 * 1024 * 1024) || (Z.of_nat (length raw) >? 2 ^ 64 - 1 - off - 1) = false
    /\ wrap64 (off + Z.of_nat (length raw)) = off + Z.of_nat (length raw)) as Hoff.
  { intros off Ho. split; [|apply wrap64_small; lia].
    destruct (Z.gtb_spec (Z.of_nat (length raw)) (64 * 1024 * 1024)), (Z.gtb_spec (Z.of_nat (length raw)) (2 ^ 64 - 1 - off - 1)); done || lia. }
  destruct masked; cbn [Z.eqb Pos.eqb andb].
  - rewrite Hm in El. destruct (Z.ltb_spec (Z.of_nat (length buf)) (2 + Z.of_nat (length ext) + 4)); [lia|].
    replace (2 + Z.of_nat (length ext)) with (Z.of_nat (length (b0 :: b1 :: ext))) by (cbn [length]; lia).
    assert (read_slice buf (Z.of_nat (length (b0 :: b1 :: ext))) 4 = Some mask) as ->
      by (pose proof (read_slice_app (b0 :: b1 :: ext) mask (raw ++ rest)) as E; by rewrite Hm in E).
    cbn [mbind option_bind].
    destruct (Hoff (Z.of_nat (length (b0 :: b1 :: ext)) + 4)) as [-> ->]; [cbn [length]; lia|].
    destruct (Z.ltb_spec (Z.of_nat (length buf)) (Z.of_nat (length (b0 :: b1 :: ext)) + 4 + Z.of_nat (length raw))); [cbn [length] in *; lia|].
    cbn [negb].
    replace (Z.of_nat (length (b0 :: b1 :: ext)) + 4) with (Z.of_nat (length ((b0 :: b1 :: ext) ++ mask)))
      by (rewrite length_app, Hm; lia).
    replace buf with (((b0 :: b1 :: ext) ++ mask) ++ raw ++ rest) by by rewrite <- app_assoc.
    rewrite read_slice_app. cbn [mbind option_bind]. unfold deliver. by destruct (_ =? 8), (unmask mask raw) as [|? [|]].
  - cbn [length] in El. destruct (Hoff (2 + Z.of_nat (length ext))) as [-> ->]; [lia|]. cbn [mbind option_bind].
    destruct (Z.ltb_spec (Z.of_nat (length buf)) (2 + Z.of_nat (length ext) + Z.of_nat (length raw))); [lia|]. cbn [negb].
    replace (2 + Z.of_nat (length ext)) with (Z.of_nat (length (b0 :: b1 :: ext))) by (cbn [length]; lia).
    change buf with ((b0 :: b1 :: ext) ++ raw ++ rest).
    rewrite read_slice_app. cbn [mbind option_bind]. unfold deliver. by destruct (_ =? 8), raw as [|? [|]].
Qed.

(** What [csilk_ws_send] writes is the length of the RFC. *)
Lemma ws_length_rfc len : ws_length_bytes len = chr (rfc_length len).1 :: (rfc_length len).2.
Proof.
  unfold ws_length_bytes, rfc_length. destruct (len <=? 125); [done|]. destruct (len <=? 65535); cbn [fst snd]; [|by rewrite be64_be].
  cbn [be]. rewrite !chr_land_255, Z.shiftr_div_pow2 by lia. change (2 ^ 8) with (256 ^ Z.of_nat 1).
  change (256 ^ Z.of_nat 0) with 1. by rewrite Z.div_1_r.
Qed.

Lemma mask_stream_lookup mask p i : length mask = 4%nat ->
  mask_stream mask p !! i = (fun c => chr (Z.lxor (cval c) (cval (nth (i mod 4) mask NUL)))) <$> p !! i.
Proof.
  revert mask i. induction p as [|c p IH]; intros mask i Hm; destruct mask as [|k0 [|k1 [|k2 [|k3 [|]]]]]; try done.
  cbn [mask_stream]. destruct i as [|i]; [done|]. rewrite !lookup_cons. rewrite IH by done. destruct (p !! i); [|done]. cbn [fmap option_fmap option_map]. do 4 f_equal.
  cbn [app]. change (S i) with (1 + i)%nat. rewrite <- (Nat.Div0.add_mod_idemp_r 1 i 4).
  pose proof (Nat.mod_upper_bound i 4 ltac:(lia)) as Hi. destruct (i `mod` 4)%nat as [|[|[|[|]]]]; done || lia.
Qed.

Lemma length_mask_stream mask p : length mask = 4%nat -> length (mask_stream mask p) = length p.
Proof.
  revert mask. induction p as [|c p IH]; intros [|k mask] Hm; try done. cbn [mask_stream length]. f_equal. apply IH.
  rewrite length_app. cbn in *. lia.
Qed.

Lemma rfc_length_range len : 0 <= len -> 0 <= (rfc_length len).1 <= 127.
Proof. intros H. unfold rfc_length. destruct (Z.leb_spec len 125); [cbn; lia|]. destruct (_ <=? _); cbn; lia. Qed.

Lemma chr_inj_small a b : 0 <= a <= 127 -> 0 <= b <= 127 -> chr a = chr b -> a = b.
Proof. intros Ha Hb E. apply (f_equal cval) in E. rewrite !cval_chr, !Z.mod_small in E by lia. done. Qed.

Lemma unmask_mask mask p : length mask = 4%nat -> unmask mask (mask_stream mask p) = p.
Proof.
  intros Hl. apply list_eq. intros i. unfold unmask. rewrite list_lookup_imap, mask_stream_lookup by done.
  destruct (p !! i) as [c|]; [|done]. cbn. f_equal.
  rewrite cval_chr. set (m := cval (nth _ _ _)). assert (0 <= m < 256) as Hm by apply cval_range.
  pose proof (cval_range c) as Hc. rewrite (Z.mod_small (Z.lxor (cval c) m)).
  - by rewrite Z.lxor_assoc, Z.lxor_nilpotent, Z.lxor_0_r, chr_cval.
  - apply (lxor_bound _ _ 8); [lia|done|done].
Qed.

Lemma ws_length_ext len b ext : ws_length_bytes len = b :: ext -> (length ext <= 8)%nat.
Proof.
  unfold ws_length_bytes. destruct (len <=? 125); [intros [= <- <-]; cbn; lia|].
  destruct (len <=? 65535); intros [= <- <-]; cbn; lia.
Qed.

Lemma low_nibble hi opcode : 0 <= opcode < 16 -> (hi = 0 \/ hi = 128) -> Z.land (cval (chr (hi + opcode))) 15 = opcode.
Proof.
  intros Ho Hh. rewrite cval_chr. change 15 with (Z.ones 4). rewrite Z.land_ones by lia. change (2 ^ 4) with 16.
  destruct Hh as [-> | ->]; Z.div_mod_to_equations; lia.
Qed.

Lemma ws_first_byte opcode : 0 <= opcode < 16 -> chr (Z.lor 128 (Z.land opcode 15)) = chr (128 + opcode).
Proof.
  intros Ho. change 15 with (Z.ones 4). rewrite Z.land_ones, Z.mod_small by lia.
  change 128 with (Z.shiftl 8 4) at 1. rewrite lor_shiftl_add by lia. f_equal.
Qed.

Lemma mask_bit b : 0 <= b <= 127 ->
  Z.land (cval (chr (128 + b))) 127 = b /\ Z.land (Z.shiftr (cval (chr (128 + b))) 7) 1 = 1 /\
  Z.land (cval (chr b)) 127 = b /\ Z.land (Z.shiftr (cval (chr b)) 7) 1 = 0.
Proof.
  intros Hb. rewrite !cval_chr. change 127 with (Z.ones 7).
  assert (forall x, Z.land x 1 = x `mod` 2) as H1 by (intros x; apply (Z.land_ones x 1); lia).
  rewrite !H1, !Z.land_ones, !Z.shiftr_div_pow2 by lia. change (2 ^ 7) with 128.
  split_and!; Z.div_mod_to_equations; lia.
Qed.

(** Every byte inside the received data can be read. *)
Lemma byte_at_in buf i : 0 <= i < Z.of_nat (length buf) -> exists b, byte_at buf i = Some b /\ 0 <= b < 256.
Proof.
  intros Hi. unfold byte_at. destruct (Z.ltb_spec i 0); [lia|].
  destruct (lookup_lt_is_Some_2 buf (Z.to_nat i)) as [c ->]; [lia|]. exists (cval c). split; [done|apply cval_range].
Qed.

Lemma read_be_in buf off n acc :
  0 <= off -> off + Z.of_nat n <= Z.of_nat (length buf) -> 0 <= acc < 2 ^ 64 ->
  exists v, read_be buf off n acc = Some v /\ 0 <= v < 2 ^ 64.
Proof.
  revert off acc. induction n as [|n IH]; intros off acc Ho Hl Ha; [by exists acc|]. cbn [read_be].
  destruct (byte_at_in buf off) as (b & -> & Hb); [lia|]. cbn [mbind option_bind]. apply IH; [lia..|].
  apply lor_bound; [lia|apply wrap64_range|lia].
Qed.

Lemma read_length_in buf :
  2 <= Z.of_nat (length buf) ->
  exists r, read_length buf (Z.of_nat (length buf)) = Some r /\
    forall l off, r = inr (l, off) -> 0 <= l < 2 ^ 64 /\ 2 <= off <= 10 /\ off <= Z.of_nat (length buf).
Proof.
  intros Hl. unfold read_length. destruct (byte_at_in buf 1) as (b1 & -> & Hb); [lia|]. cbn [mbind option_bind].
  assert (0 <= Z.land b1 127 < 128) as Hm.
  { change 127 with (Z.ones 7). rewrite Z.land_ones by lia. by apply Z.mod_pos_bound. }
  destruct (_ =? 126).
  { destruct (Z.ltb_spec (Z.of_nat (length buf)) 4); [by eexists|].
    destruct (byte_at_in buf 2) as (b2 & -> & H2); [lia|]. cbn [mbind option_bind].
    destruct (byte_at_in buf 3) as (b3 & -> & H3); [lia|]. cbn [mbind option_bind].
    eexists; split; [done|]. intros l off [= <- <-]. rewrite lor_shiftl_add by lia. lia. }
  destruct (_ =? 127).
  { destruct (Z.ltb_spec (Z.of_nat (length buf)) 10); [by eexists|].
    destruct (read_be_in buf 2 8 0) as (v & -> & Hv); [lia..|]. cbn [mbind option_bind].
    eexists; split; [done|]. intros l off [= <- <-]. lia. }
  eexists; split; [done|]. intros l off [= <- <-]. lia.
Qed.

(** C20: a client's frame. A masked frame with any payload up to the 64 MiB
    limit, in any of the three length encodings, followed by any bytes, is
    delivered unmasked with its opcode (a close frame as its status code).
    Pings and pongs are delivered like the others: the code does not answer or
    swallow them, as protocols.md says. *)
Theorem ws_client_roundtrip fin opcode mask payload rest :
  0 <= opcode < 16 -> length mask = 4%nat ->
  Z.of_nat (length payload) <= CSILK_WS_MAX_FRAME_PAYLOAD ->
  csilk_ws_parse_frame true (client_frame fin opcode mask payload ++ rest) = Some (deliver opcode payload).
Proof.
  intros Ho Hm Hl. unfold client_frame.
  destruct (ws_length_bytes_spec (Z.of_nat (length payload))) as (b & ext & E & Hb & Hr);
    [unfold CSILK_WS_MAX_FRAME_PAYLOAD in Hl; lia|].
  pose proof (rfc_length_range (Z.of_nat (length payload)) ltac:(lia)) as Hrange. rewrite ws_length_rfc in E.
  pose proof (ws_length_ext (Z.of_nat (length payload)) (chr b) ext ltac:(by rewrite ws_length_rfc)) as Hext.
  destruct (rfc_length _) as [b' ext']. cbn [fst snd] in *. injection E as E ->. apply chr_inj_small in E; [|lia..]. subst b'.
  destruct (mask_bit b Hb) as (B1 & B2 & _).
  assert (length (mask_stream mask payload) = length payload) as Elen by (by apply length_mask_stream).
  cbn [app]. rewrite <- !app_assoc. rewrite (parse_frame_core true _ _ ext mask (mask_stream mask payload) rest);
    [|done|by rewrite Elen|done|done|rewrite Elen; by apply Hr].
  rewrite unmask_mask, low_nibble; [done|done|destruct fin; auto|done].
Qed.

Lemma ws_client_roundtrip_witness :
  csilk_ws_parse_frame true (client_frame true 1 (map chr [1; 2; 3; 250]) (lit "hello, silk") ++ lit "next")
  = Some (WsMessage (lit "hello, silk") 1).
Proof. apply (ws_client_roundtrip true 1); [lia|done|by vm_compute]. Defined.

(** The server's own frames. Whatever [csilk_ws_send] queues is parsed
    back to its payload and opcode, so the two length encoders and decoders of
    the file agree. *)
Theorem ws_server_roundtrip e payload opcode s s' rest :
  0 <= opcode < 16 -> Z.of_nat (length payload) <= CSILK_WS_MAX_FRAME_PAYLOAD ->
  0 <= (csilk_ws_send e payload opcode s).1 -> (csilk_ws_send e payload opcode s).2 = s' ->
  exists frame, queued s' = frame :: queued s /\
    csilk_ws_parse_frame true (frame ++ rest) = Some (deliver opcode payload).
Proof.
  intros Ho Hl Hr <-. exists (ws_frame opcode payload). split.
  - revert Hr. unfold csilk_ws_send, submit. cbn zeta.
    destruct (has_client e); [|done]. destruct (_ >? _); [done|]. destruct (_ && _); [done|].
    destruct (malloc_frame e); [|done]. destruct (malloc_req e); [|done]. destruct (write_result e <? 0); [done|].
    by destruct (_ && _).
  - unfold ws_frame. rewrite ws_first_byte by done.
    destruct (ws_length_bytes_spec (Z.of_nat (length payload))) as (b & ext & E & Hb & Hrd);
      [unfold CSILK_WS_MAX_FRAME_PAYLOAD in Hl; lia|].
    rewrite E. destruct (mask_bit b Hb) as (_ & _ & B1 & B2). cbn [app]. rewrite <- !app_assoc.
    rewrite (parse_frame_core false _ _ ext (replicate 4 NUL) payload rest);
      [|done|done|by eapply ws_length_ext|done|by apply Hrd].
    rewrite low_nibble; [done|done|by right].
Qed.

Definition demo_env : ws_env := mk_env true 10 500 65536 400 true true 0.

Lemma ws_server_roundtrip_witness :
  exists frame, queued (csilk_ws_send demo_env (replicate 300 "x"%char) 2 (mk_conn [] 1 0 0 false false)).2 = [frame] /\
    csilk_ws_parse_frame true (frame ++ []) = Some (WsMessage (replicate 300 "x"%char) 2).
Proof.
  destruct (ws_server_roundtrip demo_env (replicate 300 "x"%char) 2 (mk_conn [] 1 0 0 false false)
    _ [] ltac:(lia) ltac:(by vm_compute) ltac:(by vm_compute) eq_refl) as (f & E1 & E2).
  exists f. split; [exact E1|exact E2].
Defined.

(** C31: memory safety of the parser. On any received bytes the parser reads
    only those bytes and terminates; the 64-bit length field cannot make an
    offset wrap, and a delivered payload was entirely received and is within
    the limit. *)
Theorem ws_parse_safe malloc_ok buf :
  exists ev, csilk_ws_parse_frame malloc_ok buf = Some ev /\
    forall p op, ev = WsMessage p op ->
      Z.of_nat (length p) <= CSILK_WS_MAX_FRAME_PAYLOAD /\ (length p + 2 <= length buf)%nat /\ 0 <= op < 16.
Proof.
  unfold csilk_ws_parse_frame. cbn zeta. destruct (Z.ltb_spec (Z.of_nat (length buf)) 2); [by eexists|].
  destruct (byte_at_in buf 0) as (b0 & -> & H0); [lia|]. cbn [mbind option_bind].
  destruct (byte_at_in buf 1) as (b1 & -> & H1); [lia|]. cbn [mbind option_bind].
  destruct (read_length_in buf) as (r & -> & Hr); [lia|]. cbn [mbind option_bind].
  destruct r as [|[l off]]; [by eexists|]. destruct (Hr l off eq_refl) as (Hlr & Hoff & Hin).
  destruct (_ && _) eqn:Em; [by eexists|].
  set (masked := Z.land (Z.shiftr b1 7) 1 =? 1) in *.
  assert (exists mask, (if masked then read_slice buf off 4 else Some (replicate 4 NUL)) = Some mask /\
    0 <= (if masked then off + 4 else off) <= 14) as (mask & -> & Hoff').
  { destruct masked; cbn in Em; [|eexists; split; [done|lia]]. unfold read_slice.
    destruct (Z.leb_spec (off + 4) (Z.of_nat (length buf))); [eexists; split; [done|lia]|lia]. }
  cbn [mbind option_bind]. set (off' := if masked then off + 4 else off) in *.
  assert (2 <= off') by (unfold off'; destruct masked; lia).
  destruct (_ || _) eqn:Ebig; [by eexists|]. apply orb_false_iff in Ebig as [Eb1 Eb2]. unfold SIZE_MAX in Eb2.
  rewrite wrap64_small by lia. destruct (Z.ltb_spec (Z.of_nat (length buf)) (off' + l)); [by eexists|].
  destruct malloc_ok; [|by eexists]. cbn [negb]. unfold read_slice.
  destruct (Z.leb_spec (off' + l) (Z.of_nat (length buf))); [|lia]. cbn [mbind option_bind].
  set (raw := take (Z.to_nat l) (drop (Z.to_nat off') buf)).
  assert (length raw = Z.to_nat l) as Elr by (subst raw; rewrite length_take, length_drop; lia).
  assert (length (if masked then unmask mask raw else raw) = Z.to_nat l) as Elp
    by (destruct masked; [unfold unmask; by rewrite length_imap|done]).
  destruct (_ =? 8); [destruct (if masked then unmask mask raw else raw) as [|? [|]]; eexists; by split|].
  eexists; split; [done|]. intros p op [= <- <-]. rewrite Elp. split; [lia|]. split; [lia|].
  change 15 with (Z.ones 4). rewrite Z.land_ones by lia. by apply Z.mod_pos_bound.
Qed.

(** C32: no leak in [csilk_ws_send]. A send that fails leaves the
    connection's references, pending writes, heap blocks and queue as they
    were; one that succeeds takes exactly one reference, one pending write and
    two blocks, which the completion callback gives back. *)
Theorem ws_send_balanced e payload opcode s :
  let '(r, s') := csilk_ws_send e payload opcode s in
  ((r = -1) /\ queued s' = queued s /\ refs s' = refs s /\ pending_io s' = pending_io s /\ heap_blocks s' = heap_blocks s) \/
  ((r = 0 \/ r = 1) /\ queued s' = ws_frame opcode payload :: queued s /\
   refs (on_ws_write s') = refs s /\ pending_io (on_ws_write s') = pending_io s /\
   heap_blocks (on_ws_write s') = heap_blocks s /\ (r = 0 -> write_paused s' = true)).
Proof.
  unfold csilk_ws_send, submit. cbn zeta. destruct (has_client e); [|by left]. cbn [negb].
  destruct (_ >? _); [by left|]. destruct (_ && _); [by left|]. destruct (malloc_frame e); [|by left]. cbn [negb].
  destruct (malloc_req e); [|left; cbn; split_and!; lia || done].
  destruct (write_result e <? 0); [left; cbn; split_and!; lia || done|].
  cbn [Z.ltb Z.compare]. destruct (_ && _); right; cbn; split_and!; try done; auto; lia.
Qed.

(** Bytes behind the first frame of a read are dropped. *)
Example ws_second_frame_lost :
  csilk_ws_parse_frame true (client_frame true 1 (replicate 4 NUL) (lit "a") ++ client_frame true 1 (replicate 4 NUL) (lit "b"))
  = Some (WsMessage (lit "a") 1).
Proof. reflexivity. Qed.

(** A close frame without a status makes the server send status 1005. *)
Example ws_close_1005 :
  csilk_ws_parse_frame true (client_frame true 8 (replicate 4 NUL) []) = Some (WsClose 1005) /\
  ws_close_frame 1005 None = map chr [136; 2; 3; 237].
Proof. split; reflexivity. Qed.
