(* ===== verification/Csv.v ===== *)
(** * CSV

    Models src/src/util/csv.c: escaping a field, parsing a field and parsing a
    row into caller-provided arrays.  Every write is checked against the array
    it goes to. *)

From S2P Require Import Prelude.

#[local] Open Scope Z_scope.

Definition DQUOTE : ascii := "034"%char.
Definition LF : ascii := "010"%char.
Definition CRET : ascii := "013"%char.

Definition special (c : ascii) : bool :=
  Ascii.eqb c "," || Ascii.eqb c DQUOTE || Ascii.eqb c LF || Ascii.eqb c CRET.

(** [for (p = in; *p && j < out_sz - 2; p++)] *)
Fixpoint escape_loop (s : bytes) (out_sz : Z) (out : bytes) (j : Z) : option (bytes * Z) :=
  match s with
  | [] => Some (out, j)
  | c :: s' =>
      if j <? wrap64 (out_sz - 2) then
        if Ascii.eqb c DQUOTE then
          out1 ← store j DQUOTE out;
          if j + 1 <? wrap64 (out_sz - 2) then
            out2 ← store (j + 1) DQUOTE out1; escape_loop s' out_sz out2 (j + 2)
          else escape_loop s' out_sz out1 (j + 1)
        else
          out1 ← store j c out; escape_loop s' out_sz out1 (j + 1)
      else Some (out, j)
  end.

(** [snprintf(out, n, "%s", s)] *)
Fixpoint copy_in (s out : bytes) (j : Z) : option (bytes * Z) :=
  match s with
  | [] => Some (out, j)
  | c :: s' => out1 ← store j c out; copy_in s' out1 (j + 1)
  end.
Definition snprintf_s (s out : bytes) (n : Z) : option bytes :=
  '(out1, j) ← copy_in (take (Z.to_nat (n - 1)) s) out 0; store j NUL out1.

(** [out] has [out_sz] bytes; [in] is null or a C string. The result is the
    returned value and the array. *)
Definition csilk_csv_escape (out : bytes) (inp : option bytes) : option (Z * bytes) :=
  let out_sz := Z.of_nat (length out) in
  if out_sz =? 0 then Some (-1, out) else
  match inp with
  | None => out1 ← store 0 NUL out; Some (0, out1)
  | Some s =>
      if negb (existsb special s) then
        out1 ← snprintf_s s out out_sz; Some (Z.of_nat (length s), out1)
      else
        out1 ← store 0 DQUOTE out;
        '(out2, j) ← escape_loop s out_sz out1 1;
        '(out3, j) ← (if j <? wrap64 (out_sz - 1) then o ← store j DQUOTE out2; Some (o, j + 1) else Some (out2, j));
        out4 ← store j NUL out3;
        Some (j, out4)
  end.

(** ** Parsing *)

Definition stop_char (c : ascii) : bool := Ascii.eqb c "," || Ascii.eqb c LF || Ascii.eqb c CRET.

(** The run of an unquoted field. *)
Fixpoint plain_run (line : bytes) : nat :=
  match line with
  | [] => 0
  | c :: l => if stop_char c then 0%nat else S (plain_run l)
  end.

(** [if (oi < out_sz - 1) out[oi++] = c;] *)
Definition push_out (c : ascii) (s : bytes * Z) : option (bytes * Z) :=
  let '(out, oi) := s in
  if oi <? wrap64 (Z.of_nat (length out) - 1) then o ← store oi c out; Some (o, oi + 1) else Some (out, oi).

(** The quoted loop: what is left of the line, the position, the output. *)
Fixpoint quoted_loop (line : bytes) (pos : Z) (s : bytes * Z) : option (bytes * Z) :=
  match line with
  | [] => o ← store s.2 NUL s.1; Some (o, pos)
  | c :: l =>
      if Ascii.eqb c DQUOTE then
        match l with
        | d :: l' =>
            if Ascii.eqb d DQUOTE then s' ← push_out DQUOTE s; quoted_loop l' (pos + 2) s'
            else o ← store s.2 NUL s.1; Some (o, pos + 1)
        | [] => o ← store s.2 NUL s.1; Some (o, pos + 1)
        end
      else s' ← push_out c s; quoted_loop l (pos + 1) s'
  end.

(** The array and the characters consumed; on an empty array the result is -1
    and nothing is consumed. *)
Definition csilk_csv_parse_field (line out : bytes) : option (Z * bytes * Z) :=
  let out_sz := Z.of_nat (length out) in
  if out_sz =? 0 then Some (-1, out, 0) else
  match line with
  | c :: l =>
      if Ascii.eqb c DQUOTE then '(o, pos) ← quoted_loop l 1 (out, 0); Some (0, o, pos)
      else
        let pos := Z.of_nat (plain_run line) in
        let n := if pos <? out_sz - 1 then pos else out_sz - 1 in
        '(o, j) ← copy_in (take (Z.to_nat n) line) out 0;
        o ← store j NUL o; Some (0, o, pos)
  | [] => o ← store 0 NUL out; Some (0, o, 0)
  end.

(** The loop over fields: the rest of the line, the arrays, the count. A round
    that consumes nothing is only possible on a separator, so the length and
    the number of arrays bound the rounds. *)
Fixpoint row_loop (fuel : nat) (line : bytes) (outs : list bytes) (count : nat) : option (list bytes * nat) :=
  match fuel with
  | O => None
  | S fuel' =>
      match line with
      | [] => Some (outs, count)
      | _ =>
          if (length outs <=? count)%nat then Some (outs, count) else
          out ← outs !! count;
          '(_, out', consumed) ← csilk_csv_parse_field line out;
          let outs' := <[count := out']> outs in
          let rest := drop (Z.to_nat consumed) line in
          match rest with
          | [] => Some (outs', S count)
          | c :: rest' =>
              if Ascii.eqb c LF || Ascii.eqb c CRET then Some (outs', S count)
              else if Ascii.eqb c "," then row_loop fuel' rest' outs' (S count)
              else row_loop fuel' rest outs' (S count)
          end
      end
  end.

(** [outs] are the [max_fields] arrays; -1 for none, as for null arguments. *)
Definition csilk_csv_parse_row_ext (line : bytes) (outs : list bytes) : option (Z * list bytes) :=
  match outs with
  | [] => Some (-1, outs)
  | _ => '(outs', n) ← row_loop (S (length line + length outs)) line outs 0; Some (Z.of_nat n, outs')
  end.

Definition csilk_csv_parse_row (line : bytes) (outs : list bytes) : option (Z * list bytes) :=
  csilk_csv_parse_row_ext line outs.

(** ** The text of a field *)

Definition dbl (s : bytes) : bytes := flat_map (fun c => if Ascii.eqb c DQUOTE then [DQUOTE; DQUOTE] else [c]) s.

Definition csv_text (s : bytes) : bytes :=
  if existsb special s then DQUOTE :: dbl s ++ [DQUOTE] else s.

Lemma dbl_cons c s : dbl (c :: s) = (if Ascii.eqb c DQUOTE then [DQUOTE; DQUOTE] else [c]) ++ dbl s.
Proof. done. Qed.

(** Writing [l] behind the prefix [pre]. *)
Definition written (pre l rest : bytes) : bytes := pre ++ l ++ drop (length l) rest.

Lemma written_cons pre c l x rest : written pre (c :: l) (x :: rest) = written (pre ++ [c]) l rest.
Proof. unfold written. by rewrite <- app_assoc. Qed.

Lemma store_written c pre x rest :
  store (Z.of_nat (length pre)) c (pre ++ x :: rest) = Some ((pre ++ [c]) ++ rest).
Proof. by rewrite store_app, <- app_assoc. Qed.

Lemma length_snoc {A} (l : list A) x : Z.of_nat (length (l ++ [x])) = Z.of_nat (length l) + 1.
Proof. rewrite length_app. cbn [length]. lia. Qed.

Lemma copy_in_spec s pre rest :
  (length s <= length rest)%nat ->
  copy_in s (pre ++ rest) (Z.of_nat (length pre)) = Some (written pre s rest, Z.of_nat (length (pre ++ s))).
Proof.
  revert pre rest. induction s as [|c s IH]; intros pre rest Hl; cbn [copy_in].
  - unfold written. cbn [length app]. by rewrite drop_0, app_nil_r.
  - destruct rest as [|x rest]; cbn [length] in Hl; [lia|]. rewrite store_written. cbn [mbind option_bind].
    rewrite <- (length_snoc pre c), IH, written_cons by lia. by rewrite <- app_assoc.
Qed.

Lemma escape_loop_spec s pre rest sz :
  sz = Z.of_nat (length (pre ++ rest)) -> sz < 2 ^ 64 -> (length (dbl s) + 2 <= length rest)%nat ->
  escape_loop s sz (pre ++ rest) (Z.of_nat (length pre)) =
  Some (written pre (dbl s) rest, Z.of_nat (length (pre ++ dbl s))).
Proof.
  intros Esz Hsz. revert pre rest Esz. induction s as [|c s IH]; intros pre rest Esz Hl; cbn [escape_loop].
  { unfold written. cbn [dbl flat_map length app]. by rewrite drop_0, app_nil_r. }
  rewrite dbl_cons, length_app in Hl. rewrite length_app in Esz. rewrite wrap64_small by lia.
  destruct (Z.ltb_spec (Z.of_nat (length pre)) (sz - 2)); [|destruct (Ascii.eqb c DQUOTE); cbn [length] in Hl; lia].
  rewrite dbl_cons. destruct (Ascii.eqb c DQUOTE); cbn [length] in Hl.
  - destruct rest as [|x [|y rest]]; cbn [length] in *; [lia..|]. rewrite store_written. cbn [mbind option_bind].
    destruct (Z.ltb_spec (Z.of_nat (length pre) + 1) (sz - 2)); [|lia].
    rewrite <- (length_snoc pre DQUOTE), store_written. cbn [mbind option_bind].
    replace (Z.of_nat (length pre) + 2) with (Z.of_nat (length ((pre ++ [DQUOTE]) ++ [DQUOTE]))) by (rewrite !length_snoc; lia).
    rewrite IH by (rewrite ?length_app; cbn [length]; lia). cbn [app]. rewrite !written_cons. by rewrite <- !app_assoc.
  - destruct rest as [|x rest]; cbn [length] in *; [lia|]. rewrite store_written. cbn [mbind option_bind].
    rewrite <- (length_snoc pre c).
    rewrite IH by (rewrite ?length_app; cbn [length]; lia). cbn [app]. rewrite !written_cons. by rewrite <- !app_assoc.
Qed.

Lemma length_dbl_le s : (length s <= length (dbl s) <= 2 * length s)%nat.
Proof. induction s as [|c s IH]; [done|]. rewrite dbl_cons, length_app. destruct (Ascii.eqb c DQUOTE); cbn [length]; lia. Qed.

Lemma csv_escape_spec s out :
  (length (csv_text s) < length out)%nat -> Z.of_nat (length out) < 2 ^ 64 ->
  csilk_csv_escape out (Some s) =
    Some (Z.of_nat (length (csv_text s)), csv_text s ++ NUL :: drop (S (length (csv_text s))) out).
Proof.
  intros Hl Hsz. unfold csilk_csv_escape, csv_text in *. cbn zeta.
  destruct (Z.eqb_spec (Z.of_nat (length out)) 0); [lia|]. destruct (existsb special s); cbn [negb].
  - cbn [length] in Hl. rewrite length_app in Hl. cbn [length] in Hl.
    destruct out as [|x out]; cbn [length] in *; [lia|].
    change (store 0 DQUOTE (x :: out)) with (Some (DQUOTE :: out)). cbn [mbind option_bind].
    pose proof (escape_loop_spec s [DQUOTE] out (Z.of_nat (S (length out))) eq_refl Hsz ltac:(lia)) as E.
    cbn [app length] in E. change (Z.of_nat 1) with 1 in E. rewrite E. cbn [mbind option_bind].
    rewrite wrap64_small by lia. destruct (Z.ltb_spec (Z.of_nat (S (length (dbl s)))) (Z.of_nat (S (length out)) - 1)); [|lia].
    unfold written. destruct (drop (length (dbl s)) out) as [|y [|z r]] eqn:Ed.
    { apply (f_equal length) in Ed. rewrite length_drop in Ed. cbn in Ed. lia. }
    { apply (f_equal length) in Ed. rewrite length_drop in Ed. cbn in Ed. lia. }
    rewrite app_assoc. change (S (length (dbl s))) with (length ([DQUOTE] ++ dbl s)). rewrite store_written.
    cbn [mbind option_bind]. rewrite <- (length_snoc _ DQUOTE), store_app. cbn [mbind option_bind].
    assert (drop (S (S (length (dbl s ++ [DQUOTE])))) (x :: out) = r) as ->.
    { cbn [drop]. rewrite length_app. cbn [length].
      replace r with (drop 2 (y :: z :: r)) by done. rewrite <- Ed, drop_drop. f_equal. lia. }
    done.
  - unfold snprintf_s. rewrite take_ge by lia.
    pose proof (copy_in_spec s [] out ltac:(lia)) as E. cbn [app length] in E. change (Z.of_nat 0) with 0 in E. rewrite E. cbn [mbind option_bind].
    unfold written. cbn [app]. destruct (drop (length s) out) as [|y r] eqn:Ed.
    { apply (f_equal length) in Ed. rewrite length_drop in Ed. cbn in Ed. lia. }
    rewrite store_app. cbn [mbind option_bind]. do 4 f_equal.
    replace r with (drop 1 (y :: r)) by done. rewrite <- Ed, drop_drop. f_equal. lia.
Qed.

(** ** Reading a field back *)

Lemma push_out_spec c pre x rest :
  rest <> [] -> Z.of_nat (length (pre ++ x :: rest)) < 2 ^ 64 ->
  push_out c (pre ++ x :: rest, Z.of_nat (length pre)) =
  Some ((pre ++ [c]) ++ rest, Z.of_nat (length (pre ++ [c]))).
Proof.
  intros Hr Hl. unfold push_out. rewrite wrap64_small by (rewrite length_app in *; cbn [length] in *; lia).
  assert (0 < length rest)%nat by (destruct rest; [done|cbn; lia]).
  destruct (Z.ltb_spec (Z.of_nat (length pre)) (Z.of_nat (length (pre ++ x :: rest)) - 1));
    [|rewrite length_app in *; cbn [length] in *; lia].
  rewrite store_written. cbn [mbind option_bind]. by rewrite length_snoc.
Qed.

(** The line continues with something that is not a quote. *)
Definition no_quote (tail : bytes) : Prop := match tail with c :: _ => c <> DQUOTE | [] => True end.

Lemma quoted_loop_spec s pos pre rest tail :
  (length s < length rest)%nat -> Z.of_nat (length (pre ++ rest)) < 2 ^ 64 -> no_quote tail ->
  quoted_loop (dbl s ++ DQUOTE :: tail) pos (pre ++ rest, Z.of_nat (length pre)) =
  Some (pre ++ s ++ NUL :: drop (S (length s)) rest, pos + Z.of_nat (length (dbl s)) + 1).
Proof.
  revert pos pre rest. induction s as [|c s IH]; intros pos pre rest Hl Hsz Ht.
  - destruct rest as [|x rest]; cbn [length] in *; [lia|]. cbn [dbl flat_map app quoted_loop].
    rewrite Ascii.eqb_refl. cbn [fst snd length drop app]. rewrite store_app. cbn [mbind option_bind].
    replace (pos + Z.of_nat 0 + 1) with (pos + 1) by lia. rewrite drop_0.
    destruct tail as [|d tail]; [done|]. by destruct (Ascii.eqb_spec d DQUOTE).
  - destruct rest as [|x [|y rest]]; cbn [length] in *; [lia..|]. rewrite dbl_cons.
    assert (forall p', quoted_loop (dbl s ++ DQUOTE :: tail) p' ((pre ++ [c]) ++ y :: rest, Z.of_nat (length (pre ++ [c])))
      = Some (pre ++ (c :: s) ++ NUL :: drop (S (S (length s))) (x :: y :: rest), p' + Z.of_nat (length (dbl s)) + 1)) as Hih.
    { intros p'. rewrite IH; [by rewrite <- app_assoc|cbn [length]; lia| |done].
      rewrite !length_app in *. cbn [length] in *. lia. }
    destruct (Ascii.eqb_spec c DQUOTE) as [->|Hne].
    + cbn [app quoted_loop]. rewrite !Ascii.eqb_refl, push_out_spec by done. cbn [mbind option_bind].
      rewrite Hih. do 2 f_equal. cbn [length]. lia.
    + cbn [app quoted_loop]. destruct (Ascii.eqb_spec c DQUOTE); [done|]. rewrite push_out_spec by done. cbn [mbind option_bind].
      rewrite Hih. do 2 f_equal. cbn [length]. lia.
Qed.

(** The field ends at the end of the line or at a separator. *)
Definition field_end (tail : bytes) : Prop := match tail with c :: _ => stop_char c = true | [] => True end.

Lemma field_end_no_quote tail : field_end tail -> no_quote tail.
Proof. destruct tail as [|c tail]; [done|]. by intros H ->. Qed.

Lemma plain_run_spec s tail : existsb special s = false -> field_end tail -> plain_run (s ++ tail) = length s.
Proof.
  intros Hs Ht. induction s as [|c s IH]; cbn.
  - destruct tail as [|d tail]; [done|]. cbn in *. by rewrite Ht.
  - cbn in Hs. apply orb_false_iff in Hs as [Hc Hs]. rewrite IH by done.
    unfold special in Hc. unfold stop_char. destruct (Ascii.eqb c ","), (Ascii.eqb c LF), (Ascii.eqb c CRET), (Ascii.eqb c DQUOTE); done.
Qed.

Lemma parse_field_spec s out tail :
  (length s < length out)%nat -> Z.of_nat (length out) < 2 ^ 64 -> field_end tail ->
  csilk_csv_parse_field (csv_text s ++ tail) out =
  Some (0, s ++ NUL :: drop (S (length s)) out, Z.of_nat (length (csv_text s))).
Proof.
  intros Hl Hsz Ht. unfold csilk_csv_parse_field, csv_text. cbn zeta.
  destruct (Z.eqb_spec (Z.of_nat (length out)) 0); [lia|]. destruct (existsb special s) eqn:Es.
  - cbn [app]. rewrite Ascii.eqb_refl, <- app_assoc. cbn [app].
    pose proof (quoted_loop_spec s 1 [] out tail Hl Hsz (field_end_no_quote _ Ht)) as E. cbn [app length] in E.
    change (Z.of_nat 0) with 0 in E. rewrite E. cbn [mbind option_bind]. do 2 f_equal. cbn [length]. rewrite length_app. cbn [length]. lia.
  - destruct out as [|x out']; [done|]. set (out := x :: out') in *.
    assert (copy_in s out 0 = Some (written [] s out, Z.of_nat (length s))) as Ecp
      by (apply (copy_in_spec s [] out); lia).
    assert (store (Z.of_nat (length s)) NUL (written [] s out) = Some (s ++ NUL :: drop (S (length s)) out)) as Est.
    { unfold written. cbn [app]. destruct (drop (length s) out) as [|y r] eqn:Ed.
      { apply (f_equal length) in Ed. rewrite length_drop in Ed. cbn [length] in Ed. lia. }
      rewrite store_app. do 3 f_equal. replace r with (drop 1 (y :: r)) by done. rewrite <- Ed, drop_drop. f_equal. lia. }
    destruct (s ++ tail) as [|c l] eqn:El.
    { apply app_eq_nil in El as [-> ->]. done. }
    assert (Ascii.eqb c DQUOTE = false) as ->.
    { destruct s as [|d s]; cbn in El; [subst tail; cbn in Ht; by destruct (Ascii.eqb_spec c DQUOTE) as [->|]|].
      injection El as -> <-. cbn in Es. apply orb_false_iff in Es as [Es _]. unfold special in Es.
      by destruct (Ascii.eqb c ","), (Ascii.eqb c DQUOTE). }
    rewrite <- El, plain_run_spec by done.
    assert ((if Z.of_nat (length s) <? Z.of_nat (length out) - 1 then Z.of_nat (length s) else Z.of_nat (length out) - 1)
      = Z.of_nat (length s)) as -> by (destruct (Z.ltb_spec (Z.of_nat (length s)) (Z.of_nat (length out) - 1)); lia).
    rewrite Nat2Z.id, take_app_length, Ecp. cbn [mbind option_bind]. by rewrite Est.
Qed.

(** ** Rows *)

Fixpoint row_text (fields : list bytes) : bytes :=
  match fields with
  | [] => []
  | [f] => csv_text f
  | f :: fs => csv_text f ++ ","%char :: row_text fs
  end.

Lemma csv_text_nonempty f : f <> [] -> csv_text f <> [].
Proof. unfold csv_text. destruct (existsb special f); done. Qed.

(** One round on a line that starts with the text of [f]. *)
Lemma row_step fuel f tail pre o rest :
  (length f < length o)%nat -> Z.of_nat (length o) < 2 ^ 64 -> field_end tail -> csv_text f ++ tail <> [] ->
  row_loop (S fuel) (csv_text f ++ tail) (pre ++ o :: rest) (length pre) =
  let outs' := pre ++ (f ++ NUL :: drop (S (length f)) o) :: rest in
  match tail with
  | [] => Some (outs', S (length pre))
  | c :: tail' => if Ascii.eqb c LF || Ascii.eqb c CRET then Some (outs', S (length pre))
                  else row_loop fuel tail' outs' (S (length pre))
  end.
Proof.
  intros Hl Hsz Ht Hne. cbn [row_loop]. rewrite (proj2 (Nat.leb_gt _ _)) by (rewrite length_app; cbn [length]; lia).
  rewrite lookup_app_r, Nat.sub_diag by lia. cbn [lookup list_lookup mbind option_bind].
  rewrite (parse_field_spec f o tail Hl Hsz Ht). cbn [mbind option_bind].
  rewrite insert_app_r_alt, Nat.sub_diag by lia. cbn [list_insert]. rewrite Nat2Z.id, drop_app_length. cbn zeta.
  destruct (csv_text f ++ tail) as [|c0 l0]; [done|]. destruct tail as [|c tail]; [done|]. cbn in Ht.
  destruct (_ || _) eqn:Enl; [done|]. unfold stop_char in Ht. rewrite <- orb_assoc, Enl, orb_false_r in Ht. by rewrite Ht.
Qed.

(** The array has room for the field and its terminator. *)
Definition fits (f out : bytes) : Prop := (length f < length out)%nat /\ Z.of_nat (length out) < 2 ^ 64.
(** The array starts with the field and its terminator. *)
Definition holds (f out : bytes) : Prop := take (S (length f)) out = f ++ [NUL].

Lemma holds_written f r : holds f (f ++ NUL :: r).
Proof.
  unfold holds. replace (f ++ NUL :: r) with ((f ++ [NUL]) ++ r) by by rewrite <- app_assoc.
  replace (S (length f)) with (length (f ++ [NUL])) by (rewrite length_app; cbn; lia). apply take_app_length.
Qed.

Lemma row_loop_spec fields pre outs rest fuel :
  fields <> [] -> last fields <> Some [] -> (length (row_text fields) < fuel)%nat -> Forall2 fits fields outs ->
  exists outs', row_loop fuel (row_text fields) (pre ++ outs ++ rest) (length pre) =
    Some (pre ++ outs' ++ rest, (length pre + length fields)%nat) /\ Forall2 holds fields outs'.
Proof.
  intros Hne Hlast Hf Hfit. revert pre fuel Hne Hlast Hf. induction Hfit as [|f o fields outs [Hl Hsz] Hfit IH];
    intros pre fuel Hne Hlast Hf; [done|]. destruct fuel as [|fuel]; [lia|].
  destruct fields as [|g fields].
  - inversion Hfit; subst. cbn [row_text]. exists [f ++ NUL :: drop (S (length f)) o].
    split; [|repeat constructor; by apply holds_written].
    rewrite <- (app_nil_r (csv_text f)). cbn [app]. rewrite row_step; [|done|done|done|].
    + cbn [length]. cbn zeta. do 2 f_equal. lia.
    + rewrite app_nil_r. apply csv_text_nonempty. intros ->. by apply Hlast.
  - change (row_text (f :: g :: fields)) with (csv_text f ++ ","%char :: row_text (g :: fields)) in *.
    rewrite length_app in Hf. cbn [length] in Hf. cbn [app].
    rewrite row_step; [|done|done|done|by destruct (csv_text f)]. cbn zeta.
    destruct (IH (pre ++ [f ++ NUL :: drop (S (length f)) o]) fuel) as (outs' & E & Hh); [done|done|lia|].
    exists ((f ++ NUL :: drop (S (length f)) o) :: outs'). split; [|constructor; [by apply holds_written|done]].
    rewrite length_app, <- !app_assoc, Nat.add_1_r in E. cbn [app] in E. cbn [app].
    change (Ascii.eqb "," LF || Ascii.eqb "," CRET) with false. cbn beta iota. rewrite E. do 2 f_equal. cbn [length]. lia.
Qed.

(** A program that writes a row: each field is escaped into a buffer of its
    own, and what [csilk_csv_escape] reports is joined by commas. *)
Fixpoint write_row (fields bufs : list bytes) : option bytes :=
  match fields, bufs with
  | [], _ => Some []
  | f :: fs, b :: bs =>
      '(n, out) ← csilk_csv_escape b (Some f);
      row ← write_row fs bs;
      Some (take (Z.to_nat n) out ++ match fs with [] => [] | _ => ","%char :: row end)
  | _, _ => None
  end.

(** A C string, and a buffer with room for its text and the terminator. *)
Definition room (f b : bytes) : Prop := nul_free f /\ (length (csv_text f) < length b)%nat /\ Z.of_nat (length b) < 2 ^ 64.

Lemma write_row_text fields bufs : Forall2 room fields bufs -> write_row fields bufs = Some (row_text fields).
Proof.
  induction 1 as [|f b fs bs (_ & Hl & Hb) _ IH]; [done|]. cbn [write_row]. rewrite (csv_escape_spec f b Hl Hb), IH. cbn [mbind option_bind].
  rewrite Nat2Z.id, take_app_length. destruct fs; [by rewrite app_nil_r|done].
Qed.


Definition demo_fields : list bytes := [lit "a"; lit "x,y" ++ DQUOTE :: lit "z"; []; lit "end"].
Definition demo_row : bytes := lit "a," ++ DQUOTE :: lit "x,y" ++ DQUOTE :: DQUOTE :: lit "z" ++ DQUOTE :: lit ",,end".


(** Escaping. With room for the text and a terminator,
    [csilk_csv_escape] writes exactly the field when it has no comma, quote or
    line break, and otherwise the field in quotes with its quotes doubled, and
    returns that length; [csilk_csv_parse_field] on that text, up to a
    separator or the end of the line, gives the field back and consumes
    exactly the text. *)
Theorem csv_field_roundtrip s out buf tail :
  (length (csv_text s) < length out)%nat -> Z.of_nat (length out) < 2 ^ 64 ->
  fits s buf -> field_end tail ->
  exists out' buf', csilk_csv_escape out (Some s) = Some (Z.of_nat (length (csv_text s)), out') /\
    holds (csv_text s) out' /\
    csilk_csv_parse_field (csv_text s ++ tail) buf = Some (0, buf', Z.of_nat (length (csv_text s))) /\
    holds s buf'.
Proof.
  intros Ho Hsz [Hl Hb] Ht. rewrite (csv_escape_spec s out Ho Hsz), (parse_field_spec s buf tail Hl Hb Ht).
  eexists _, _. split_and!; [done|apply holds_written|done|apply holds_written].
Qed.

Lemma csv_field_roundtrip_witness :
  exists out' buf', csilk_csv_escape (replicate 12 "#"%char) (Some (lit "x,y" ++ [DQUOTE])) = Some (7, out') /\
    cstr out' = DQUOTE :: lit "x,y" ++ [DQUOTE; DQUOTE; DQUOTE] /\
    csilk_csv_parse_field (csv_text (lit "x,y" ++ [DQUOTE]) ++ lit ",next") (replicate 5 "."%char) = Some (0, buf', 7) /\
    cstr buf' = lit "x,y" ++ [DQUOTE].
Proof.
  destruct (csv_field_roundtrip (lit "x,y" ++ [DQUOTE]) (replicate 12 "#"%char) (replicate 5 "."%char) (lit ",next"))
    as (o & b & E1 & _ & E2 & _).
  - cbn. lia.
  - by vm_compute.
  - by vm_compute.
  - done.
  - exists o, b. split; [exact E1|]. split; [vm_compute in E1; injection E1 as <-; reflexivity|].
    split; [exact E2|]. vm_compute in E2. injection E2 as <-. reflexivity.
Defined.

(** With an array of one byte the bound [out_sz - 2] wraps around and the
    quoted text is written past the array. *)
Example csv_escape_one_byte : csilk_csv_escape [NUL] (Some (lit ",")) = None.
Proof. reflexivity. Qed.

(** A trailing empty field is not reported. *)
Example csv_trailing_empty :
  exists outs', csilk_csv_parse_row_ext (lit "a,") [replicate 4 "#"%char; replicate 4 "#"%char] = Some (1, outs').
Proof. by eexists. Qed.
