(* ===== verification/LfQueue.v ===== *)
(** * The lock-free queue

    Models src/src/core/primitives/lfqueue.h: the intrusive queue with many
    producers and one consumer that carries tasks to the event loops and log
    records to the logger.  A node is an address; [next] maps a node to its
    successor, an absent entry is a null pointer.  Every atomic access is one
    step, and steps of producers and of the consumer interleave arbitrarily
    (sequentially consistent interleavings; the acquire/release pairs of the
    source are not weakened further).  [q->tail] belongs to the consumer, so
    its updates are part of the neighbouring step. *)

From stdpp Require Import gmap.
From S2P Require Import Prelude.

(** ** State *)

Definition node := positive.
Definition stub : node := 1%positive.

(** A producer inside [csilk_lfq_enqueue], before its exchange and before
    its link. *)
Inductive producer := PCleared (n : node) | PExchanged (prev n : node).

(** The consumer inside [csilk_lfq_dequeue]: before the second load of
    [next], before the load of [head], and before the three accesses of its own
    enqueue of the stub and the final load. *)
Inductive consumer :=
| CIdle
| CLoadNext (t : node)
| CLoadHead (t : node)
| CClear (t : node)
| CExchange (t : node)
| CLink (t prev : node)
| CReload (t : node).

Record csilk_lfqueue_t := mk_lfq {
  head : node;
  tail : node;
  next : gmap node node;
  prods : gmap nat producer;
  cons : consumer;
  enqd : list node;
  deqd : list node;
}.

Definition csilk_lfq_init : csilk_lfqueue_t := mk_lfq stub stub ∅ ∅ CIdle [] [].

(** Nodes exchanged in and not yet returned. *)
Definition contents (s : csilk_lfqueue_t) : list node := drop (length (deqd s)) (enqd s).

Definition set_next (s : csilk_lfqueue_t) (nx : gmap node node) : csilk_lfqueue_t :=
  mk_lfq (head s) (tail s) nx (prods s) (cons s) (enqd s) (deqd s).
Definition set_prods (s : csilk_lfqueue_t) (p : gmap nat producer) : csilk_lfqueue_t :=
  mk_lfq (head s) (tail s) (next s) p (cons s) (enqd s) (deqd s).
Definition set_cons (s : csilk_lfqueue_t) (c : consumer) : csilk_lfqueue_t :=
  mk_lfq (head s) (tail s) (next s) (prods s) c (enqd s) (deqd s).
Definition set_tail (s : csilk_lfqueue_t) (t : node) : csilk_lfqueue_t :=
  mk_lfq (head s) t (next s) (prods s) (cons s) (enqd s) (deqd s).
Definition set_head (s : csilk_lfqueue_t) (h : node) : csilk_lfqueue_t :=
  mk_lfq h (tail s) (next s) (prods s) (cons s) (enqd s) (deqd s).

(** ** Producers: [csilk_lfq_enqueue] *)

(** [atomic_store(&n->next, NULL)] *)
Definition enq_clear (i : nat) (n : node) (s : csilk_lfqueue_t) : csilk_lfqueue_t :=
  set_prods (set_next s (delete n (next s))) (<[i := PCleared n]> (prods s)).

(** [prev = atomic_exchange(&q->head, n)] *)
Definition enq_exchange (i : nat) (n : node) (s : csilk_lfqueue_t) : csilk_lfqueue_t :=
  mk_lfq n (tail s) (next s) (<[i := PExchanged (head s) n]> (prods s)) (cons s) (enqd s ++ [n]) (deqd s).

(** [atomic_store(&prev->next, n)] *)
Definition enq_link (i : nat) (prev n : node) (s : csilk_lfqueue_t) : csilk_lfqueue_t :=
  set_prods (set_next s (<[prev := n]> (next s))) (delete i (prods s)).

(** ** Consumer: [csilk_lfq_dequeue] *)

Definition ret_null (s : csilk_lfqueue_t) : csilk_lfqueue_t * option (option node) := (set_cons s CIdle, Some None).
Definition ret_node (t nx : node) (s : csilk_lfqueue_t) : csilk_lfqueue_t * option (option node) :=
  (mk_lfq (head s) nx (next s) (prods s) CIdle (enqd s) (deqd s ++ [t]), Some (Some t)).
Definition goes (c : consumer) (s : csilk_lfqueue_t) : csilk_lfqueue_t * option (option node) := (set_cons s c, None).

(** One atomic access of the consumer; the second component is what the call
    returns, if it returns. *)
Definition deq_step (s : csilk_lfqueue_t) : csilk_lfqueue_t * option (option node) :=
  match cons s with
  | CIdle =>
      let t := tail s in
      if decide (t = stub) then
        match next s !! t with
        | None => ret_null s
        | Some x => goes (CLoadNext x) (set_tail s x)
        end
      else
        match next s !! t with
        | Some nx => ret_node t nx s
        | None => goes (CLoadHead t) s
        end
  | CLoadNext t =>
      match next s !! t with
      | Some nx => ret_node t nx s
      | None => goes (CLoadHead t) s
      end
  | CLoadHead t => if decide (t = head s) then goes (CClear t) s else ret_null s
  | CClear t => goes (CExchange t) (set_next s (delete stub (next s)))
  | CExchange t => goes (CLink t (head s)) (set_head s stub)
  | CLink t prev => goes (CReload t) (set_next s (<[prev := stub]> (next s)))
  | CReload t =>
      match next s !! t with
      | Some nx => ret_node t nx s
      | None => ret_null s
      end
  end.

(** ** Interleavings *)

(** A producer may start with a node that is not in the queue, not the stub
    and not in the hands of another producer. *)
Definition may_enqueue (s : csilk_lfqueue_t) (n : node) : Prop :=
  n <> stub /\ n ∉ contents s /\ forall j, prods s !! j <> Some (PCleared n).

Inductive step : csilk_lfqueue_t -> csilk_lfqueue_t -> Prop :=
| step_clear i n s : prods s !! i = None -> may_enqueue s n -> step s (enq_clear i n s)
| step_exchange i n s : prods s !! i = Some (PCleared n) -> step s (enq_exchange i n s)
| step_link i prev n s : prods s !! i = Some (PExchanged prev n) -> step s (enq_link i prev n s)
| step_dequeue s : step s (deq_step s).1.

Inductive reachable : csilk_lfqueue_t -> Prop :=
| reach_init : reachable csilk_lfq_init
| reach_step s s' : reachable s -> step s s' -> reachable s'.

(** ** Invariant *)

(** [b] follows [a] in the chain. *)
Definition follows (ch : list node) (a b : node) : Prop := exists i, ch !! i = Some a /\ ch !! S i = Some b.

(** The link a producer ([Some i]) or the consumer ([None]) still has to make. *)
Definition pend (s : csilk_lfqueue_t) (i : option nat) : option (node * node) :=
  match i with
  | Some j => match prods s !! j with Some (PExchanged p n) => Some (p, n) | _ => None end
  | None => match cons s with CLink _ p => Some (p, stub) | _ => None end
  end.

(** What holds at each point of the consumer's call. *)
Definition cons_ok (s : csilk_lfqueue_t) (ch : list node) : Prop :=
  match cons s with
  | CIdle => True
  | CLoadNext t | CLoadHead t | CReload t | CLink t _ => t = tail s /\ t <> stub
  | CClear t => t = tail s /\ t <> stub /\ stub ∉ ch
  | CExchange t => t = tail s /\ t <> stub /\ stub ∉ ch /\ next s !! stub = None
  end.

(** The linked structure. [ch]: the nodes from [tail] to [head] in the order
    of their exchanges; [pd]: the links still to be made. *)
Record core (hd tl : node) (nx : gmap node node) (pd : option nat -> option (node * node)) (ch : list node) : Prop := mk_core {
  core_tail : list.head ch = Some tl;
  core_head : last ch = Some hd;
  core_nodup : NoDup ch;
  core_end : nx !! hd = None;
  core_links : forall a b, follows ch a b -> nx !! a = Some b \/ (nx !! a = None /\ exists i, pd i = Some (a, b));
  core_pend : forall i a b, pd i = Some (a, b) -> follows ch a b /\ nx !! a = None;
  core_unique : forall i j a a' b, pd i = Some (a, b) -> pd j = Some (a', b) -> i = j;
}.

Record inv (s : csilk_lfqueue_t) (ch : list node) : Prop := mk_inv {
  inv_core : core (head s) (tail s) (next s) (pend s) ch;
  inv_history : enqd s = deqd s ++ filter (fun x => x <> stub) ch;
  inv_cleared : forall i n, prods s !! i = Some (PCleared n) -> n ∉ ch /\ n <> stub /\ next s !! n = None;
  inv_own : forall i j n, prods s !! i = Some (PCleared n) -> prods s !! j = Some (PCleared n) -> i = j;
  inv_cons : cons_ok s ch;
}.

(** ** Chains *)

Lemma follows_cons t ch a b : follows (t :: ch) a b <-> (a = t /\ list.head ch = Some b) \/ follows ch a b.
Proof.
  rewrite head_lookup. split.
  - intros ([|i] & H1 & H2); cbn in H1, H2; [left; by injection H1 as ->|right; by exists i].
  - intros [[-> H]|(i & H1 & H2)]; [by exists 0|by exists (S i)].
Qed.

Lemma follows_snoc ch n a b : follows (ch ++ [n]) a b <-> follows ch a b \/ (last ch = Some a /\ b = n).
Proof.
  rewrite last_lookup. split.
  - intros (i & H1 & H2). apply lookup_lt_Some in H2 as Hlt. rewrite length_app in Hlt. cbn in Hlt.
    rewrite lookup_app_l in H1 by lia. destruct (decide (S i = length ch)) as [E|E].
    + right. rewrite <- E. split; [done|]. rewrite E, list_lookup_middle in H2 by done. by injection H2.
    + left. exists i. split; [done|]. by rewrite lookup_app_l in H2 by lia.
  - intros [(i & H1 & H2)|[H ->]].
    + exists i. split; by apply lookup_app_l_Some.
    + apply lookup_lt_Some in H as Hlt. exists (pred (length ch)). split; [by apply lookup_app_l_Some|].
      rewrite Nat.succ_pred_pos by lia. by apply list_lookup_middle.
Qed.

Lemma follows_fun ch a b b' : NoDup ch -> follows ch a b -> follows ch a b' -> b = b'.
Proof.
  intros Hn (i & H1 & H2) (j & H3 & H4). pose proof (NoDup_lookup ch i j a Hn H1 H3) as ->. congruence.
Qed.

Lemma follows_inj ch a a' b : NoDup ch -> follows ch a b -> follows ch a' b -> a = a'.
Proof.
  intros Hn (i & H1 & H2) (j & H3 & H4). pose proof (NoDup_lookup ch (S i) (S j) b Hn H2 H4) as [= ->]. congruence.
Qed.

Lemma follows_not_last ch a b : NoDup ch -> follows ch a b -> last ch <> Some a.
Proof.
  intros Hn (i & H1 & H2) H. rewrite last_lookup in H. pose proof (NoDup_lookup ch _ _ a Hn H1 H) as E.
  apply lookup_lt_Some in H2. lia.
Qed.

Lemma follows_in ch a b : follows ch a b -> a ∈ ch /\ b ∈ ch.
Proof. intros (i & H1 & H2). split; by eapply list_elem_of_lookup_2. Qed.

Lemma follows_head_tail t ch a b : NoDup (t :: ch) -> follows ch a b -> a <> t.
Proof. intros Hn [Ha _]%follows_in ->. by apply NoDup_cons in Hn as [Hn _]. Qed.

(** The chain is the tail and the rest; it is alone when it is the head. *)
Lemma chain_shape s ch : inv s ch -> exists rest, ch = tail s :: rest /\
  match rest with [] => head s = tail s | y :: _ => follows ch (tail s) y end.
Proof.
  intros [[Ht Hh _ _ _ _ _] _ _ _ _]. destruct ch as [|t rest]; [done|].
  cbn in Ht. injection Ht as ->. exists rest. split; [done|]. destruct rest as [|y rest]; [by injection Hh|].
  by exists 0.
Qed.

Lemma contents_spec s ch : inv s ch -> contents s = filter (fun x => x <> stub) ch.
Proof. intros H. unfold contents. by rewrite (inv_history _ _ H), drop_app_length. Qed.

(** ** The linked structure *)

Lemma core_ext hd tl nx nx' pd pd' ch :
  core hd tl nx pd ch -> (forall a, a ∈ ch -> nx' !! a = nx !! a) -> (forall i, pd' i = pd i) -> core hd tl nx' pd' ch.
Proof.
  intros [H1 H2 H3 H4 H5 H6 H7] Hn Hp. constructor; auto.
  - rewrite Hn; [done|]. rewrite last_lookup in H2. by eapply list_elem_of_lookup_2.
  - intros a b Hf. rewrite Hn by by destruct (follows_in _ _ _ Hf). setoid_rewrite Hp. by apply H5.
  - intros i a b E. rewrite Hp in E. destruct (H6 _ _ _ E) as [Hf ?]. split; [done|]. by rewrite Hn by by destruct (follows_in _ _ _ Hf).
  - intros i j a a' b. rewrite !Hp. apply H7.
Qed.

(** An exchange appends [n] and leaves one more link to make. *)
Lemma core_exchange hd tl nx pd ch n i :
  core hd tl nx pd ch -> n ∉ ch -> nx !! n = None -> pd i = None ->
  core n tl nx (fun j => if decide (j = i) then Some (hd, n) else pd j) (ch ++ [n]).
Proof.
  intros [H1 H2 H3 H4 H5 H6 H7] Hn Hx Hi. constructor.
  - by destruct ch.
  - by rewrite last_snoc.
  - apply NoDup_app. split_and!; [done| |apply NoDup_singleton]. intros x Hx' ->%list_elem_of_singleton. done.
  - done.
  - intros a b [Hf|[Hl ->]]%follows_snoc.
    + destruct (H5 a b Hf) as [?|[? (j & Hj)]]; [by left|right]. split; [done|]. exists j. rewrite decide_False; [done|congruence].
    + rewrite H2 in Hl. injection Hl as ->. right. split; [done|]. exists i. by rewrite decide_True.
  - intros j a b. case_decide as E.
    + intros [= <- <-]. split; [|done]. apply follows_snoc. by right.
    + intros Hj. destruct (H6 _ _ _ Hj) as [Hf ?]. split; [|done]. apply follows_snoc. by left.
  - assert (forall j a b, pd j = Some (a, b) -> b <> n) as Hnew.
    { intros j a b Hj ->. destruct (H6 _ _ _ Hj) as [[_ Hb]%follows_in _]. done. }
    intros j k a a' b. do 2 case_decide; subst; try done; [| |apply H7].
    + intros [= _ <-] Hk. by destruct (Hnew _ _ _ Hk).
    + intros Hj [= _ <-]. by destruct (Hnew _ _ _ Hj).
Qed.

(** Making the link of [i]. *)
Lemma core_link hd tl nx pd ch i p n :
  core hd tl nx pd ch -> pd i = Some (p, n) ->
  core hd tl (<[p := n]> nx) (fun j => if decide (j = i) then None else pd j) ch.
Proof.
  intros [H1 H2 H3 H4 H5 H6 H7] Hi. destruct (H6 _ _ _ Hi) as [Hf Hx]. constructor; auto.
  - rewrite lookup_insert_ne; [done|]. intros ->. by apply (follows_not_last ch hd n).
  - intros a b Hab. destruct (decide (a = p)) as [->|Hne].
    + left. rewrite lookup_insert_eq. f_equal. by eapply follows_fun.
    + rewrite lookup_insert_ne by done. destruct (H5 a b Hab) as [?|[? (j & Hj)]]; [by left|right]. split; [done|].
      exists j. rewrite decide_False; [done|congruence].
  - intros j a b. case_decide as E; [done|]. intros Hj. destruct (H6 _ _ _ Hj) as [Hab Ha]. split; [done|].
    rewrite lookup_insert_ne; [done|]. intros <-. apply E. pose proof (follows_fun _ _ _ _ H3 Hab Hf) as ->. by eapply H7.
  - intros j k a a' b. do 2 case_decide; try done. apply H7.
Qed.

(** Removing the tail once its link is made. *)
Lemma core_pop hd tl nx pd rest y :
  core hd tl nx pd (tl :: rest) -> nx !! tl = Some y ->
  core hd y nx pd rest /\ (forall i b, pd i <> Some (tl, b)).
Proof.
  intros [H1 H2 H3 H4 H5 H6 H7] Hy.
  assert (forall i b, pd i <> Some (tl, b)) as Hno. { intros i b Hi. destruct (H6 _ _ _ Hi). congruence. }
  split; [|done]. destruct rest as [|z rest]; [cbn in H2; congruence|].
  assert (z = y) as ->. { destruct (H5 tl z) as [?|[? _]]; [by exists 0|congruence|congruence]. }
  constructor; auto.
  - by apply NoDup_cons in H3 as [_ H3].
  - intros a b Hf. apply H5. apply follows_cons. by right.
  - intros i a b Hi. destruct (H6 _ _ _ Hi) as [Hf Ha]. split; [|done]. apply follows_cons in Hf as [[-> _]|Hf]; [|done].
    by destruct (Hno i b).
Qed.

(** ** Producers keep the invariant *)

Lemma enq_clear_inv i n s ch : inv s ch -> prods s !! i = None -> may_enqueue s n -> inv (enq_clear i n s) ch.
Proof.
  intros H Hi (Hs & Hc & Hown). rewrite (contents_spec s ch H) in Hc.
  assert (n ∉ ch) as Hn by (intros Hin; apply Hc; by apply list_elem_of_filter).
  destruct H as [Hcore Hh Hcl Ho Hk]. constructor; try done.
  - apply (core_ext _ _ _ _ _ _ _ Hcore).
    + intros a Ha. cbn. rewrite lookup_delete_ne; [done|congruence].
    + intros [j|]; cbn; [|done]. destruct (decide (j = i)) as [->|]; [|by rewrite lookup_insert_ne]. by rewrite lookup_insert_eq, Hi.
  - intros j m. cbn. destruct (decide (j = i)) as [->|].
    + rewrite lookup_insert_eq. intros [= <-]. split_and!; [done|done|apply lookup_delete_eq].
    + rewrite lookup_insert_ne by done. intros E. destruct (Hcl _ _ E) as (? & ? & ?). split_and!; try done.
      apply lookup_delete_None. by right.
  - intros j k m. cbn. destruct (decide (j = i)) as [->|], (decide (k = i)) as [->|]; rewrite ?lookup_insert_eq, ?lookup_insert_ne by done; try done.
    + intros [= ->] E. by destruct (Hown k).
    + intros E [= ->]. by destruct (Hown j).
    + apply Ho.
  - unfold cons_ok in *. cbn. destruct (cons s); try done. destruct Hk as (? & ? & ? & ?). split_and!; try done.
    apply lookup_delete_None. by right.
Qed.

Lemma filter_stub_snoc ch n : filter (fun x => x <> stub) (ch ++ [n]) = filter (fun x => x <> stub) ch ++ (if decide (n = stub) then [] else [n]).
Proof.
  rewrite filter_app. f_equal. case_decide as E.
  - subst n. by rewrite filter_cons_False by (intros H; by apply H).
  - by rewrite filter_cons_True.
Qed.

Lemma enq_exchange_inv i n s ch : inv s ch -> prods s !! i = Some (PCleared n) -> inv (enq_exchange i n s) (ch ++ [n]).
Proof.
  intros [Hcore Hh Hcl Ho Hk] Hi. destruct (Hcl i n Hi) as (Hn & Hs & Hx). constructor.
  - eapply core_ext; [eapply (core_exchange _ _ _ _ _ n (Some i) Hcore); [done|done|cbn; by rewrite Hi]|done|].
    intros [j|]; cbn; [|done]. destruct (decide (j = i)) as [->|].
    + rewrite lookup_insert_eq. by rewrite decide_True.
    + rewrite lookup_insert_ne by done. rewrite decide_False by congruence. done.
  - cbn. rewrite Hh, filter_stub_snoc, decide_False by done. by rewrite app_assoc.
  - intros j m. cbn. destruct (decide (j = i)) as [->|]; [by rewrite lookup_insert_eq|]. rewrite lookup_insert_ne by done.
    intros E. destruct (Hcl _ _ E) as (? & ? & ?). split_and!; try done. rewrite elem_of_app, list_elem_of_singleton. intros [?| ->]; [done|].
    by pose proof (Ho _ _ _ E Hi).
  - intros j k m. cbn. destruct (decide (j = i)) as [->|], (decide (k = i)) as [->|]; rewrite ?lookup_insert_eq, ?lookup_insert_ne by done; try done.
    apply Ho.
  - unfold cons_ok in *. cbn. assert (stub ∉ ch -> stub ∉ ch ++ [n]) as Hst.
    { intros ?. rewrite elem_of_app, list_elem_of_singleton. intros [?|E]; [done|]. by destruct Hs. }
    destruct (cons s); intuition.
Qed.

Lemma enq_link_inv i p n s ch : inv s ch -> prods s !! i = Some (PExchanged p n) -> inv (enq_link i p n s) ch.
Proof.
  intros [Hcore Hh Hcl Ho Hk] Hi. assert (pend s (Some i) = Some (p, n)) as Hp by (cbn; by rewrite Hi).
  pose proof (core_pend _ _ _ _ _ Hcore _ _ _ Hp) as [Hf _]. destruct (follows_in _ _ _ Hf) as [Hpin _].
  constructor; try done.
  - eapply core_ext; [exact (core_link _ _ _ _ _ (Some i) p n Hcore Hp)|done|].
    intros [j|]; cbn; [|done]. destruct (decide (j = i)) as [->|].
    + rewrite lookup_delete_eq. by rewrite decide_True.
    + rewrite lookup_delete_ne by done. rewrite decide_False by congruence. done.
  - intros j m. cbn. intros [Hne E]%lookup_delete_Some. destruct (Hcl _ _ E) as (? & ? & ?). split_and!; try done.
    rewrite lookup_insert_ne; [done|congruence].
  - intros j k m. cbn. intros [_ E]%lookup_delete_Some [_ E']%lookup_delete_Some. by eapply Ho.
  - unfold cons_ok in *. cbn. destruct (cons s); try done. destruct Hk as (? & ? & Hst & ?). split_and!; try done.
    rewrite lookup_insert_ne; [done|congruence].
Qed.

(** ** The consumer keeps the invariant *)

(** A new program point of the consumer, with no link of its own pending. *)
Lemma set_cons_inv c s ch :
  inv s ch -> (forall t p, cons s <> CLink t p) -> (forall t p, c <> CLink t p) -> cons_ok (set_cons s c) ch -> inv (set_cons s c) ch.
Proof.
  intros [Hcore Hh Hcl Ho Hk] Hc Hc' Hok. constructor; try done. eapply core_ext; [exact Hcore|done|].
  intros [j|]; cbn; [done|]. assert (match c with CLink _ p => Some (p, stub) | _ => None end = None) as ->.
  { destruct c as [| | | | |t p|]; try done. by destruct (Hc' t p). }
  destruct (cons s) as [| | | | |t p|]; try done. by destruct (Hc t p).
Qed.

Lemma pop_filter t rest : t <> stub -> filter (fun x => x <> stub) (t :: rest) = t :: filter (fun x => x <> stub) rest.
Proof. intros Ht. by rewrite filter_cons_True. Qed.

(** Returning the oldest node. *)
Lemma ret_node_inv s ch y :
  inv s ch -> (forall t p, cons s <> CLink t p) -> tail s <> stub -> next s !! tail s = Some y ->
  exists ch', ch = tail s :: ch' /\ inv (ret_node (tail s) y s).1 ch' /\
    (forall i b, pend (ret_node (tail s) y s).1 i <> Some (tail s, b)).
Proof.
  intros H Hc Ht Hy. destruct (chain_shape s ch H) as (rest & -> & _). destruct H as [Hcore Hh Hcl Ho Hk].
  destruct (core_pop _ _ _ _ _ _ Hcore Hy) as [Hcore' Hno].
  assert (forall i, pend (ret_node (tail s) y s).1 i = pend s i) as Hp.
  { intros [j|]; cbn; [done|]. destruct (cons s) eqn:E; try done. by destruct (Hc t prev). }
  exists rest. split; [done|]. split; [|intros i b; rewrite Hp; apply Hno].
  constructor; try done.
  - by eapply core_ext.
  - cbn. rewrite Hh, pop_filter by done. by rewrite <- app_assoc.
  - intros i n E. destruct (Hcl i n E) as (Hn & ? & ?). split_and!; try done. intros ?. apply Hn. by right.
Qed.

Lemma skip_stub_inv s ch x :
  inv s ch -> cons s = CIdle -> tail s = stub -> next s !! tail s = Some x ->
  exists ch', ch = stub :: ch' /\ inv (set_cons (set_tail s x) (CLoadNext x)) ch'.
Proof.
  intros H Hc Ht Hx. destruct (chain_shape s ch H) as (rest & -> & _). destruct H as [Hcore Hh Hcl Ho Hk].
  destruct (core_pop _ _ _ _ _ _ Hcore Hx) as [Hcore' _]. exists rest. rewrite Ht. split; [done|].
  pose proof (core_nodup _ _ _ _ _ Hcore) as [Hst _]%NoDup_cons. constructor; try done.
  - eapply core_ext; [exact Hcore'|done|]. intros [j|]; cbn; [done|]. by rewrite Hc.
  - cbn. rewrite Hh, Ht. by rewrite filter_cons_False by (intros E; by apply E).
  - intros i n E. destruct (Hcl i n E) as (Hn & ? & ?). split_and!; try done. intros ?. apply Hn. by right.
  - cbn. split; [done|]. intros ->. rewrite Ht in Hst. apply Hst. pose proof (core_tail _ _ _ _ _ Hcore') as E.
    destruct rest; [done|]. cbn in E. injection E as ->. by left.
Qed.

(** The consumer's own enqueue of the stub. *)
Lemma clear_stub_inv s ch t :
  inv s ch -> cons s = CClear t -> inv (set_cons (set_next s (delete stub (next s))) (CExchange t)) ch.
Proof.
  intros [Hcore Hh Hcl Ho Hk] Hc. unfold cons_ok in Hk. rewrite Hc in Hk. destruct Hk as (-> & Ht & Hst). constructor; try done.
  - eapply core_ext; [exact Hcore| |].
    + intros a Ha. cbn. rewrite lookup_delete_ne; [done|congruence].
    + intros [j|]; cbn; [done|]. by rewrite Hc.
  - intros i n E. destruct (Hcl i n E) as (? & ? & ?). split_and!; try done. apply lookup_delete_None. by right.
  - cbn. split_and!; try done. apply lookup_delete_eq.
Qed.

Lemma exchange_stub_inv s ch t :
  inv s ch -> cons s = CExchange t -> inv (set_cons (set_head s stub) (CLink t (head s))) (ch ++ [stub]).
Proof.
  intros [Hcore Hh Hcl Ho Hk] Hc. unfold cons_ok in Hk. rewrite Hc in Hk. destruct Hk as (-> & Ht & Hst & Hx). constructor; try done.
  - eapply core_ext; [eapply (core_exchange _ _ _ _ _ stub None Hcore Hst Hx); cbn; by rewrite Hc|done|]. by intros [j|].
  - cbn. by rewrite filter_stub_snoc, decide_True, app_nil_r.
  - intros i n E. destruct (Hcl i n E) as (? & ? & ?). split_and!; try done. rewrite elem_of_app, list_elem_of_singleton. by intros [?|?].
Qed.

Lemma link_stub_inv s ch t p :
  inv s ch -> cons s = CLink t p -> inv (set_cons (set_next s (<[p := stub]> (next s))) (CReload t)) ch.
Proof.
  intros [Hcore Hh Hcl Ho Hk] Hc. unfold cons_ok in Hk. rewrite Hc in Hk.
  assert (pend s None = Some (p, stub)) as Hp by (cbn; by rewrite Hc).
  pose proof (core_pend _ _ _ _ _ Hcore _ _ _ Hp) as [Hf _]. destruct (follows_in _ _ _ Hf) as [Hpin _]. constructor; try done.
  - eapply core_ext; [exact (core_link _ _ _ _ _ None p stub Hcore Hp)|done|]. by intros [j|].
  - intros i n E. destruct (Hcl i n E) as (? & ? & ?). split_and!; try done. cbn. rewrite lookup_insert_ne; [done|congruence].
Qed.

(** What a step of the consumer does to chain and result. *)
Definition deq_result (s s' : csilk_lfqueue_t) (r : option (option node)) : Prop :=
  match r with
  | Some (Some t) => contents s = t :: contents s' /\ t <> stub /\ (forall i b, pend s' i <> Some (t, b))
  | _ => contents s' = contents s
  end.

Lemma deq_return s ch y :
  inv s ch -> (forall t p, cons s <> CLink t p) -> tail s <> stub -> next s !! tail s = Some y ->
  exists ch', inv (ret_node (tail s) y s).1 ch' /\ deq_result s (ret_node (tail s) y s).1 (ret_node (tail s) y s).2.
Proof.
  intros H Hc Ht Hy. destruct (ret_node_inv s ch y H Hc Ht Hy) as (ch' & -> & H' & Hno). exists ch'. split; [done|].
  split_and!; try done. by rewrite (contents_spec _ _ H), (contents_spec _ _ H'), pop_filter.
Qed.

Lemma deq_goes c s ch :
  inv s ch -> (forall t p, cons s <> CLink t p) -> (forall t p, c <> CLink t p) -> cons_ok (set_cons s c) ch ->
  exists ch', inv (set_cons s c) ch' /\ contents (set_cons s c) = contents s.
Proof. intros. exists ch. split; [by apply set_cons_inv|done]. Qed.

Lemma alone s ch : inv s ch -> tail s = head s -> ch = [tail s].
Proof.
  intros H E. destruct (chain_shape s ch H) as (rest & -> & Hr). destruct rest as [|y rest]; [done|]. exfalso.
  destruct H as [[_ Hl Hn _ _ _ _] _ _ _ _]. apply (follows_not_last _ _ _ Hn Hr). by rewrite Hl, E.
Qed.

Lemma deq_step_inv s ch :
  inv s ch -> exists ch', inv (deq_step s).1 ch' /\ deq_result s (deq_step s).1 (deq_step s).2.
Proof.
  intros H. pose proof (inv_cons _ _ H) as Hk. unfold deq_step, cons_ok in *. destruct (cons s) as [|t|t|t|t|t p|t] eqn:Ec.
  - assert (forall t p, cons s <> CLink t p) as Hnl by (rewrite Ec; done). case_decide as Ht.
    + destruct (next s !! tail s) as [x|] eqn:Ex; [|by apply (deq_goes _ _ ch)].
      destruct (skip_stub_inv s ch x H Ec Ht Ex) as (ch' & -> & H'). by exists ch'.
    + destruct (next s !! tail s) as [y|] eqn:Ex; [by eapply deq_return|]. by apply (deq_goes _ _ ch).
  - destruct Hk as [-> Ht]. assert (forall t p, cons s <> CLink t p) as Hnl by (rewrite Ec; done).
    destruct (next s !! tail s) as [y|] eqn:Ex; [by eapply deq_return|]. by apply (deq_goes _ _ ch).
  - destruct Hk as [-> Ht]. assert (forall t p, cons s <> CLink t p) as Hnl by (rewrite Ec; done).
    case_decide as Hh; [|by apply (deq_goes _ _ ch)]. apply (deq_goes _ _ ch); try done. cbn. split_and!; try done.
    rewrite (alone s ch H Hh), list_elem_of_singleton. congruence.
  - exists ch. split; [by apply clear_stub_inv|done].
  - exists (ch ++ [stub]). split; [by apply exchange_stub_inv|done].
  - exists ch. split; [by eapply link_stub_inv|done].
  - destruct Hk as [-> Ht]. assert (forall t p, cons s <> CLink t p) as Hnl by (rewrite Ec; done).
    destruct (next s !! tail s) as [y|] eqn:Ex; [by eapply deq_return|]. by apply (deq_goes _ _ ch).
Qed.

Lemma init_inv : inv csilk_lfq_init [stub].
Proof.
  assert (forall i, pend csilk_lfq_init i = None) as Hp by (by intros [j|]).
  constructor; try done. constructor; try done; [apply NoDup_singleton|..].
  - intros a b (i & H1 & H2). by destruct i.
  - intros i a b. by rewrite Hp.
  - intros i j a a' b. by rewrite Hp.
Qed.

Lemma step_inv s ch s' : inv s ch -> step s s' -> exists ch', inv s' ch'.
Proof.
  intros H. destruct 1 as [i n s Hi Hn|i n s Hi|i p n s Hi|s].
  - exists ch. by apply enq_clear_inv.
  - exists (ch ++ [n]). by apply enq_exchange_inv.
  - exists ch. by apply enq_link_inv.
  - destruct (deq_step_inv s ch H) as (ch' & H' & _). by exists ch'.
Qed.

Lemma reachable_inv s : reachable s -> exists ch, inv s ch.
Proof.
  induction 1 as [|s s' _ (ch & H) Hs]; [exists [stub]; apply init_inv|]. by eapply step_inv.
Qed.

(** ** A call without interference *)

Fixpoint run_dequeue (fuel : nat) (s : csilk_lfqueue_t) : option (csilk_lfqueue_t * option node) :=
  match fuel with
  | O => None
  | S fuel' =>
      match deq_step s with
      | (s', Some r) => Some (s', r)
      | (s', None) => run_dequeue fuel' s'
      end
  end.

(** No enqueue is between its exchange and its link. *)
Definition quiescent (s : csilk_lfqueue_t) : Prop := forall i p n, prods s !! i <> Some (PExchanged p n).

Lemma run_step fuel s :
  run_dequeue (S fuel) s = match deq_step s with (s', Some r) => Some (s', r) | (s', None) => run_dequeue fuel s' end.
Proof. done. Qed.

(** With every link made, the node after the tail is linked. *)
Lemma quiescent_link s ch y : inv s ch -> quiescent s -> (forall t p, cons s <> CLink t p) -> follows ch (tail s) y -> next s !! tail s = Some y.
Proof.
  intros H Hq Hc Hf. destruct H as [Hcore _ _ _ _]. destruct (core_links _ _ _ _ _ Hcore _ _ Hf) as [?|[_ (i & Hi)]]; [done|].
  destruct i as [j|]; cbn in Hi.
  - destruct (prods s !! j) as [[|p n]|] eqn:E; try done. by destruct (Hq j p n).
  - destruct (cons s) as [| | | | |t p|] eqn:E; try done. by destruct (Hc t p).
Qed.

(** The tail is a real node and alone: the stub is put behind it. *)
Lemma run_alone s ch t fuel :
  inv s ch -> cons s = CLoadHead t -> ch = [t] ->
  exists s', run_dequeue (5 + fuel) s = Some (s', Some t).
Proof.
  intros H Hc ->. pose proof (inv_cons _ _ H) as Hk. unfold cons_ok in Hk. rewrite Hc in Hk. destruct Hk as [-> Ht].
  destruct (chain_shape s _ H) as (rest & E & Hr). injection E as <-. cbn in Hr.
  change (5 + fuel)%nat with (S (4 + fuel)). rewrite run_step. unfold deq_step at 1. rewrite Hc, decide_True by done. cbn [goes].
  change (4 + fuel)%nat with (S (3 + fuel)). rewrite run_step. cbn [deq_step cons set_cons goes].
  change (3 + fuel)%nat with (S (2 + fuel)). rewrite run_step. cbn [deq_step cons set_cons set_next goes].
  change (2 + fuel)%nat with (S (1 + fuel)). rewrite run_step. cbn [deq_step cons set_cons set_next set_head head goes].
  change (1 + fuel)%nat with (S fuel). rewrite run_step. cbn [deq_step cons set_cons set_next set_head head next goes tail].
  rewrite Hr, lookup_insert_eq. cbn. by eexists.
Qed.

(** The tail is a real node. *)
Lemma run_real s ch fuel :
  inv s ch -> quiescent s -> (forall t p, cons s <> CLink t p) -> tail s <> stub ->
  deq_step s = match next s !! tail s with Some nx => ret_node (tail s) nx s | None => goes (CLoadHead (tail s)) s end ->
  exists s', run_dequeue (6 + fuel) s = Some (s', Some (tail s)).
Proof.
  intros H Hq Hc Ht Hstep. destruct (chain_shape s ch H) as (rest & E & Hr). change (6 + fuel)%nat with (S (5 + fuel)).
  rewrite run_step, Hstep. destruct rest as [|y rest].
  - assert (next s !! tail s = None) as ->. { rewrite <- Hr. apply (core_end _ _ _ _ _ (inv_core _ _ H)). }
    apply (run_alone (set_cons s (CLoadHead (tail s))) ch (tail s) fuel); [by apply set_cons_inv|done|by subst].
  - rewrite (quiescent_link s ch y H Hq Hc Hr). by eexists.
Qed.

Lemma run_dequeue_result fuel s s' r :
  reachable s -> run_dequeue fuel s = Some (s', r) ->
  reachable s' /\ match r with Some t => contents s = t :: contents s' | None => contents s' = contents s end.
Proof.
  revert s. induction fuel as [|fuel IH]; intros s Hs; [done|]. rewrite run_step.
  destruct (reachable_inv s Hs) as (ch & H). destruct (deq_step_inv s ch H) as (ch' & H' & Hres).
  pose proof (reach_step s _ Hs (step_dequeue s)) as Hs'. destruct (deq_step s) as [s1 [r1|]]; cbn [fst snd] in *.
  - intros [= <- <-]. split; [done|]. destruct r1 as [t|]; [by destruct Hres|done].
  - intros E. destruct (IH s1 Hs' E) as [Hr Hc]. split; [done|]. cbn in Hres. by rewrite <- Hres.
Qed.

(** C12: the queue under concurrency. In every state that any interleaving of
    any number of producers and the consumer can reach, the nodes handed out
    so far followed by those still in the queue are exactly the nodes put in,
    in the order of their exchanges: nothing is lost, duplicated or reordered.
    When the consumer returns a node it is the oldest one, it is not the stub,
    and no producer will still write to it, so the caller may reuse it. *)
Theorem lfq_fifo (s : csilk_lfqueue_t) (Hs : reachable s) :
  enqd s = deqd s ++ contents s /\
  forall s' t, deq_step s = (s', Some (Some t)) ->
    contents s = t :: contents s' /\ deqd s' = deqd s ++ [t] /\ t <> stub /\ (forall i b, pend s' i <> Some (t, b)).
Proof.
  destruct (reachable_inv s Hs) as (ch & H). split.
  - by rewrite (contents_spec _ _ H), (inv_history _ _ H).
  - intros s' t E. destruct (deq_step_inv s ch H) as (ch' & H' & Hres). rewrite E in H', Hres. cbn in Hres, H'.
    destruct Hres as (Hc & Ht & Hp). split_and!; try done. clear - E. unfold deq_step in E.
    destruct (cons s); repeat case_match; try done; unfold ret_node in E; injection E as <- <-; done.
Qed.

(** Two producers and the consumer at work: node 7 is exchanged but not yet
    linked, node 8 is in, and the consumer has found nothing. *)
Definition demo_state : csilk_lfqueue_t :=
  (deq_step (enq_link 1 7%positive 8%positive (enq_exchange 1 8%positive (enq_exchange 0 7%positive
    (enq_clear 1 8%positive (enq_clear 0 7%positive csilk_lfq_init)))))).1.

Lemma demo_state_reachable : reachable demo_state.
Proof.
  eapply reach_step; [|apply step_dequeue]. eapply reach_step; [|by apply step_link].
  eapply reach_step; [|by apply step_exchange]. eapply reach_step; [|by apply step_exchange].
  eapply reach_step; [|apply step_clear; [done|]].
  { eapply reach_step; [apply reach_init|apply step_clear; [done|]]. split_and!; [done|by apply not_elem_of_nil|done]. }
  split_and!; [done|by apply not_elem_of_nil|]. intros [|j]; cbn [prods enq_clear set_prods]; [done|]. by rewrite lookup_insert_ne.
Qed.

Lemma lfq_fifo_witness : reachable demo_state /\ contents demo_state = [7%positive; 8%positive] /\ enqd demo_state = deqd demo_state ++ contents demo_state.
Proof. split; [exact demo_state_reachable|]. split; [done|]. exact (proj1 (lfq_fifo demo_state demo_state_reachable)). Defined.

(** C27: a call without interference. When no enqueue is between its exchange
    and its link and no producer moves, [csilk_lfq_dequeue] returns within
    seven accesses: the oldest node, which it removes, or null exactly when
    the queue is empty. *)
Theorem lfq_dequeue_quiescent (s : csilk_lfqueue_t) (Hs : reachable s) (Hidle : cons s = CIdle) (Hq : quiescent s) :
  exists s', run_dequeue 7 s = Some (s', list.head (contents s)) /\ contents s' = list.tail (contents s) /\ reachable s'.
Proof.
  destruct (reachable_inv s Hs) as (ch & H). assert (forall t p, cons s <> CLink t p) as Hc by (rewrite Hidle; done).
  assert (exists s' r, run_dequeue 7 s = Some (s', r) /\ (r = None -> contents s = [])) as (s' & r & E & Hr).
  { destruct (decide (tail s = stub)) as [Ht|Ht].
    - destruct (chain_shape s ch H) as (rest & E & Hf). change 7%nat with (S 6). rewrite run_step.
      unfold deq_step. rewrite Hidle, decide_True by done. destruct rest as [|x rest].
      + assert (next s !! tail s = None) as ->. { rewrite <- Hf. apply (core_end _ _ _ _ _ (inv_core _ _ H)). }
        eexists _, None. split; [done|]. intros _. rewrite (contents_spec _ _ H), E, Ht.
        by rewrite filter_cons_False by (intros X; by apply X).
      + rewrite (quiescent_link s ch x H Hq Hc Hf). cbn [goes].
        destruct (skip_stub_inv s ch x H Hidle Ht (quiescent_link s ch x H Hq Hc Hf)) as (ch' & _ & H').
        pose proof (inv_cons _ _ H') as [_ Hx].
        destruct (run_real (set_cons (set_tail s x) (CLoadNext x)) ch' 0) as (s' & E'); [done|exact Hq|done|done|done|].
        eexists _, _. by split.
    - destruct (run_real s ch 1 H Hq Hc Ht) as (s' & E); [unfold deq_step; by rewrite Hidle, decide_False|].
      eexists _, _. by split. }
  exists s'. destruct (run_dequeue_result _ _ _ _ Hs E) as [Hs' Hres]. destruct r as [t|].
  - by rewrite Hres, E.
  - rewrite Hres, (Hr eq_refl). by rewrite E.
Qed.

Definition demo_quiet : csilk_lfqueue_t := enq_link 0 stub 7%positive demo_state.

Lemma lfq_dequeue_quiescent_witness :
  exists s', run_dequeue 7 demo_quiet = Some (s', Some 7%positive) /\ contents s' = [8%positive].
Proof.
  assert (reachable demo_quiet) as Hr by (eapply reach_step; [exact demo_state_reachable|by apply step_link]).
  destruct (lfq_dequeue_quiescent demo_quiet Hr) as (s' & H1 & H2 & _); [done| |by exists s'].
  intros [|[|i]] p n; vm_compute; done.
Defined.

(** A dequeue may answer null although a later enqueue is complete: the
    consumer in [demo_state] found nothing while node 8 was linked. *)
Example null_while_nonempty :
  deq_step (enq_link 1 7%positive 8%positive (enq_exchange 1 8%positive (enq_exchange 0 7%positive
    (enq_clear 1 8%positive (enq_clear 0 7%positive csilk_lfq_init))))) = (demo_state, Some None).
Proof. done. Qed.
