(* ===== verification/CircuitBreaker.v ===== *)
(** * The circuit breaker

    Models src/src/middleware/circuit_breaker.c: the state word, the counter
    of consecutive failures and the time of the last transition, with the
    clock (microseconds, a 64-bit counter) as an argument of every call.  Each
    operation runs under the breaker's mutex, so calls of concurrent workers
    are some sequence of operations.  [None] is the overflow of the signed
    counter.  A reference breaker with the three states of the file's header
    is refined by the code as long as no success is recorded while open. *)

From S2P Require Import Prelude.

#[local] Open Scope Z_scope.

Definition INT_MAX : Z := 2 ^ 31 - 1.

Record csilk_circuit_breaker_t := mk_cb {
  state : Z;
  consecutive_failures : Z;
  failure_threshold : Z;
  recovery_timeout_ms : Z;
  last_state_change_us : Z;
}.

Record csilk_circuit_breaker_config_t := mk_cb_config { cfg_threshold : Z; cfg_timeout : Z }.

Definition csilk_circuit_breaker_new (config : option csilk_circuit_breaker_config_t) (now_us : Z) : csilk_circuit_breaker_t :=
  mk_cb 0 0
    (match config with Some c => if 0 <? cfg_threshold c then cfg_threshold c else 5 | None => 5 end)
    (match config with Some c => if 0 <? cfg_timeout c then cfg_timeout c else 5000 | None => 5000 end)
    now_us.

(** What the middleware does with the request. *)
Inductive verdict := Passed | Rejected503.

Definition csilk_circuit_breaker_middleware (now_us : Z) (cb : csilk_circuit_breaker_t) : verdict * csilk_circuit_breaker_t :=
  if state cb =? 1 then
    if recovery_timeout_ms cb <=? wrap64 (now_us - last_state_change_us cb) / 1000 then
      (Passed, mk_cb 2 (consecutive_failures cb) (failure_threshold cb) (recovery_timeout_ms cb) now_us)
    else (Rejected503, cb)
  else (Passed, cb).

Definition csilk_circuit_breaker_record_success (now_us : Z) (cb : csilk_circuit_breaker_t) : csilk_circuit_breaker_t :=
  if state cb =? 2 then mk_cb 0 0 (failure_threshold cb) (recovery_timeout_ms cb) now_us
  else mk_cb (state cb) 0 (failure_threshold cb) (recovery_timeout_ms cb) (last_state_change_us cb).

Definition csilk_circuit_breaker_record_failure (now_us : Z) (cb : csilk_circuit_breaker_t) : option csilk_circuit_breaker_t :=
  let n := consecutive_failures cb + 1 in
  if INT_MAX <? n then None else
  Some (if failure_threshold cb <=? n then mk_cb 1 n (failure_threshold cb) (recovery_timeout_ms cb) now_us
        else mk_cb (state cb) n (failure_threshold cb) (recovery_timeout_ms cb) (last_state_change_us cb)).

Definition csilk_circuit_breaker_get_state (cb : csilk_circuit_breaker_t) : Z := state cb.

(** ** Runs *)

Inductive event := Request | Success | Failure.

Definition run_event (ev : event * Z) (cb : csilk_circuit_breaker_t) : option (option verdict * csilk_circuit_breaker_t) :=
  let '(e, now) := ev in
  match e with
  | Request => let '(v, cb') := csilk_circuit_breaker_middleware now cb in Some (Some v, cb')
  | Success => Some (None, csilk_circuit_breaker_record_success now cb)
  | Failure => cb' ← csilk_circuit_breaker_record_failure now cb; Some (None, cb')
  end.

Fixpoint run_events (evs : list (event * Z)) (cb : csilk_circuit_breaker_t) : option (list (option verdict) * csilk_circuit_breaker_t) :=
  match evs with
  | [] => Some ([], cb)
  | ev :: evs' =>
      '(v, cb') ← run_event ev cb;
      '(vs, cb'') ← run_events evs' cb';
      Some (v :: vs, cb'')
  end.

(** ** The reference breaker *)

(** Closed after [k] failures in a row, open since a time, or probing. *)
Inductive breaker := Closed (k : Z) | Open (since : Z) | HalfOpen.

Section reference.
Context (threshold timeout : Z).

Definition ref_event (ev : event * Z) (b : breaker) : option verdict * breaker :=
  let '(e, now) := ev in
  match e, b with
  | Request, Open since =>
      if timeout * 1000 <=? now - since then (Some Passed, HalfOpen) else (Some Rejected503, b)
  | Request, _ => (Some Passed, b)
  | Success, Open _ => (None, b)
  | Success, _ => (None, Closed 0)
  | Failure, Closed k => (None, if k + 1 <? threshold then Closed (k + 1) else Open now)
  | Failure, _ => (None, Open now)
  end.

Fixpoint ref_events (evs : list (event * Z)) (b : breaker) : list (option verdict) * breaker :=
  match evs with
  | [] => ([], b)
  | ev :: evs' =>
      let '(v, b') := ref_event ev b in
      let '(vs, b'') := ref_events evs' b' in
      (v :: vs, b'')
  end.

(** No success is recorded while the reference breaker is open. *)
Fixpoint no_open_success (evs : list (event * Z)) (b : breaker) : Prop :=
  match evs with
  | [] => True
  | ev :: evs' =>
      (ev.1 = Success -> forall since, b <> Open since) /\ no_open_success evs' (ref_event ev b).2
  end.
End reference.

(** The clock never goes back and stays within 64 bits. *)
Fixpoint clock_ok (t : Z) (evs : list (event * Z)) : Prop :=
  match evs with
  | [] => True
  | ev :: evs' => t <= ev.2 < 2 ^ 64 /\ clock_ok ev.2 evs'
  end.

(** ** Refinement *)

Definition state_code (b : breaker) : Z := match b with Closed _ => 0 | Open _ => 1 | HalfOpen => 2 end.

(** The code's fields for a reference state at time [t], after at most [n]
    events. *)
Definition represents (threshold timeout t n : Z) (b : breaker) (cb : csilk_circuit_breaker_t) : Prop :=
  failure_threshold cb = threshold /\ recovery_timeout_ms cb = timeout /\ state cb = state_code b /\
  0 <= consecutive_failures cb <= n /\
  match b with
  | Closed k => consecutive_failures cb = k /\ k < threshold
  | Open since => last_state_change_us cb = since /\ 0 <= since <= t /\ threshold <= consecutive_failures cb
  | HalfOpen => threshold <= consecutive_failures cb
  end.

Lemma elapsed_ms now since timeout :
  0 <= since <= now -> now < 2 ^ 64 ->
  (timeout <=? wrap64 (now - since) / 1000) = (timeout * 1000 <=? now - since).
Proof.
  intros H1 H2. rewrite wrap64_small by lia.
  destruct (Z.leb_spec timeout ((now - since) / 1000)), (Z.leb_spec (timeout * 1000) (now - since)); try done; Z.div_mod_to_equations; lia.
Qed.

Lemma run_event_spec threshold timeout t n b cb ev :
  represents threshold timeout t n b cb -> 0 < threshold -> 0 <= t <= ev.2 -> ev.2 < 2 ^ 64 -> n < INT_MAX ->
  (ev.1 = Success -> forall since, b <> Open since) ->
  exists cb', run_event ev cb = Some ((ref_event threshold timeout ev b).1, cb') /\
    represents threshold timeout ev.2 (n + 1) (ref_event threshold timeout ev b).2 cb'.
Proof.
  intros (E1 & E2 & E3 & E4 & E5) Hth Ht Hmax Hn Hs. destruct ev as [e now]. cbn [fst snd] in *. destruct e; cbn [run_event ref_event].
  - unfold csilk_circuit_breaker_middleware. rewrite E3. destruct b as [k|since|]; cbn [state_code Z.eqb].
    + eexists. split; [done|]. unfold represents. cbn. intuition lia.
    + destruct E5 as (E5 & Hsince & Hf). rewrite E2, E5, elapsed_ms by lia. destruct (timeout * 1000 <=? now - since).
      * eexists. split; [done|]. unfold represents. cbn. intuition lia.
      * eexists. split; [done|]. unfold represents. cbn. intuition lia.
    + eexists. split; [done|]. unfold represents. cbn. intuition lia.
  - unfold csilk_circuit_breaker_record_success. rewrite E3. destruct b as [k|since|]; cbn [state_code Z.eqb].
    + eexists. split; [done|]. unfold represents. cbn. intuition lia.
    + by destruct (Hs eq_refl since).
    + eexists. split; [done|]. unfold represents. cbn. intuition lia.
  - unfold csilk_circuit_breaker_record_failure. destruct (Z.ltb_spec INT_MAX (consecutive_failures cb + 1)); [lia|]. cbn [mbind option_bind].
    rewrite E1. destruct b as [k|since|]; cbn [fst snd].
    + destruct E5 as [E5 Hk]. rewrite E5 in *. destruct (Z.ltb_spec (k + 1) threshold), (Z.leb_spec threshold (k + 1)); try lia;
        (eexists; split; [done|]); unfold represents; cbn; intuition lia.
    + destruct (Z.leb_spec threshold (consecutive_failures cb + 1)); [|lia].
      eexists. split; [done|]. unfold represents. cbn. intuition lia.
    + destruct (Z.leb_spec threshold (consecutive_failures cb + 1)); [|lia].
      eexists. split; [done|]. unfold represents. cbn. intuition lia.
Qed.

Lemma run_events_spec threshold timeout evs t n b cb :
  represents threshold timeout t n b cb -> 0 < threshold -> 0 <= t -> clock_ok t evs -> n + Z.of_nat (length evs) <= INT_MAX ->
  no_open_success threshold timeout evs b ->
  exists cb', run_events evs cb = Some ((ref_events threshold timeout evs b).1, cb') /\
    csilk_circuit_breaker_get_state cb' = state_code (ref_events threshold timeout evs b).2.
Proof.
  revert t n b cb. induction evs as [|ev evs IH]; intros t n b cb Hr Hth Ht Hclock Hn Hs.
  { exists cb. split; [done|]. by destruct Hr as (_ & _ & E & _). }
  cbn [run_events ref_events clock_ok no_open_success length] in *. destruct Hclock as [Hc Hclock], Hs as [Hs1 Hs].
  destruct (run_event_spec threshold timeout t n b cb ev Hr Hth ltac:(lia) ltac:(lia) ltac:(lia) Hs1) as (cb' & -> & Hr').
  cbn [mbind option_bind]. destruct (ref_event threshold timeout ev b) as [v b']. cbn [fst snd] in *.
  destruct (IH ev.2 (n + 1) b' cb' Hr' Hth ltac:(lia) Hclock ltac:(lia) Hs) as (cb'' & -> & Hst). cbn.
  destruct (ref_events threshold timeout evs b') as [vs b'']. by exists cb''.
Qed.

(** C21: the breaker refines the three-state reference. From a new breaker, on
    any sequence of fewer than 2^31 requests, successes and failures with a
    clock that does not go back, and no success recorded while open, the code
    gives every request the verdict of the reference: closed until the
    threshold of consecutive failures, then rejecting with 503 until the
    recovery time has passed since the last failure, then letting probes
    through until a single success closes it or a failure opens it again; the
    reported state is the reference state. (The documents describe a number of
    successes, [success_threshold], which the code does not have.) *)
Theorem circuit_breaker_refines (config : option csilk_circuit_breaker_config_t) (t0 : Z) (evs : list (event * Z))
  (Ht0 : 0 <= t0) (Hclock : clock_ok t0 evs) (Hlen : Z.of_nat (length evs) <= INT_MAX)
  (Hs : let cb := csilk_circuit_breaker_new config t0 in
        no_open_success (failure_threshold cb) (recovery_timeout_ms cb) evs (Closed 0)) :
  let cb := csilk_circuit_breaker_new config t0 in
  let '(vs, b) := ref_events (failure_threshold cb) (recovery_timeout_ms cb) evs (Closed 0) in
  exists cb', run_events evs cb = Some (vs, cb') /\ csilk_circuit_breaker_get_state cb' = state_code b.
Proof.
  cbn zeta in *. set (cb := csilk_circuit_breaker_new config t0) in *.
  assert (0 < failure_threshold cb) as Hth.
  { cbn. destruct config as [c|]; [|lia]. destruct (Z.ltb_spec 0 (cfg_threshold c)); lia. }
  destruct (run_events_spec (failure_threshold cb) (recovery_timeout_ms cb) evs t0 0 (Closed 0) cb) as (cb' & H1 & H2);
    [unfold represents; cbn in *; intuition lia|done|done|done|lia|done|].
  destruct (ref_events _ _ evs (Closed 0)) as [vs b]. by exists cb'.
Qed.

Definition demo_events : list (event * Z) :=
  [(Failure, 10); (Failure, 20); (Request, 1000000); (Request, 2000020); (Failure, 2000030); (Request, 2000040); (Request, 5000000); (Success, 5000010); (Request, 5000020)].

Lemma circuit_breaker_refines_witness :
  exists cb', run_events demo_events (csilk_circuit_breaker_new (Some (mk_cb_config 2 2000)) 0) =
    Some ([None; None; Some Rejected503; Some Passed; None; Some Rejected503; Some Passed; None; Some Passed], cb') /\
    csilk_circuit_breaker_get_state cb' = 0.
Proof.
  exact (circuit_breaker_refines (Some (mk_cb_config 2 2000)) 0 demo_events ltac:(lia) ltac:(cbn; lia)
           ltac:(vm_compute; congruence) ltac:(vm_compute; repeat split; intros; congruence)).
Defined.

(** ** Observation *)

(** A success recorded while open (a request that was let in before the
    breaker tripped) resets the counter but not the state: after the recovery
    time a failed probe then leaves the breaker half-open. *)
Example late_success_keeps_half_open :
  exists cb', run_events [(Failure, 1); (Failure, 2); (Success, 3); (Request, 3000000); (Failure, 3000001)]
      (csilk_circuit_breaker_new (Some (mk_cb_config 2 2000)) 0) = Some ([None; None; None; Some Passed; None], cb') /\
    csilk_circuit_breaker_get_state cb' = 2.
Proof. eexists. by vm_compute. Qed.
