(* ===== verification/HandlerChain.v ===== *)
(** * Running the handler chain of a request

    Models [csilk_next] and [csilk_abort] of src/src/core/ctx/context.c, the
    deferred cleanups of src/src/core/ctx/ctx_defer.c and the panic recovery of
    src/src/core/primitives/recovery.c.  A handler is an address; what the code
    at an address does is given by [behaviour], the list of framework calls it
    makes, which may be any list.  What a call that prepares the response does
    to the response is an argument ([answer]); Response.v has the calls of the
    framework.  The context keeps a log of what happened.  [None] is undefined
    behaviour: a read past the handler array, overflow of the handler index, or
    that of a response call. *)

From S2P Require Import Prelude.

#[local] Open Scope Z_scope.

(** The framework calls a handler makes. [Recover] is the test on [panicked]
    in [csilk_recovery_handler]; [Defer f ok] registers cleanup [f], where the
    arena serves the request for its record ([ok]) or not; [Respond o] is the
    call [o] on the response. *)
Inductive action (K : Type) := Next | Abort | Panic | Defer (f : Z) (ok : bool) | Respond (o : K) | Recover.
Arguments Next {K}.
Arguments Abort {K}.
Arguments Panic {K}.
Arguments Defer {K} _ _.
Arguments Respond {K} _.
Arguments Recover {K}.

Inductive event (K : Type) :=
| Entered (index : Z)
| Aborted
| Panicked
| CleanedUp (f : Z)
| Deferred (f : Z)
| Said (o : K).
Arguments Entered {K} _.
Arguments Aborted {K}.
Arguments Panicked {K}.
Arguments CleanedUp {K} _.
Arguments Deferred {K} _.
Arguments Said {K} _.

Section Chain.
  Context {K R : Type}.
  (** The response after a call, and whether the call aborts the chain. *)
  Context (answer : K -> R -> option (R * bool)).
  (** The call [csilk_string(c, 500, ...)] of the recovery handler. *)
  Context (error_500 : K).

#[local] Abbreviation action := (action K).
#[local] Abbreviation event := (event K).

Record ctx := mk_ctx {
  handlers : option (list Z);
  handler_count : Z;
  handler_index : Z;
  aborted : bool;
  panicked : bool;
  defer_head : list Z;
  response : R;
  log : list event;
}.

Definition set_index (c : ctx) (i : Z) : ctx :=
  mk_ctx (handlers c) (handler_count c) i (aborted c) (panicked c) (defer_head c) (response c) (log c).
Definition set_flags (c : ctx) (a p : bool) : ctx :=
  mk_ctx (handlers c) (handler_count c) (handler_index c) a p (defer_head c) (response c) (log c).
Definition set_defer (c : ctx) (d : list Z) : ctx :=
  mk_ctx (handlers c) (handler_count c) (handler_index c) (aborted c) (panicked c) d (response c) (log c).
Definition set_response (c : ctx) (r : R) : ctx :=
  mk_ctx (handlers c) (handler_count c) (handler_index c) (aborted c) (panicked c) (defer_head c) r (log c).
Definition note (c : ctx) (es : list event) : ctx :=
  mk_ctx (handlers c) (handler_count c) (handler_index c) (aborted c) (panicked c) (defer_head c) (response c) (log c ++ es).

(** ** Cleanups, abort and panic *)

Definition csilk_ctx_defer (c : ctx) (f : Z) (ok : bool) : ctx :=
  if ok then note (set_defer c (f :: defer_head c)) [Deferred f] else c.

Definition csilk_ctx_defer_free (c : ctx) : ctx := note (set_defer c []) (map CleanedUp (defer_head c)).

Definition csilk_abort (c : ctx) : ctx := note (set_flags c true (panicked c)) [Aborted].

Definition csilk_panic (c : ctx) : ctx := csilk_ctx_defer_free (note (set_flags c true true) [Panicked]).

Definition say (c : ctx) (o : K) : option ctx :=
  '(r, stop) ← answer o (response c);
  let c := note (set_response c r) [Said o] in
  Some (if (stop : bool) then csilk_abort c else c).

(** The end of [csilk_recovery_handler]. *)
Definition recover (c : ctx) : option ctx :=
  if panicked c then say (csilk_ctx_defer_free c) error_500 else Some c.

(** ** The chain *)

(** The body of a handler, given what [csilk_next] does. *)
Fixpoint run_actions (next : ctx -> option ctx) (acts : list action) (c : ctx) : option ctx :=
  match acts with
  | [] => Some c
  | a :: acts' =>
      c' ← match a with
           | Next => next c
           | Abort => Some (csilk_abort c)
           | Panic => Some (csilk_panic c)
           | Defer f ok => Some (csilk_ctx_defer c f ok)
           | Respond o => say c o
           | Recover => recover c
           end;
      run_actions next acts' c'
  end.

Definition INT_MAX : Z := 2 ^ 31 - 1.

(** [csilk_next]; [fuel] bounds the depth of nested calls. *)
Fixpoint csilk_next (behaviour : Z -> list action) (fuel : nat) (c : ctx) : option ctx :=
  match fuel with
  | O => None
  | S fuel' =>
      if aborted c || panicked c then Some c else
      match handlers c with
      | None => Some c
      | Some hs =>
          if INT_MAX <=? handler_index c then None else
          let next_idx := handler_index c + 1 in
          let c := set_index c next_idx in
          if (0 <? handler_count c) && (handler_count c <=? next_idx) then Some c else
          fn ← hs !! Z.to_nat next_idx;
          if fn =? 0 then Some c
          else run_actions (csilk_next behaviour fuel') (behaviour fn) (note c [Entered next_idx])
      end
  end.

Definition csilk_recovery_handler : list action := [Next; Recover].

(** ** Facts about runs *)

(** A context set up by routing: the chain [hs] and its terminator. *)
Definition chain_of (c : ctx) (hs : list Z) : Prop :=
  handlers c = Some (hs ++ [0]) /\ handler_count c = Z.of_nat (length hs) /\ hs <> [] /\ Forall (fun h => h <> 0) hs.

(** The [Next] calls that the handlers from [i] on may still make. *)
Definition nexts (behaviour : Z -> list action) (hs : list Z) (i : nat) : Z :=
  Z.of_nat (list_sum (map (fun h => length (behaviour h)) (drop i hs))).

Definition entered (l : list event) : list Z := omap (fun e => match e with Entered i => Some i | _ => None end) l.
Definition cleaned (l : list event) : list Z := omap (fun e => match e with CleanedUp f => Some f | _ => None end) l.
Definition deferred (l : list event) : list Z := omap (fun e => match e with Deferred f => Some f | _ => None end) l.
Definition said (l : list event) : list K := omap (fun e => match e with Said o => Some o | _ => None end) l.

(** The calls on the response, one after the other. *)
Fixpoint replay (l : list K) (r : R) : option R :=
  match l with
  | [] => Some r
  | o :: l' => '(r1, _) ← answer o r; replay l' r1
  end.

(** Nothing is entered after an abort or a panic. *)
Definition stopped (e : event) : bool := match e with Aborted | Panicked => true | _ => false end.

Definition is_panic (e : event) : bool := match e with Panicked => true | _ => false end.

Fixpoint quiet_after_stop (l : list event) : bool :=
  match l with
  | [] => true
  | e :: l' => (if stopped e then bool_decide (entered l' = []) else true) && quiet_after_stop l'
  end.

(** The calls in [fine] succeed on the responses in [good]. *)
Class Responds (good : R -> Prop) (fine : K -> Prop) : Prop := {
  rs_answer : forall o r, fine o -> good r -> exists r' stop, answer o r = Some (r', stop) /\ good r';
  rs_error : fine error_500;
}.

Definition fine_action (fine : K -> Prop) (a : action) : Prop := match a with Respond o => fine o | _ => True end.

  Context (good : R -> Prop) (fine : K -> Prop) `{Hresp : Responds good fine}.
  (** The response that the chain starts with. *)
  Context (r0 : R).

(** The response is what was said. *)
Record said_inv (c : ctx) : Prop := mk_said_inv {
  si_good : good (response c);
  si_replay : replay (said (log c)) r0 = Some (response c);
  si_fine : Forall fine (said (log c));
}.

(** The state of a run: handlers are entered in order without repetition, the
    index has passed exactly those (or the end), an abort or panic is flagged
    and quiet, every deferred cleanup is pending or done, the panic flag
    records the panics, and the response is what was said. *)
Record run_inv (hs : list Z) (c : ctx) : Prop := mk_run_inv {
  ri_chain : chain_of c hs;
  ri_low : -1 <= handler_index c;
  ri_entered : entered (log c) = map Z.of_nat (seq 0 (Nat.min (Z.to_nat (handler_index c + 1)) (length hs)));
  ri_stop : existsb stopped (log c) = true -> aborted c = true;
  ri_quiet : quiet_after_stop (log c) = true;
  ri_cleanup : cleaned (log c) ++ defer_head c ≡ₚ deferred (log c);
  ri_panic : existsb is_panic (log c) = panicked c;
  ri_said : said_inv c;
}.

Lemma quiet_app l es :
  quiet_after_stop l = true -> quiet_after_stop es = true -> (existsb stopped l = true -> entered es = []) ->
  quiet_after_stop (l ++ es) = true.
Proof.
  intros Hl Hes. induction l as [|e l IH]; cbn [quiet_after_stop existsb app] in *; [done|]. intros Hs.
  apply andb_prop in Hl as [He Hl]. rewrite IH; [|done|intros E; apply Hs; rewrite E; apply orb_true_r].
  rewrite andb_true_r. destruct (stopped e); [|done]. cbn in Hs. apply bool_decide_eq_true in He. apply bool_decide_eq_true.
  unfold entered in *. rewrite omap_app, He. by rewrite Hs.
Qed.

Lemma replay_calls_app l1 l2 r : replay (l1 ++ l2) r = r1 ← replay l1 r; replay l2 r1.
Proof. revert r. induction l1 as [|o l1 IH]; intros r; [done|]. cbn. destruct (answer o r) as [[r1 b]|]; [apply IH|done]. Qed.

Lemma entered_cleanups d : entered (map CleanedUp d) = [].
Proof. by induction d. Qed.

Lemma stopped_cleanups d : existsb stopped (map CleanedUp d) = false.
Proof. by induction d. Qed.

Lemma panic_cleanups d : existsb is_panic (map CleanedUp d) = false.
Proof. by induction d. Qed.

Lemma quiet_cleanups d : quiet_after_stop (map CleanedUp d) = true.
Proof. by induction d. Qed.

Lemma cleaned_cleanups d : cleaned (map CleanedUp d) = d.
Proof. induction d as [|f d IH]; [done|]. cbn. f_equal. exact IH. Qed.

Lemma deferred_cleanups d : deferred (map CleanedUp d) = [].
Proof. by induction d. Qed.

Lemma said_cleanups d : said (map CleanedUp d) = [].
Proof. by induction d. Qed.

(** Events that say nothing leave the record of the response. *)
Lemma silent c c' es : said es = [] -> response c' = response c -> log c' = log c ++ es -> said_inv c -> said_inv c'.
Proof.
  intros E Er El [H1 H2 H3]. assert (said (log c') = said (log c)) as Es.
  { rewrite El. unfold said in *. by rewrite omap_app, E, app_nil_r. }
  constructor; by rewrite ?Es, ?Er.
Qed.

Lemma defer_free_inv hs c : run_inv hs c -> run_inv hs (csilk_ctx_defer_free c).
Proof.
  intros [H1 H2 H3 H4 H5 H6 H7 H8]. constructor; cbn [csilk_ctx_defer_free note set_defer handlers handler_count handler_index aborted panicked log defer_head]; try done.
  - unfold entered in *. rewrite omap_app, H3. fold (entered (map CleanedUp (defer_head c))). by rewrite entered_cleanups, app_nil_r.
  - rewrite existsb_app, stopped_cleanups, orb_false_r. done.
  - apply quiet_app; auto using quiet_cleanups, entered_cleanups.
  - unfold cleaned, deferred in *. rewrite !omap_app, app_nil_r. fold (cleaned (map CleanedUp (defer_head c))). fold (deferred (map CleanedUp (defer_head c))).
    by rewrite cleaned_cleanups, deferred_cleanups, app_nil_r.
  - by rewrite existsb_app, panic_cleanups, orb_false_r.
  - apply (silent c _ (map CleanedUp (defer_head c))); [apply said_cleanups|done..].
Qed.

(** Flagging a stop. *)
Lemma stop_inv hs c p e :
  stopped e = true -> (panicked c || is_panic e) = p -> run_inv hs c -> run_inv hs (note (set_flags c true p) [e]).
Proof.
  intros He Hpe [H1 H2 H3 H4 H5 H6 H7 H8]. assert (entered [e] = [] /\ cleaned [e] = [] /\ deferred [e] = []) as (E1 & E2 & E3) by (by destruct e).
  assert (said [e] = []) as E4 by by destruct e.
  constructor; cbn [note set_flags handlers handler_count handler_index aborted panicked log defer_head]; try done.
  - unfold entered in *. by rewrite omap_app, E1, app_nil_r.
  - apply quiet_app; [done| |by rewrite E1]. cbn. by rewrite He.
  - unfold cleaned, deferred in *. by rewrite !omap_app, E2, E3, !app_nil_r.
  - rewrite existsb_app, H7. cbn [existsb]. by rewrite orb_false_r.
  - by apply (silent c _ [e]).
Qed.

Lemma defer_inv hs c f ok : run_inv hs c -> run_inv hs (csilk_ctx_defer c f ok).
Proof.
  intros H. unfold csilk_ctx_defer. destruct ok; [|done]. destruct H as [H1 H2 H3 H4 H5 H6 H7 H8].
  constructor; cbn [note set_defer handlers handler_count handler_index aborted panicked log defer_head]; try done.
  - unfold entered in *. by rewrite omap_app, app_nil_r.
  - rewrite existsb_app, orb_false_r. done.
  - by apply quiet_app.
  - unfold cleaned, deferred in *. rewrite !omap_app. cbn [omap list_omap]. rewrite app_nil_r, <- H6, <- Permutation_middle.
    by rewrite (Permutation_app_comm _ [f]).
  - by rewrite existsb_app, H7, orb_false_r.
  - by apply (silent c _ [Deferred f]).
Qed.

(** A call on the response. *)
Lemma say_said c o :
  fine o -> said_inv c ->
  exists c', say c o = Some c' /\ said_inv c' /\ handlers c' = handlers c /\ exists r b, good r /\ answer o r = Some (response c', b).
Proof.
  intros Ho [H1 H2 H3]. destruct (rs_answer o (response c) Ho H1) as (r & stop & E & Hg). unfold say. rewrite E. run_binds.
  assert (said_inv (note (set_response c r) [Said o])) as Hn.
  { constructor; cbn [note set_response response log]; [done|..]; unfold said in *; rewrite omap_app.
    - rewrite replay_calls_app, H2. cbn. by rewrite E.
    - apply Forall_app. by split; [|repeat constructor]. }
  eexists. split; [done|]. destruct stop; [|by eauto 10]. split; [|by eauto 10].
  by apply (silent (note (set_response c r) [Said o]) _ [Aborted]).
Qed.

Lemma say_inv hs c o :
  fine o -> run_inv hs c ->
  exists c', say c o = Some c' /\ run_inv hs c' /\ handler_index c' = handler_index c /\ panicked c' = panicked c /\
    defer_head c' = defer_head c /\ exists r b, good r /\ answer o r = Some (response c', b).
Proof.
  intros Ho Hc. destruct (say_said c o Ho (ri_said _ _ Hc)) as (c' & E & Hs & _ & Hr). exists c'. split; [done|].
  unfold say in E. destruct (answer o (response c)) as [[r stop]|]; [|done]. cbn [mbind option_bind] in E. injection E as <-.
  assert (said_inv (note (set_response c r) [Said o]) -> run_inv hs (note (set_response c r) [Said o])) as Hn.
  { intros Hs'. destruct Hc as [H1 H2 H3 H4 H5 H6 H7 H8].
    constructor; cbn [note set_response handlers handler_count handler_index aborted panicked log defer_head response]; try done.
    - unfold entered in *. by rewrite omap_app, app_nil_r.
    - rewrite existsb_app, orb_false_r. done.
    - by apply quiet_app.
    - unfold cleaned, deferred in *. rewrite !omap_app. cbn [omap list_omap]. by rewrite !app_nil_r.
    - by rewrite existsb_app, H7, orb_false_r. }
  destruct stop; [|by split_and!; [apply Hn|..]]. split_and!; [|done..].
  apply stop_inv; [done|by rewrite orb_false_r|]. apply Hn. destruct Hs as [S1 S2 S3].
  constructor; [done|..]; revert S2 S3; cbn [csilk_abort note set_flags log]; unfold said; rewrite omap_app; cbn [omap list_omap]; by rewrite app_nil_r.
Qed.

Lemma say_last c o c' : say c o = Some c' -> last (said (log c')) = Some o.
Proof.
  unfold say. destruct (answer o (response c)) as [[r stop]|]; [|done]. intros [= <-]. unfold said.
  destruct stop; cbn [csilk_abort note set_flags set_response log]; rewrite ?omap_app; cbn [omap list_omap]; rewrite ?app_nil_r; apply last_snoc.
Qed.

Lemma recover_inv hs c :
  run_inv hs c ->
  exists c', recover c = Some c' /\ run_inv hs c' /\ handler_index c' = handler_index c /\ panicked c' = panicked c /\
    (panicked c = true -> defer_head c' = [] /\ last (said (log c')) = Some error_500 /\
       exists r b, good r /\ answer error_500 r = Some (response c', b)).
Proof.
  intros Hc. unfold recover. destruct (panicked c) eqn:Ep; [|exists c; by rewrite Ep].
  destruct (say_inv hs (csilk_ctx_defer_free c) error_500 rs_error (defer_free_inv _ _ Hc)) as (c' & E & H1 & H2 & H3 & H4 & H5).
  exists c'. split; [done|]. split; [done|]. split; [exact H2|]. split; [by rewrite H3|]. split; [done|].
  split; [by eapply say_last|done].
Qed.

(** Room left before the handler index could overflow. *)
Definition remaining (hs : list Z) (c : ctx) : nat := length hs - Z.to_nat (handler_index c + 1).
Definition potential (behaviour : Z -> list action) (hs : list Z) (c : ctx) : Z :=
  handler_index c + nexts behaviour hs (Z.to_nat (handler_index c + 1)).

Lemma nexts_nonneg behaviour hs i : 0 <= nexts behaviour hs i.
Proof. unfold nexts. lia. Qed.

Lemma nexts_step behaviour hs i h :
  hs !! i = Some h -> nexts behaviour hs i = Z.of_nat (length (behaviour h)) + nexts behaviour hs (S i).
Proof.
  intros Hi. unfold nexts. rewrite (drop_S hs h i Hi). cbn [map].
  change (list_sum (?a :: ?l)) with (a + list_sum l)%nat. lia.
Qed.

Lemma nexts_end behaviour hs i : (length hs <= i)%nat -> nexts behaviour hs i = 0.
Proof. intros H. unfold nexts. by rewrite drop_ge. Qed.

(** What a call may do: keep the invariant, move the index forward, and spend
    at most [n] of the room. *)
Definition runs (behaviour : Z -> list action) (hs : list Z) (n : nat) (c : ctx) (res : option ctx) : Prop :=
  exists c', res = Some c' /\ run_inv hs c' /\ handler_index c <= handler_index c' /\
    potential behaviour hs c' <= potential behaviour hs c + Z.of_nat n.

Lemma run_actions_inv behaviour hs fuel next acts :
  Forall (fine_action fine) acts -> (forall c, run_inv hs c -> (remaining hs c < fuel)%nat -> potential behaviour hs c + 1 <= INT_MAX -> runs behaviour hs 1 c (next c)) ->
  forall c, run_inv hs c -> (remaining hs c < fuel)%nat -> potential behaviour hs c + Z.of_nat (length acts) <= INT_MAX ->
  runs behaviour hs (length acts) c (run_actions next acts c).
Proof.
  intros Hf Hnext. induction Hf as [|a acts Ha _ IH]; intros c Hc Hr Hp; cbn [run_actions length] in *; [exists c; split_and!; [done|done|lia|lia]|].
  assert (forall c1, run_inv hs c1 -> handler_index c <= handler_index c1 -> potential behaviour hs c1 <= potential behaviour hs c + 1 ->
            runs behaviour hs (S (length acts)) c (run_actions next acts c1)) as Hrest.
  { intros c1 H1 Hi Hp1. destruct (IH c1 H1) as (c' & E & H' & Hi' & Hp'); [unfold remaining in *; lia|lia|].
    exists c'. split_and!; [done|done|lia|lia]. }
  destruct a; cbn [mbind option_bind].
  - destruct (Hnext c Hc Hr ltac:(lia)) as (c1 & -> & H1 & Hi & Hp1). cbn [mbind option_bind]. by apply Hrest.
  - apply Hrest; [apply stop_inv; [done|by rewrite orb_false_r|done]|done|unfold potential; cbn; lia].
  - apply Hrest; [apply defer_free_inv, stop_inv; [done|by rewrite orb_true_r|done]|done|unfold potential; cbn; lia].
  - apply Hrest; [by apply defer_inv|unfold csilk_ctx_defer; by destruct ok|unfold csilk_ctx_defer; destruct ok; unfold potential; cbn; lia].
  - destruct (say_inv hs c o Ha Hc) as (c1 & -> & H1 & Hi & _). run_binds. apply Hrest; [done|lia|unfold potential; rewrite Hi; lia].
  - destruct (recover_inv hs c Hc) as (c1 & -> & H1 & Hi & _). run_binds. apply Hrest; [done|lia|unfold potential; rewrite Hi; lia].
Qed.

(** Passing to the next index: beyond the end nothing is entered. *)
Lemma advance_end hs c :
  run_inv hs c -> Z.of_nat (length hs) <= handler_index c + 1 -> run_inv hs (set_index c (handler_index c + 1)).
Proof.
  intros [H1 H2 H3 H4 H5 H6 H7 H8] He. constructor; cbn [set_index handlers handler_count handler_index aborted panicked log defer_head]; try done; [lia|..].
  - rewrite H3. do 2 f_equal. lia.
  - apply (silent c _ []); [done|done|by rewrite app_nil_r|done].
Qed.

Lemma advance_enter hs c :
  run_inv hs c -> aborted c = false -> handler_index c + 1 < Z.of_nat (length hs) ->
  run_inv hs (note (set_index c (handler_index c + 1)) [Entered (handler_index c + 1)]).
Proof.
  intros [H1 H2 H3 H4 H5 H6 H7 H8] Ha Hlt. constructor; cbn [note set_index handlers handler_count handler_index aborted panicked log defer_head]; try done; [lia|..].
  - unfold entered in *. rewrite omap_app, H3. cbn [omap list_omap].
    replace (Nat.min (Z.to_nat (handler_index c + 1 + 1)) (length hs)) with (S (Nat.min (Z.to_nat (handler_index c + 1)) (length hs))) by lia.
    rewrite seq_S, map_app. cbn [map]. do 2 f_equal. lia.
  - rewrite existsb_app, orb_false_r. done.
  - apply quiet_app; [done|done|]. intros E. rewrite (H4 E) in Ha. done.
  - unfold cleaned, deferred in *. rewrite !omap_app. cbn [omap list_omap]. by rewrite !app_nil_r.
  - by rewrite existsb_app, H7, orb_false_r.
  - by apply (silent c _ [Entered (handler_index c + 1)]).
Qed.

Lemma csilk_next_inv behaviour hs fuel : (forall h, Forall (fine_action fine) (behaviour h)) -> forall c,
  run_inv hs c -> (remaining hs c < fuel)%nat -> potential behaviour hs c + 1 <= INT_MAX ->
  runs behaviour hs 1 c (csilk_next behaviour fuel c).
Proof.
  intros Hb. induction fuel as [|fuel IH]; intros c Hc Hr Hp; [lia|]. cbn [csilk_next].
  destruct (aborted c) eqn:Ea, (panicked c) eqn:Epk; cbn [orb]; try (exists c; split_and!; [done|done|lia|lia]).
  pose proof (ri_chain _ _ Hc) as (Eh & Ec & Hne & Hnz). pose proof (ri_low _ _ Hc) as Hlow. rewrite Eh.
  pose proof (nexts_nonneg behaviour hs (Z.to_nat (handler_index c + 1))) as Hnn. unfold potential in Hp.
  destruct (Z.leb_spec INT_MAX (handler_index c)); [lia|]. cbn [set_index handler_count]. rewrite Ec.
  destruct hs as [|h0 hs']; [done|]. set (hs := h0 :: hs') in *.
  destruct (Z.ltb_spec 0 (Z.of_nat (length hs))); [|cbn in *; lia]. cbn [andb].
  destruct (Z.leb_spec (Z.of_nat (length hs)) (handler_index c + 1)) as [He|Hlt].
  { exists (set_index c (handler_index c + 1)). split_and!; [done|by apply advance_end|cbn; lia|]. unfold potential. cbn [set_index handler_index].
    rewrite !nexts_end by lia. lia. }
  set (i := Z.to_nat (handler_index c + 1)) in *. destruct (lookup_lt_is_Some_2 hs i) as [h Hi]; [lia|].
  rewrite lookup_app_l, Hi by lia. cbn [mbind option_bind].
  assert (h <> 0) as Hh by (rewrite Forall_lookup in Hnz; by eapply Hnz). destruct (Z.eqb_spec h 0); [done|].
  pose proof (nexts_step behaviour hs i h Hi) as En.
  assert (potential behaviour hs (note (set_index c (handler_index c + 1)) [Entered (handler_index c + 1)]) =
          potential behaviour hs c + 1 - Z.of_nat (length (behaviour h))) as Ep.
  { unfold potential. cbn [note set_index handler_index]. fold i. rewrite En.
    replace (Z.to_nat (handler_index c + 1 + 1)) with (S i) by lia. lia. }
  destruct (run_actions_inv behaviour hs fuel (csilk_next behaviour fuel) (behaviour h) (Hb h) IH
              (note (set_index c (handler_index c + 1)) [Entered (handler_index c + 1)])) as (c' & E & H' & Hi' & Hp').
  - by apply advance_enter.
  - unfold remaining in *. cbn [note set_index handler_index]. lia.
  - rewrite Ep. unfold potential. fold i. lia.
  - exists c'. split_and!; [done|done|cbn in Hi'; lia|lia].
Qed.

(** The context csilk_router_match_ctx leaves for a matched route. *)
Definition routed (hs : list Z) : ctx := mk_ctx (Some (hs ++ [0])) (Z.of_nat (length hs)) (-1) false false [] r0 [].

Lemma routed_inv hs : hs <> [] -> Forall (fun h => h <> 0) hs -> good r0 -> run_inv hs (routed hs).
Proof. intros H1 H2 H3. by constructor. Qed.

(** A routed request: the run ends, in the invariant. *)
Lemma chain_run behaviour hs :
  hs <> [] -> Forall (fun h => h <> 0) hs -> nexts behaviour hs 0 <= INT_MAX ->
  (forall h, Forall (fine_action fine) (behaviour h)) -> good r0 ->
  exists c, csilk_next behaviour (S (length hs)) (routed hs) = Some c /\ run_inv hs c.
Proof.
  intros Hne Hnz Hcalls Hb Hg.
  destruct (csilk_next_inv behaviour hs (S (length hs)) Hb (routed hs)) as (c & E & H & _ & _); [by apply routed_inv|..|by exists c].
  - unfold remaining. cbn. lia.
  - unfold potential. cbn [routed handler_index]. change (Z.to_nat (-1 + 1)) with 0%nat. lia.
Qed.

(** C19: the handler chain. Dispatching a matched request runs without
    undefined behaviour whatever the handlers do (fewer than 2^31 framework
    calls in all): handlers are entered in the order of the chain, each at
    most once, none after an abort or a panic; the response is the result of
    the response calls made, in their order; and once the context is
    cleaned up every cleanup that was registered has run exactly once. *)
Theorem chain_runs_in_order (behaviour : Z -> list action) (hs : list Z)
  (Hne : hs <> []) (Hnz : Forall (fun h => h <> 0) hs) (Hcalls : nexts behaviour hs 0 <= INT_MAX)
  (Hfine : forall h, Forall (fine_action fine) (behaviour h)) (Hgood : good r0) :
  exists c, csilk_next behaviour (S (length hs)) (routed hs) = Some c /\
    (exists k, entered (log c) = map Z.of_nat (seq 0 k) /\ (k <= length hs)%nat) /\
    quiet_after_stop (log c) = true /\ replay (said (log c)) r0 = Some (response c) /\
    cleaned (log (csilk_ctx_defer_free c)) ≡ₚ deferred (log (csilk_ctx_defer_free c)) /\ defer_head (csilk_ctx_defer_free c) = [].
Proof.
  destruct (chain_run behaviour hs) as (c & E & H); [done..|]. exists c. split; [done|].
  split; [eexists; split; [exact (ri_entered _ _ H)|lia]|]. split; [exact (ri_quiet _ _ H)|]. split; [exact (si_replay _ (ri_said _ _ H))|]. split; [|done].
  pose proof (ri_cleanup _ _ (defer_free_inv _ _ H)) as Hc. cbn [csilk_ctx_defer_free note set_defer defer_head] in Hc.
  by rewrite app_nil_r in Hc.
Qed.

(** ** Recovery *)

Lemma first_handler behaviour fuel h hs :
  h <> 0 ->
  csilk_next behaviour (S fuel) (routed (h :: hs)) =
  run_actions (csilk_next behaviour fuel) (behaviour h) (note (set_index (routed (h :: hs)) 0) [Entered 0]).
Proof.
  intros Hh. cbn [csilk_next]. change (aborted (routed (h :: hs)) || panicked (routed (h :: hs))) with false. cbn iota.
  change (handlers (routed (h :: hs))) with (Some (h :: hs ++ [0])). cbn iota.
  change (INT_MAX <=? handler_index (routed (h :: hs))) with false. cbn iota zeta.
  change (handler_index (routed (h :: hs)) + 1) with 0. change (Z.to_nat 0) with 0%nat.
  assert ((0 <? handler_count (set_index (routed (h :: hs)) 0)) && (handler_count (set_index (routed (h :: hs)) 0) <=? 0) = false) as ->.
  { apply andb_false_iff. right. apply Z.leb_gt. cbn. lia. }
  change ((h :: hs ++ [0]) !! 0%nat) with (Some h). cbn [mbind option_bind]. by destruct (Z.eqb_spec h 0).
Qed.

(** Panic recovery. When the recovery middleware is the first handler the
    chain runs to its end whatever the handlers behind it do, and if any of
    them panicked the last word on the response is the error answer, whatever
    was said before or after the panic, every cleanup registered by then has
    run exactly once and none is left pending. *)
Lemma recovery_last_word (behaviour : Z -> list action) (h : Z) (hs : list Z)
  (Hb : behaviour h = csilk_recovery_handler) (Hnz : Forall (fun h => h <> 0) (h :: hs)) (Hcalls : nexts behaviour (h :: hs) 0 <= INT_MAX)
  (Hfine : forall h, Forall (fine_action fine) (behaviour h)) (Hgood : good r0) :
  exists c, csilk_next behaviour (S (length (h :: hs))) (routed (h :: hs)) = Some c /\
    said_inv c /\
    (Panicked ∈ log c -> last (said (log c)) = Some error_500 /\
       (exists r b, good r /\ answer error_500 r = Some (response c, b)) /\ defer_head c = [] /\ cleaned (log c) ≡ₚ deferred (log c)).
Proof.
  destruct (chain_run behaviour (h :: hs)) as (c & E & Hinv); [done..|]. exists c. split; [done|]. split; [exact (ri_said _ _ Hinv)|]. intros Hin.
  assert (panicked c = true) as Hp.
  { rewrite <- (ri_panic _ _ Hinv). apply existsb_exists. exists Panicked. split; [by apply list_elem_of_In|done]. }
  pose proof (ri_cleanup _ _ Hinv) as Hcl. pose proof Hnz as [Hh _]%Forall_cons. rewrite first_handler, Hb in E by done.
  unfold csilk_recovery_handler in E. cbn [run_actions] in E.
  destruct (csilk_next_inv behaviour (h :: hs) (length (h :: hs)) Hfine (note (set_index (routed (h :: hs)) 0) [Entered 0]))
    as (c1 & E1 & Hc1 & _).
  - apply (advance_enter (h :: hs) (routed (h :: hs))); [by apply routed_inv|done|cbn; lia].
  - unfold remaining. cbn. lia.
  - unfold potential. cbn [note set_index handler_index]. change (Z.to_nat (0 + 1)) with 1%nat.
    pose proof (nexts_step behaviour (h :: hs) 0 h eq_refl) as En. rewrite Hb in En. cbn [length csilk_recovery_handler] in En. lia.
  - rewrite E1 in E. run_binds. cbn [run_actions mbind option_bind] in E.
    destruct (recover_inv _ _ Hc1) as (c2 & E2 & _ & _ & Ep & Hr). rewrite E2 in E. injection E as <-. rewrite Ep in Hp.
    destruct (Hr Hp) as (Hd & Hl & Hx). rewrite Hd, app_nil_r in Hcl. by split_and!.
Qed.

(** A handler that is called outside a chain. *)
Lemma lone_handler behaviour acts c :
  Forall (fine_action fine) acts -> handlers c = None -> said_inv c ->
  exists c', run_actions (csilk_next behaviour 1) acts c = Some c' /\ said_inv c'.
Proof.
  intros Hf. revert c. induction Hf as [|a acts Ha _ IH]; intros c Hh Hc; [by exists c|]. cbn [run_actions].
  assert (forall d, said_inv (csilk_ctx_defer_free d) <-> said_inv d) as Hfree.
  { intros d. assert (said (log (csilk_ctx_defer_free d)) = said (log d)) as Es.
    { cbn. unfold said. rewrite omap_app. fold (said (map CleanedUp (defer_head d))). by rewrite said_cleanups, app_nil_r. }
    split; intros [S1 S2 S3]; constructor; try done; by rewrite ?Es in *. }
  destruct a; run_binds.
  - cbn [csilk_next]. rewrite Hh. destruct (_ || _); run_binds; by apply IH.
  - apply IH; [done|]. by apply (silent c _ [Aborted]).
  - apply IH; [done|]. apply Hfree. by apply (silent c _ [Panicked]).
  - apply IH; [by destruct ok|]. destruct ok; [|done]. by apply (silent c _ [Deferred f]).
  - destruct (say_said c o Ha Hc) as (c1 & -> & H1 & H2 & _). run_binds. apply IH; [by rewrite H2|done].
  - unfold recover. destruct (panicked c); [|by apply IH].
    destruct (say_said (csilk_ctx_defer_free c) error_500 rs_error) as (c1 & -> & H1 & H2 & _); [by apply Hfree|].
    run_binds. apply IH; [by rewrite H2|done].
Qed.

End Chain.

(** ** Handlers that only set the status *)

Definition set_status (s : Z) (_ : Z) : option (Z * bool) := Some (s, false).
Abbreviation STATUS_500 := 500 (only parsing).

#[export] Instance set_status_responds : Responds set_status STATUS_500 (fun _ => True) (fun _ => True).
Proof. constructor; [|done]. intros o r _ _. by exists o, false. Qed.

(** A chain with a handler that panics after registering two cleanups. *)
Definition demo_behaviour (h : Z) : list (action Z) :=
  match h with
  | 1 => csilk_recovery_handler
  | 2 => [Defer 21 true; Next; Respond 200; Next]
  | 3 => [Defer 31 true; Panic; Next]
  | _ => [Respond 404]
  end.

Lemma all_fine {K} (l : list (action K)) : Forall (fine_action (fun _ => True)) l.
Proof. apply Forall_true. by intros []. Qed.

Lemma chain_runs_in_order_witness :
  exists c, csilk_next set_status STATUS_500 demo_behaviour 5 (routed 0 [1; 2; 3; 4]) = Some c /\
    (exists k, entered (log c) = map Z.of_nat (seq 0 k) /\ (k <= 4)%nat) /\ quiet_after_stop (log c) = true.
Proof.
  destruct (chain_runs_in_order set_status STATUS_500 (fun _ => True) (fun _ => True) 0 demo_behaviour [1; 2; 3; 4]) as (c & H1 & H2 & H3 & _).
  - done.
  - repeat constructor; done.
  - by vm_compute.
  - intros h. apply all_fine.
  - done.
  - by exists c.
Defined.

(** ** Observation *)

(** The header of ctx_defer.c describes a panic as a jump to the recovery
    handler; [csilk_panic] returns, and the rest of the handler runs on. *)
Example panic_does_not_jump :
  exists c, csilk_next set_status STATUS_500 (fun h => if h =? 1 then [Panic; Defer 9 true; Respond 200] else []) 2 (routed 0 [1]) = Some c /\
    response c = 200 /\ defer_head c = [9].
Proof. eexists. by vm_compute. Qed.
