(* ===== verification/KvStore.v ===== *)
(** * Per-request key-value storage

    Models src/src/core/primitives/kv_store.c in its default mode (no storage
    driver) and the release of the items in [csilk_ctx_cleanup] of
    src/src/core/ctx/context.c.  Values are pointers (0 is null); the strings of
    [csilk_set_string] and [csilk_incr] live in the arena, a map from pointers to
    their text.  Every arena request consumes one answer of an oracle.  The
    calls of destructors are logged.  [None] is undefined behaviour, such as
    comparing with a null key. *)

From stdpp Require Import gmap.
From S2P Require Import Prelude.

#[local] Open Scope Z_scope.

Definition CSILK_MAX_STORAGE : nat := 64.

Record csilk_storage_item_t := mk_item { key : option bytes; value : Z; has_free : bool }.

Record kv := mk_kv {
  storage_head : list csilk_storage_item_t;
  strings : gmap Z bytes;
  freed : list Z;
  answers : list (option Z);
}.

(** One arena request: the pointer it returns, null when the oracle says so
    or is exhausted. *)
Definition request (s : kv) : option Z * kv :=
  match answers s with
  | [] => (None, s)
  | a :: rest => (a, mk_kv (storage_head s) (strings s) (freed s) rest)
  end.

Definition set_items (s : kv) (l : list csilk_storage_item_t) : kv := mk_kv l (strings s) (freed s) (answers s).
Definition free_value (s : kv) (v : Z) : kv := mk_kv (storage_head s) (strings s) (freed s ++ [v]) (answers s).

(** [csilk_arena_strdup] *)
Definition arena_strdup (s : kv) (text : bytes) : Z * kv :=
  match request s with
  | (Some p, s') => (p, mk_kv (storage_head s') (<[p := text]> (strings s')) (freed s') (answers s'))
  | (None, s') => (0, s')
  end.

(** The loop of [csilk_set_ex]: the index of the item with the key. *)
Fixpoint find_item (k : bytes) (l : list csilk_storage_item_t) : option (option nat) :=
  match l with
  | [] => Some None
  | it :: l' =>
      k' ← key it;
      if decide (k' = k) then Some (Some 0%nat)
      else r ← find_item k l'; Some (option_map S r)
  end.

Definition csilk_set_ex (s : kv) (k : bytes) (v : Z) (free_fn : bool) : option kv :=
  r ← find_item k (storage_head s);
  match r with
  | Some i =>
      it ← storage_head s !! i;
      let s := if has_free it && negb (value it =? 0) && negb (value it =? v) then free_value s (value it) else s in
      Some (set_items s (<[i := mk_item (key it) v free_fn]> (storage_head s)))
  | None =>
      if (CSILK_MAX_STORAGE <=? length (storage_head s))%nat then Some s else
      match request s with
      | (None, s) => Some s
      | (Some _, s) =>
          let '(p, s) := arena_strdup s k in
          let new_key := if p =? 0 then None else Some k in
          Some (set_items s (mk_item new_key v free_fn :: storage_head s))
      end
  end.

Definition csilk_set (s : kv) (k : bytes) (v : Z) : option kv := csilk_set_ex s k v false.

(** The value, 0 when the key is absent. *)
Definition csilk_get (s : kv) (k : bytes) : option Z :=
  r ← find_item k (storage_head s);
  match r with
  | Some i => it ← storage_head s !! i; Some (value it)
  | None => Some 0
  end.

Definition csilk_set_string (s : kv) (k v : bytes) : option (Z * kv) :=
  let '(p, s) := arena_strdup s v in
  s ← csilk_set s k p;
  Some (0, s).

(** The copy that [strdup] makes of the stored text, when it succeeds. *)
Definition csilk_get_string (strdup_ok : bool) (s : kv) (k : bytes) : option (option bytes) :=
  v ← csilk_get s k;
  if v =? 0 then Some None else
  text ← strings s !! v;
  Some (if strdup_ok then Some text else None).

(** ** Decimal text: [atoll] and [%lld] *)

(** [None] where the number does not fit (undefined in C). *)
Definition atoll (s : bytes) : option Z :=
  let r := match skip_space s with
           | c :: s' =>
               if cval c =? 45 then - digits_value 0 s'
               else if cval c =? 43 then digits_value 0 s'
               else digits_value 0 (c :: s')
           | [] => 0
           end in
  if (- 2 ^ 63 <=? r) && (r <? 2 ^ 63) then Some r else None.

(** [%lld] of a 64-bit value has at most twenty characters. *)
Definition print_lld (n : Z) : bytes := if n <? 0 then chr 45 :: dec_loop 19 (- n) [] else dec_loop 19 n [].

Definition LLONG_MAX : Z := 2 ^ 63 - 1.

(** [None] on overflow of [val++]. *)
Definition csilk_incr (s : kv) (k : bytes) : option (Z * kv) :=
  existing ← csilk_get s k;
  val ← (if existing =? 0 then Some 0 else text ← strings s !! existing; atoll text);
  if LLONG_MAX <=? val then None else
  let val := val + 1 in
  let '(p, s) := arena_strdup s (print_lld val) in
  if p =? 0 then Some (-1, s) else
  s ← csilk_set s k p;
  Some (val, s).

(** The storage part of [csilk_ctx_cleanup]. *)
Fixpoint cleanup_values (l : list csilk_storage_item_t) (acc : list Z) : list Z :=
  match l with
  | [] => acc
  | it :: l' => cleanup_values l' (if has_free it && negb (value it =? 0) then acc ++ [value it] else acc)
  end.

Definition cleanup_storage (s : kv) : kv := mk_kv [] (strings s) (cleanup_values (storage_head s) (freed s)) (answers s).

(** ** Reference: a bounded map *)

Definition binding := (bytes * (Z * bool))%type.

(** A new key is taken only while there are fewer than 64. *)
Definition accepts (k : bytes) (m : gmap bytes (Z * bool)) : bool :=
  bool_decide (is_Some (m !! k)) || (size m <? CSILK_MAX_STORAGE)%nat.

Definition a_set (op : binding) (m : gmap bytes (Z * bool)) : gmap bytes (Z * bool) :=
  if accepts op.1 m then <[op.1 := op.2]> m else m.

Definition owned (vf : Z * bool) : list Z := if vf.2 && negb (vf.1 =? 0) then [vf.1] else [].

(** The values with a destructor that the map holds. *)
Definition kept (m : gmap bytes (Z * bool)) : list Z := flat_map (fun b => owned b.2) (map_to_list m).

(** The value that a binding replaces, unless it is stored again. *)
Definition replaced (op : binding) (m : gmap bytes (Z * bool)) : list Z :=
  match m !! op.1 with Some old => if old.1 =? op.2.1 then [] else owned old | None => [] end.

(** The values that a script destroys by overwriting, in order. *)
Fixpoint dropped (ops : list binding) (m : gmap bytes (Z * bool)) : list Z :=
  match ops with
  | [] => []
  | op :: ops' => replaced op m ++ dropped ops' (a_set op m)
  end.

(** A script gives no value to the store that was destroyed ([gone]) or that
    the store owns under another key; storing a value again under its own key
    is fine. *)
Fixpoint well_used (ops : list binding) (m : gmap bytes (Z * bool)) (gone : list Z) : bool :=
  match ops with
  | [] => true
  | op :: ops' =>
      (negb (accepts op.1 m) || forallb (fun v => bool_decide (v ∉ gone) && bool_decide (v ∉ kept (delete op.1 m))) (owned op.2)) &&
      well_used ops' (a_set op m) (gone ++ replaced op m)
  end.

Fixpoint a_sets (ops : list binding) (m : gmap bytes (Z * bool)) : gmap bytes (Z * bool) :=
  match ops with
  | [] => m
  | op :: ops' => a_sets ops' (a_set op m)
  end.

Fixpoint run_sets (ops : list binding) (s : kv) : option kv :=
  match ops with
  | [] => Some s
  | (k, (v, f)) :: ops' => s' ← csilk_set_ex s k v f; run_sets ops' s'
  end.

(** ** Representation *)

Definition item_of (b : binding) : csilk_storage_item_t := mk_item (Some b.1) b.2.1 b.2.2.

Definition rep (s : kv) (ps : list binding) : Prop :=
  storage_head s = map item_of ps /\ NoDup (ps.*1) /\ (length ps <= CSILK_MAX_STORAGE)%nat.

Definition live (ps : list binding) : list Z := flat_map (fun b => owned b.2) ps.

(** The next [n] arena requests succeed. *)
Definition served (n : nat) (s : kv) : Prop :=
  (n <= length (answers s))%nat /\ Forall (fun a => match a with Some p => p <> 0 | None => False end) (answers s).

(** The search splits the list at the key or finds it absent. *)
Lemma find_cases k ps :
  (exists l1 b l2, ps = l1 ++ b :: l2 /\ b.1 = k /\ find_item k (map item_of ps) = Some (Some (length l1))) \/
  (k ∉ ps.*1 /\ find_item k (map item_of ps) = Some None).
Proof.
  induction ps as [|b ps IH]; [right; split; [by apply not_elem_of_nil|done]|].
  cbn [map find_item item_of key mbind option_bind]. destruct (decide (b.1 = k)) as [E|E]; [left; by exists [], b, ps|].
  destruct IH as [(l1 & b' & l2 & -> & Hb & ->)|[Hk ->]].
  - left. by exists (b :: l1), b', l2.
  - right. split; [|done]. rewrite fmap_cons, not_elem_of_cons. by split.
Qed.

Lemma item_middle (l1 l2 : list binding) b : map item_of (l1 ++ b :: l2) !! length l1 = Some (item_of b).
Proof. rewrite map_app. cbn [map]. apply list_lookup_middle. by rewrite length_map. Qed.

Lemma insert_middle {A} (l1 l2 : list A) x y : <[length l1 := y]> (l1 ++ x :: l2) = l1 ++ y :: l2.
Proof. rewrite insert_app_r_alt by lia. by rewrite Nat.sub_diag. Qed.

Lemma map_lookup_present (l1 l2 : list binding) b :
  NoDup ((l1 ++ b :: l2).*1) -> (list_to_map (l1 ++ b :: l2) : gmap bytes (Z * bool)) !! b.1 = Some b.2.
Proof. intros Hn. apply elem_of_list_to_map_1; [done|]. destruct b as [k vf]. apply elem_of_app. right. by left. Qed.

Lemma size_rep (ps : list binding) : NoDup (ps.*1) -> size (list_to_map ps : gmap bytes (Z * bool)) = length ps.
Proof. intros Hn. rewrite <- length_map_to_list. by rewrite (map_to_list_to_map ps Hn). Qed.

Lemma get_spec s ps k : rep s ps -> csilk_get s k = Some (default 0 (fst <$> (list_to_map ps : gmap bytes (Z * bool)) !! k)).
Proof.
  intros (E & Hn & _). unfold csilk_get. rewrite E. destruct (find_cases k ps) as [(l1 & b & l2 & -> & <- & ->)|[Hk ->]]; cbn [mbind option_bind].
  - rewrite item_middle, map_lookup_present by done. done.
  - by rewrite not_elem_of_list_to_map_1.
Qed.

Lemma replace_map (l1 l2 : list binding) b vf :
  NoDup ((l1 ++ b :: l2).*1) ->
  (list_to_map (l1 ++ (b.1, vf) :: l2) : gmap bytes (Z * bool)) = <[b.1 := vf]> (list_to_map (l1 ++ b :: l2)) /\
  NoDup ((l1 ++ (b.1, vf) :: l2).*1).
Proof.
  intros Hn. assert ((l1 ++ (b.1, vf) :: l2).*1 = (l1 ++ b :: l2).*1) as E by (by rewrite !fmap_app).
  rewrite E. split; [|done].
  rewrite (list_to_map_proper (l1 ++ (b.1, vf) :: l2) ((b.1, vf) :: l1 ++ l2));
    [|by rewrite E|by rewrite Permutation_middle].
  rewrite (list_to_map_proper (l1 ++ b :: l2) (b :: l1 ++ l2)); [|done|by rewrite Permutation_middle].
  destruct b as [k vf']. cbn. by rewrite insert_insert_eq.
Qed.

(** What one [csilk_set_ex] does to table, destructors and allocator. *)
Definition set_ok (s : kv) (ps : list binding) (k : bytes) (vf : Z * bool) (res : option kv) : Prop :=
  exists s' ps', res = Some s' /\ rep s' ps' /\
    (list_to_map ps' : gmap bytes (Z * bool)) = a_set (k, vf) (list_to_map ps) /\
    freed s' = freed s ++ replaced (k, vf) (list_to_map ps) /\
    (forall n, served (2 + n) s -> served n s').

Lemma served_weaken n n' s : (n' <= n)%nat -> served n s -> served n' s.
Proof. intros H [H1 H2]. split; [lia|done]. Qed.

(** Overwriting: the old value is released unless it is the new one. *)
Lemma set_present s l1 b l2 v f :
  rep s (l1 ++ b :: l2) -> find_item b.1 (storage_head s) = Some (Some (length l1)) ->
  set_ok s (l1 ++ b :: l2) b.1 (v, f) (csilk_set_ex s b.1 v f).
Proof.
  intros (E & Hn & Hl) Hfind. unfold csilk_set_ex. rewrite Hfind. cbn [mbind option_bind].
  rewrite E, item_middle. cbn [mbind option_bind]. destruct (replace_map l1 l2 b (v, f) Hn) as [Hm Hn'].
  set (s1 := if has_free (item_of b) && negb (value (item_of b) =? 0) && negb (value (item_of b) =? v) then free_value s (value (item_of b)) else s).
  assert (storage_head s1 = storage_head s /\ answers s1 = answers s) as [Es1 Ea1] by (unfold s1; by destruct (_ && _ && _)).
  assert (freed s1 = freed s ++ replaced (b.1, (v, f)) (list_to_map (l1 ++ b :: l2))) as Hfreed.
  { unfold s1, replaced. cbn [item_of has_free value fst snd]. rewrite map_lookup_present by done. unfold owned.
    destruct b.2 as [v0 f0]. cbn [fst snd]. destruct (v0 =? v), f0, (v0 =? 0); cbn [andb negb]; by rewrite ?app_nil_r. }
  assert (accepts b.1 (list_to_map (l1 ++ b :: l2)) = true) as Hacc.
  { unfold accepts. rewrite map_lookup_present by done. by rewrite bool_decide_true by eauto. }
  eexists _, (l1 ++ (b.1, (v, f)) :: l2). split; [done|]. split_and!.
  - split_and!; [|done|by rewrite length_app in *].
    cbn [set_items storage_head]. rewrite Es1, E, !map_app. cbn [map]. rewrite <- (length_map item_of l1) at 1. by rewrite insert_middle.
  - unfold a_set. cbn [fst snd]. by rewrite Hacc, Hm.
  - exact Hfreed.
  - intros n [H1 H2]. split; cbn [set_items answers]; rewrite Ea1; [lia|done].
Qed.

Lemma set_absent s ps k v f :
  rep s ps -> served 2 s -> k ∉ ps.*1 -> find_item k (storage_head s) = Some None ->
  set_ok s ps k (v, f) (csilk_set_ex s k v f).
Proof.
  intros (E & Hn & Hl) Hs Hk Hfind. unfold csilk_set_ex. rewrite Hfind. cbn [mbind option_bind]. rewrite E, length_map.
  assert (accepts k (list_to_map ps) = (length ps <? CSILK_MAX_STORAGE)%nat) as Hacc.
  { unfold accepts. rewrite not_elem_of_list_to_map_1 by done. rewrite bool_decide_false by (by intros []). by rewrite size_rep. }
  assert (replaced (k, (v, f)) (list_to_map ps) = []) as Hrep by (unfold replaced; cbn [fst]; by rewrite not_elem_of_list_to_map_1).
  unfold set_ok, a_set. cbn [fst snd]. rewrite Hacc, Hrep.
  destruct (Nat.leb_spec CSILK_MAX_STORAGE (length ps)), (Nat.ltb_spec (length ps) CSILK_MAX_STORAGE); try lia.
  { exists s, ps. split_and!; try done; [by rewrite app_nil_r|]. intros n Hsn. eapply served_weaken, Hsn. lia. }
  destruct Hs as [Hlen Hall]. unfold arena_strdup, request. destruct s as [items strs fr ans]. cbn [answers] in *.
  destruct ans as [|[p1|] [|[p2|] ans]]; cbn [length] in Hlen; try lia;
    apply Forall_cons in Hall as [H1 Hall]; try done; apply Forall_cons in Hall as [H2 Hall]; try done.
  assert ((p2 =? 0) = false) as Hp2 by lia. cbn [storage_head strings freed answers] in *.
  eexists _, ((k, (v, f)) :: ps). split; [done|]. split_and!.
  - split_and!; [cbn [set_items storage_head]; by rewrite E, Hp2|by apply NoDup_cons|cbn [length]; lia].
  - done.
  - by rewrite app_nil_r.
  - intros n [Hn1 Hn2]. cbn [set_items answers length] in *. unfold set_items. split; cbn [answers length]; [lia|]. by apply Forall_cons in Hn2 as [_ [_ ?]%Forall_cons].
Qed.

Lemma set_spec s ps k v f :
  rep s ps -> served 2 s -> set_ok s ps k (v, f) (csilk_set_ex s k v f).
Proof.
  intros Hr Hs. pose proof Hr as (E & _). destruct (find_cases k ps) as [(l1 & b & l2 & -> & <- & Hf)|[Hk Hf]]; rewrite <- E in Hf.
  - by apply set_present.
  - by apply set_absent.
Qed.

(** ** Whole scripts *)

Lemma run_sets_spec ops s ps :
  rep s ps -> served (2 * length ops) s ->
  exists s' ps', run_sets ops s = Some s' /\ rep s' ps' /\
    (list_to_map ps' : gmap bytes (Z * bool)) = a_sets ops (list_to_map ps) /\
    freed s' = freed s ++ dropped ops (list_to_map ps).
Proof.
  revert s ps. induction ops as [|[k [v f]] ops IH]; intros s ps Hr Hs.
  { exists s, ps. cbn [dropped]. by rewrite app_nil_r. }
  destruct (set_spec s ps k v f Hr) as (s1 & ps1 & E1 & Hr1 & Em1 & Hp1 & Hs1).
  { eapply served_weaken, Hs. cbn [length]. lia. }
  destruct (IH s1 ps1) as (s2 & ps2 & E2 & Hr2 & Em2 & Hp2); [done| |].
  { apply Hs1. eapply served_weaken, Hs. cbn [length]. lia. }
  exists s2, ps2. cbn [run_sets]. rewrite E1. cbn [mbind option_bind a_sets]. rewrite <- Em1. split_and!; [done|done|done|].
  cbn [dropped]. by rewrite Hp2, Hp1, Em1, app_assoc.
Qed.

Lemma live_kept ps : NoDup (ps.*1) -> live ps ≡ₚ kept (list_to_map ps).
Proof. intros Hn. unfold live, kept. by rewrite (map_to_list_to_map ps Hn). Qed.

(** *** No value is destroyed twice *)

Lemma kept_insert m k vf : kept (<[k := vf]> m) ≡ₚ owned vf ++ kept (delete k m).
Proof. unfold kept. rewrite <- insert_delete_eq, map_to_list_insert by apply lookup_delete_eq. done. Qed.

Lemma kept_delete m k old : m !! k = Some old -> kept m ≡ₚ owned old ++ kept (delete k m).
Proof. intros E. rewrite <- kept_insert. by rewrite insert_id. Qed.

Lemma owned_elem vf v : v ∈ owned vf -> vf.1 = v.
Proof. unfold owned. destruct (_ && _); [by intros ->%list_elem_of_singleton|by intros ?%elem_of_nil]. Qed.

Lemma owned_NoDup vf : NoDup (owned vf).
Proof. unfold owned. destruct (_ && _); [apply NoDup_singleton|apply NoDup_nil_2]. Qed.

Lemma set_NoDup op m gone : accepts op.1 m = true ->
  Forall (fun v => v ∉ gone /\ v ∉ kept (delete op.1 m)) (owned op.2) -> NoDup (gone ++ kept m) -> NoDup ((gone ++ replaced op m) ++ kept (a_set op m)).
Proof.
  intros Ha Hf Hn. rewrite Forall_forall in Hf. unfold a_set. rewrite Ha, kept_insert.
  assert (NoDup (gone ++ replaced op m ++ kept (delete op.1 m)) /\ forall v, v ∈ replaced op m -> op.2.1 <> v) as [Hn' Hr].
  { unfold replaced. destruct (m !! op.1) as [old|] eqn:E; [|rewrite delete_id in * by done; split; [done|by intros v ?%elem_of_nil]].
    rewrite (kept_delete m op.1 old E) in Hn. destruct (Z.eqb_spec old.1 op.2.1) as [|Hne].
    - split; [|by intros v ?%elem_of_nil]. cbn [app]. rewrite NoDup_app in *. destruct Hn as (N1 & N2 & N3). apply NoDup_app in N3 as (_ & _ & N3).
      split; [done|]. split; [|done]. intros x Hx Hk. apply (N2 x Hx), elem_of_app. by right.
    - split; [done|]. intros v Hv%owned_elem. congruence. }
  rewrite <- app_assoc, (Permutation_app_comm (owned op.2)), !app_assoc, Permutation_app_comm. rewrite <- app_assoc. apply NoDup_app. split; [apply owned_NoDup|]. split; [|done].
  intros v Hv. destruct (Hf v Hv) as [H1 H2]. rewrite !elem_of_app. intros [Hg|[Hd|Hk]]; [done| |done]. apply (Hr v Hd). by apply owned_elem.
Qed.

Lemma script_NoDup ops m gone : well_used ops m gone = true -> NoDup (gone ++ kept m) -> NoDup (gone ++ dropped ops m ++ kept (a_sets ops m)).
Proof.
  revert m gone. induction ops as [|op ops IH]; intros m gone Hw Hn; [done|]. cbn [well_used dropped a_sets] in *. apply andb_prop in Hw as [Hf Hw].
  rewrite <- app_assoc, (app_assoc gone). apply IH; [done|]. destruct (accepts op.1 m) eqn:Ha.
  - apply set_NoDup; [done| |done]. cbn [negb orb] in Hf. apply Forall_forall. intros v Hv. apply list_elem_of_In in Hv. pose proof (proj1 (forallb_forall _ _) Hf v Hv) as Hb.
    cbn in Hb. apply andb_prop in Hb as [H1%bool_decide_eq_true H2%bool_decide_eq_true]. done.
  - unfold a_set, replaced. rewrite Ha. unfold accepts in Ha. apply orb_false_iff in Ha as [Ha _]. apply bool_decide_eq_false in Ha.
    destruct (m !! op.1) eqn:E; [by destruct Ha|]. by rewrite app_nil_r.
Qed.

Lemma cleanup_values_spec ps acc : cleanup_values (map item_of ps) acc = acc ++ live ps.
Proof.
  revert acc. induction ps as [|b ps IH]; intros acc; cbn [map cleanup_values live flat_map]; [by rewrite app_nil_r|].
  fold (live ps). rewrite IH. unfold owned. cbn [item_of has_free value]. destruct (_ && _); [by rewrite <- app_assoc|done].
Qed.

Definition empty_kv (answers : list (option Z)) : kv := mk_kv [] ∅ [] answers.

(** C15: a request that stores any sequence of values, the arena able to serve
    it, always succeeds; afterwards a lookup of any key answers what a map bounded
    to 64 keys answers; the values destroyed by then are, in order, those that
    were overwritten by another pointer, and the end-of-request cleanup destroys
    exactly the values still stored with a destructor. Storing the same pointer
    again under its key destroys nothing, so unless a value is handed over after
    its destruction or under two keys, no value is ever destroyed twice. *)
Theorem kv_script ops ans :
  Forall (fun a => match a with Some p => p <> 0 | None => False end) ans -> (2 * length ops <= length ans)%nat ->
  exists s, run_sets ops (empty_kv ans) = Some s /\
    (forall k, csilk_get s k = Some (default 0 (fst <$> a_sets ops ∅ !! k))) /\
    freed s = dropped ops ∅ /\ freed (cleanup_storage s) ≡ₚ dropped ops ∅ ++ kept (a_sets ops ∅) /\ storage_head (cleanup_storage s) = [] /\
    (well_used ops ∅ [] = true -> NoDup (freed (cleanup_storage s))).
Proof.
  intros Ha Hl. destruct (run_sets_spec ops (empty_kv ans) []) as (s & ps & E & Hr & Em & Hp); try done.
  { split_and!; [done|constructor|cbn; lia]. }
  assert (freed (cleanup_storage s) ≡ₚ dropped ops ∅ ++ kept (a_sets ops ∅)) as Hc.
  { unfold cleanup_storage. cbn [freed]. destruct Hr as (-> & Hn & _). rewrite cleanup_values_spec, Hp, (live_kept ps Hn), Em. done. }
  exists s. split_and!; [done| |done|done|done|].
  - intros k. by rewrite (get_spec s ps k Hr), Em.
  - intros Hw. rewrite Hc. apply (script_NoDup ops ∅ [] Hw). apply NoDup_nil_2.
Qed.

(** The user is stored twice with the same pointer, then replaced. *)
Definition demo_ops : list binding :=
  [(lit "user", (16, true)); (lit "db", (32, false)); (lit "user", (16, true)); (lit "user", (48, true)); (lit "tmp", (0, true))].

Lemma kv_script_witness :
  exists s, run_sets demo_ops (empty_kv (replicate 10 (Some 64))) = Some s /\
    (forall k, csilk_get s k = Some (default 0 (fst <$> a_sets demo_ops ∅ !! k))) /\
    freed s = [16] /\ freed (cleanup_storage s) ≡ₚ [16; 48] /\ NoDup (freed (cleanup_storage s)).
Proof.
  destruct (kv_script demo_ops (replicate 10 (Some 64))) as (s & E & Hg & Hf & Hc & _ & Hn).
  - by repeat constructor.
  - cbn; lia.
  - exists s. split; [exact E|]. split; [exact Hg|]. split; [rewrite Hf; by vm_compute|].
    split; [rewrite Hc; vm_compute; reflexivity|]. apply Hn. by vm_compute.
Defined.

(** ** Counters *)

Lemma atoll_digits c t : is_digit c = true -> digits_value 0 (c :: t) < 2 ^ 63 -> 0 <= digits_value 0 (c :: t) ->
  atoll (c :: t) = Some (digits_value 0 (c :: t)).
Proof.
  intros Hd H1 H2. unfold atoll. cbn [skip_space].
  assert (is_space c = false /\ (cval c =? 45) = false /\ (cval c =? 43) = false) as (-> & -> & ->) by (unfold is_digit, is_space in *; lia).
  destruct (Z.leb_spec (- 2 ^ 63) (digits_value 0 (c :: t))), (Z.ltb_spec (digits_value 0 (c :: t)) (2 ^ 63)); done || lia.
Qed.

Lemma atoll_print_lld n : 0 <= n < 2 ^ 63 -> atoll (print_lld n) = Some n.
Proof.
  intros Hn. unfold print_lld. destruct (Z.ltb_spec n 0); [lia|].
  destruct (dec_loop_value 19 n) with (a := 0) as [w Hw]; [lia|]. specialize (Hw []). cbn [digits_value] in Hw.
  destruct (dec_loop_head 18 n []) as (c & t & E & Hd). rewrite E in *. replace (0 * w + n) with n in Hw by lia.
  rewrite atoll_digits by (rewrite ?Hw; done || lia). by rewrite Hw.
Qed.

Fixpoint incr_times (n : nat) (s : kv) (k : bytes) : option (list Z * kv) :=
  match n with
  | O => Some ([], s)
  | S n' => '(v, s) ← csilk_incr s k; '(vs, s) ← incr_times n' s k; Some (v :: vs, s)
  end.

(** The state after [m] increments. *)
Definition counting (s : kv) (k : bytes) (m : Z) : Prop :=
  exists p, p <> 0 /\ storage_head s = [mk_item (Some k) p false] /\ strings s !! p = Some (print_lld m).

Lemma incr_step s k m : 0 <= m -> m + 1 < 2 ^ 63 -> counting s k m -> served 1 s ->
  exists s', csilk_incr s k = Some (m + 1, s') /\ counting s' k (m + 1) /\ forall n, served (1 + n) s -> served n s'.
Proof.
  intros Hm Hm' (p & Hp & Ei & Et) [Hlen Hall]. destruct s as [items strs fr ans]. cbn [storage_head strings answers] in *.
  destruct ans as [|[q|] ans]; cbn [length] in Hlen; [lia| |by inversion Hall]. apply Forall_cons in Hall as [Hq Hall].
  unfold csilk_incr, csilk_get, csilk_set, csilk_set_ex. subst items. cbn [storage_head find_item key mbind option_bind].
  rewrite decide_True by done. cbn [lookup list_lookup mbind option_bind value]. destruct (Z.eqb_spec p 0); [done|].
  cbn [strings]. rewrite Et. cbn [mbind option_bind]. rewrite atoll_print_lld by lia. cbn [mbind option_bind].
  unfold LLONG_MAX. destruct (Z.leb_spec (2 ^ 63 - 1) m); [lia|]. unfold arena_strdup, request. cbn [answers].
  destruct (Z.eqb_spec q 0); [done|]. cbn [storage_head find_item key mbind option_bind]. rewrite decide_True by done.
  cbn [mbind option_bind lookup list_lookup has_free andb]. eexists. split; [done|]. split.
  - exists q. cbn [set_items storage_head strings insert list_insert]. split_and!; [done|done|by rewrite lookup_insert_eq].
  - intros j [H1 H2]. cbn [answers length] in *. apply Forall_cons in H2 as [_ H2]. split; cbn [set_items answers]; [lia|done].
Qed.

Lemma incr_rest n s k m : 0 <= m -> m + Z.of_nat n < 2 ^ 63 -> counting s k m -> served n s ->
  exists s', incr_times n s k = Some (map (fun i => m + Z.of_nat i) (seq 1 n), s').
Proof.
  revert s m. induction n as [|n IH]; intros s m Hm Hn Hc Hs; [by eexists|].
  destruct (incr_step s k m) as (s1 & E1 & Hc1 & Hs1); [done|lia|done|eapply served_weaken, Hs; lia|].
  destruct (IH s1 (m + 1)) as [s2 E2]; [lia|lia|done|by apply Hs1|].
  exists s2. cbn [incr_times]. rewrite E1. cbn [mbind option_bind]. rewrite E2. cbn [mbind option_bind seq map].
  do 3 f_equal. rewrite <- (seq_shift n 1), map_map. apply map_ext. intros i. lia.
Qed.

Lemma incr_first p q r ans k : p <> 0 -> r <> 0 -> p <> r ->
  exists s, csilk_incr (empty_kv (Some p :: Some q :: Some r :: ans)) k = Some (1, s) /\ counting s k 1 /\ answers s = ans.
Proof.
  intros Hp Hr Hpr. unfold csilk_incr. change (csilk_get (empty_kv _) k) with (Some 0). cbn [mbind option_bind Z.eqb].
  change (LLONG_MAX <=? 0) with false. cbn [Z.add]. unfold arena_strdup at 1, request at 1. cbn [empty_kv answers].
  destruct (Z.eqb_spec p 0); [done|]. unfold csilk_set, csilk_set_ex. cbn [storage_head find_item mbind option_bind length].
  change (CSILK_MAX_STORAGE <=? 0)%nat with false. unfold arena_strdup, request. cbn [answers strings storage_head freed].
  destruct (Z.eqb_spec r 0); [done|]. eexists. split; [done|]. split; [|done].
  exists p. cbn [set_items storage_head strings]. split_and!; [done|done|]. by rewrite lookup_insert_ne, lookup_insert_eq by done.
Qed.

(** Counting within a request: [n] increments of a key of a fresh context
    return 1, 2, ..., n, for every [n] below 2^63; the value read back from its
    decimal text is the one printed. *)
Theorem kv_incr_counts n k ans :
  Z.of_nat n < 2 ^ 63 -> NoDup ans -> Forall (fun a => match a with Some p => p <> 0 | None => False end) ans ->
  (n + 2 <= length ans)%nat ->
  exists s, incr_times n (empty_kv ans) k = Some (map Z.of_nat (seq 1 n), s).
Proof.
  intros Hn Hnd Ha Hl. destruct n as [|n]; [by eexists|].
  destruct ans as [|[p|] [|[q|] [|[r|] ans]]]; cbn [length] in Hl; try lia;
    repeat (apply Forall_cons in Ha as [? Ha]; try done).
  destruct (incr_first p q r ans k) as (s1 & E1 & Hc & Ea); [done|done| |].
  { intros ->. apply NoDup_cons in Hnd as [Hnd _]. apply Hnd. right. left. }
  destruct (incr_rest n s1 k 1) as [s2 E2]; [lia|lia|done|split; rewrite Ea; [lia|done]|].
  exists s2. cbn [incr_times]. rewrite E1. cbn [mbind option_bind]. rewrite E2. cbn [mbind option_bind seq map].
  do 3 f_equal. rewrite <- (seq_shift n 1), map_map. apply map_ext. intros i. lia.
Qed.

Lemma kv_incr_counts_witness :
  exists s, incr_times 12 (empty_kv (map (fun i => Some (16 * Z.of_nat i)) (seq 1 14))) (lit "hits") = Some (map Z.of_nat (seq 1 12), s).
Proof.
  apply kv_incr_counts; [lia|apply (bool_decide_unpack _); by vm_compute|by repeat constructor|by vm_compute].
Defined.

(** The limit: the 65th key is dropped without a trace, its destructor is not
    run, not even at cleanup, and [csilk_set_string] reports success. *)
Definition full_kv : option kv :=
  run_sets (map (fun i => (print_lld (Z.of_nat i), (Z.of_nat i, true))) (seq 1 64)) (empty_kv (replicate 200 (Some 4096))).

Example limit_drops_value :
  (s ← full_kv; s' ← csilk_set_ex s (lit "x") 65 true; v ← csilk_get s' (lit "x"); Some (v, bool_decide (65 ∈ freed (cleanup_storage s')))) = Some (0, false) /\
  (s ← full_kv; '(rc, s') ← csilk_set_string s (lit "x") (lit "text"); v ← csilk_get s' (lit "x"); Some (rc, v)) = Some (0, 0).
Proof. split; by vm_compute. Qed.
