(* ===== verification/BodyPool.v ===== *)
(** * Request and response bodies

    Models the size-class pool of body buffers and the ownership of bodies in
    src/src/core/ctx/context.c ([csilk_body_alloc], [csilk_body_free],
    [csilk_body_realloc], the two release functions, the setters and the body
    part of [csilk_ctx_cleanup]) and the two callbacks that collect a request
    body: [on_body] of src/src/core/http/http1_parse.c and
    [on_data_chunk_recv_callback] of src/src/core/http/h2_callbacks.c.

    The heap maps the address of a block to its size and bytes; [malloc] is a
    parameter that may fail at any call.  Bytes received from the network lie
    in the read buffers, a memory [rd] that does not change while the request
    is alive.  [None] is undefined behaviour: freeing an address that is not
    the start of a live block, or access outside a block. *)

From stdpp Require Import gmap.
From S2P Require Import Prelude.

#[local] Open Scope Z_scope.

(** ** State *)

Inductive csilk_ownership_t :=
| CSILK_OWN_NONE | CSILK_OWN_BORROWED | CSILK_OWN_ARENA | CSILK_OWN_HEAP | CSILK_OWN_POOL | CSILK_OWN_TRANSFER.

Record block := mk_block { bsize : Z; bdata : Z -> ascii }.

(** [body], [body_len], [body_capacity] and [body_ownership]. *)
Record body := mk_body { ptr : Z; len : Z; capacity : Z; ownership : csilk_ownership_t }.

(** The heap, the pool of the thread (each tier newest buffer first) and the
    answers of [malloc] so far, newest first. *)
Record pool := mk_pool { heap : gmap Z block; tiers : list (list Z); calls : list Z }.

Record ctx := mk_ctx { pl : pool; req : body; resp : body }.

Definition no_body : body := mk_body 0 0 0 CSILK_OWN_NONE.

(** ** The size-class pool *)

Definition CSILK_BODY_POOL_MAX_PER_TIER : nat := 8.
Definition k_body_tier_sizes : list Z := [65536; 131072; 262144; 524288; 1048576].

Definition csilk_body_tier_index (size : Z) : Z :=
  if size <=? 65536 then 0 else if size <=? 131072 then 1 else if size <=? 262144 then 2
  else if size <=? 524288 then 3 else if size <=? 1048576 then 4 else -1.

Definition set_heap (s : pool) (h : gmap Z block) : pool := mk_pool h (tiers s) (calls s).
Definition set_tier (s : pool) (t : nat) (l : list Z) : pool := mk_pool (heap s) (<[t := l]> (tiers s)) (calls s).

Definition free (s : pool) (p : Z) : option pool :=
  if p =? 0 then Some s else
  _ ← heap s !! p; Some (set_heap s (delete p (heap s))).

(** Writes [n] bytes of [src] from [a] on to offset [off] of block [p]. *)
Definition memcpy (s : pool) (p off : Z) (src : Z -> ascii) (a n : Z) : option pool :=
  b ← heap s !! p;
  if (0 <=? off) && (off + n <=? bsize b) then
    Some (set_heap s (<[p := mk_block (bsize b)
      (fun i => if (off <=? i) && (i <? off + n) then src (a + (i - off)) else bdata b i)]> (heap s)))
  else None.

Definition put_nul (s : pool) (p off : Z) : option pool := memcpy s p off (fun _ => NUL) 0 1.

Section bodies.

(** The allocator: the address for the [t]-th call given the live addresses,
    0 when it fails, and what a new block happens to contain. *)
Context (malloc : nat -> gset Z -> Z -> Z) (junk : nat -> Z -> ascii).

Definition do_malloc (s : pool) (n : Z) : Z * pool :=
  let t := length (calls s) in
  let p := malloc t (dom (heap s)) n in
  let h := if p =? 0 then heap s else <[p := mk_block n (junk t)]> (heap s) in
  (p, mk_pool h (tiers s) (p :: calls s)).

(** The buffer and [*out_capacity]. *)
Definition csilk_body_alloc (s : pool) (size : Z) : option (Z * Z * pool) :=
  let tier := csilk_body_tier_index size in
  if tier <? 0 then let '(p, s) := do_malloc s size in Some (p, size, s) else
  let t := Z.to_nat tier in
  tier_size ← k_body_tier_sizes !! t;
  l ← tiers s !! t;
  match l with
  | p :: l' => Some (p, tier_size, set_tier s t l')
  | [] => let '(p, s) := do_malloc s tier_size in Some (p, tier_size, s)
  end.

Definition csilk_body_free (s : pool) (p cap : Z) : option pool :=
  if p =? 0 then Some s else
  let tier := csilk_body_tier_index cap in
  if tier <? 0 then free s p else
  let t := Z.to_nat tier in
  tier_size ← k_body_tier_sizes !! t;
  if cap =? tier_size then
    l ← tiers s !! t;
    if (length l <? CSILK_BODY_POOL_MAX_PER_TIER)%nat then Some (set_tier s t (p :: l)) else free s p
  else free s p.

(** The old contents and a terminator, where they fit. *)
Definition copy_old (s : pool) (old_ptr old_len new_ptr new_cap : Z) : option pool :=
  if 0 <? old_len then
    let copy_len := if old_len <? new_cap then old_len else new_cap in
    ob ← heap s !! old_ptr;
    if bsize ob <? copy_len then None else
    s ← memcpy s new_ptr 0 (bdata ob) 0 copy_len;
    if copy_len <? new_cap then put_nul s new_ptr copy_len else Some s
  else if 0 <? new_cap then put_nul s new_ptr 0 else Some s.

Definition csilk_body_realloc (s : pool) (old_ptr old_len old_capacity new_size : Z) : option (Z * Z * pool) :=
  if old_ptr =? 0 then csilk_body_alloc s new_size else
  if new_size <=? old_capacity then Some (old_ptr, old_capacity, s) else
  '(new_ptr, new_cap, s) ← csilk_body_alloc s new_size;
  if new_ptr =? 0 then Some (0, 0, s) else
  s ← copy_old s old_ptr old_len new_ptr new_cap;
  s ← csilk_body_free s old_ptr old_capacity;
  Some (new_ptr, new_cap, s).

Fixpoint free_all (s : pool) (l : list Z) : option pool :=
  match l with
  | [] => Some s
  | p :: l' => s ← free s p; free_all s l'
  end.

(** Releases the buffers of every tier, newest first. *)
Fixpoint cleanup_tiers (s : pool) (t n : nat) : option pool :=
  match n with
  | O => Some s
  | S n' => l ← tiers s !! t; s ← free_all (set_tier s t []) l; cleanup_tiers s (S t) n'
  end.

Definition csilk_body_pool_cleanup (s : pool) : option pool := cleanup_tiers s 0 5.

(** The common text of the two release functions. *)
Definition body_release (s : pool) (b : body) : option pool :=
  match ownership b with
  | CSILK_OWN_POOL =>
      if negb (ptr b =? 0) && (0 <? capacity b) then csilk_body_free s (ptr b) (capacity b)
      else if negb (ptr b =? 0) then free s (ptr b) else Some s
  | CSILK_OWN_HEAP | CSILK_OWN_TRANSFER => if negb (ptr b =? 0) then free s (ptr b) else Some s
  | CSILK_OWN_NONE | CSILK_OWN_BORROWED | CSILK_OWN_ARENA => Some s
  end.

Definition csilk_response_body_release (c : ctx) : option ctx :=
  s ← body_release (pl c) (resp c); Some (mk_ctx s (req c) no_body).

Definition csilk_request_body_release (c : ctx) : option ctx :=
  s ← body_release (pl c) (req c); Some (mk_ctx s no_body (resp c)).

(** The returned buffer, 0 on failure. *)
Definition csilk_set_response_body_pooled (c : ctx) (size : Z) : option (Z * ctx) :=
  '(buf, cap, s) ← csilk_body_alloc (pl c) size;
  let c := mk_ctx s (req c) (resp c) in
  if buf =? 0 then Some (0, c) else
  c ← csilk_response_body_release c;
  Some (buf, mk_ctx (pl c) (req c) (mk_body buf size cap CSILK_OWN_POOL)).

Definition csilk_set_response_body_ex (c : ctx) (p n : Z) (own : csilk_ownership_t) : option ctx :=
  c ← csilk_response_body_release c;
  Some (mk_ctx (pl c) (req c) (mk_body p n 0 (if p =? 0 then CSILK_OWN_NONE else own))).

(** The body part of [csilk_ctx_cleanup]. *)
Definition cleanup_bodies (c : ctx) : option ctx :=
  c ← csilk_request_body_release c; csilk_response_body_release c.

(** ** Receiving a request body *)

Inductive verdict := HPE_OK | HPE_USER.

Context (rd : Z -> ascii) (max_body : Z).

Definition set_req (c : ctx) (s : pool) (b : body) : ctx := mk_ctx s b (resp c).

(** [memcpy(body + body_len, at, length); body[body_len + length] = 0]. *)
Definition append_chunk (s : pool) (p l at_ length : Z) : option pool :=
  s ← memcpy s p l rd at_ length; put_nul s p (l + length).

Definition on_body (c : ctx) (at_ length : Z) : option (verdict * ctx) :=
  let b := req c in
  if max_body <? wrap64 (len b + length) then Some (HPE_USER, c) else
  if SIZE_MAX - len b - 1 <? length then Some (HPE_USER, c) else
  if len b =? 0 then Some (HPE_OK, set_req c (pl c) (mk_body at_ length 0 CSILK_OWN_BORROWED)) else
  let borrowed := match ownership b with CSILK_OWN_BORROWED => true | _ => false end in
  if borrowed && (ptr b + len b =? at_) then
    Some (HPE_OK, set_req c (pl c) (mk_body (ptr b) (len b + length) (capacity b) CSILK_OWN_BORROWED))
  else
    let req_size := len b + length + 1 in
    if borrowed then
      '(new_body, cap, s) ← csilk_body_alloc (pl c) req_size;
      if new_body =? 0 then Some (HPE_USER, set_req c s (mk_body 0 0 0 (ownership b))) else
      s ← memcpy s new_body 0 rd (ptr b) (len b);
      s ← append_chunk s new_body (len b) at_ length;
      Some (HPE_OK, set_req c s (mk_body new_body (len b + length) cap CSILK_OWN_POOL))
    else if req_size <=? capacity b then
      s ← append_chunk (pl c) (ptr b) (len b) at_ length;
      Some (HPE_OK, set_req c s (mk_body (ptr b) (len b + length) (capacity b) (ownership b)))
    else
      '(new_body, cap, s) ← csilk_body_realloc (pl c) (ptr b) (len b) (capacity b) req_size;
      if new_body =? 0 then Some (HPE_USER, set_req c s b) else
      s ← append_chunk s new_body (len b) at_ length;
      Some (HPE_OK, set_req c s (mk_body new_body (len b + length) cap (ownership b))).

(** [stream]: the stream of the chunk, if [csilk_h2_get_stream] finds it, with
    its flags [stream_closed] and [request_cancelled]. *)
Definition on_data_chunk_recv_callback (c : ctx) (stream : option (bool * bool)) (data length : Z) : option (verdict * ctx) :=
  if negb (match stream with Some (closed, cancelled) => negb (closed || cancelled) | None => false end) then Some (HPE_OK, c) else
  let b := req c in
  if max_body <? wrap64 (len b + length) then Some (HPE_USER, c) else
  let req_size := wrap64 (len b + length + 1) in
  if negb (ptr b =? 0) && (req_size <=? capacity b) then
    s ← append_chunk (pl c) (ptr b) (len b) data length;
    Some (HPE_OK, set_req c s (mk_body (ptr b) (len b + length) (capacity b) (ownership b)))
  else
    '(new_body, cap, s) ← csilk_body_realloc (pl c) (ptr b) (len b) (capacity b) req_size;
    if new_body =? 0 then Some (HPE_USER, set_req c s b) else
    s ← append_chunk s new_body (len b) data length;
    Some (HPE_OK, set_req c s (mk_body new_body (len b + length) cap CSILK_OWN_POOL)).

(** ** Ownership

    Every live block is held by exactly one owner: a tier of the pool or
    somebody outside it ([held]).  Buffers in a tier have the tier's size. *)

Record pinv (s : pool) (held : list Z) : Prop := mk_pinv {
  pi_count : length (tiers s) = 5%nat;
  pi_tier : forall t l, tiers s !! t = Some l -> (length l <= CSILK_BODY_POOL_MAX_PER_TIER)%nat /\
    forall p, p ∈ l -> exists b, heap s !! p = Some b /\ k_body_tier_sizes !! t = Some (bsize b);
  pi_nodup : NoDup (concat (tiers s) ++ held);
  pi_dom : forall p, is_Some (heap s !! p) <-> p ∈ concat (tiers s) ++ held;
  pi_null : heap s !! 0 = None;
}.

(** Blocks held by others do not change. *)
Definition frame (held : list Z) (s s' : pool) : Prop := forall q, q ∈ held -> heap s' !! q = heap s !! q.

Lemma frame_refl held s : frame held s s.
Proof. by intros q _. Qed.

Lemma frame_trans held s1 s2 s3 : frame held s1 s2 -> frame held s2 s3 -> frame held s1 s3.
Proof. intros H1 H2 q Hq. by rewrite H2, H1. Qed.

Lemma frame_tail p held s s' : frame (p :: held) s s' -> frame held s s'.
Proof. intros H q Hq. apply H. by right. Qed.

Lemma pinv_perm s held held' : held ≡ₚ held' -> pinv s held -> pinv s held'.
Proof. intros E [H1 H2 H3 H4 H5]. constructor; [done|done|by rewrite <- E|intros p; rewrite H4; by rewrite E|done]. Qed.

#[local] Instance pinv_proper s : Proper ((≡ₚ) ==> iff) (pinv s).
Proof. intros h h' E. split; by apply pinv_perm. Qed.

Lemma concat_split (ts : list (list Z)) t l : ts !! t = Some l ->
  exists R, concat ts ≡ₚ l ++ R /\ forall l', concat (<[t := l']> ts) ≡ₚ l' ++ R.
Proof.
  revert t. induction ts as [|l0 ts IH]; intros [|t] E; try done.
  - injection E as ->. by exists (concat ts).
  - destruct (IH t E) as (R & H1 & H2). exists (l0 ++ R). split.
    + cbn. rewrite H1. apply Permutation_app_swap_app.
    + intros l'. cbn. rewrite H2. apply Permutation_app_swap_app.
Qed.

Lemma pinv_live s held p : pinv s held -> p ∈ held -> exists b, heap s !! p = Some b.
Proof. intros H Hp. apply (proj2 (pi_dom _ _ H p)). apply elem_of_app. by right. Qed.

Lemma pinv_nonnull s held p : pinv s held -> p ∈ held -> p <> 0.
Proof. intros H Hp ->. destruct (pinv_live _ _ _ H Hp) as [b E]. by rewrite (pi_null _ _ H) in E. Qed.

Lemma pinv_head_notin s p held : pinv s (p :: held) -> p ∉ concat (tiers s) /\ p ∉ held.
Proof.
  intros H. pose proof (pi_nodup _ _ H) as Hn. apply NoDup_app in Hn as (_ & H1 & H2). apply NoDup_cons in H2 as [H2 _].
  split; [|done]. intros Hp. apply (H1 p Hp). left.
Qed.

(** Changing the bytes of a block. *)
Lemma pinv_update s held p b b' : pinv s held -> heap s !! p = Some b -> bsize b' = bsize b -> pinv (set_heap s (<[p := b']> (heap s))) held.
Proof.
  intros [H1 H2 H3 H4 H5] E Eb. constructor; cbn [set_heap heap tiers]; try done.
  - intros t l Hl. destruct (H2 t l Hl) as [Hlen Hin]. split; [done|]. intros q Hq. destruct (Hin q Hq) as (bq & Eq & Hs).
    destruct (decide (q = p)) as [->|]; [|exists bq; by rewrite lookup_insert_ne].
    exists b'. rewrite lookup_insert_eq. split; [done|]. rewrite Eb. by simplify_eq.
  - intros q. rewrite <- H4. destruct (decide (q = p)) as [->|]; [|by rewrite lookup_insert_ne].
    rewrite lookup_insert_eq, E. split; by eexists.
  - rewrite lookup_insert_ne; [done|]. intros ->. by rewrite H5 in E.
Qed.

Definition put (b : block) (off : Z) (src : Z -> ascii) (a n : Z) : block :=
  mk_block (bsize b) (fun i => if (off <=? i) && (i <? off + n) then src (a + (i - off)) else bdata b i).

Lemma put_in b off src a n i : off <= i < off + n -> bdata (put b off src a n) i = src (a + (i - off)).
Proof. intros H. cbn [put bdata]. by destruct (Z.leb_spec off i), (Z.ltb_spec i (off + n)); try lia. Qed.

Lemma put_out b off src a n i : i < off \/ off + n <= i -> bdata (put b off src a n) i = bdata b i.
Proof. intros H. cbn [put bdata]. by destruct (Z.leb_spec off i), (Z.ltb_spec i (off + n)); try lia. Qed.

Lemma memcpy_ok s p held b off src a n :
  pinv s (p :: held) -> heap s !! p = Some b -> 0 <= off -> off + n <= bsize b ->
  exists s', memcpy s p off src a n = Some s' /\ pinv s' (p :: held) /\ frame held s s' /\ heap s' !! p = Some (put b off src a n).
Proof.
  intros H E Ho Hn. unfold memcpy. rewrite E. cbn [mbind option_bind].
  destruct (Z.leb_spec 0 off), (Z.leb_spec (off + n) (bsize b)); try lia. cbn [andb]. eexists. split; [done|]. split_and!.
  - eapply pinv_update; [done|exact E|done].
  - intros q Hq. cbn [set_heap heap]. rewrite lookup_insert_ne; [done|]. intros ->. by apply (proj2 (pinv_head_notin _ _ _ H)).
  - cbn [set_heap heap]. by rewrite lookup_insert_eq.
Qed.

Lemma free_ok s p held : pinv s (p :: held) -> exists s', free s p = Some s' /\ pinv s' held /\ frame held s s' /\ tiers s' = tiers s.
Proof.
  intros H. destruct (pinv_live s (p :: held) p H) as [b E]; [left|]. pose proof (pinv_nonnull s (p :: held) p H ltac:(left)) as Hp.
  destruct (pinv_head_notin _ _ _ H) as [Ht Hh]. unfold free. destruct (Z.eqb_spec p 0); [done|]. rewrite E. cbn [mbind option_bind].
  eexists. split; [done|]. destruct H as [H1 H2 H3 H4 H5]. split_and!; [|intros q Hq; cbn; rewrite lookup_delete_ne; [done|by intros ->]|done].
  constructor; cbn [set_heap heap tiers]; try done.
  - intros t l Hl. destruct (H2 t l Hl) as [Hlen Hin]. split; [done|]. intros q Hq. rewrite lookup_delete_ne; [by apply Hin|].
    intros ->. apply Ht. destruct (concat_split _ _ _ Hl) as (R & E' & _). rewrite E', elem_of_app. by left.
  - apply NoDup_app in H3 as (N1 & N2 & N3). apply NoDup_cons in N3 as [_ N3]. apply NoDup_app. split_and!; [done| |done].
    intros q Hq Hq'. apply (N2 q Hq). by right.
  - intros q. destruct (decide (q = p)) as [->|Hq].
    + rewrite lookup_delete_eq. split; [by intros []|]. rewrite elem_of_app. by intros [].
    + rewrite lookup_delete_ne by done. rewrite H4, !elem_of_app, elem_of_cons. naive_solver.
  - rewrite lookup_delete_ne by done. done.
Qed.

(** Moving a buffer between a tier and its holder. *)
Lemma pinv_take s t l1 l held : pinv s held -> tiers s !! t = Some (l1 ++ l) -> pinv (set_tier s t l) (l1 ++ held).
Proof.
  intros [H1 H2 H3 H4 H5] E. destruct (concat_split _ _ _ E) as (R & Ec & Ei).
  assert (concat (<[t := l]> (tiers s)) ++ l1 ++ held ≡ₚ concat (tiers s) ++ held) as Ep.
  { rewrite Ei, Ec, <- !app_assoc. by rewrite (Permutation_app_swap_app l1 l), (Permutation_app_swap_app l1 R). }
  constructor; cbn [set_tier heap tiers]; [by rewrite length_insert| |by rewrite Ep|intros q; by rewrite Ep|done].
  intros t' l' Hl'. destruct (decide (t' = t)) as [->|].
  - rewrite list_lookup_insert_eq in Hl' by (by eapply lookup_lt_Some). injection Hl' as <-.
    destruct (H2 _ _ E) as [Hlen Hin]. rewrite length_app in Hlen. split; [lia|]. intros q Hq. apply Hin. rewrite elem_of_app. by right.
  - rewrite list_lookup_insert_ne in Hl' by done. by apply H2.
Qed.

Lemma pinv_push s t p l held b :
  pinv s (p :: held) -> tiers s !! t = Some l -> (length l < CSILK_BODY_POOL_MAX_PER_TIER)%nat ->
  heap s !! p = Some b -> k_body_tier_sizes !! t = Some (bsize b) -> pinv (set_tier s t (p :: l)) held.
Proof.
  intros [H1 H2 H3 H4 H5] E Hl Eb Hsz. destruct (concat_split _ _ _ E) as (R & Ec & Ei).
  assert (concat (<[t := p :: l]> (tiers s)) ++ held ≡ₚ concat (tiers s) ++ p :: held) as Ep.
  { rewrite Ei, Ec. cbn. by rewrite <- Permutation_middle. }
  constructor; cbn [set_tier heap tiers]; [by rewrite length_insert| |by rewrite Ep|intros q; by rewrite Ep|done].
  intros t' l' Hl'. destruct (decide (t' = t)) as [->|].
  - rewrite list_lookup_insert_eq in Hl' by (by eapply lookup_lt_Some). injection Hl' as <-.
    destruct (H2 _ _ E) as [Hlen Hin]. cbn [length]. split; [lia|]. intros q [->|Hq]%elem_of_cons; [by exists b|by apply Hin].
  - rewrite list_lookup_insert_ne in Hl' by done. by apply H2.
Qed.

(** The size class of a request. *)
Lemma tier_index_spec size : 0 <= size ->
  (csilk_body_tier_index size = -1 /\ 1048576 < size) \/
  exists t n, csilk_body_tier_index size = Z.of_nat t /\ k_body_tier_sizes !! t = Some n /\ size <= n /\ (t < 5)%nat.
Proof.
  intros H. unfold csilk_body_tier_index.
  destruct (Z.leb_spec size 65536); [right; by exists 0%nat, 65536; split_and!; try lia|].
  destruct (Z.leb_spec size 131072); [right; by exists 1%nat, 131072; split_and!; try lia|].
  destruct (Z.leb_spec size 262144); [right; by exists 2%nat, 262144; split_and!; try lia|].
  destruct (Z.leb_spec size 524288); [right; by exists 3%nat, 524288; split_and!; try lia|].
  destruct (Z.leb_spec size 1048576); [right; by exists 4%nat, 1048576; split_and!; try lia|]. by left.
Qed.

Lemma tier_lookup s held t : pinv s held -> (t < 5)%nat -> exists l, tiers s !! t = Some l.
Proof. intros H Ht. apply lookup_lt_is_Some_2. by rewrite (pi_count _ _ H). Qed.

Lemma body_free_ok s p held b :
  pinv s (p :: held) -> heap s !! p = Some b -> 0 <= bsize b ->
  exists s', csilk_body_free s p (bsize b) = Some s' /\ pinv s' held /\ frame held s s'.
Proof.
  intros H E Hb. unfold csilk_body_free. pose proof (pinv_nonnull s (p :: held) p H ltac:(left)) as Hp. destruct (Z.eqb_spec p 0) as [|_]; [done|].
  destruct (free_ok s p held H) as (s1 & E1 & H1 & F1 & _).
  destruct (tier_index_spec (bsize b) Hb) as [[-> _]|(t & n & -> & En & _ & Ht)]; [cbn; by eauto|].
  destruct (Z.ltb_spec (Z.of_nat t) 0); [lia|]. rewrite Nat2Z.id, En. cbn [mbind option_bind].
  destruct (Z.eqb_spec (bsize b) n) as [Eq|]; [|by eauto]. destruct (tier_lookup _ _ t H Ht) as [l El]. rewrite El. cbn [mbind option_bind].
  destruct (Nat.ltb_spec (length l) CSILK_BODY_POOL_MAX_PER_TIER); [|by eauto].
  eexists. split; [done|]. split; [eapply pinv_push; [done|done|done|exact E|by rewrite Eq]|by intros q _].
Qed.

(** ** The allocator *)

Definition malloc_fresh : Prop := forall t D n, 0 ∉ D -> malloc t D n ∉ D.

(** Between two states only calls of [malloc] were recorded, one of them
    refused. *)
Definition grew (s s' : pool) : Prop := exists new, calls s' = new ++ calls s.
Definition out_of_memory (s s' : pool) : Prop := exists new, calls s' = new ++ calls s /\ 0 ∈ new.

Context (Hmalloc : malloc_fresh).

Lemma malloc_ok s held n : pinv s held ->
  exists p s', do_malloc s n = (p, s') /\ frame held s s' /\
    ((p = 0 /\ out_of_memory s s' /\ pinv s' held) \/ (p <> 0 /\ pinv s' (p :: held) /\ exists b, heap s' !! p = Some b /\ bsize b = n)).
Proof.
  intros H. unfold do_malloc. set (p := malloc _ _ _). assert (heap s !! p = None) as Hp.
  { apply not_elem_of_dom. apply Hmalloc. apply not_elem_of_dom, (pi_null _ _ H). }
  eexists _, _. split; [done|]. assert (p ∉ concat (tiers s) ++ held) as Hn.
  { intros X. apply (pi_dom _ _ H) in X as [b X]. by rewrite Hp in X. }
  destruct (Z.eqb_spec p 0) as [E|E].
  - split; [done|]. left. split; [done|]. split; [exists [p]; rewrite E; split; [done|by left]|]. destruct H. by constructor.
  - split. { intros q Hq. cbn [heap]. rewrite lookup_insert_ne; [done|]. intros <-. apply Hn. rewrite elem_of_app. by right. }
    right. split; [done|]. split; [|eexists; cbn [heap]; by rewrite lookup_insert_eq]. destruct H as [H1 H2 H3 H4 H5].
    constructor; cbn [heap tiers]; [done| | | |by rewrite lookup_insert_ne].
    + intros t l Hl. destruct (H2 t l Hl) as [Hlen Hin]. split; [done|]. intros q Hq. destruct (Hin q Hq) as (b & Eb & ?).
      exists b. rewrite lookup_insert_ne; [done|]. intros <-. by rewrite Hp in Eb.
    + rewrite <- Permutation_middle. by apply NoDup_cons.
    + intros q. rewrite <- Permutation_middle, elem_of_cons, <- H4. destruct (decide (q = p)) as [->|].
      * rewrite lookup_insert_eq. split; [by left|by eexists].
      * rewrite lookup_insert_ne by done. naive_solver.
Qed.

Lemma body_alloc_ok s held size : pinv s held -> 0 <= size ->
  exists p cap s', csilk_body_alloc s size = Some (p, cap, s') /\ size <= cap /\ frame held s s' /\
    ((p = 0 /\ out_of_memory s s' /\ pinv s' held) \/ (p <> 0 /\ pinv s' (p :: held) /\ exists b, heap s' !! p = Some b /\ bsize b = cap)).
Proof.
  intros H Hs. unfold csilk_body_alloc. destruct (tier_index_spec size Hs) as [[-> _]|(t & n & -> & En & Hle & Ht)]; cbn [Z.ltb Z.compare].
  { destruct (malloc_ok s held size H) as (p & s' & -> & F & Hres). by exists p, size, s'. }
  destruct (Z.ltb_spec (Z.of_nat t) 0); [lia|]. rewrite Nat2Z.id, En. destruct (tier_lookup _ _ t H Ht) as [l El]. rewrite El. cbn [mbind option_bind].
  destruct l as [|p l].
  { destruct (malloc_ok s held n H) as (p & s' & -> & F & Hres). by exists p, n, s'. }
  exists p, n, (set_tier s t l). split_and!; [done|done|by intros q _|]. right. pose proof (pinv_take s t [p] l held H El) as H'.
  split; [by apply (pinv_nonnull _ _ p H'); left|]. split; [done|]. destruct (pi_tier _ _ H _ _ El) as [_ Hin].
  destruct (Hin p) as (b & Eb & Hb); [left|]. exists b. split; [done|]. by rewrite En in Hb; injection Hb.
Qed.

Lemma copy_old_ok s p q held b b1 l :
  pinv s (q :: p :: held) -> heap s !! p = Some b -> heap s !! q = Some b1 -> 0 <= l <= bsize b -> l < bsize b1 ->
  exists s' b2, copy_old s p l q (bsize b1) = Some s' /\ pinv s' (q :: p :: held) /\ frame (p :: held) s s' /\
    heap s' !! q = Some b2 /\ bsize b2 = bsize b1 /\ forall i, 0 <= i < l -> bdata b2 i = bdata b i.
Proof.
  intros H1 E1 Eb1 Hl Hl1. unfold copy_old. destruct (Z.ltb_spec 0 l).
  - cbn zeta. destruct (Z.ltb_spec l (bsize b1)); [|lia]. rewrite E1. cbn [mbind option_bind]. destruct (Z.ltb_spec (bsize b) l); [lia|].
    destruct (memcpy_ok s q (p :: held) b1 0 (bdata b) 0 l H1 Eb1 ltac:(lia) ltac:(lia)) as (s2 & -> & P2 & F2 & Eb2). cbn [mbind option_bind].
    destruct (Z.ltb_spec l (bsize b1)); [|lia].
    destruct (memcpy_ok s2 q (p :: held) _ l (fun _ => NUL) 0 1 P2 Eb2 ltac:(lia) ltac:(cbn; lia)) as (s3 & E3 & P3 & F3 & Eb3).
    eexists _, _. split; [exact E3|]. split_and!; [done|by eapply frame_trans|exact Eb3|done|].
    intros i Hi. rewrite put_out, put_in by lia. f_equal. lia.
  - destruct (Z.ltb_spec 0 (bsize b1)); [|lia].
    destruct (memcpy_ok s q (p :: held) b1 0 (fun _ => NUL) 0 1 H1 Eb1 ltac:(lia) ltac:(lia)) as (s3 & E3 & P3 & F3 & Eb3).
    eexists _, _. split; [exact E3|]. split_and!; [done|done|exact Eb3|done|]. intros i Hi. lia.
Qed.

Lemma realloc_ok s p held b l new_size :
  pinv s (p :: held) -> heap s !! p = Some b -> 0 <= l <= bsize b -> bsize b < new_size ->
  exists q cap s', csilk_body_realloc s p l (bsize b) new_size = Some (q, cap, s') /\ frame held s s' /\
    ((q = 0 /\ out_of_memory s s' /\ pinv s' (p :: held) /\ heap s' !! p = Some b) \/
     (q <> 0 /\ pinv s' (q :: held) /\ new_size <= cap /\
        exists b', heap s' !! q = Some b' /\ bsize b' = cap /\ forall i, 0 <= i < l -> bdata b' i = bdata b i)).
Proof.
  intros H E Hl Hn. unfold csilk_body_realloc. pose proof (pinv_nonnull s (p :: held) p H ltac:(left)) as Hp.
  destruct (Z.eqb_spec p 0) as [|_]; [done|]. destruct (Z.leb_spec new_size (bsize b)); [lia|].
  destruct (body_alloc_ok s (p :: held) new_size H ltac:(lia)) as (q & cap & s1 & -> & Hcap & F1 & Hres). cbn [mbind option_bind].
  pose proof (F1 p ltac:(left)) as E1. rewrite E in E1. destruct Hres as [(-> & Hoom & H1)|(Hq & H1 & b1 & Eb1 & <-)].
  { eexists _, _, _. split; [done|]. split; [by eapply frame_tail|]. by left. }
  destruct (Z.eqb_spec q 0) as [|_]; [done|].
  destruct (copy_old_ok s1 p q held b b1 l) as (s2 & b2 & -> & H2 & F2 & Eb2 & Hsz & Hd); [done|done|done|done|lia|].
  cbn [mbind option_bind]. pose proof (F2 p ltac:(left)) as E2. rewrite E1 in E2.
  destruct (body_free_ok s2 p (q :: held) b) as (s3 & -> & H3 & F3); [by eapply pinv_perm; [apply perm_swap|]|done|lia|].
  cbn [mbind option_bind]. eexists _, _, _. split; [done|]. split.
  { eapply frame_trans; [by eapply frame_tail|]. eapply frame_trans; [by eapply frame_tail|by eapply frame_tail]. }
  right. split_and!; [done|done|lia|]. exists b2. split_and!; [|done|done]. rewrite F3; [done|left].
Qed.

(** ** Bodies *)

Definition owned (b : body) : list Z :=
  if ptr b =? 0 then [] else
  match ownership b with CSILK_OWN_POOL | CSILK_OWN_HEAP | CSILK_OWN_TRANSFER => [ptr b] | _ => [] end.

(** The recorded capacity of a pooled body is the size of its block. *)
Definition body_ok (s : pool) (b : body) : Prop :=
  ownership b = CSILK_OWN_POOL -> ptr b <> 0 -> 0 < capacity b -> exists blk, heap s !! ptr b = Some blk /\ bsize blk = capacity b.

Lemma body_ok_frame s s' b : body_ok s b -> frame (owned b) s s' -> body_ok s' b.
Proof.
  intros H F Ho Hp Hc. destruct (H Ho Hp Hc) as (blk & E & Hb). exists blk. split; [|done]. rewrite F; [done|].
  unfold owned. rewrite Ho. destruct (Z.eqb_spec (ptr b) 0); [done|left].
Qed.

Lemma release_ok s b held : pinv s (owned b ++ held) -> body_ok s b ->
  exists s', body_release s b = Some s' /\ pinv s' held /\ frame held s s'.
Proof.
  unfold owned, body_release. intros H Hb. unfold body_ok in Hb.
  destruct (Z.eqb_spec (ptr b) 0) as [E|E]; cbn [negb andb app] in *.
  { exists s. by destruct (ownership b). }
  destruct (ownership b); cbn [app] in H; try (by exists s);
    try (destruct (free_ok _ _ _ H) as (s' & ? & ? & ? & _); by exists s').
  destruct (Z.ltb_spec 0 (capacity b)).
  - destruct (Hb eq_refl E) as (blk & Eb & Hc); [done|]. rewrite <- Hc. apply body_free_ok; [done|done|lia].
  - destruct (free_ok _ _ _ H) as (s' & ? & ? & ? & _). by exists s'.
Qed.

(** The invariant of a context. *)
Definition cinv (c : ctx) : Prop := pinv (pl c) (owned (req c) ++ owned (resp c)) /\ body_ok (pl c) (req c) /\ body_ok (pl c) (resp c).

Lemma cinv_pinv c : cinv c -> pinv (pl c) (owned (req c) ++ owned (resp c)).
Proof. by intros []. Qed.

Lemma response_release_ok c X : pinv (pl c) (owned (req c) ++ owned (resp c) ++ X) -> body_ok (pl c) (resp c) ->
  exists s, csilk_response_body_release c = Some (mk_ctx s (req c) no_body) /\ pinv s (owned (req c) ++ X) /\ frame (owned (req c) ++ X) (pl c) s.
Proof.
  intros H H2. unfold csilk_response_body_release.
  destruct (release_ok (pl c) (resp c) (owned (req c) ++ X)) as (s & -> & Hs & F); [by rewrite Permutation_app_swap_app|done|]. by exists s.
Qed.

Lemma request_release_ok c : cinv c ->
  exists s, csilk_request_body_release c = Some (mk_ctx s no_body (resp c)) /\ pinv s (owned (resp c)) /\ frame (owned (resp c)) (pl c) s.
Proof.
  intros (H & H1 & H2). unfold csilk_request_body_release.
  destruct (release_ok (pl c) (req c) (owned (resp c))) as (s & -> & Hs & F); [done|done|]. by exists s.
Qed.

(** ** Collecting a request body *)

Definition slice (f : Z -> ascii) (a n : Z) : bytes := f <$> seqZ a n.

Lemma slice_app f a n m : 0 <= n -> 0 <= m -> slice f a (n + m) = slice f a n ++ slice f (a + n) m.
Proof. intros Hn Hm. unfold slice. by rewrite seqZ_app, fmap_app. Qed.

Lemma slice_ext f g a n b : (forall i, 0 <= i < n -> f (a + i) = g (b + i)) -> slice f a n = slice g b n.
Proof.
  intros H. unfold slice. apply list_eq. intros i. rewrite !list_lookup_fmap. destruct (decide (Z.of_nat i < n)) as [Hi|Hi].
  - rewrite !lookup_seqZ_lt by done. cbn. f_equal. apply H. lia.
  - by rewrite !lookup_seqZ_ge by lia.
Qed.

Lemma length_slice f a n : 0 <= n -> Z.of_nat (length (slice f a n)) = n.
Proof. intros H. unfold slice. rewrite length_fmap, length_seqZ. lia. Qed.

(** The body received so far is [text]: a view of the read buffers (HTTP/1)
    or a terminated copy in a pooled buffer. *)
Definition holds (h2 : bool) (s : pool) (b : body) (text : bytes) : Prop :=
  Z.of_nat (length text) = len b /\ len b < SIZE_MAX /\
  match ownership b with
  | CSILK_OWN_NONE => ptr b = 0 /\ capacity b = 0 /\ text = []
  | CSILK_OWN_BORROWED => h2 = false /\ slice rd (ptr b) (len b) = text
  | CSILK_OWN_POOL => (h2 = false -> text <> []) /\ exists blk, heap s !! ptr b = Some blk /\ bsize blk = capacity b /\
      len b < capacity b /\ slice (bdata blk) 0 (len b) = text /\ bdata blk (len b) = NUL
  | _ => False
  end.

Lemma holds_body_ok h2 s b text : holds h2 s b text -> body_ok s b.
Proof. intros (_ & _ & H) Ho _ _. rewrite Ho in H. destruct H as (_ & blk & ? & ? & _). by exists blk. Qed.

Lemma append_ok s p held b l text at_ n :
  pinv s (p :: held) -> heap s !! p = Some b -> 0 <= l -> 0 <= n -> l + n < bsize b -> slice (bdata b) 0 l = text ->
  exists s' b', append_chunk s p l at_ n = Some s' /\ pinv s' (p :: held) /\ frame held s s' /\ heap s' !! p = Some b' /\
    bsize b' = bsize b /\ slice (bdata b') 0 (l + n) = text ++ slice rd at_ n /\ bdata b' (l + n) = NUL.
Proof.
  intros H E Hl Hn Hs Ht. unfold append_chunk, put_nul.
  destruct (memcpy_ok s p held b l rd at_ n H E) as (s1 & -> & H1 & F1 & E1); [lia|lia|]. cbn [mbind option_bind].
  destruct (memcpy_ok s1 p held _ (l + n) (fun _ => NUL) 0 1 H1 E1) as (s2 & -> & H2 & F2 & E2); [lia|cbn [put bsize]; lia|].
  eexists _, _. split; [done|]. split_and!; [done|by eapply frame_trans|exact E2|done| |by rewrite put_in by lia].
  rewrite slice_app, <- Ht by lia. f_equal.
  - apply slice_ext. intros i Hi. by rewrite !put_out by lia.
  - apply slice_ext. intros i Hi. rewrite put_out, put_in by lia. f_equal. lia.
Qed.

(** The outcome of one chunk. *)
Definition chunk_ok (h2 : bool) (c : ctx) (text : bytes) (at_ n : Z) (res : option (verdict * ctx)) : Prop :=
  exists v c', res = Some (v, c') /\ resp c' = resp c /\ frame (owned (resp c)) (pl c) (pl c') /\
    pinv (pl c') (owned (req c') ++ owned (resp c')) /\
    match v with
    | HPE_OK => holds h2 (pl c') (req c') (text ++ slice rd at_ n) /\ Z.of_nat (length text) + n <= max_body
    | HPE_USER => (max_body < Z.of_nat (length text) + n \/ SIZE_MAX <= Z.of_nat (length text) + n \/ out_of_memory (pl c) (pl c')) /\
        exists text', holds h2 (pl c') (req c') text' /\ (length text' <= length text)%nat
    end.

Lemma owned_pool p l cap : p <> 0 -> owned (mk_body p l cap CSILK_OWN_POOL) = [p].
Proof. intros H. unfold owned. cbn. by destruct (Z.eqb_spec p 0). Qed.

Lemma length_app_slice text f a n : 0 <= n -> Z.of_nat (length (text ++ slice f a n)) = Z.of_nat (length text) + n.
Proof. intros H. rewrite length_app, Nat2Z.inj_add. by rewrite length_slice. Qed.

(** A pooled body after its new chunk was written. *)
Lemma appended h2 s p held b l text at_ n :
  pinv s (p :: held) -> p <> 0 -> heap s !! p = Some b -> Z.of_nat (length text) = l -> 0 <= n -> l + n < bsize b ->
  l + n < SIZE_MAX -> slice (bdata b) 0 l = text -> (h2 = false -> l + n <> 0) ->
  exists s', append_chunk s p l at_ n = Some s' /\ frame held s s' /\
    pinv s' (owned (mk_body p (l + n) (bsize b) CSILK_OWN_POOL) ++ held) /\
    holds h2 s' (mk_body p (l + n) (bsize b) CSILK_OWN_POOL) (text ++ slice rd at_ n).
Proof.
  intros H Hp E Hl Hn Hs Hmax Ht Hne. destruct (append_ok s p held b l text at_ n) as (s' & b' & -> & H' & F & E' & Hsz & Hd & Hz); [done|done|lia|done|done|done|].
  exists s'. split; [done|]. split; [done|]. rewrite owned_pool by done. split; [done|].
  split; [cbn [len]; rewrite length_app_slice by done; lia|]. split; [done|]. cbn [ownership ptr capacity len]. split.
  - intros Eh X. apply (f_equal (fun l => Z.of_nat (length l))) in X. rewrite length_app_slice in X by done. cbn in X. specialize (Hne Eh). lia.
  - exists b'. split_and!; done || lia.
Qed.

(** The third way of [on_body]: the view becomes a copy. *)
Lemma on_body_copy c text at_ n :
  pinv (pl c) (owned (req c) ++ owned (resp c)) -> holds false (pl c) (req c) text -> ownership (req c) = CSILK_OWN_BORROWED ->
  0 <= n -> len (req c) <> 0 -> len (req c) + n < SIZE_MAX -> len (req c) + n <= max_body ->
  chunk_ok false c text at_ n
    ('(new_body, cap, s) ← csilk_body_alloc (pl c) (len (req c) + n + 1);
     if new_body =? 0 then Some (HPE_USER, set_req c s (mk_body 0 0 0 (ownership (req c)))) else
     s ← memcpy s new_body 0 rd (ptr (req c)) (len (req c));
     s ← append_chunk s new_body (len (req c)) at_ n;
     Some (HPE_OK, set_req c s (mk_body new_body (len (req c) + n) cap CSILK_OWN_POOL))).
Proof.
  intros H (Hl & Hlm & Hh) Ho Hn Hnz Hmax Hmb. rewrite Ho in *. destruct Hh as [_ Ht].
  assert (owned (req c) = []) as Hown by (unfold owned; rewrite Ho; by destruct (_ =? _)). rewrite Hown in H. cbn [app] in H.
  destruct (body_alloc_ok (pl c) (owned (resp c)) (len (req c) + n + 1) H ltac:(lia)) as (p & cap & s1 & -> & Hcap & F1 & Hres). cbn [mbind option_bind].
  destruct Hres as [(-> & Hoom & H1)|(Hp & H1 & b1 & E1 & Eb1)].
  { eexists _, _. split; [done|]. cbn [set_req resp req pl]. split_and!; [done|done|exact H1|auto|]. exists []. split; [by split_and!|cbn; lia]. }
  subst cap. destruct (Z.eqb_spec p 0) as [|_]; [done|].
  destruct (memcpy_ok s1 p (owned (resp c)) b1 0 rd (ptr (req c)) (len (req c)) H1 E1) as (s2 & -> & H2 & F2 & E2); [lia|lia|]. cbn [mbind option_bind].
  destruct (appended false s2 p (owned (resp c)) _ (len (req c)) text at_ n H2 Hp E2) as (s3 & -> & F3 & H3 & Hh3);
    [done|done|cbn [put bsize]; lia|done| |lia|].
  { rewrite <- Ht. apply slice_ext. intros i Hi. rewrite put_in by lia. f_equal. lia. }
  cbn [mbind option_bind]. eexists _, _. split; [done|]. cbn [set_req resp req pl put bsize] in *. split_and!; [done| |done|done|lia].
  eapply frame_trans; [exact F1|]. by eapply frame_trans.
Qed.

(** The last two ways, shared with HTTP/2: in place, or into a larger buffer. *)
Lemma chunk_pooled h2 c text at_ n :
  pinv (pl c) (owned (req c) ++ owned (resp c)) -> holds h2 (pl c) (req c) text -> ownership (req c) = CSILK_OWN_POOL ->
  0 <= n -> (h2 = false -> len (req c) <> 0) -> len (req c) + n < SIZE_MAX -> len (req c) + n <= max_body ->
  chunk_ok h2 c text at_ n
    (if len (req c) + n + 1 <=? capacity (req c) then
       s ← append_chunk (pl c) (ptr (req c)) (len (req c)) at_ n;
       Some (HPE_OK, set_req c s (mk_body (ptr (req c)) (len (req c) + n) (capacity (req c)) CSILK_OWN_POOL))
     else
       '(new_body, cap, s) ← csilk_body_realloc (pl c) (ptr (req c)) (len (req c)) (capacity (req c)) (len (req c) + n + 1);
       if new_body =? 0 then Some (HPE_USER, set_req c s (req c)) else
       s ← append_chunk s new_body (len (req c)) at_ n;
       Some (HPE_OK, set_req c s (mk_body new_body (len (req c) + n) cap CSILK_OWN_POOL))).
Proof.
  intros H Hh Ho Hn Hnz Hmax Hmb. pose proof Hh as (Hl & Hlm & Hh'). rewrite Ho in Hh'. destruct Hh' as (Hne & b & E & Eb & Hcap & Ht & Hz).
  assert (ptr (req c) <> 0) as Hp. { intros X. rewrite X, (pi_null _ _ H) in E. done. }
  assert (owned (req c) = [ptr (req c)]) as Hown by (unfold owned; rewrite Ho; by destruct (Z.eqb_spec (ptr (req c)) 0)).
  rewrite Hown in H. cbn [app] in H. destruct (Z.leb_spec (len (req c) + n + 1) (capacity (req c))).
  - rewrite <- Eb in *. destruct (appended h2 (pl c) (ptr (req c)) (owned (resp c)) b (len (req c)) text at_ n) as (s & -> & F & H' & Hh');
      [done|done|done|done|done|lia|lia|done|intros X; specialize (Hnz X); lia|].
    cbn [mbind option_bind]. eexists _, _. split; [done|]. cbn [set_req resp req pl]. do 3 (split; [done|]). split; [done|lia].
  - rewrite <- Eb in *. destruct (realloc_ok (pl c) (ptr (req c)) (owned (resp c)) b (len (req c)) (len (req c) + n + 1) H E) as (q & cap & s & -> & F & Hres);
      [lia|lia|]. cbn [mbind option_bind]. destruct Hres as [(-> & Hoom & H1 & E1)|(Hq & H1 & Hc & b' & E' & Eb' & Hd)].
    + eexists _, _. split; [done|]. cbn [set_req resp req pl]. rewrite Hown. split_and!; [done|done|done|auto|]. exists text.
      split; [|done]. split; [done|]. split; [done|]. rewrite Ho. split; [done|]. exists b. rewrite <- Eb. by split_and!.
    + destruct (Z.eqb_spec q 0) as [|_]; [done|]. subst cap.
      destruct (appended h2 s q (owned (resp c)) b' (len (req c)) text at_ n) as (s2 & -> & F2 & H2 & Hh2); [done|done|done|done|done|lia|lia| |intros X; specialize (Hnz X); lia|].
      { rewrite <- Ht. apply slice_ext. intros i Hi. apply Hd. lia. }
      cbn [mbind option_bind]. eexists _, _. split; [done|]. cbn [set_req resp req pl]. split_and!; [done|by eapply frame_trans|done|done|lia].
Qed.

Lemma wrap_sum a n : 0 <= a < SIZE_MAX -> 0 <= n < 2 ^ 64 -> a + n < SIZE_MAX -> wrap64 (a + n) = a + n.
Proof. intros H1 H2 H3. apply wrap64_small. unfold SIZE_MAX in *. lia. Qed.

Lemma on_body_ok c text at_ n :
  pinv (pl c) (owned (req c) ++ owned (resp c)) -> holds false (pl c) (req c) text -> 0 <= n < 2 ^ 64 ->
  chunk_ok false c text at_ n (on_body c at_ n).
Proof.
  intros H Hh Hn. pose proof Hh as (Hl & Hlm & Hh'). unfold on_body.
  assert (forall why, (max_body < Z.of_nat (length text) + n \/ SIZE_MAX <= Z.of_nat (length text) + n \/ out_of_memory (pl c) (pl c)) = why -> why ->
    chunk_ok false c text at_ n (Some (HPE_USER, c))) as Hrej.
  { intros why <- Hwhy. eexists _, _. split; [done|]. split_and!; [done|apply frame_refl|done|done|by exists text]. }
  destruct (Z.ltb_spec max_body (wrap64 (len (req c) + n))) as [Hbig|Hfit].
  { apply (Hrej _ eq_refl). destruct (Z.lt_ge_cases (len (req c) + n) SIZE_MAX); [left|right; left; lia].
    rewrite wrap_sum in Hbig; lia. }
  destruct (Z.ltb_spec (SIZE_MAX - len (req c) - 1) n); [apply (Hrej _ eq_refl); right; left; lia|].
  rewrite wrap_sum in Hfit by lia. clear Hrej.
  assert (owned (req c) = [] -> chunk_ok false c text at_ n (Some (HPE_OK, set_req c (pl c) (mk_body at_ n 0 CSILK_OWN_BORROWED))) \/ len (req c) <> 0) as Hfirst.
  { intros Eo. destruct (decide (len (req c) = 0)) as [Hz|]; [left|by right]. assert (text = []) as -> by (destruct text; [done|cbn in *; lia]).
    rewrite Eo in H. eexists _, _. split; [done|]. cbn [set_req resp req pl]. unfold owned at 2. cbn [ptr ownership].
    split_and!; [done|apply frame_refl|by destruct (_ =? _)| |cbn; lia]. split; [|split; [cbn; lia|by split]]. cbn [app len]. rewrite length_slice; lia. }
  destruct (ownership (req c)) eqn:Eo; try done.
  - destruct Hh' as (_ & _ & ->). cbn in Hl. rewrite <- Hl in *. change (Z.of_nat 0 =? 0) with true. cbn iota.
    destruct Hfirst; [unfold owned; rewrite Eo; by destruct (_ =? _)|done|lia].
  - destruct Hh' as [_ Ht]. destruct (Z.eqb_spec (len (req c)) 0) as [Hz|Hz].
    { destruct Hfirst; [unfold owned; rewrite Eo; by destruct (_ =? _)|done|lia]. }
    cbn [andb]. destruct (Z.eqb_spec (ptr (req c) + len (req c)) at_) as [<-|_].
    + eexists _, _. split; [done|]. cbn [set_req resp req pl]. unfold owned in H |- *. rewrite Eo in H. cbn [ptr ownership].
      split_and!; [done|apply frame_refl|by destruct (ptr _ =? _)| |lia]. split; [cbn [len]; rewrite length_app_slice; lia|].
      split; [cbn; lia|]. cbn [ownership ptr len]. split; [done|]. rewrite slice_app by lia. by rewrite Ht.
    + rewrite <- Eo. apply on_body_copy; done || lia.
  - assert (len (req c) <> 0) as Hz. { intros X. destruct Hh' as [Hne _]. apply (Hne eq_refl). destruct text; [done|cbn in *; lia]. }
    destruct (Z.eqb_spec (len (req c)) 0) as [|_]; [done|]. cbn [andb]. apply chunk_pooled; done || lia.
Qed.

(** A stream that is open, as those of the messages below. *)
Definition open_stream : option (bool * bool) := Some (false, false).

Lemma on_data_chunk_ok c text at_ n :
  pinv (pl c) (owned (req c) ++ owned (resp c)) -> holds true (pl c) (req c) text -> 0 <= n -> max_body + n < SIZE_MAX ->
  Z.of_nat (length text) <= max_body -> chunk_ok true c text at_ n (on_data_chunk_recv_callback c open_stream at_ n).
Proof.
  intros H Hh Hn Hb Hm. pose proof Hh as (Hl & Hlm & Hh'). unfold on_data_chunk_recv_callback. cbn [open_stream orb negb]. rewrite wrap_sum by (unfold SIZE_MAX in *; lia).
  destruct (Z.ltb_spec max_body (len (req c) + n)) as [Hbig|Hfit].
  { eexists _, _. split; [done|]. split_and!; [done|apply frame_refl|done|lia|by exists text]. }
  rewrite wrap64_small by (unfold SIZE_MAX in *; lia). destruct (ownership (req c)) eqn:Eo; try done; [|by destruct Hh'|].
  - destruct Hh' as (Ep & Ec & ->). change (0 = len (req c)) in Hl. rewrite Ep, <- Hl. cbn [Z.eqb negb andb]. unfold csilk_body_realloc. cbn [Z.eqb].
    assert (owned (req c) = []) as Hown by (unfold owned; by rewrite Ep). rewrite Hown in H. cbn [app] in H.
    destruct (body_alloc_ok (pl c) (owned (resp c)) (0 + n + 1) H ltac:(lia)) as (p & cap & s1 & -> & Hcap & F1 & Hres). cbn [mbind option_bind].
    destruct Hres as [(-> & Hoom & H1)|(Hp & H1 & b1 & E1 & Eb1)].
    { eexists _, _. split; [done|]. cbn [set_req resp req pl]. rewrite Hown. split_and!; [done|done|exact H1|auto|]. exists []. split; [|done]. split; [done|]. by rewrite Eo. }
    subst cap. destruct (Z.eqb_spec p 0) as [|_]; [done|].
    destruct (appended true s1 p (owned (resp c)) b1 0 [] at_ n) as (s2 & -> & F2 & H2 & Hh2); [done|done|done|done|done|lia|lia|done|done|].
    cbn [mbind option_bind]. eexists _, _. split; [done|]. cbn [set_req resp req pl]. split_and!; [done|by eapply frame_trans|done|done|cbn in *; lia].
  - assert (ptr (req c) <> 0) as Hp. { intros X. destruct Hh' as (_ & b & E & _). rewrite X, (pi_null _ _ H) in E. done. }
    destruct (Z.eqb_spec (ptr (req c)) 0) as [|_]; [done|]. cbn [negb andb]. apply chunk_pooled; done || lia.
Qed.

(** ** Scripts *)

(** What happens to a context: chunks of the request body, and responses of
    the handlers, which may pass a buffer of their own ([SetOwned], allocated
    with [malloc]) or memory that is not theirs to free ([SetView]).
    [LateChunk]: an HTTP/2 chunk of a stream that is gone or over. *)
Inductive op :=
| Chunk (at_ n : Z)
| LateChunk (stream : option (bool * bool)) (at_ n : Z)
| RespPooled (size : Z)
| SetOwned (own : csilk_ownership_t) (size : Z)
| SetView (own : csilk_ownership_t) (p n : Z)
| Release
| Cleanup.

Definition owning (o : csilk_ownership_t) : bool := match o with CSILK_OWN_POOL | CSILK_OWN_HEAP | CSILK_OWN_TRANSFER => true | _ => false end.

Definition op_ok (h2 : bool) (o : op) : Prop :=
  match o with
  | Chunk _ n => 0 <= n < 2 ^ 64 /\ (h2 = true -> max_body + n < SIZE_MAX)
  | LateChunk stream _ _ => h2 = true /\ stream <> open_stream
  | RespPooled n => 0 <= n
  | SetOwned own _ => owning own = true
  | SetView own _ _ => owning own = false
  | Release | Cleanup => True
  end.

Definition run_op (h2 : bool) (o : op) (c : ctx) : option ctx :=
  match o with
  | Chunk at_ n => option_map snd (if h2 then on_data_chunk_recv_callback c open_stream at_ n else on_body c at_ n)
  | LateChunk stream at_ n => option_map snd (on_data_chunk_recv_callback c stream at_ n)
  | RespPooled n => option_map snd (csilk_set_response_body_pooled c n)
  | SetOwned own n =>
      let '(p, s) := do_malloc (pl c) n in
      let c := mk_ctx s (req c) (resp c) in
      if p =? 0 then Some c else csilk_set_response_body_ex c p n own
  | SetView own p n => csilk_set_response_body_ex c p n own
  | Release => csilk_response_body_release c
  | Cleanup => cleanup_bodies c
  end.

Fixpoint run_script (h2 : bool) (l : list op) (c : ctx) : option ctx :=
  match l with
  | [] => Some c
  | o :: l' => c ← run_op h2 o c; run_script h2 l' c
  end.

Definition start : ctx := mk_ctx (mk_pool ∅ [[]; []; []; []; []] []) no_body no_body.

(** The invariant between operations. *)
Definition sinv (h2 : bool) (c : ctx) : Prop :=
  cinv c /\ exists text, holds h2 (pl c) (req c) text /\ (h2 = true -> Z.of_nat (length text) <= max_body).

Lemma holds_frame h2 s s' b text held : pinv s (owned b ++ held) -> holds h2 s b text -> frame (owned b) s s' -> holds h2 s' b text.
Proof.
  intros Hp (H1 & H2 & H3) F. split; [done|]. split; [done|]. destruct (ownership b) eqn:Eo; try done.
  destruct H3 as (Hne & blk & E & Hrest). split; [done|]. exists blk. split; [|done]. rewrite F; [done|].
  unfold owned. rewrite Eo. destruct (Z.eqb_spec (ptr b) 0) as [X|]; [|left]. by rewrite X, (pi_null _ _ Hp) in E.
Qed.

Lemma chunk_sinv h2 c text at_ n res :
  chunk_ok h2 c text at_ n res -> sinv h2 c -> (h2 = true -> Z.of_nat (length text) <= max_body) -> 0 <= n ->
  exists c', option_map snd res = Some c' /\ sinv h2 c'.
Proof.
  intros (v & c' & -> & Er & F & Hp & Hv) [(_ & _ & Hresp) _] Hm Hn. exists c'. split; [done|].
  assert (body_ok (pl c') (resp c')) as Hr by (rewrite Er; by eapply body_ok_frame).
  destruct v; [destruct Hv as [Hh Hle]|destruct Hv as (_ & text' & Hh & Hle)].
  - split; [split_and!; [done|by eapply holds_body_ok|done]|]. eexists. split; [exact Hh|]. intros X. rewrite length_app_slice; lia.
  - split; [split_and!; [done|by eapply holds_body_ok|done]|]. eexists. split; [exact Hh|]. intros X. specialize (Hm X). lia.
Qed.

Lemma holds_none h2 s : holds h2 s no_body [].
Proof. by split_and!. Qed.

(** A new response body takes the place of the old one. *)
Lemma replace_sinv h2 c X b' text :
  pinv (pl c) (owned (req c) ++ owned (resp c) ++ X) -> body_ok (pl c) (resp c) -> holds h2 (pl c) (req c) text ->
  (h2 = true -> Z.of_nat (length text) <= max_body) -> owned b' = X -> body_ok (pl c) b' ->
  exists s, csilk_response_body_release c = Some (mk_ctx s (req c) no_body) /\ sinv h2 (mk_ctx s (req c) b').
Proof.
  intros H Hr Hh Hm <- Hb. destruct (response_release_ok c _ H Hr) as (s & E & Hs & F). exists s. split; [done|].
  assert (frame (owned (req c)) (pl c) s /\ frame (owned b') (pl c) s) as [F1 F2].
  { split; intros q Hq; apply F; rewrite elem_of_app; auto. }
  assert (holds h2 s (req c) text) as Hh' by (by eapply holds_frame; [exact H| |]). split; [|by exists text].
  split_and!; cbn [pl req resp]; [done|by eapply holds_body_ok|by eapply body_ok_frame].
Qed.

(** An allocation before it leaves the bodies as they are. *)
Lemma bodies_after h2 c s X text :
  pinv (pl c) (owned (req c) ++ owned (resp c)) -> body_ok (pl c) (resp c) -> holds h2 (pl c) (req c) text ->
  frame (owned (req c) ++ owned (resp c)) (pl c) s -> pinv s (X ++ owned (req c) ++ owned (resp c)) ->
  pinv s (owned (req c) ++ owned (resp c) ++ X) /\ body_ok s (resp c) /\ holds h2 s (req c) text.
Proof.
  intros H Hr Hh F Hp. assert (frame (owned (req c)) (pl c) s /\ frame (owned (resp c)) (pl c) s) as [F1 F2].
  { split; intros q Hq; apply F; rewrite elem_of_app; auto. }
  split_and!; [|by eapply body_ok_frame|by eapply holds_frame; [exact H| |]].
  by rewrite (app_assoc (owned (req c))), (Permutation_app_comm _ X).
Qed.

Lemma body_op_ok h2 o c : op_ok h2 o -> sinv h2 c -> exists c', run_op h2 o c = Some c' /\ sinv h2 c'.
Proof.
  intros Ho Hs. pose proof Hs as ((Hp & Hq & Hr) & text & Hh & Hm).
  assert (forall b', owned b' = [] -> body_ok (pl c) b' -> exists s, csilk_response_body_release c = Some (mk_ctx s (req c) no_body) /\ sinv h2 (mk_ctx s (req c) b')) as Hnone.
  { intros b' Eb Hb. by apply (replace_sinv h2 c [] b' text); [rewrite app_nil_r|..]. }
  destruct o as [at_ n|stream at_ n|n|own n|own p n| |]; cbn [run_op op_ok] in *.
  - destruct Ho as [Hn Hn2]. apply (chunk_sinv h2 c text at_ n); [|done|exact Hm|lia]. destruct h2; [|by apply on_body_ok].
    apply on_data_chunk_ok; [done|done|lia|auto|auto].
  - exists c. split; [|done]. unfold on_data_chunk_recv_callback. destruct Ho as [_ Ho]. by destruct stream as [[[] []]|].
  - unfold csilk_set_response_body_pooled. destruct (body_alloc_ok _ _ n Hp Ho) as (p & cap & s & -> & Hcap & F & Hres). cbn [mbind option_bind].
    destruct Hres as [(-> & _ & H1)|(Hp0 & H1 & b & E & Eb)].
    + destruct (bodies_after h2 c s [] text) as (H2 & H3 & H4); [done..|]. rewrite app_nil_r in H2.
      eexists. split; [done|]. split; [by split_and!; [|by eapply holds_body_ok|]|by exists text].
    + destruct (Z.eqb_spec p 0) as [|_]; [done|]. destruct (bodies_after h2 c s [p] text) as (H2 & H3 & H4); [done..|].
      destruct (replace_sinv h2 (mk_ctx s (req c) (resp c)) [p] (mk_body p n cap CSILK_OWN_POOL) text) as (s' & -> & Hs');
        [done|done|done|done|by apply owned_pool|by intros _ _ _; exists b|]. by eexists.
  - destruct (malloc_ok _ _ n Hp) as (p & s & -> & F & Hres). destruct Hres as [(-> & _ & H1)|(Hp0 & H1 & b & E & Eb)].
    + destruct (bodies_after h2 c s [] text) as (H2 & H3 & H4); [done..|]. rewrite app_nil_r in H2.
      eexists. split; [done|]. split; [by split_and!; [|by eapply holds_body_ok|]|by exists text].
    + destruct (Z.eqb_spec p 0) as [|_]; [done|]. destruct (bodies_after h2 c s [p] text) as (H2 & H3 & H4); [done..|].
      unfold csilk_set_response_body_ex. destruct (replace_sinv h2 (mk_ctx s (req c) (resp c)) [p] (mk_body p n 0 own) text) as (s' & -> & Hs');
        [done|done|done|done|unfold owned; cbn; by destruct (Z.eqb_spec p 0), own|by intros _ _ ?|].
      eexists. split; [done|]. cbn [pl req]. by destruct (Z.eqb_spec p 0).
  - unfold csilk_set_response_body_ex. destruct (Hnone (mk_body p n 0 (if p =? 0 then CSILK_OWN_NONE else own))) as (s & -> & H').
    + unfold owned. cbn. destruct (p =? 0); [done|]. by destruct own.
    + by intros _ _ ?.
    + by eexists.
  - destruct (Hnone no_body eq_refl ltac:(by intros ?)) as (s & -> & H'). by eexists.
  - unfold cleanup_bodies. destruct (request_release_ok c) as (s & -> & H1 & F1); [by split_and!|]. cbn [mbind option_bind].
    destruct (replace_sinv h2 (mk_ctx s no_body (resp c)) [] no_body []) as (s' & E' & H');
      [cbn [pl req resp]; by rewrite app_nil_r|by eapply body_ok_frame|apply holds_none|intros X; specialize (Hm X); cbn; lia|done|by intros ?|].
    by eexists.
Qed.

Lemma start_sinv h2 : 0 <= max_body -> sinv h2 start.
Proof.
  intros Hm. split; [|exists []; by split]. split_and!; [|by intros ?|by intros ?]. constructor; cbn [start pl tiers heap]; try done.
  - intros [|[|[|[|[|t]]]]] l E; try done; injection E as <-; (split; [cbn; lia|intros p Hx; by apply not_elem_of_nil in Hx]).
  - constructor.
  - intros p. cbn. rewrite lookup_empty. split; [by intros []|]. intros X. by apply not_elem_of_nil in X.
Qed.

Lemma run_script_ok h2 l c : Forall (op_ok h2) l -> sinv h2 c -> exists c', run_script h2 l c = Some c' /\ sinv h2 c'.
Proof.
  intros Hl. revert c. induction Hl as [|o l Ho Hl IH]; intros c Hs; [by exists c|]. cbn [run_script].
  destruct (body_op_ok h2 o c Ho Hs) as (c1 & -> & H1). cbn [mbind option_bind]. by apply IH.
Qed.

Lemma run_script_app h2 l1 l2 c : run_script h2 (l1 ++ l2) c = (c ← run_script h2 l1 c; run_script h2 l2 c).
Proof. revert c. induction l1 as [|o l1 IH]; intros c; [done|]. cbn [app run_script]. destruct (run_op h2 o c); [apply IH|done]. Qed.

(** ** The end of a thread *)

Lemma free_all_ok l s held : pinv s (l ++ held) -> exists s', free_all s l = Some s' /\ pinv s' held /\ tiers s' = tiers s.
Proof.
  revert s. induction l as [|p l IH]; intros s H; [by exists s|]. cbn [free_all app] in *.
  destruct (free_ok s p (l ++ held) H) as (s1 & -> & H1 & _ & E1). cbn [mbind option_bind]. destruct (IH s1 H1) as (s2 & -> & H2 & E2).
  exists s2. by rewrite E2.
Qed.

Lemma cleanup_tiers_ok n s t : (t + n = 5)%nat -> pinv s [] -> (forall i, (i < t)%nat -> tiers s !! i = Some []) ->
  exists s', cleanup_tiers s t n = Some s' /\ pinv s' [] /\ forall i, (i < 5)%nat -> tiers s' !! i = Some [].
Proof.
  revert s t. induction n as [|n IH]; intros s t Ht H Hi; [exists s; split_and!; [done|done|intros i ?; apply Hi; lia]|]. cbn [cleanup_tiers].
  destruct (tier_lookup s [] t H) as [l El]; [lia|]. rewrite El. cbn [mbind option_bind].
  destruct (free_all_ok l (set_tier s t []) []) as (s1 & -> & H1 & E1); [apply pinv_take; [done|by rewrite app_nil_r]|].
  cbn [mbind option_bind]. apply IH; [lia|done|]. intros i Hlt. rewrite E1. cbn [set_tier tiers]. destruct (decide (i = t)) as [->|].
  - apply list_lookup_insert_eq. rewrite (pi_count _ _ H). lia.
  - rewrite list_lookup_insert_ne by done. apply Hi. lia.
Qed.

Lemma pool_cleanup_ok s : pinv s [] -> exists s', csilk_body_pool_cleanup s = Some s' /\ heap s' = ∅.
Proof.
  intros H. destruct (cleanup_tiers_ok 5 s 0 eq_refl H) as (s' & E & H' & Ht); [intros i ?; lia|]. exists s'. split; [done|].
  apply map_empty. intros p. apply eq_None_not_Some. intros Hp. apply (pi_dom _ _ H') in Hp.
  assert (tiers s' = replicate 5 []) as Et.
  { apply list_eq. intros i. destruct (decide (i < 5)%nat); [rewrite Ht by done; by rewrite lookup_replicate_2|].
    rewrite (lookup_ge_None_2 (tiers s')) by (rewrite (pi_count _ _ H'); lia). by rewrite (lookup_ge_None_2 (replicate 5 [])) by (rewrite length_replicate; lia). }
  rewrite Et in Hp. by apply not_elem_of_nil in Hp.
Qed.

Lemma cleanup_empty h2 c : sinv h2 c -> exists s, cleanup_bodies c = Some (mk_ctx s no_body no_body) /\ pinv s [].
Proof.
  intros [Hc _]. unfold cleanup_bodies. destruct (request_release_ok c Hc) as (s & -> & H1 & F). cbn [mbind option_bind].
  destruct Hc as (_ & _ & Hr). destruct (response_release_ok (mk_ctx s no_body (resp c)) []) as (s' & -> & H' & _);
    [cbn [pl req resp]; by rewrite app_nil_r|by eapply body_ok_frame|]. by exists s'.
Qed.

(** ** Receiving a whole message *)

Fixpoint receive (h2 : bool) (l : list (Z * Z)) (c : ctx) : option (verdict * ctx) :=
  match l with
  | [] => Some (HPE_OK, c)
  | (at_, n) :: l' =>
      '(v, c) ← (if h2 then on_data_chunk_recv_callback c open_stream at_ n else on_body c at_ n);
      match v with HPE_OK => receive h2 l' c | HPE_USER => Some (HPE_USER, c) end
  end.

Definition message (l : list (Z * Z)) : bytes := concat (map (fun '(a, n) => slice rd a n) l).

(** The bytes the handler sees. *)
Definition body_text (c : ctx) : option bytes :=
  match ownership (req c) with
  | CSILK_OWN_BORROWED => Some (slice rd (ptr (req c)) (len (req c)))
  | CSILK_OWN_POOL => b ← heap (pl c) !! ptr (req c); Some (slice (bdata b) 0 (len (req c)))
  | _ => Some []
  end.

Lemma holds_text h2 c text : holds h2 (pl c) (req c) text -> body_text c = Some text /\ len (req c) = Z.of_nat (length text).
Proof.
  intros (Hl & _ & H). unfold body_text. split; [|done]. destruct (ownership (req c)); try done.
  - by destruct H as (_ & _ & ->).
  - by destruct H as (_ & ->).
  - destruct H as (_ & b & -> & _ & _ & <- & _). done.
Qed.

Definition chunk_size_ok (h2 : bool) (an : Z * Z) : Prop := 0 <= an.2 < 2 ^ 64 /\ (h2 = true -> max_body + an.2 < SIZE_MAX).

(** *** The calls of [malloc] are recorded one after the other *)

Lemma grew_refl s : grew s s.
Proof. by exists []. Qed.

Lemma memcpy_calls s p off src a n s' : memcpy s p off src a n = Some s' -> calls s' = calls s.
Proof. unfold memcpy. destruct (heap s !! p); [|done]. cbn [mbind option_bind]. destruct (_ && _); [|done]. by intros [= <-]. Qed.

Lemma append_calls s p l a n s' : append_chunk s p l a n = Some s' -> calls s' = calls s.
Proof.
  unfold append_chunk, put_nul. destruct (memcpy s p l rd a n) as [s1|] eqn:E; [|done]. cbn [mbind option_bind]. intros E'%memcpy_calls.
  apply memcpy_calls in E. congruence.
Qed.

Lemma free_calls s p s' : free s p = Some s' -> calls s' = calls s.
Proof. unfold free. destruct (p =? 0); [by intros [= <-]|]. destruct (heap s !! p); [|done]. by intros [= <-]. Qed.

Lemma body_free_calls s p cap s' : csilk_body_free s p cap = Some s' -> calls s' = calls s.
Proof.
  unfold csilk_body_free. destruct (p =? 0); [by intros [= <-]|]. destruct (_ <? 0); [apply free_calls|].
  destruct (k_body_tier_sizes !! _); [|done]. cbn [mbind option_bind]. destruct (cap =? z); [|apply free_calls].
  destruct (tiers s !! _) as [l|]; [|done]. cbn [mbind option_bind]. destruct (_ <? _)%nat; [by intros [= <-]|apply free_calls].
Qed.

Lemma copy_old_calls s p l q cap s' : copy_old s p l q cap = Some s' -> calls s' = calls s.
Proof.
  unfold copy_old, put_nul. destruct (0 <? l).
  - destruct (heap s !! p); [|done]. cbn [mbind option_bind]. destruct (_ <? _); [done|]. destruct (memcpy s q 0 _ _ _) as [s1|] eqn:E; [|done].
    cbn [mbind option_bind]. apply memcpy_calls in E. destruct (_ <? cap); [intros E'%memcpy_calls; congruence|by intros [= <-]].
  - destruct (_ <? cap); [apply memcpy_calls|by intros [= <-]].
Qed.

Lemma body_alloc_grew s size p cap s' : csilk_body_alloc s size = Some (p, cap, s') -> grew s s'.
Proof.
  unfold csilk_body_alloc, do_malloc, grew. destruct (_ <? 0); [intros [= <- <- <-]; by eexists [_]|].
  destruct (k_body_tier_sizes !! _); [|done]. cbn [mbind option_bind]. destruct (tiers s !! _) as [[|q l]|]; [..|done]; cbn [mbind option_bind].
  - intros [= <- <- <-]. by eexists [_].
  - intros [= <- <- <-]. by exists [].
Qed.

Lemma realloc_grew s p l cap n q cap' s' : csilk_body_realloc s p l cap n = Some (q, cap', s') -> grew s s'.
Proof.
  unfold csilk_body_realloc. destruct (p =? 0); [apply body_alloc_grew|]. destruct (n <=? cap); [intros [= <- <- <-]; apply grew_refl|].
  destruct (csilk_body_alloc s n) as [[[q1 c1] s1]|] eqn:E; [|done]. cbn [mbind option_bind]. apply body_alloc_grew in E as [new En].
  destruct (q1 =? 0); [intros [= <- <- <-]; by exists new|]. destruct (copy_old s1 p l q1 c1) as [s2|] eqn:E2; [|done]. cbn [mbind option_bind].
  destruct (csilk_body_free s2 p cap) as [s3|] eqn:E3; [|done]. intros [= <- <- <-]. apply copy_old_calls in E2. apply body_free_calls in E3.
  exists new. congruence.
Qed.

Lemma on_body_grew c a n v c' : on_body c a n = Some (v, c') -> grew (pl c) (pl c').
Proof.
  unfold on_body. destruct (max_body <? _); [intros [= <- <-]; apply grew_refl|]. destruct (_ <? n); [intros [= <- <-]; apply grew_refl|].
  destruct (len (req c) =? 0); [intros [= <- <-]; apply grew_refl|]. destruct (_ && (_ =? a)); [intros [= <- <-]; apply grew_refl|].
  destruct (match ownership (req c) with CSILK_OWN_BORROWED => true | _ => false end).
  - destruct (csilk_body_alloc _ _) as [[[q cap] s1]|] eqn:E; [|done]. cbn [mbind option_bind]. apply body_alloc_grew in E as [new En].
    destruct (q =? 0); [intros [= <- <-]; by exists new|]. destruct (memcpy s1 q 0 rd _ _) as [s2|] eqn:E2; [|done]. cbn [mbind option_bind].
    destruct (append_chunk s2 _ _ _ _) as [s3|] eqn:E3; [|done]. intros [= <- <-]. apply memcpy_calls in E2. apply append_calls in E3. exists new. cbn. congruence.
  - destruct (_ <=? capacity _).
    + destruct (append_chunk _ _ _ _ _) as [s3|] eqn:E3; [|done]. intros [= <- <-]. apply append_calls in E3. exists []. done.
    + destruct (csilk_body_realloc _ _ _ _ _) as [[[q cap] s1]|] eqn:E; [|done]. cbn [mbind option_bind]. apply realloc_grew in E as [new En].
      destruct (q =? 0); [intros [= <- <-]; by exists new|]. destruct (append_chunk s1 _ _ _ _) as [s3|] eqn:E3; [|done].
      intros [= <- <-]. apply append_calls in E3. exists new. cbn. congruence.
Qed.

Lemma on_data_chunk_grew c st a n v c' : on_data_chunk_recv_callback c st a n = Some (v, c') -> grew (pl c) (pl c').
Proof.
  unfold on_data_chunk_recv_callback. destruct (negb _); [intros [= <- <-]; apply grew_refl|].
  destruct (max_body <? _); [intros [= <- <-]; apply grew_refl|]. destruct (_ && _).
  - destruct (append_chunk _ _ _ _ _) as [s3|] eqn:E3; [|done]. intros [= <- <-]. apply append_calls in E3. by exists [].
  - destruct (csilk_body_realloc _ _ _ _ _) as [[[q cap] s1]|] eqn:E; [|done]. cbn [mbind option_bind]. apply realloc_grew in E as [new En].
    destruct (q =? 0); [intros [= <- <-]; by exists new|]. destruct (append_chunk s1 _ _ _ _) as [s3|] eqn:E3; [|done].
    intros [= <- <-]. apply append_calls in E3. exists new. cbn. congruence.
Qed.

Lemma out_of_memory_after s1 s2 s3 : grew s1 s2 -> out_of_memory s2 s3 -> out_of_memory s1 s3.
Proof. intros [n1 E1] (n2 & E2 & Hin). exists (n2 ++ n1). rewrite E2, E1, app_assoc, elem_of_app. auto. Qed.

Lemma receive_ok h2 l c text :
  Forall (chunk_size_ok h2) l -> pinv (pl c) (owned (req c) ++ owned (resp c)) -> holds h2 (pl c) (req c) text -> Z.of_nat (length text) <= max_body ->
  exists v c', receive h2 l c = Some (v, c') /\
    match v with
    | HPE_OK => holds h2 (pl c') (req c') (text ++ message l) /\ Z.of_nat (length (text ++ message l)) <= max_body
    | HPE_USER => max_body < Z.of_nat (length (text ++ message l)) \/ SIZE_MAX <= Z.of_nat (length (text ++ message l)) \/ out_of_memory (pl c) (pl c')
    end.
Proof.
  intros Hl. revert c text. induction Hl as [|[a n] l [Hn Hn2] Hl IH]; intros c text Hp Hh Hm.
  { eexists _, _. split; [done|]. cbn. by rewrite app_nil_r. }
  cbn [receive snd] in *. assert (chunk_ok h2 c text a n (if h2 then on_data_chunk_recv_callback c open_stream a n else on_body c a n)) as (v & c1 & E & _ & _ & Hp1 & Hv).
  { destruct h2; [apply on_data_chunk_ok; auto; lia|by apply on_body_ok]. }
  assert (grew (pl c) (pl c1)) as Hg by (destruct h2; [by eapply on_data_chunk_grew|by eapply on_body_grew]).
  rewrite E. cbn [mbind option_bind]. replace (text ++ message ((a, n) :: l)) with ((text ++ slice rd a n) ++ message l) by (by rewrite <- app_assoc).
  destruct v.
  - destruct Hv as [Hh1 Hle]. destruct (IH c1 _ Hp1 Hh1) as (v & c2 & E2 & Hv); [rewrite length_app_slice; lia|]. exists v, c2. split; [done|].
    destruct v; [done|]. destruct Hv as [?|[?|?]]; auto. right. right. by eapply out_of_memory_after.
  - eexists _, _. split; [done|]. cbn. destruct Hv as [Hv _]. rewrite length_app, Nat2Z.inj_add, length_app_slice by lia. destruct Hv as [?|[?|?]]; [left; lia|right; left; lia|auto].
Qed.
End bodies.

(** ** Properties *)

(** C37: ownership of bodies. Whatever chunks arrive and whatever responses
    the handlers set, in any order and with [malloc] failing at any point, no
    operation frees a block that is not live or writes outside one; at every
    moment each live block has exactly one owner, a tier of the pool, the
    request or the response; and when the context is cleaned up and the
    thread ends, no block is left. *)
Theorem bodies_owned_once (malloc : nat -> gset Z -> Z -> Z) (junk : nat -> Z -> ascii) (rd : Z -> ascii) (max_body : Z) (h2 : bool) (l : list op) :
  malloc_fresh malloc -> 0 <= max_body -> Forall (op_ok max_body h2) l ->
  exists c, run_script malloc junk rd max_body h2 l start = Some c /\
    NoDup (concat (tiers (pl c)) ++ owned (req c) ++ owned (resp c)) /\
    (forall p, is_Some (heap (pl c) !! p) <-> p ∈ concat (tiers (pl c)) ++ owned (req c) ++ owned (resp c)) /\
    exists c' s, cleanup_bodies c = Some c' /\ csilk_body_pool_cleanup (pl c') = Some s /\ heap s = ∅.
Proof.
  intros Hf Hm Hl. destruct (run_script_ok malloc junk rd max_body Hf h2 l start Hl (start_sinv _ _ h2 Hm)) as (c & E & Hs).
  exists c. split; [done|]. pose proof (cinv_pinv c (proj1 Hs)) as Hp. split; [apply (pi_nodup _ _ Hp)|]. split; [apply (pi_dom _ _ Hp)|].
  destruct (cleanup_empty rd max_body h2 c Hs) as (s & E1 & H1). destruct (pool_cleanup_ok rd s H1) as (s' & E2 & H2). by exists (mk_ctx s no_body no_body), s'.
Qed.

(** An allocator that refuses the second call and otherwise takes any address
    not in use. *)
Definition demo_malloc (t : nat) (D : gset Z) (n : Z) : Z := if decide (t = 1%nat) then 0 else fresh ({[0]} ∪ D).

Lemma demo_malloc_fresh : malloc_fresh demo_malloc.
Proof.
  intros t D n H0. unfold demo_malloc. case_decide; [done|]. pose proof (is_fresh ({[0]} ∪ D)) as Hx. intros X. apply Hx. by apply elem_of_union_r.
Qed.

Definition demo_ops : list op :=
  [Chunk 100 5; Chunk 105 3; Chunk 200 70000; RespPooled 10; SetOwned CSILK_OWN_HEAP 7; SetView CSILK_OWN_ARENA 4096 9;
   Cleanup; Chunk 300 4; Chunk 400 4; RespPooled 80; Release].

Lemma demo_script_ok : Forall (op_ok 1000000 false) demo_ops.
Proof.
  unfold demo_ops. repeat apply Forall_cons_2; try apply Forall_nil_2; cbn [op_ok owning]; first [done|lia|split; [lia|done]].
Qed.

Lemma bodies_owned_once_witness :
  exists c, run_script demo_malloc (fun _ _ => NUL) (fun a => chr a) 1000000 false demo_ops start = Some c /\
    exists c' s, cleanup_bodies c = Some c' /\ csilk_body_pool_cleanup (pl c') = Some s /\ heap s = ∅.
Proof.
  destruct (bodies_owned_once demo_malloc (fun _ _ => NUL) (fun a => chr a) 1000000 false demo_ops demo_malloc_fresh) as (c & H1 & _ & _ & H2);
    [lia|exact demo_script_ok|exact (ex_intro _ c (conj H1 H2))].
Defined.

(** C38: the request body. After any history that ended with a cleanup (so the
    pool may hold old buffers), the chunks of a message are collected exactly:
    if every chunk is accepted the handler sees their concatenation, of at
    most [max_body] bytes, whether it is a view of the read buffers or a copy;
    and a chunk is refused only when the message exceeds the limit or a call
    of [malloc] made for this message was refused. *)
Theorem request_body_exact (malloc : nat -> gset Z -> Z -> Z) (junk : nat -> Z -> ascii) (rd : Z -> ascii) (max_body : Z) (h2 : bool)
    (past : list op) (l : list (Z * Z)) :
  malloc_fresh malloc -> 0 <= max_body < SIZE_MAX -> Forall (op_ok max_body h2) past -> Forall (chunk_size_ok max_body h2) l ->
  exists c0 v c, run_script malloc junk rd max_body h2 (past ++ [Cleanup]) start = Some c0 /\
    receive malloc junk rd max_body h2 l c0 = Some (v, c) /\
    (v = HPE_OK -> body_text rd c = Some (message rd l) /\ len (req c) = Z.of_nat (length (message rd l)) /\ len (req c) <= max_body) /\
    (v = HPE_USER -> max_body < Z.of_nat (length (message rd l)) \/ out_of_memory (pl c0) (pl c)).
Proof.
  intros Hf Hm Hp Hl. destruct (run_script_ok malloc junk rd max_body Hf h2 past start Hp (start_sinv rd max_body h2 (proj1 Hm))) as (c1 & E1 & Hs1).
  destruct (cleanup_empty rd max_body h2 c1 Hs1) as (s & E2 & H2).
  destruct (receive_ok malloc junk rd max_body Hf h2 l (mk_ctx s no_body no_body) [] Hl H2 (holds_none _ _ _) ltac:(cbn; lia)) as (v & c & E3 & Hv).
  eexists _, v, c. split; [rewrite run_script_app, E1; cbn; by rewrite E2|]. split; [done|]. split; intros ->.
  - destruct Hv as [Hh Hle]. destruct (holds_text _ _ _ _ Hh) as [T1 T2]. by rewrite T2.
  - cbn [app] in Hv. destruct Hv as [?|[?|?]]; [by left|left; lia|by right].
Qed.

Lemma request_body_exact_witness :
  exists c0 v c, run_script demo_malloc (fun _ _ => NUL) (fun a => chr a) 1000000 false (demo_ops ++ [Cleanup]) start = Some c0 /\
    receive demo_malloc (fun _ _ => NUL) (fun a => chr a) 1000000 false [(97, 3); (100, 2); (65, 4); (69, 1)] c0 = Some (v, c) /\
    (v = HPE_OK -> body_text (fun a => chr a) c = Some (lit "abcdeABCDE")).
Proof.
  destruct (request_body_exact demo_malloc (fun _ _ => NUL) (fun a => chr a) 1000000 false demo_ops [(97, 3); (100, 2); (65, 4); (69, 1)] demo_malloc_fresh) as (c0 & v & c & H1 & H2 & H3 & _);
    [unfold SIZE_MAX; lia|exact demo_script_ok|repeat apply Forall_cons_2; try apply Forall_nil_2; (split; [cbn [snd]; lia|discriminate])|].
  exists c0, v, c. split; [exact H1|]. split; [exact H2|]. intros Hv. destruct (H3 Hv) as [-> _]. vm_compute. reflexivity.
Defined.

(** ** Observation *)

(** The comment above [on_body] says that the existing body is freed when the
    reallocation fails; the body stays, until the cleanup of the context. *)
Example failed_growth_keeps_body :
  option_map (fun '(v, c) => (v, len (req c), ownership (req c), length (owned (req c))))
    (receive demo_malloc (fun _ _ => NUL) (fun a => chr a) 1000000 false [(100, 5); (200, 5); (300, 70000)] start)
  = Some (HPE_USER, 10, CSILK_OWN_POOL, 1%nat).
Proof. by vm_compute. Qed.
