(* ===== verification/Mq.v ===== *)
(** * The message queue

    Models publishing, registration, dispatch, monitoring and offloading of the
    message queue: src/src/messaging/mq_core.c, mq_dispatch.c, mq_pubsub.c,
    mq_offload.c and mq_context.c, in the build where the event loop wakes the
    dispatcher (without CSILK_USE_URING).  The write-ahead log is in MqWal.v;
    here [_mq_append_wal] only hands a task to the writer thread.

    A handler is an address; what it does with a message is a list of framework
    calls, given by [behaviour].  [fnmatch] and the test whether a monitor's
    connection is closed are parameters.  Every allocation consumes one answer
    of an oracle ([answers], exhausted means success), the copy of a topic's
    name one of [name_answers].  The buffer passed with a length holds that
    many bytes.  The log records what happened.  [None] is undefined behaviour:
    a null topic name passed to [strcmp], or overflow of the handler index. *)

From S2P Require Import Prelude.

#[local] Open Scope Z_scope.

Definition INT_MAX : Z := 2 ^ 31 - 1.

(** ** State *)

Record csilk_mq_msg_t := mk_msg { topic : bytes; payload : option bytes; mlen : Z }.

Record csilk_mq_topic_t := mk_topic { name : option bytes; handlers : list Z; handler_capacity : Z }.

Record mq_wal_task_t := mk_task { fd : Z; t_topic : bytes; t_payload : option bytes; t_len : Z }.

Inductive event :=
| Published (m : csilk_mq_msg_t)
| Delivered (m : csilk_mq_msg_t)
| Dropped (m : csilk_mq_msg_t)
| Invoked (h : Z) (m : csilk_mq_msg_t)
| Offloaded (w : Z) (topic : bytes) (payload : option bytes)
| Notified (c : Z) (delivered : bool) (topic : bytes) (len : Z).

Record csilk_mq_t := mk_mq {
  queue : list csilk_mq_msg_t;
  topics : list csilk_mq_topic_t;
  global_middlewares : list Z;
  global_mw_capacity : Z;
  monitors : list Z;
  monitor_capacity : Z;
  published_total : Z;
  delivered_total : Z;
  queue_depth : Z;
  wal_fd : Z;
  wal_queue : list mq_wal_task_t;
  answers : list bool;
  name_answers : list bool;
  log : list event;
}.

Definition _csilk_mq_new (answers name_answers : list bool) : csilk_mq_t :=
  mk_mq [] [] [] 0 [] 0 0 0 0 (-1) [] answers name_answers [].

Definition set_queue s q pub depth := mk_mq q (topics s) (global_middlewares s) (global_mw_capacity s) (monitors s) (monitor_capacity s)
  pub (delivered_total s) depth (wal_fd s) (wal_queue s) (answers s) (name_answers s) (log s).
Definition set_topics s ts := mk_mq (queue s) ts (global_middlewares s) (global_mw_capacity s) (monitors s) (monitor_capacity s)
  (published_total s) (delivered_total s) (queue_depth s) (wal_fd s) (wal_queue s) (answers s) (name_answers s) (log s).
Definition set_globals s g cap := mk_mq (queue s) (topics s) g cap (monitors s) (monitor_capacity s)
  (published_total s) (delivered_total s) (queue_depth s) (wal_fd s) (wal_queue s) (answers s) (name_answers s) (log s).
Definition set_monitors s m cap := mk_mq (queue s) (topics s) (global_middlewares s) (global_mw_capacity s) m cap
  (published_total s) (delivered_total s) (queue_depth s) (wal_fd s) (wal_queue s) (answers s) (name_answers s) (log s).
Definition set_delivered s n := mk_mq (queue s) (topics s) (global_middlewares s) (global_mw_capacity s) (monitors s) (monitor_capacity s)
  (published_total s) n (queue_depth s) (wal_fd s) (wal_queue s) (answers s) (name_answers s) (log s).
Definition set_wal s f q := mk_mq (queue s) (topics s) (global_middlewares s) (global_mw_capacity s) (monitors s) (monitor_capacity s)
  (published_total s) (delivered_total s) (queue_depth s) f q (answers s) (name_answers s) (log s).
Definition set_oracle s a n := mk_mq (queue s) (topics s) (global_middlewares s) (global_mw_capacity s) (monitors s) (monitor_capacity s)
  (published_total s) (delivered_total s) (queue_depth s) (wal_fd s) (wal_queue s) a n (log s).
Definition note s es := mk_mq (queue s) (topics s) (global_middlewares s) (global_mw_capacity s) (monitors s) (monitor_capacity s)
  (published_total s) (delivered_total s) (queue_depth s) (wal_fd s) (wal_queue s) (answers s) (name_answers s) (log s ++ es).

Definition ask (s : csilk_mq_t) : bool * csilk_mq_t :=
  match answers s with [] => (true, s) | a :: l => (a, set_oracle s l (name_answers s)) end.
Definition ask_name (s : csilk_mq_t) : bool * csilk_mq_t :=
  match name_answers s with [] => (true, s) | a :: l => (a, set_oracle s (answers s) l) end.

Definition has_data (payload : option bytes) (len : Z) : bool := (0 <? len) && match payload with Some _ => true | None => false end.
Definition copy_data (payload : option bytes) (len : Z) : option bytes :=
  if has_data payload len then option_map (take (Z.to_nat len)) payload else None.

Section mq.

(** The libc [fnmatch(pattern, string, 0) == 0] and [csilk_ctx_is_closed]. *)
Context (fnmatch : bytes -> bytes -> bool) (is_closed : Z -> bool).

(** ** Monitors *)

(** The doubling of an array of pointers; [None]: the size would overflow. *)
Definition grown_capacity (cap : Z) : option Z :=
  if cap =? 0 then Some 4 else
  if SIZE_MAX / 2 <? cap then None else
  if SIZE_MAX / 8 <? cap * 2 then None else Some (cap * 2).

Definition csilk_mq_register_monitor (s : csilk_mq_t) (c : Z) : csilk_mq_t :=
  if monitor_capacity s <=? Z.of_nat (length (monitors s)) then
    match grown_capacity (monitor_capacity s) with
    | None => s
    | Some cap => let '(ok, s) := ask s in if ok then set_monitors s (monitors s ++ [c]) cap else s
    end
  else set_monitors s (monitors s ++ [c]) (monitor_capacity s).

Fixpoint remove_first (c : Z) (l : list Z) : list Z :=
  match l with
  | [] => []
  | x :: l' => if x =? c then l' else x :: remove_first c l'
  end.

Definition csilk_mq_unregister_monitor (s : csilk_mq_t) (c : Z) : csilk_mq_t :=
  set_monitors s (remove_first c (monitors s)) (monitor_capacity s).

(** Closed monitors are dropped, the others are notified. *)
Definition _mq_broadcast (s : csilk_mq_t) (delivered : bool) (topic : bytes) (len : Z) : csilk_mq_t :=
  let live := List.filter (fun c => negb (is_closed c)) (monitors s) in
  note (set_monitors s live (monitor_capacity s)) (map (fun c => Notified c delivered topic len) live).

(** ** Publishing *)

Definition _mq_enqueue (s : csilk_mq_t) (topic : bytes) (payload : option bytes) (len : Z) : Z * csilk_mq_t :=
  let '(ok, s) := ask s in
  if negb ok then (-1, s) else
  let '(ok, s) := ask s in
  if negb ok then (-1, s) else
  let '(ok, s) := if has_data payload len then ask s else (true, s) in
  if negb ok then (-1, s) else
  let m := mk_msg topic (copy_data payload len) (if has_data payload len then len else 0) in
  let s := set_queue s (queue s ++ [m]) (wrap64 (published_total s + 1)) (wrap32 (queue_depth s + 1)) in
  (0, _mq_broadcast (note s [Published m]) false topic len).

(** The writer thread runs; the task is appended to its queue. *)
Definition _mq_append_wal (s : csilk_mq_t) (topic : bytes) (payload : option bytes) (len : Z) : Z * csilk_mq_t :=
  if wal_fd s <? 0 then (0, s) else
  let '(ok, s) := ask s in
  if negb ok then (-1, s) else
  let '(ok, s) := ask s in
  if negb ok then (-1, s) else
  let '(ok, s) := if has_data payload len then ask s else (true, s) in
  if negb ok then (-1, s) else
  (0, set_wal s (wal_fd s) (wal_queue s ++ [mk_task (wal_fd s) topic (copy_data payload len) len])).

Definition csilk_mq_publish (s : csilk_mq_t) (topic : bytes) (payload : option bytes) (len : Z) : Z * csilk_mq_t :=
  let '(rc, s) := if 0 <=? wal_fd s then _mq_append_wal s topic payload len else (0, s) in
  if negb (rc =? 0) then (-1, s) else _mq_enqueue s topic payload len.

(** ** Registration *)

(** The position of the topic with the name. *)
Fixpoint find_topic (n : bytes) (ts : list csilk_mq_topic_t) : option (option nat) :=
  match ts with
  | [] => Some None
  | t :: ts' =>
      n' ← name t;
      if decide (n' = n) then Some (Some 0%nat) else r ← find_topic n ts'; Some (option_map S r)
  end.

(** The index of the topic, newest first; none when [calloc] fails. The copy
    of the name is not checked. *)
Definition get_or_create_topic (s : csilk_mq_t) (n : bytes) : option (option nat * csilk_mq_t) :=
  r ← find_topic n (topics s);
  match r with
  | Some i => Some (Some i, s)
  | None =>
      let '(ok, s) := ask s in
      if negb ok then Some (None, s) else
      let '(ok, s) := ask_name s in
      Some (Some 0%nat, set_topics s (mk_topic (if ok : bool then Some n else None) [] 0 :: topics s))
  end.

Definition csilk_mq_use (s : csilk_mq_t) (topic : option bytes) (h : Z) : option csilk_mq_t :=
  match topic with
  | None =>
      if global_mw_capacity s <=? Z.of_nat (length (global_middlewares s)) then
        match grown_capacity (global_mw_capacity s) with
        | None => Some s
        | Some cap => let '(ok, s) := ask s in Some (if ok then set_globals s (global_middlewares s ++ [h]) cap else s)
        end
      else Some (set_globals s (global_middlewares s ++ [h]) (global_mw_capacity s))
  | Some n =>
      '(r, s) ← get_or_create_topic s n;
      match r with
      | None => Some s
      | Some i =>
          t ← topics s !! i;
          if handler_capacity t <=? Z.of_nat (length (handlers t)) then
            match grown_capacity (handler_capacity t) with
            | None => Some s
            | Some cap => let '(ok, s) := ask s in
                Some (if ok then set_topics s (<[i := mk_topic (name t) (handlers t ++ [h]) cap]> (topics s)) else s)
            end
          else Some (set_topics s (<[i := mk_topic (name t) (handlers t ++ [h]) (handler_capacity t)]> (topics s)))
      end
  end.

Definition csilk_mq_subscribe (s : csilk_mq_t) (topic : option bytes) (h : Z) : option csilk_mq_t := csilk_mq_use s topic h.

(** ** Dispatch *)

(** What a handler does: [MOffload w queued] hands the message to worker [w],
    where the thread pool accepts it or not. *)
Inductive action := MNext | MAbort | MPublish (topic : bytes) (payload : option bytes) (len : Z) | MOffload (w : Z) (queued : bool).

Context (behaviour : Z -> csilk_mq_msg_t -> list action).

(** [handler_index] and [aborted] of the context, and the queue. *)
Record mctx := mk_mctx { index : Z; aborted : bool; mq : csilk_mq_t }.

Definition with_mq (c : mctx) (s : csilk_mq_t) : mctx := mk_mctx (index c) (aborted c) s.

Definition csilk_mq_abort (c : mctx) : mctx := mk_mctx (index c) true (mq c).

Definition csilk_mq_offload (next : mctx -> option mctx) (m : csilk_mq_msg_t) (c : mctx) (w : Z) (queued : bool) : option mctx :=
  let '(ok, s) := ask (mq c) in
  if negb ok then Some (with_mq c s) else
  let '(ok, s) := ask s in
  if negb ok then Some (with_mq c s) else
  let '(ok, s) := if has_data (payload m) (mlen m) then ask s else (true, s) in
  if negb ok then Some (with_mq c s) else
  if negb queued then Some (with_mq c s) else
  next (with_mq c (note s [Offloaded w (topic m) (copy_data (payload m) (mlen m))])).

Fixpoint run_actions (next : mctx -> option mctx) (m : csilk_mq_msg_t) (acts : list action) (c : mctx) : option mctx :=
  match acts with
  | [] => Some c
  | a :: acts' =>
      c ← match a with
          | MNext => next c
          | MAbort => Some (csilk_mq_abort c)
          | MPublish t p l => Some (with_mq c (csilk_mq_publish (mq c) t p l).2)
          | MOffload w queued => csilk_mq_offload next m c w queued
          end;
      run_actions next m acts' c
  end.

(** [fuel] bounds the depth of nested calls. *)
Fixpoint csilk_mq_next (fuel : nat) (chain : list Z) (m : csilk_mq_msg_t) (c : mctx) : option mctx :=
  match fuel with
  | O => None
  | S fuel' =>
      if aborted c then Some c else
      if INT_MAX <=? index c then None else
      let c := mk_mctx (index c + 1) (aborted c) (mq c) in
      if index c <? Z.of_nat (length chain) then
        h ← chain !! Z.to_nat (index c);
        run_actions (csilk_mq_next fuel' chain m) m (behaviour h m) (with_mq c (note (mq c) [Invoked h m]))
      else Some c
  end.

(** The handlers of the topics whose name matches, in list order. *)
Fixpoint matching (ts : list csilk_mq_topic_t) (tp : bytes) : option (list Z) :=
  match ts with
  | [] => Some []
  | t :: ts' => n ← name t; rest ← matching ts' tp; Some ((if fnmatch n tp then handlers t else []) ++ rest)
  end.

(** A message without handlers counts as delivered; one for whose chain there
    is no memory is dropped. *)
Definition dispatch_one (s : csilk_mq_t) (m : csilk_mq_msg_t) : option csilk_mq_t :=
  let s := _mq_broadcast s true (topic m) (mlen m) in
  let s := set_delivered s (wrap64 (delivered_total s + 1)) in
  hs ← matching (topics s) (topic m);
  let chain := global_middlewares s ++ hs in
  match chain with
  | [] => Some (note s [Delivered m])
  | _ =>
      let '(ok, s) := ask s in
      if negb ok then Some (note s [Dropped m]) else
      c ← csilk_mq_next (S (length chain)) chain m (mk_mctx (-1) false (note s [Delivered m]));
      Some (mq c)
  end.

Fixpoint dispatch_all (s : csilk_mq_t) (batch : list csilk_mq_msg_t) : option csilk_mq_t :=
  match batch with
  | [] => Some s
  | m :: batch' => s ← dispatch_one s m; dispatch_all s batch'
  end.

(** The queue is taken over and emptied before the messages are delivered. *)
Definition on_mq_async (s : csilk_mq_t) : option csilk_mq_t :=
  dispatch_all (set_queue s [] (published_total s) 0) (queue s).


(** ** Views of the log *)

Definition pubs (l : list event) : list csilk_mq_msg_t := omap (fun e => match e with Published m => Some m | _ => None end) l.
Definition dels (l : list event) : list csilk_mq_msg_t := omap (fun e => match e with Delivered m => Some m | _ => None end) l.
(** The messages taken out of the queue: delivered, or dropped for lack of memory. *)
Definition taken (l : list event) : list (csilk_mq_msg_t * bool) :=
  omap (fun e => match e with Delivered m => Some (m, true) | Dropped m => Some (m, false) | _ => None end) l.
Definition invs (l : list event) : list (Z * csilk_mq_msg_t) := omap (fun e => match e with Invoked h m => Some (h, m) | _ => None end) l.

Definition all_true (l : list bool) : Prop := Forall (fun b : bool => b = true) l.

(** What handlers and registrations may do to the queue: append published
    messages, and nothing else that matters for delivery. *)
Record grows (s s' : csilk_mq_t) (qs : list csilk_mq_msg_t) : Prop := mk_grows {
  g_queue : queue s' = queue s ++ qs;
  g_pubs : pubs (log s') = pubs (log s) ++ qs;
  g_dels : taken (log s') = taken (log s);
  g_pub_total : published_total s' = wrap64 (published_total s + Z.of_nat (length qs));
  g_depth : queue_depth s' = wrap32 (queue_depth s + Z.of_nat (length qs));
  g_del_total : delivered_total s' = delivered_total s;
  g_topics : topics s' = topics s;
  g_globals : global_middlewares s' = global_middlewares s;
  g_names : name_answers s' = name_answers s;
  g_answers : all_true (answers s) -> all_true (answers s');
}.

(** The counters are kept at their width. *)
Definition counters_ok (s : csilk_mq_t) : Prop := 0 <= published_total s < 2 ^ 64 /\ 0 <= queue_depth s < 2 ^ 32.

Lemma wrap_add w a n m : wrap w (wrap w (a + n) + m) = wrap w (a + (n + m)).
Proof. unfold wrap. rewrite Zplus_mod_idemp_l. f_equal. lia. Qed.

Lemma mq_grows_refl s : counters_ok s -> grows s s [].
Proof.
  intros [H1 H2]. constructor; try done; rewrite ?app_nil_r; try done; cbn [length Z.of_nat]; rewrite Z.add_0_r;
    unfold wrap64, wrap32, wrap; by rewrite Z.mod_small.
Qed.

Lemma grows_note s es : pubs es = [] -> taken es = [] -> counters_ok s -> grows s (note s es) [].
Proof.
  intros E1 E2 H. destruct (mq_grows_refl s H) as [G1 G2 G3 G4 G5 G6 G7 G8 G9 G10]. constructor; try done; cbn [note log]; unfold pubs, taken in *; rewrite omap_app.
  - by rewrite E1.
  - by rewrite E2, app_nil_r.
Qed.

Lemma mq_grows_trans s1 s2 s3 q1 q2 : grows s1 s2 q1 -> grows s2 s3 q2 -> grows s1 s3 (q1 ++ q2).
Proof.
  intros [A1 A2 A3 A4 A5 A6 A7 A8 A9 A10] [B1 B2 B3 B4 B5 B6 B7 B8 B9 B10]. constructor; try congruence; try tauto.
  - by rewrite B1, A1, app_assoc.
  - by rewrite B2, A2, app_assoc.
  - rewrite B4, A4. unfold wrap64. by rewrite wrap_add, length_app, Nat2Z.inj_add.
  - rewrite B5, A5. unfold wrap32. by rewrite wrap_add, length_app, Nat2Z.inj_add.
Qed.

Lemma grows_counters s s' qs : grows s s' qs -> counters_ok s'.
Proof. intros H. split; [rewrite (g_pub_total _ _ _ H); apply wrap64_range|rewrite (g_depth _ _ _ H); apply wrap32_range]. Qed.

(** A step that only touches the oracle, the monitors or the log of
    notifications. *)
Definition silent (s s' : csilk_mq_t) : Prop :=
  queue s' = queue s /\ published_total s' = published_total s /\ queue_depth s' = queue_depth s /\ delivered_total s' = delivered_total s /\
  topics s' = topics s /\ global_middlewares s' = global_middlewares s /\ name_answers s' = name_answers s /\
  pubs (log s') = pubs (log s) /\ taken (log s') = taken (log s) /\ invs (log s') = invs (log s) /\ (all_true (answers s) -> all_true (answers s')).

Lemma silent_refl s : silent s s.
Proof. by repeat split. Qed.

Lemma silent_trans s1 s2 s3 : silent s1 s2 -> silent s2 s3 -> silent s1 s3.
Proof. unfold silent. intros H1 H2. repeat match goal with H : _ /\ _ |- _ => destruct H end. repeat split; congruence || tauto. Qed.

Lemma silent_grows s s' : counters_ok s -> silent s s' -> grows s s' [].
Proof.
  intros Hc (H1 & H2 & H3 & H4 & H5 & H6 & H7 & H8 & H9 & H10 & H11). destruct (mq_grows_refl s Hc) as [G1 G2 G3 G4 G5 G6 G7 G8 G9 G10].
  constructor; try done; rewrite ?app_nil_r in *; congruence.
Qed.

Lemma silent_counters s s' : silent s s' -> counters_ok s -> counters_ok s'.
Proof. intros (_ & H1 & H2 & _). unfold counters_ok. by rewrite H1, H2. Qed.

Lemma ask_silent s : silent s (ask s).2.
Proof. unfold ask. destruct (answers s) as [|a l] eqn:E; repeat split; cbn; try congruence. unfold all_true. rewrite E. by intros [_ Hl]%Forall_cons. Qed.

Lemma note_silent s es : pubs es = [] -> taken es = [] -> invs es = [] -> silent s (note s es).
Proof.
  intros E1 E2 E3. unfold pubs, taken, invs in *. unfold silent, pubs, taken, invs. cbn [note log queue published_total queue_depth delivered_total topics global_middlewares name_answers].
  rewrite !omap_app, E1, E2, E3, !app_nil_r. by repeat split.
Qed.

Lemma broadcast_silent s d t l : silent s (_mq_broadcast s d t l).
Proof.
  unfold _mq_broadcast. eapply silent_trans; [|apply note_silent].
  - by repeat split.
  - by induction (List.filter _ _).
  - by induction (List.filter _ _).
  - by induction (List.filter _ _).
Qed.

(** Three allocations, the last only for data. *)
Lemma asks_silent s (b : bool) (k : csilk_mq_t -> Z * csilk_mq_t) (P : csilk_mq_t -> Prop) :
  (forall s', silent s s' -> P s') -> (forall s', silent s s' -> P (k s').2) ->
  P (let '(ok, s) := ask s in if negb ok then (-1, s) else
     let '(ok, s) := ask s in if negb ok then (-1, s) else
     let '(ok, s) := if b then ask s else (true, s) in if negb ok then (-1, s) else k s).2.
Proof.
  intros Hf Hk. pose proof (ask_silent s) as S1. destruct (ask s) as [ok1 s1]. cbn [snd] in *. destruct ok1; [|by apply Hf]. cbn [negb].
  pose proof (ask_silent s1) as S2. destruct (ask s1) as [ok2 s2]. cbn [snd] in *. pose proof (silent_trans _ _ _ S1 S2) as S12.
  destruct ok2; [|by apply Hf]. cbn [negb]. destruct b; [|by apply Hk].
  pose proof (ask_silent s2) as S3. destruct (ask s2) as [ok3 s3]. cbn [snd] in *. pose proof (silent_trans _ _ _ S12 S3) as S13.
  destruct ok3; [by apply Hk|by apply Hf].
Qed.

Lemma append_wal_silent s t p l : silent s (_mq_append_wal s t p l).2.
Proof.
  unfold _mq_append_wal. destruct (_ <? _); [apply silent_refl|].
  apply (asks_silent s (has_data p l) (fun s => (0, set_wal s (wal_fd s) (wal_queue s ++ [mk_task (wal_fd s) t (copy_data p l) l]))) (silent s)); [done|].
  intros s' H. eapply silent_trans; [exact H|]. by repeat split.
Qed.

Lemma enqueue_grows s t p l : counters_ok s -> exists qs, grows s (_mq_enqueue s t p l).2 qs /\ invs (log (_mq_enqueue s t p l).2) = invs (log s).
Proof.
  intros Hc. unfold _mq_enqueue.
  apply (asks_silent s (has_data p l) (fun s => let m := mk_msg t (copy_data p l) (if has_data p l then l else 0) in
    let s := set_queue s (queue s ++ [m]) (wrap64 (published_total s + 1)) (wrap32 (queue_depth s + 1)) in
    (0, _mq_broadcast (note s [Published m]) false t l)) (fun s' => exists qs, grows s s' qs /\ invs (log s') = invs (log s))).
  - intros s' H. exists []. split; [by apply silent_grows|]. apply H.
  - intros s' H. set (m := mk_msg _ _ _). exists [m]. cbn zeta. cbn [snd].
    set (s1 := note (set_queue s' (queue s' ++ [m]) (wrap64 (published_total s' + 1)) (wrap32 (queue_depth s' + 1))) [Published m]).
    assert (grows s' s1 [m]) as H1.
    { constructor; try done; cbn [s1 note set_queue log]; unfold pubs, taken; rewrite omap_app; cbn; by rewrite ?app_nil_r. }
    pose proof (broadcast_silent s1 false t l) as H2. split.
    + change [m] with ([] ++ [m]). eapply mq_grows_trans; [by apply silent_grows|]. rewrite <- (app_nil_r [m]).
      eapply mq_grows_trans; [exact H1|]. apply silent_grows; [by eapply grows_counters|done].
    + destruct H2 as (_ & _ & _ & _ & _ & _ & _ & _ & _ & -> & _). cbn [s1 note set_queue log]. unfold invs. rewrite omap_app. cbn. rewrite app_nil_r. apply H.
Qed.

Lemma publish_grows s t p l : counters_ok s -> exists qs, grows s (csilk_mq_publish s t p l).2 qs /\ invs (log (csilk_mq_publish s t p l).2) = invs (log s).
Proof.
  intros Hc. unfold csilk_mq_publish.
  assert (silent s (if 0 <=? wal_fd s then _mq_append_wal s t p l else (0, s)).2) as H by (destruct (_ <=? _); [apply append_wal_silent|apply silent_refl]).
  destruct (if 0 <=? wal_fd s then _ else _) as [rc s1]. cbn [snd] in H. destruct (rc =? 0); cbn [negb].
  - destruct (enqueue_grows s1 t p l (silent_counters _ _ H Hc)) as (qs & G & E). exists qs. split; [|rewrite E; apply H].
    rewrite <- (app_nil_l qs). eapply mq_grows_trans; [by apply silent_grows|exact G].
  - exists []. split; [by apply silent_grows|]. apply H.
Qed.

(** ** One message *)

(** [B] bounds the calls of a handler. *)
Context (B : Z) (HB : forall h m, Z.of_nat (length (behaviour h m)) <= B).

Definition segment (chain : list Z) (a b : nat) : list Z := take (b - a) (drop a chain).

Lemma segment_app chain a b c : (a <= b)%nat -> (b <= c)%nat -> segment chain a b ++ segment chain b c = segment chain a c.
Proof.
  intros H1 H2. unfold segment. replace (c - a)%nat with ((b - a) + (c - b))%nat by lia. rewrite <- (take_take_drop _ (b - a)).
  f_equal. rewrite drop_drop. do 2 f_equal. lia.
Qed.

Lemma segment_one chain a h : chain !! a = Some h -> segment chain a (S a) = [h].
Proof. intros H. unfold segment. rewrite (drop_S chain h a H). by replace (S a - a)%nat with 1%nat by lia. Qed.

Lemma segment_end chain a b : (length chain <= a)%nat -> segment chain a b = [].
Proof. intros H. unfold segment. by rewrite drop_ge, take_nil by lia. Qed.

Definition pos (c : mctx) : nat := Z.to_nat (index c + 1).
Definition left (chain : list Z) (c : mctx) : Z := Z.of_nat (length chain - pos c).

(** The progress of a dispatch: handlers are invoked along the chain, at most
    [n] calls are made beyond those budgeted, published messages go to the end
    of the queue. *)
Record adv (chain : list Z) (m : csilk_mq_msg_t) (n : Z) (c c' : mctx) : Prop := mk_adv {
  a_index : index c <= index c';
  a_budget : index c' + B * left chain c' <= index c + B * left chain c + n;
  a_invs : invs (log (mq c')) = invs (log (mq c)) ++ map (fun h => (h, m)) (segment chain (pos c) (pos c'));
  a_grows : exists qs, grows (mq c) (mq c') qs;
}.

Lemma adv_same chain m n c c' : 0 <= n -> index c' = index c -> invs (log (mq c')) = invs (log (mq c)) -> (exists qs, grows (mq c) (mq c') qs) -> adv chain m n c c'.
Proof.
  intros Hn E Ei G. constructor; [lia| | |done].
  - unfold left, pos. rewrite E. lia.
  - unfold pos. rewrite E, Ei. unfold segment. by rewrite Nat.sub_diag, app_nil_r.
Qed.

Lemma adv_trans chain m n1 n2 c1 c2 c3 : -1 <= index c1 -> adv chain m n1 c1 c2 -> adv chain m n2 c2 c3 -> adv chain m (n1 + n2) c1 c3.
Proof.
  intros H1 [A1 A2 A3 [q1 A4]] [B1 B2 B3 [q2 B4]]. constructor; [lia|lia| |eexists; by eapply mq_grows_trans].
  rewrite B3, A3, <- app_assoc, <- map_app, segment_app; [done|unfold pos; lia|unfold pos; lia].
Qed.

Definition advances (chain : list Z) (m : csilk_mq_msg_t) (n : Z) (c : mctx) (res : option mctx) : Prop :=
  exists c', res = Some c' /\ adv chain m n c c'.

Lemma silent_adv chain m n c s : 0 <= n -> counters_ok (mq c) -> silent (mq c) s -> adv chain m n c (with_mq c s).
Proof. intros Hn Hc H. apply adv_same; [done|done|apply H|]. exists []. by apply silent_grows. Qed.

(** The precondition of a call with [n] calls to make. *)
Definition ready (chain : list Z) (fuel : nat) (n : Z) (c : mctx) : Prop :=
  -1 <= index c /\ (length chain - pos c < fuel)%nat /\ index c + B * left chain c + n <= INT_MAX /\ counters_ok (mq c).

Lemma ready_adv chain fuel m n1 n2 c c' : 0 <= n2 -> ready chain fuel (n1 + n2) c -> adv chain m n1 c c' -> ready chain fuel n2 c'.
Proof.
  intros Hn (H1 & H2 & H3 & H4) [A1 A2 A3 [q A4]]. split_and!; [lia|unfold pos in *; lia|lia|by eapply grows_counters].
Qed.

Lemma offload_adv chain fuel next m c w queued :
  (forall c, ready chain fuel 1 c -> advances chain m 1 c (next c)) -> ready chain fuel 1 c -> advances chain m 1 c (csilk_mq_offload next m c w queued).
Proof.
  intros Hnext Hr. pose proof Hr as (_ & _ & _ & Hc). unfold csilk_mq_offload.
  assert (forall s, silent (mq c) s -> advances chain m 1 c (Some (with_mq c s))) as Hstop.
  { intros s Hs. eexists. split; [done|]. apply silent_adv; [lia|done|done]. }
  assert (forall s, silent (mq c) s -> advances chain m 1 c (if negb queued then Some (with_mq c s) else
    next (with_mq c (note s [Offloaded w (topic m) (copy_data (payload m) (mlen m))])))) as Hgo.
  { intros s Hs. destruct queued; [|by apply Hstop]. cbn [negb]. set (c1 := with_mq c _).
    assert (adv chain m 0 c c1) as A. { apply silent_adv; [lia|done|]. eapply silent_trans; [exact Hs|]. by apply note_silent. }
    destruct (Hnext c1) as (c2 & -> & A2); [apply (ready_adv chain fuel m 0 1 c); [lia|done|done]|].
    exists c2. split; [done|]. apply (adv_trans chain m 0 1 _ c1); [apply Hr|done|done]. }
  pose proof (ask_silent (mq c)) as S1. destruct (ask (mq c)) as [[] s1]; cbn [negb snd] in *; [|by apply Hstop].
  pose proof (silent_trans _ _ _ S1 (ask_silent s1)) as S2. destruct (ask s1) as [[] s2]; cbn [negb snd] in *; [|by apply Hstop].
  destruct (has_data _ _); [|by apply Hgo].
  pose proof (silent_trans _ _ _ S2 (ask_silent s2)) as S3. destruct (ask s2) as [[] s3]; cbn [negb snd] in *; [by apply Hgo|by apply Hstop].
Qed.

Lemma run_actions_adv chain fuel next m acts : 
  (forall c, ready chain fuel 1 c -> advances chain m 1 c (next c)) ->
  forall c, ready chain fuel (Z.of_nat (length acts)) c -> advances chain m (Z.of_nat (length acts)) c (run_actions next m acts c).
Proof.
  intros Hnext. induction acts as [|a acts IH]; intros c Hr.
  { exists c. split; [done|]. apply adv_same; try done. exists []. apply mq_grows_refl, Hr. }
  cbn [length] in *. rewrite Nat2Z.inj_succ, <- Z.add_1_l in *. cbn [run_actions].
  assert (ready chain fuel 1 c) as Hr1 by (destruct Hr as (? & ? & ? & ?); split_and!; done || lia).
  assert (advances chain m 1 c (match a with MNext => next c | MAbort => Some (csilk_mq_abort c)
    | MPublish t p l => Some (with_mq c (csilk_mq_publish (mq c) t p l).2) | MOffload w queued => csilk_mq_offload next m c w queued end)) as (c1 & -> & A1).
  { destruct a as [| |t p l|w q].
    - by apply Hnext.
    - eexists. split; [done|]. apply adv_same; [lia|done|done|]. exists []. apply mq_grows_refl, Hr.
    - destruct (publish_grows (mq c) t p l) as (qs & G & E); [apply Hr|]. eexists. split; [done|]. apply adv_same; [lia|done|exact E|by exists qs].
    - by apply (offload_adv chain fuel). }
  cbn [mbind option_bind]. destruct (IH c1) as (c2 & -> & A2); [eapply ready_adv; [lia|exact Hr|exact A1]|].
  exists c2. split; [done|]. eapply adv_trans; [apply Hr|exact A1|exact A2].
Qed.

Lemma mq_next_adv fuel chain m : forall c, ready chain fuel 1 c -> advances chain m 1 c (csilk_mq_next fuel chain m c).
Proof.
  induction fuel as [|fuel IH]; intros c Hr; [destruct Hr as (_ & ? & _); lia|]. pose proof Hr as (H1 & H2 & H3 & H4).
  pose proof (HB 0 m) as HB0. assert (0 <= B * left chain c) as Hpos by (unfold left; nia). cbn [csilk_mq_next].
  destruct (aborted c). { exists c. split; [done|]. apply adv_same; [lia|done|done|]. exists []. by apply mq_grows_refl. }
  destruct (Z.leb_spec INT_MAX (index c)); [lia|]. cbn [index mq].
  destruct (Z.ltb_spec (index c + 1) (Z.of_nat (length chain))) as [Hlt|Hge].
  - destruct (lookup_lt_is_Some_2 chain (Z.to_nat (index c + 1))) as [h Hh]; [lia|]. rewrite Hh. cbn [mbind option_bind].
    set (c1 := with_mq _ _). assert (left chain c = left chain c1 + 1) as El by (unfold left, pos, c1; cbn [with_mq index]; lia).
    assert (adv chain m (1 - B) c c1) as A1.
    { assert (index c1 = index c + 1) as Ei by done. assert (pos c1 = S (pos c)) as Ep by (unfold pos; lia).
      constructor; [lia|lia| |].
      - rewrite Ep, (segment_one chain (pos c) h) by done. cbn [c1 with_mq mq note log]. unfold invs. by rewrite omap_app.
      - exists []. by apply grows_note. }
    pose proof (HB h m) as Hb. destruct (run_actions_adv chain fuel (csilk_mq_next fuel chain m) m (behaviour h m)) with (c := c1) as (c2 & E & A2).
    + intros c' Hc'. apply IH. exact Hc'.
    + split_and!; [cbn; lia|unfold pos in *; cbn; lia|cbn [c1 with_mq index]; fold c1; lia|]. destruct A1 as [_ _ _ [q G]]. by eapply grows_counters.
    + exists c2. split; [exact E|]. destruct (adv_trans chain m _ _ c c1 c2 H1 A1 A2) as [T1 T2 T3 T4]. constructor; [done|lia|done|done].
  - eexists. split; [done|]. constructor; cbn [index mq]; [lia| | |exists []; by apply mq_grows_refl].
    + unfold left, pos. cbn [index]. replace (length chain - Z.to_nat (index c + 1 + 1))%nat with 0%nat by lia. lia.
    + rewrite segment_end by (unfold pos; lia). by rewrite app_nil_r.
Qed.

(** ** How far a chain runs *)

(** The handler certainly calls [csilk_mq_next]. *)
Fixpoint passes_on (acts : list action) : bool :=
  match acts with
  | [] => false
  | MNext :: _ => true
  | MAbort :: _ => false
  | _ :: acts' => passes_on acts'
  end.

(** How often it may call it, itself or through [csilk_mq_offload]. *)
Fixpoint forwards (acts : list action) : nat :=
  match acts with
  | [] => 0
  | MAbort :: _ => 0
  | MNext :: acts' | MOffload _ _ :: acts' => S (forwards acts')
  | _ :: acts' => forwards acts'
  end.

Definition sum_forwards (m : csilk_mq_msg_t) (l : list Z) : nat := list_sum (map (fun h => forwards (behaviour h m)) l).

(** Of a chain, the first [k] handlers were invoked: the first one always, one
    behind each that passes the message on, and none that no handler before it
    called for. *)
Record runs (chain : list Z) (m : csilk_mq_msg_t) (k : nat) : Prop := {
  r_first : chain <> [] -> (0 < k)%nat;
  r_passed : forall i h, (i < k)%nat -> chain !! i = Some h -> passes_on (behaviour h m) = true -> (S i < length chain)%nat -> (S i < k)%nat;
  r_called : (length (take k chain) <= 1 + sum_forwards m (take k chain))%nat;
}.

Record pass (chain : list Z) (m : csilk_mq_msg_t) (u : nat) (c c' : mctx) : Prop := mk_pass {
  p_abort : aborted c = true -> index c' = index c /\ aborted c' = true;
  p_mono : index c <= index c';
  p_lower : forall i h, (pos c <= i < pos c')%nat -> chain !! i = Some h -> passes_on (behaviour h m) = true -> (S i < length chain)%nat -> (S i < pos c')%nat;
  p_upper : (length (segment chain (pos c) (pos c')) <= u + sum_forwards m (segment chain (pos c) (pos c')))%nat;
}.

Lemma segment_nil chain a : segment chain a a = [].
Proof. unfold segment. by rewrite Nat.sub_diag. Qed.

Lemma pass_same chain m c c' : index c' = index c -> (aborted c = true -> aborted c' = true) -> pass chain m 0 c c'.
Proof.
  intros E Ha. assert (pos c' = pos c) as Ep by (unfold pos; by rewrite E). constructor; [auto|lia|rewrite Ep; lia|rewrite Ep, segment_nil; cbn; lia].
Qed.

Lemma pass_weaken chain m u v c c' : (u <= v)%nat -> pass chain m u c c' -> pass chain m v c c'.
Proof. intros H [P1 P2 P3 P4]. constructor; [done..|lia]. Qed.

Lemma pass_trans chain m u v c1 c2 c3 : -1 <= index c1 -> pass chain m u c1 c2 -> pass chain m v c2 c3 -> pass chain m (u + v) c1 c3.
Proof.
  intros H [P1 P2 P3 P4] [Q1 Q2 Q3 Q4]. assert (pos c1 <= pos c2 <= pos c3)%nat as [H12 H23] by (unfold pos; lia). constructor.
  - intros Ha. destruct (P1 Ha) as [E A]. destruct (Q1 A) as [E' A']. split; [congruence|done].
  - lia.
  - intros i h Hi Hh Hp Hl. destruct (decide (i < pos c2)%nat); [|apply (Q3 i h); done || lia]. specialize (P3 i h ltac:(lia) Hh Hp Hl). lia.
  - rewrite <- (segment_app chain (pos c1) (pos c2) (pos c3)) by done. unfold sum_forwards in *. rewrite map_app, list_sum_app, length_app. lia.
Qed.

(** A call of [csilk_mq_next]: it invokes a handler if one is left. *)
Definition calls (chain : list Z) (m : csilk_mq_msg_t) (c c' : mctx) : Prop :=
  pass chain m 1 c c' /\ (aborted c = false -> (pos c < length chain)%nat -> (pos c < pos c')%nat).

(** The actions of a handler. *)
Definition acts_pass (chain : list Z) (m : csilk_mq_msg_t) (acts : list action) (c c' : mctx) : Prop :=
  pass chain m (forwards acts) c c' /\ (aborted c = false -> passes_on acts = true -> (pos c < length chain)%nat -> (pos c < pos c')%nat).

Lemma offload_pass chain next m c w queued c' :
  (forall c c', -1 <= index c -> next c = Some c' -> calls chain m c c') -> -1 <= index c -> csilk_mq_offload next m c w queued = Some c' ->
  pass chain m 1 c c' /\ ((pos c < length chain)%nat -> aborted c = false -> (pos c < pos c')%nat \/ (index c' = index c /\ aborted c' = aborted c)).
Proof.
  intros Hn Hi E. unfold csilk_mq_offload in E.
  assert (forall s, with_mq c s = c' -> pass chain m 1 c c' /\ ((pos c < length chain)%nat -> aborted c = false -> (pos c < pos c')%nat \/ (index c' = index c /\ aborted c' = aborted c))) as Hs.
  { intros s <-. split; [by apply (pass_weaken _ _ 0); [lia|apply pass_same]|]. by right. }
  destruct (ask (mq c)) as [[] s1]; cbn [negb] in E; [|injection E as E; by eapply Hs].
  destruct (ask s1) as [[] s2]; cbn [negb] in E; [|injection E as E; by eapply Hs].
  destruct (if has_data _ _ then ask s2 else _) as [[] s3]; cbn [negb] in E; [|injection E as E; by eapply Hs].
  destruct queued; cbn [negb] in E; [|injection E as E; by eapply Hs].
  apply Hn in E as [P Q]; [|done]. destruct P as [P1 P2 P3 P4]. split; [by constructor|]. intros Hp Ha. left. by apply Q.
Qed.

Lemma acts_pass_ok chain next m acts :
  (forall c c', -1 <= index c -> next c = Some c' -> calls chain m c c') ->
  forall c c', -1 <= index c -> run_actions next m acts c = Some c' -> acts_pass chain m acts c c'.
Proof.
  intros Hn. induction acts as [|a acts IH]; intros c c' Hi E; [injection E as <-; split; [by apply pass_same|done]|]. cbn [run_actions] in E.
  destruct a as [| |t p l|w q]; cbn [forwards passes_on].
  - destruct (next c) as [c1|] eqn:E1; [|done]. cbn [mbind option_bind] in E. apply Hn in E1 as [P1 Q1]; [|done].
    destruct (IH c1 c') as [P2 Q2]; [destruct P1; lia|done|]. split; [by apply (pass_trans chain m 1 _ c c1)|]. intros Ha _ Hp.
    specialize (Q1 Ha Hp). destruct P2 as [_ M _ _]. unfold pos in *. lia.
  - cbn [mbind option_bind] in E. destruct (IH (csilk_mq_abort c) c') as [P2 _]; [done|done|]. split; [|done].
    destruct (p_abort _ _ _ _ _ P2 eq_refl) as [E1 E2]. by apply pass_same.
  - cbn [mbind option_bind] in E. set (c1 := with_mq c _) in E. destruct (IH c1 c') as [P2 Q2]; [done|done|]. destruct P2 as [A1 A2 A3 A4]. split; [by constructor|exact Q2].
  - destruct (csilk_mq_offload next m c w q) as [c1|] eqn:E1; [|done]. cbn [mbind option_bind] in E. apply (offload_pass chain) in E1 as [P1 Q1]; [|done|done].
    destruct (IH c1 c') as [P2 Q2]; [destruct P1; lia|done|]. split; [by apply (pass_trans chain m 1 _ c c1)|]. intros Ha Hp Hl.
    destruct (Q1 Hl Ha) as [Hlt|[Ei Ea]]; [destruct P2 as [_ M _ _]; unfold pos in *; lia|].
    assert (pos c1 = pos c) as Ep by (unfold pos; by rewrite Ei). rewrite Ep in Q2. apply Q2; [by rewrite Ea|done|done].
Qed.

Lemma next_pass fuel chain m : forall c c', -1 <= index c -> csilk_mq_next fuel chain m c = Some c' -> calls chain m c c'.
Proof.
  induction fuel as [|fuel IH]; intros c c' Hi E; [done|]. cbn [csilk_mq_next] in E.
  destruct (aborted c) eqn:Ea. { injection E as <-. split; [apply (pass_weaken _ _ 0); [lia|by apply pass_same]|congruence]. }
  destruct (_ <=? _); [done|]. cbn [index mq aborted] in E. destruct (Z.ltb_spec (index c + 1) (Z.of_nat (length chain))) as [Hlt|Hge].
  - destruct (chain !! Z.to_nat (index c + 1)) as [h|] eqn:Eh; [|done]. cbn [mbind option_bind] in E. set (c1 := with_mq _ _) in E.
    assert (index c1 = index c + 1) as Ei by done. assert (pos c1 = S (pos c)) as Ep by (unfold pos; lia).
    apply (acts_pass_ok chain) in E as [[P1 P2 P3 P4] Q]; [|intros; by apply IH|lia].
    assert (pos c1 <= pos c')%nat as Hle by (unfold pos; lia). change (chain !! pos c = Some h) in Eh. split; [|lia]. constructor.
    + congruence.
    + lia.
    + intros i h' Hip Hh' Hp Hl. destruct (decide (i = pos c)) as [->|]; [|apply (P3 i h'); done || lia].
      rewrite Eh in Hh'. injection Hh' as <-. rewrite Ep in Q. apply Q; [done|done|lia].
    + rewrite <- (segment_app chain (pos c) (pos c1) (pos c')) by lia. rewrite Ep at 1 3. rewrite (segment_one chain (pos c) h Eh). unfold sum_forwards in *. cbn [app length map].
      change (list_sum (?a :: ?l)) with (a + list_sum l)%nat. lia.
  - injection E as <-. split; [|unfold pos; lia]. constructor; cbn [index]; [congruence|lia| |].
    + intros i h Hp Hh. apply lookup_lt_Some in Hh. unfold pos in *. lia.
    + rewrite segment_end by (unfold pos; lia). cbn. lia.
Qed.

Lemma next_runs fuel chain m s c : csilk_mq_next fuel chain m (mk_mctx (-1) false s) = Some c -> runs chain m (pos c).
Proof.
  intros E. apply next_pass in E as [[P1 P2 P3 P4] Q]; [|cbn; lia]. change (pos (mk_mctx (-1) false s)) with 0%nat in *. constructor.
  - intros Hne. apply Q; [done|]. destruct chain; [done|cbn; lia].
  - intros i h Hi. apply P3. lia.
  - unfold segment in P4. by rewrite Nat.sub_0_r, drop_0 in P4.
Qed.

(** ** Dispatch and scripts *)

Definition named (s : csilk_mq_t) : Prop := Forall (fun t => is_Some (name t)) (topics s) /\ Forall (fun b : bool => b = true) (name_answers s).

Definition nh (s : csilk_mq_t) : nat := length (global_middlewares s) + list_sum (map (fun t => length (handlers t)) (topics s)).

(** The handlers a message is meant for: the global ones, then those of every
    topic whose pattern matches, newest topic first. *)
Definition chain_of (s : csilk_mq_t) (m : csilk_mq_msg_t) : list Z :=
  global_middlewares s ++ concat (map (fun t => if fnmatch (default [] (name t)) (topic m) then handlers t else []) (topics s)).

Lemma matching_ok ts tp : Forall (fun t => is_Some (name t)) ts ->
  matching ts tp = Some (concat (map (fun t => if fnmatch (default [] (name t)) tp then handlers t else []) ts)).
Proof. induction 1 as [|t ts [n E] H IH]; [done|]. cbn [matching]. rewrite E, IH. cbn [map concat]. by rewrite E. Qed.

Lemma chain_length s m : (length (chain_of s m) <= nh s)%nat.
Proof.
  unfold chain_of, nh. rewrite length_app. apply Nat.add_le_mono_l. induction (topics s) as [|t ts IH]; [done|]. cbn [map concat].
  change (list_sum (?a :: ?l)) with (a + list_sum l)%nat. rewrite length_app. destruct (fnmatch _ _); cbn [length]; lia.
Qed.

(** What becomes of a message: whether its chain could be allocated, and how
    many of its handlers were invoked. *)
Definition outcome : Type := bool * nat.

Definition handled (s : csilk_mq_t) (m : csilk_mq_msg_t) (r : outcome) : Prop :=
  if r.1 then runs (chain_of s m) m r.2 else r.2 = 0%nat.

Definition invoked (s : csilk_mq_t) (m : csilk_mq_msg_t) (r : outcome) : list (Z * csilk_mq_msg_t) :=
  map (fun h => (h, m)) (take r.2 (chain_of s m)).

(** Delivery of one message: it is recorded, its handlers are invoked in chain
    order as far as they pass it on, and what they publish is queued. *)
Record delivers (s s' : csilk_mq_t) (m : csilk_mq_msg_t) (r : outcome) (qs : list csilk_mq_msg_t) : Prop := mk_delivers {
  d_queue : queue s' = queue s ++ qs;
  d_pubs : pubs (log s') = pubs (log s) ++ qs;
  d_dels : taken (log s') = taken (log s) ++ [(m, r.1)];
  d_invs : invs (log s') = invs (log s) ++ invoked s m r;
  d_pub_total : published_total s' = wrap64 (published_total s + Z.of_nat (length qs));
  d_depth : queue_depth s' = wrap32 (queue_depth s + Z.of_nat (length qs));
  d_del_total : delivered_total s' = wrap64 (delivered_total s + 1);
  d_topics : topics s' = topics s;
  d_globals : global_middlewares s' = global_middlewares s;
  d_names : name_answers s' = name_answers s;
  d_handled : handled s m r;
  d_answers : all_true (answers s) -> r.1 = true /\ all_true (answers s');
}.

(** A message that was taken out and counted, then recorded as [e]. *)
Lemma delivers_after s s1 s2 m r qs e : counters_ok s -> silent s s1 ->
  pubs [e] = [] -> taken [e] = [(m, r.1)] -> invs [e] = [] -> handled s m r -> (all_true (answers s) -> r.1 = true) ->
  let s3 := set_delivered s1 (wrap64 (delivered_total s + 1)) in
  grows (note s3 [e]) s2 qs -> invs (log s2) = invs (log (note s3 [e])) ++ invoked s m r -> delivers s s2 m r qs.
Proof.
  intros Hc (E1 & E2 & E3 & E4 & E5 & E6 & E7 & E8 & E9 & E10 & E11) V1 V2 V3 Hh Ha s3 [G1 G2 G3 G4 G5 G6 G7 G8 G9 G10] Ei.
  cbn [s3 note set_delivered queue published_total queue_depth delivered_total topics global_middlewares name_answers answers log] in *.
  unfold pubs, taken, invs in *. rewrite !omap_app in *. constructor; unfold pubs, taken, invs; try congruence.
  - rewrite G2, V1, E8, app_nil_r. done.
  - rewrite Ei, V3, E10, app_nil_r. done.
  - intros H. split; [auto|tauto].
Qed.

Lemma dispatch_one_ok s m : named s -> counters_ok s -> B * Z.of_nat (nh s) <= INT_MAX ->
  exists s' r qs, dispatch_one s m = Some s' /\ delivers s s' m r qs.
Proof.
  intros [Hn Hna] Hc Hb. unfold dispatch_one. set (s0 := _mq_broadcast s true (topic m) (mlen m)).
  pose proof (broadcast_silent s true (topic m) (mlen m)) as S0. fold s0 in S0. pose proof S0 as (_ & _ & _ & E4 & E5 & E6 & _).
  rewrite E4. set (s1 := set_delivered s0 _). change (topics s1) with (topics s0). change (global_middlewares s1) with (global_middlewares s0).
  rewrite E5, E6, matching_ok by done. cbn [mbind option_bind]. fold (chain_of s m).
  assert (forall s', silent s s' -> counters_ok (set_delivered s' (wrap64 (delivered_total s + 1)))) as Hcs by (intros s' H; apply (silent_counters s s' H Hc)).
  assert (forall s' e, counters_ok s' -> grows (note s' e) (note s' e) []) as Hrefl by (intros s' e H; by apply mq_grows_refl).
  destruct (chain_of s m) as [|h0 hs] eqn:Ech.
  { exists (note s1 [Delivered m]), (true, 0%nat), []. split; [done|]. apply (delivers_after s s0 _ m _ _ (Delivered m)); try done.
    - unfold handled. cbn [fst snd]. rewrite Ech. constructor; [done|lia|cbn; lia].
    - by apply Hrefl, Hcs.
    - unfold invoked. by rewrite app_nil_r. }
  rewrite <- Ech in *. assert (exists s2 b, ask s1 = (b, set_delivered s2 (wrap64 (delivered_total s + 1))) /\ silent s s2 /\ (all_true (answers s) -> b = true)) as (s2 & b & -> & S2 & Ha).
  { unfold ask. change (answers s1) with (answers s0). destruct S0 as (P1 & P2 & P3 & P4 & P5 & P6 & P7 & P8 & P9 & P10 & P11).
    destruct (answers s0) as [|a l] eqn:Ea; [exists s0, true; split; [done|]; split; [|done]; repeat split; try done; by rewrite Ea|].
    exists (set_oracle s0 l (name_answers s0)), a. split; [done|]. split; [|intros H; apply P11 in H; by apply Forall_cons in H as [? _]].
    repeat split; try done. intros H. apply P11 in H. by apply Forall_cons in H as [_ ?]. }
  set (s3 := set_delivered s2 _). destruct b; cbn [negb].
  - destruct (mq_next_adv (S (length (chain_of s m))) (chain_of s m) m (mk_mctx (-1) false (note s3 [Delivered m]))) as (c & E & [A1 A2 A3 [qs A4]]).
    { pose proof (chain_length s m) as Hl. pose proof (HB 0 m). split_and!; cbn [index]; [lia|unfold pos; cbn [index]; lia| |by apply Hcs].
      unfold left, pos. cbn [index]. change (Z.to_nat (-1 + 1)) with 0%nat. rewrite Nat.sub_0_r. nia. }
    rewrite E. cbn [mbind option_bind mq] in *. exists (mq c), (true, pos c), qs. split; [done|]. apply (delivers_after s s2 _ m _ _ (Delivered m)); try done.
    + by apply (next_runs _ _ _ _ _ E).
    + rewrite A3. unfold invoked, segment, pos at 2. cbn [index snd]. change (Z.to_nat (-1 + 1)) with 0%nat. by rewrite Nat.sub_0_r, drop_0.
  - exists (note s3 [Dropped m]), (false, 0%nat), []. split; [done|]. apply (delivers_after s s2 _ m _ _ (Dropped m)); try done.
    + by apply Hrefl, Hcs.
    + unfold invoked. by rewrite app_nil_r.
Qed.

(** A batch. *)
Lemma dispatch_all_ok batch s : named s -> counters_ok s -> B * Z.of_nat (nh s) <= INT_MAX ->
  exists s' rs qs, dispatch_all s batch = Some s' /\ Forall2 (handled s) batch rs /\
    queue s' = queue s ++ qs /\ pubs (log s') = pubs (log s) ++ qs /\ taken (log s') = taken (log s) ++ zip batch (map fst rs) /\
    invs (log s') = invs (log s) ++ concat (zip_with (invoked s) batch rs) /\
    published_total s' = wrap64 (published_total s + Z.of_nat (length qs)) /\ queue_depth s' = wrap32 (queue_depth s + Z.of_nat (length qs)) /\
    wrap64 (delivered_total s') = wrap64 (delivered_total s + Z.of_nat (length batch)) /\ named s' /\ nh s' = nh s /\
    (all_true (answers s) -> Forall (fun r => r.1 = true) rs).
Proof.
  revert s. induction batch as [|m batch IH]; intros s Hn Hc Hb.
  { exists s, [], []. cbn [length Z.of_nat]. rewrite !Z.add_0_r, !app_nil_r. destruct (mq_grows_refl s Hc) as [_ _ _ G4 G5 _ _ _ _ _].
    cbn [length Z.of_nat] in G4, G5. rewrite Z.add_0_r in G4, G5. by split_and!. }
  destruct (dispatch_one_ok s m Hn Hc Hb) as (s1 & r & q1 & E1 & [D1 D2 D3 D4 D5 D6 D7 D8 D9 D10 D11 D12]).
  assert (nh s1 = nh s) as Enh by (unfold nh; by rewrite D8, D9).
  destruct (IH s1) as (s2 & rs & q2 & E2 & Hl & F1 & F2 & F3 & F4 & F5 & F6 & F7 & F8 & F9 & F10);
    [destruct Hn; split; by rewrite ?D8, ?D10|split; rewrite ?D5, ?D6; [apply wrap64_range|apply wrap32_range]|by rewrite Enh|].
  exists s2, (r :: rs), (q1 ++ q2). cbn [dispatch_all]. rewrite E1. cbn [mbind option_bind]. rewrite E2. cbn [length zip_with concat map].
  assert (forall m, chain_of s1 m = chain_of s m) as Ech by (intros; unfold chain_of; by rewrite D8, D9).
  split_and!; try done; try congruence.
  - constructor; [done|]. eapply Forall2_impl; [exact Hl|]. intros m' r'. unfold handled. by rewrite Ech.
  - by rewrite F1, D1, app_assoc.
  - by rewrite F2, D2, app_assoc.
  - rewrite F3, D3, <- app_assoc. done.
  - rewrite F4, D4, <- app_assoc. do 2 f_equal. f_equal. apply zip_with_ext; [|done|done]. intros. unfold invoked. by rewrite Ech.
  - rewrite F5, D5. unfold wrap64. by rewrite wrap_add, length_app, Nat2Z.inj_add.
  - rewrite F6, D6. unfold wrap32. by rewrite wrap_add, length_app, Nat2Z.inj_add.
  - rewrite F7, D7. unfold wrap64. rewrite wrap_add. f_equal. lia.
  - intros H. destruct (D12 H) as [? ?]. constructor; auto.
Qed.

Inductive op :=
| OpPublish (topic : bytes) (payload : option bytes) (len : Z)
| OpUse (topic : option bytes) (h : Z)
| OpAsync
| OpMonitor (c : Z)
| OpUnmonitor (c : Z).

Definition run_op (o : op) (s : csilk_mq_t) : option csilk_mq_t :=
  match o with
  | OpPublish t p l => Some (csilk_mq_publish s t p l).2
  | OpUse t h => csilk_mq_use s t h
  | OpAsync => on_mq_async s
  | OpMonitor c => Some (csilk_mq_register_monitor s c)
  | OpUnmonitor c => Some (csilk_mq_unregister_monitor s c)
  end.

Fixpoint run_ops (l : list op) (s : csilk_mq_t) : option csilk_mq_t :=
  match l with
  | [] => Some s
  | o :: l' => s ← run_op o s; run_ops l' s
  end.

Record sinv (n : nat) (s : csilk_mq_t) : Prop := mk_sinv {
  i_named : named s;
  i_order : pubs (log s) = map fst (taken (log s)) ++ queue s;
  i_pub : published_total s = wrap64 (Z.of_nat (length (pubs (log s))));
  i_del : wrap64 (delivered_total s) = wrap64 (Z.of_nat (length (taken (log s))));
  i_depth : queue_depth s = wrap32 (Z.of_nat (length (queue s)));
  i_nh : (nh s <= n)%nat;
}.

Lemma sinv_counters n s : sinv n s -> counters_ok s.
Proof. intros [_ _ H1 _ H2 _]. split; [rewrite H1; apply wrap64_range|rewrite H2; apply wrap32_range]. Qed.

(** Registration does not touch the traffic. *)
Definition same_traffic (s s' : csilk_mq_t) : Prop :=
  queue s' = queue s /\ published_total s' = published_total s /\ delivered_total s' = delivered_total s /\ queue_depth s' = queue_depth s /\ log s' = log s.

Lemma sinv_same n n' s s' : sinv n s -> same_traffic s s' -> named s' -> (nh s' <= n')%nat -> sinv n' s'.
Proof. intros [H1 H2 H3 H4 H5 H6] (E1 & E2 & E3 & E4 & E5) Hn Hh. constructor; congruence. Qed.

Lemma sinv_silent n s s' : sinv n s -> silent s s' -> sinv n s'.
Proof.
  intros [[N1 N2] H2 H3 H4 H5 H6] (E1 & E2 & E3 & E4 & E5 & E6 & E7 & E8 & E9 & E10 & E11).
  constructor; [split; congruence|congruence..|]. unfold nh in *. by rewrite E5, E6.
Qed.

Lemma ask_same s : same_traffic s (ask s).2 /\ topics (ask s).2 = topics s /\ global_middlewares (ask s).2 = global_middlewares s /\ name_answers (ask s).2 = name_answers s.
Proof. unfold ask. by destruct (answers s). Qed.

Lemma same_trans s1 s2 s3 : same_traffic s1 s2 -> same_traffic s2 s3 -> same_traffic s1 s3.
Proof. intros (? & ? & ? & ? & ?) (? & ? & ? & ? & ?). repeat split; congruence. Qed.

Lemma nh_insert ts i t h cap : ts !! i = Some t ->
  list_sum (map (fun t => length (handlers t)) (<[i := mk_topic (name t) (handlers t ++ [h]) cap]> ts)) = S (list_sum (map (fun t => length (handlers t)) ts)).
Proof.
  revert i. induction ts as [|t0 ts IH]; intros [|i] E; try done.
  - injection E as ->. change (<[0%nat := ?x]> (?y :: ?l)) with (x :: l). cbn [map handlers]. rewrite length_app. cbn [length list_sum fold_right]. lia.
  - change (<[S i := ?x]> (?y :: ?l)) with (y :: <[i := x]> l). cbn [map]. change (list_sum (?a :: ?l)) with (a + list_sum l)%nat. rewrite (IH i E). lia.
Qed.

(** Appending a handler to a topic. *)
Lemma add_handler s i t h cap : topics s !! i = Some t -> named s ->
  let s' := set_topics s (<[i := mk_topic (name t) (handlers t ++ [h]) cap]> (topics s)) in named s' /\ nh s' = S (nh s).
Proof.
  intros E [H1 H2]. split.
  - split; [|done]. cbn [set_topics topics]. apply Forall_insert; [done|]. cbn [name]. by rewrite Forall_lookup in H1; eapply H1.
  - unfold nh. cbn [set_topics topics global_middlewares]. rewrite nh_insert by done. lia.
Qed.

Lemma find_topic_ok n ts : Forall (fun t => is_Some (name t)) ts -> exists r, find_topic n ts = Some r /\ forall i, r = Some i -> exists t, ts !! i = Some t.
Proof.
  induction 1 as [|t ts [x E] H IH]; [by exists None|]. cbn [find_topic]. rewrite E. cbn [mbind option_bind].
  destruct (decide _); [exists (Some 0%nat); split; [done|intros i [= <-]; by exists t]|]. destruct IH as (r & -> & Hr). cbn [mbind option_bind].
  exists (option_map S r). split; [done|]. intros [|i] Ei; destruct r as [j|]; try done. injection Ei as <-. by apply Hr.
Qed.

Lemma get_or_create_ok s n : named s -> exists r s', get_or_create_topic s n = Some (r, s') /\ same_traffic s s' /\ named s' /\ nh s' = nh s /\
  forall i, r = Some i -> exists t, topics s' !! i = Some t.
Proof.
  intros Hn. unfold get_or_create_topic. destruct (find_topic_ok n (topics s)) as (r & -> & Hr); [apply Hn|]. cbn [mbind option_bind].
  destruct r as [i|]; [exists (Some i), s; by split_and!|].
  destruct (ask_same s) as (S1 & T1 & G1 & N1). destruct (ask s) as [[] s1]; cbn [negb snd] in *.
  - destruct Hn as [H1 H2]. unfold ask_name. rewrite N1. destruct (name_answers s) as [|b l] eqn:En.
    + eexists _, _. split; [done|]. split_and!; [done| |unfold nh; cbn; by rewrite T1, G1|intros i [= <-]; by eexists].
      split; cbn [set_topics topics name_answers]; [rewrite T1; by constructor|by rewrite N1].
    + apply Forall_cons in H2 as [-> H2]. eexists _, _. split; [done|]. split_and!; [done| |unfold nh; cbn; by rewrite T1, G1|intros i [= <-]; by eexists].
      split; cbn [set_topics set_oracle topics name_answers]; [rewrite T1; by constructor|done].
  - eexists _, _. split; [done|]. split_and!; [done| |unfold nh; by rewrite T1, G1|done]. destruct Hn. split; congruence.
Qed.

Lemma named_same s s' : topics s' = topics s -> name_answers s' = name_answers s -> named s -> named s'.
Proof. intros E1 E2 [H1 H2]. split; congruence. Qed.

Lemma use_ok s t h : named s -> exists s', csilk_mq_use s t h = Some s' /\ same_traffic s s' /\ named s' /\ (nh s' <= S (nh s))%nat.
Proof.
  intros Hn. unfold csilk_mq_use. destruct t as [n|].
  - destruct (get_or_create_ok s n Hn) as (r & s1 & -> & S1 & N1 & E1 & Hr). cbn [mbind option_bind]. destruct r as [i|]; [|exists s1; split_and!; done || lia].
    destruct (Hr i eq_refl) as [t Et]. rewrite Et. cbn [mbind option_bind]. destruct (_ <=? _).
    + destruct (grown_capacity _) as [cap|]; [|exists s1; split_and!; done || lia].
      destruct (ask_same s1) as (S2 & T2 & G2 & M2). destruct (ask s1) as [[] s2]; cbn [snd] in *.
      * eexists. split; [done|]. split; [by eapply same_trans|]. destruct (add_handler s2 i t h cap) as [A1 A2]; [by rewrite T2|by eapply named_same|].
        split; [done|]. cbn zeta in A2. rewrite A2. unfold nh in *. rewrite T2, G2. lia.
      * eexists. split; [done|]. split_and!; [by eapply same_trans|by eapply named_same|unfold nh in *; rewrite T2, G2; lia].
    + eexists. split; [done|]. split; [done|]. destruct (add_handler s1 i t h (handler_capacity t) Et N1) as [A1 A2]. split; [done|]. cbn zeta in A2. lia.
  - assert (forall s cap, nh (set_globals s (global_middlewares s ++ [h]) cap) = S (nh s)) as Hg by (intros; unfold nh; cbn [set_globals global_middlewares topics]; rewrite length_app; cbn [length]; lia).
    destruct (_ <=? _); [|eexists; split; [done|]; split_and!; [done|done|rewrite Hg; lia]].
    destruct (grown_capacity _) as [cap|]; [|exists s; split_and!; done || lia].
    destruct (ask_same s) as (S2 & T2 & G2 & M2). destruct (ask s) as [[] s2]; cbn [snd] in *; eexists; (split; [done|]);
      split_and!; try done; try (by eapply named_same); rewrite ?Hg; unfold nh; rewrite T2, G2; lia.
Qed.

Lemma async_ok n s : sinv n s -> B * Z.of_nat n <= INT_MAX ->
  exists s' rs, on_mq_async s = Some s' /\ sinv n s' /\ Forall2 (handled s) (queue s) rs /\ taken (log s') = taken (log s) ++ zip (queue s) (map fst rs) /\
    invs (log s') = invs (log s) ++ concat (zip_with (invoked s) (queue s) rs) /\ (all_true (answers s) -> Forall (fun r => r.1 = true) rs).
Proof.
  intros H Hb. pose proof H as [H1 H2 H3 H4 H5 H6]. unfold on_mq_async. set (s0 := set_queue s [] (published_total s) 0).
  assert (counters_ok s0) as Hc by (split; cbn; [apply (sinv_counters _ _ H)|lia]). pose proof (HB 0 (mk_msg [] None 0)) as HB0.
  destruct (dispatch_all_ok (queue s) s0 H1 Hc) as (s' & rs & qs & E & Hl & F1 & F2 & F3 & F4 & F5 & F6 & F7 & F8 & F9 & F10).
  { change (nh s0) with (nh s). nia. }
  exists s', rs. split; [done|]. split; [|by split_and!]. cbn [s0 set_queue queue log app published_total queue_depth delivered_total] in *.
  assert (map fst (zip (queue s) (map fst rs)) = queue s) as Ez by (apply fst_zip; rewrite List.length_map; pose proof (Forall2_length _ _ _ Hl) as Hln; rewrite Hln; done).
  constructor; [done| | | | |].
  - by rewrite F2, F3, F1, H2, map_app, Ez.
  - rewrite F5, F2, H3. unfold wrap64. change (wrap 64 (Z.of_nat (length (pubs (log s))))) with (wrap 64 (0 + Z.of_nat (length (pubs (log s))))).
    rewrite wrap_add, length_app, Nat2Z.inj_add. f_equal.
  - rewrite F7, F3, length_app, Nat2Z.inj_add. rewrite <- (List.length_map fst (zip _ _)), Ez. unfold wrap64, wrap in *. by rewrite <- Zplus_mod_idemp_l, H4, Zplus_mod_idemp_l.
  - by rewrite F6, F1.
  - rewrite F9. exact H6.
Qed.

Lemma run_op_sinv n o s : sinv n s -> B * Z.of_nat n <= INT_MAX -> exists s', run_op o s = Some s' /\ sinv (S n) s'.
Proof.
  intros H Hb. assert (forall s', sinv n s' -> sinv (S n) s') as Hw by (intros s' [? ? ? ? ? ?]; constructor; done || lia).
  destruct o as [t p l|t h| |c|c]; cbn [run_op].
  - eexists. split; [done|]. apply Hw. destruct (publish_grows s t p l (sinv_counters _ _ H)) as (qs & [G1 G2 G3 G4 G5 G6 G7 G8 G9 _] & _).
    destruct H as [[N1 N2] H2 H3 H4 H5 H6]. constructor; [split; congruence| | |congruence| |unfold nh in *; by rewrite G7, G8].
    + by rewrite G1, G2, G3, H2, app_assoc.
    + rewrite G4, G2, H3. unfold wrap64. change (wrap 64 (Z.of_nat (length (pubs (log s))))) with (wrap 64 (0 + Z.of_nat (length (pubs (log s))))).
      rewrite wrap_add, length_app, Nat2Z.inj_add. f_equal.
    + rewrite G5, G1, H5. unfold wrap32. change (wrap 32 (Z.of_nat (length (queue s)))) with (wrap 32 (0 + Z.of_nat (length (queue s)))).
      rewrite wrap_add, length_app, Nat2Z.inj_add. f_equal.
  - destruct (use_ok s t h) as (s' & -> & S1 & N1 & Hh); [apply H|]. exists s'. split; [done|]. eapply sinv_same; [exact H|done|done|].
    pose proof (i_nh _ _ H). lia.
  - destruct (async_ok n s H Hb) as (s' & rs & -> & H' & _). eauto.
  - eexists. split; [done|]. apply Hw. eapply sinv_silent; [exact H|]. unfold csilk_mq_register_monitor.
    destruct (_ <=? _); [|by repeat split]. destruct (grown_capacity _); [|apply silent_refl]. pose proof (ask_silent s) as S1.
    destruct (ask s) as [[] s1]; [|done]. eapply silent_trans; [exact S1|by repeat split].
  - eexists. split; [done|]. apply Hw. eapply sinv_silent; [exact H|by repeat split].
Qed.

Lemma run_ops_sinv l n s : sinv n s -> B * Z.of_nat (n + length l) <= INT_MAX -> exists s', run_ops l s = Some s' /\ sinv (n + length l) s'.
Proof.
  revert n s. pose proof (HB 0 (mk_msg [] None 0)) as HB0. induction l as [|o l IH]; intros n s H Hb; [exists s; by rewrite Nat.add_0_r|]. cbn [run_ops length] in *.
  destruct (run_op_sinv n o s H) as (s1 & -> & H1); [nia|]. cbn [mbind option_bind]. rewrite <- Nat.add_succ_comm in *. by apply IH.
Qed.

Lemma new_sinv a na : Forall (fun b : bool => b = true) na -> sinv 0 (_csilk_mq_new a na).
Proof. intros H. by constructor. Qed.
End mq.

(** ** Property *)


(** Handler 1 passes every message on, 2 publishes an audit message for an
    order and passes on, 3 aborts. *)
Definition demo_behaviour (h : Z) (m : csilk_mq_msg_t) : list action :=
  match h with
  | 1 => [MNext]
  | 2 => if decide (topic m = lit "order") then [MPublish (lit "audit") (Some (lit "x")) 1; MNext] else [MNext]
  | 3 => [MAbort; MNext]
  | _ => []
  end.

Definition demo_match (p t : bytes) : bool := bool_decide (p = lit "*") || bool_decide (p = t).

Definition demo_ops : list op :=
  [OpUse None 1; OpUse (Some (lit "*")) 4; OpUse (Some (lit "order")) 2; OpMonitor 77; OpPublish (lit "order") (Some (lit "42")) 2;
   OpPublish (lit "log") None 0; OpAsync; OpPublish (lit "order") None 0].


(** ** Observation *)

(** The copy of a new topic's name is not checked: when it fails, the next
    registration passes a null name to [strcmp]. *)
Example null_topic_name :
  run_ops demo_match (fun _ => false) demo_behaviour [OpUse (Some (lit "a")) 1; OpUse (Some (lit "b")) 2] (_csilk_mq_new [] [false]) = None.
Proof. by vm_compute. Qed.

(** Handlers are said to run in registration order, but topics are kept newest
    first: of two topics that match, the one created last runs first. *)
Example newest_topic_first :
  (s ← run_ops demo_match (fun _ => false) demo_behaviour [OpUse (Some (lit "order")) 2; OpUse (Some (lit "*")) 4] (_csilk_mq_new [] []);
   Some (chain_of demo_match s (mk_msg (lit "order") None 0))) = Some [4; 2].
Proof. by vm_compute. Qed.

(** A message whose chain cannot be allocated is freed unseen, and counted as
    delivered. *)
Example dropped_counts_as_delivered :
  (s ← run_ops demo_match (fun _ => false) demo_behaviour [OpUse None 1; OpPublish (lit "a") None 0; OpAsync] (_csilk_mq_new [true; true; true; false] []);
   Some (taken (log s), invs (log s), delivered_total s)) = Some ([(mk_msg (lit "a") None 0, false)], [], 1).
Proof. by vm_compute. Qed.
