(* ===== verification/MqWal.v ===== *)
(** * The write-ahead log of the message queue

    Models src/src/messaging/mq_wal.c and the closing of the queue in mq_core.c:
    the writer thread with its group commit, [_mq_wal_flush], [_mq_recovery] and
    [csilk_mq_set_persistence].  A disk has files by path, with the length known
    to be durable, and the table of open descriptors; descriptors are opened for
    appending.  Every [write] on an open descriptor consumes one answer of an
    oracle, the number of bytes the system accepts (exhausted: all of them).
    Allocations consume answers of the queue's oracle.  Integers of a frame are
    stored in the byte order of the machine, little-endian.

    The writer thread has been started ([pthread_create] succeeded) and a round
    of it is one step: the queue is accessed under the mutex only, and a flush
    waits for the end of the batch.  The queue of the writer thread is shared
    by all message queues of the process. *)

From stdpp Require Import gmap.
From S2P Require Import Prelude Mq.

#[local] Open Scope Z_scope.

(** ** Files *)

Record disk := mk_disk { files : gmap bytes bytes; open_fds : gmap Z bytes; durable : gmap bytes nat; writes : list nat }.

Definition contents (d : disk) (path : bytes) : bytes := default [] (files d !! path).

(** What is read through a descriptor; nothing when it is not open. *)
Definition contents_fd (d : disk) (f : Z) : bytes := default [] (contents d <$> open_fds d !! f).

(** [write(fd, data, len)]: the number of bytes accepted, or -1. *)
Definition write (d : disk) (f : Z) (data : bytes) : Z * disk :=
  match open_fds d !! f with
  | None => (-1, d)
  | Some p =>
      let '(n, rest) := match writes d with [] => (length data, []) | n :: rest => (Nat.min n (length data), rest) end in
      (Z.of_nat n, mk_disk (<[p := contents d p ++ take n data]> (files d)) (open_fds d) (durable d) rest)
  end.

(** [fdatasync(fd)] *)
Definition fdatasync (d : disk) (f : Z) : disk :=
  match open_fds d !! f with
  | None => d
  | Some p => mk_disk (files d) (open_fds d) (<[p := length (contents d p)]> (durable d)) (writes d)
  end.

(** [open(path, O_CREAT | O_RDWR | O_APPEND)] that answers the descriptor [f]. *)
Definition fs_open (d : disk) (path : bytes) (f : Z) : disk :=
  mk_disk (<[path := contents d path]> (files d)) (<[f := path]> (open_fds d)) (durable d) (writes d).

Definition fs_close (d : disk) (f : Z) : disk := mk_disk (files d) (delete f (open_fds d)) (durable d) (writes d).

(** ** Frames *)

Definition le32 (n : Z) : bytes := le 4 n.
Definition of_le32 (b : bytes) : Z := of_le b.

(** The XOR of all bytes. *)
Definition xor_bytes (l : bytes) (acc : Z) : Z := foldl (fun a c => Z.lxor a (cval c)) acc l.

Definition data_of (p : option bytes) : bytes := default [] p.

Definition task_checksum (t : mq_wal_task_t) : Z :=
  let topic_len := wrap32 (Z.of_nat (length (t_topic t))) in
  let payload_len := wrap32 (t_len t) in
  xor_bytes (take (Z.to_nat payload_len) (data_of (t_payload t))) (xor_bytes (take (Z.to_nat topic_len) (t_topic t)) 0).

(** The body of the loop of [mq_wal_writer_thread]. *)
Definition write_task (d : disk) (t : mq_wal_task_t) : disk :=
  let topic_len := wrap32 (Z.of_nat (length (t_topic t))) in
  let payload_len := wrap32 (t_len t) in
  let checksum := task_checksum t in
  let '(n, d) := write d (fd t) (le32 topic_len) in
  if n =? 4 then
    let d := (write d (fd t) (take (Z.to_nat topic_len) (t_topic t))).2 in
    let d := (write d (fd t) (le32 payload_len)).2 in
    let d := match t_payload t with
             | Some p => if 0 <? payload_len then (write d (fd t) (take (Z.to_nat payload_len) p)).2 else d
             | None => d
             end in
    (write d (fd t) (le32 checksum)).2
  else d.

Fixpoint write_batch (d : disk) (batch : list mq_wal_task_t) (last_fd : Z) : disk * Z :=
  match batch with
  | [] => (d, last_fd)
  | t :: batch' => write_batch (write_task d t) batch' (fd t)
  end.

(** One round of the writer thread: the whole queue, and one sync. *)
Definition mq_wal_writer_thread (s : csilk_mq_t) (d : disk) : csilk_mq_t * disk :=
  let '(d, last_fd) := write_batch d (wal_queue s) (-1) in
  (set_wal s (wal_fd s) [], if 0 <=? last_fd then fdatasync d last_fd else d).

(** Waits until the queue is empty and its batch is written. *)
Definition _mq_wal_flush (s : csilk_mq_t) (d : disk) : csilk_mq_t * disk :=
  match wal_queue s with [] => (s, d) | _ => mq_wal_writer_thread s d end.

(** ** Recovery *)

Definition MQ_WAL_MAX_TOPIC_LEN : Z := 64 * 1024.
Definition MQ_WAL_MAX_PAYLOAD_LEN : Z := 64 * 1024 * 1024.

(** A positional read: the bytes there are, at most [n]. *)
Definition pread (f : bytes) (offset n : Z) : bytes := take (Z.to_nat n) (drop (Z.to_nat offset) f).

Section recovery.
Context (is_closed : Z -> bool).

(** [None]: out of fuel. *)
Fixpoint recover_loop (fuel : nat) (f : bytes) (offset : Z) (s : csilk_mq_t) : option csilk_mq_t :=
  match fuel with
  | O => None
  | S fuel' =>
      let b := pread f offset 4 in
      if Z.of_nat (length b) <? 4 then Some s else
      let topic_len := of_le32 b in
      let offset := offset + 4 in
      if (topic_len =? 0) || (MQ_WAL_MAX_TOPIC_LEN <? topic_len) then Some s else
      let '(ok, s) := ask s in
      if negb ok then Some s else
      let topic := pread f offset topic_len in
      if Z.of_nat (length topic) <? topic_len then Some s else
      let offset := offset + topic_len in
      let b := pread f offset 4 in
      if Z.of_nat (length b) <? 4 then Some s else
      let payload_len := of_le32 b in
      let offset := offset + 4 in
      if MQ_WAL_MAX_PAYLOAD_LEN <? payload_len then Some s else
      let '(ok, s) := if 0 <? payload_len then ask s else (true, s) in
      if negb ok then Some s else
      let data := if 0 <? payload_len then pread f offset payload_len else [] in
      if Z.of_nat (length data) <? payload_len then Some s else
      let offset := offset + payload_len in
      let b := pread f offset 4 in
      if Z.of_nat (length b) <? 4 then Some s else
      let checksum := of_le32 b in
      let offset := offset + 4 in
      if xor_bytes data (xor_bytes topic 0) =? checksum then
        let payload := if 0 <? payload_len then Some data else None in
        recover_loop fuel' f offset (_mq_enqueue is_closed s (cstr (topic ++ [NUL])) payload payload_len).2
      else Some s
  end.

(** Every round that continues consumes at least thirteen bytes, so the length
    of the file bounds the rounds. *)
Definition _mq_recovery (s : csilk_mq_t) (d : disk) : option (csilk_mq_t * disk) :=
  if wal_fd s <? 0 then Some (s, d) else
  let '(s, d) := _mq_wal_flush s d in
  let f := contents_fd d (wal_fd s) in
  s ← recover_loop (S (length f)) f 0 s; Some (s, d).

(** [opened]: the descriptor the system answers, or its error. *)
Definition csilk_mq_set_persistence (s : csilk_mq_t) (d : disk) (wal_path : option bytes) (opened : Z) : option (Z * csilk_mq_t * disk) :=
  match wal_path with
  | None => Some (-1, s, d)
  | Some path =>
      let '(s, d) := _mq_wal_flush s d in
      let '(s, d) := if 0 <=? wal_fd s then (set_wal s (-1) (wal_queue s), fs_close d (wal_fd s)) else (s, d) in
      if opened <? 0 then Some (opened, s, d) else
      let d := fs_open d path opened in
      '(s, d) ← _mq_recovery (set_wal s opened (wal_queue s)) d;
      Some (0, s, d)
  end.
End recovery.

(** The queue itself is released; what it leaves is the disk. *)
Definition on_mq_close (s : csilk_mq_t) (d : disk) : disk :=
  let '(s, d) := _mq_wal_flush s d in
  if 0 <=? wal_fd s then fs_close d (wal_fd s) else d.

(** ** Frames as the format describes them *)

Lemma le32_length n : length (le32 n) = 4%nat.
Proof. apply le_length. Qed.

Lemma of_le32_le32 n : 0 <= n < 2 ^ 32 -> of_le32 (le32 n) = n.
Proof. exact (of_le_le 4 n). Qed.

Lemma of_le32_range b : length b = 4%nat -> 0 <= of_le32 b < 2 ^ 32.
Proof. intros H. pose proof (of_le_range b) as R. by rewrite H in R. Qed.

Lemma xor_bytes_range l acc : 0 <= acc < 256 -> 0 <= xor_bytes l acc < 256.
Proof.
  revert acc. induction l as [|c l IH]; intros acc H; [done|]. apply IH.
  apply (lxor_bound acc (cval c) 8); [lia|done|apply cval_range].
Qed.

(** A message a frame can represent: the limits of the recovery hold. *)
Definition loggable (m : csilk_mq_msg_t) : Prop :=
  nul_free (topic m) /\ 0 < Z.of_nat (length (topic m)) <= MQ_WAL_MAX_TOPIC_LEN /\
  0 <= mlen m <= MQ_WAL_MAX_PAYLOAD_LEN /\ Z.of_nat (length (data_of (payload m))) = mlen m /\
  (payload m = None <-> mlen m = 0).

(** [topic_len:4][topic:N][payload_len:4][payload:M][xor:4] *)
Definition frame (m : csilk_mq_msg_t) : bytes :=
  le32 (Z.of_nat (length (topic m))) ++ topic m ++ le32 (mlen m) ++ data_of (payload m)
  ++ le32 (xor_bytes (topic m ++ data_of (payload m)) 0).

Lemma xor_bytes_app a b acc : xor_bytes (a ++ b) acc = xor_bytes b (xor_bytes a acc).
Proof. apply foldl_app. Qed.

(** ** Reading a log that was cut *)

Lemma pread_length f off n : 0 <= off -> Z.of_nat (length (pread f off n)) <= Z.of_nat (length f) - off \/ length (pread f off n) = 0%nat.
Proof. intros. unfold pread. rewrite length_take, length_drop. lia. Qed.

(** A read of [a], which is what follows, succeeds or is short. *)
Lemma pread_cut pre a r m n : Z.of_nat (length a) = n ->
  ((m < length a)%nat /\ Z.of_nat (length (pread (pre ++ take m (a ++ r)) (Z.of_nat (length pre)) n)) < n) \/
  ((length a <= m)%nat /\ pread (pre ++ take m (a ++ r)) (Z.of_nat (length pre)) n = a /\
   pre ++ take m (a ++ r) = (pre ++ a) ++ take (m - length a) r).
Proof.
  intros H. unfold pread. rewrite Nat2Z.id, drop_app_length. subst n. rewrite Nat2Z.id.
  destruct (decide (m < length a)%nat); [left|right].
  - split; [done|]. rewrite !length_take, length_app. lia.
  - rewrite take_app_ge by lia. rewrite take_app_length. split; [lia|]. by rewrite (assoc_L (++)).
Qed.

Lemma offset_app (pre a : bytes) n : Z.of_nat (length a) = n -> Z.of_nat (length pre) + n = Z.of_nat (length (pre ++ a)).
Proof. intros <-. rewrite length_app. lia. Qed.

Section cut.
Context (is_closed : Z -> bool).

(** A message as the recovery enqueues it. *)
Definition replay (s : csilk_mq_t) (m : csilk_mq_msg_t) : csilk_mq_t := (_mq_enqueue is_closed s (topic m) (payload m) (mlen m)).2.

Lemma ask_answers s : answers s = [] -> ask s = (true, s).
Proof. unfold ask. by intros ->. Qed.

Lemma cut_length (F : bytes) (n : nat) (s : csilk_mq_t) (x : option csilk_mq_t) :
  (n < length F)%nat -> Some s = if (length F <=? n)%nat then x else Some s.
Proof. intros. by rewrite (proj2 (Nat.leb_gt _ _)). Qed.

(** The next read of a round: short, which ends the recovery, or complete. *)
Ltac next_read pre a r n k :=
  let B1 := fresh "B" in let B2 := fresh "B" in let B3 := fresh "B" in
  destruct (pread_cut pre a r n k ltac:(lia)) as [[B1 B2]|(B1 & B2 & B3)];
  [rewrite (proj2 (Z.ltb_lt _ _) B2); apply cut_length; lia|
   rewrite B2, B3, (proj2 (Z.ltb_ge (Z.of_nat (length a)) k)) by lia; clear B2 B3].

(** One round on a frame of which [n] bytes are left. *)
Lemma recover_frame fuel pre m r n s : loggable m -> answers s = [] ->
  recover_loop is_closed (S fuel) (pre ++ take n (frame m ++ r)) (Z.of_nat (length pre)) s =
  if (length (frame m) <=? n)%nat
  then recover_loop is_closed fuel ((pre ++ frame m) ++ take (n - length (frame m)) r) (Z.of_nat (length (pre ++ frame m))) (replay s m)
  else Some s.
Proof.
  intros (Hn & Ht & Hp & Hd & Hz) Ha. pose proof (xor_bytes_range (topic m ++ data_of (payload m)) 0 ltac:(lia)) as Hx.
  unfold MQ_WAL_MAX_TOPIC_LEN, MQ_WAL_MAX_PAYLOAD_LEN in *.
  set (F := frame m). assert (F = frame m) as HF by done. unfold frame in HF. clearbody F.
  set (D := data_of (payload m)) in *. set (K := xor_bytes (topic m ++ D) 0) in *. remember (le32 (Z.of_nat (length (topic m)))) as T eqn:ET.
  remember (le32 (mlen m)) as L eqn:EL. remember (le32 K) as X eqn:EX.
  assert (length T = 4 /\ length L = 4 /\ length X = 4)%nat as (HT & HL & HX) by by subst.
  assert (of_le32 T = Z.of_nat (length (topic m)) /\ of_le32 L = mlen m /\ of_le32 X = K) as (VT & VL & VX)
    by (subst T L X; rewrite !of_le32_le32 by lia; done).
  clear ET EL EX.
  assert (length F = 4 + length (topic m) + 4 + length D + 4)%nat as Hl by (rewrite HF, !length_app; lia).
  rewrite HF at 1. rewrite <- !(assoc_L (++)). cbn [recover_loop].
  next_read pre T (topic m ++ L ++ D ++ X ++ r) n 4.
  rewrite VT, (offset_app pre T 4) by lia. 
  rewrite (proj2 (Z.eqb_neq (Z.of_nat (length (topic m))) 0)) by lia.
  rewrite (proj2 (Z.ltb_ge MQ_WAL_MAX_TOPIC_LEN (Z.of_nat (length (topic m))))) by (unfold MQ_WAL_MAX_TOPIC_LEN; lia).
  cbn [orb]. rewrite ask_answers by done. cbn [negb].
  next_read (pre ++ T) (topic m) (L ++ D ++ X ++ r) (n - length T)%nat (Z.of_nat (length (topic m))).
  rewrite (offset_app (pre ++ T) (topic m)) by done.
  next_read ((pre ++ T) ++ topic m) L (D ++ X ++ r) (n - length T - length (topic m))%nat 4.
  rewrite VL, (offset_app _ L 4) by lia. rewrite (proj2 (Z.ltb_ge MQ_WAL_MAX_PAYLOAD_LEN (mlen m))) by (unfold MQ_WAL_MAX_PAYLOAD_LEN; lia).
  replace (if 0 <? mlen m then ask s else (true, s)) with (true, s) by (rewrite ask_answers by done; by destruct (_ <? _)).
  cbn [negb].
  destruct (pread_cut (((pre ++ T) ++ topic m) ++ L) D (X ++ r) (n - length T - length (topic m) - length L)%nat (mlen m) ltac:(lia)) as [[C1 C2]|(C1 & C2 & C3)].
  { rewrite (proj2 (Z.ltb_lt 0 _)) by lia. rewrite (proj2 (Z.ltb_lt _ _) C2). apply cut_length. lia. }
  rewrite C2, C3. replace (if 0 <? mlen m then D else []) with D
    by (destruct (Z.ltb_spec 0 (mlen m)) as [|]; [done|]; apply nil_length_inv; lia).
  rewrite (proj2 (Z.ltb_ge (Z.of_nat (length D)) _)) by lia. rewrite (offset_app _ D) by lia.
  next_read ((((pre ++ T) ++ topic m) ++ L) ++ D) X r (n - length T - length (topic m) - length L - length D)%nat 4.
  rewrite VX, (offset_app _ X 4) by lia. unfold K at 1. rewrite xor_bytes_app, Z.eqb_refl, (proj2 (Nat.leb_le _ _)) by lia.
  rewrite cstr_app by done.
  replace (if 0 <? mlen m then Some D else None) with (payload m).
  - replace (((((pre ++ T) ++ topic m) ++ L) ++ D) ++ X) with (pre ++ F) by (rewrite HF; by rewrite <- !(assoc_L (++))).
    replace (n - length T - length (topic m) - length L - length D - length X)%nat with (n - length F)%nat by lia. by rewrite <- (assoc_L (++) pre F).
  - unfold D, data_of in *. destruct (payload m) as [p|] eqn:Ep; [rewrite (proj2 (Z.ltb_lt _ _)); [done|]|by rewrite (proj1 Hz)].
    assert (mlen m <> 0) by (intros E; by apply Hz in E). lia.
Qed.

(** How many of the frames lie completely in the first [n] bytes of the log. *)
Fixpoint complete (ms : list csilk_mq_msg_t) (n : nat) : nat :=
  match ms with
  | [] => 0
  | m :: ms' => if (length (frame m) <=? n)%nat then S (complete ms' (n - length (frame m))) else 0
  end.

Definition log_of (ms : list csilk_mq_msg_t) : bytes := concat (map frame ms).

Lemma frame_length_pos m : (12 <= length (frame m))%nat.
Proof. unfold frame. rewrite !length_app, !le32_length. lia. Qed.

Lemma replay_answers s m : answers s = [] -> answers (replay s m) = [] /\ queue (replay s m) = queue s ++ [mk_msg (topic m) (copy_data (payload m) (mlen m)) (if has_data (payload m) (mlen m) then mlen m else 0)].
Proof.
  intros Ha. unfold replay, _mq_enqueue. rewrite !ask_answers by done. cbn [negb].
  replace (if has_data _ _ then (true, s) else (true, s)) with (true, s) by by destruct (has_data _ _). done.
Qed.

(** A loggable message is enqueued as it was. *)
Lemma replay_queue s m : loggable m -> answers s = [] -> queue (replay s m) = queue s ++ [m].
Proof.
  intros (_ & _ & Hp & Hd & Hz) Ha. rewrite (proj2 (replay_answers s m Ha)). destruct m as [t p l]. cbn [topic payload mlen] in *.
  unfold copy_data, has_data. destruct p as [p|]; cbn [data_of default] in *.
  - rewrite (proj2 (Z.ltb_lt _ _)) by (assert (l <> 0) by (intros E; by apply Hz in E); lia). cbn [andb option_map].
    by rewrite take_ge by (unfold data_of in Hd; cbn in Hd; lia).
  - rewrite (proj1 Hz eq_refl). by rewrite andb_false_r.
Qed.

Lemma recover_cut ms : forall pre n fuel s, Forall loggable ms -> answers s = [] -> (length (take n (log_of ms)) < fuel)%nat ->
  exists s', recover_loop is_closed fuel (pre ++ take n (log_of ms)) (Z.of_nat (length pre)) s = Some s' /\
    answers s' = [] /\ queue s' = queue s ++ take (complete ms n) ms.
Proof.
  induction ms as [|m ms IH]; intros pre n [|fuel] s Hm Ha Hf; try lia.
  - exists s. cbn [log_of map concat complete]. rewrite take_nil, !app_nil_r. split; [|done].
    cbn [recover_loop]. unfold pread. by rewrite Nat2Z.id, drop_ge.
  - apply Forall_cons in Hm as [Hm Hms]. change (log_of (m :: ms)) with (frame m ++ log_of ms) in *. rewrite recover_frame by done.
    cbn [complete]. destruct (Nat.leb_spec (length (frame m)) n) as [Hn|_]; [|exists s; by rewrite take_0, app_nil_r].
    destruct (IH (pre ++ frame m) (n - length (frame m))%nat fuel (replay s m) Hms) as (s' & E & A & Q).
    + by apply replay_answers.
    + rewrite take_app_ge, length_app in Hf by done. pose proof (frame_length_pos m). lia.
    + exists s'. rewrite E, Q, replay_queue by done. by rewrite <- (assoc_L (++)).
Qed.
End cut.

(** ** Termination of the recovery *)

Lemma recover_loop_total is_closed f : forall fuel off s, 0 <= off -> Z.of_nat (length f) - off < Z.of_nat fuel -> 0 < Z.of_nat fuel ->
  is_Some (recover_loop is_closed fuel f off s).
Proof.
  induction fuel as [|fuel IH]; intros off s Ho Hf Hp; [lia|]. cbn [recover_loop].
  destruct (Z.ltb_spec (Z.of_nat (length (pread f off 4))) 4) as [_|H4]; [by eexists|].
  destruct (pread_length f off 4 Ho) as [Hr|Hr]; [|lia].
  assert (length (pread f off 4) = 4%nat) as L4 by (unfold pread in *; rewrite length_take in *; lia).
  pose proof (of_le32_range _ L4) as R4. set (tl := of_le32 (pread f off 4)) in *. clearbody tl.
  destruct (_ || _); [by eexists|]. destruct (ask s) as [[] s1]; cbn [negb]; [|by eexists].
  destruct (_ <? tl); [by eexists|]. set (off2 := off + 4 + tl).
  destruct (Z.ltb_spec (Z.of_nat (length (pread f off2 4))) 4) as [_|H5]; [by eexists|].
  assert (length (pread f off2 4) = 4%nat) as L5 by (unfold pread in *; rewrite length_take in *; lia).
  pose proof (of_le32_range _ L5) as R5. set (pl := of_le32 (pread f off2 4)) in *. clearbody pl.
  destruct (_ <? pl); [by eexists|]. destruct (if 0 <? pl then ask s1 else _) as [[] s2]; cbn [negb]; [|by eexists].
  destruct (_ <? pl); [by eexists|]. destruct (_ <? 4); [by eexists|]. destruct (_ =? _); [|by eexists].
  apply IH; lia.
Qed.

(** C39: replaying the log terminates whatever bytes the file holds, valid or
    not, and whichever allocations fail. *)
Theorem recovery_terminates is_closed (s : csilk_mq_t) (d : disk) : is_Some (_mq_recovery is_closed s d).
Proof.
  unfold _mq_recovery. destruct (_ <? _); [by eexists|]. destruct (_mq_wal_flush s d) as [s1 d1].
  destruct (recover_loop_total is_closed (contents_fd d1 (wal_fd s1)) (S (length (contents_fd d1 (wal_fd s1)))) 0 s1) as [s2 E]; [lia..|].
  rewrite E. by eexists.
Qed.

(** ** The writer thread *)

(** What the interface asks of a caller, with the limits of the recovery. *)
Definition publishable (t : bytes) (p : option bytes) (l : Z) : Prop :=
  nul_free t /\ 0 < Z.of_nat (length t) <= MQ_WAL_MAX_TOPIC_LEN /\
  0 <= l <= MQ_WAL_MAX_PAYLOAD_LEN /\ (l = 0 \/ exists b, p = Some b /\ l <= Z.of_nat (length b)).

Definition msg_of (t : bytes) (p : option bytes) (l : Z) : csilk_mq_msg_t := mk_msg t (copy_data p l) (if has_data p l then l else 0).

Lemma msg_of_loggable t p l : publishable t p l -> loggable (msg_of t p l) /\ mlen (msg_of t p l) = l.
Proof.
  intros (H1 & H2 & H3 & H4). unfold loggable, msg_of, copy_data, has_data. cbn [topic payload mlen].
  destruct (Z.ltb_spec 0 l) as [Hl|Hl]; cbn [andb].
  - destruct H4 as [|(b & -> & Hb)]; [lia|]. unfold data_of. cbn. rewrite length_take. split; [|done].
    split_and!; first [done|lia|split; [done|lia]].
  - assert (l = 0) as -> by lia. split; [|done]. split_and!; first [done|lia|by split].
Qed.

(** The disk accepts everything, and [f] is open on [p]. *)
Definition sound (d : disk) (f : Z) (p : bytes) : Prop := writes d = [] /\ open_fds d !! f = Some p.

Lemma write_sound d f p data : sound d f p ->
  (write d f data).1 = Z.of_nat (length data) /\ sound (write d f data).2 f p /\
  contents (write d f data).2 p = contents d p ++ data /\ durable (write d f data).2 = durable d.
Proof.
  intros [H1 H2]. unfold write. rewrite H2, H1. cbn [fst snd]. unfold sound, contents. cbn [writes open_fds files durable].
  by rewrite firstn_all, lookup_insert_eq.
Qed.

Lemma write_task_frame d f p t pl l : sound d f p -> publishable t pl l ->
  let d' := write_task d (mk_task f t (copy_data pl l) l) in
  sound d' f p /\ contents d' p = contents d p ++ frame (msg_of t pl l) /\ durable d' = durable d.
Proof.
  intros Hs Hp. pose proof (msg_of_loggable t pl l Hp) as [(_ & Ht & Hl & Hd & Hz) Em]. cbn [msg_of topic payload] in *.
  unfold MQ_WAL_MAX_TOPIC_LEN, MQ_WAL_MAX_PAYLOAD_LEN in *. rewrite Em in *.
  assert (wrap32 (Z.of_nat (length t)) = Z.of_nat (length t) /\ wrap32 l = l) as [W1 W2]
    by (unfold wrap32, wrap; rewrite !Z.mod_small by lia; done).
  unfold write_task, task_checksum. cbv zeta. cbn [fd t_topic t_payload t_len]. rewrite W1, W2, Nat2Z.id, firstn_all.
  replace (take (Z.to_nat l) (data_of (copy_data pl l))) with (data_of (copy_data pl l)) by (rewrite take_ge; [done|lia]).
  rewrite <- xor_bytes_app. set (X := xor_bytes _ _).
  unfold frame. cbn [msg_of topic payload]. rewrite Em. fold X. clearbody X.
  destruct (write d f (le32 (Z.of_nat (length t)))) as [n1 d1] eqn:E1.
  destruct (write_sound d f p (le32 (Z.of_nat (length t))) Hs) as (N1 & S1 & C1 & D1). rewrite E1 in N1, S1, C1, D1. cbn [fst snd] in *.
  rewrite N1, le32_length. change (Z.of_nat 4 =? 4) with true. cbv iota.
  destruct (write_sound d1 f p t S1) as (_ & S2 & C2 & D2). set (d2 := (write d1 f t).2) in *.
  destruct (write_sound d2 f p (le32 l) S2) as (_ & S3 & C3 & D3). set (d3 := (write d2 f (le32 l)).2) in *.
  set (d4 := match copy_data pl l with Some _ => _ | None => _ end).
  assert (sound d4 f p /\ contents d4 p = contents d3 p ++ data_of (copy_data pl l) /\ durable d4 = durable d3) as (S4 & C4 & D4).
  { unfold d4. destruct (copy_data pl l) as [b|]; [|by rewrite app_nil_r].
    assert (l <> 0) by (intros E; by apply Hz in E). rewrite (proj2 (Z.ltb_lt _ _)) by lia.
    rewrite take_ge by (unfold data_of in Hd; cbn in Hd; lia). by apply write_sound. }
  clearbody d4. destruct (write_sound d4 f p (le32 X) S4) as (_ & S5 & C5 & D5).
  split_and!; [done|by rewrite C5, C4, C3, C2, C1, <- !(assoc_L (++))|congruence].
Qed.

(** ** Publishing, writing and crashing in any order *)

Inductive wop :=
| WPublish (t : bytes) (p : option bytes) (l : Z)
| WWriter
| WFlush.

Section script.
Context (is_closed : Z -> bool).

Definition run_wop (o : wop) (x : csilk_mq_t * disk) : csilk_mq_t * disk :=
  match o with
  | WPublish t p l => ((csilk_mq_publish is_closed x.1 t p l).2, x.2)
  | WWriter => mq_wal_writer_thread x.1 x.2
  | WFlush => _mq_wal_flush x.1 x.2
  end.

Definition run_wops (l : list wop) (x : csilk_mq_t * disk) : csilk_mq_t * disk := foldl (fun x o => run_wop o x) x l.

Definition wop_ok (o : wop) : Prop := match o with WPublish t p l => publishable t p l | _ => True end.

(** The messages that a script tries to publish. *)
Definition attempts (l : list wop) : list csilk_mq_msg_t :=
  omap (fun o => match o with WPublish t p n => Some (msg_of t p n) | _ => None end) l.

(** The crash keeps [n] bytes of the log and closes every descriptor. *)
Definition crash (d : disk) (path : bytes) (n : nat) : disk :=
  mk_disk (<[path := take n (contents d path)]> (files d)) ∅ (durable d) [].

(** The messages a new process has after it enabled persistence on the log. *)
Definition restart (d : disk) (path : bytes) (f : Z) : option (list csilk_mq_msg_t) :=
  '(_, s, _) ← csilk_mq_set_persistence is_closed (_csilk_mq_new [] []) d (Some path) f; Some (queue s).

(** A task of the queue and the message it logs. *)
Definition task_for (f : Z) (t : mq_wal_task_t) (m : csilk_mq_msg_t) : Prop :=
  exists tp pl l, publishable tp pl l /\ t = mk_task f tp (copy_data pl l) l /\ m = msg_of tp pl l.

Record winv (f : Z) (path : bytes) (written pending : list csilk_mq_msg_t) (x : csilk_mq_t * disk) : Prop := {
  w_fd : wal_fd x.1 = f /\ 0 <= f;
  w_sound : sound x.2 f path;
  w_file : contents x.2 path = log_of written;
  w_durable : default 0%nat (durable x.2 !! path) = length (log_of written);
  w_queue : Forall2 (task_for f) (wal_queue x.1) pending;
  w_written : Forall loggable written;
  w_pubs : pubs (log x.1) `sublist_of` written ++ pending;
}.

Lemma log_of_app a b : log_of (a ++ b) = log_of a ++ log_of b.
Proof. unfold log_of. by rewrite map_app, concat_app. Qed.

Lemma task_for_loggable f ts ms : Forall2 (task_for f) ts ms -> Forall loggable ms.
Proof. induction 1 as [|t m ts ms (tp & pl & l & Hp & -> & ->)]; constructor; [by apply msg_of_loggable|done]. Qed.

Lemma write_batch_frames f p ts ms : Forall2 (task_for f) ts ms -> forall d last, sound d f p ->
  let r := write_batch d ts last in
  sound r.1 f p /\ contents r.1 p = contents d p ++ log_of ms /\ durable r.1 = durable d /\ r.2 = (if ts is [] then last else f).
Proof.
  induction 1 as [|t m ts ms (tp & pl & l & Hp & -> & ->) H IH]; intros d last Hs; cbv zeta.
  - cbn [write_batch fst snd]. by rewrite app_nil_r.
  - cbn [write_batch]. destruct (write_task_frame d f p tp pl l Hs Hp) as (S1 & C1 & D1).
    destruct (IH (write_task d (mk_task f tp (copy_data pl l) l)) f S1) as (S2 & C2 & D2 & L2). cbn [fd]. split_and!; [done| |congruence|].
    + rewrite C2, C1. change (log_of (msg_of tp pl l :: ms)) with (frame (msg_of tp pl l) ++ log_of ms). by rewrite (assoc_L (++)).
    + rewrite L2. by destruct ts.
Qed.

Lemma writer_winv f path w q x : winv f path w q x -> winv f path (w ++ q) [] (mq_wal_writer_thread x.1 x.2).
Proof.
  intros [[H1 H1'] H2 H3 H4 H5 H6 H7]. unfold mq_wal_writer_thread.
  destruct (write_batch_frames f path _ _ H5 x.2 (-1) H2) as (S & C & D & L). destruct (write_batch x.2 (wal_queue x.1) (-1)) as [d last].
  cbn [fst snd] in *. subst last. inversion H5 as [E1 E2|t m ts ms Ht Hts E1 E2]; subst q; rewrite <- ?E1 in *; cbv iota.
  - change (0 <=? -1) with false. rewrite app_nil_r in *. cbv iota. constructor; cbn [fst snd]; try done; [by rewrite C, H3|by rewrite D|].
    by rewrite app_nil_r.
  - rewrite (proj2 (Z.leb_le _ _)) by done. destruct S as [S1 S2].
    assert (contents (fdatasync d f) path = log_of (w ++ m :: ms)) as E by (unfold fdatasync; rewrite S2, log_of_app, <- H3, <- C; done).
    constructor; cbn [fst snd set_wal wal_fd wal_queue log]; try done.
    + unfold sound, fdatasync. rewrite S2. done.
    + rewrite <- E. unfold fdatasync. rewrite S2. cbn [durable]. by rewrite lookup_insert_eq.
    + apply Forall_app. split; [done|]. apply (task_for_loggable f (t :: ts)). by constructor.
    + by rewrite app_nil_r.
Qed.

Lemma flush_winv f path w q x : winv f path w q x -> winv f path (w ++ q) [] (_mq_wal_flush x.1 x.2).
Proof.
  intros H. unfold _mq_wal_flush. destruct (wal_queue x.1) as [|t ts] eqn:E; [|by apply writer_winv].
  pose proof (w_queue _ _ _ _ _ H) as Hq. rewrite E in Hq. inversion Hq; subst q. rewrite app_nil_r. by destruct x.
Qed.

Lemma ask_frame s b s' : ask s = (b, s') -> wal_fd s' = wal_fd s /\ wal_queue s' = wal_queue s /\ log s' = log s.
Proof. unfold ask. destruct (answers s); intros [= <- <-]; done. Qed.

Lemma ask_if_frame (c : bool) s b s' : (if c then ask s else (true, s)) = (b, s') -> wal_fd s' = wal_fd s /\ wal_queue s' = wal_queue s /\ log s' = log s.
Proof. destruct c; [apply ask_frame|]. by intros [= <- <-]. Qed.

(** The answers that are consumed leave the rest alone. *)
Ltac asked := repeat match goal with
  | H : ask _ = _ |- _ => apply ask_frame in H as (? & ? & ?)
  | H : (if _ then ask _ else _) = _ |- _ => apply ask_if_frame in H as (? & ? & ?)
  end.

Lemma append_wal_task s t p l : 0 <= wal_fd s ->
  wal_fd (_mq_append_wal s t p l).2 = wal_fd s /\ log (_mq_append_wal s t p l).2 = log s /\
  ((_mq_append_wal s t p l).1 = -1 /\ wal_queue (_mq_append_wal s t p l).2 = wal_queue s \/
   (_mq_append_wal s t p l).1 = 0 /\ wal_queue (_mq_append_wal s t p l).2 = wal_queue s ++ [mk_task (wal_fd s) t (copy_data p l) l]).
Proof.
  intros H. unfold _mq_append_wal. rewrite (proj2 (Z.ltb_ge _ _)) by done.
  destruct (ask s) as [[] s1] eqn:E1; cbn [negb fst snd]; asked; [|by split_and!; [..|left]].
  destruct (ask s1) as [[] s2] eqn:E2; cbn [negb fst snd]; asked; [|by split_and!; [congruence..|left; split; [|congruence]]].
  destruct (if has_data p l then ask s2 else _) as [[] s3] eqn:E3; cbn [negb fst snd set_wal wal_fd wal_queue log]; asked.
  - split_and!; [congruence..|right; split; [done|congruence]].
  - split_and!; [congruence..|left; split; [done|congruence]].
Qed.

Lemma enqueue_pubs s t p l :
  wal_fd (_mq_enqueue is_closed s t p l).2 = wal_fd s /\ wal_queue (_mq_enqueue is_closed s t p l).2 = wal_queue s /\
  (pubs (log (_mq_enqueue is_closed s t p l).2) = pubs (log s) \/ pubs (log (_mq_enqueue is_closed s t p l).2) = pubs (log s) ++ [msg_of t p l]).
Proof.
  unfold _mq_enqueue.
  destruct (ask s) as [[] s1] eqn:E1; cbn [negb fst snd]; asked; [|by split_and!; [congruence..|left; congruence]].
  destruct (ask s1) as [[] s2] eqn:E2; cbn [negb fst snd]; asked; [|by split_and!; [congruence..|left; congruence]].
  destruct (if has_data p l then ask s2 else _) as [[] s3] eqn:E3; cbn [negb fst snd]; asked; [|by split_and!; [congruence..|left; congruence]].
  unfold _mq_broadcast. cbn [note set_monitors set_queue wal_fd wal_queue log monitors]. split_and!; [congruence..|right].
  unfold pubs. rewrite !omap_app. cbn. replace (omap _ (map _ _)) with (@nil csilk_mq_msg_t) by (by induction (List.filter _ _)).
  rewrite app_nil_r. by replace (log s3) with (log s) by congruence.
Qed.

Lemma publish_winv f path w q x t p l : winv f path w q x -> publishable t p l ->
  exists q', (q' = q \/ q' = q ++ [msg_of t p l]) /\ winv f path w q' ((csilk_mq_publish is_closed x.1 t p l).2, x.2).
Proof.
  intros [[H1 H1'] H2 H3 H4 H5 H6 H7] Hp. unfold csilk_mq_publish. rewrite (proj2 (Z.leb_le 0 _)) by lia.
  destruct (append_wal_task x.1 t p l ltac:(lia)) as (F & G & [[R Q]|[R Q]]); destruct (_mq_append_wal x.1 t p l) as [rc s1]; cbn [fst snd] in *; subst rc.
  - exists q. split; [by left|]. change (negb (-1 =? 0)) with true. cbn [snd]. constructor; cbn [fst snd]; try done; [by rewrite F|by rewrite Q|by rewrite G].
  - exists (q ++ [msg_of t p l]). split; [by right|]. change (negb (0 =? 0)) with false. cbv iota. destruct (enqueue_pubs s1 t p l) as (F' & Q' & P').
    constructor; cbn [fst snd]; try done; [by rewrite F', F| |].
    + rewrite Q', Q. apply Forall2_app; [done|]. constructor; [|done]. exists t, p, l. by rewrite H1.
    + rewrite (assoc_L (++)). rewrite G in P'. destruct P' as [->| ->]; [by apply sublist_inserts_r|by apply sublist_app].
Qed.

Lemma run_wops_winv f path l : forall w q x, winv f path w q x -> Forall wop_ok l ->
  exists w' q', winv f path w' q' (run_wops l x) /\ exists new, w' ++ q' = (w ++ q) ++ new /\ new `sublist_of` attempts l.
Proof.
  induction l as [|o l IH]; intros w q x H Hl; [exists w, q; split; [done|]; exists []; by rewrite app_nil_r|]. apply Forall_cons in Hl as [Ho Hl]. cbn [run_wops foldl].
  destruct o as [t p n| |]; cbn [run_wop].
  - destruct (publish_winv f path w q x t p n H Ho) as (q' & Hq & H'). destruct (IH w q' _ H' Hl) as (w2 & q2 & H2 & new & E & Hs). exists w2, q2. split; [done|].
    change (attempts (WPublish t p n :: l)) with (msg_of t p n :: attempts l). destruct Hq as [-> | ->]; [exists new; split; [done|by constructor]|].
    exists (msg_of t p n :: new). split; [by rewrite E, <- !(assoc_L (++))|by constructor].
  - destruct (IH _ _ _ (writer_winv f path w q x H) Hl) as (w2 & q2 & H2 & new & E & Hs). exists w2, q2. split; [done|]. exists new. by rewrite E, app_nil_r.
  - destruct (IH _ _ _ (flush_winv f path w q x H) Hl) as (w2 & q2 & H2 & new & E & Hs). exists w2, q2. split; [done|]. exists new. by rewrite E, app_nil_r.
Qed.

(** Enabling persistence in a new process. *)
Lemma persistence_new d path f a na : 0 <= f ->
  csilk_mq_set_persistence is_closed (_csilk_mq_new a na) d (Some path) f =
  (s ← recover_loop is_closed (S (length (contents d path))) (contents d path) 0 (set_wal (_csilk_mq_new a na) f []);
   Some (0, s, fs_open d path f)).
Proof.
  intros Hf. unfold csilk_mq_set_persistence, _mq_recovery, _mq_wal_flush. cbn [_csilk_mq_new set_wal wal_queue wal_fd].
  change (0 <=? -1) with false. cbv iota. rewrite !(proj2 (Z.ltb_ge _ _)) by done.
  assert (contents_fd (fs_open d path f) f = contents d path) as E.
  { unfold contents_fd, fs_open. cbn [open_fds]. rewrite lookup_insert_eq. cbn. unfold contents. cbn [files]. by rewrite lookup_insert_eq. }
  change (wal_queue (_csilk_mq_new a na)) with (@nil mq_wal_task_t). cbv iota beta.
  change (wal_fd (set_wal (_csilk_mq_new a na) f [])) with f. rewrite E. by destruct (recover_loop _ _ _ _ _).
Qed.

Lemma crash_contents d path n : contents (crash d path n) path = take n (contents d path).
Proof. unfold crash. unfold contents at 1. cbn [files]. by rewrite lookup_insert_eq. Qed.

Lemma restart_cut ms d path n f : 0 <= f -> Forall loggable ms -> contents d path = log_of ms ->
  restart (crash d path n) path f = Some (take (complete ms n) ms).
Proof.
  intros Hf Hm Hc. unfold restart. rewrite persistence_new by done. rewrite crash_contents, Hc.
  destruct (recover_cut is_closed ms [] n (S (length (take n (log_of ms)))) (set_wal (_csilk_mq_new [] []) f []) Hm eq_refl ltac:(lia)) as (s' & E & _ & Q).
  change (Z.of_nat (length (@nil ascii))) with 0 in E. cbn [app] in E. rewrite E. cbn. by rewrite Q.
Qed.

Lemma complete_all ms : forall n, (length (log_of ms) <= n)%nat -> complete ms n = length ms.
Proof.
  induction ms as [|m ms IH]; intros n H; [done|]. change (log_of (m :: ms)) with (frame m ++ log_of ms) in H. rewrite length_app in H.
  cbn [complete length]. rewrite (proj2 (Nat.leb_le _ _)) by lia. f_equal. apply IH. lia.
Qed.

Lemma new_winv d path f a na : 0 <= f -> writes d = [] -> contents d path = [] -> durable d !! path = None ->
  exists s, csilk_mq_set_persistence is_closed (_csilk_mq_new a na) d (Some path) f = Some (0, s, fs_open d path f) /\
    winv f path [] [] (s, fs_open d path f).
Proof.
  intros Hf Hw Hc Hd. rewrite persistence_new, Hc by done. exists (set_wal (_csilk_mq_new a na) f []). split; [done|].
  constructor; cbn [fst snd]; try done.
  - split; [done|]. cbn [fs_open open_fds]. by rewrite lookup_insert_eq.
  - unfold contents, fs_open. cbn [files]. rewrite lookup_insert_eq. done.
  - cbn [fs_open durable]. by rewrite Hd.
Qed.
End script.


Definition demo_disk : disk := mk_disk ∅ ∅ ∅ [].
Definition demo_path : bytes := lit "q.wal".
Definition demo_wops : list wop :=
  [WPublish (lit "a") (Some (lit "xy")) 2; WWriter; WPublish (lit "b") None 0; WPublish (lit "c") (Some (lit "z")) 1].

Lemma demo_wops_ok : Forall wop_ok demo_wops.
Proof.
  assert (forall c, c <> NUL -> nul_free [c]) as N by (intros c H; apply nul_free_cons; split; [done|apply not_elem_of_nil]).
  unfold demo_wops. repeat (apply Forall_cons; split); try apply Forall_nil; try exact I;
    (split_and!; [by apply N|cbn; lia|cbn; unfold MQ_WAL_MAX_TOPIC_LEN; lia|lia|unfold MQ_WAL_MAX_PAYLOAD_LEN; lia|]).
  - right. exists (lit "xy"). by split.
  - by left.
  - right. exists (lit "z"). by split.
Qed.


(** ** Where the log does not keep its promise *)

(** A session on the log: enable persistence, run, and leave the disk. *)
Definition session (d : disk) (ops : list wop) : option disk :=
  '(_, s, d) ← csilk_mq_set_persistence (fun _ => false) (_csilk_mq_new [] []) d (Some demo_path) 3;
  let x := run_wops (fun _ => false) ops (s, d) in Some (on_mq_close x.1 x.2).

(** The log is not truncated where the recovery stopped: after a crash in the
    middle of a frame, what the next process logs and flushes is lost. *)
Example torn_tail_hides_later_messages :
  (d ← session demo_disk [WPublish (lit "a") (Some (lit "xy")) 2];
   d ← session (crash d demo_path 9) [WPublish (lit "b") None 0; WFlush];
   Some (durable d !! demo_path, restart (fun _ => false) (crash d demo_path 100) demo_path 3)) = Some (Some 22%nat, Some []).
Proof. by vm_compute. Qed.

(** An empty topic is published, and ends every later recovery. *)
Example empty_topic_ends_recovery :
  (d ← session demo_disk [WPublish [] None 0; WPublish (lit "b") None 0];
   restart (fun _ => false) (crash d demo_path 100) demo_path 3) = Some [].
Proof. by vm_compute. Qed.

(** A short write is ignored, and what follows it is lost. *)
Example short_write_ends_recovery :
  (d ← session (mk_disk ∅ ∅ ∅ [4%nat; 1%nat; 4%nat; 1%nat]) [WPublish (lit "a") (Some (lit "xy")) 2; WPublish (lit "b") None 0];
   restart (fun _ => false) (crash d demo_path 100) demo_path 3) = Some [].
Proof. by vm_compute. Qed.

(** Two queues share the batch of the writer thread: only the last descriptor
    is synced, so a flush returns before the first queue's log is durable. *)
Example batch_syncs_last_file_only :
  let d := fs_open (fs_open demo_disk (lit "p") 3) (lit "q") 4 in
  let s := set_wal (_csilk_mq_new [] []) 3 [mk_task 3 (lit "a") None 0; mk_task 4 (lit "b") None 0] in
  let d' := (_mq_wal_flush s d).2 in
  (length (contents d' (lit "p")), durable d' !! lit "p", durable d' !! lit "q") = (13%nat, None, Some 13%nat).
Proof. by vm_compute. Qed.

(** Delivery leaves the log as it is: a delivered message is queued again. *)
Example delivered_messages_return :
  (d ← session demo_disk [WPublish (lit "a") None 0];
   '(_, s, d) ← csilk_mq_set_persistence (fun _ => false) (_csilk_mq_new [] []) d (Some demo_path) 3;
   s ← on_mq_async (fun _ _ => false) (fun _ => false) (fun _ _ => []) s;
   r ← restart (fun _ => false) (crash (on_mq_close s d) demo_path 100) demo_path 3;
   Some (dels (log s), r)) = Some ([mk_msg (lit "a") None 0], [mk_msg (lit "a") None 0]).
Proof. by vm_compute. Qed.
