(* ===== verification/Connection.v ===== *)
(** * Connections: states, references, closing and recycling

    Models src/src/core/server/connection_state.c, connection_close.c, the
    client pool of connection_pool.c, connection_timer.c, timer_lifetime.c, the
    accept path of connection_io.c, and the writes of src/src/core/http/http1_write.c
    that keep a connection alive, for one worker, with libuv.

    A client is an object of the heap; a freed one is absent, and touching it is
    undefined behaviour ([None]).  Whatever will happen to a client later is a
    token: a reference the application holds, a write in flight, a timer or
    handle whose close callback is due, a task in the dispatch queue.  Tokens
    are consumed in any order, which includes the order of the loop and of the
    queue.  Of the event loop the model uses what its interface documents: a
    close callback runs once, [is_closing] holds from the request to close on;
    closing a handle that was never initialised, or initialising one that was
    not closed, is an error.  Allocations consume
    answers of an oracle (exhausted: success).  An operation of another thread is
    one step.  Hooks, the request context, arenas and TLS records are not
    part of this model. *)

From stdpp Require Import gmap.
From S2P Require Import Prelude.

#[local] Open Scope Z_scope.

(** ** The state machine *)

Definition CSILK_CONN_INIT : Z := 0.
Definition CSILK_CONN_ACCEPTED : Z := 1.
Definition CSILK_CONN_TLS : Z := 2.
Definition CSILK_CONN_READING : Z := 3.
Definition CSILK_CONN_PROCESSING : Z := 4.
Definition CSILK_CONN_WRITING : Z := 5.
Definition CSILK_CONN_STREAMING : Z := 6.
Definition CSILK_CONN_CLOSING : Z := 7.
Definition CSILK_CONN_CLOSED : Z := 8.
Definition CSILK_CONN_STATE_COUNT : Z := 9.

Definition allowed_transitions : list (list bool) :=
  [ (* INIT *)       [true;  true;  false; false; false; false; false; true;  true];
    (* ACCEPTED *)   [false; true;  true;  true;  false; false; false; true;  true];
    (* TLS *)        [false; false; true;  true;  false; false; false; true;  true];
    (* READING *)    [false; false; false; true;  true;  false; true;  true;  true];
    (* PROCESSING *) [false; false; false; false; true;  true;  true;  true;  true];
    (* WRITING *)    [false; false; false; true;  false; true;  true;  true;  true];
    (* STREAMING *)  [false; false; false; true;  false; true;  true;  true;  true];
    (* CLOSING *)    [false; false; false; false; false; false; false; true;  true];
    (* CLOSED *)     [true;  false; false; false; false; false; false; false; true] ].

Definition csilk_conn_is_valid_transition (from to : Z) : bool :=
  if (from <? 0) || (CSILK_CONN_STATE_COUNT <=? from) || (to <? 0) || (CSILK_CONN_STATE_COUNT <=? to) then false
  else nth (Z.to_nat to) (nth (Z.to_nat from) allowed_transitions []) false.

(** The state field after [csilk_conn_set_state]. *)
Definition csilk_conn_set_state (old_state new_state : Z) : Z :=
  if old_state =? new_state then old_state
  else if negb (csilk_conn_is_valid_transition old_state new_state) then old_state
  else new_state.

(** [None]: no client. *)
Definition csilk_conn_get_state (client : option Z) : Z := default CSILK_CONN_CLOSED client.

Definition csilk_conn_state_str (state : Z) : bytes :=
  match state with
  | 0 => lit "INIT" | 1 => lit "ACCEPTED" | 2 => lit "TLS" | 3 => lit "READING" | 4 => lit "PROCESSING"
  | 5 => lit "WRITING" | 6 => lit "STREAMING" | 7 => lit "CLOSING" | 8 => lit "CLOSED" | _ => lit "UNKNOWN"
  end.

(** The rules of the life cycle as the comment of the table lists them. *)
Inductive lifecycle : Z -> Z -> Prop :=
| L_self s : 0 <= s <= 8 -> lifecycle s s
| L_init t : t ∈ [1; 7; 8] -> lifecycle 0 t
| L_accepted t : t ∈ [2; 3; 7; 8] -> lifecycle 1 t
| L_tls t : t ∈ [3; 7; 8] -> lifecycle 2 t
| L_reading t : t ∈ [4; 6; 7; 8] -> lifecycle 3 t
| L_processing t : t ∈ [5; 6; 7; 8] -> lifecycle 4 t
| L_writing t : t ∈ [3; 6; 7; 8] -> lifecycle 5 t
| L_streaming t : t ∈ [3; 5; 7; 8] -> lifecycle 6 t
| L_closing : lifecycle 7 8
| L_closed : lifecycle 8 0.

(** ** Clients and the worker *)

(** A handle of the event loop: never initialised, initialised, or closing. *)
Inductive handle_t := HZero | HInit | HClosing.
#[global] Instance handle_eq_dec : EqDecision handle_t.
Proof. solve_decision. Defined.

(** Initialising a handle the loop still has is an error. *)
Definition init_handle (h : handle_t) : option handle_t := match h with HInit => None | _ => Some HInit end.
Definition is_closing (h : handle_t) : bool := bool_decide (h = HClosing).

Record csilk_client_t := mk_client {
  generation : Z;
  state : Z;
  ref_count : Z;
  pending_io : Z;
  primary_write_in_flight : bool;
  owner_pool : bool;
  handle : handle_t;
  timers : list handle_t;
}.

(** What is still to happen. [U]: a reference held by the application. *)
Inductive token :=
| U (id : nat)
| Write (id : nat) (inline : bool)
| TimerClosed (id : nat)
| HandleClosed (id : nat)
| CloseTask (id : nat) (gen : Z)
| RecycleTask (id : nat) (gen : Z).

Record world := mk_world {
  heap : gmap nat csilk_client_t;
  fresh : nat;
  client_pool : list nat;
  active_clients : list nat;
  wp_active : Z;
  srv_active : Z;
  max_connections : Z;
  tokens : list token;
  answers : list bool;
}.

Definition CSILK_CLIENT_POOL_SIZE : Z := 32.

Definition set_heap w h := mk_world h (fresh w) (client_pool w) (active_clients w) (wp_active w) (srv_active w) (max_connections w) (tokens w) (answers w).
Definition set_tokens w t := mk_world (heap w) (fresh w) (client_pool w) (active_clients w) (wp_active w) (srv_active w) (max_connections w) t (answers w).
Definition set_active w l := mk_world (heap w) (fresh w) (client_pool w) l (wp_active w) (srv_active w) (max_connections w) (tokens w) (answers w).
Definition set_counts w wp srv := mk_world (heap w) (fresh w) (client_pool w) (active_clients w) wp srv (max_connections w) (tokens w) (answers w).
Definition set_pool w p := mk_world (heap w) (fresh w) p (active_clients w) (wp_active w) (srv_active w) (max_connections w) (tokens w) (answers w).
Definition set_answers w a := mk_world (heap w) (fresh w) (client_pool w) (active_clients w) (wp_active w) (srv_active w) (max_connections w) (tokens w) a.

Definition put (w : world) (id : nat) (c : csilk_client_t) : world := set_heap w (<[id := c]> (heap w)).
Definition add_token (w : world) (t : token) : world := set_tokens w (tokens w ++ [t]).
Definition malloc_ok (w : world) : bool * world := match answers w with [] => (true, w) | a :: l => (a, set_answers w l) end.

Definition with_state c s := mk_client (generation c) s (ref_count c) (pending_io c) (primary_write_in_flight c) (owner_pool c) (handle c) (timers c).
Definition with_refs c r := mk_client (generation c) (state c) r (pending_io c) (primary_write_in_flight c) (owner_pool c) (handle c) (timers c).
Definition with_pending c p := mk_client (generation c) (state c) (ref_count c) p (primary_write_in_flight c) (owner_pool c) (handle c) (timers c).
Definition with_primary c b := mk_client (generation c) (state c) (ref_count c) (pending_io c) b (owner_pool c) (handle c) (timers c).
Definition with_handle c b := mk_client (generation c) (state c) (ref_count c) (pending_io c) (primary_write_in_flight c) (owner_pool c) b (timers c).
Definition with_timers c t := mk_client (generation c) (state c) (ref_count c) (pending_io c) (primary_write_in_flight c) (owner_pool c) (handle c) t.

(** ** The active list *)

Definition client_list_add (w : world) (id : nat) : world := set_active w (id :: active_clients w).
Definition client_list_remove (w : world) (id : nat) : world := set_active w (List.filter (fun j => negb (j =? id)%nat) (active_clients w)).

(** ** The pool *)

Definition pool_get (w : world) : option (option nat * world) :=
  let pop := match client_pool w with
             | id :: p => c ← heap w !! id; Some (Some (id, c), set_pool w p)
             | [] => let '(ok, w) := malloc_ok w in
                 Some (if ok then Some (fresh w, mk_client 0 0 0 0 false false HZero [HZero; HZero; HZero; HZero]) else None, w)
             end in
  '(r, w) ← pop;
  match r with
  | None => Some (None, w)
  | Some (id, c) =>
      let gen := wrap64 (generation c + 1) in
      let gen := if gen =? 0 then 1 else gen in
      let c := mk_client gen (csilk_conn_set_state (state c) CSILK_CONN_INIT) 0 0 false (owner_pool c) (handle c) (timers c) in
      let w := put w id c in
      Some (Some id, mk_world (heap w) (Nat.max (fresh w) (S id)) (client_pool w) (active_clients w) (wp_active w + 1) (srv_active w)
                       (max_connections w) (tokens w) (answers w))
  end.

Definition reset_hot_state (c : csilk_client_t) : csilk_client_t :=
  mk_client (generation c) (csilk_conn_set_state (state c) CSILK_CONN_INIT) 0 0 false false (handle c) (timers c).

(** Called on the owning thread, with the pool the client belongs to. *)
Definition pool_put (w : world) (id : nat) : option world :=
  c ← heap w !! id;
  let w := set_counts w (wp_active w - 1) (srv_active w) in
  let w := put w id (reset_hot_state c) in
  if Z.of_nat (length (client_pool w)) <? CSILK_CLIENT_POOL_SIZE then Some (set_pool w (id :: client_pool w))
  else Some (set_heap w (delete id (heap w))).

(** ** References *)

Definition client_destroy (w : world) (id : nat) : option world :=
  c ← heap w !! id;
  if state c =? CSILK_CONN_CLOSING then
    let w := put w id (with_state c CSILK_CONN_CLOSED) in
    pool_put (set_counts w (wp_active w) (srv_active w - 1)) id
  else Some w.

(** [me]: the calling thread runs the loop of the worker. *)
Definition is_owner (me : bool) (c : csilk_client_t) : bool := me && owner_pool c.

Definition _csilk_client_check_recycle (w : world) (me : bool) (id : nat) : option world :=
  c ← heap w !! id;
  if is_owner me c then
    if negb (state c =? CSILK_CONN_CLOSING) && negb (state c =? CSILK_CONN_CLOSED) then Some w else
    if (ref_count c <=? 0) && (pending_io c <=? 0) then client_destroy w id else Some w
  else if owner_pool c then
    let '(ok, w) := malloc_ok w in
    if negb ok then Some w else
    let '(ok, w) := malloc_ok w in
    if negb ok then Some w else
    Some (add_token w (RecycleTask id (generation c)))
  else Some w.

Definition csilk_client_ref (w : world) (id : nat) : option world :=
  c ← heap w !! id; Some (put w id (with_refs c (ref_count c + 1))).

Definition csilk_client_unref (w : world) (me : bool) (id : nat) : option world :=
  c ← heap w !! id;
  let prev := ref_count c in
  if prev <=? 0 then Some (put w id (with_refs c 0)) else
  let w := put w id (with_refs c (prev - 1)) in
  if prev - 1 =? 0 then _csilk_client_check_recycle w me id else Some w.

Definition _csilk_client_pending_io_inc (w : world) (id : nat) : option world :=
  c ← heap w !! id; Some (put w id (with_pending c (pending_io c + 1))).

Definition _csilk_client_pending_io_dec (w : world) (me : bool) (id : nat) : option world :=
  c ← heap w !! id;
  let prev := pending_io c in
  if prev <=? 0 then Some (put w id (with_pending c 0)) else
  let w := put w id (with_pending c (prev - 1)) in
  if prev - 1 =? 0 then _csilk_client_check_recycle w me id else Some w.

Definition _csilk_client_recycle_dispatch_cb (w : world) (id : nat) (gen : Z) : option world :=
  c ← heap w !! id;
  if (generation c =? gen) && (state c =? CSILK_CONN_CLOSING) then
    if (ref_count c <=? 0) && (pending_io c <=? 0) then client_destroy w id else Some w
  else Some w.

(** ** Closing *)

(** The loop over the four timers, from the [i]-th on. *)
Fixpoint close_timers (w : world) (id : nat) (n i : nat) : option world :=
  match n with
  | O => Some w
  | S n' =>
      c ← heap w !! id;
      t ← timers c !! i;
      w ← match t with
          | HClosing => Some w
          | HZero => None
          | HInit =>
              w ← _csilk_client_pending_io_inc w id;
              c ← heap w !! id;
              Some (add_token (put w id (with_timers c (<[i := HClosing]> (timers c)))) (TimerClosed id))
          end;
      close_timers w id n' (S i)
  end.

Definition _csilk_client_stop_timers (w : world) (id : nat) : option world := close_timers w id 4 0.

(** A task that runs [_csilk_on_close_owner] keeps a reference. *)
Definition _csilk_dispatch_try (w : world) (id : nat) (gen : Z) : option (bool * world) :=
  c ← heap w !! id;
  if negb (owner_pool c) then Some (false, w) else
  let '(ok, w) := malloc_ok w in
  if negb ok then Some (false, w) else
  w ← csilk_client_ref w id;
  Some (true, add_token w (CloseTask id gen)).

Definition on_close (w : world) (me : bool) (id : nat) : option world :=
  c ← heap w !! id;
  if (state c =? CSILK_CONN_CLOSING) || (state c =? CSILK_CONN_CLOSED) then Some w else
  if negb (is_owner me c) then
    let '(ok, w) := malloc_ok w in
    if negb ok then Some w else
    '(_, w) ← _csilk_dispatch_try w id (generation c);
    Some w
  else
    let w := put w id (with_state c (csilk_conn_set_state (state c) CSILK_CONN_CLOSING)) in
    let w := client_list_remove w id in
    w ← _csilk_client_stop_timers w id;
    csilk_client_unref w me id.

Definition _csilk_on_close_owner (w : world) (id : nat) (gen : Z) : option world :=
  c ← heap w !! id;
  if negb (generation c =? gen) || (state c =? CSILK_CONN_CLOSED) then Some w else on_close w true id.

(** [csilk_io_close(&client->handle, on_close)] unless it is closing, the way
    every time-out and read error ends a connection. *)
Definition close_handle (w : world) (id : nat) : option world :=
  c ← heap w !! id;
  if is_closing (handle c) then Some w
  else Some (add_token (put w id (with_handle c HClosing)) (HandleClosed id)).

Definition on_timer_close (w : world) (id : nat) : option world := _csilk_client_pending_io_dec w true id.

(** ** Accepting *)

Definition _csilk_server_try_acquire_connection (w : world) : bool * world :=
  if (0 <? max_connections w) && (max_connections w <=? srv_active w) then (false, w)
  else (true, set_counts w (wp_active w) (srv_active w + 1)).

Definition _csilk_server_release_connection (w : world) : world := set_counts w (wp_active w) (srv_active w - 1).

(** [tcp_init], [accept], [read_start]: whether the call succeeds; [tls]:
    whether TLS is configured, and if its set-up succeeds. *)
Definition on_new_connection (w : world) (tcp_init accept : bool) (tls : option bool) (read_start : bool) : option world :=
  let '(ok, w) := _csilk_server_try_acquire_connection w in
  if negb ok then Some w else
  '(r, w) ← pool_get w;
  match r with
  | None => Some (_csilk_server_release_connection w)
  | Some id =>
      c ← heap w !! id;
      let w := put w id (mk_client (generation c) (state c) (ref_count c) (pending_io c) (primary_write_in_flight c) true (handle c) (timers c)) in
      if negb tcp_init then pool_put (_csilk_server_release_connection w) id else
      c ← heap w !! id;
      h ← init_handle (handle c);
      let w := put w id (with_handle c h) in
      let w := client_list_add w id in
      if accept then
        c ← heap w !! id;
        let w := put w id (with_state c (csilk_conn_set_state (state c) CSILK_CONN_ACCEPTED)) in
        w ← csilk_client_ref w id;
        c ← heap w !! id;
        let w := match tls with Some _ => put w id (with_state c (csilk_conn_set_state (state c) CSILK_CONN_TLS)) | None => w end in
        match tls with
        | Some false => c ← heap w !! id; Some (add_token (put w id (with_handle c HClosing)) (HandleClosed id))
        | _ =>
            c ← heap w !! id;
            ts ← mapM init_handle (timers c);
            let w := put w id (with_timers c ts) in
            c ← heap w !! id;
            let w := match tls with None => put w id (with_state c (csilk_conn_set_state (state c) CSILK_CONN_READING)) | Some _ => w end in
            if read_start then Some w else close_handle w id
        end
      else
        let w := client_list_remove w id in
        pool_put (_csilk_server_release_connection w) id
  end.

(** ** Writing *)

(** A plain write of the owning thread; [sent]: the loop accepts the request. *)
Definition csilk_client_write (w : world) (id : nat) (sent : bool) : option world :=
  c ← heap w !! id;
  if (state c =? CSILK_CONN_CLOSING) || (state c =? CSILK_CONN_CLOSED) then Some w else
  let inline := negb (primary_write_in_flight c) in
  let '(ok, w) := if inline then (true, put w id (with_primary c true)) else malloc_ok w in
  if negb ok then Some w else
  let '(ok, w) := malloc_ok w in
  let undo w := if inline then c ← heap w !! id; Some (put w id (with_primary c false)) else Some w in
  if negb ok then undo w else
  w ← csilk_client_ref w id;
  w ← _csilk_client_pending_io_inc w id;
  if sent : bool then Some (add_token w (Write id inline)) else
  w ← _csilk_client_pending_io_dec w true id;
  w ← csilk_client_unref w true id;
  undo w.

(** No file is attached to the response. *)
Definition on_write (w : world) (id : nat) (inline : bool) : option world :=
  c ← heap w !! id;
  let w := if inline then put w id (with_primary c false) else w in
  w ← _csilk_client_pending_io_dec w true id;
  csilk_client_unref w true id.

(** ** Runs *)

Inductive op :=
| OAccept (tcp_init accept : bool) (tls : option bool) (read_start : bool)
| OState (id : nat) (s : Z)
| ORef (id : nat)
| OWrite (id : nat) (sent : bool)
| OClose (id : nat)
| ORun (i : nat) (me : bool).

(** The application releases its reference, from any thread; the other tokens
    are callbacks and tasks. The close callback may run on another thread. *)
Definition run_token (w : world) (t : token) (me : bool) : option world :=
  match t with
  | U id => csilk_client_unref w me id
  | Write id inline => on_write w id inline
  | TimerClosed id => on_timer_close w id
  | HandleClosed id => on_close w me id
  | CloseTask id gen => w ← _csilk_on_close_owner w id gen; csilk_client_unref w true id
  | RecycleTask id gen => _csilk_client_recycle_dispatch_cb w id gen
  end.

Definition run_op (o : op) (w : world) : option world :=
  match o with
  | OAccept tcp_init accept tls read_start => on_new_connection w tcp_init accept tls read_start
  | OState id s => c ← heap w !! id; Some (put w id (with_state c (csilk_conn_set_state (state c) s)))
  | ORef id => w ← csilk_client_ref w id; Some (add_token w (U id))
  | OWrite id sent => csilk_client_write w id sent
  | OClose id => close_handle w id
  | ORun i me => t ← tokens w !! i; run_token (set_tokens w (delete i (tokens w))) t me
  end.

(** Who may do what: the loop works on clients of the active list, a further
    reference is taken there or by someone who holds one, and the states a
    protocol sets are those of a request. *)
Definition legal (o : op) (w : world) : Prop :=
  match o with
  | OAccept _ _ _ _ => True
  | OState id s => id ∈ active_clients w /\ s ∈ [CSILK_CONN_READING; CSILK_CONN_PROCESSING; CSILK_CONN_WRITING; CSILK_CONN_STREAMING]
  | ORef id => id ∈ active_clients w \/ U id ∈ tokens w
  | OWrite id _ => id ∈ active_clients w
  | OClose id => id ∈ active_clients w
  | ORun i _ => is_Some (tokens w !! i)
  end.

(** What the histories below assume of the system: a connection that was
    announced can be accepted, and the set-up of TLS succeeds. *)
Definition established (o : op) : Prop :=
  match o with OAccept _ accept tls _ => accept = true /\ tls <> Some false | _ => True end.

Definition new_world (max : Z) (a : list bool) : world := mk_world ∅ 0 [] [] 0 0 max [] a.

Inductive reachable (max : Z) (a : list bool) : world -> Prop :=
| R_new : reachable max a (new_world max a)
| R_op o w w' : reachable max a w -> legal o w -> established o -> run_op o w = Some w' -> reachable max a w'.

(** ** The state machine follows its rules *)

Definition conn_states : list Z := [0; 1; 2; 3; 4; 5; 6; 7; 8].

Lemma conn_state_cases z : 0 <= z <= 8 -> z ∈ conn_states.
Proof. intros H. unfold conn_states. rewrite !elem_of_cons. lia. Qed.

(** One case for every member of a concrete list. *)
Ltac members H := repeat (apply elem_of_cons in H as [->|H]); [..|by apply elem_of_nil in H].

Lemma transition_rules from to : csilk_conn_is_valid_transition from to = true <-> lifecycle from to.
Proof.
  split.
  - intros H. assert (0 <= from <= 8 /\ 0 <= to <= 8) as [Hf Ht].
    { unfold csilk_conn_is_valid_transition, CSILK_CONN_STATE_COUNT in H. destruct (_ || _) eqn:E; [done|].
      rewrite !orb_false_iff, !Z.ltb_ge, !Z.leb_gt in E. lia. }
    apply conn_state_cases in Hf, Ht. members Hf; members Ht;
      first [discriminate H|by apply L_self|by apply L_closing|by apply L_closed|constructor; rewrite !elem_of_cons; tauto].
  - destruct 1 as [s H|t H|t H|t H|t H|t H|t H|t H| |]; [apply conn_state_cases in H|..]; try members H; reflexivity.
Qed.

(** C40: the connection state is always one of the nine, whatever integers are
    requested in whatever order: every change is an edge of the documented life
    cycle, a request that is not an edge leaves the state, one that is takes
    effect, and a closing connection can only become closed. *)
Theorem conn_state_well_typed (s : Z) (requests : list Z) :
  0 <= s <= 8 ->
  let s' := foldl csilk_conn_set_state s requests in
  0 <= s' <= 8 /\ csilk_conn_state_str s' <> lit "UNKNOWN" /\ rtc lifecycle s s' /\
  (forall t, lifecycle s' t -> csilk_conn_set_state s' t = t) /\ (forall t, ~ lifecycle s' t -> csilk_conn_set_state s' t = s') /\
  (s' = CSILK_CONN_CLOSING -> forall t, csilk_conn_set_state s' t <> s' -> t = CSILK_CONN_CLOSED).
Proof.
  intros Hs. cbv zeta. revert s Hs.
  assert (forall s t, lifecycle s t -> 0 <= t <= 8) as Hr by (destruct 1 as [s H|t H|t H|t H|t H|t H|t H|t H| |]; [done|..]; try members H; lia).
  assert (forall s t, lifecycle s t -> csilk_conn_set_state s t = t) as Ht.
  { intros s t H%transition_rules. unfold csilk_conn_set_state. destruct (Z.eqb_spec s t); [done|]. by rewrite H. }
  assert (forall s t, ~ lifecycle s t -> csilk_conn_set_state s t = s) as Hn.
  { intros s t H. unfold csilk_conn_set_state. destruct (_ =? _); [done|].
    destruct (csilk_conn_is_valid_transition s t) eqn:E; [|done]. by apply transition_rules in E. }
  assert (forall s t, lifecycle s t \/ ~ lifecycle s t) as Hd.
  { intros s t. destruct (csilk_conn_is_valid_transition s t) eqn:E; [left; by apply transition_rules|]. right. intros H%transition_rules. congruence. }
  induction requests as [|t l IH]; intros s Hs; cbn [foldl].
  - split_and!; try done; try lia; [|by apply Ht|by apply Hn|].
    + apply conn_state_cases in Hs. by members Hs.
    + intros -> t H. destruct (Hd CSILK_CONN_CLOSING t) as [H'|H']; [|by rewrite Hn in H]. inversion H'; subst; [by rewrite Ht in H|done].
  - destruct (Hd s t) as [H|H]; [|rewrite Hn by done; by apply IH]. rewrite (Ht s t H).
    destruct (IH t (Hr s t H)) as (A1 & A2 & A3 & A4). split_and!; try done; [lia|lia|by apply (rtc_l _ s t)|apply A4..].
Qed.

Lemma conn_state_well_typed_witness :
  foldl csilk_conn_set_state CSILK_CONN_INIT [CSILK_CONN_ACCEPTED; CSILK_CONN_WRITING; CSILK_CONN_READING; 42] = CSILK_CONN_READING /\
  0 <= foldl csilk_conn_set_state CSILK_CONN_INIT [CSILK_CONN_ACCEPTED; CSILK_CONN_WRITING; CSILK_CONN_READING; 42] <= 8.
Proof. split; [reflexivity|]. apply (conn_state_well_typed CSILK_CONN_INIT [CSILK_CONN_ACCEPTED; CSILK_CONN_WRITING; CSILK_CONN_READING; 42]). unfold CSILK_CONN_INIT. lia. Defined.

(** ** The invariant of a client *)

Definition tid (t : token) : nat :=
  match t with U i | Write i _ | TimerClosed i | HandleClosed i | CloseTask i _ | RecycleTask i _ => i end.

(** The references, pending operations and closers a token stands for. *)
Definition rw (t : token) : nat := match t with U _ | Write _ _ | CloseTask _ _ => 1 | _ => 0 end.
Definition pw (t : token) : nat := match t with Write _ _ | TimerClosed _ => 1 | _ => 0 end.
Definition cw (t : token) : nat := match t with HandleClosed _ | CloseTask _ _ => 1 | _ => 0 end.
Definition total (f : token -> nat) (l : list token) : Z := Z.of_nat (list_sum (map f l)).

Definition toks (w : world) (id : nat) : list token := List.filter (fun t => (tid t =? id)%nat) (tokens w).

Lemma total_app f a b : total f (a ++ b) = total f a + total f b.
Proof. unfold total. rewrite map_app, list_sum_app. lia. Qed.
Lemma total_cons f t l : total f (t :: l) = Z.of_nat (f t) + total f l.
Proof. unfold total. cbn [map]. change (list_sum (f t :: map f l)) with (f t + list_sum (map f l))%nat. lia. Qed.
Lemma total_nonneg f l : 0 <= total f l.
Proof. unfold total. lia. Qed.

Record pooled (a : bool) (l : list token) (c : csilk_client_t) : Prop := {
  q_owner : owner_pool c = false;
  q_state : state c = CSILK_CONN_INIT;
  q_refs : ref_count c = 0;
  q_pending : pending_io c = 0;
  q_handle : handle c <> HInit;
  q_timers : HInit ∉ timers c /\ length (timers c) = 4%nat;
  q_active : a = false;
  q_none : total rw l = 0 /\ total pw l = 0 /\ total cw l = 0;
}.

(** A client that is in use. [good]: no allocation has failed. *)
Record live (good a : bool) (l : list token) (c : csilk_client_t) : Prop := {
  v_owner : owner_pool c = true;
  v_state : 1 <= state c <= 7;
  v_active : a = negb (state c =? CSILK_CONN_CLOSING);
  v_refs : ref_count c = (if state c =? CSILK_CONN_CLOSING then 0 else 1) + total rw l;
  v_pending : pending_io c = total pw l;
  v_handle : if state c =? CSILK_CONN_CLOSING then handle c = HClosing /\ (HInit ∉ timers c /\ length (timers c) = 4%nat) /\ total cw l = 0
             else timers c = [HInit; HInit; HInit; HInit] /\ handle c <> HZero /\
               total cw l <= (if is_closing (handle c) then 1 else 0) /\ (good = true -> is_closing (handle c) = true -> total cw l = 1);
  v_gen : forall i g, CloseTask i g ∈ l -> g = generation c;
}.

(** A closing client nobody uses is about to be recycled. *)
Definition due (l : list token) (c : csilk_client_t) : Prop :=
  state c = CSILK_CONN_CLOSING -> ref_count c = 0 -> pending_io c = 0 -> exists i, RecycleTask i (generation c) ∈ l.

Definition client_ok (good : bool) (w : world) (id : nat) (c : csilk_client_t) : Prop :=
  if decide (id ∈ client_pool w) then pooled (bool_decide (id ∈ active_clients w)) (toks w id) c
  else live good (bool_decide (id ∈ active_clients w)) (toks w id) c /\ (good = true -> due (toks w id) c).

Section invariant.
Context (good : bool) (max : Z) (Hmax : 0 < max <= CSILK_CLIENT_POOL_SIZE).

(** All clients are well-formed, except the one an operation works on. *)
Record inv (ex : nat -> Prop) (w : world) : Prop := {
  e_pool : NoDup (client_pool w);
  e_pool_heap : forall j, j ∈ client_pool w -> is_Some (heap w !! j);
  e_active : NoDup (active_clients w);
  e_active_heap : forall j, j ∈ active_clients w -> is_Some (heap w !! j);
  e_tokens : forall t, t ∈ tokens w -> is_Some (heap w !! tid t);
  e_fresh : forall j, is_Some (heap w !! j) -> (j < fresh w)%nat;
  e_counts : wp_active w = srv_active w /\ srv_active w = Z.of_nat (size (heap w)) - Z.of_nat (length (client_pool w));
  e_max : max_connections w = max /\ Z.of_nat (size (heap w)) <= max;
  e_good : good = true -> Forall (fun b : bool => b = true) (answers w);
  e_clients : forall j c, ~ ex j -> heap w !! j = Some c -> client_ok good w j c;
}.

Definition only (x : nat) : nat -> Prop := fun j => j = x.
Definition none : nat -> Prop := fun _ => False.

Lemma open_client x w : inv none w -> inv (only x) w.
Proof. intros [H1 H2 H3 H4 H5 H6 H7 H8 H9 H10]. constructor; try done. intros j c _. apply H10. intros []. Qed.

Lemma close_client x w : inv (only x) w -> (forall c, heap w !! x = Some c -> client_ok good w x c) -> inv none w.
Proof.
  intros [H1 H2 H3 H4 H5 H6 H7 H8 H9 H10] Hx. constructor; try done. intros j c _ Hc.
  destruct (decide (j = x)) as [->|]; [by apply Hx|by apply H10].
Qed.

(** Operations on the client that is open. *)
Lemma inv_put x w c0 c : inv (only x) w -> heap w !! x = Some c0 -> inv (only x) (put w x c).
Proof.
  intros [H1 H2 H3 H4 H5 H6 H7 H8 H9 H10] Hx.
  assert (forall j, is_Some (<[x := c]> (heap w) !! j) <-> is_Some (heap w !! j)) as Hs.
  { intros j. destruct (decide (j = x)) as [->|]; [rewrite lookup_insert_eq, Hx|rewrite lookup_insert_ne by done]; by split; eauto. }
  assert (size (<[x := c]> (heap w)) = size (heap w)) as Hz by (rewrite map_size_insert_Some by eauto; done).
  constructor; cbn [put set_heap heap client_pool active_clients tokens fresh wp_active srv_active max_connections answers]; try done;
    try (intros; apply Hs; auto); [by intros j Hj%Hs; apply H6|by rewrite Hz|by rewrite Hz|].
  intros j c' Hj. rewrite lookup_insert_ne by (intros ->; by apply Hj). intros Hc. by apply (H10 j c' Hj Hc).
Qed.

Lemma toks_other x l t : tid t = x -> forall j, j <> x -> List.filter (fun t => (tid t =? j)%nat) (l ++ [t]) = List.filter (fun t => (tid t =? j)%nat) l.
Proof. intros Ht j Hj. rewrite List.filter_app. cbn. rewrite (proj2 (Nat.eqb_neq _ _)) by congruence. apply app_nil_r. Qed.

Lemma inv_token x w t : inv (only x) w -> tid t = x -> is_Some (heap w !! x) -> inv (only x) (add_token w t).
Proof.
  intros [H1 H2 H3 H4 H5 H6 H7 H8 H9 H10] Ht Hx. constructor; try done.
  - cbn. intros t' [H|H%list_elem_of_singleton]%elem_of_app; [by apply H5|]. subst t'. by rewrite Ht.
  - intros j c Hj Hc. specialize (H10 j c Hj Hc). unfold client_ok, toks in *. cbn.
    by rewrite (toks_other x) by (done || (intros ->; by apply Hj)).
Qed.

Lemma inv_malloc ex w ok w' : inv ex w -> malloc_ok w = (ok, w') ->
  inv ex w' /\ heap w' = heap w /\ toks w' = toks w /\ client_pool w' = client_pool w /\ active_clients w' = active_clients w /\
  fresh w' = fresh w /\ srv_active w' = srv_active w /\ wp_active w' = wp_active w /\ tokens w' = tokens w /\ (good = true -> ok = true).
Proof.
  intros H. unfold malloc_ok. destruct (answers w) as [|b l] eqn:E; intros [= <- <-]; [by split_and!|].
  split; [|split_and!; try done; intros Hg; apply (e_good _ _ H) in Hg; rewrite E in Hg; by apply Forall_cons in Hg as [? _]].
  destruct H as [H1 H2 H3 H4 H5 H6 H7 H8 H9 H10]. constructor; try done. cbn. intros Hg. apply H9 in Hg. rewrite E in Hg. by apply Forall_cons in Hg as [_ ?].
Qed.

Lemma inv_active x w l : inv (only x) w -> is_Some (heap w !! x) -> NoDup l -> (forall j, j <> x -> j ∈ l <-> j ∈ active_clients w) -> inv (only x) (set_active w l).
Proof.
  intros [H1 H2 H3 H4 H5 H6 H7 H8 H9 H10] Hx Hl Hj. constructor; try done.
  - cbn. intros j Hi. destruct (decide (j = x)) as [->|]; [done|]. apply H4. by apply Hj.
  - intros j c Hn Hc. specialize (H10 j c Hn Hc). unfold client_ok, toks in *. cbn in *.
    by rewrite (bool_decide_ext _ _ (Hj j (fun E => Hn E))).
Qed.

Lemma filter_delete_other l i t : forall j, l !! i = Some t -> tid t <> j ->
  List.filter (fun t => (tid t =? j)%nat) (delete i l) = List.filter (fun t => (tid t =? j)%nat) l.
Proof.
  revert i. induction l as [|t' l IH]; intros [|i] j Hi Hj; try done; cbn in *.
  - injection Hi as ->. by rewrite (proj2 (Nat.eqb_neq _ _)).
  - by rewrite (IH i) by done.
Qed.

(** Taking a token: its client is open, and has had the token. *)
Lemma inv_take w i t : inv none w -> tokens w !! i = Some t ->
  inv (only (tid t)) (set_tokens w (delete i (tokens w))) /\ is_Some (heap w !! tid t) /\
  toks w (tid t) ≡ₚ t :: toks (set_tokens w (delete i (tokens w))) (tid t).
Proof.
  intros [H1 H2 H3 H4 H5 H6 H7 H8 H9 H10] Hi. pose proof (delete_Permutation _ _ _ Hi) as Hp. split_and!.
  - constructor; try done.
    + cbn. intros t' H. apply H5. rewrite Hp. by right.
    + intros j c Hn Hc. specialize (H10 j c (fun E => E) Hc). unfold client_ok, toks in *. cbn.
      rewrite (filter_delete_other _ i t) by (done || (intros E; by apply Hn)). done.
  - apply H5. by apply list_elem_of_lookup_2 in Hi.
  - unfold toks. cbn [set_tokens tokens]. clear -Hi. revert i Hi. induction (tokens w) as [|t' l IH]; intros [|i] Hi; try done; cbn in *.
    + injection Hi as ->. by rewrite Nat.eqb_refl.
    + destruct (_ =? _)%nat; [|by apply IH]. etransitivity; [by apply Permutation_skip, IH|apply Permutation_swap].
Qed.

(** ** Recycling *)

Lemma pool_room x w : inv (only x) w -> is_Some (heap w !! x) -> x ∉ client_pool w ->
  (length (client_pool w) < size (heap w))%nat.
Proof.
  intros H [c Hx] Hp. pose proof (e_pool _ _ H) as Hn.
  assert (list_to_set (x :: client_pool w) ⊆@{gset nat} dom (heap w)) as Hs.
  { intros j. rewrite elem_of_list_to_set, elem_of_cons, elem_of_dom. intros [->|Hj]; [by eexists|by apply (e_pool_heap _ _ H)]. }
  apply subseteq_size in Hs. rewrite size_dom, size_list_to_set in Hs by (by constructor). cbn in Hs. lia.
Qed.

(** A client nobody uses goes back to the pool, and the counters follow. *)
Lemma pool_put_ok x w c : inv (only x) w -> heap w !! x = Some c -> x ∉ client_pool w -> x ∉ active_clients w ->
  csilk_conn_set_state (state c) CSILK_CONN_INIT = CSILK_CONN_INIT -> handle c <> HInit -> (HInit ∉ timers c /\ length (timers c) = 4%nat) ->
  total rw (toks w x) = 0 /\ total pw (toks w x) = 0 /\ total cw (toks w x) = 0 ->
  exists w', pool_put (set_counts w (wp_active w) (srv_active w - 1)) x = Some w' /\ inv none w'.
Proof.
  intros H Hx Hp Ha Hs Hh Ht Hn. pose proof (pool_room x w H ltac:(by eexists) Hp) as Hroom. unfold pool_put.
  cbn [set_counts heap client_pool wp_active srv_active]. rewrite Hx. cbn [mbind option_bind put set_heap set_counts client_pool].
  assert ((Z.of_nat (length (client_pool w)) <? CSILK_CLIENT_POOL_SIZE) = true) as Hlt by (destruct (e_max _ _ H) as [_ ?]; apply Z.ltb_lt; lia).
  rewrite Hlt. eexists. split; [reflexivity|].
  pose proof (inv_put x w c (reset_hot_state c) H Hx) as [H1 H2 H3 H4 H5 H6 H7 H8 H9 H10]. apply (close_client x).
  - constructor; try done; cbn [set_pool put set_heap set_counts client_pool heap active_clients tokens fresh wp_active srv_active max_connections answers length].
    + by constructor.
    + intros j [->|Hj]%elem_of_cons; [by rewrite lookup_insert_eq|by apply H2].
    + cbn in H7. lia.
    + intros j c' Hj Hc. specialize (H10 j c' Hj Hc). unfold client_ok in *. cbn in *.
      assert (j ∈ x :: client_pool w <-> j ∈ client_pool w) as E by (rewrite elem_of_cons; split; [intros [->|]; [by destruct Hj|done]|by right]).
      by destruct (decide (j ∈ x :: client_pool w)), (decide (j ∈ client_pool w)); try tauto.
  - cbn [set_pool put set_heap heap]. intros c'. rewrite lookup_insert_eq. intros [= <-]. unfold client_ok. cbn [set_pool put set_heap set_counts client_pool active_clients].
    rewrite decide_True by by left. constructor; cbn [reset_hot_state owner_pool state ref_count pending_io handle timers]; try done. by apply bool_decide_eq_false_2.
Qed.

(** A closing client without references or pending operations is recycled. *)
Lemma destroy_ok x w c : inv (only x) w -> heap w !! x = Some c -> x ∉ client_pool w ->
  live good (bool_decide (x ∈ active_clients w)) (toks w x) c -> state c = CSILK_CONN_CLOSING -> ref_count c = 0 -> pending_io c = 0 ->
  exists w', client_destroy w x = Some w' /\ inv none w'.
Proof.
  intros H Hx Hp [L1 L2 L3 L4 L5 L6 L7] Hs Hr Hi. unfold client_destroy. rewrite Hx. cbn [mbind option_bind]. rewrite Hs in *. rewrite Z.eqb_refl in *. cbn [negb] in *.
  destruct L6 as (E1 & E2 & E3). apply (pool_put_ok x (put w x (with_state c CSILK_CONN_CLOSED)) (with_state c CSILK_CONN_CLOSED)); try done.
  - by apply (inv_put x w c).
  - cbn. by rewrite lookup_insert_eq.
  - by apply bool_decide_eq_false in L3.
  - cbn. by rewrite E1.
  - change (toks (put w x (with_state c CSILK_CONN_CLOSED)) x) with (toks w x). lia.
Qed.

Lemma ok_live x w c : x ∉ client_pool w -> live good (bool_decide (x ∈ active_clients w)) (toks w x) c -> (good = true -> due (toks w x) c) -> client_ok good w x c.
Proof. intros Hp L D. unfold client_ok. by destruct (decide (x ∈ client_pool w)). Qed.

Lemma close_live x w c : inv (only x) w -> heap w !! x = Some c -> x ∉ client_pool w ->
  live good (bool_decide (x ∈ active_clients w)) (toks w x) c -> (good = true -> due (toks w x) c) -> inv none w.
Proof. intros H Hx Hp L D. apply (close_client x); [done|]. rewrite Hx. intros c' [= <-]. by apply ok_live. Qed.

(** After a count has reached zero. *)
Lemma recycle_ok x w c me : inv (only x) w -> heap w !! x = Some c -> x ∉ client_pool w ->
  live good (bool_decide (x ∈ active_clients w)) (toks w x) c ->
  exists w', _csilk_client_check_recycle w me x = Some w' /\ inv none w'.
Proof.
  intros H Hx Hp L. unfold _csilk_client_check_recycle, is_owner. rewrite Hx. cbn [mbind option_bind]. rewrite (v_owner _ _ _ _ L), andb_true_r.
  pose proof (total_nonneg rw (toks w x)) as Hr0. pose proof (total_nonneg pw (toks w x)) as Hp0.
  destruct me.
  - pose proof (v_state _ _ _ _ L) as Hs. destruct (Z.eqb_spec (state c) CSILK_CONN_CLOSING) as [E|E]; cbn [negb andb].
    + destruct (Z.leb_spec (ref_count c) 0); cbn [andb].
      * destruct (Z.leb_spec (pending_io c) 0).
        -- apply (destroy_ok x w c); try done; [pose proof (v_refs _ _ _ _ L) as V; rewrite E in V; cbn in V|pose proof (v_pending _ _ _ _ L)]; lia.
        -- exists w. split; [done|]. apply (close_live x w c); try done. intros _ _ _ ?. lia.
      * exists w. split; [done|]. apply (close_live x w c); try done. intros _ _ ? _. lia.
    + rewrite (proj2 (Z.eqb_neq _ _)) by (unfold CSILK_CONN_CLOSED; lia). cbn [negb].
      exists w. split; [done|]. apply (close_live x w c); try done. by intros _ ?.
  - assert (forall w', inv (only x) w' -> heap w' = heap w -> client_pool w' = client_pool w -> active_clients w' = active_clients w -> toks w' = toks w ->
      good <> true -> inv none w') as Hbad.
    { intros w' H' E1 E2 E3 E4 Hg. apply (close_client x); [done|]. rewrite E1, Hx. intros c' [= <-]. apply ok_live; by rewrite ?E2, ?E3, ?E4. }
    destruct (malloc_ok w) as [ok1 w1] eqn:M1. destruct (inv_malloc _ _ _ _ H M1) as (I1 & A1 & A2 & A3 & A4 & _ & _ & _ & _ & G1).
    destruct ok1; cbn [negb]; [|exists w1; split; [done|]; apply Hbad; try done; intros Hg; by discriminate (G1 Hg)].
    destruct (malloc_ok w1) as [ok2 w2] eqn:M2. destruct (inv_malloc _ _ _ _ I1 M2) as (I2 & B1 & B2 & B3 & B4 & _ & _ & _ & _ & G2).
    destruct ok2; cbn [negb]; [|exists w2; split; [done|]; apply Hbad; try congruence; intros Hg; by discriminate (G2 Hg)].
    eexists. split; [reflexivity|]. assert (heap w2 !! x = Some c) as Hx2 by congruence.
    apply (close_client x); [apply inv_token; [done|done|by eexists]|]. cbn [add_token set_tokens heap]. rewrite Hx2. intros c' [= <-].
    assert (toks (add_token w2 (RecycleTask x (generation c))) x = toks w x ++ [RecycleTask x (generation c)]) as ET.
    { unfold toks. cbn. rewrite List.filter_app. cbn. rewrite Nat.eqb_refl. f_equal. change (toks w2 x = toks w x). congruence. }
    apply ok_live; [cbn; congruence|rewrite ET|rewrite ET].
    + cbn [add_token set_tokens active_clients]. replace (active_clients w2) with (active_clients w) by congruence.
      destruct L as [L1 L2 L3 L4 L5 L6 L7]. constructor; rewrite ?total_app, ?total_cons; cbn [rw pw cw]; change (total ?f []) with 0; rewrite ?Z.add_0_r; try done.
      intros i g [Hg|Hg]%elem_of_app; [by eapply L7|]. by apply list_elem_of_singleton in Hg.
    + intros _ _ _ _. exists x. apply elem_of_app. right. by left.
Qed.

(** ** Each operation *)

(** A well-formed client is pooled or live; the tokens of a kind show it. *)
Lemma client_cases w x c : client_ok good w x c ->
  (x ∈ client_pool w /\ pooled (bool_decide (x ∈ active_clients w)) (toks w x) c) \/
  (x ∉ client_pool w /\ live good (bool_decide (x ∈ active_clients w)) (toks w x) c /\ (good = true -> due (toks w x) c)).
Proof. unfold client_ok. destruct (decide _); tauto. Qed.

Definition live_token (t : token) : bool := negb (rw t + pw t + cw t =? 0)%nat.

(** The client of a token that counts is live, with the token still on it. *)
Lemma take_live w i t : inv none w -> tokens w !! i = Some t -> live_token t = true ->
  let w1 := set_tokens w (delete i (tokens w)) in
  exists c, inv (only (tid t)) w1 /\ heap w1 !! tid t = Some c /\ tid t ∉ client_pool w1 /\
    live good (bool_decide (tid t ∈ active_clients w1)) (t :: toks w1 (tid t)) c.
Proof.
  intros H Hi Ht w1. destruct (inv_take w i t H Hi) as (I & [c Hc] & P). exists c. split; [done|]. split; [done|].
  assert (forall f, total f (toks w (tid t)) = total f (t :: toks w1 (tid t))) as ET by (intros f; unfold total; by rewrite P).
  destruct (client_cases w (tid t) c (e_clients _ _ H _ _ (fun E => E) Hc)) as [[Hp Q]|(Hp & L & _)].
  - destruct (q_none _ _ _ Q) as (Q1 & Q2 & Q3). rewrite !ET, !total_cons in *. unfold live_token in Ht.
    pose proof (total_nonneg rw (toks w1 (tid t))). pose proof (total_nonneg pw (toks w1 (tid t))). pose proof (total_nonneg cw (toks w1 (tid t))).
    apply negb_true_iff, Nat.eqb_neq in Ht. lia.
  - split; [done|]. destruct L as [L1 L2 L3 L4 L5 L6 L7]. constructor; rewrite <- ?ET; try done. intros j g Hg. apply (L7 j g). by rewrite P.
Qed.

(** Dropping one reference of a client that has lost the token for it. *)
Lemma unref_ok x w c me : inv (only x) w -> heap w !! x = Some c -> x ∉ client_pool w -> 0 < ref_count c ->
  live good (bool_decide (x ∈ active_clients w)) (toks w x) (with_refs c (ref_count c - 1)) ->
  exists w', csilk_client_unref w me x = Some w' /\ inv none w'.
Proof.
  intros H Hx Hp Hr L. unfold csilk_client_unref. rewrite Hx. cbn [mbind option_bind]. rewrite (proj2 (Z.leb_gt _ _)) by done.
  pose proof (inv_put x w c (with_refs c (ref_count c - 1)) H Hx) as I.
  assert (heap (put w x (with_refs c (ref_count c - 1))) !! x = Some (with_refs c (ref_count c - 1))) as Hx' by (cbn; by rewrite lookup_insert_eq).
  destruct (Z.eqb_spec (ref_count c - 1) 0); [by apply (recycle_ok x _ _ me I Hx')|].
  eexists. split; [reflexivity|]. apply (close_live x _ _ I Hx'); try done. intros _ _ ? _. cbn in *. lia.
Qed.

Lemma dec_ok x w c me : inv (only x) w -> heap w !! x = Some c -> x ∉ client_pool w -> 0 < pending_io c ->
  live good (bool_decide (x ∈ active_clients w)) (toks w x) (with_pending c (pending_io c - 1)) ->
  exists w', _csilk_client_pending_io_dec w me x = Some w' /\ inv none w'.
Proof.
  intros H Hx Hp Hr L. unfold _csilk_client_pending_io_dec. rewrite Hx. cbn [mbind option_bind]. rewrite (proj2 (Z.leb_gt _ _)) by done.
  pose proof (inv_put x w c (with_pending c (pending_io c - 1)) H Hx) as I.
  assert (heap (put w x (with_pending c (pending_io c - 1))) !! x = Some (with_pending c (pending_io c - 1))) as Hx' by (cbn; by rewrite lookup_insert_eq).
  destruct (Z.eqb_spec (pending_io c - 1) 0); [by apply (recycle_ok x _ _ me I Hx')|].
  eexists. split; [reflexivity|]. apply (close_live x _ _ I Hx'); try done. intros _ _ _ ?. cbn in *. lia.
Qed.

(** Decides the bookkeeping of a live client from that of another state. *)
Ltac count L := destruct L as [L1 L2 L3 L4 L5 L6 L7]; constructor; cbn [with_refs with_pending with_primary with_state with_handle with_timers owner_pool state ref_count pending_io handle timers generation] in *;
  rewrite ?total_app, ?total_cons in *; cbn [rw pw cw] in *; change (total rw []) with 0 in *; change (total pw []) with 0 in *; change (total cw []) with 0 in *;
  change (Z.of_nat 0) with 0 in *; change (Z.of_nat 1) with 1 in *; rewrite ?Z.add_0_r, ?Z.add_0_l in *; try done; try lia.

Lemma user_unref_ok w i x me : inv none w -> tokens w !! i = Some (U x) -> exists w', run_token (set_tokens w (delete i (tokens w))) (U x) me = Some w' /\ inv none w'.
Proof.
  intros H Hi. destruct (take_live w i _ H Hi eq_refl) as (c & I & Hc & Hp & L). cbn [tid run_token] in *.
  pose proof (total_nonneg rw (toks (set_tokens w (delete i (tokens w))) x)) as N.
  apply (unref_ok x _ c me I Hc Hp).
  - pose proof (v_refs _ _ _ _ L) as V. rewrite total_cons in V. cbn [rw] in V. destruct (_ =? _); lia.
  - count L. intros j g Hg. apply (L7 j g). by right.
Qed.

Lemma timer_closed_ok w i x me : inv none w -> tokens w !! i = Some (TimerClosed x) -> exists w', run_token (set_tokens w (delete i (tokens w))) (TimerClosed x) me = Some w' /\ inv none w'.
Proof.
  intros H Hi. destruct (take_live w i _ H Hi eq_refl) as (c & I & Hc & Hp & L). cbn [tid run_token] in *.
  pose proof (total_nonneg pw (toks (set_tokens w (delete i (tokens w))) x)) as N.
  apply (dec_ok x _ c true I Hc Hp).
  - pose proof (v_pending _ _ _ _ L) as V. rewrite total_cons in V. cbn [pw] in V. lia.
  - count L. intros j g Hg. apply (L7 j g). by right.
Qed.

(** A pending operation ends while a reference remains. *)
Lemma dec_keep x w c : heap w !! x = Some c -> owner_pool c = true -> 0 < ref_count c -> 0 < pending_io c ->
  _csilk_client_pending_io_dec w true x = Some (put w x (with_pending c (pending_io c - 1))).
Proof.
  intros Hx Ho Hr Hp. unfold _csilk_client_pending_io_dec. rewrite Hx. cbn [mbind option_bind]. rewrite (proj2 (Z.leb_gt _ _)) by done.
  destruct (_ =? 0); [|done]. unfold _csilk_client_check_recycle, is_owner. cbn [put set_heap heap]. rewrite lookup_insert_eq.
  cbn [mbind option_bind with_pending owner_pool state ref_count pending_io]. rewrite Ho. cbn [andb].
  rewrite (proj2 (Z.leb_gt (ref_count c) 0)) by done. by destruct (_ && _).
Qed.

Lemma write_done_ok w i x inl me : inv none w -> tokens w !! i = Some (Write x inl) ->
  exists w', run_token (set_tokens w (delete i (tokens w))) (Write x inl) me = Some w' /\ inv none w'.
Proof.
  intros H Hi. destruct (take_live w i _ H Hi eq_refl) as (c & I & Hc & Hp & L). cbn [tid run_token] in *.
  set (w1 := set_tokens w (delete i (tokens w))) in *. clearbody w1.
  pose proof (total_nonneg rw (toks w1 x)) as N1. pose proof (total_nonneg pw (toks w1 x)) as N2.
  unfold on_write. rewrite Hc. cbn [mbind option_bind].
  set (c1 := if inl then with_primary c false else c).
  assert (exists w2, (if inl then put w1 x (with_primary c false) else w1) = w2 /\ inv (only x) w2 /\ heap w2 !! x = Some c1 /\
    client_pool w2 = client_pool w1 /\ active_clients w2 = active_clients w1 /\ toks w2 x = toks w1 x) as (w2 & -> & I2 & Hc2 & E1 & E2 & E3).
  { eexists. split; [reflexivity|]. unfold c1. destruct inl; [|done]. split; [by apply (inv_put x w1 c)|]. cbn. by rewrite lookup_insert_eq. }
  assert (live good (bool_decide (x ∈ active_clients w2)) (Write x inl :: toks w2 x) c1) as L2.
  { rewrite E2, E3. unfold c1. destruct inl; [|done]. count L. }
  clearbody c1. clear L. pose proof (v_refs _ _ _ _ L2) as V. pose proof (v_pending _ _ _ _ L2) as V'. rewrite total_cons in V, V'. cbn [rw pw] in V, V'.
  assert (0 < ref_count c1 /\ 0 < pending_io c1) as [R1 R2] by (rewrite E3 in V, V'; destruct (_ =? _); lia).
  rewrite (dec_keep x w2 c1) by (try done; apply (v_owner _ _ _ _ L2)). cbn [mbind option_bind].
  apply (unref_ok x _ (with_pending c1 (pending_io c1 - 1)) true).
  - by apply (inv_put x w2 c1).
  - cbn. by rewrite lookup_insert_eq.
  - cbn. by rewrite E1.
  - done.
  - change (toks (put w2 x (with_pending c1 (pending_io c1 - 1))) x) with (toks w2 x). cbn [put set_heap active_clients].
    clear V V'. count L2. intros j g Hg. apply (L7 j g). by right.
Qed.

(** ** Closing *)

Lemma close_timers_step x w c n i : heap w !! x = Some c -> timers c !! i = Some HInit ->
  close_timers w x (S n) i =
  close_timers (set_tokens (put w x (with_timers (with_pending c (pending_io c + 1)) (<[i := HClosing]> (timers c)))) (tokens w ++ [TimerClosed x])) x n (S i).
Proof.
  intros Hx Hi. cbn [close_timers]. rewrite Hx. cbn [mbind option_bind]. rewrite Hi. cbn [mbind option_bind].
  unfold _csilk_client_pending_io_inc. rewrite Hx. cbn [mbind option_bind]. cbn [put set_heap heap]. rewrite lookup_insert_eq. cbn [mbind option_bind].
  unfold add_token, put, set_tokens, set_heap. cbn [heap fresh client_pool active_clients wp_active srv_active max_connections tokens answers]. by rewrite insert_insert_eq.
Qed.

Lemma close_timers_spec x n : forall w c i, heap w !! x = Some c -> timers c = replicate i HClosing ++ replicate n HInit ->
  close_timers w x n i = Some (set_tokens (put w x (with_timers (with_pending c (pending_io c + Z.of_nat n)) (replicate (i + n) HClosing))) (tokens w ++ replicate n (TimerClosed x))).
Proof.
  induction n as [|n IH]; intros w c i Hx Ht.
  - cbn [close_timers replicate] in *. rewrite app_nil_r in Ht. rewrite app_nil_r, Z.add_0_r, Nat.add_0_r. unfold put. rewrite insert_id; [by destruct w|].
    rewrite Hx. unfold with_timers, with_pending. cbn. rewrite <- Ht. by destruct c.
  - rewrite (close_timers_step x w c n i Hx) by (rewrite Ht, lookup_app_r, length_replicate, Nat.sub_diag by (rewrite length_replicate; lia); done).
    rewrite (IH _ (with_timers (with_pending c (pending_io c + 1)) (<[i := HClosing]> (timers c)))).
    + f_equal. unfold put, set_tokens, set_heap. cbn [heap fresh client_pool active_clients wp_active srv_active max_connections tokens answers]. rewrite insert_insert_eq.
      f_equal; [f_equal|by rewrite <- (assoc_L (++))]. unfold with_timers, with_pending. cbn [generation state ref_count pending_io primary_write_in_flight owner_pool handle timers].
      f_equal; [lia|]. f_equal. lia.
    + cbn [set_tokens put set_heap heap]. apply lookup_insert_eq.
    + cbn [with_timers timers]. rewrite Ht, insert_app_r_alt, length_replicate, Nat.sub_diag by (rewrite length_replicate; lia).
      cbn [replicate]. change (<[0%nat := HClosing]> (HInit :: replicate n HInit)) with (HClosing :: replicate n HInit).
      change (HClosing :: replicate i HClosing) with (replicate (S i) HClosing). rewrite replicate_S_end, <- (assoc_L (++)). done.
Qed.

Lemma stop_timers_spec x w c : heap w !! x = Some c -> timers c = [HInit; HInit; HInit; HInit] ->
  exists w', _csilk_client_stop_timers w x = Some w' /\
    w' = set_tokens (put w x (with_timers (with_pending c (pending_io c + 4)) [HClosing; HClosing; HClosing; HClosing]))
           (tokens w ++ [TimerClosed x; TimerClosed x; TimerClosed x; TimerClosed x]).
Proof. intros Hx Ht. eexists. split; [|reflexivity]. exact (close_timers_spec x 4 w c 0 Hx Ht). Qed.

Lemma inv_tokens x w l : inv (only x) w -> is_Some (heap w !! x) -> Forall (fun t => tid t = x) l -> inv (only x) (set_tokens w (tokens w ++ l)).
Proof.
  revert w. induction l as [|t l IH]; intros w H Hx Hl; [rewrite app_nil_r; by destruct w|]. apply Forall_cons in Hl as [Ht Hl].
  pose proof (IH (add_token w t) (inv_token x w t H Ht Hx) Hx Hl) as G. unfold add_token, set_tokens in *. cbn in G. by rewrite <- (assoc_L (++)) in G.
Qed.

Lemma toks_app w x l : Forall (fun t => tid t = x) l -> toks (set_tokens w (tokens w ++ l)) x = toks w x ++ l.
Proof.
  intros Hl. unfold toks. cbn. rewrite List.filter_app. f_equal. induction Hl as [|t l Ht Hl IH]; [done|]. cbn. by rewrite Ht, Nat.eqb_refl, IH.
Qed.

Lemma toks_add w x t : tid t = x -> toks (add_token w t) x = toks w x ++ [t].
Proof. intros Ht. apply (toks_app w x [t]). by repeat constructor. Qed.

(** The owner closes a client whose closer has just run, with [extra]
    references still to be dropped by the caller. *)
Lemma on_close_owner_state x w c : inv (only x) w -> heap w !! x = Some c -> owner_pool c = true ->
  1 <= state c < 7 -> timers c = [HInit; HInit; HInit; HInit] -> 0 <= pending_io c -> 1 <= ref_count c ->
  exists w', on_close w true x = Some w' /\ inv (only x) w' /\
    heap w' !! x = Some (mk_client (generation c) CSILK_CONN_CLOSING (ref_count c - 1) (pending_io c + 4) (primary_write_in_flight c) true (handle c) [HClosing; HClosing; HClosing; HClosing]) /\
    client_pool w' = client_pool w /\ (x ∉ active_clients w') /\ toks w' x = toks w x ++ [TimerClosed x; TimerClosed x; TimerClosed x; TimerClosed x].
Proof.
  intros H Hx Ho Hs Ht Hp Hr. unfold on_close, is_owner. rewrite Hx. cbn [mbind option_bind].
  rewrite !(proj2 (Z.eqb_neq _ _)) by (unfold CSILK_CONN_CLOSING, CSILK_CONN_CLOSED; lia). rewrite Ho. cbn [orb andb negb].
  assert (csilk_conn_set_state (state c) CSILK_CONN_CLOSING = CSILK_CONN_CLOSING) as ->.
  { assert (0 <= state c <= 8) as Hc by lia. destruct c as [g st r p pr ow h ts]. cbn in *. apply conn_state_cases in Hc. members Hc; first [lia|done]. }
  set (c1 := with_state c CSILK_CONN_CLOSING). set (w1 := client_list_remove (put w x c1) x).
  assert (inv (only x) w1 /\ heap w1 !! x = Some c1) as [I1 Hx1].
  { split; [|cbn; by rewrite lookup_insert_eq]. apply inv_active.
    - by apply (inv_put x w c).
    - cbn. by rewrite lookup_insert_eq.
    - apply NoDup_ListNoDup, List.NoDup_filter, NoDup_ListNoDup. apply (e_active _ _ H).
    - intros j Hj. rewrite !list_elem_of_In, List.filter_In. cbn. rewrite negb_true_iff, Nat.eqb_neq. tauto. }
  destruct (stop_timers_spec x w1 c1 Hx1 Ht) as (w2 & E2 & ->). rewrite E2. cbn [mbind option_bind].
  unfold csilk_client_unref. cbn [set_tokens put set_heap heap]. rewrite lookup_insert_eq. cbn [mbind option_bind with_timers with_pending ref_count c1 with_state].
  rewrite (proj2 (Z.leb_gt _ _)) by lia.
  match goal with |- exists w', (if _ then _csilk_client_check_recycle ?v _ _ else _) = _ /\ _ => set (w3 := v) end.
  assert (heap w3 !! x = Some (mk_client (generation c) CSILK_CONN_CLOSING (ref_count c - 1) (pending_io c + 4) (primary_write_in_flight c) true (handle c) [HClosing; HClosing; HClosing; HClosing])) as Hx3.
  { cbn. rewrite lookup_insert_eq. unfold with_refs. cbn. by rewrite Ho. }
  exists w3. split.
  { destruct (_ =? 0); [|done]. unfold _csilk_client_check_recycle. rewrite Hx3. cbn [mbind option_bind is_owner owner_pool andb state ref_count pending_io].
    change (CSILK_CONN_CLOSING =? CSILK_CONN_CLOSING) with true. cbn [negb andb]. rewrite (proj2 (Z.leb_gt (pending_io c + 4) 0)) by lia. by rewrite andb_false_r. }
  split_and!; try done.
  - eapply inv_put; [|cbn; by rewrite lookup_insert_eq]. apply (inv_tokens x (put w1 x _)); [by apply (inv_put x w1 c1)|cbn; by rewrite lookup_insert_eq|by repeat constructor].
  - cbn. rewrite list_elem_of_In, List.filter_In. rewrite Nat.eqb_refl. intros [_ E]. done.
  - by apply (toks_app (put w1 x (with_timers (with_pending c1 (pending_io c1 + 4)) [HClosing; HClosing; HClosing; HClosing]))); repeat constructor.
Qed.

(** A closer is only due for a client that is not closing. *)
Lemma closer_open a l t c : live good a (t :: l) c -> cw t = 1%nat ->
  1 <= state c < 7 /\ timers c = [HInit; HInit; HInit; HInit] /\ handle c = HClosing /\ total cw l = 0.
Proof.
  intros [L1 L2 L3 L4 L5 L6 L7] Ht. rewrite total_cons, Ht in L6. pose proof (total_nonneg cw l). unfold CSILK_CONN_CLOSING in *.
  destruct (Z.eqb_spec (state c) 7) as [E|E]; [lia|]. destruct L6 as (T & Hh & C & _). unfold is_closing in C.
  destruct (bool_decide_reflect (handle c = HClosing)); [|lia]. split_and!; try done; lia.
Qed.

(** A client that has just begun to close. *)
Lemma closing_live x l g r p pr : r = total rw l -> p = total pw l + 4 -> total cw l = 0 -> (forall i g', CloseTask i g' ∈ l -> g' = g) ->
  live good false (l ++ [TimerClosed x; TimerClosed x; TimerClosed x; TimerClosed x])
    (mk_client g CSILK_CONN_CLOSING r p pr true HClosing [HClosing; HClosing; HClosing; HClosing]).
Proof.
  intros -> -> Hc Hg. assert (total rw [TimerClosed x; TimerClosed x; TimerClosed x; TimerClosed x] = 0 /\ total pw [TimerClosed x; TimerClosed x; TimerClosed x; TimerClosed x] = 4 /\
    total cw [TimerClosed x; TimerClosed x; TimerClosed x; TimerClosed x] = 0) as (E1 & E2 & E3) by done.
  constructor; cbn [owner_pool state ref_count pending_io handle timers generation]; rewrite ?total_app, ?E1, ?E2, ?E3; try done; [cbn; lia| |].
  - change (CSILK_CONN_CLOSING =? CSILK_CONN_CLOSING) with true. cbv iota. split_and!; [done|by rewrite !not_elem_of_cons; repeat split; try apply not_elem_of_nil|done|lia].
  - intros j g' [Hj|Hj]%elem_of_app; [by apply (Hg j)|]. rewrite !elem_of_cons in Hj. destruct Hj as [|[|[|[|Hj]]]]; try done. by apply elem_of_nil in Hj.
Qed.

Lemma handle_closed_ok w i x me : inv none w -> tokens w !! i = Some (HandleClosed x) ->
  exists w', run_token (set_tokens w (delete i (tokens w))) (HandleClosed x) me = Some w' /\ inv none w'.
Proof.
  intros H Hi. destruct (take_live w i _ H Hi eq_refl) as (c & I & Hc & Hp & L). cbn [tid run_token] in *.
  set (w1 := set_tokens w (delete i (tokens w))) in *. clearbody w1. destruct (closer_open _ _ _ _ L eq_refl) as (Hs & Ht & Hh & Hcw).
  pose proof (total_nonneg rw (toks w1 x)) as N1. pose proof (total_nonneg pw (toks w1 x)) as N2. pose proof L as [L1 L2 L3 L4 L5 L6 L7].
  assert ((state c =? CSILK_CONN_CLOSING) = false /\ (state c =? CSILK_CONN_CLOSED) = false) as [S1 S2]
    by (rewrite !Z.eqb_neq; unfold CSILK_CONN_CLOSING, CSILK_CONN_CLOSED; lia).
  rewrite total_cons in L4, L5. cbn [rw pw] in L4, L5. rewrite S1 in *. destruct me.
  - destruct (on_close_owner_state x w1 c I Hc L1 Hs Ht ltac:(lia) ltac:(lia)) as (w' & E & I' & Hc' & P' & A' & T'). exists w'. split; [done|].
    apply (close_live x w' _ I' Hc'); [by rewrite P'| |by intros _ _ _ ?; cbn in *; lia].
    rewrite bool_decide_eq_false_2 by done. rewrite T', Hh. apply closing_live; [lia|lia|done|]. intros j g Hg. apply (L7 j g). by right.
  - unfold on_close, is_owner. rewrite Hc. cbn [mbind option_bind]. rewrite S1, S2. cbn [orb andb negb].
    assert (forall w', inv (only x) w' -> heap w' = heap w1 -> client_pool w' = client_pool w1 -> active_clients w' = active_clients w1 -> toks w' = toks w1 ->
      good <> true -> inv none w') as Hbad.
    { intros w' H' E1 E2 E3 E4 Hg. apply (close_live x w' c); rewrite ?E1, ?E2, ?E3, ?E4; try done. clear S1 S2 L1 L2 L3 L4 L5 L6 L7. count L.
      - destruct (state c =? CSILK_CONN_CLOSING); [tauto|]. destruct L6 as (B1 & B2 & B3 & _). split_and!; try done. lia.
      - intros j g Hg'. apply (L7 j g). by right. }
    destruct (malloc_ok w1) as [ok1 w2] eqn:M1. destruct (inv_malloc _ _ _ _ I M1) as (I1 & A1 & A2 & A3 & A4 & _ & _ & _ & _ & G1).
    destruct ok1; cbn [negb]; [|exists w2; split; [done|]; apply Hbad; try done; intros Hg; by discriminate (G1 Hg)].
    unfold _csilk_dispatch_try. rewrite A1, Hc. cbn [mbind option_bind]. rewrite L1. cbn [negb].
    destruct (malloc_ok w2) as [ok2 w3] eqn:M2. destruct (inv_malloc _ _ _ _ I1 M2) as (I2 & B1 & B2 & B3 & B4 & _ & _ & _ & _ & G2).
    destruct ok2; cbn [negb mbind option_bind]; [|exists w3; split; [done|]; apply Hbad; try congruence; intros Hg; by discriminate (G2 Hg)].
    unfold csilk_client_ref. rewrite B1, A1, Hc. cbn [mbind option_bind]. eexists. split; [reflexivity|].
    assert (heap w3 !! x = Some c) as Hx3 by congruence.
    apply (close_live x _ (with_refs c (ref_count c + 1))).
    + apply inv_token; [by apply (inv_put x w3 c)|done|cbn; by rewrite lookup_insert_eq].
    + cbn. by rewrite lookup_insert_eq.
    + cbn. congruence.
    + rewrite toks_add by done.
      change (toks (put w3 x (with_refs c (ref_count c + 1))) x) with (toks w3 x). rewrite B2, A2. cbn [add_token set_tokens put set_heap active_clients]. rewrite B4, A4.
      clear S1 S2 L1 L2 L3 L4 L5 L6 L7. count L.
      * destruct (state c =? CSILK_CONN_CLOSING); [|destruct L6 as (D1 & D2 & D3 & D4); split_and!; try done; [lia|intros Hg Hh'; specialize (D4 Hg Hh'); lia]]. lia.
      * intros j g [Hg|Hg]%elem_of_app; [apply (L7 j g); by right|]. apply list_elem_of_singleton in Hg. by injection Hg.
    + intros _ E. cbn in E. rewrite E in S1. done.
Qed.

Lemma close_task_ok w i x g me : inv none w -> tokens w !! i = Some (CloseTask x g) ->
  exists w', run_token (set_tokens w (delete i (tokens w))) (CloseTask x g) me = Some w' /\ inv none w'.
Proof.
  intros H Hi. destruct (take_live w i _ H Hi eq_refl) as (c & I & Hc & Hp & L). cbn [tid run_token] in *.
  set (w1 := set_tokens w (delete i (tokens w))) in *. clearbody w1. destruct (closer_open _ _ _ _ L eq_refl) as (Hs & Ht & Hh & Hcw).
  pose proof (total_nonneg rw (toks w1 x)) as N1. pose proof (total_nonneg pw (toks w1 x)) as N2. pose proof L as [L1 L2 L3 L4 L5 L6 L7].
  assert ((state c =? CSILK_CONN_CLOSING) = false /\ (state c =? CSILK_CONN_CLOSED) = false) as [S1 S2]
    by (rewrite !Z.eqb_neq; unfold CSILK_CONN_CLOSING, CSILK_CONN_CLOSED; lia).
  rewrite total_cons in L4, L5. cbn [rw pw] in L4, L5. rewrite S1 in L4.
  destruct (on_close_owner_state x w1 c I Hc L1 Hs Ht ltac:(lia) ltac:(lia)) as (w' & E & I' & Hc' & P' & A' & T').
  unfold _csilk_on_close_owner. rewrite Hc. cbn [mbind option_bind]. rewrite (L7 x g) by by left. rewrite Z.eqb_refl, S2, E. cbn [negb orb mbind option_bind].
  apply (unref_ok x w' _ true I' Hc'); [by rewrite P'|cbn; lia|].
  rewrite bool_decide_eq_false_2 by done. rewrite T', Hh. apply closing_live; [cbn; lia|cbn; lia|done|]. intros j g' Hg. apply (L7 j g'). by right.
Qed.

Lemma recycle_task_ok w i x g me : inv none w -> tokens w !! i = Some (RecycleTask x g) ->
  exists w', run_token (set_tokens w (delete i (tokens w))) (RecycleTask x g) me = Some w' /\ inv none w'.
Proof.
  intros H Hi. destruct (inv_take w i _ H Hi) as (I & [c Hc] & P). cbn [tid run_token] in *. pose proof (e_clients _ _ H _ _ (fun E => E) Hc) as Hok.
  assert (forall f, f (RecycleTask x g) = 0%nat -> total f (toks w x) = total f (toks (set_tokens w (delete i (tokens w))) x)) as ET.
  { intros f Hf. unfold total. rewrite P. cbn. by rewrite Hf. }
  assert (heap (set_tokens w (delete i (tokens w))) = heap w /\ client_pool (set_tokens w (delete i (tokens w))) = client_pool w /\
    active_clients (set_tokens w (delete i (tokens w))) = active_clients w) as (E1 & E2 & E3) by done.
  set (w1 := set_tokens w (delete i (tokens w))) in *. clearbody w1. unfold _csilk_client_recycle_dispatch_cb. rewrite E1, Hc. cbn [mbind option_bind].
  destruct (client_cases w x c Hok) as [[Hp Q]|(Hp & L & D)].
  - rewrite (q_state _ _ _ Q). change (CSILK_CONN_INIT =? CSILK_CONN_CLOSING) with false. rewrite andb_false_r. exists w1. split; [done|].
    apply (close_client x w1 I). rewrite E1, Hc. intros c' [= <-]. unfold client_ok. rewrite E2, E3. destruct (decide (x ∈ client_pool w)); [|done].
    destruct Q as [Q1 Q2 Q3 Q4 Q5 Q6 Q7 Q8]. constructor; try done. by rewrite <- !ET.
  - assert (live good (bool_decide (x ∈ active_clients w1)) (toks w1 x) c) as L'.
    { rewrite E3. destruct L as [L1 L2 L3 L4 L5 L6 L7]. constructor; rewrite <- ?ET by done; try done. intros j g' Hg. apply (L7 j g'). rewrite P. by right. }
    assert (heap w1 !! x = Some c /\ x ∉ client_pool w1) as [Hc1 Hp1] by by rewrite E1, E2.
    destruct (Z.eqb_spec (generation c) g) as [Eg|Eg]; [destruct (Z.eqb_spec (state c) CSILK_CONN_CLOSING) as [Es|Es]|]; cbn [andb].
    + pose proof (v_refs _ _ _ _ L') as V. rewrite Es in V. cbn in V. pose proof (v_pending _ _ _ _ L') as V'. pose proof (total_nonneg rw (toks w1 x)). pose proof (total_nonneg pw (toks w1 x)).
      destruct (Z.leb_spec (ref_count c) 0); cbn [andb]; [destruct (Z.leb_spec (pending_io c) 0)|].
      * apply (destroy_ok x w1 c I Hc1 Hp1 L' Es); lia.
      * exists w1. split; [done|]. apply (close_live x w1 c I Hc1 Hp1 L'). intros _ _ _ ?. lia.
      * exists w1. split; [done|]. apply (close_live x w1 c I Hc1 Hp1 L'). intros _ _ ? _. lia.
    + exists w1. split; [done|]. apply (close_live x w1 c I Hc1 Hp1 L'). by intros _ ?.
    + exists w1. split; [done|]. apply (close_live x w1 c I Hc1 Hp1 L'). intros Hg D1 D2 D3. destruct (D Hg D1 D2 D3) as [k Hk]. rewrite P in Hk.
      apply elem_of_cons in Hk as [[= -> Hk]|Hk]; [by subst g|by exists k].
Qed.

(** ** The application and the protocol *)

Lemma active_live w x : inv none w -> x ∈ active_clients w -> exists c, heap w !! x = Some c /\ x ∉ client_pool w /\
  live good true (toks w x) c /\ state c <> CSILK_CONN_CLOSING.
Proof.
  intros H Ha. destruct (e_active_heap _ _ H x Ha) as [c Hc]. exists c. split; [done|].
  destruct (client_cases w x c (e_clients _ _ H _ _ (fun E => E) Hc)) as [[_ Q]|(Hp & L & _)]; rewrite (bool_decide_eq_true_2 _ Ha) in *.
  - by apply q_active in Q.
  - split_and!; try done. pose proof (v_active _ _ _ _ L) as V. intros E. rewrite E in V. done.
Qed.

Lemma held_live w x : inv none w -> x ∈ active_clients w \/ U x ∈ tokens w -> exists c, heap w !! x = Some c /\ x ∉ client_pool w /\
  live good (bool_decide (x ∈ active_clients w)) (toks w x) c /\ 0 < ref_count c.
Proof.
  intros H [Ha|Hu].
  - destruct (active_live w x H Ha) as (c & Hc & Hp & L & Hs). exists c. rewrite bool_decide_eq_true_2 by done. split_and!; try done.
    pose proof (v_refs _ _ _ _ L) as V. rewrite (proj2 (Z.eqb_neq _ _) Hs) in V. pose proof (total_nonneg rw (toks w x)). lia.
  - apply list_elem_of_lookup_1 in Hu as [i Hi]. destruct (e_tokens _ _ H (U x) (list_elem_of_lookup_2 _ _ _ Hi)) as [c Hc]. cbn in Hc. exists c. split; [done|].
    destruct (inv_take w i _ H Hi) as (_ & _ & P). cbn [tid] in P.
    assert (0 < total rw (toks w x)) as Hr by (unfold total; rewrite P; cbn; lia).
    destruct (client_cases w x c (e_clients _ _ H _ _ (fun E => E) Hc)) as [[_ Q]|(Hp & L & _)]; [destruct (q_none _ _ _ Q); lia|].
    split_and!; try done. rewrite (v_refs _ _ _ _ L). destruct (_ =? _); lia.
Qed.

Lemma ref_ok w x : inv none w -> x ∈ active_clients w \/ U x ∈ tokens w -> exists w', run_op (ORef x) w = Some w' /\ inv none w'.
Proof.
  intros H Hh. destruct (held_live w x H Hh) as (c & Hc & Hp & L & Hr). cbn [run_op]. unfold csilk_client_ref. rewrite Hc. cbn [mbind option_bind].
  eexists. split; [reflexivity|]. apply (close_live x _ (with_refs c (ref_count c + 1))); try done.
  - apply inv_token; [apply (inv_put x w c); [by apply open_client|done]|done|cbn; by rewrite lookup_insert_eq].
  - cbn. by rewrite lookup_insert_eq.
  - rewrite toks_add by done. change (toks (put w x (with_refs c (ref_count c + 1))) x) with (toks w x). cbn [add_token set_tokens put set_heap active_clients].
    count L. intros j g [Hg|Hg]%elem_of_app; [by apply (L7 j g)|]. by apply list_elem_of_singleton in Hg.
  - intros _ _ ? _. cbn in *. lia.
Qed.

Lemma state_ok w x s : inv none w -> x ∈ active_clients w -> s ∈ [CSILK_CONN_READING; CSILK_CONN_PROCESSING; CSILK_CONN_WRITING; CSILK_CONN_STREAMING] ->
  exists w', run_op (OState x s) w = Some w' /\ inv none w'.
Proof.
  intros H Ha Hs. destruct (active_live w x H Ha) as (c & Hc & Hp & L & Hn). cbn [run_op]. rewrite Hc. cbn [mbind option_bind]. eexists. split; [reflexivity|].
  assert (1 <= csilk_conn_set_state (state c) s < 7) as Hr.
  { pose proof (v_state _ _ _ _ L). unfold CSILK_CONN_CLOSING in Hn. unfold csilk_conn_set_state. destruct (_ =? _); [lia|]. destruct (negb _); [lia|]. members Hs; vm_compute; split; congruence. }
  assert ((state c =? CSILK_CONN_CLOSING) = false /\ (csilk_conn_set_state (state c) s =? CSILK_CONN_CLOSING) = false) as [S1 S2]
    by (rewrite !Z.eqb_neq; unfold CSILK_CONN_CLOSING in *; lia).
  apply (close_live x _ (with_state c (csilk_conn_set_state (state c) s))); try done.
  - apply (inv_put x w c); [by apply open_client|done].
  - cbn. by rewrite lookup_insert_eq.
  - cbn [put set_heap active_clients]. rewrite bool_decide_eq_true_2 by done. change (toks (put w x ?d) x) with (toks w x).
    destruct L as [L1 L2 L3 L4 L5 L6 L7]. rewrite S1 in *. constructor; cbn [with_state owner_pool state ref_count pending_io handle timers generation]; rewrite ?S2; try done. lia.
  - intros _ E. cbn in E. rewrite E in S2. done.
Qed.

Lemma close_handle_live x w c : inv (only x) w -> heap w !! x = Some c -> x ∉ client_pool w -> state c <> CSILK_CONN_CLOSING ->
  live good (bool_decide (x ∈ active_clients w)) (toks w x) c -> exists w', close_handle w x = Some w' /\ inv none w'.
Proof.
  intros H Hc Hp Hs L. unfold close_handle. rewrite Hc. cbn [mbind option_bind]. destruct (is_closing (handle c)) eqn:E.
  { exists w. split; [done|]. apply (close_live x w c); try done. by intros _ ?. }
  eexists. split; [reflexivity|]. apply (close_live x _ (with_handle c HClosing)); try done.
  - apply inv_token; [by apply (inv_put x w c)|done|cbn; by rewrite lookup_insert_eq].
  - cbn. by rewrite lookup_insert_eq.
  - rewrite toks_add by done. change (toks (put w x (with_handle c HClosing)) x) with (toks w x). cbn [add_token set_tokens put set_heap active_clients].
    apply Z.eqb_neq in Hs. count L.
    + rewrite Hs in *. destruct L6 as (B1 & B2 & B3 & B4). rewrite E in B3. pose proof (total_nonneg cw (toks w x)). change (is_closing HClosing) with true. split_and!; try done; lia.
    + intros j g [Hg|Hg]%elem_of_app; [by apply (L7 j g)|]. by apply list_elem_of_singleton in Hg.
  - by intros _ ?.
Qed.

(** ** Writing *)

Definition undo (inline : bool) (w : world) (x : nat) : option world :=
  if inline then c ← heap w !! x; Some (put w x (with_primary c false)) else Some w.

Lemma undo_live inline w x c : inv (only x) w -> heap w !! x = Some c -> x ∉ client_pool w -> state c <> CSILK_CONN_CLOSING ->
  live good (bool_decide (x ∈ active_clients w)) (toks w x) c -> exists w', undo inline w x = Some w' /\ inv none w'.
Proof.
  intros H Hc Hp Hs L. unfold undo. destruct inline; [|exists w; split; [done|]; apply (close_live x w c); try done; by intros _ ?].
  rewrite Hc. cbn [mbind option_bind]. eexists. split; [reflexivity|]. apply (close_live x _ (with_primary c false)); try done; [by apply (inv_put x w c)|cbn; by rewrite lookup_insert_eq| |by intros _ ?].
  change (toks (put w x (with_primary c false)) x) with (toks w x). cbn [put set_heap active_clients]. count L.
Qed.

Lemma write_send_ok inline sent w x c : inv (only x) w -> heap w !! x = Some c -> x ∉ client_pool w -> state c <> CSILK_CONN_CLOSING ->
  live good (bool_decide (x ∈ active_clients w)) (toks w x) c ->
  exists w', (w ← csilk_client_ref w x; w ← _csilk_client_pending_io_inc w x;
    if sent : bool then Some (add_token w (Write x inline)) else
    w ← _csilk_client_pending_io_dec w true x; w ← csilk_client_unref w true x; undo inline w x) = Some w' /\ inv none w'.
Proof.
  intros H Hc Hp Hs L. pose proof (total_nonneg rw (toks w x)) as N1. pose proof (total_nonneg pw (toks w x)) as N2.
  pose proof (v_refs _ _ _ _ L) as V. rewrite (proj2 (Z.eqb_neq _ _) Hs) in V. pose proof (v_pending _ _ _ _ L) as V'.
  unfold csilk_client_ref, _csilk_client_pending_io_inc. rewrite Hc. cbn [mbind option_bind put set_heap heap]. rewrite lookup_insert_eq. cbn [mbind option_bind].
  set (c1 := with_pending (with_refs c (ref_count c + 1)) (pending_io (with_refs c (ref_count c + 1)) + 1)).
  change (pending_io (with_refs c (ref_count c + 1))) with (pending_io c) in c1.
  assert (put (put w x (with_refs c (ref_count c + 1))) x c1 = put w x c1) as -> by (unfold put, set_heap; cbn; by rewrite insert_insert_eq).
  assert (heap (put w x c1) !! x = Some c1) as Hc1 by (cbn; by rewrite lookup_insert_eq). pose proof (inv_put x w c c1 H Hc) as I1.
  destruct sent.
  - eexists. split; [reflexivity|]. apply (close_live x _ c1); try done; [apply inv_token; [done|done|by rewrite Hc1]| |by intros _ ?].
    rewrite toks_add by done. change (toks (put w x c1) x) with (toks w x). cbn [add_token set_tokens put set_heap active_clients]. unfold c1. count L.
    intros j g [Hg|Hg]%elem_of_app; [by apply (L7 j g)|]. by apply list_elem_of_singleton in Hg.
  - rewrite (dec_keep x _ c1 Hc1) by (cbn; first [lia|apply (v_owner _ _ _ _ L)]). cbn [mbind option_bind].
    unfold csilk_client_unref. cbn [put set_heap heap]. rewrite lookup_insert_eq. cbn [mbind option_bind with_pending ref_count c1 with_refs pending_io].
    rewrite (proj2 (Z.leb_gt _ _)), (proj2 (Z.eqb_neq (ref_count c + 1 - 1) 0)) by lia. cbn [mbind option_bind].
    match goal with |- exists w', undo _ ?v _ = _ /\ _ => set (w3 := v) end.
    assert (w3 = put w x c) as ->.
    { unfold w3, put, set_heap. cbn. rewrite !insert_insert_eq. f_equal. f_equal. unfold with_refs, with_pending. cbn. rewrite !Z.add_simpl_r. by destruct c. }
    apply (undo_live inline _ x c); try done; [by apply (inv_put x w c)|cbn; by rewrite lookup_insert_eq].
Qed.

Lemma write_ok w x sent : inv none w -> x ∈ active_clients w -> exists w', run_op (OWrite x sent) w = Some w' /\ inv none w'.
Proof.
  intros H Ha. destruct (active_live w x H Ha) as (c & Hc & Hp & L & Hs). cbn [run_op]. unfold csilk_client_write. rewrite Hc. cbn [mbind option_bind].
  pose proof (v_state _ _ _ _ L) as Hst. rewrite (proj2 (Z.eqb_neq _ _) Hs), (proj2 (Z.eqb_neq (state c) CSILK_CONN_CLOSED)) by (unfold CSILK_CONN_CLOSED; lia). cbn [orb].
  rewrite <- (bool_decide_eq_true_2 _ Ha) in L. apply (open_client x) in H.
  set (inl := negb (primary_write_in_flight c)). set (c1 := if inl then with_primary c true else c).
  destruct (if inl then _ else malloc_ok w) as [ok w1] eqn:E.
  assert (inv (only x) w1 /\ heap w1 !! x = Some c1 /\ client_pool w1 = client_pool w /\ active_clients w1 = active_clients w /\ toks w1 x = toks w x) as (I1 & Hc1 & E1 & E2 & E3).
  { unfold c1. destruct inl.
    - injection E as <- <-. split; [by apply (inv_put x w c)|]. cbn. by rewrite lookup_insert_eq.
    - destruct (inv_malloc _ _ _ _ H E) as (I & A1 & A2 & A3 & A4 & _). rewrite A1, A2. by split_and!. }
  assert (live good (bool_decide (x ∈ active_clients w1)) (toks w1 x) c1 /\ state c1 <> CSILK_CONN_CLOSING) as [L1 Hs1].
  { rewrite E2, E3. unfold c1. destruct inl; [|done]. split; [|done]. count L. }
  rewrite <- E1 in Hp. clearbody c1. destruct ok; cbn [negb]; [|exists w1; split; [done|]; apply (close_live x w1 c1); try done; by intros _ ?].
  destruct (malloc_ok w1) as [ok2 w2] eqn:M2. destruct (inv_malloc _ _ _ _ I1 M2) as (I2 & B1 & B2 & B3 & B4 & _).
  rewrite <- B1 in Hc1. rewrite <- B3 in Hp. rewrite <- B4, <- B2 in L1. destruct ok2; cbn [negb].
  - by apply (write_send_ok inl sent w2 x c1).
  - by apply (undo_live inl w2 x c1).
Qed.

(** ** Accepting *)

(** A client as the pool hands it out. *)
Record handed_out (w : world) (x : nat) (c : csilk_client_t) : Prop := {
  h_heap : heap w !! x = Some c;
  h_pool : x ∉ client_pool w;
  h_active : x ∉ active_clients w;
  h_state : state c = CSILK_CONN_INIT;
  h_counts : ref_count c = 0 /\ pending_io c = 0;
  h_handle : handle c <> HInit;
  h_timers : HInit ∉ timers c /\ length (timers c) = 4%nat;
  h_none : total rw (toks w x) = 0 /\ total pw (toks w x) = 0 /\ total cw (toks w x) = 0;
}.

Lemma no_tokens w x : inv none w -> heap w !! x = None -> toks w x = [].
Proof.
  intros H Hx. unfold toks. assert (forall t, t ∈ tokens w -> tid t <> x) as Ht.
  { intros t Ht E. destruct (e_tokens _ _ H t Ht) as [c Hc]. congruence. }
  induction (tokens w) as [|t l IH]; [done|]. cbn. rewrite (proj2 (Nat.eqb_neq _ _)) by (apply Ht; by left). apply IH. intros t' Ht'. apply Ht. by right.
Qed.

Lemma pool_pop_ok w x p c g : inv none w -> client_pool w = x :: p -> heap w !! x = Some c -> pooled (bool_decide (x ∈ active_clients w)) (toks w x) c ->
  let c' := mk_client g CSILK_CONN_INIT 0 0 false (owner_pool c) (handle c) (timers c) in
  let w' := mk_world (<[x := c']> (heap w)) (Nat.max (fresh w) (S x)) p (active_clients w) (wp_active w + 1) (srv_active w + 1) (max_connections w) (tokens w) (answers w) in
  inv (only x) w' /\ handed_out w' x c'.
Proof.
  intros H E Hx Q c' w'. pose proof (e_pool _ _ H) as Hn. rewrite E in Hn. apply NoDup_cons in Hn as [Hn1 Hn2].
  pose proof (inv_put x w c c' (open_client x w H) Hx) as [H1 H2 H3 H4 H5 H6 H7 H8 H9 H10]. cbn [put set_heap heap client_pool active_clients tokens fresh wp_active srv_active max_connections answers] in *.
  split.
  - constructor; cbn [w' heap client_pool active_clients tokens fresh wp_active srv_active max_connections answers]; try done.
    + intros j Hj. apply H2. rewrite E. by right.
    + intros j Hj. apply H6 in Hj. lia.
    + rewrite E in H7. cbn [length] in H7. lia.
    + intros j c0 Hj Hc. specialize (H10 j c0 Hj Hc). unfold client_ok in *. cbn [client_pool active_clients put set_heap w'] in *. rewrite E in H10.
      assert (j ∈ p <-> j ∈ x :: p) as Hjp by (rewrite elem_of_cons; split; [by right|intros [->|]; [by destruct Hj|done]]).
      by rewrite (decide_ext _ _ _ _ Hjp).
  - destruct Q as [Q1 Q2 Q3 Q4 Q5 Q6 Q7 Q8]. constructor; cbn [w' c' heap client_pool active_clients state ref_count pending_io handle timers]; try done.
    + apply lookup_insert_eq.
    + by apply bool_decide_eq_false in Q7.
Qed.

Lemma pool_new_ok w a c : inv none w -> client_pool w = [] -> srv_active w < max -> (good = true -> Forall (fun b : bool => b = true) a) ->
  state c = CSILK_CONN_INIT -> ref_count c = 0 -> pending_io c = 0 -> handle c = HZero -> timers c = [HZero; HZero; HZero; HZero] ->
  let w' := mk_world (<[fresh w := c]> (heap w)) (Nat.max (fresh w) (S (fresh w))) [] (active_clients w) (wp_active w + 1) (srv_active w + 1) (max_connections w) (tokens w) a in
  inv (only (fresh w)) w' /\ handed_out w' (fresh w) c.
Proof.
  intros H E Hm Ha C1 C2 C3 C4 C5 w'. assert (heap w !! fresh w = None) as Hf.
  { apply eq_None_not_Some. intros Hs%(e_fresh _ _ H). lia. }
  pose proof (no_tokens w _ H Hf) as Ht.
  assert (forall j, is_Some (heap w !! j) -> is_Some (<[fresh w := c]> (heap w) !! j)) as Hs.
  { intros j [d Hd]. rewrite lookup_insert_ne by congruence. by eexists. }
  destruct H as [H1 H2 H3 H4 H5 H6 H7 H8 H9 H10]. rewrite E in H7. cbn [length] in H7. split.
  - constructor; cbn [w' heap client_pool active_clients tokens fresh wp_active srv_active max_connections answers]; try done.
    + constructor.
    + intros j Hj. by apply elem_of_nil in Hj.
    + intros j Hj. by apply Hs, H4.
    + intros t Hj. by apply Hs, H5.
    + intros j [d Hd]. destruct (decide (j = fresh w)) as [->|]; [lia|]. rewrite lookup_insert_ne in Hd by done. assert (j < fresh w)%nat by (apply H6; by eexists). lia.
    + rewrite map_size_insert_None by done. cbn [length]. lia.
    + rewrite map_size_insert_None by done. lia.
    + intros j d Hj Hc. rewrite lookup_insert_ne in Hc by (intros Ej; by apply Hj). specialize (H10 j d (fun F => F) Hc). unfold client_ok in *. rewrite E in H10. done.
  - constructor; cbn [w' heap client_pool active_clients]; try done.
    + apply lookup_insert_eq.
    + apply not_elem_of_nil.
    + intros Hin. destruct (H4 _ Hin) as [d Hd]. congruence.
    + by rewrite C4.
    + rewrite C5. split; [by rewrite !not_elem_of_cons; repeat split; try apply not_elem_of_nil|done].
    + unfold toks in *. cbn. by rewrite Ht.
Qed.

Lemma pool_get_ok w : inv none w -> srv_active w < max ->
  exists r w2, pool_get (set_counts w (wp_active w) (srv_active w + 1)) = Some (r, w2) /\
    match r with
    | None => inv none (_csilk_server_release_connection w2)
    | Some x => inv (only x) w2 /\ exists c, handed_out w2 x c
    end.
Proof.
  intros H Hm. unfold pool_get. cbn [set_counts client_pool heap]. destruct (client_pool w) as [|x p] eqn:E.
  - unfold malloc_ok. cbn [set_counts answers].
    assert (inv none (_csilk_server_release_connection (set_counts w (wp_active w) (srv_active w + 1)))) as Hb.
    { destruct H as [H1 H2 H3 H4 H5 H6 H7 H8 H9 H10]. constructor; try done. cbn. lia. }
    destruct (answers w) as [|[] l] eqn:Ea; cbn [mbind option_bind]; eexists _, _; (split; [reflexivity|]).
    + destruct (pool_new_ok w [] (mk_client 1 CSILK_CONN_INIT 0 0 false false HZero [HZero; HZero; HZero; HZero]) H E Hm ltac:(by constructor) eq_refl eq_refl eq_refl eq_refl eq_refl) as [G1 G2].
      split; [|eexists]; unfold set_counts, put, set_heap; cbn [heap fresh client_pool active_clients wp_active srv_active max_connections tokens answers]; rewrite ?E, ?Ea; [exact G1|exact G2].
    + assert (good = true -> Forall (fun b : bool => b = true) l) as Hl by (intros Hg; apply (e_good _ _ H) in Hg; rewrite Ea in Hg; by apply Forall_cons in Hg as [_ ?]).
      destruct (pool_new_ok w l (mk_client 1 CSILK_CONN_INIT 0 0 false false HZero [HZero; HZero; HZero; HZero]) H E Hm Hl eq_refl eq_refl eq_refl eq_refl eq_refl) as [G1 G2].
      split; [|eexists]; unfold set_answers, set_counts, put, set_heap; cbn [heap fresh client_pool active_clients wp_active srv_active max_connections tokens answers]; rewrite ?E; [exact G1|exact G2].
    + destruct Hb as [H1 H2 H3 H4 H5 H6 H7 H8 H9 H10]. constructor; try done. cbn. intros Hg. apply H9 in Hg. cbn in Hg. rewrite Ea in Hg. by apply Forall_cons in Hg as [_ ?].
  - destruct (e_pool_heap _ _ H x) as [c Hc]; [rewrite E; by left|]. rewrite Hc. cbn [mbind option_bind].
    pose proof (e_clients _ _ H _ _ (fun F => F) Hc) as Q. unfold client_ok in Q. rewrite decide_True in Q by (rewrite E; by left).
    rewrite (q_state _ _ _ Q). change (csilk_conn_set_state CSILK_CONN_INIT CSILK_CONN_INIT) with CSILK_CONN_INIT.
    eexists _, _. split; [reflexivity|]. destruct (pool_pop_ok w x p c (if wrap64 (generation c + 1) =? 0 then 1 else wrap64 (generation c + 1)) H E Hc Q) as [G1 G2]. split; [exact G1|by eexists].
Qed.

Lemma put_put w x a b : put (put w x a) x b = put w x b.
Proof. unfold put, set_heap. cbn. by rewrite insert_insert_eq. Qed.
Lemma put_list_add w x c : put (client_list_add w x) x c = client_list_add (put w x c) x.
Proof. done. Qed.
Lemma put_lookup w x c : heap (put w x c) !! x = Some c.
Proof. apply lookup_insert_eq. Qed.

Lemma init_timers l : HInit ∉ l -> mapM init_handle l = Some (replicate (length l) HInit).
Proof.
  induction l as [|h l IH]; intros Hl; [done|]. apply not_elem_of_cons in Hl as [Hh Hl]. 
  change (mapM init_handle (h :: l)) with (y ← init_handle h; k ← mapM init_handle l; Some (y :: k)). rewrite IH by done. by destruct h.
Qed.

(** What is left of [on_new_connection] once the handle is initialised. *)
Lemma accepted_ok (tls : option bool) read_start w x c : inv (only x) w -> handed_out w x c -> owner_pool c = true ->
  exists w', (let w := client_list_add (put w x (with_handle c HInit)) x in
    c ← heap w !! x;
    let w := put w x (with_state c (csilk_conn_set_state (state c) CSILK_CONN_ACCEPTED)) in
    w ← csilk_client_ref w x;
    c ← heap w !! x;
    let w := match tls with Some _ => put w x (with_state c (csilk_conn_set_state (state c) CSILK_CONN_TLS)) | None => w end in
    c ← heap w !! x;
    ts ← mapM init_handle (timers c);
    let w := put w x (with_timers c ts) in
    c ← heap w !! x;
    let w := match tls with None => put w x (with_state c (csilk_conn_set_state (state c) CSILK_CONN_READING)) | Some _ => w end in
    if read_start : bool then Some w else close_handle w x) = Some w' /\ inv none w'.
Proof.
  intros H [Hx Hp Ha Hs [Hr Hi] Hh [Ht Hl] (N1 & N2 & N3)] Ho. cbv zeta.
  set (cf := mk_client (generation c) (match tls with Some _ => CSILK_CONN_TLS | None => CSILK_CONN_READING end) 1 0 (primary_write_in_flight c) true HInit [HInit; HInit; HInit; HInit]).
  assert (inv (only x) (client_list_add (put w x cf) x) /\ heap (client_list_add (put w x cf) x) !! x = Some cf) as [I Hc].
  { split; [|apply put_lookup]. apply inv_active.
    - by apply (inv_put x w c).
    - by rewrite put_lookup.
    - constructor; [done|apply (e_active _ _ H)].
    - intros j Hj. rewrite elem_of_cons. cbn. tauto. }
  assert (live good (bool_decide (x ∈ active_clients (client_list_add (put w x cf) x))) (toks (client_list_add (put w x cf) x) x) cf) as L.
  { rewrite bool_decide_eq_true_2 by by left. change (toks (client_list_add (put w x cf) x) x) with (toks w x).
    assert ((state cf =? CSILK_CONN_CLOSING) = false) as S by by destruct tls.
    constructor; rewrite ?S; cbn [cf owner_pool ref_count pending_io handle timers generation]; try done; try lia.
    - cbn [cf state]. unfold CSILK_CONN_TLS, CSILK_CONN_READING. destruct tls; lia.
    - split_and!; [done|done|rewrite N3; done|done].
    - intros j g Hg. exfalso. assert (1 <= total rw (toks w x)) as N; [|lia]. clear -Hg. induction (toks w x) as [|t l IH]; [by apply elem_of_nil in Hg|].
      rewrite total_cons. pose proof (total_nonneg rw l). apply elem_of_cons in Hg as [<-|Hg]; [cbn; lia|]. specialize (IH Hg). lia. }
  assert (state cf <> CSILK_CONN_CLOSING) as Hn by by destruct tls.
  assert (exists w', (if read_start then Some (client_list_add (put w x cf) x) else close_handle (client_list_add (put w x cf) x) x) = Some w' /\ inv none w') as (w' & E & G).
  { destruct read_start; [eexists; split; [reflexivity|]; apply (close_live x _ cf); try done; by intros _ ?|by apply (close_handle_live x _ cf)]. }
  exists w'. split; [|done]. rewrite <- E. clear E G I L Hn. cbn [client_list_add set_active heap]. rewrite put_lookup. cbn [mbind option_bind].
  unfold csilk_client_ref. rewrite put_lookup. cbn [mbind option_bind]. rewrite put_put, put_lookup. cbn [mbind option_bind].
  destruct c as [g st r p pr ow h ts]. cbn [with_state with_handle with_refs with_timers state ref_count pending_io handle timers generation owner_pool primary_write_in_flight] in *. subst st r p ow.
  destruct tls; rewrite ?put_put, !put_lookup; cbn [mbind option_bind with_state with_handle with_refs with_timers timers state]; rewrite (init_timers ts Ht), Hl; cbn [mbind option_bind replicate];
    rewrite ?put_put, put_lookup; cbn [mbind option_bind]; rewrite ?put_put; change (set_active ?v (x :: active_clients ?v)) with (client_list_add v x); rewrite ?put_list_add, ?put_put; reflexivity.
Qed.

(** What is left of it when accepting or the set-up of TLS fails. *)
Lemma failed_accept_runs w x c : handed_out w x c ->
  is_Some (pool_put (_csilk_server_release_connection (client_list_remove (client_list_add (put w x (with_handle c HInit)) x) x)) x).
Proof. intros H. unfold pool_put. cbn [_csilk_server_release_connection client_list_remove client_list_add set_counts set_active heap].
  rewrite put_lookup. cbn [mbind option_bind]. by destruct (_ <? _).
Qed.

Lemma failed_tls_runs w x c :
  is_Some (let w := client_list_add (put w x (with_handle c HInit)) x in
    c ← heap w !! x;
    let w := put w x (with_state c (csilk_conn_set_state (state c) CSILK_CONN_ACCEPTED)) in
    w ← csilk_client_ref w x;
    c ← heap w !! x;
    let w := put w x (with_state c (csilk_conn_set_state (state c) CSILK_CONN_TLS)) in
    c ← heap w !! x; Some (add_token (put w x (with_handle c HClosing)) (HandleClosed x))).
Proof.
  cbv zeta. cbn [client_list_add set_active heap]. rewrite put_lookup. cbn [mbind option_bind]. unfold csilk_client_ref.
  rewrite !put_lookup. cbn [mbind option_bind]. rewrite !put_lookup. cbn [mbind option_bind]. by rewrite !put_lookup.
Qed.

Lemma accept_ok w tcp_init accept tls read_start : inv none w ->
  exists w', run_op (OAccept tcp_init accept tls read_start) w = Some w' /\ (accept = true /\ tls <> Some false -> inv none w').
Proof.
  intros H. cbn [run_op]. unfold on_new_connection, _csilk_server_try_acquire_connection.
  destruct (e_max _ _ H) as [Em Es]. rewrite Em, (proj2 (Z.ltb_lt 0 max)) by lia. cbn [andb].
  destruct (Z.leb_spec max (srv_active w)) as [|Hm]; cbn [negb]; [by exists w|].
  destruct (pool_get_ok w H Hm) as (r & w2 & E & G). rewrite E. cbn [mbind option_bind]. destruct r as [x|]; [|by eexists].
  destruct G as (I & c & HO). pose proof HO as [Hx Hp Ha Hs [Hr Hi] Hh Ht HN]. rewrite Hx. cbn [mbind option_bind].
  set (c1 := mk_client _ _ _ _ _ true _ _).
  assert (inv (only x) (put w2 x c1) /\ handed_out (put w2 x c1) x c1) as [I1 HO1].
  { split; [by apply (inv_put x w2 c)|]. by constructor; try done; apply put_lookup. }
  destruct tcp_init; cbn [negb].
  - rewrite put_lookup. cbn [mbind option_bind]. assert (init_handle (handle c1) = Some HInit) as Ei by (cbn; by destruct (handle c)). rewrite Ei. cbn [mbind option_bind].
    destruct accept.
    + destruct (decide (tls = Some false)) as [-> | Ht'].
      * destruct (failed_tls_runs (put w2 x c1) x c1) as [w' E']. exists w'. split; [exact E'|naive_solver].
      * rewrite put_put. destruct (accepted_ok tls read_start (put w2 x c1) x c1 I1 HO1 eq_refl) as (w' & E' & G'). rewrite put_put in E'.
        exists w'. split; [|done]. rewrite <- E'. by destruct tls as [[]|].
    + destruct (failed_accept_runs (put w2 x c1) x c1 HO1) as [w' E']. exists w'. split; [exact E'|naive_solver].
  - destruct HO1 as [B1 B2 B3 B4 B5 B6 B7 B8]. destruct (pool_put_ok x (put w2 x c1) c1) as (w' & E' & G'); try done; [by rewrite B4|by exists w'].
Qed.

Lemma op_ok o w : inv none w -> legal o w -> exists w', run_op o w = Some w' /\ (established o -> inv none w').
Proof.
  intros H Hl. destruct o as [t ac tl rs|x st|x|x sent|x|i me]; cbn [legal] in Hl; [by apply accept_ok|..].
  all: match goal with |- exists w', ?r = Some w' /\ _ => enough (exists w', r = Some w' /\ inv none w') by naive_solver end.
  - destruct Hl. by apply state_ok.
  - by apply ref_ok.
  - by apply write_ok.
  - destruct (active_live w x H Hl) as (c & Hc & Hp & L & Hs). rewrite <- (bool_decide_eq_true_2 _ Hl) in L. by apply (close_handle_live x w c (open_client x w H)).
  - destruct Hl as [t Ht]. cbn [run_op]. rewrite Ht. cbn [mbind option_bind].
    destruct t; [by apply user_unref_ok|by apply write_done_ok|by apply timer_closed_ok|by apply handle_closed_ok|by apply close_task_ok|by apply recycle_task_ok].
Qed.

Lemma client_reachable_inv a w : (good = true -> Forall (fun b : bool => b = true) a) -> reachable max a w -> inv none w.
Proof.
  intros Ha. induction 1 as [|o w w' _ IH Hl He E].
  - constructor; cbn [new_world client_pool active_clients tokens heap fresh wp_active srv_active max_connections answers]; try apply NoDup_nil_2;
      try (intros j Hj; by apply elem_of_nil in Hj); try done.
    + intros j [c Hc]. by rewrite lookup_empty in Hc.
    + rewrite map_size_empty. split; [done|]. lia.
  - destruct (op_ok o w IH Hl) as (w2 & E2 & H2). rewrite E2 in E. injection E as <-. auto.
Qed.

(** The clients in use are those the counters count. *)
Lemma settled w : good = true -> inv none w -> tokens w = [] ->
  forall x c, heap w !! x = Some c -> x ∉ client_pool w -> x ∈ active_clients w /\ handle c = HInit.
Proof.
  intros Hg H Ht x c Hc Hp. assert (toks w x = []) as E by (unfold toks; by rewrite Ht).
  destruct (client_cases w x c (e_clients _ _ H _ _ (fun F => F) Hc)) as [[? _]|(_ & [L1 L2 L3 L4 L5 L6 L7] & D)]; [done|]. rewrite E in *.
  change (total rw []) with 0 in *. change (total pw []) with 0 in *. change (total cw []) with 0 in *.
  destruct (Z.eqb_spec (state c) CSILK_CONN_CLOSING) as [Es|Es].
  - destruct (D Hg Es L4 L5) as [k Hk]. by apply elem_of_nil in Hk.
  - cbn [negb] in L3. apply bool_decide_eq_true in L3. split; [done|]. destruct L6 as (_ & Hz & _ & G). specialize (G Hg). unfold is_closing in G.
    destruct (handle c); [done|done|discriminate (G eq_refl)].
Qed.

Lemma active_not_pooled w x : inv none w -> x ∈ active_clients w -> x ∉ client_pool w.
Proof. intros H Ha. by destruct (active_live w x H Ha) as (c & _ & Hp & _). Qed.

Lemma settled_count w : good = true -> inv none w -> tokens w = [] -> srv_active w = Z.of_nat (length (active_clients w)).
Proof.
  intros Hg H Ht. destruct (e_counts _ _ H) as [_ ->].
  assert (dom (heap w) =@{gset nat} list_to_set (client_pool w ++ active_clients w)) as E.
  { apply set_eq. intros x. rewrite elem_of_dom, elem_of_list_to_set, elem_of_app. split.
    - intros [c Hc]. destruct (decide (x ∈ client_pool w)); [by left|right]. by apply (settled w Hg H Ht x c).
    - intros [Hx|Hx]; [by apply (e_pool_heap _ _ H)|by apply (e_active_heap _ _ H)]. }
  rewrite <- size_dom, E, size_list_to_set, length_app; [lia|]. apply NoDup_app. split_and!; [apply (e_pool _ _ H)| |apply (e_active _ _ H)].
  intros x Hx Ha. by apply (active_not_pooled w x H Ha).
Qed.
End invariant.

(** C3: the life of connections.  On a worker whose connection limit is at most
    the size of its pool, after any accepts, requests, writes, closes and
    references taken and dropped on any thread, with callbacks and tasks run in
    any order, any allocation, initialisation of a handle, write or start of
    reading failing, but [csilk_io_accept] and the set-up of TLS having
    succeeded so far ([established]; [failed_accept_keeps_handle] and
    [failed_tls_closes_zero_timers] show what becomes of a worker otherwise):
    every further operation, a failing accept included, is free of undefined
    behaviour (no client is used after it was freed, no handle initialised or
    closed at the wrong time); a client somebody holds a reference to is neither
    freed nor in the pool; no client is pooled twice or both pooled and active;
    and the connection counters are exact and within the limit.  If no
    allocation failed, then once nothing is outstanding every client whose
    connection was closed is back in the pool. *)
Theorem client_lifetime (max : Z) (a : list bool) (w : world) :
  0 < max <= CSILK_CLIENT_POOL_SIZE -> reachable max a w ->
  (forall o, legal o w -> is_Some (run_op o w)) /\
  (forall x, U x ∈ tokens w -> exists c, heap w !! x = Some c /\ x ∉ client_pool w /\ 0 < ref_count c) /\
  NoDup (client_pool w) /\ (forall x, x ∈ active_clients w -> x ∉ client_pool w) /\
  (wp_active w = srv_active w /\ srv_active w = Z.of_nat (size (heap w)) - Z.of_nat (length (client_pool w)) /\ srv_active w <= max) /\
  (Forall (fun b : bool => b = true) a -> tokens w = [] ->
    srv_active w = Z.of_nat (length (active_clients w)) /\
    forall x c, heap w !! x = Some c -> x ∈ client_pool w \/ (x ∈ active_clients w /\ handle c = HInit)).
Proof.
  intros Hm Hr. assert (inv false max none w) as H by (by apply (client_reachable_inv false max Hm a)).
  split; [intros o Ho; destruct (op_ok false max Hm o w H Ho) as (w' & E & _); by eexists|].
  split; [intros x Hx; destruct (held_live false max Hm w x H (or_intror Hx)) as (c & ? & ? & _ & ?); by exists c|].
  split; [apply (e_pool _ _ _ _ H)|]. split; [intros x Hx; by eapply active_not_pooled|].
  split; [destruct (e_counts _ _ _ _ H) as [? ?]; destruct (e_max _ _ _ _ H) as [_ ?]; split_and!; try done; lia|].
  intros Ha Ht. assert (inv true max none w) as G by (by apply (client_reachable_inv true max Hm a)). split; [by eapply settled_count|].
  intros x c Hc. destruct (decide (x ∈ client_pool w)); [by left|right]. by eapply settled.
Qed.

Definition run_ops (l : list op) (w : world) : option world := foldl (fun r o => w ← r; run_op o w) (Some w) l.

Definition demo_run : list op := [OAccept true true None true; OClose 0; ORun 0 true; ORun 0 true; ORun 0 true; ORun 0 true; ORun 0 true].

Definition demo_world (k : nat) : world := default (new_world 4 []) (run_ops (take k demo_run) (new_world 4 [])).

Lemma demo_reachable : reachable 4 [] (demo_world 7).
Proof.
  assert (forall k o, reachable 4 [] (demo_world k) -> legal o (demo_world k) -> established o -> run_op o (demo_world k) = Some (demo_world (S k)) -> reachable 4 [] (demo_world (S k))) as step
    by (intros k o; apply R_op).
  do 5 (apply (step _ (ORun 0 true)); [|by eexists|done|by vm_compute]).
  apply (step _ (OClose 0)); [|by left|done|by vm_compute]. apply (step _ (OAccept true true None true)); [apply R_new|done|done|by vm_compute].
Qed.

Lemma client_lifetime_witness :
  srv_active (demo_world 7) = Z.of_nat (length (active_clients (demo_world 7))) /\
  (forall x c, heap (demo_world 7) !! x = Some c -> x ∈ client_pool (demo_world 7) \/ (x ∈ active_clients (demo_world 7) /\ handle c = HInit)).
Proof. apply (client_lifetime 4 [] (demo_world 7)); [unfold CSILK_CLIENT_POOL_SIZE; lia|apply demo_reachable|constructor|by vm_compute]. Defined.

(** ** Where the life of a connection goes wrong *)

(** The last reference is dropped on another thread, which queues a task
    without a reference; the timers close first, the pool is full, the client
    is freed, and the task then reads it. *)
Definition fill_pool : list op :=
  replicate 33 (OAccept true true None true) ++ map OClose (seq 0 32) ++ replicate (32 * 5) (ORun 0 true).

Example recycle_task_after_free :
  (w ← run_ops (fill_pool ++ [ORef 32; OClose 32; ORun 1 true; ORun 0 false; ORun 0 true; ORun 0 true; ORun 0 true; ORun 0 true]) (new_world 0 []);
   Some (heap w !! 32%nat, tokens w, run_op (ORun 0 true) w)) = Some (None, [RecycleTask 32 1], None).
Proof. by vm_compute. Qed.

(** The memory for that task is not available: nobody recycles the client. *)
Example recycle_lost :
  (w ← run_ops [OAccept true true None true; ORef 0; OClose 0; ORun 1 true; ORun 1 true; ORun 1 true; ORun 1 true; ORun 1 true; ORun 0 false] (new_world 4 [true; false]);
   Some (tokens w, active_clients w, client_pool w, srv_active w)) = Some ([], [], [], 1).
Proof. by vm_compute. Qed.

(** When accepting fails the initialised handle is not closed, and the next
    connection initialises it again. *)
Example failed_accept_keeps_handle :
  (w ← run_op (OAccept true false None true) (new_world 4 []); Some (client_pool w, run_op (OAccept true true None true) w)) = Some ([0%nat], None).
Proof. by vm_compute. Qed.

(** When the set-up of TLS fails the timers of a new client are closed
    although they were never initialised. *)
Example failed_tls_closes_zero_timers :
  (w ← run_op (OAccept true true (Some false) true) (new_world 4 []); run_op (ORun 0 true) w) = None.
Proof. by vm_compute. Qed.
