(* ===== verification/Http1Serialize.v ===== *)
(** * Serialising HTTP/1.1 responses

    Models src/src/core/http/http1_serialize.c.  A buffer under construction is
    the list of bytes written so far together with its capacity: [put] has no
    result when a write would leave the buffer, so a theorem that a serialiser
    answers [Some] is a bounds theorem.  [malloc]'s answer, llhttp's
    keep-alive verdict and the state of the connection are arguments.

    The second half is a reader of HTTP/1.1 messages in the style of RFC 9112
    (status line, fields, framing by chunks or by Content-Length), written
    without reference to the serialiser.  It is what the round-trip theorems of
    this file and of Response.v are stated with. *)

From stdpp Require Import gmap.
From S2P Require Import Prelude Arena Allocator HeaderId HeaderMap Connection.

#[local] Open Scope Z_scope.

Definition LINE_FEED : ascii := "010"%char.
Definition CRLF : bytes := [CR; LINE_FEED].

(** ** Response and connection *)

Record response_t := mk_response {
  status : Z;
  headers : csilk_header_map_t;
  body : option bytes;
  body_len : Z;
}.

Record client_t := mk_http_client {
  cl_state : Z;
  http2 : bool;
  ssl : bool;
  should_keep_alive : bool;
}.

Record csilk_ctx_t := mk_http_ctx {
  response : response_t;
  is_websocket : bool;
  is_sse : bool;
  is_async : bool;
  file_fd : Z;
  file_size : Z;
  client : option client_t;
}.

(** What a call does to the connection, in order. [Send]: through the TLS
    layer if the connection has one; [RawSend]: to the socket of a connection
    with TLS, past that layer. *)
Inductive effect :=
  | StopRequestTimer
  | Send (data : bytes)
  | RawSend (data : bytes)
  | H2SendResponse
  | PostResponse (keep_alive : bool).

(** ** Status text and integers *)

Definition get_status_text (status : Z) : bytes :=
  if status =? 101 then lit "Switching Protocols"
  else if status =? 200 then lit "OK"
  else if status =? 201 then lit "Created"
  else if status =? 204 then lit "No Content"
  else if status =? 400 then lit "Bad Request"
  else if status =? 401 then lit "Unauthorized"
  else if status =? 403 then lit "Forbidden"
  else if status =? 404 then lit "Not Found"
  else if status =? 500 then lit "Internal Server Error"
  else lit "OK".

(** The digits of [val], least significant first, into [tmp[24]]. *)
Fixpoint digit_loop (room : nat) (val : Z) (tmp : bytes) : option bytes :=
  if val >? 0 then
    match room with
    | O => None
    | S room' => digit_loop room' (val / 10) (tmp ++ [chr (48 + val `mod` 10)])
    end
  else Some tmp.

Definition fast_uint64_to_str (val : Z) : option bytes :=
  if val =? 0 then Some (lit "0") else tmp ← digit_loop 24 val []; Some (rev tmp).

(** ** Writing *)

(** Append [l] to the [length buf] bytes written so far. *)
Definition put (cap : Z) (buf l : bytes) : option bytes :=
  if Z.of_nat (length buf + length l) <=? cap then Some (buf ++ l) else None.

(** Copy [n] bytes from the object [src]. *)
Definition put_from (cap : Z) (buf src : bytes) (n : Z) : option bytes :=
  if n <=? Z.of_nat (length src) then put cap buf (take (Z.to_nat n) src) else None.

Definition put_status_line (cap : Z) (status : Z) (status_text : bytes) : option bytes :=
  if status =? 200 then put cap [] (lit "HTTP/1.1 200 OK" ++ CRLF)
  else if status =? 404 then put cap [] (lit "HTTP/1.1 404 Not Found" ++ CRLF)
  else if status =? 500 then put cap [] (lit "HTTP/1.1 500 Internal Server Error" ++ CRLF)
  else
    buf ← put cap [] (lit "HTTP/1.1 ");
    buf ← put cap buf [chr (48 + Z.quot status 100)];
    buf ← put cap buf [chr (48 + Z.rem (Z.quot status 10) 10)];
    buf ← put cap buf [chr (48 + Z.rem status 10)];
    buf ← put cap buf [" "%char];
    buf ← put cap buf status_text;
    put cap buf CRLF.

Definition fast_serialize_status_and_control (cap : Z) (status : Z) (status_text : bytes)
    (use_chunked : bool) (transfer_encoding : bytes) (body_len : Z) (connection_val : bytes) : option bytes :=
  if status =? 101 then put cap [] (lit "HTTP/1.1 101 Switching Protocols" ++ CRLF) else
  buf ← put_status_line cap status status_text;
  buf ← (if use_chunked then put cap buf transfer_encoding
         else buf ← put cap buf (lit "Content-Length: ");
              digits ← fast_uint64_to_str body_len;
              buf ← put cap buf digits;
              put cap buf CRLF);
  buf ← put cap buf (lit "Connection: ");
  buf ← put cap buf connection_val;
  put cap buf CRLF.

(** The nodes in the order of the nested loop over buckets and chains. *)
Definition in_order (m : csilk_header_map_t) : list Z := concat (map (buckets m) (seqZ 0 CSILK_HEADER_BUCKETS)).

Definition put_header (cap : Z) (h : csilk_header_t) (buf : bytes) : option bytes :=
  k ← key h;
  buf ← put_from cap buf k (Z.of_nat (key_len h));
  buf ← put cap buf [":"%char];
  buf ← put cap buf [" "%char];
  v ← value h;
  buf ← put_from cap buf v (Z.of_nat (value_len h));
  put cap buf CRLF.

Fixpoint put_headers (cap : Z) (ns : gmap Z csilk_header_t) (l : list Z) (buf : bytes) : option bytes :=
  match l with
  | [] => Some buf
  | a :: l' => h ← ns !! a; buf ← put_header cap h buf; put_headers cap ns l' buf
  end.

Definition append_custom_headers_fast (cap : Z) (m : csilk_header_map_t) (buf : bytes) : option bytes :=
  put_headers cap (nodes m) (in_order m) buf.

(** The loop that adds up the lengths of the custom headers. *)
Fixpoint headers_len (ns : gmap Z csilk_header_t) (l : list Z) (acc : Z) : option Z :=
  match l with
  | [] => Some acc
  | a :: l' => h ← ns !! a; headers_len ns l' (wrap64 (acc + Z.of_nat (key_len h) + 4 + Z.of_nat (value_len h)))
  end.

Definition custom_headers_len (m : csilk_header_map_t) : option Z := headers_len (nodes m) (in_order m) 0.

Definition effective_status (r : response_t) : Z := if status r =? 0 then 200 else status r.

(** The object [response.body] points to; a null pointer is replaced by the
    empty string literal, whose only byte is its terminator. *)
Definition body_object (r : response_t) : bytes := default [NUL] (body r).

(** Nothing is written, and 0 answered, when the bound exceeds the capacity. *)
Definition _csilk_serialize_http1_response (r : response_t) (capacity : Z) : option bytes :=
  if capacity =? 0 then Some [] else
  let st := effective_status r in
  let status_text := get_status_text st in
  custom ← custom_headers_len (headers r);
  let bound := wrap64 (128 + Z.of_nat (length status_text) + custom + body_len r + 32) in
  if capacity <? bound then Some [] else
  buf ← fast_serialize_status_and_control capacity st status_text false [] (body_len r) (lit "keep-alive");
  buf ← append_custom_headers_fast capacity (headers r) buf;
  buf ← put capacity buf CRLF;
  if body_len r >? 0 then put_from capacity buf (body_object r) (body_len r) else Some buf.

(** ** Sending *)

Definition websocket_head (m : csilk_header_map_t) : option bytes :=
  buf ← fast_serialize_status_and_control 1024 101 (lit "Switching Protocols") false [] 0 (lit "Upgrade");
  buf ← append_custom_headers_fast 1024 m buf;
  put 1024 buf CRLF.

(** The new connection state and the effects. *)
Definition _csilk_send_response (malloc_ok : bool) (c : csilk_ctx_t) : option (Z * list effect) :=
  match client c with
  | None => Some (CSILK_CONN_CLOSED, [])
  | Some cl =>
      if (cl_state cl =? CSILK_CONN_CLOSING) || (cl_state cl =? CSILK_CONN_CLOSED) then Some (cl_state cl, []) else
      if is_websocket c then
        let st := csilk_conn_set_state (cl_state cl) CSILK_CONN_STREAMING in
        if malloc_ok then data ← websocket_head (headers (response c)); Some (st, [Send data]) else Some (st, [])
      else if is_sse c then Some (cl_state cl, [])
      else
        let st := csilk_conn_set_state (cl_state cl) CSILK_CONN_WRITING in
        if http2 cl then Some (st, [H2SendResponse]) else
        let r := response c in
        let status_text := get_status_text (effective_status r) in
        let is_file := (0 <=? file_fd c) && negb (ssl cl) in
        let use_chunked := (body_len r =? 0) && is_async c && negb is_file in
        let transfer_encoding := if use_chunked then lit "Transfer-Encoding: chunked" ++ CRLF else [] in
        custom ← custom_headers_len (headers r);
        let blen := if is_file then file_size c else body_len r in
        let keep_alive := should_keep_alive cl in
        let connection_val := if keep_alive then lit "keep-alive" else lit "close" in
        let max_header_bound :=
          wrap64 (128 + Z.of_nat (length status_text) + Z.of_nat (length transfer_encoding) + custom + 32) in
        let total_alloc_len := wrap64 (max_header_bound + 4 + (if use_chunked || is_file then 0 else blen)) in
        let cap := wrap64 (total_alloc_len + 1) in
        sent ← (if malloc_ok then
                  data ← (if use_chunked || is_file then
                            buf ← fast_serialize_status_and_control cap (effective_status r) status_text
                                    use_chunked transfer_encoding blen connection_val;
                            buf ← append_custom_headers_fast cap (headers r) buf;
                            put cap buf CRLF
                          else _csilk_serialize_http1_response r cap);
                  _ ← put cap data [NUL];
                  Some [Send data]
                else Some []);
        Some (st, StopRequestTimer :: sent ++ (if is_file then [] else [PostResponse keep_alive]))
  end.

(** ** A reader of HTTP/1.1 messages *)

(** A line ends with CRLF; a bare CR is refused. *)
Fixpoint read_line (s : bytes) : option (bytes * bytes) :=
  match s with
  | [] => None
  | c :: s' =>
      if Ascii.eqb c CR then
        match s' with
        | d :: r => if Ascii.eqb d LINE_FEED then Some ([], r) else None
        | [] => None
        end
      else '(l, r) ← read_line s'; Some (c :: l, r)
  end.

(** Optional white space around a field value is not part of it. *)
Definition is_ows (c : ascii) : bool := Ascii.eqb c " " || Ascii.eqb c "009".
Fixpoint strip (s : bytes) : bytes :=
  match s with
  | c :: s' => if is_ows c then strip s' else s
  | [] => []
  end.
Definition trim (s : bytes) : bytes := rev (strip (rev (strip s))).

(** Split at the first colon. *)
Fixpoint read_field (l : bytes) : option (bytes * bytes) :=
  match l with
  | [] => None
  | c :: l' => if Ascii.eqb c ":" then Some ([], trim l') else '(k, v) ← read_field l'; Some (c :: k, v)
  end.

(** Field lines up to the empty line. *)
Fixpoint read_fields (fuel : nat) (s : bytes) : option (list (bytes * bytes) * bytes) :=
  match fuel with
  | O => None
  | S fuel' =>
      '(l, r) ← read_line s;
      match l with
      | [] => Some ([], r)
      | _ =>
          '(k, v) ← read_field l;
          if bool_decide (k = []) then None else
          '(fs, r') ← read_fields fuel' r;
          Some ((k, v) :: fs, r')
      end
  end.

(** [HTTP/1.1 ddd reason]. *)
Definition read_status (l : bytes) : option (Z * bytes) :=
  match drop 9 l with
  | d1 :: d2 :: d3 :: sp :: reason =>
      if bool_decide (take 9 l = lit "HTTP/1.1 ") && forallb is_digit [d1; d2; d3] && Ascii.eqb sp " "
      then Some (digits_value 0 [d1; d2; d3], reason) else None
  | _ => None
  end.

(** The values of a field name, in any case, in order. *)
Definition field_values (k : bytes) (fs : list (bytes * bytes)) : list bytes :=
  omap (fun '(n, v) => if decide (lower n = lower k) then Some v else None) fs.

Definition read_decimal (s : bytes) : option Z :=
  match s with [] => None | _ => if forallb is_digit s then Some (digits_value 0 s) else None end.

Definition hex_digit (c : ascii) : option Z :=
  let n := cval c in
  if (48 <=? n) && (n <=? 57) then Some (n - 48)
  else if (97 <=? n) && (n <=? 102) then Some (n - 87)
  else if (65 <=? n) && (n <=? 70) then Some (n - 55) else None.
Fixpoint hex_value (acc : Z) (s : bytes) : option Z :=
  match s with [] => Some acc | c :: s' => d ← hex_digit c; hex_value (acc * 16 + d) s' end.
Definition read_hex (s : bytes) : option Z := match s with [] => None | _ => hex_value 0 s end.

(** The first [n] bytes, when there are so many. *)
Definition split_at (n : Z) (s : bytes) : option (bytes * bytes) :=
  if (0 <=? n) && (n <=? Z.of_nat (length s)) then Some (take (Z.to_nat n) s, drop (Z.to_nat n) s) else None.

Fixpoint read_chunks (fuel : nat) (s : bytes) : option (bytes * bytes) :=
  match fuel with
  | O => None
  | S fuel' =>
      '(l, r) ← read_line s;
      n ← read_hex l;
      if n =? 0 then '(e, r) ← read_line r; (if bool_decide (e = []) then Some ([], r) else None)
      else
        '(data, r) ← split_at n r;
        '(e, r) ← read_line r;
        if bool_decide (e = []) then '(b, r') ← read_chunks fuel' r; Some (data ++ b, r') else None
  end.

Record message := mk_message { m_status : Z; m_reason : bytes; m_fields : list (bytes * bytes); m_body : bytes }.

(** Statuses whose responses have no body, whatever their fields say. *)
Definition bodiless (st : Z) : bool := ((100 <=? st) && (st <=? 199)) || (st =? 204) || (st =? 304).

(** Framing: by chunks, or by one Content-Length. *)
Definition read_body (st : Z) (fs : list (bytes * bytes)) (r : bytes) : option (bytes * bytes) :=
  if bodiless st then Some ([], r) else
  match field_values (lit "Transfer-Encoding") fs, field_values (lit "Content-Length") fs with
  | [], [v] => n ← read_decimal v; split_at n r
  | [v], [] => if bool_decide (lower v = lit "chunked") then read_chunks (S (length r)) r else None
  | _, _ => None
  end.

(** One response and what follows it on the connection. *)
Definition read_message (s : bytes) : option (message * bytes) :=
  '(l, r) ← read_line s;
  '(st, reason) ← read_status l;
  '(fs, r) ← read_fields (S (length r)) r;
  '(b, r) ← read_body st fs r;
  Some (mk_message st reason fs b, r).

(** ** The integers written *)

Lemma digit_loop_rev room f val tmp :
  0 < val < 10 ^ Z.of_nat f -> (f <= room)%nat ->
  exists t, digit_loop room val tmp = Some t /\ rev t = dec_loop f val [] ++ rev tmp.
Proof.
  assert (forall f n a, dec_loop f n a = dec_loop f n [] ++ a) as Happ.
  { clear. induction f as [|f IH]; intros n a; [done|]. cbn [dec_loop]. destruct (_ =? 0); [done|].
    rewrite IH, (IH _ [_]), <- app_assoc. done. }
  revert room val tmp. induction f as [|f IH]; intros room val tmp Hv Hr; [cbn in Hv; lia|].
  destruct room as [|room]; [lia|]. cbn [digit_loop dec_loop]. destruct (Z.gtb_spec val 0); [|lia].
  destruct (Z.eqb_spec (val / 10) 0) as [E|E].
  - rewrite E. exists (tmp ++ [chr (48 + val `mod` 10)]). split; [by destruct room|]. by rewrite rev_app_distr.
  - destruct (IH room (val / 10) (tmp ++ [chr (48 + val `mod` 10)])) as (t & -> & Ht); [|lia|].
    + rewrite Nat2Z.inj_succ, Z.pow_succ_r in Hv by lia. pose proof (Z.div_pos val 10).
      split; [lia|apply Z.div_lt_upper_bound; lia].
    + exists t. split; [done|]. rewrite Ht, rev_app_distr, (Happ f _ [_]), <- app_assoc. done.
Qed.

Lemma dec_loop_digits f n acc : forallb is_digit acc = true -> forallb is_digit (dec_loop f n acc) = true.
Proof.
  revert n acc. induction f as [|f IH]; intros n acc Ha; [done|]. cbn [dec_loop].
  destruct (is_digit_chr (n `mod` 10)) as [Hd _]; [apply Z.mod_pos_bound; lia|].
  assert (forallb is_digit (chr (48 + n `mod` 10) :: acc) = true) by (cbn; by rewrite Hd).
  destruct (_ =? 0); [done|by apply IH].
Qed.

Lemma dec_loop_length f n acc : (length (dec_loop f n acc) <= f + length acc)%nat.
Proof.
  revert n acc. induction f as [|f IH]; intros n acc; cbn [dec_loop]; [lia|].
  destruct (_ =? 0); cbn [length]; [lia|]. etransitivity; [apply IH|]. cbn [length]. lia.
Qed.

(** [fast_uint64_to_str] stays inside [tmp[24]] and prints the decimal text. *)
Lemma fast_uint64_to_str_spec val :
  0 <= val < 2 ^ 64 ->
  exists d, fast_uint64_to_str val = Some d /\ (length d <= 20)%nat /\ read_decimal d = Some val /\ forallb is_digit d = true.
Proof.
  intros Hv. unfold fast_uint64_to_str. destruct (Z.eqb_spec val 0) as [->|]; [exists (lit "0"); split_and!; [done|cbn; lia|done|done]|].
  destruct (digit_loop_rev 24 20 val []) as (t & -> & Ht); [lia|lia|]. cbn [mbind option_bind].
  rewrite Ht, app_nil_r. exists (dec_loop 20 val []).
  destruct (dec_loop_value 20 val) with (a := 0) as [w Hw]; [lia|]. specialize (Hw []).
  pose proof (dec_loop_digits 20 val [] eq_refl) as Hd. split; [done|]. split_and!; [apply (dec_loop_length 20 val [])| |done].
  destruct (dec_loop_head 19 val []) as (c & s & E & _). unfold read_decimal. rewrite E in *. rewrite Hd, Hw. by f_equal.
Qed.

(** ** What is written *)

Lemma put_ok cap buf l : Z.of_nat (length buf + length l) <= cap -> put cap buf l = Some (buf ++ l).
Proof. intros H. unfold put. by rewrite (proj2 (Z.leb_le _ _) H). Qed.

Lemma put_from_ok cap buf src n :
  n = Z.of_nat (length src) -> Z.of_nat (length buf + length src) <= cap -> put_from cap buf src n = Some (buf ++ src).
Proof. intros -> H. unfold put_from. rewrite Z.leb_refl, Nat2Z.id, take_ge by lia. by apply put_ok. Qed.

Lemma length_CRLF : length CRLF = 2%nat.
Proof. done. Qed.

(** Perform the writes of a serialiser whose room is established by [lia]. *)
Ltac writes :=
  repeat first
    [ rewrite put_ok by (rewrite ?length_app, ?length_CRLF; cbn [length]; lia)
    | progress cbn [mbind option_bind] ].

Definition status_line (st : Z) (text : bytes) : bytes :=
  lit "HTTP/1.1 " ++ [chr (48 + st / 100); chr (48 + (st / 10) `mod` 10); chr (48 + st `mod` 10)] ++ " "%char :: text ++ CRLF.

Definition wire_field (kv : bytes * bytes) : bytes := kv.1 ++ lit ": " ++ kv.2 ++ CRLF.
Definition wire_fields (fs : list (bytes * bytes)) : bytes := concat (map wire_field fs).

Lemma wire_fields_app a b : wire_fields (a ++ b) = wire_fields a ++ wire_fields b.
Proof. unfold wire_fields. by rewrite map_app, concat_app. Qed.

Lemma wire_field_length k v : length (wire_field (k, v)) = (length k + 4 + length v)%nat.
Proof. unfold wire_field. cbn [fst snd]. rewrite !length_app. change (length CRLF) with 2%nat. change (length (lit ": ")) with 2%nat. lia. Qed.

Lemma wire_fields_length fs : (length fs <= length (wire_fields fs))%nat.
Proof.
  induction fs as [|[k v] fs IH]; [done|]. unfold wire_fields in *. cbn [map concat].
  rewrite length_app, wire_field_length. cbn [length]. lia.
Qed.

(** The first two fields of a response. *)
Definition control_fields (chunked : bool) (digits conn : bytes) : list (bytes * bytes) :=
  [(if chunked then (lit "Transfer-Encoding", lit "chunked") else (lit "Content-Length", digits)); (lit "Connection", conn)].

Lemma status_line_spec cap st :
  100 <= st <= 999 -> 64 <= cap ->
  put_status_line cap st (get_status_text st) = Some (status_line st (get_status_text st)).
Proof.
  intros Hst Hc. assert (length (get_status_text st) <= 21)%nat as Hl.
  { unfold get_status_text. repeat (destruct (_ =? _); [cbn; lia|]). cbn; lia. }
  unfold put_status_line.
  destruct (Z.eqb_spec st 200) as [->|]; [rewrite put_ok by (cbn; lia); by vm_compute|].
  destruct (Z.eqb_spec st 404) as [->|]; [rewrite put_ok by (cbn; lia); by vm_compute|].
  destruct (Z.eqb_spec st 500) as [->|]; [rewrite put_ok by (cbn; lia); by vm_compute|].
  rewrite !Z.quot_div_nonneg, !Z.rem_mod_nonneg by (try apply Z.div_pos; lia).
  unfold status_line. pose proof (eq_refl : length (lit "HTTP/1.1 ") = 9%nat) as H9.
  generalize dependent (lit "HTTP/1.1 "). intros h H9. writes.
  f_equal. rewrite <- !app_assoc. done.
Qed.

Lemma status_line_length st : length (status_line st (get_status_text st)) = (15 + length (get_status_text st))%nat.
Proof. unfold status_line. rewrite !length_app. cbn [length]. rewrite length_app, length_CRLF. change (length (lit "HTTP/1.1 ")) with 9%nat. lia. Qed.

Lemma wire_fields_cons kv fs : wire_fields (kv :: fs) = wire_field kv ++ wire_fields fs.
Proof. done. Qed.

(** Everything up to the custom headers; at most 62 bytes of control fields. *)
Lemma serialize_control_spec cap st chunked body_len conn :
  100 <= st <= 999 -> st <> 101 -> 0 <= body_len < 2 ^ 64 -> (length conn <= 10)%nat ->
  128 + Z.of_nat (length (get_status_text st)) <= cap ->
  exists d, read_decimal d = Some body_len /\ forallb is_digit d = true /\ (length d <= 20)%nat /\
    fast_serialize_status_and_control cap st (get_status_text st) chunked
      (if chunked then lit "Transfer-Encoding: chunked" ++ CRLF else []) body_len conn =
    Some (status_line st (get_status_text st) ++ wire_fields (control_fields chunked d conn)).
Proof.
  intros Hst H101 Hb Hc Hcap. destruct (fast_uint64_to_str_spec body_len Hb) as (d & Ed & Hl & Hr & Hd).
  exists d. split_and!; [done..|]. unfold fast_serialize_status_and_control.
  rewrite (proj2 (Z.eqb_neq st 101)), status_line_spec by (done || lia). cbn [mbind option_bind].
  pose proof (status_line_length st) as Hsl. set (s := status_line _ _) in *. clearbody s.
  assert (length (lit "Transfer-Encoding: chunked") = 26%nat /\ length (lit "Content-Length: ") = 16%nat /\
          length (lit "Connection: ") = 12%nat) as (L1 & L2 & L3) by done.
  rewrite Ed. destruct chunked; writes; f_equal; unfold wire_fields, control_fields; cbn [map concat]; rewrite app_nil_r;
    unfold wire_field; cbn [fst snd]; rewrite <- !app_assoc; reflexivity.
Qed.

(** ** Custom headers *)

(** A name and a value that survive on the wire. *)
Record printable (kv : bytes * bytes) : Prop := {
  pr_name : kv.1 <> [];
  pr_name_cr : CR ∉ kv.1;
  pr_name_colon : ":"%char ∉ kv.1;
  pr_value_cr : CR ∉ kv.2;
}.

Definition node_field (h : csilk_header_t) : option (bytes * bytes) := k ← key h; v ← value h; Some (k, v).

Record node_ok (h : csilk_header_t) (k v : bytes) : Prop := {
  no_key : key h = Some k;
  no_value : value h = Some v;
  no_key_len : key_len h = length k;
  no_value_len : value_len h = length v;
  no_print : printable (k, v);
}.

Definition nodes_ok (ns : gmap Z csilk_header_t) (l : list Z) : Prop :=
  Forall (fun a => exists h k v, ns !! a = Some h /\ node_ok h k v) l.

(** The fields the map stands for, in the order they are written. *)
Definition fields_in (ns : gmap Z csilk_header_t) (l : list Z) : list (bytes * bytes) :=
  omap (fun a => h ← ns !! a; node_field h) l.
Definition fields (m : csilk_header_map_t) : list (bytes * bytes) := fields_in (nodes m) (in_order m).

Lemma fields_in_cons ns a l h k v :
  ns !! a = Some h -> node_ok h k v -> fields_in ns (a :: l) = (k, v) :: fields_in ns l.
Proof. intros E [Ek Ev _ _ _]. unfold fields_in. cbn. rewrite E. cbn. unfold node_field. by rewrite Ek, Ev. Qed.

Lemma put_headers_spec cap ns l buf :
  nodes_ok ns l -> Z.of_nat (length buf + length (wire_fields (fields_in ns l))) <= cap ->
  put_headers cap ns l buf = Some (buf ++ wire_fields (fields_in ns l)).
Proof.
  intros Hl. revert buf. induction Hl as [|a l (h & k & v & E & Hn) _ IH]; intros buf Hc; [by rewrite app_nil_r|].
  rewrite (fields_in_cons _ _ _ _ _ _ E Hn), wire_fields_cons in *. rewrite length_app, wire_field_length in Hc.
  cbn [put_headers]. rewrite E. cbn [mbind option_bind]. unfold put_header. rewrite (no_key _ _ _ Hn), (no_value _ _ _ Hn), (no_key_len _ _ _ Hn), (no_value_len _ _ _ Hn).
  cbn [mbind option_bind]. rewrite put_from_ok by (done || lia). writes.
  rewrite put_from_ok by (rewrite ?length_app; cbn [length]; done || lia). writes.
  rewrite IH by (rewrite !length_app, length_CRLF; cbn [length]; lia). unfold wire_field. cbn [fst snd].
  rewrite <- !app_assoc. done.
Qed.

Lemma headers_len_spec ns l acc :
  nodes_ok ns l -> 0 <= acc -> acc + Z.of_nat (length (wire_fields (fields_in ns l))) < 2 ^ 64 ->
  headers_len ns l acc = Some (acc + Z.of_nat (length (wire_fields (fields_in ns l)))).
Proof.
  intros Hl. revert acc. induction Hl as [|a l (h & k & v & E & Hn) _ IH]; intros acc Ha Hc; [cbn; f_equal; lia|].
  rewrite (fields_in_cons _ _ _ _ _ _ E Hn), wire_fields_cons in *. rewrite length_app, wire_field_length in *.
  cbn [headers_len]. rewrite E. cbn [mbind option_bind]. rewrite (no_key_len _ _ _ Hn), (no_value_len _ _ _ Hn), wrap64_small by lia.
  rewrite IH by lia. f_equal. lia.
Qed.

Lemma fields_printable ns l : nodes_ok ns l -> Forall printable (fields_in ns l).
Proof.
  induction 1 as [|a l (h & k & v & E & Hn) _ IH]; [constructor|].
  rewrite (fields_in_cons _ _ _ _ _ _ E Hn). constructor; [apply Hn|done].
Qed.

(** ** Reading back *)

Lemma read_line_spec l r : CR ∉ l -> read_line (l ++ CRLF ++ r) = Some (l, r).
Proof.
  induction l as [|c l IH]; intros H; [done|]. apply not_elem_of_cons in H as [Hc Hl]. cbn [app read_line].
  destruct (Ascii.eqb_spec c CR); [congruence|]. by rewrite IH.
Qed.

Lemma read_field_spec k v : ":"%char ∉ k -> read_field (k ++ lit ": " ++ v) = Some (k, trim v).
Proof.
  induction k as [|c k IH]; intros H; [done|]. apply not_elem_of_cons in H as [Hc Hk]. cbn [app read_field].
  destruct (Ascii.eqb_spec c ":"); [congruence|]. by rewrite IH.
Qed.

Definition trimmed (fs : list (bytes * bytes)) : list (bytes * bytes) := map (fun '(k, v) => (k, trim v)) fs.

Lemma read_fields_spec fuel fs r :
  Forall printable fs -> (length fs < fuel)%nat ->
  read_fields fuel (wire_fields fs ++ CRLF ++ r) = Some (trimmed fs, r).
Proof.
  intros Hp. revert fuel. induction Hp as [|[k v] fs [Hk Hkc Hcol Hv] _ IH]; intros fuel Hf.
  { destruct fuel; [cbn in Hf; lia|]. done. }
  destruct fuel as [|fuel]; [cbn in Hf; lia|]. cbn [fst snd] in *. rewrite wire_fields_cons. cbn [read_fields].
  replace ((wire_field (k, v) ++ wire_fields fs) ++ CRLF ++ r) with ((k ++ lit ": " ++ v) ++ CRLF ++ (wire_fields fs ++ CRLF ++ r))
    by (unfold wire_field; cbn [fst snd]; by rewrite <- !app_assoc).
  rewrite read_line_spec by (rewrite !elem_of_app; intros [?|[H|?]]; [done| |done]; revert H; apply (bool_decide_unpack _); by vm_compute).
  cbn [mbind option_bind]. rewrite read_field_spec by done. cbn [mbind option_bind].
  rewrite bool_decide_false, IH by (done || (cbn [length] in Hf; lia)). cbn [mbind option_bind].
  destruct k; done.
Qed.

Lemma read_status_spec st text :
  100 <= st <= 999 ->
  read_status (lit "HTTP/1.1 " ++ [chr (48 + st / 100); chr (48 + (st / 10) `mod` 10); chr (48 + st `mod` 10)] ++ " "%char :: text) =
  Some (st, text).
Proof.
  intros Hst. unfold read_status. change (drop 9 _) with
    ([chr (48 + st / 100); chr (48 + (st / 10) `mod` 10); chr (48 + st `mod` 10)] ++ " "%char :: text). cbn [app].
  destruct (is_digit_chr (st / 100)) as [D1 V1]; [split; [apply Z.div_pos|apply Z.div_lt_upper_bound]; lia|].
  destruct (is_digit_chr ((st / 10) `mod` 10)) as [D2 V2]; [apply Z.mod_pos_bound; lia|].
  destruct (is_digit_chr (st `mod` 10)) as [D3 V3]; [apply Z.mod_pos_bound; lia|].
  cbn [forallb digits_value]. rewrite D1, D2, D3, V1, V2, V3. change (take 9 _) with (lit "HTTP/1.1 ").
  rewrite bool_decide_true by done. cbn. do 2 f_equal.
  Z.to_euclidean_division_equations. lia.
Qed.

Lemma read_head_spec st fs r :
  100 <= st <= 999 -> Forall printable fs ->
  read_message (status_line st (get_status_text st) ++ wire_fields fs ++ CRLF ++ r) =
  '(b, r') ← read_body st (trimmed fs) r; Some (mk_message st (get_status_text st) (trimmed fs) b, r').
Proof.
  intros Hst Hp. unfold read_message, status_line.
  set (w := lit "HTTP/1.1 " ++ [chr (48 + st / 100); chr (48 + (st / 10) `mod` 10); chr (48 + st `mod` 10)] ++
              " "%char :: get_status_text st).
  replace ((lit "HTTP/1.1 " ++ _) ++ wire_fields fs ++ CRLF ++ r) with (w ++ CRLF ++ (wire_fields fs ++ CRLF ++ r))
    by (unfold w; rewrite <- !app_assoc; cbn [app]; by rewrite <- !app_assoc).
  rewrite read_line_spec; cbn [mbind option_bind].
  - unfold w. rewrite read_status_spec by done. cbn [mbind option_bind]. rewrite read_fields_spec; [done|done|].
    pose proof (wire_fields_length fs). rewrite length_app. lia.
  - unfold w. rewrite !elem_of_app, !elem_of_cons, elem_of_nil.
    assert (forall d, 0 <= d < 10 -> CR <> chr (48 + d)) as Hd.
    { intros d Hd E. destruct (is_digit_chr d Hd) as [H _]. by rewrite <- E in H. }
    intros [H|[[H|[H|[H|[]]]]|[H|H]]].
    + revert H. apply (bool_decide_unpack _). by vm_compute.
    + revert H. apply Hd. split; [apply Z.div_pos|apply Z.div_lt_upper_bound]; lia.
    + revert H. apply Hd. apply Z.mod_pos_bound; lia.
    + revert H. apply Hd. apply Z.mod_pos_bound; lia.
    + done.
    + revert H. unfold get_status_text. repeat (destruct (_ =? _); [apply (bool_decide_unpack _); by vm_compute|]).
      apply (bool_decide_unpack _); by vm_compute.
Qed.

(** ** The fields of a name are the values of the map *)

Lemma field_values_app k a b : field_values k (a ++ b) = field_values k a ++ field_values k b.
Proof. apply omap_app. Qed.

Lemma field_values_hit k n v fs : lower n = lower k -> field_values k ((n, v) :: fs) = v :: field_values k fs.
Proof. intros H. unfold field_values. cbn. by rewrite decide_True. Qed.

Lemma field_values_miss k n v fs : lower n <> lower k -> field_values k ((n, v) :: fs) = field_values k fs.
Proof. intros H. unfold field_values. cbn. by rewrite decide_False. Qed.

Lemma field_values_trimmed k fs : field_values k (trimmed fs) = map trim (field_values k fs).
Proof.
  induction fs as [|[n v] fs IH]; [done|]. unfold field_values, trimmed in *. cbn. destruct (decide _); cbn; by rewrite IH.
Qed.

Lemma fields_in_app ns a b : fields_in ns (a ++ b) = fields_in ns a ++ fields_in ns b.
Proof. apply omap_app. Qed.

(** Along one chain. *)
Lemma field_values_chain ns k l :
  nodes_ok ns l ->
  field_values k (fields_in ns l) = omap (fun a => from_option value None (ns !! a)) (List.filter (named ns k) l).
Proof.
  induction 1 as [|a l (h & hk & v & E & Hn) _ IH]; [done|].
  rewrite (fields_in_cons _ _ _ _ _ _ E Hn). cbn [List.filter]. unfold named at 1. rewrite E, (no_key _ _ _ Hn).
  unfold field_values in *. cbn. case_bool_decide as Hl; [rewrite decide_True by done|by rewrite decide_False by done].
  cbn. rewrite E. cbn. by rewrite (no_value _ _ _ Hn), IH.
Qed.

(** Other chains do not hold the name. *)
Lemma chain_other ns bs given k b :
  chains_wf ns bs given -> b <> bucket_of k -> List.filter (named ns k) (bs b) = [].
Proof.
  intros Hc Hb. assert (Forall (fun a => named ns k a = false) (bs b)) as Hf.
  { apply Forall_forall. intros a Ha. destruct (cw_node _ _ _ Hc _ _ Ha) as (h & hk & E & Hw). unfold named.
    rewrite E, (nw_key _ _ _ Hw). apply bool_decide_eq_false. intros El. apply Hb.
    rewrite (nw_bucket _ _ _ Hw). by apply bucket_of_lower. }
  induction Hf as [|a l Ha _ IH]; [done|]. cbn [List.filter]. by rewrite Ha.
Qed.

Lemma bucket_of_range k : 0 <= bucket_of k < CSILK_HEADER_BUCKETS.
Proof.
  unfold bucket_of, CSILK_HEADER_BUCKETS. change (16 - 1) with (Z.ones 4). rewrite Z.land_ones by lia.
  by apply Z.mod_pos_bound.
Qed.

Lemma concat_none {A} (f : Z -> list A) (L : list Z) : (forall b, b ∈ L -> f b = []) -> concat (map f L) = [].
Proof.
  induction L as [|b L IH]; intros H; [done|]. cbn [map concat]. rewrite H by by left. apply IH.
  intros b' Hb'. apply H. by right.
Qed.

Lemma concat_one {A} (f : Z -> list A) (L : list Z) (b : Z) :
  NoDup L -> b ∈ L -> (forall b', b' ∈ L -> b' <> b -> f b' = []) -> concat (map f L) = f b.
Proof.
  intros Hd Hin Ho. induction Hd as [|x L Hx Hd IH]; [by apply not_elem_of_nil in Hin|]. cbn [map concat].
  destruct (decide (x = b)) as [->|Hne].
  - rewrite concat_none, app_nil_r; [done|]. intros b' Hb'. apply Ho; [by right|]. by intros ->.
  - apply elem_of_cons in Hin as [->|Hin]; [done|]. rewrite (Ho x) by (done || by left). apply IH; [done|].
    intros b' Hb'. apply Ho. by right.
Qed.

Lemma concat_fields ns k (bs : Z -> list Z) L :
  field_values k (fields_in ns (concat (map bs L))) = concat (map (fun b => field_values k (fields_in ns (bs b))) L).
Proof. induction L as [|b L IH]; [done|]. cbn [map concat]. by rewrite fields_in_app, field_values_app, IH. Qed.

Lemma nodes_ok_concat ns (bs : Z -> list Z) L b :
  nodes_ok ns (concat (map bs L)) -> b ∈ L -> nodes_ok ns (bs b).
Proof.
  induction L as [|x L IH]; intros H Hb; [by apply not_elem_of_nil in Hb|]. cbn in H. apply Forall_app in H as [H1 H2].
  apply elem_of_cons in Hb as [->|Hb]; [done|by apply IH].
Qed.

Lemma field_values_fields m given k :
  map_inv m given -> nodes_ok (nodes m) (in_order m) -> field_values k (fields m) = omap id (vals m k).
Proof.
  intros Hm Hn. unfold fields, in_order. rewrite concat_fields.
  assert (bucket_of k ∈ seqZ 0 CSILK_HEADER_BUCKETS) as Hb by (apply elem_of_seqZ; pose proof (bucket_of_range k); lia).
  assert (forall b, b ∈ seqZ 0 CSILK_HEADER_BUCKETS -> nodes_ok (nodes m) (buckets m b)) as Hall
    by (intros b; by apply nodes_ok_concat).
  rewrite (concat_one _ _ (bucket_of k)); [|apply NoDup_seqZ|done|].
  - rewrite field_values_chain by by apply Hall. unfold vals, vals_in, entries_in.
    induction (List.filter _ _) as [|a l IH]; [done|]. cbn. by rewrite IH.
  - intros b Hin Hne. rewrite field_values_chain by by apply Hall.
    by rewrite (chain_other _ _ _ _ _ (mi_chains _ _ Hm) Hne).
Qed.

(** ** A whole response *)

(** The body, when [body_len] is its length. *)
Definition body_text (r : response_t) : option bytes :=
  let b := default [] (body r) in if body_len r =? Z.of_nat (length b) then Some b else None.

(** A response that can be put on the wire. *)
Record sendable (r : response_t) (b : bytes) : Prop := {
  se_status : 100 <= effective_status r <= 999;
  se_no_switch : effective_status r <> 101;
  se_nodes : nodes_ok (nodes (headers r)) (in_order (headers r));
  se_body : body_text r = Some b;
  se_size : Z.of_nat (length (wire_fields (fields (headers r)))) + Z.of_nat (length b) + 256 < 2 ^ 64;
}.

Definition head (st : Z) (fs : list (bytes * bytes)) : bytes :=
  status_line st (get_status_text st) ++ wire_fields fs ++ CRLF.

Lemma status_text_length st : (length (get_status_text st) <= 21)%nat.
Proof. unfold get_status_text. repeat (destruct (_ =? _); [cbn; lia|]). cbn; lia. Qed.

Lemma body_text_len r b : body_text r = Some b -> body_len r = Z.of_nat (length b) /\ b = default [] (body r).
Proof. unfold body_text. cbn zeta. destruct (Z.eqb_spec (body_len r) (Z.of_nat (length (default [] (body r))))); [|done]. by intros [= <-]. Qed.

Lemma put_body r b cap buf :
  body_text r = Some b -> Z.of_nat (length buf + length b) <= cap ->
  (if body_len r >? 0 then put_from cap buf (body_object r) (body_len r) else Some buf) = Some (buf ++ b).
Proof.
  intros [Hl ->]%body_text_len Hc. unfold body_object. destruct (body r) as [b|]; cbn [default from_option length id] in *.
  - destruct (Z.gtb_spec (body_len r) 0); [by apply put_from_ok|]. destruct b; [by rewrite app_nil_r|cbn in *; lia].
  - rewrite Hl, app_nil_r. done.
Qed.

Lemma control_length chunked d conn :
  (length d <= 20)%nat -> (length conn <= 10)%nat -> (length (wire_fields (control_fields chunked d conn)) <= 62)%nat.
Proof.
  intros Hd Hc. unfold wire_fields, control_fields. cbn [map concat]. rewrite !length_app. destruct chunked; rewrite !wire_field_length;
    change (length (lit "Transfer-Encoding")) with 17%nat; change (length (lit "Content-Length")) with 14%nat;
    change (length (lit "Connection")) with 10%nat; change (length (lit "chunked")) with 7%nat; cbn [length]; lia.
Qed.

(** The head fits into any buffer of the estimated size. *)
Lemma head_spec r cap chunked blen conn :
  100 <= effective_status r <= 999 -> effective_status r <> 101 -> nodes_ok (nodes (headers r)) (in_order (headers r)) ->
  0 <= blen < 2 ^ 64 -> (length conn <= 10)%nat ->
  128 + Z.of_nat (length (get_status_text (effective_status r))) + Z.of_nat (length (wire_fields (fields (headers r)))) <= cap ->
  exists d, read_decimal d = Some blen /\ forallb is_digit d = true /\
    (Z.of_nat (length (head (effective_status r) (control_fields chunked d conn ++ fields (headers r)))) <=
       80 + Z.of_nat (length (get_status_text (effective_status r))) + Z.of_nat (length (wire_fields (fields (headers r))))) /\
    (buf ← fast_serialize_status_and_control cap (effective_status r) (get_status_text (effective_status r)) chunked
             (if chunked then lit "Transfer-Encoding: chunked" ++ CRLF else []) blen conn;
     buf ← append_custom_headers_fast cap (headers r) buf;
     put cap buf CRLF) = Some (head (effective_status r) (control_fields chunked d conn ++ fields (headers r))).
Proof.
  intros Hs H101 Hn Hb Hc Hcap. destruct (serialize_control_spec cap (effective_status r) chunked blen conn)
    as (d & Hr & Hd & Hl & E); [done|done|done|done|lia|].
  exists d. split; [done|]. split; [done|]. pose proof (control_length chunked d conn Hl Hc) as Hcl.
  assert (Hlen : Z.of_nat (length (head (effective_status r) (control_fields chunked d conn ++ fields (headers r)))) <=
    80 + Z.of_nat (length (get_status_text (effective_status r))) + Z.of_nat (length (wire_fields (fields (headers r))))).
  { unfold head. rewrite wire_fields_app, !length_app, status_line_length, length_CRLF. lia. }
  split; [done|]. rewrite E. cbn [mbind option_bind]. unfold append_custom_headers_fast. unfold head in *.
  rewrite wire_fields_app, !length_app, length_CRLF in Hlen.
  rewrite put_headers_spec by (done || (rewrite length_app; unfold fields in *; lia)). cbn [mbind option_bind].
  rewrite put_ok by (rewrite !length_app, length_CRLF; unfold fields in *; lia). f_equal.
  rewrite wire_fields_app, <- !app_assoc. done.
Qed.

Lemma serialize_spec r b cap :
  sendable r b ->
  128 + Z.of_nat (length (get_status_text (effective_status r))) + Z.of_nat (length (wire_fields (fields (headers r)))) +
    Z.of_nat (length b) + 32 <= cap ->
  exists d, read_decimal d = Some (Z.of_nat (length b)) /\ forallb is_digit d = true /\
    _csilk_serialize_http1_response r cap =
      Some (head (effective_status r) (control_fields false d (lit "keep-alive") ++ fields (headers r)) ++ b) /\
    Z.of_nat (length (head (effective_status r) (control_fields false d (lit "keep-alive") ++ fields (headers r)) ++ b)) < cap.
Proof.
  intros [Hs H101 Hn Hb Hsz] Hcap. pose proof (body_text_len _ _ Hb) as [Hbl _].
  destruct (head_spec r cap false (Z.of_nat (length b)) (lit "keep-alive")) as (d & Hr & Hd & Hl & E);
    [done|done|done|lia|cbn; lia|lia|].
  exists d. split; [done|]. split; [done|]. split; [|rewrite length_app; lia]. unfold _csilk_serialize_http1_response.
  rewrite (proj2 (Z.eqb_neq cap 0)) by lia. cbn zeta. unfold custom_headers_len.
  rewrite headers_len_spec by (done || (unfold fields in Hsz; lia)). cbn [mbind option_bind].
  fold (fields (headers r)). rewrite Hbl, Z.add_0_l, wrap64_small by (pose proof (status_text_length (effective_status r)); lia).
  rewrite (proj2 (Z.ltb_ge _ _)) by lia. cbn [mbind option_bind] in E.
  revert E. destruct (fast_serialize_status_and_control cap _ _ _ _ _ _) as [buf|]; [|done]. cbn [mbind option_bind].
  destruct (append_custom_headers_fast cap _ buf) as [buf2|]; [|done]. cbn [mbind option_bind]. intros ->. cbn [mbind option_bind].
  rewrite <- Hbl. apply put_body; [done|]. lia.
Qed.

(** A plain connection that is open. *)
Definition open_http1 (cl : client_t) : Prop :=
  cl_state cl <> CSILK_CONN_CLOSING /\ cl_state cl <> CSILK_CONN_CLOSED /\ http2 cl = false.

(** [_csilk_send_response] for a body held in memory. *)
Lemma send_response_spec c cl b :
  client c = Some cl -> open_http1 cl -> is_websocket c = false -> is_sse c = false ->
  file_fd c < 0 -> (body_len (response c) =? 0) && is_async c = false -> sendable (response c) b ->
  exists d, read_decimal d = Some (Z.of_nat (length b)) /\ forallb is_digit d = true /\
    _csilk_send_response true c = Some (csilk_conn_set_state (cl_state cl) CSILK_CONN_WRITING,
      [StopRequestTimer;
       Send (head (effective_status (response c)) (control_fields false d (lit "keep-alive") ++ fields (headers (response c))) ++ b);
       PostResponse (should_keep_alive cl)]).
Proof.
  intros Ec (H1 & H2 & Hh) Hw Hse Hf Hch Hs. pose proof Hs as [_ _ Hn Hb Hsz]. pose proof (body_text_len _ _ Hb) as [Hbl _].
  pose proof (status_text_length (effective_status (response c))) as Ht.
  set (cap := 128 + Z.of_nat (length (get_status_text (effective_status (response c)))) + 0 +
                Z.of_nat (length (wire_fields (fields (headers (response c))))) + 32 + 4 + Z.of_nat (length b) + 1).
  destruct (serialize_spec _ b cap Hs) as (d & Hr & Hd & E & El); [unfold cap; lia|].
  exists d. split; [done|]. split; [done|]. unfold _csilk_send_response. rewrite Ec, (proj2 (Z.eqb_neq _ _) H1), (proj2 (Z.eqb_neq _ _) H2), Hw, Hse, Hh.
  cbn [orb]. rewrite (proj2 (Z.leb_gt 0 (file_fd c))) by lia. cbn [andb negb]. rewrite Hch. cbn [andb negb orb]. cbn zeta.
  unfold custom_headers_len. rewrite headers_len_spec by (done || (unfold fields in Hsz; lia)).
  cbn [mbind option_bind length]. fold (fields (headers (response c))). rewrite Hbl, Z.add_0_l.
  rewrite !wrap64_small by (rewrite ?wrap64_small; rewrite ?wrap64_small; lia).
  match goal with |- context [_csilk_serialize_http1_response _ ?x] => replace x with cap by (unfold cap; lia) end.
  rewrite E. cbn [mbind option_bind]. rewrite put_ok by (cbn [length]; lia). done.
Qed.

(** ** What a client reads *)

Lemma strip_digits d : forallb is_digit d = true -> strip d = d.
Proof.
  destruct d as [|c d]; [done|]. cbn. intros [Hc _]%andb_true_iff. unfold is_ows.
  destruct (Ascii.eqb_spec c " ") as [->|]; [done|]. by destruct (Ascii.eqb_spec c "009") as [->|].
Qed.

Lemma forallb_rev {A} (p : A -> bool) (l : list A) : forallb p l = true -> forallb p (rev l) = true.
Proof.
  rewrite !forallb_forall. intros H x Hx. apply H. by apply in_rev.
Qed.

Lemma trim_digits d : forallb is_digit d = true -> trim d = d.
Proof. intros H. unfold trim. rewrite (strip_digits d H), strip_digits by by apply forallb_rev. apply rev_involutive. Qed.

Lemma split_at_app b r : split_at (Z.of_nat (length b)) (b ++ r) = Some (b, r).
Proof.
  unfold split_at. rewrite length_app. rewrite (proj2 (Z.leb_le 0 _)), (proj2 (Z.leb_le (Z.of_nat (length b)) _)) by lia.
  cbn. by rewrite Nat2Z.id, take_app_length, drop_app_length.
Qed.

(** Names that decide the framing of a message. *)
Definition framing_name (k : bytes) : Prop :=
  lower k = lower (lit "Content-Length") \/ lower k = lower (lit "Transfer-Encoding").

(** A response framed by its length is read back exactly, whatever follows. *)
Lemma read_sent st d conn fs b rest :
  100 <= st <= 999 -> Forall printable fs -> CR ∉ conn ->
  read_decimal d = Some (Z.of_nat (length b)) -> forallb is_digit d = true ->
  field_values (lit "Content-Length") fs = [] -> field_values (lit "Transfer-Encoding") fs = [] ->
  (bodiless st = true -> b = []) ->
  read_message (head st (control_fields false d conn ++ fs) ++ b ++ rest) =
  Some (mk_message st (get_status_text st) (trimmed (control_fields false d conn ++ fs)) b, rest).
Proof.
  intros Hst Hp Hcr Hr Hd Hcl Hte Hb. unfold head. rewrite <- !app_assoc.
  assert (Forall printable (control_fields false d conn ++ fs)) as Hall.
  { apply Forall_app. split; [|done]. repeat constructor; cbn [fst snd]; try done;
      try (apply (bool_decide_unpack _); by vm_compute).
    intros Hin%list_elem_of_In. rewrite forallb_forall in Hd. by specialize (Hd _ Hin). }
  rewrite read_head_spec by done. unfold read_body.
  rewrite !field_values_trimmed, !field_values_app, Hcl, Hte, !app_nil_r. unfold control_fields.
  rewrite !(field_values_miss (lit "Transfer-Encoding")), field_values_hit, field_values_miss by by vm_compute.
  change (field_values _ []) with (@nil bytes). cbn [map].
  destruct (bodiless st) eqn:Eb; [by rewrite Hb|]. rewrite trim_digits, Hr by done. cbn [mbind option_bind].
  by rewrite split_at_app.
Qed.

(** The bytes a call hands to the connection. *)
Definition sent (es : list effect) : bytes := concat (map (fun e => match e with Send d => d | _ => [] end) es).

(** A response whose body is in memory survives the wire: the bytes handed to
    the connection are read back, whatever follows, as its status, its body and
    for every header name the values the map holds. *)
Lemma response_on_wire c cl b given rest :
  client c = Some cl -> open_http1 cl -> is_websocket c = false -> is_sse c = false ->
  file_fd c < 0 -> (body_len (response c) =? 0) && is_async c = false ->
  map_inv (headers (response c)) given -> sendable (response c) b ->
  (forall k, framing_name k -> vals (headers (response c)) k = []) ->
  (bodiless (effective_status (response c)) = true -> b = []) ->
  exists st es msg, _csilk_send_response true c = Some (st, es) /\
    read_message (sent es ++ rest) = Some (msg, rest) /\
    m_status msg = effective_status (response c) /\ m_body msg = b /\
    (forall k, ~ framing_name k -> lower k <> lower (lit "Connection") ->
       field_values k (m_fields msg) = map trim (omap id (vals (headers (response c)) k))).
Proof.
  intros Ec Ho Hw Hs Hf Hch Hm Hse Hfr Hb.
  destruct (send_response_spec c cl b Ec Ho Hw Hs Hf Hch Hse) as (d & Hr & Hd & E).
  destruct Hse as [Hst _ Hn _ _]. pose proof (fun k => field_values_fields _ _ k Hm Hn) as Hv.
  eexists _, _, _. split; [exact E|]. unfold sent. cbn [map concat]. rewrite app_nil_r, app_nil_l, <- app_assoc.
  split; [apply read_sent; [exact Hst|by apply fields_printable|apply (bool_decide_unpack _); by vm_compute|exact Hr|exact Hd| | |exact Hb]|].
  - rewrite Hv, Hfr; [done|by left].
  - rewrite Hv, Hfr; [done|by right].
  - cbn [m_status m_body m_fields]. split_and!; [done..|]. intros k Hk Hc.
    rewrite field_values_trimmed, field_values_app, Hv. unfold control_fields.
    rewrite !field_values_miss; [done|congruence|]. intros E'. apply Hk. left. congruence.
Qed.

(** ** Boundary behaviour *)

Definition demo_client : client_t := mk_http_client CSILK_CONN_PROCESSING false false false.

Definition demo_ctx (async : bool) (r : response_t) : csilk_ctx_t := mk_http_ctx r false false async (-1) 0 (Some demo_client).

(** A connection that is closed after the response still announces keep-alive:
    the serialiser of bodies ignores the value computed from the parser. *)
Example close_announced_as_keep_alive :
  exists st data, _csilk_send_response true (demo_ctx false (mk_response 200 empty_map (Some (lit "hi")) 2)) =
    Some (st, [StopRequestTimer; Send data; PostResponse false]) /\
  (fun '(m, _) => field_values (lit "connection") (m_fields m)) <$> read_message data = Some [lit "keep-alive"].
Proof. eexists _, _. split; [by vm_compute|by vm_compute]. Qed.

(** An asynchronous handler that ends without a body announces chunks and sends
    none, so the reader never sees the end of the response. *)
Example async_empty_response_never_ends :
  exists st data, _csilk_send_response true (demo_ctx true (mk_response 500 empty_map None 0)) =
    Some (st, [StopRequestTimer; Send data; PostResponse false]) /\
  read_message data = None.
Proof. eexists _, _. split; [by vm_compute|by vm_compute]. Qed.

(** The handshake is written into 1024 bytes whatever the headers' size. *)
Example websocket_head_overflows :
  exists m st, map_set empty_map (lit "X-Long") (replicate 1000 "a"%char) demo_arena = Some (m, st) /\ websocket_head m = None.
Proof. eexists _, _. split; [by vm_compute|by vm_compute]. Qed.

(** A body length without a body makes the serialiser read past its literal. *)
Example missing_body_overread : _csilk_serialize_http1_response (mk_response 200 empty_map None 5) 4096 = None.
Proof. by vm_compute. Qed.

(** Statuses outside the table are sent with the reason of a success. *)
Example reason_of_other_statuses : get_status_text 503 = lit "OK" /\ get_status_text 302 = lit "OK" /\ get_status_text 429 = lit "OK".
Proof. done. Qed.

(** A Content-Length set by the handler is sent beside the framework's. *)
Example handler_content_length_is_duplicated :
  exists m st cs data, map_set empty_map (lit "Content-Length") (lit "5") demo_arena = Some (m, st) /\
    _csilk_send_response true (demo_ctx false (mk_response 200 m (Some (lit "hi")) 2)) =
      Some (cs, [StopRequestTimer; Send data; PostResponse false]) /\ read_message data = None.
Proof. eexists _, _, _, _. split; [by vm_compute|]. split; [by vm_compute|by vm_compute]. Qed.
