(* ===== verification/Response.v ===== *)
(** * Building and streaming responses

    Models src/src/core/primitives/response.c on top of the header map and of
    the serialiser of Http1Serialize.v.  The request arena is any allocator;
    [malloc], [strdup] and [csilk_io_write] take their answers from a list of
    choices (the empty list answers yes).  The bodies here are their bytes; who
    frees them is the subject of BodyPool.v.  The JSON library behind
    [csilk_json_serialize] and the reflection marshaller are arguments.

    The theorems compose the components: what a client reads off the wire after
    a handler has called the response helpers, and after it has streamed a
    response in chunks. *)

From stdpp Require Import gmap.
From S2P Require Import Prelude Arena Allocator HeaderId HeaderMap Connection Http1Serialize.

#[local] Open Scope Z_scope.

(** ** The context *)

Section Context_.
  Context {A : Type}.

Record rctx := mk_rctx {
  base : csilk_ctx_t;
  arena : option A;
  request_headers : csilk_header_map_t;
  answers : list bool;
  aborted : bool;
  response_started : bool;
  conn_closed : bool;
  write_paused : bool;
  write_high_water_mark : Z;
  write_low_water_mark : Z;
  max_write_buffer_size : Z;
  trace : list effect;
}.

Definition set_base (c : rctx) (b : csilk_ctx_t) : rctx :=
  mk_rctx b (arena c) (request_headers c) (answers c) (aborted c) (response_started c) (conn_closed c) (write_paused c)
    (write_high_water_mark c) (write_low_water_mark c) (max_write_buffer_size c) (trace c).
Definition set_arena (c : rctx) (a : A) : rctx :=
  mk_rctx (base c) (Some a) (request_headers c) (answers c) (aborted c) (response_started c) (conn_closed c) (write_paused c)
    (write_high_water_mark c) (write_low_water_mark c) (max_write_buffer_size c) (trace c).
Definition set_answers (c : rctx) (l : list bool) : rctx :=
  mk_rctx (base c) (arena c) (request_headers c) l (aborted c) (response_started c) (conn_closed c) (write_paused c)
    (write_high_water_mark c) (write_low_water_mark c) (max_write_buffer_size c) (trace c).
Definition set_aborted (c : rctx) (b : bool) : rctx :=
  mk_rctx (base c) (arena c) (request_headers c) (answers c) b (response_started c) (conn_closed c) (write_paused c)
    (write_high_water_mark c) (write_low_water_mark c) (max_write_buffer_size c) (trace c).
Definition set_started (c : rctx) (b : bool) : rctx :=
  mk_rctx (base c) (arena c) (request_headers c) (answers c) (aborted c) b (conn_closed c) (write_paused c)
    (write_high_water_mark c) (write_low_water_mark c) (max_write_buffer_size c) (trace c).
Definition set_paused (c : rctx) (b : bool) : rctx :=
  mk_rctx (base c) (arena c) (request_headers c) (answers c) (aborted c) (response_started c) (conn_closed c) b
    (write_high_water_mark c) (write_low_water_mark c) (max_write_buffer_size c) (trace c).
Definition set_marks (c : rctx) (h l m : Z) : rctx :=
  mk_rctx (base c) (arena c) (request_headers c) (answers c) (aborted c) (response_started c) (conn_closed c) (write_paused c)
    h l m (trace c).
Definition emit (c : rctx) (e : effect) : rctx :=
  mk_rctx (base c) (arena c) (request_headers c) (answers c) (aborted c) (response_started c) (conn_closed c) (write_paused c)
    (write_high_water_mark c) (write_low_water_mark c) (max_write_buffer_size c) (trace c ++ [e]).

Definition set_response (b : csilk_ctx_t) (r : response_t) : csilk_ctx_t :=
  mk_http_ctx r (is_websocket b) (is_sse b) (is_async b) (file_fd b) (file_size b) (client b).
Definition set_async (b : csilk_ctx_t) (a : bool) : csilk_ctx_t :=
  mk_http_ctx (response b) (is_websocket b) (is_sse b) a (file_fd b) (file_size b) (client b).
Definition set_client (b : csilk_ctx_t) (cl : client_t) : csilk_ctx_t :=
  mk_http_ctx (response b) (is_websocket b) (is_sse b) (is_async b) (file_fd b) (file_size b) (Some cl).

Definition rsp (c : rctx) : response_t := response (base c).
Definition set_rsp (c : rctx) (r : response_t) : rctx := set_base c (set_response (base c) r).

(** The next answer of the environment. *)
Definition ask (c : rctx) : bool * rctx :=
  match answers c with
  | [] => (true, c)
  | a :: l => (a, set_answers c l)
  end.

(** ** Status, headers, body *)

Definition csilk_status (c : rctx) (st : Z) : rctx :=
  set_rsp c (mk_response st (headers (rsp c)) (body (rsp c)) (body_len (rsp c))).

Definition set_body (c : rctx) (b : option bytes) (n : Z) : rctx :=
  set_rsp c (mk_response (status (rsp c)) (headers (rsp c)) b n).

Definition csilk_response_body_release (c : rctx) : rctx := set_body c None 0.

Definition set_headers (c : rctx) (m : csilk_header_map_t) : rctx :=
  set_rsp c (mk_response (status (rsp c)) m (body (rsp c)) (body_len (rsp c))).

Definition csilk_abort (c : rctx) : rctx := set_aborted c true.

End Context_.

Arguments rctx : clear implicits.

Section Ops.
  Context `{Allocator A}.
  Implicit Types c : rctx A.

Definition csilk_set_header c (k v : bytes) : option (rctx A) :=
  match arena c with
  | None => Some c
  | Some st => '(m, st') ← map_set (headers (rsp c)) k v st; Some (set_arena (set_headers c m) st')
  end.

Definition csilk_add_header c (k v : bytes) : option (rctx A) :=
  match arena c with
  | None => Some c
  | Some st => let '(m, st') := map_add (headers (rsp c)) k v st in Some (set_arena (set_headers c m) st')
  end.

(** The copy in the arena becomes the body; the length is set in any case. *)
Definition arena_body c (st : A) (text : bytes) : rctx A :=
  let '(b, st') := al_strndup text st in
  set_arena (set_body c b (Z.of_nat (length text))) st'.

Definition csilk_string c (st : Z) (msg : option bytes) : rctx A :=
  let c := csilk_response_body_release (csilk_status c st) in
  match msg with
  | None => c
  | Some m =>
      match arena c with
      | Some a => arena_body c a m
      | None => let '(ok, c) := ask c in if ok then set_body c (Some m) (Z.of_nat (length m)) else c
      end
  end.

(** ** Redirect *)

Fixpoint is_prefix (p s : bytes) : bool :=
  match p, s with
  | [], _ => true
  | x :: p', y :: s' => Ascii.eqb x y && is_prefix p' s'
  | _ :: _, [] => false
  end.

(** [strstr(s, p) != NULL]. *)
Fixpoint strstr (s p : bytes) : bool :=
  is_prefix p s || match s with [] => false | _ :: s' => strstr s' p end.

Definition unsafe_location (loc : bytes) : bool :=
  let l0 := nth 0 loc NUL in
  let l1 := nth 1 loc NUL in
  (Ascii.eqb l0 "/" && (Ascii.eqb l1 "/" || Ascii.eqb l1 "\")) ||
  (Ascii.eqb l0 "\" && (Ascii.eqb l1 "\" || Ascii.eqb l1 "/")) ||
  strncasecmp0 loc (lit "http:") 5 || strncasecmp0 loc (lit "https:") 6 ||
  strncasecmp0 loc (lit "javascript:") 11 || strncasecmp0 loc (lit "data:") 5 ||
  strncasecmp0 loc (lit "vbscript:") 9 || strstr loc (lit "://").

Definition location_char (c : ascii) : bool :=
  (32 <=? cval c) && (cval c <=? 126) && negb (Ascii.eqb c CR) && negb (Ascii.eqb c LINE_FEED).

(** The loop that fills [sanitized[1024]]; [j] bytes are written. *)
Fixpoint sanitize_location (loc : bytes) (j : nat) : bytes :=
  match loc with
  | [] => []
  | c :: loc' =>
      if (j <? 1023)%nat then
        if location_char c then c :: sanitize_location loc' (S j) else sanitize_location loc' j
      else []
  end.

Definition csilk_redirect c (st : Z) (location : bytes) : option (rctx A) :=
  let st := if (st <? 300) || (st >? 308) then 302 else st in
  if unsafe_location location then Some (csilk_string (csilk_status c 400) 400 (Some (lit "Invalid redirect URL"))) else
  c ← csilk_set_header c (lit "Location") (sanitize_location location 0);
  Some (csilk_abort (csilk_string (csilk_status c st) st (Some []))).

Definition csilk_redirect_simple c (url : bytes) : option (rctx A) := csilk_redirect c 302 url.

(** ** Cookies *)

(** [%d]. *)
Definition print_d (n : Z) : bytes := if n <? 0 then "-"%char :: dec_loop 10 (- n) [] else dec_loop 10 n [].

(** [pos += snprintf(buf + pos, cap - pos, ...)] for a text that fits; one that
    does not, or that moves the [int] past its range, has no result. *)
Definition sprint (cap : Z) (buf text : bytes) : option bytes :=
  let n := Z.of_nat (length buf + length text) in
  if (n <? cap) && (n <? 2 ^ 31) then Some (buf ++ text) else None.

Definition opt_len (o : option bytes) : Z := from_option (fun s => Z.of_nat (length s)) 0 o.

(** The attributes, appended one after the other. *)
Definition cookie_buffer (buf_size : Z) (name value : bytes) (max_age : Z) (path domain : option bytes)
    (secure http_only : bool) (same_site : option bytes) : option bytes :=
  buf ← sprint buf_size [] (name ++ lit "=" ++ value);
  buf ← (if max_age >? 0 then sprint buf_size buf (lit "; Max-Age=" ++ print_d max_age)
         else if max_age <? 0 then sprint buf_size buf (lit "; Max-Age=0") else Some buf);
  buf ← sprint buf_size buf (lit "; Path=" ++ default (lit "/") path);
  buf ← match domain with Some d => sprint buf_size buf (lit "; Domain=" ++ d) | None => Some buf end;
  buf ← (if secure then sprint buf_size buf (lit "; Secure") else Some buf);
  buf ← (if http_only then sprint buf_size buf (lit "; HttpOnly") else Some buf);
  match same_site with
  | Some (x :: s) => sprint buf_size buf (lit "; SameSite=" ++ x :: s)
  | _ => Some buf
  end.

Definition csilk_set_cookie_ex c (name value : bytes) (max_age : Z) (path domain : option bytes)
    (secure http_only : bool) (same_site : option bytes) : option (rctx A) :=
  match arena c with
  | None => Some c
  | Some st =>
      let buf_size := Z.of_nat (length name) + Z.of_nat (length value) + 256 + opt_len path + opt_len domain +
                      from_option (fun s => Z.of_nat (length s) + 16) 0 same_site in
      let '(p, st') := al_alloc buf_size st in
      let c := set_arena c st' in
      if p =? 0 then Some c else
      buf ← cookie_buffer buf_size name value max_age path domain secure http_only same_site;
      csilk_add_header c (lit "Set-Cookie") buf
  end.

Definition csilk_set_cookie c (name value : bytes) (max_age : Z) (path domain : option bytes) (secure http_only : bool)
  : option (rctx A) := csilk_set_cookie_ex c name value max_age path domain secure http_only None.

(** ** JSON bodies *)

Inductive json_t :=
  | JNull
  | JInt (n : Z)
  | JString (s : bytes)
  | JObject (l : list (bytes * json_t))
  | JArray (l : list json_t).

Section Json.
  Context (csilk_json_serialize : json_t -> option bytes).

Definition content_type_json c : option (rctx A) := csilk_set_header c (lit "Content-Type") (lit "application/json").

(** A heap text becomes the body. *)
Definition heap_body c (text : option bytes) : rctx A :=
  match text with Some b => set_body c (Some b) (Z.of_nat (length b)) | None => c end.

Definition csilk_json c (st : Z) (json : json_t) : option (rctx A) :=
  c ← content_type_json (csilk_status c st);
  let text := csilk_json_serialize json in
  Some (heap_body (csilk_response_body_release c) text).

Definition csilk_json_string c (st : Z) (json_str : bytes) : option (rctx A) :=
  c ← content_type_json (csilk_status c st);
  let c := csilk_response_body_release c in
  Some (set_body c (Some json_str) (Z.of_nat (length json_str))).

(** A double quote. *)
Definition dquote : bytes := ["034"%char].

Definition error_text (msg : bytes) : bytes := lit "{" ++ dquote ++ lit "error" ++ dquote ++ lit ":" ++ dquote ++ msg ++ dquote ++ lit "}".

Definition csilk_json_error c (st : Z) (message : option bytes) : option (rctx A) :=
  c ← content_type_json (csilk_status c st);
  let c := csilk_response_body_release c in
  let needed := Z.of_nat (length (default [] message)) + 32 in
  let text := error_text (default (lit "Unknown error") message) in
  match (if (needed <? 256) && (Z.of_nat (length text) <? 256) then arena c else None) with
  | Some a => Some (arena_body c a text)
  | None => Some (heap_body c (csilk_json_serialize (JObject [(lit "error", JString (default (lit "Unknown error") message))])))
  end.

(** [marshal] is the reflection serialiser at the instance given. *)
Definition csilk_json_marshal_response (marshal : bytes -> option bytes) c (st : Z) (type_name handler_type : option bytes)
  : option (rctx A) :=
  match (match type_name with Some t => Some t | None => handler_type end) with
  | None => Some c
  | Some t =>
      match marshal t with
      | None => Some c
      | Some text =>
          c ← content_type_json (csilk_status c st);
          let c := csilk_response_body_release c in
          Some (set_body c (Some text) (Z.of_nat (length text)))
      end
  end.

(** ** Envelopes *)

Definition csilk_respond_ok c (data : option json_t) : option (rctx A) :=
  csilk_json c 200 (JObject [(lit "code", JInt 0); (lit "message", JString (lit "ok")); (lit "data", default JNull data)]).

Definition csilk_respond_ok_null c : option (rctx A) := csilk_respond_ok c None.

Definition _csilk_default_status_text (status : Z) : bytes :=
  if status =? 400 then lit "Bad Request"
  else if status =? 401 then lit "Unauthorized"
  else if status =? 403 then lit "Forbidden"
  else if status =? 404 then lit "Not Found"
  else if status =? 409 then lit "Conflict"
  else if status =? 422 then lit "Unprocessable Entity"
  else if status =? 429 then lit "Too Many Requests"
  else if status =? 500 then lit "Internal Server Error"
  else if status =? 502 then lit "Bad Gateway"
  else if status =? 503 then lit "Service Unavailable"
  else if status =? 504 then lit "Gateway Timeout"
  else lit "Error".

Definition _csilk_is_safe_json_string (s : bytes) : bool :=
  forallb (fun ch => negb ((cval ch <? 32) || Ascii.eqb ch "034" || Ascii.eqb ch "\")) s.

Definition fail_text (code : Z) (msg : bytes) : bytes :=
  lit "{" ++ dquote ++ lit "code" ++ dquote ++ lit ":" ++ print_d code ++ lit "," ++ dquote ++ lit "message" ++ dquote ++ lit ":" ++
  dquote ++ msg ++ dquote ++ lit "}".

Definition fail_message (http_status : Z) (message : option bytes) : bytes :=
  match message with Some (x :: m) => x :: m | _ => _csilk_default_status_text http_status end.

Definition csilk_respond_fail c (http_status biz_code : Z) (message : option bytes) : option (rctx A) :=
  let code := if biz_code =? 0 then http_status else biz_code in
  let msg := fail_message http_status message in
  c ← content_type_json (csilk_status c http_status);
  let c := csilk_response_body_release c in
  let text := fail_text code msg in
  match (if (Z.of_nat (length msg) <? 384) && _csilk_is_safe_json_string msg && (Z.of_nat (length text) <? 512)
         then arena c else None) with
  | Some a => Some (arena_body c a text)
  | None => Some (heap_body c (csilk_json_serialize (JObject [(lit "code", JInt code); (lit "message", JString msg)])))
  end.

Definition csilk_respond_bad_request c (biz_code : Z) (msg : option bytes) := csilk_respond_fail c 400 biz_code msg.
Definition csilk_respond_unauthorized c (biz_code : Z) (msg : option bytes) := csilk_respond_fail c 401 biz_code msg.
Definition csilk_respond_forbidden c (biz_code : Z) (msg : option bytes) := csilk_respond_fail c 403 biz_code msg.
Definition csilk_respond_not_found c (biz_code : Z) (msg : option bytes) := csilk_respond_fail c 404 biz_code msg.
Definition csilk_respond_conflict c (biz_code : Z) (msg : option bytes) := csilk_respond_fail c 409 biz_code msg.

Definition csilk_respond_page_ex c (array_key : option bytes) (items : option json_t) (total page page_size : Z)
  : option (rctx A) :=
  let key := match array_key with Some (x :: k) => x :: k | _ => lit "items" end in
  csilk_respond_ok c (Some (JObject [(key, default (JArray []) items); (lit "total", JInt total);
                                     (lit "page", JInt page); (lit "page_size", JInt page_size)])).

Definition csilk_respond_page c (items : option json_t) (total page page_size : Z) : option (rctx A) :=
  csilk_respond_page_ex c (Some (lit "items")) items total page page_size.

End Json.

End Ops.

(** ** Pagination *)

Fixpoint digits (s : bytes) : bytes :=
  match s with
  | c :: s' => if is_digit c then c :: digits s' else []
  | [] => []
  end.

(** [strtoll] in base ten: the value, what follows the number, and whether it
    was out of range. Without a digit nothing is consumed. *)
Definition strtoll (s : bytes) : Z * bytes * bool :=
  let t := skip_space s in
  let '(neg, t) := match t with
                   | c :: t' => if cval c =? 45 then (true, t') else if cval c =? 43 then (false, t') else (false, t)
                   | [] => (false, t)
                   end in
  match digits t with
  | [] => (0, s, false)
  | ds =>
      let v := if neg : bool then - digits_value 0 ds else digits_value 0 ds in
      let rest := drop (length ds) t in
      if v <? - 2 ^ 63 then (- 2 ^ 63, rest, true)
      else if v >? 2 ^ 63 - 1 then (2 ^ 63 - 1, rest, true)
      else (v, rest, false)
  end.

Definition _csilk_parse_query_int_strict (s : option bytes) (dflt : Z) : Z :=
  match s with
  | None | Some [] => dflt
  | Some s =>
      let '(v, rest, range) := strtoll s in
      if range || bool_decide (rest = s) || negb (bool_decide (rest = [])) then dflt else v
  end.

(** The page and the page size; the query parameters are the request's. *)
Definition csilk_parse_pagination (query_params : csilk_kv_map_t) (default_size max_size : Z) : option (Z * Z) :=
  let dflt_sz := if default_size >? 0 then default_size else 20 in
  let max_sz := if max_size >? 0 then max_size else 500 in
  q_page ← map_kv_get query_params (Some (lit "page"));
  q_size ← map_kv_get query_params (Some (lit "page_size"));
  let p := _csilk_parse_query_int_strict q_page 1 in
  let s := _csilk_parse_query_int_strict q_size dflt_sz in
  let p := if p <? 1 then 1 else p in
  let s := if s <? 1 then dflt_sz else s in
  let s := if s >? max_sz then max_sz else s in
  Some (p, s).

(** ** Streaming *)

(** [%zx]. *)
Fixpoint hex_loop (fuel : nat) (n : Z) (acc : bytes) : bytes :=
  match fuel with
  | O => acc
  | S fuel' =>
      let d := n `mod` 16 in
      let acc := chr (if d <? 10 then 48 + d else 87 + d) :: acc in
      if n / 16 =? 0 then acc else hex_loop fuel' (n / 16) acc
  end.
Definition print_zx (n : Z) : bytes := hex_loop 16 n [].

Section Stream.
  Context {A : Type}.
  Implicit Types c : rctx A.

Definition closing (cl : client_t) : bool := (cl_state cl =? CSILK_CONN_CLOSING) || (cl_state cl =? CSILK_CONN_CLOSED).

(** The request asked for the connection to be closed; a null value pointer is
    a header that is absent. *)
Definition client_wants_close c : option bool :=
  connection ← map_get (request_headers c) (Some (lit "Connection"));
  Some (match connection with Some v => bool_decide (lower (cstr v) = lit "close") | None => false end).

(** Write to the socket, when the connection is open and the write is taken. *)
Definition _csilk_send_data c (data : bytes) : rctx A :=
  match client (base c) with
  | None => c
  | Some cl =>
      if conn_closed c || closing cl then c else
      let '(ok, c) := ask c in if ok then emit c (Send data) else c
  end.

Definition _csilk_send_data_owned c (data : bytes) : rctx A := _csilk_send_data c data.

Definition chunked_head (st : Z) (status_text conn_val : bytes) : bytes :=
  lit "HTTP/1.1 " ++ print_d st ++ lit " " ++ status_text ++ CRLF ++ lit "Transfer-Encoding: chunked" ++ CRLF ++
  lit "Connection: " ++ conn_val ++ CRLF.

Fixpoint print_headers (cap : Z) (ns : gmap Z csilk_header_t) (l : list Z) (buf : bytes) : option bytes :=
  match l with
  | [] => Some buf
  | a :: l' =>
      h ← ns !! a;
      k ← key h;
      v ← value h;
      buf ← sprint cap buf (cstr k ++ lit ": " ++ cstr v ++ CRLF);
      print_headers cap ns l' buf
  end.

(** The head is written to the socket itself, also on a TLS connection. *)
Definition send_chunked_headers c : option (Z * rctx A) :=
  if conn_closed c then Some (-1, c) else
  match client (base c) with
  | None => Some (-1, c)
  | Some cl =>
      let c := csilk_response_body_release c in
      let st := effective_status (rsp c) in
      let status_text := get_status_text st in
      want_close ← client_wants_close c;
      let conn_val := if want_close : bool then lit "close" else lit "keep-alive" in
      custom ← custom_headers_len (headers (rsp c));
      let text := chunked_head st status_text conn_val in
      let response_len := wrap64 (Z.of_nat (length text) + custom + 2) in
      let cap := wrap64 (response_len + 1) in
      let '(ok, c) := ask c in
      if negb ok then Some (-1, c) else
      let '(ok, c) := ask c in
      if negb ok then Some (-1, c) else
      buf ← sprint cap [] text;
      buf ← print_headers cap (nodes (headers (rsp c))) (in_order (headers (rsp c))) buf;
      buf ← sprint cap buf CRLF;
      let '(ok, c) := ask c in
      if negb ok then Some (-1, c) else Some (0, set_started (emit c (if ssl cl then RawSend buf else Send buf)) true)
  end.

Definition write_chunk_frame c (data : bytes) : rctx A :=
  let size_text := print_zx (Z.of_nat (length data)) ++ CRLF in
  let '(ok, c) := ask c in
  if ok then _csilk_send_data_owned c (size_text ++ data ++ CRLF) else c.

(** [q0] and [q1] are the bytes queued before and after the write. *)
Definition csilk_response_write c (data : bytes) (q0 q1 : Z) : option (Z * rctx A) :=
  let len := Z.of_nat (length data) in
  match client (base c) with
  | None => Some (-1, c)
  | Some cl =>
      if conn_closed c || closing cl then Some (-1, c) else
      let c := set_base c (set_client (base c)
                 (mk_http_client (csilk_conn_set_state (cl_state cl) CSILK_CONN_STREAMING) (http2 cl) (ssl cl) (should_keep_alive cl))) in
      if (max_write_buffer_size c >? 0) && (wrap64 (q0 + len) >? max_write_buffer_size c) then Some (-1, c) else
      '(r, c) ← (if response_started c then Some (0, c) else
                   '(r, c) ← send_chunked_headers c;
                   Some (r, if r =? 0 then set_base (set_started c true) (set_async (base c) true) else c));
      if negb (r =? 0) then Some (-1, c) else
      if len =? 0 then
        Some (if (write_high_water_mark c =? 0) || (q0 <? write_high_water_mark c) then 1 else 0, c)
      else
        let c := write_chunk_frame c data in
        if (write_high_water_mark c >? 0) && (q1 >=? write_high_water_mark c) then Some (0, set_paused c true)
        else Some (1, c)
  end.

(** [q] is the number of bytes queued. *)
Definition csilk_response_get_write_queue_size c (q : Z) : Z :=
  match client (base c) with None => 0 | Some _ => q end.

Definition csilk_response_is_writable c (q : Z) : bool :=
  match client (base c) with
  | None => false
  | Some _ =>
      if conn_closed c then false else
      if write_paused c then false else
      let q := csilk_response_get_write_queue_size c q in
      (write_high_water_mark c =? 0) || (q <? write_high_water_mark c)
  end.

Definition csilk_response_set_watermarks c (high low max : Z) : rctx A :=
  set_marks c high (if low <=? high then low else high / 2) max.

(** [_csilk_check_and_trigger_drain]: whether the drain callback is due. *)
Definition _csilk_check_and_trigger_drain c (q : Z) : bool * rctx A :=
  if write_paused c && (q <=? write_low_water_mark c) then (true, set_paused c false) else (false, c).

Definition csilk_response_end c : option (rctx A) :=
  match client (base c) with
  | None => Some c
  | Some cl =>
      if conn_closed c then Some c else
      c ← (if response_started c then Some c else
             '(_, c) ← send_chunked_headers c; Some (set_base c (set_async (base c) true)));
      if closing cl then Some c else
      let c := _csilk_send_data c (lit "0" ++ CRLF ++ CRLF) in
      if http2 cl then Some c else
      want_close ← client_wants_close c;
      Some (emit c (PostResponse (negb want_close)))
  end.

End Stream.

(** ** Chunks are read back *)

Lemma hex_char d : 0 <= d < 16 ->
  hex_digit (chr (if d <? 10 then 48 + d else 87 + d)) = Some d /\ chr (if d <? 10 then 48 + d else 87 + d) <> CR.
Proof.
  intros Hd. assert (d = 0 \/ d = 1 \/ d = 2 \/ d = 3 \/ d = 4 \/ d = 5 \/ d = 6 \/ d = 7 \/ d = 8 \/ d = 9 \/ d = 10 \/
    d = 11 \/ d = 12 \/ d = 13 \/ d = 14 \/ d = 15) as Hc by lia.
  repeat (destruct Hc as [->|Hc]; [by vm_compute|]). subst d. by vm_compute.
Qed.

Lemma hex_loop_value f n : 0 <= n < 16 ^ Z.of_nat f -> forall a, exists w, forall rest,
  hex_value a (hex_loop f n rest) = hex_value (a * w + n) rest.
Proof.
  revert n. induction f as [|f IH]; intros n Hn a.
  { exists 1. intros rest. cbn [hex_loop]. f_equal. cbn in Hn. lia. }
  cbn [hex_loop]. destruct (hex_char (n `mod` 16)) as [Hd _]; [apply Z.mod_pos_bound; lia|].
  destruct (Z.eqb_spec (n / 16) 0) as [Hz|Hz].
  - exists 16. intros rest. cbn [hex_value]. rewrite Hd. cbn. f_equal. pose proof (Z.div_mod n 16). lia.
  - destruct (IH (n / 16)) with (a := a) as [w Hw].
    { rewrite Nat2Z.inj_succ, Z.pow_succ_r in Hn by lia. split; [apply Z.div_pos; lia|apply Z.div_lt_upper_bound; lia]. }
    exists (w * 16). intros rest. rewrite Hw. cbn [hex_value]. rewrite Hd. cbn. f_equal. pose proof (Z.div_mod n 16). lia.
Qed.

Lemma hex_loop_shape f n acc : CR ∉ acc -> CR ∉ hex_loop f n acc /\ (f <> 0%nat \/ acc <> [] -> hex_loop f n acc <> []).
Proof.
  revert n acc. induction f as [|f IH]; intros n acc Ha; cbn [hex_loop]; [split; [done|]; by intros []|].
  destruct (hex_char (n `mod` 16)) as [_ Hc]; [apply Z.mod_pos_bound; lia|].
  assert (CR ∉ chr (if n `mod` 16 <? 10 then 48 + n `mod` 16 else 87 + n `mod` 16) :: acc) as Ha'
    by (apply not_elem_of_cons; split; congruence).
  destruct (_ =? 0); [by split|]. destruct (IH (n / 16) _ Ha') as [H1 H2]. split; [done|]. intros _. apply H2. by right.
Qed.

Lemma print_zx_spec n : 0 <= n < 2 ^ 64 -> read_hex (print_zx n) = Some n /\ CR ∉ print_zx n.
Proof.
  intros Hn. destruct (hex_loop_shape 16 n []) as [Hc Hne]; [by apply not_elem_of_nil|]. split; [|done].
  destruct (hex_loop_value 16 n) with (a := 0) as [w Hw]; [change (16 ^ Z.of_nat 16) with (2 ^ 64); lia|]. specialize (Hw []).
  unfold read_hex, print_zx. destruct (hex_loop 16 n []) eqn:E; [exfalso; apply Hne; [left; lia|done]|].
  rewrite Hw. cbn. by f_equal.
Qed.

Definition frame (data : bytes) : bytes := (print_zx (Z.of_nat (length data)) ++ CRLF) ++ data ++ CRLF.
Definition last_chunk : bytes := lit "0" ++ CRLF ++ CRLF.

Lemma read_empty_line r : read_line (CRLF ++ r) = Some ([], r).
Proof. done. Qed.

Lemma read_chunks_spec fuel chunks rest :
  Forall (fun d => d <> [] /\ Z.of_nat (length d) < 2 ^ 64) chunks -> (length chunks < fuel)%nat ->
  read_chunks fuel (concat (map frame chunks) ++ last_chunk ++ rest) = Some (concat chunks, rest).
Proof.
  intros Hc. revert fuel. induction Hc as [|d chunks [Hne Hl] _ IH]; intros fuel Hf.
  { destruct fuel; [cbn in Hf; lia|]. done. }
  destruct fuel as [|fuel]; [cbn in Hf; lia|]. cbn [map concat read_chunks]. unfold frame at 1. rewrite <- !app_assoc.
  destruct (print_zx_spec (Z.of_nat (length d))) as [Hr Hcr]; [lia|].
  rewrite read_line_spec by done. cbn [mbind option_bind]. rewrite Hr. cbn [mbind option_bind].
  rewrite (proj2 (Z.eqb_neq _ _)) by (destruct d; [done|cbn; lia]). rewrite split_at_app. cbn [mbind option_bind].
  rewrite read_empty_line. cbn [mbind option_bind].
  rewrite IH by (cbn in Hf; lia). done.
Qed.

Lemma frames_length chunks : (length chunks <= length (concat (map frame chunks)))%nat.
Proof.
  induction chunks as [|d l IH]; [done|]. cbn [map concat length]. rewrite length_app. unfold frame at 1.
  rewrite !length_app, length_CRLF. lia.
Qed.

(** A chunked response is read back exactly. *)
Lemma read_chunked st conn fs chunks rest :
  100 <= st <= 999 -> bodiless st = false -> Forall printable fs -> conn = lit "close" \/ conn = lit "keep-alive" ->
  field_values (lit "Content-Length") fs = [] -> field_values (lit "Transfer-Encoding") fs = [] ->
  Forall (fun d => d <> [] /\ Z.of_nat (length d) < 2 ^ 64) chunks ->
  read_message (head st (control_fields true [] conn ++ fs) ++ concat (map frame chunks) ++ last_chunk ++ rest) =
  Some (mk_message st (get_status_text st) (trimmed (control_fields true [] conn ++ fs)) (concat chunks), rest).
Proof.
  intros Hst Hbl Hp Hconn Hcl Hte Hch. unfold head. rewrite <- !app_assoc.
  assert (Forall printable (control_fields true [] conn ++ fs)) as Hall.
  { apply Forall_app. split; [|done]. destruct Hconn as [-> | ->]; repeat constructor; cbn [fst snd]; try done;
      apply (bool_decide_unpack _); by vm_compute. }
  rewrite read_head_spec by done. unfold read_body. rewrite Hbl.
  rewrite !field_values_trimmed, !field_values_app, Hcl, Hte, !app_nil_r. unfold control_fields.
  rewrite field_values_hit, (field_values_miss (lit "Transfer-Encoding")), !(field_values_miss (lit "Content-Length")) by by vm_compute.
  change (field_values _ []) with (@nil bytes). cbn [map]. change (trim (lit "chunked")) with (lit "chunked").
  rewrite bool_decide_true by by vm_compute. rewrite read_chunks_spec; [done|done|].
  pose proof (frames_length chunks). rewrite length_app. lia.
Qed.

(** ** The head of a streamed response *)

Lemma print_d_status st : 100 <= st <= 999 ->
  print_d st = [chr (48 + st / 100); chr (48 + (st / 10) `mod` 10); chr (48 + st `mod` 10)].
Proof.
  intros Hst. unfold print_d. rewrite (proj2 (Z.ltb_ge st 0)) by lia. cbn [dec_loop].
  rewrite !Z.div_div by lia. change (10 * 10) with 100. change (100 * 10) with 1000.
  rewrite (proj2 (Z.eqb_neq (st / 10) 0)), (proj2 (Z.eqb_neq (st / 100) 0)) by (Z.to_euclidean_division_equations; lia).
  rewrite (proj2 (Z.eqb_eq (st / 1000) 0)) by (Z.to_euclidean_division_equations; lia).
  rewrite (Z.mod_small (st / 100) 10) by (Z.to_euclidean_division_equations; lia). done.
Qed.

Lemma chunked_head_spec st conn : 100 <= st <= 999 ->
  chunked_head st (get_status_text st) conn = status_line st (get_status_text st) ++ wire_fields (control_fields true [] conn).
Proof.
  intros Hst. unfold chunked_head, status_line. rewrite print_d_status by done.
  unfold wire_fields, control_fields. cbn [map concat]. rewrite app_nil_r. unfold wire_field. cbn [fst snd].
  rewrite <- !app_assoc. cbn [app]. rewrite <- !app_assoc. done.
Qed.

Lemma sprint_ok cap buf text :
  Z.of_nat (length buf + length text) < cap -> Z.of_nat (length buf + length text) < 2 ^ 31 -> sprint cap buf text = Some (buf ++ text).
Proof. intros H1 H2. unfold sprint. by rewrite (proj2 (Z.ltb_lt _ _) H1), (proj2 (Z.ltb_lt _ _) H2). Qed.

Definition c_strings (fs : list (bytes * bytes)) : Prop := Forall (fun kv => nul_free kv.1 /\ nul_free kv.2) fs.

Lemma print_headers_spec cap ns l buf :
  nodes_ok ns l -> c_strings (fields_in ns l) ->
  Z.of_nat (length buf + length (wire_fields (fields_in ns l))) < cap ->
  Z.of_nat (length buf + length (wire_fields (fields_in ns l))) < 2 ^ 31 ->
  print_headers cap ns l buf = Some (buf ++ wire_fields (fields_in ns l)).
Proof.
  intros Hl. revert buf. induction Hl as [|a l (h & k & v & E & Hn) _ IH]; intros buf Hcs H1 H2; [by rewrite app_nil_r|].
  rewrite (fields_in_cons _ _ _ _ _ _ E Hn), wire_fields_cons in *. apply Forall_cons in Hcs as [[Hk Hv] Hcs]. cbn [fst snd] in *.
  rewrite length_app, wire_field_length in *. cbn [print_headers]. rewrite E. cbn [mbind option_bind].
  rewrite (no_key _ _ _ Hn), (no_value _ _ _ Hn). cbn [mbind option_bind]. rewrite !cstr_id by done.
  change (k ++ lit ": " ++ v ++ CRLF) with (wire_field (k, v)).
  rewrite sprint_ok by (rewrite wire_field_length; lia). cbn [mbind option_bind].
  rewrite IH by (done || (rewrite length_app, wire_field_length; lia)). by rewrite <- app_assoc.
Qed.

(** ** A streamed response *)

(** One call of [csilk_response_write]: the data and the queue before and after. *)
Record write_call := mk_write { w_data : bytes; w_before : Z; w_after : Z }.

Fixpoint run_writes {A} (ws : list write_call) (c : rctx A) : option (list Z * rctx A) :=
  match ws with
  | [] => Some ([], c)
  | w :: ws' =>
      '(r, c) ← csilk_response_write c (w_data w) (w_before w) (w_after w);
      '(rs, c) ← run_writes ws' c;
      Some (r :: rs, c)
  end.

(** A write is refused when the queue and its data exceed the hard limit. *)
Definition write_refused (max : Z) (w : write_call) : bool :=
  (max >? 0) && (wrap64 (w_before w + Z.of_nat (length (w_data w))) >? max).

(** The answer of a write that is not refused. *)
Definition write_answer (max high : Z) (w : write_call) : Z :=
  if write_refused max w then -1 else
  if Z.of_nat (length (w_data w)) =? 0 then (if (high =? 0) || (w_before w <? high) then 1 else 0)
  else if (high >? 0) && (w_after w >=? high) then 0 else 1.

Definition accepted (max : Z) (ws : list write_call) : list bytes :=
  map w_data (List.filter (fun w => negb (write_refused max w)) ws).

Section Streaming.
  Context {A : Type} (rq m : csilk_header_map_t) (given rgiven : list Z) (st high max : Z) (want : bool).
  Context (Hst : 100 <= st <= 999) (Hbl : bodiless st = false).
  Context (Hrq : forall c : rctx A, request_headers c = rq -> client_wants_close c = Some want).
  Context (Hn : nodes_ok (nodes m) (in_order m)) (Hcs : c_strings (fields m)).
  Context (Hsz : Z.of_nat (length (wire_fields (fields m))) + 256 < 2 ^ 31).
  Implicit Types c : rctx A.

Definition conn_text : bytes := if want then lit "close" else lit "keep-alive".
Definition stream_head : bytes := head st (control_fields true [] conn_text ++ fields m).

Record stream_inv c (chunks : list bytes) : Prop := {
  si_client : exists cl, client (base c) = Some cl /\ closing cl = false /\ http2 cl = false /\ ssl cl = false;
  si_open : conn_closed c = false;
  si_answers : answers c = [];
  si_headers : headers (rsp c) = m;
  si_status : effective_status (rsp c) = st;
  si_request : request_headers c = rq;
  si_high : write_high_water_mark c = high;
  si_max : max_write_buffer_size c = max;
  si_chunks : Forall (fun d => d <> [] /\ Z.of_nat (length d) < 2 ^ 64) chunks;
  si_none : response_started c = false -> chunks = [];
  si_sent : sent (trace c) = if response_started c then stream_head ++ concat (map frame chunks) else [];
}.

Lemma sent_app a b : sent (a ++ b) = sent a ++ sent b.
Proof. unfold sent. by rewrite map_app, concat_app. Qed.

(** The same context with a new response, connection state or flags. *)
Lemma ask_yes c : answers c = [] -> ask c = (true, c).
Proof. unfold ask. by intros ->. Qed.

Lemma head_fits conn : conn = conn_text ->
  Z.of_nat (length (chunked_head st (get_status_text st) conn)) + Z.of_nat (length (wire_fields (fields m))) + 3 < 2 ^ 31 /\
  (length conn <= 10)%nat.
Proof.
  intros ->. assert (length conn_text <= 10)%nat as Hc by (unfold conn_text; destruct want; cbn; lia). split; [|done].
  rewrite chunked_head_spec, length_app, status_line_length by done.
  pose proof (control_length true [] conn_text ltac:(cbn; lia) Hc). pose proof (status_text_length st). lia.
Qed.

Lemma send_chunked_headers_spec c :
  stream_inv c [] -> response_started c = false ->
  exists c', send_chunked_headers c = Some (0, c') /\ stream_inv c' [] /\ response_started c' = true.
Proof.
  intros I Hs. destruct (si_client _ _ I) as (cl & Ecl & Hclo & Hh2 & Htls). unfold send_chunked_headers.
  rewrite (si_open _ _ I), Ecl. set (c1 := csilk_response_body_release c).
  assert (headers (rsp c1) = m /\ effective_status (rsp c1) = st /\ request_headers c1 = rq /\ answers c1 = [])
    as (Eh & Es & Er & Ea) by (split_and!; apply I).
  rewrite Es, (Hrq c1 Er), Eh. cbn [mbind option_bind]. fold conn_text.
  destruct (head_fits conn_text eq_refl) as [Hf Hc].
  unfold custom_headers_len. rewrite headers_len_spec by (done || (unfold fields in Hsz; lia)). cbn [mbind option_bind].
  fold (fields m). rewrite Z.add_0_l, !wrap64_small by (rewrite ?wrap64_small; lia). rewrite !ask_yes by done. cbn [negb].
  rewrite Eh. rewrite sprint_ok by (cbn [length]; lia). cbn [mbind option_bind].
  rewrite print_headers_spec by (done || (cbn [app]; unfold fields in *; lia)). cbn [mbind option_bind]. fold (fields m).
  rewrite sprint_ok by (rewrite !length_app, length_CRLF; cbn [length]; lia). cbn [mbind option_bind].
  rewrite Htls. cbn [negb]. eexists. split; [done|]. split; [|done].
  constructor; try apply I; try done. cbn [trace set_started emit response_started c1 csilk_response_body_release set_body set_rsp set_base]. rewrite sent_app, (si_sent _ _ I), Hs. unfold sent, stream_head, head. cbn [map concat].
  rewrite !app_nil_r, app_nil_l, chunked_head_spec, wire_fields_app, <- !app_assoc by done. done.
Qed.

Lemma streaming_not_closing cl :
  closing cl = false ->
  closing (mk_http_client (csilk_conn_set_state (cl_state cl) CSILK_CONN_STREAMING) (http2 cl) (ssl cl) (should_keep_alive cl)) = false.
Proof.
  unfold closing. cbn. intros H. unfold csilk_conn_set_state. destruct (_ =? CSILK_CONN_STREAMING); [done|].
  by destruct (negb _).
Qed.

Lemma stream_inv_set_client c chunks cl :
  stream_inv c chunks -> closing cl = false -> http2 cl = false -> ssl cl = false -> stream_inv (set_base c (set_client (base c) cl)) chunks.
Proof. intros I Hc Hh Ht. constructor; try apply I. by exists cl. Qed.

Lemma stream_inv_paused c chunks b : stream_inv c chunks -> stream_inv (set_paused c b) chunks.
Proof. intros I. constructor; apply I. Qed.

Lemma stream_inv_async c chunks : stream_inv c chunks -> response_started c = true ->
  stream_inv (set_base (set_started c true) (set_async (base c) true)) chunks.
Proof. intros I Hs. constructor; try apply I; [done|]. cbn [trace response_started set_base set_started]. by rewrite (si_sent _ _ I), Hs. Qed.

Lemma write_chunk_frame_spec c chunks d :
  stream_inv c chunks -> response_started c = true -> d <> [] -> Z.of_nat (length d) < 2 ^ 64 ->
  stream_inv (write_chunk_frame c d) (chunks ++ [d]).
Proof.
  intros I Hs Hne Hl. unfold write_chunk_frame, _csilk_send_data_owned, _csilk_send_data. rewrite ask_yes by apply I.
  destruct (si_client _ _ I) as (cl & E & Hc & Hh & Htls). rewrite E, (si_open _ _ I), Hc, ask_yes by apply I. cbn [orb].
  constructor; try apply I; [..|].
  - apply Forall_app. split; [apply I|by constructor].
  - cbn [response_started emit]. congruence.
  - cbn [response_started emit trace]. rewrite sent_app, (si_sent _ _ I), Hs, map_app, concat_app, <- app_assoc. done.
Qed.

(** The headers go out with the first write that is accepted. *)
Lemma ensure_head_spec c chunks :
  stream_inv c chunks ->
  exists c', (if response_started c then Some (0, c) else
                '(r, c) ← send_chunked_headers c;
                Some (r, if r =? 0 then set_base (set_started c true) (set_async (base c) true) else c)) = Some (0, c') /\
    stream_inv c' chunks /\ response_started c' = true.
Proof.
  intros I. destruct (response_started c) eqn:Hs; [by exists c|]. pose proof (si_none _ _ I Hs) as ->.
  destruct (send_chunked_headers_spec c I Hs) as (c' & -> & I' & Hs'). cbn [mbind option_bind].
  eexists. split; [done|]. split; [by apply stream_inv_async|done].
Qed.

Lemma response_write_spec c chunks w :
  stream_inv c chunks -> Z.of_nat (length (w_data w)) < 2 ^ 64 ->
  exists c', csilk_response_write c (w_data w) (w_before w) (w_after w) = Some (write_answer max high w, c') /\
    exists more, stream_inv c' (chunks ++ more) /\ concat more = if write_refused max w then [] else w_data w.
Proof.
  intros I Hl. destruct (si_client _ _ I) as (cl & E & Hc & Hh & Htls). unfold csilk_response_write, write_answer.
  rewrite E, (si_open _ _ I), Hc. cbn [orb]. cbn zeta. set (c1 := set_base c _).
  assert (stream_inv c1 chunks) as I1 by (apply stream_inv_set_client; [done|by apply streaming_not_closing|done|done]).
  rewrite (si_max _ _ I1). fold (write_refused max w). destruct (write_refused max w) eqn:Er.
  { exists c1. split; [done|]. exists []. rewrite app_nil_r. done. }
  destruct (ensure_head_spec c1 chunks I1) as (c2 & -> & I2 & Hs2). cbn [mbind option_bind Z.eqb negb].
  destruct (Z.eqb_spec (Z.of_nat (length (w_data w))) 0) as [Hz|Hz].
  { rewrite (si_high _ _ I2). eexists. split; [done|]. exists []. rewrite app_nil_r. split; [done|]. by destruct (w_data w). }
  assert (stream_inv (write_chunk_frame c2 (w_data w)) (chunks ++ [w_data w])) as I3
    by (apply write_chunk_frame_spec; try done; intros Ed; by rewrite Ed in Hz).
  rewrite (si_high _ _ I3). destruct (_ && _); (eexists; split; [done|]); exists [w_data w].
  - split; [by apply stream_inv_paused|by rewrite concat_cons, app_nil_r].
  - split; [done|by rewrite concat_cons, app_nil_r].
Qed.

Lemma run_writes_spec ws c chunks :
  stream_inv c chunks -> Forall (fun w => Z.of_nat (length (w_data w)) < 2 ^ 64) ws ->
  exists c' chunks', run_writes ws c = Some (map (write_answer max high) ws, c') /\ stream_inv c' chunks' /\
    concat chunks' = concat chunks ++ concat (accepted max ws).
Proof.
  intros I Hw. revert c chunks I. induction Hw as [|w ws Hl _ IH]; intros c chunks I.
  { exists c, chunks. by rewrite app_nil_r. }
  destruct (response_write_spec c chunks w I Hl) as (c1 & E1 & more & I1 & Hm).
  destruct (IH _ _ I1) as (c2 & chunks2 & E2 & I2 & Hc). exists c2, chunks2. cbn [run_writes map]. rewrite E1. cbn [mbind option_bind].
  rewrite E2. split; [done|]. split; [done|]. rewrite Hc, concat_app, Hm, <- app_assoc. unfold accepted. cbn [List.filter].
  by destruct (write_refused max w).
Qed.

Lemma response_end_spec c chunks :
  stream_inv c chunks ->
  exists c', csilk_response_end c = Some c' /\ sent (trace c') = stream_head ++ concat (map frame chunks) ++ last_chunk.
Proof.
  intros I. destruct (si_client _ _ I) as (cl & E & Hc & Hh & Htls). unfold csilk_response_end. rewrite E, (si_open _ _ I).
  assert (exists c1, (if response_started c then Some c else
             '(_, c) ← send_chunked_headers c; Some (set_base c (set_async (base c) true))) = Some c1 /\
             stream_inv c1 chunks /\ response_started c1 = true) as (c1 & -> & I1 & Hs1).
  { destruct (response_started c) eqn:Hs; [by exists c|]. pose proof (si_none _ _ I Hs) as ->.
    destruct (send_chunked_headers_spec c I Hs) as (c' & -> & I' & Hs'). cbn [mbind option_bind].
    eexists. split; [done|]. split; [|done]. constructor; try apply I'. }
  cbn [mbind option_bind]. rewrite Hc. destruct (si_client _ _ I1) as (cl1 & E1 & Hc1 & Hh1 & _).
  unfold _csilk_send_data. rewrite E1, (si_open _ _ I1), Hc1, ask_yes, Hh by apply I1. cbn [orb].
  rewrite Hrq by apply I1. cbn [mbind option_bind]. eexists. split; [done|]. cbn [trace emit].
  rewrite !sent_app, (si_sent _ _ I1), Hs1, <- !app_assoc. do 2 f_equal.
Qed.

End Streaming.

(** A context before its response has started, on an open HTTP/1.1 connection
    without TLS; no allocation and no write fails. *)
Record ready {A} (c : rctx A) (given rgiven : list Z) : Prop := {
  rd_client : exists cl, client (base c) = Some cl /\ open_http1 cl /\ ssl cl = false;
  rd_open : conn_closed c = false;
  rd_answers : answers c = [];
  rd_started : response_started c = false;
  rd_trace : trace c = [];
  rd_request : map_inv (request_headers c) rgiven;
  rd_headers : map_inv (headers (rsp c)) given;
}.

Lemma wants_close_some {A} (c : rctx A) rgiven :
  map_inv (request_headers c) rgiven ->
  exists want, forall c' : rctx A, request_headers c' = request_headers c -> client_wants_close c' = Some want.
Proof.
  intros Hm. eexists. intros c' E. unfold client_wants_close.
  rewrite E, (map_get_spec _ _ (lit "Connection") Hm); [done|apply (bool_decide_unpack _); by vm_compute..].
Qed.


(** Side conditions on literals. *)
Ltac lit_ok := first [assumption | apply (bool_decide_unpack _); by vm_compute | by vm_compute].

(** ** Handlers: scripts of response calls *)

Inductive rop :=
  | RStatus (st : Z)
  | RString (st : Z) (msg : option bytes)
  | RSetHeader (k v : bytes)
  | RAddHeader (k v : bytes)
  | RRedirect (st : Z) (location : bytes)
  | RCookie (name value : bytes) (max_age : Z) (path domain : option bytes) (secure http_only : bool) (same_site : option bytes)
  | RJson (st : Z) (json : json_t)
  | RJsonString (st : Z) (text : bytes)
  | RJsonError (st : Z) (msg : option bytes)
  | RFail (st biz : Z) (msg : option bytes).

Section Scripts.
  Context `{Allocator A}.
  Context (render : json_t -> option bytes).
  Implicit Types c : rctx A.

Definition run_rop (o : rop) c : option (rctx A) :=
  match o with
  | RStatus st => Some (csilk_status c st)
  | RString st msg => Some (csilk_string c st msg)
  | RSetHeader k v => csilk_set_header c k v
  | RAddHeader k v => csilk_add_header c k v
  | RRedirect st loc => csilk_redirect c st loc
  | RCookie n v a p d s h ss => csilk_set_cookie_ex c n v a p d s h ss
  | RJson st j => csilk_json render c st j
  | RJsonString st t => csilk_json_string c st t
  | RJsonError st msg => csilk_json_error render c st msg
  | RFail st biz msg => csilk_respond_fail render c st biz msg
  end.

Fixpoint run_rops (l : list rop) c : option (rctx A) :=
  match l with
  | [] => Some c
  | o :: l' => c ← run_rop o c; run_rops l' c
  end.

(** *** The reference: what a script of calls means *)

Record a_resp := mk_aresp { a_status : Z; a_vals : amap; a_body : bytes }.

(** CR and LF are removed from names and values; a name with nothing left is ignored. *)
Definition a_hset (am : amap) (k v : bytes) : amap :=
  if decide (clean k = []) then am else a_set am (clean k) (Some (clean v)).
Definition a_hadd (am : amap) (k v : bytes) : amap :=
  if decide (clean k = []) then am else a_add am (clean k) (Some (clean v)).
Definition a_json_type (am : amap) : amap := a_hset am (lit "Content-Type") (lit "application/json").

Definition cookie_text (name value : bytes) (max_age : Z) (path domain : option bytes) (secure http_only : bool)
    (same_site : option bytes) : bytes :=
  (name ++ lit "=" ++ value) ++
  (if max_age >? 0 then lit "; Max-Age=" ++ print_d max_age else if max_age <? 0 then lit "; Max-Age=0" else []) ++
  (lit "; Path=" ++ default (lit "/") path) ++
  from_option (fun d => lit "; Domain=" ++ d) [] domain ++
  (if secure then lit "; Secure" else []) ++ (if http_only then lit "; HttpOnly" else []) ++
  match same_site with Some (x :: s) => lit "; SameSite=" ++ x :: s | _ => [] end.

Definition error_body (msg : option bytes) : bytes :=
  let text := error_text (default (lit "Unknown error") msg) in
  if (Z.of_nat (length (default [] msg)) + 32 <? 256) && (Z.of_nat (length text) <? 256) then text
  else default [] (render (JObject [(lit "error", JString (default (lit "Unknown error") msg))])).

Definition fail_body (st biz : Z) (message : option bytes) : bytes :=
  let code := if biz =? 0 then st else biz in
  let msg := fail_message st message in
  let text := fail_text code msg in
  if (Z.of_nat (length msg) <? 384) && _csilk_is_safe_json_string msg && (Z.of_nat (length text) <? 512) then text
  else default [] (render (JObject [(lit "code", JInt code); (lit "message", JString msg)])).

Definition a_rop (o : rop) (r : a_resp) : a_resp :=
  match o with
  | RStatus st => mk_aresp st (a_vals r) (a_body r)
  | RString st msg => mk_aresp st (a_vals r) (default [] msg)
  | RSetHeader k v => mk_aresp (a_status r) (a_hset (a_vals r) k v) (a_body r)
  | RAddHeader k v => mk_aresp (a_status r) (a_hadd (a_vals r) k v) (a_body r)
  | RRedirect st loc =>
      if unsafe_location loc then mk_aresp 400 (a_vals r) (lit "Invalid redirect URL")
      else mk_aresp (if (st <? 300) || (st >? 308) then 302 else st)
             (a_hset (a_vals r) (lit "Location") (take 1023 (List.filter location_char loc))) []
  | RCookie n v a p d s h ss => mk_aresp (a_status r) (a_hadd (a_vals r) (lit "Set-Cookie") (cookie_text n v a p d s h ss)) (a_body r)
  | RJson st j => mk_aresp st (a_json_type (a_vals r)) (default [] (render j))
  | RJsonString st t => mk_aresp st (a_json_type (a_vals r)) t
  | RJsonError st msg => mk_aresp st (a_json_type (a_vals r)) (error_body msg)
  | RFail st biz msg => mk_aresp st (a_json_type (a_vals r)) (fail_body st biz msg)
  end.

Definition a_rops (l : list rop) (r : a_resp) : a_resp := foldl (fun r o => a_rop o r) r l.

(** Arguments are C strings of representable size; header names have no colon
    and are not those that frame the message. *)
Definition name_ok (k : bytes) : Prop := nul_free k /\ small k /\ ":"%char ∉ k /\ ~ framing_name (clean k).
Definition opt_ok (o : option bytes) : Prop := from_option nul_free True o.
Definition rop_ok (o : rop) : Prop :=
  match o with
  | RSetHeader k v | RAddHeader k v => name_ok k /\ nul_free v /\ small v
  | RString _ (Some msg) => small msg
  | RCookie n v a p d _ _ ss =>
      nul_free n /\ nul_free v /\ opt_ok p /\ opt_ok d /\ opt_ok ss /\ - 2 ^ 31 <= a < 2 ^ 31 /\
      Z.of_nat (length n) + Z.of_nat (length v) + opt_len p + opt_len d + opt_len ss + 512 < 2 ^ 31
  | _ => True
  end.

(** *** Invariant *)

Definition node_wire (h : csilk_header_t) : Prop := exists k v, node_ok h k v /\ nul_free k /\ nul_free v.

Record wire_map (m : csilk_header_map_t) (given : list Z) : Prop := {
  wm_inv : map_inv m given;
  wm_nodes : map_Forall (fun _ h => node_wire h) (nodes m);
}.

Lemma clean_pair_some k v (st : A) ck cv st' :
  clean_pair k v st = (Some (ck, cv), st') -> ck = clean k /\ cv = clean v /\ ck <> [].
Proof.
  unfold clean_pair, _csilk_sanitize_header_str. destruct (al_alloc _ st) as [p st1]. destruct (p =? 0); [done|].
  fold (clean k). destruct (clean k) as [|x ck'] eqn:E; [done|]. destruct (al_alloc _ st1) as [q st2]. destruct (q =? 0); [done|].
  by intros [= <- <- <-].
Qed.

Lemma clean_sub (x : ascii) s : x ∈ clean s -> x ∈ s.
Proof. intros H0%list_elem_of_In. apply filter_In in H0 as [H0 _]. by apply list_elem_of_In. Qed.

Lemma clean_printable k v : clean k <> [] -> ":"%char ∉ k -> printable (clean k, clean v).
Proof.
  intros Hne Hc. constructor; cbn [fst snd]; [done|apply clean_cr| |apply clean_cr]. intros H0. by apply Hc, clean_sub.
Qed.

Lemma node_wire_new k v hs i :
  nul_free k -> nul_free v -> ":"%char ∉ k -> clean k <> [] ->
  node_wire (mk_header (Some (clean k)) (Some (clean v)) (length (clean k)) (length (clean v)) hs i).
Proof.
  intros Hk Hv Hc Hne. exists (clean k), (clean v). split; [|split; by apply clean_nul].
  constructor; try done. by apply clean_printable.
Qed.

Lemma nodes_point m i a : nodes (point_known m i a) = nodes m.
Proof. unfold point_known. by case_decide. Qed.

Lemma wire_write m a v :
  nul_free v -> map_Forall (fun _ h => node_wire h) (nodes m) ->
  map_Forall (fun _ h => node_wire h) (nodes (write_value m a (Some (clean v)) (length (clean v)))).
Proof.
  intros Hv Hm b h. cbn. rewrite lookup_alter_Some. intros [(-> & h' & E & ->)|[_ E]]; [|by apply (Hm b)].
  destruct (Hm _ _ E) as (k & v' & Hn & Hk & _). exists k, (clean v). split; [|split; [done|by apply clean_nul]].
  constructor; try apply Hn; try done. destruct (no_print _ _ _ Hn). constructor; cbn [fst snd] in *; try done. apply clean_cr.
Qed.

Lemma wire_link m p h :
  node_wire h -> map_Forall (fun _ h => node_wire h) (nodes m) ->
  map_Forall (fun _ h => node_wire h) (nodes (link_node m p h)).
Proof. intros Hh Hm. unfold link_node. rewrite nodes_point. cbn. by apply map_Forall_insert_2. Qed.

Lemma map_set_wire m k v (st : A) m' st' :
  nul_free k -> nul_free v -> ":"%char ∉ k -> map_Forall (fun _ h => node_wire h) (nodes m) ->
  map_set m k v st = Some (m', st') -> map_Forall (fun _ h => node_wire h) (nodes m').
Proof.
  intros Hk Hv Hc Hm. unfold map_set. cbn zeta. destruct (clean_pair k v st) as [[[ck cv]|] st1] eqn:E; [|by intros [= <- <-]].
  apply clean_pair_some in E as (-> & -> & Hne).
  destruct (if decide _ then None else _) as [a|].
  { intros [= <- <-]. by apply (wire_write (mark_used m)). }
  destruct (chain_find _ _ _ _) as [[a|]|]; cbn [mbind option_bind]; [| |done].
  - intros [= <- <-]. rewrite nodes_point. by apply (wire_write (mark_used m)).
  - destruct (al_alloc _ st1) as [p st2]. destruct (p =? 0); intros [= <- <-]; [done|].
    apply wire_link; [by apply node_wire_new|done].
Qed.

Lemma map_add_wire m k v (st : A) m' st' :
  nul_free k -> nul_free v -> ":"%char ∉ k -> map_Forall (fun _ h => node_wire h) (nodes m) ->
  map_add m k v st = (m', st') -> map_Forall (fun _ h => node_wire h) (nodes m').
Proof.
  intros Hk Hv Hc Hm. unfold map_add. cbn zeta. destruct (clean_pair k v st) as [[[ck cv]|] st1] eqn:E; [|by intros [= <- <-]].
  apply clean_pair_some in E as (-> & -> & Hne).
  destruct (al_alloc _ st1) as [p st2]. destruct (p =? 0); intros [= <- <-]; [done|].
  apply wire_link; [by apply node_wire_new|done].
Qed.

Lemma wire_map_nodes m given : wire_map m given -> nodes_ok (nodes m) (in_order m) /\ c_strings (fields m).
Proof.
  intros [Hm Hw]. assert (Forall (fun a => exists h k v, nodes m !! a = Some h /\ node_ok h k v /\ nul_free k /\ nul_free v) (in_order m)) as Hf.
  { apply Forall_forall. intros a Ha. unfold in_order in Ha. apply list_elem_of_In, in_concat in Ha as (l & Hl & Ha).
    apply in_map_iff in Hl as (b & <- & _). apply list_elem_of_In in Ha.
    destruct (cw_node _ _ _ (mi_chains _ _ Hm) _ _ Ha) as (h & hk & E & _). destruct (Hw _ _ E) as (k & v & ? & ? & ?). by exists h, k, v. }
  split.
  - eapply Forall_impl; [exact Hf|]. intros a (h & k & v & E & Hn & _). by exists h, k, v.
  - unfold fields. induction Hf as [|a l (h & k & v & E & Hn & Hk & Hv) _ IH]; [constructor|].
    rewrite (fields_in_cons _ _ _ _ _ _ E Hn). by constructor.
Qed.

(** *** Simulation *)

(** The part of the context that response calls leave alone. *)
Record winv (c0 c : rctx A) (st : A) : Prop := {
  wi_arena : arena c = Some st;
  wi_ok : al_ok st;
  wi_map : wire_map (headers (rsp c)) (al_given st);
  wi_base : base c = set_response (base c0) (rsp c);
}.

Record matches (c : rctx A) (r : a_resp) : Prop := {
  ma_status : status (rsp c) = a_status r;
  ma_vals : forall k, vals (headers (rsp c)) k = a_vals r k;
  ma_body : body_text (rsp c) = Some (a_body r);
}.

(** [res] is defined, keeps the invariant and, unless memory was refused, does [f]. *)
Definition does (c0 c : rctx A) (st : A) (res : option (rctx A)) (f : a_resp -> a_resp) : Prop :=
  exists c' st', res = Some c' /\ winv c0 c' st' /\ grows st st' /\
    (refused st st' \/ forall r, matches c r -> matches c' (f r)).

Lemma does_bind c0 c st res f g h :
  al_ok st -> does c0 c st res f -> (forall c' st', winv c0 c' st' -> does c0 c' st' (g c') h) ->
  does c0 c st (res ≫= g) (fun r => h (f r)).
Proof.
  intros Ho (c1 & st1 & -> & W1 & G1 & M1) Hg. destruct (Hg c1 st1 W1) as (c2 & st2 & E2 & W2 & G2 & M2).
  exists c2, st2. split; [done|]. split; [done|]. split; [by eapply grows_trans|].
  destruct M1 as [R|M1]; [left; eapply refused_weaken; [by apply grows_refl|exact R|exact G2]|].
  destruct M2 as [R|M2]; [left; eapply refused_weaken; [exact G1|exact R|apply grows_refl, G2]|].
  right. intros r Hr. by apply M2, M1.
Qed.

Lemma does_pure c0 c st c' f :
  winv c0 c' st -> (forall r, matches c r -> matches c' (f r)) -> does c0 c st (Some c') f.
Proof. intros W M. exists c', st. split_and!; [done|done|apply grows_refl, W|by right]. Qed.

Lemma winv_body c0 c st b n : winv c0 c st -> winv c0 (set_body c b n) st.
Proof. intros [Ea Ho Hm Eb]. constructor; try done. unfold set_body, set_rsp. cbn. by rewrite Eb. Qed.

Lemma winv_status c0 c st n : winv c0 c st -> winv c0 (csilk_status c n) st.
Proof. intros [Ea Ho Hm Eb]. constructor; try done. unfold csilk_status, set_rsp. cbn. by rewrite Eb. Qed.

Lemma wire_map_mono m g g' : (forall a, a ∈ g -> a ∈ g') -> wire_map m g -> wire_map m g'.
Proof. intros Hg [Hm Hn]. constructor; [by eapply map_inv_mono|done]. Qed.

Lemma winv_grow c0 c st st' : winv c0 c st -> grows st st' -> winv c0 (set_arena c st') st'.
Proof. intros [Ea Ho Hm Eb] G. constructor; try done; [apply G|]. eapply wire_map_mono; [apply G|done]. Qed.

Lemma body_text_some s m b : body_text (mk_response s m (Some b) (Z.of_nat (length b))) = Some b.
Proof. unfold body_text. cbn. by rewrite Z.eqb_refl. Qed.

Lemma does_status c0 c st n :
  winv c0 c st -> does c0 c st (Some (csilk_status c n)) (fun r => mk_aresp n (a_vals r) (a_body r)).
Proof. intros W. apply does_pure; [by apply winv_status|]. intros r [? ? Hb]. constructor; try done. Qed.

Lemma does_release c0 c st :
  winv c0 c st -> does c0 c st (Some (csilk_response_body_release c)) (fun r => mk_aresp (a_status r) (a_vals r) []).
Proof. intros W. apply does_pure; [by apply winv_body|]. intros r [? ? Hb]. constructor; done. Qed.

Lemma does_set_body c0 c st b :
  winv c0 c st -> does c0 c st (Some (set_body c (Some b) (Z.of_nat (length b)))) (fun r => mk_aresp (a_status r) (a_vals r) b).
Proof. intros W. apply does_pure; [by apply winv_body|]. intros r [? ? Hb]. constructor; try done. apply body_text_some. Qed.

(** A heap text becomes the body of a response whose body has been released. *)
Lemma does_heap_body c0 c st t :
  winv c0 c st ->
  does c0 c st (Some (heap_body (csilk_response_body_release c) t)) (fun r => mk_aresp (a_status r) (a_vals r) (default [] t)).
Proof. intros W. destruct t as [b|]; [apply (does_set_body c0 c st b W)|by apply does_release]. Qed.

Lemma does_arena_body c0 c st text :
  winv c0 c st -> small text ->
  does c0 c st (Some (arena_body c st text)) (fun r => mk_aresp (a_status r) (a_vals r) text).
Proof.
  intros W Hs. unfold arena_body. destruct (al_strndup text st) as [b st'] eqn:E.
  apply strndup_spec in E as [G Hr]; [|apply W|done]. eexists _, st'. split; [done|].
  split; [apply (winv_grow c0 (set_body c b (Z.of_nat (length text))) st); [by apply winv_body|done]|]. split; [done|].
  destruct Hr as [[-> R]| ->]; [by left|right]. intros r [? ? Hb]. constructor; try done. apply body_text_some.
Qed.

Lemma a_set_pointwise am am' k v k' : am k' = am' k' -> a_set am k v k' = a_set am' k v k'.
Proof. unfold a_set. by intros ->. Qed.
Lemma a_add_pointwise am am' k v k' : am k' = am' k' -> a_add am k v k' = a_add am' k v k'.
Proof. unfold a_add. by intros ->. Qed.

(** Both header operations, from what they do to the map. *)
Lemma does_header c0 c st m st' (f : amap -> amap) (k : bytes) am' :
  winv c0 c st -> grows st st' -> wire_map m (al_given st') ->
  (forall k', vals m k' = vals (headers (rsp c)) k') /\ (clean k = [] \/ refused st st') \/
  clean k <> [] /\ (forall k', vals m k' = am' (vals (headers (rsp c))) k') ->
  (forall am1 am2 k', am1 k' = am2 k' -> am' am1 k' = am' am2 k') ->
  (forall am, f am = if decide (clean k = []) then am else am' am) ->
  does c0 c st (Some (set_arena (set_headers c m) st')) (fun r => mk_aresp (a_status r) (f (a_vals r)) (a_body r)).
Proof.
  intros W G Hm HV Hp Hf. eexists _, st'. split; [done|]. split.
  { constructor; [done|apply G|done|]. unfold set_headers, set_rsp. cbn. by rewrite (wi_base _ _ _ W). }
  split; [done|]. destruct HV as [[V [Hc|R]]|[Hne V]]; [right|by left|right];
    intros r [Hs Hv Hb]; (constructor; [done| |done]); intros k'; cbn [a_vals headers rsp set_arena set_headers set_rsp set_base base response set_response];
    rewrite Hf, V.
  - rewrite decide_True by done. apply Hv.
  - rewrite decide_False by done. apply Hp, Hv.
Qed.

Lemma does_set_header c0 c st k v :
  winv c0 c st -> nul_free k -> small k -> ":"%char ∉ k -> nul_free v -> small v ->
  does c0 c st (csilk_set_header c k v) (fun r => mk_aresp (a_status r) (a_hset (a_vals r) k v) (a_body r)).
Proof.
  intros W Hk Hsk Hc Hv Hsv. pose proof (wi_map _ _ _ W) as [Hm Hn]. unfold csilk_set_header. rewrite (wi_arena _ _ _ W).
  destruct (map_set_spec _ st k v (wi_ok _ _ _ W) Hm Hk Hsk Hsv) as (m' & st' & E & G & I & _ & V). rewrite E. cbn [mbind option_bind].
  apply (does_header c0 c st m' st' (fun am => a_hset am k v) k (fun am => a_set am (clean k) (Some (clean v)))); try done.
  - constructor; [done|]. exact (map_set_wire _ _ _ _ _ _ Hk Hv Hc Hn E).
  - intros. by apply a_set_pointwise.
Qed.

Lemma does_add_header c0 c st k v :
  winv c0 c st -> nul_free k -> small k -> ":"%char ∉ k -> nul_free v -> small v ->
  does c0 c st (csilk_add_header c k v) (fun r => mk_aresp (a_status r) (a_hadd (a_vals r) k v) (a_body r)).
Proof.
  intros W Hk Hsk Hc Hv Hsv. pose proof (wi_map _ _ _ W) as [Hm Hn]. unfold csilk_add_header. rewrite (wi_arena _ _ _ W).
  destruct (map_add _ k v st) as [m' st'] eqn:E.
  destruct (map_add_spec _ st k v m' st' (wi_ok _ _ _ W) Hm Hk Hsk Hsv E) as (G & I & _ & V).
  apply (does_header c0 c st m' st' (fun am => a_hadd am k v) k (fun am => a_add am (clean k) (Some (clean v)))); try done.
  - constructor; [done|]. exact (map_add_wire _ _ _ _ _ _ Hk Hv Hc Hn E).
  - intros. by apply a_add_pointwise.
Qed.

(** Steps that do not allocate may be prefixed. *)
Lemma does_after c0 c c1 st res f h :
  (forall r, matches c r -> matches c1 (f r)) -> does c0 c1 st res h -> does c0 c st res (fun r => h (f r)).
Proof. intros Hf (c' & st' & -> & W & G & M). exists c', st'. split_and!; [done..|]. destruct M as [|M]; [by left|right]. auto. Qed.

Lemma matches_fresh c n r :
  matches c r -> matches (csilk_response_body_release (csilk_status c n)) (mk_aresp n (a_vals r) []).
Proof. by intros [? ? ?]. Qed.

Lemma matches_status c n r : matches c r -> matches (csilk_status c n) (mk_aresp n (a_vals r) (a_body r)).
Proof. by intros [? ? ?]. Qed.

Lemma matches_release c r : matches c r -> matches (csilk_response_body_release c) (mk_aresp (a_status r) (a_vals r) []).
Proof. by intros [? ? ?]. Qed.

Lemma does_string c0 c st n msg :
  winv c0 c st -> small (default [] msg) ->
  does c0 c st (Some (csilk_string c n msg)) (fun r => mk_aresp n (a_vals r) (default [] msg)).
Proof.
  intros W Hs. set (c1 := csilk_response_body_release (csilk_status c n)).
  assert (winv c0 c1 st) as W1 by by apply winv_body, winv_status. unfold csilk_string. cbv zeta. fold c1.
  rewrite (wi_arena _ _ _ W1). destruct msg as [m|].
  - apply (does_after c0 c c1 st _ _ (fun r => mk_aresp (a_status r) (a_vals r) m) (matches_fresh c n)). by apply does_arena_body.
  - apply does_pure; [done|]. apply matches_fresh.
Qed.

Lemma sanitize_location_spec loc j :
  (j <= 1023)%nat -> sanitize_location loc j = take (1023 - j) (List.filter location_char loc).
Proof.
  revert j. induction loc as [|x loc IH]; intros j Hj; [by destruct (1023 - j)%nat|]. cbn [sanitize_location List.filter].
  destruct (Nat.ltb_spec j 1023).
  - destruct (location_char x); [|by apply IH]. rewrite IH by lia. by replace (1023 - j)%nat with (S (1023 - S j)) by lia.
  - by replace (1023 - j)%nat with 0%nat by lia.
Qed.

Lemma location_text loc :
  let s := take 1023 (List.filter location_char loc) in nul_free s /\ small s.
Proof.
  cbn zeta. split.
  - intros Hin. apply elem_of_take in Hin as (i & Hi & _). apply list_elem_of_lookup_2, list_elem_of_In, filter_In in Hi as [_ Hi]. done.
  - unfold small, MAX_REQUEST. rewrite length_take. lia.
Qed.

Lemma does_redirect c0 c st n loc :
  winv c0 c st -> does c0 c st (csilk_redirect c n loc) (a_rop (RRedirect n loc)).
Proof.
  intros W. unfold csilk_redirect, a_rop. cbn zeta. destruct (unsafe_location loc).
  - apply (does_after c0 c (csilk_status c 400) st _ (fun r => mk_aresp 400 (a_vals r) (a_body r))
      (fun r => mk_aresp 400 (a_vals r) (lit "Invalid redirect URL")) (matches_status c 400)).
    apply (does_string c0 _ st 400 (Some (lit "Invalid redirect URL"))); [by apply winv_status|by vm_compute].
  - set (n' := if (n <? 300) || (n >? 308) then 302 else n). rewrite sanitize_location_spec by lia.
    destruct (location_text loc) as [Hn Hsm]. change (1023 - 0)%nat with 1023%nat. set (s := take 1023 _) in *.
    apply (does_bind c0 c st _ (fun r => mk_aresp (a_status r) (a_hset (a_vals r) (lit "Location") s) (a_body r)) _
      (fun r => mk_aresp n' (a_vals r) [])); [apply W| |].
    + apply does_set_header; by lit_ok.
    + clear c W. intros c st' W.
      destruct (does_string c0 (csilk_status c n') st' n' (Some [])) as (c' & st'' & Ec & W' & G & M); [by apply winv_status|by vm_compute|].
      exists (csilk_abort c'), st''. split; [congruence|]. split; [by destruct W'|]. split; [done|]. destruct M as [|M]; [by left|right].
      intros r Hr. specialize (M _ (matches_status c n' r Hr)). by destruct M.
Qed.

Lemma print_d_length n : - 2 ^ 31 <= n < 2 ^ 31 -> (length (print_d n) <= 11)%nat.
Proof.
  intros _. unfold print_d. destruct (n <? 0); cbn [length].
  - pose proof (dec_loop_length 10 (- n) []). cbn [length] in *. lia.
  - pose proof (dec_loop_length 10 n []). cbn [length] in *. lia.
Qed.

Lemma digits_nul_free s : forallb is_digit s = true -> nul_free s.
Proof. intros Hd Hin%list_elem_of_In. rewrite forallb_forall in Hd. by specialize (Hd _ Hin). Qed.

Lemma print_d_nul_free n : nul_free (print_d n).
Proof.
  unfold print_d. destruct (n <? 0); [apply nul_free_cons; split; [done|]|]; by apply digits_nul_free, dec_loop_digits.
Qed.

Lemma nul_free_join a b : nul_free a -> nul_free b -> nul_free (a ++ b).
Proof. intros Ha Hb. by apply nul_free_app. Qed.

Lemma nul_free_nil : nul_free [].
Proof. by apply not_elem_of_nil. Qed.

Lemma opt_len_nonneg o : 0 <= opt_len o.
Proof. destruct o; cbn; lia. Qed.

(** An optional attribute: what is appended, and its length. *)
Lemma sprint_opt (cap : Z) buf (res : option bytes) piece (n : Z) :
  res = sprint cap buf piece \/ res = Some (buf ++ piece) ->
  Z.of_nat (length piece) <= n -> Z.of_nat (length buf) + n < cap -> cap < 2 ^ 31 ->
  res = Some (buf ++ piece) /\ Z.of_nat (length (buf ++ piece)) <= Z.of_nat (length buf) + n.
Proof.
  intros Hres Hl Hc Hm. split; [|rewrite length_app; lia]. destruct Hres as [-> | ->]; [|done]. apply sprint_ok; lia.
Qed.

(** Perform one bind of [cookie_buffer] with a piece of at most [n] bytes. *)
Ltac attribute piece n :=
  match goal with |- (?res ≫= _) = _ =>
    match goal with |- context [sprint ?cap ?buf _] =>
      let E := fresh "E" in let L := fresh "L" in
      destruct (sprint_opt cap buf res piece n) as [E L];
        [repeat case_match; cbn [from_option]; rewrite ?app_nil_r; auto|
         repeat case_match; rewrite ?length_app; cbn [length]; lia|
         rewrite ?length_app in *; cbn [length] in *; lia|lia|rewrite E; cbn [mbind option_bind]]
    end
  end.

(** The attributes fit into the buffer. *)
Lemma cookie_buffer_spec cap n v a p d s h ss :
  - 2 ^ 31 <= a < 2 ^ 31 ->
  Z.of_nat (length n) + Z.of_nat (length v) + opt_len p + opt_len d + opt_len ss + 128 <= cap ->
  cap < 2 ^ 31 ->
  cookie_buffer cap n v a p d s h ss = Some (cookie_text n v a p d s h ss).
Proof.
  intros Ha Hcap Hmax. pose proof (print_d_length a Ha) as Hpd.
  assert (length (lit "=") = 1 /\ length (lit "; Max-Age=") = 10 /\ length (lit "; Max-Age=0") = 11 /\ length (lit "; Path=") = 7 /\
    length (lit "; Domain=") = 9 /\ length (lit "; Secure") = 8 /\ length (lit "; HttpOnly") = 10 /\
    length (lit "; SameSite=") = 11 /\ length (lit "/") = 1)%nat as (L1 & L2 & L3 & L4 & L5 & L6 & L7 & L8 & L9) by done.
  pose proof (opt_len_nonneg p). pose proof (opt_len_nonneg d). pose proof (opt_len_nonneg ss).
  unfold cookie_buffer, cookie_text.
  generalize dependent (lit "="). generalize dependent (lit "; Max-Age="). generalize dependent (lit "; Max-Age=0").
  generalize dependent (lit "; Path="). generalize dependent (lit "; Domain="). generalize dependent (lit "; Secure").
  generalize dependent (lit "; HttpOnly"). generalize dependent (lit "; SameSite="). generalize dependent (lit "/").
  intros l9 L9 l8 L8 l7 L7 l6 L6 l5 L5 l4 L4 l3 L3 l2 L2 l1 L1.
  assert (Z.of_nat (length (default l9 p)) <= 1 + opt_len p) as Hp by (destruct p; cbn; lia).
  assert (Z.of_nat (length (from_option (fun d => l5 ++ d) [] d)) <= 9 + opt_len d) as Hd
    by (destruct d; cbn; rewrite ?length_app; lia).
  attribute (n ++ l1 ++ v) (Z.of_nat (length n) + Z.of_nat (length v) + 1).
  attribute (if a >? 0 then l2 ++ print_d a else if a <? 0 then l3 else []) 21.
  attribute (l4 ++ default l9 p) (8 + opt_len p).
  attribute (from_option (fun d => l5 ++ d) [] d) (9 + opt_len d).
  attribute (if s then l6 else []) 8.
  attribute (if h then l7 else []) 10.
  destruct ss as [[|x ss]|]; cbn [opt_len from_option length] in *; [|rewrite sprint_ok by (rewrite ?length_app in *; cbn [length] in *; lia)|];
    f_equal; rewrite ?app_nil_r, <- !app_assoc; reflexivity.
Qed.

Lemma cookie_text_length n v a p d s h ss :
  - 2 ^ 31 <= a < 2 ^ 31 ->
  Z.of_nat (length (cookie_text n v a p d s h ss)) <=
    Z.of_nat (length n) + Z.of_nat (length v) + opt_len p + opt_len d + opt_len ss + 96.
Proof.
  intros Ha. pose proof (print_d_length a Ha). unfold cookie_text. rewrite !length_app.
  assert (Z.of_nat (length (if a >? 0 then lit "; Max-Age=" ++ print_d a else if a <? 0 then lit "; Max-Age=0" else [])) <= 21)
    by (repeat case_match; rewrite ?length_app; cbn; lia).
  assert (Z.of_nat (length (default (lit "/") p)) <= 1 + opt_len p) by (destruct p; cbn; lia).
  assert (Z.of_nat (length (from_option (fun d => lit "; Domain=" ++ d) [] d)) <= 9 + opt_len d)
    by (destruct d; cbn; rewrite ?length_app; cbn; lia).
  assert (length (if s then lit "; Secure" else []) <= 8)%nat by (destruct s; cbn; lia).
  assert (length (if h then lit "; HttpOnly" else []) <= 10)%nat by (destruct h; cbn; lia).
  assert (Z.of_nat (length match ss with Some (x :: s) => lit "; SameSite=" ++ x :: s | _ => [] end) <= 11 + opt_len ss)
    by (destruct ss as [[|x ss]|]; cbn; rewrite ?length_app; cbn; lia).
  change (length (lit "=")) with 1%nat. change (length (lit "; Path=")) with 7%nat. lia.
Qed.

Lemma cookie_text_nul_free n v a p d s h ss :
  nul_free n -> nul_free v -> opt_ok p -> opt_ok d -> opt_ok ss -> nul_free (cookie_text n v a p d s h ss).
Proof.
  intros Hn Hv Hp Hd Hss. pose proof (print_d_nul_free a). unfold cookie_text, opt_ok in *.
  apply nul_free_join; [apply nul_free_join; [exact Hn|apply nul_free_join; [lit_ok|exact Hv]]|].
  apply nul_free_join; [destruct (a >? 0); [apply nul_free_join; [lit_ok|done]|destruct (a <? 0); [lit_ok|apply nul_free_nil]]|].
  apply nul_free_join; [apply nul_free_join; [lit_ok|destruct p; [done|lit_ok]]|].
  apply nul_free_join; [destruct d; cbn [from_option] in *; [apply nul_free_join; [lit_ok|done]|apply nul_free_nil]|].
  apply nul_free_join; [destruct s; lit_ok|]. apply nul_free_join; [destruct h; lit_ok|].
  destruct ss as [[|x ss]|]; cbn [from_option] in *; [apply nul_free_nil|apply nul_free_join; [lit_ok|done]|apply nul_free_nil].
Qed.

Lemma does_cookie c0 c st n v a p d s h ss :
  winv c0 c st -> rop_ok (RCookie n v a p d s h ss) ->
  does c0 c st (csilk_set_cookie_ex c n v a p d s h ss) (a_rop (RCookie n v a p d s h ss)).
Proof.
  intros W (Hn & Hv & Hp & Hd & Hss & Ha & Hsz). unfold csilk_set_cookie_ex. rewrite (wi_arena _ _ _ W). cbv zeta.
  pose proof (opt_len_nonneg p). pose proof (opt_len_nonneg d). pose proof (opt_len_nonneg ss).
  assert (from_option (fun s => Z.of_nat (length s) + 16) 0 ss <= opt_len ss + 16 /\ opt_len ss <= from_option (fun s => Z.of_nat (length s) + 16) 0 ss)
    as [Hs1 Hs2] by (destruct ss; cbn; lia).
  set (size := _ + from_option _ 0 ss) in *. assert (128 <= size < 2 ^ 31 /\
    Z.of_nat (length n) + Z.of_nat (length v) + opt_len p + opt_len d + opt_len ss + 128 <= size) as [Hr Hl] by (unfold size; lia).
  destruct (al_alloc size st) as [q st1] eqn:E. apply alloc_grows in E as [G Hq]; [|apply W|unfold MAX_REQUEST; lia].
  pose proof (winv_grow _ _ _ _ W G) as W1. destruct Hq as [[-> R]|(Hq & _)].
  { eexists _, st1. split; [done|]. split; [done|]. split; [done|by left]. }
  rewrite (proj2 (Z.eqb_neq q 0)) by done. rewrite cookie_buffer_spec by (done || lia). cbn [mbind option_bind].
  pose proof (cookie_text_length n v a p d s h ss Ha).
  destruct (does_add_header c0 (set_arena c st1) st1 (lit "Set-Cookie") (cookie_text n v a p d s h ss)) as (c' & st' & E' & W' & G' & M);
    [done|lit_ok|lit_ok|lit_ok|by apply cookie_text_nul_free|unfold small, MAX_REQUEST; lia|].
  exists c', st'. split; [done|]. split; [done|]. split; [by eapply grows_trans|].
  destruct M as [R|M]; [left; eapply refused_weaken; [exact G|exact R|apply grows_refl, G']|right].
  intros r Hm. apply M. by destruct Hm.
Qed.

(** The status and the content type of a JSON response. *)
Lemma does_json_type c0 c st n :
  winv c0 c st ->
  does c0 c st (content_type_json (csilk_status c n)) (fun r => mk_aresp n (a_json_type (a_vals r)) (a_body r)).
Proof.
  intros W. apply (does_after c0 c (csilk_status c n) st _ _
    (fun r => mk_aresp (a_status r) (a_json_type (a_vals r)) (a_body r)) (matches_status c n)).
  apply does_set_header; [by apply winv_status|lit_ok..].
Qed.

(** A JSON response: the type is set, then [rest] replaces the body. *)
Lemma does_json_body c0 c st n (rest : rctx A -> option (rctx A)) b :
  winv c0 c st ->
  (forall c st, winv c0 c st -> does c0 c st (rest c) (fun r => mk_aresp (a_status r) (a_vals r) b)) ->
  does c0 c st (content_type_json (csilk_status c n) ≫= rest) (fun r => mk_aresp n (a_json_type (a_vals r)) b).
Proof.
  intros W Hrest.
  apply (does_bind c0 c st _ (fun r => mk_aresp n (a_json_type (a_vals r)) (a_body r)) rest
    (fun r => mk_aresp (a_status r) (a_vals r) b)); [apply W|by apply does_json_type|done].
Qed.

(** A text in the arena if it fits the stack buffer, else the JSON library's. *)
Lemma does_small_or_heap c0 c st (fits : bool) text alt :
  winv c0 c st -> (fits = true -> small text) ->
  does c0 c st
    (match (if fits then arena (csilk_response_body_release c) else None) with
     | Some a => Some (arena_body (csilk_response_body_release c) a text)
     | None => Some (heap_body (csilk_response_body_release c) alt)
     end) (fun r => mk_aresp (a_status r) (a_vals r) (if fits then text else default [] alt)).
Proof.
  intros W Hs. destruct fits; [|by apply does_heap_body].
  pose proof (winv_body c0 c st None 0 W) as W1. change (arena (csilk_response_body_release c)) with (arena c).
  rewrite (wi_arena _ _ _ W).
  apply (does_after c0 c (csilk_response_body_release c) st _ (fun r => mk_aresp (a_status r) (a_vals r) [])
    (fun r => mk_aresp (a_status r) (a_vals r) text)); [apply matches_release|].
  apply does_arena_body; [done|by apply Hs].
Qed.

Lemma small_lt text n : Z.of_nat (length text) <? n = true -> n <= 2 ^ 31 -> small text.
Proof. intros H0%Z.ltb_lt Hn. unfold small, MAX_REQUEST. lia. Qed.

Lemma does_rop c0 c st o : winv c0 c st -> rop_ok o -> does c0 c st (run_rop o c) (a_rop o).
Proof.
  intros W Ho. destruct o; cbn [run_rop rop_ok] in *.
  - by apply does_status.
  - apply does_string; [done|]. destruct msg; [done|lit_ok].
  - destruct Ho as ((? & ? & ? & _) & ? & ?). by apply does_set_header.
  - destruct Ho as ((? & ? & ? & _) & ? & ?). by apply does_add_header.
  - by apply does_redirect.
  - by apply does_cookie.
  - apply does_json_body; [done|]. intros. by apply does_heap_body.
  - apply does_json_body; [done|]. intros. by apply (does_heap_body _ _ _ (Some text)).
  - apply does_json_body; [done|]. intros c1 st1 W1. apply does_small_or_heap; [done|].
    intros [_ Hl]%andb_true_iff. by eapply small_lt.
  - apply does_json_body; [done|]. intros c1 st1 W1. apply does_small_or_heap; [done|].
    intros [_ Hl]%andb_true_iff. by eapply small_lt.
Qed.

Lemma does_rops c0 c st l : winv c0 c st -> Forall rop_ok l -> does c0 c st (run_rops l c) (a_rops l).
Proof.
  intros W Hl. revert c st W. induction Hl as [|o l Ho _ IH]; intros c st W; [by apply does_pure|].
  cbn [run_rops]. apply (does_bind c0 c st _ (a_rop o) (run_rops l) (a_rops l)); [apply W|by apply does_rop|].
  intros. by apply IH.
Qed.

(** *** Scripts never frame the message themselves *)

Definition unframed (am : amap) : Prop := forall k, framing_name k -> am k = [].

Lemma a_hset_unframed am k v : unframed am -> ~ framing_name (clean k) -> unframed (a_hset am k v).
Proof.
  intros Ha Hk k' Hk'. unfold a_hset. destruct (decide _); [by apply Ha|]. unfold a_set. rewrite decide_False; [by apply Ha|].
  intros E. apply Hk. unfold framing_name in *. by rewrite E.
Qed.

Lemma a_hadd_unframed am k v : unframed am -> ~ framing_name (clean k) -> unframed (a_hadd am k v).
Proof.
  intros Ha Hk k' Hk'. unfold a_hadd. destruct (decide _); [by apply Ha|]. unfold a_add. rewrite decide_False; [by apply Ha|].
  intros E. apply Hk. unfold framing_name in *. by rewrite E.
Qed.

Lemma not_framing (k : bytes) :
  bool_decide (lower k = lower (lit "Content-Length")) || bool_decide (lower k = lower (lit "Transfer-Encoding")) = false ->
  ~ framing_name k.
Proof. intros [E1%bool_decide_eq_false E2%bool_decide_eq_false]%orb_false_iff [?|?]; done. Qed.

Lemma a_rops_unframed l r : Forall rop_ok l -> unframed (a_vals r) -> unframed (a_vals (a_rops l r)).
Proof.
  intros Hl. revert r. induction Hl as [|o l Ho _ IH]; intros r Hr; [done|]. cbn. apply IH. clear IH.
  destruct o; cbn [a_rop a_vals rop_ok] in *; try done.
  - apply a_hset_unframed; [done|apply Ho].
  - apply a_hadd_unframed; [done|apply Ho].
  - destruct (unsafe_location location); [done|]. apply a_hset_unframed; [done|by apply not_framing].
  - apply a_hadd_unframed; [done|by apply not_framing].
  - apply a_hset_unframed; [done|by apply not_framing].
  - apply a_hset_unframed; [done|by apply not_framing].
  - apply a_hset_unframed; [done|by apply not_framing].
  - apply a_hset_unframed; [done|by apply not_framing].
Qed.

(** A request context as it reaches the handlers, on an open HTTP/1.1 connection. *)
Record fresh_ctx (c : rctx A) (cl : client_t) (st : A) : Prop := {
  fc_arena : arena c = Some st;
  fc_ok : al_ok st;
  fc_response : rsp c = mk_response 0 empty_map None 0;
  fc_client : client (base c) = Some cl;
  fc_open : open_http1 cl;
  fc_plain : is_websocket (base c) = false /\ is_sse (base c) = false /\ is_async (base c) = false /\ file_fd (base c) < 0;
}.

Definition a_start : a_resp := mk_aresp 0 (fun _ => []) [].

Lemma fresh_winv c cl st : fresh_ctx c cl st -> winv c c st.
Proof.
  intros [Ea Hok Er _ _ _]. constructor; [done|done| |unfold rsp, set_response; by destruct (base c)].
  rewrite Er. constructor; [apply empty_map_inv|by apply map_Forall_empty].
Qed.

Lemma response_script c cl st l rest :
  fresh_ctx c cl st -> Forall rop_ok l ->
  let r := a_rops l a_start in
  let s := if a_status r =? 0 then 200 else a_status r in
  100 <= s <= 999 -> s <> 101 -> (bodiless s = true -> a_body r = []) ->
  exists c' st', run_rops l c = Some c' /\ arena c' = Some st' /\
    (refused st st' \/
     (Z.of_nat (length (wire_fields (fields (headers (rsp c'))))) + Z.of_nat (length (a_body r)) + 256 < 2 ^ 64 ->
      exists cs es msg, _csilk_send_response true (base c') = Some (cs, es) /\
        read_message (sent es ++ rest) = Some (msg, rest) /\ m_status msg = s /\ m_body msg = a_body r /\
        (forall k, ~ framing_name k -> lower k <> lower (lit "Connection") ->
           field_values k (m_fields msg) = map trim (omap id (a_vals r k))))).
Proof.
  intros Hfc Hl r s Hst H101 Hb. pose proof (fresh_winv _ _ _ Hfc) as W.
  destruct Hfc as [Ea Hok Er Ecl Hop (Hw & Hs & Has & Hf)].
  destruct (does_rops c c st l W Hl) as (c' & st' & E & W' & G & M). exists c', st'. split; [done|].
  split; [apply W'|]. destruct M as [R|M]; [by left|right]. intros Hsz.
  destruct (M a_start) as [Ms Mv Mb]; [constructor; by rewrite Er|]. fold r in Ms, Mv, Mb.
  assert (effective_status (rsp c') = s) as Es by (unfold effective_status; by rewrite Ms).
  destruct W' as [_ _ Hmap Eb]. destruct (wire_map_nodes _ _ Hmap) as [Hn _].
  assert (sendable (rsp c') (a_body r)) as Hse by (constructor; rewrite ?Es; done).
  assert (unframed (a_vals r)) as Hu by by apply a_rops_unframed.
  destruct (response_on_wire (base c') cl (a_body r) (al_given st') rest) as (cs & es & msg & Ese & Erd & Hms & Hmb & Hmf);
    [by rewrite Eb|done|by rewrite Eb|by rewrite Eb|by rewrite Eb|rewrite Eb; cbn; by rewrite Has, andb_false_r|apply Hmap|done| | |].
  - intros k Hk. rewrite (Mv k : vals (headers (response (base c'))) k = _). by apply Hu.
  - by rewrite (Es : effective_status (response (base c')) = s).
  - exists cs, es, msg. split_and!; [done|done|by rewrite Hms|done|]. intros k Hk Hc. rewrite Hmf by done.
    by rewrite (Mv k : vals (headers (response (base c'))) k = _).
Qed.


End Scripts.

(** ** Examples *)

(** An arena whose heap has no memory. *)
Definition starved_arena : traced :=
  mk_traced (mk_run (mk_arena (2 ^ 20) 0 0 [] 4096 0 0 false) (mk_mem (mk_heap [] [] ∅) (fun _ => []) (fun _ => 0)) [] []) [].

(** The record of a context's arena shows no refusal. *)
Definition all_served (c : rctx traced) : bool :=
  match arena c with Some t => forallb (fun q => negb (q.2 =? 0)) (t_log t) | None => false end.

Lemma all_served_ok (c : rctx traced) t : arena c = Some t -> all_served c = true -> forall st : traced, ~ refused st t.
Proof.
  intros E Hs st (new & n & El & Hin). unfold all_served in Hs. rewrite E, forallb_forall in Hs.
  assert (negb ((n, 0).2 =? 0) = true) as H0; [|done]. apply Hs. change (t_log t) with (al_log t). rewrite El, in_app_iff.
  left. by apply list_elem_of_In.
Qed.

Definition demo_rctx {A} (st : A) (answers : list bool) : rctx A :=
  mk_rctx (demo_ctx false (mk_response 0 empty_map None 0)) (Some st) empty_map answers false false false false 65536 16384 262144 [].

Definition demo_rops : list rop :=
  [RAddHeader (lit "X-Tag") (lit "one" ++ CRLF ++ lit "Set-Cookie: evil=1");
   RCookie (lit "sid") (lit "42") 60 None None true true (Some (lit "Lax"));
   RAddHeader (lit "x-tag") (lit "two"); RJsonError 404 (Some (lit "no such page"))].

Lemma fmap_true {B} (f : B -> bool) (o : option B) (x : B) : o = Some x -> f <$> o = Some true -> f x = true.
Proof. by intros -> [= ?]. Qed.

(** The conditions on the arguments of a concrete call. *)
Ltac rop_lit :=
  cbv [rop_ok name_ok opt_ok from_option];
  repeat match goal with |- _ /\ _ => split end;
  lazymatch goal with
  | |- ~ framing_name _ => apply not_framing; by vm_compute
  | |- small _ => by vm_compute
  | |- (_ < _)%Z => by vm_compute
  | |- (_ <= _)%Z => by vm_compute
  | |- True => exact I
  | |- _ => apply (bool_decide_unpack _); by vm_compute
  end.


Definition demo_writes : list write_call :=
  [mk_write (lit "hello ") 0 100; mk_write [] 100 100; mk_write (replicate 17 "x"%char) 262140 0; mk_write (lit "world") 65000 70000].


(** The location is filtered after it has been checked: a control character
    between two slashes hides a network-path reference from the check and is
    then removed, so the client is sent to another host. *)
Example redirect_filter_after_check :
  exists c, csilk_redirect (demo_rctx demo_arena []) 302 (lit "/" ++ "009"%char :: lit "/evil.example/") = Some c /\
    vals (headers (rsp c)) (lit "location") = [Some (lit "//evil.example/")] /\ status (rsp c) = 302.
Proof. eexists. split; [by vm_compute|]. by vm_compute. Qed.

(** A refused redirect answers 400 and does not abort the chain. *)
Example refused_redirect_does_not_abort :
  exists c, csilk_redirect (demo_rctx demo_arena []) 302 (lit "//evil.example/") = Some c /\ status (rsp c) = 400 /\ aborted c = false.
Proof. eexists. split; [by vm_compute|]. by vm_compute. Qed.

(** Without memory for the copy [csilk_string] still sets the length, and
    sending the response reads past the empty literal. *)
Example string_without_memory :
  let c := csilk_string (demo_rctx starved_arena []) 200 (Some (lit "hello")) in
  body (rsp c) = None /\ body_len (rsp c) = 5 /\ _csilk_send_response true (base c) = None.
Proof. by vm_compute. Qed.

(** The short error text is not escaped. *)
Example json_error_not_escaped :
  exists c, csilk_json_error (fun _ => None) (demo_rctx demo_arena []) 400 (Some (dquote ++ lit "," ++ dquote ++ lit "admin" ++ dquote ++ lit ":" ++ dquote ++ lit "1")) = Some c /\
    body (rsp c) = Some (lit "{" ++ dquote ++ lit "error" ++ dquote ++ lit ":" ++ dquote ++ dquote ++ lit "," ++ dquote ++ lit "admin" ++ dquote ++ lit ":" ++ dquote ++ lit "1" ++ dquote ++ lit "}").
Proof. eexists. split; [by vm_compute|]. by vm_compute. Qed.

(** No memory for a frame: the data are lost, and the write answers success. *)
Example lost_chunk_reported_written :
  exists c, csilk_response_write (demo_rctx demo_arena [true; true; true; false]) (lit "data") 0 0 = Some (1, c) /\
    (exists h, trace c = [Send h]).
Proof. eexists. split; [by vm_compute|]. eexists. by vm_compute. Qed.

(** No memory for the head: the end of the response is sent without it. *)
Example end_without_head :
  exists c, csilk_response_end (demo_rctx demo_arena [false]) = Some c /\ trace c = [Send last_chunk; PostResponse true].
Proof. eexists. split; [by vm_compute|]. by vm_compute. Qed.

(** On a TLS connection the head of a streamed response is written to the
    socket in the clear, while its chunks go through the TLS layer. *)
Example tls_head_in_clear :
  let c := demo_rctx demo_arena [] in
  exists c' h d, csilk_response_write (set_base c (set_client (base c) (mk_http_client CSILK_CONN_PROCESSING false true true))) (lit "data") 0 0 = Some (1, c') /\
    trace c' = [RawSend h; Send d] /\ take 12 h = lit "HTTP/1.1 200".
Proof. eexists _, _, _. split; [by vm_compute|]. split; by vm_compute. Qed.

(** Only whole decimal numbers in range count as page and page size. *)
Example strict_integers :
  map (fun s => _csilk_parse_query_int_strict (Some (lit s)) 7) ["12"; "12x"; " 12"; "-3"; "+5"; "9223372036854775808"; "x"]%string =
  [12; 7; 12; -3; 5; 7; 7].
Proof. by vm_compute. Qed.
