(* ===== verification/Serve.v ===== *)
(** * Serving a request

    Models [_csilk_dispatch_request] of src/src/core/ctx/context.c, which joins
    the parts: the request that the callbacks of HttpRequest.v have collected is
    routed (Router.v, Routing.v), the chain of the route runs (HandlerChain.v),
    its handlers prepare the response (Response.v) and [_csilk_send_response]
    writes it (Http1Serialize.v).

    A handler is any function of the request to a list of framework calls.
    Between the parts the arena may have grown (the router copies the captured
    parameters into it); hooks, logging, the acquisition of the router (Rcu.v)
    and asynchronous handlers are not part of this file. *)

From stdpp Require Import gmap.
From S2P Require Import Prelude Arena Allocator Regions Url HeaderId HeaderMap Query HttpRequest.
From S2P Require Import Router RouterMatch Routing HandlerChain Http1Serialize Response.

#[local] Open Scope Z_scope.

(** What a handler can ask the context about the request. *)
Record request := mk_request {
  rq_method : bytes;
  rq_path : bytes;
  rq_params : list (bytes * bytes);
  rq_header : bytes -> option (option bytes);
  rq_query : bytes -> option (option bytes);
}.

Section Serve.
  Context `{Regions A}.
  Context (render : json_t -> option bytes).
  Context (handler : request -> Z -> list (HandlerChain.action Response.rop)).

(** A call on the response; [csilk_redirect] also aborts the chain. *)
Definition answer_call (o : Response.rop) (c : rctx A) : option (rctx A * bool) :=
  c' ← Response.run_rop render o c; Some (c', Response.aborted c' && negb (Response.aborted c)).

Definition internal_error : Response.rop := RString 500 (Some (lit "Internal Server Error")).
Definition not_found : Response.rop := RString 404 (Some (lit "Not Found")).

Definition request_of (c : @HttpRequest.client A) (params : list (bytes * bytes)) : request :=
  mk_request (default [] (method c)) (default [] (path c)) params
    (fun k => map_get (req_headers c) (Some k)) (fun k => map_kv_get (query_params c) (Some k)).

(** [nf]: the server's handler for requests without a route, if it has one.
    The result is the request that was dispatched, the response and the log of
    the chain. *)
Definition _csilk_dispatch_request (r : csilk_router_t) (nf : option Z) (c : @HttpRequest.client A) (rx : rctx A)
  : option (request * rctx A * list (HandlerChain.event Response.rop)) :=
  '(ret, x) ← csilk_router_match_ctx r (default [] (method c)) (default [] (path c))
                (mk_route_ctx (mk_mctx true true [] []) [] 0 0 None);
  let rq := request_of c (params (rc x)) in
  if ret =? 1 then
    k ← csilk_next answer_call internal_error (handler rq) (S (length (rc_handlers x))) (routed rx (rc_handlers x));
    Some (rq, HandlerChain.response k, log k)
  else
    let k := mk_ctx None 0 0 false false [] rx [] in
    k ← (match nf with
         | Some h => run_actions answer_call internal_error (csilk_next answer_call internal_error (handler rq) 1) (handler rq h) k
         | None => say answer_call k not_found
         end);
    Some (rq, HandlerChain.response k, log k).

(** ** Responses *)

(** The response context [c0] may have become. *)
Definition reached (c0 : rctx A) (c : rctx A) : Prop := exists st, winv c0 c st.

#[local] Instance serve_responds c0 : Responds answer_call internal_error (reached c0) Response.rop_ok.
Proof.
  constructor.
  - intros o c Ho [st W]. destruct (does_rop render c0 c st o W Ho) as (c' & st' & E & W' & _). unfold answer_call. rewrite E.
    run_binds. eexists _, _. split; [done|]. by exists st'.
  - by vm_compute.
Qed.

Lemma replay_rops l (c : rctx A) c' : replay answer_call l c = Some c' -> Response.run_rops render l c = Some c'.
Proof.
  revert c. induction l as [|o l IH]; intros c E; [done|]. cbn [replay Response.run_rops] in *. unfold answer_call in E.
  destruct (Response.run_rop render o c) as [c1|]; [|done]. run_binds. by apply IH.
Qed.

(** ** Routes *)

Definition good_handlers (l : list Z) : Prop := Forall (fun h => h <> 0) l.

(** Every route has a handler, and handlers are not null. *)
Definition registers_handlers (op : Routing.rop) : Prop :=
  match op with
  | RAdd a => a_handlers a <> [] /\ good_handlers (a_handlers a)
  | RCompile mws => good_handlers mws
  end.

Definition good_route (e : entry) : Prop :=
  mh_handlers e.2 <> [] /\ good_handlers (mh_handlers e.2) /\ raw_handlers e.2 <> [] /\ good_handlers (raw_handlers e.2).

Lemma table_routes ops g t :
  Forall registers_handlers ops -> good_handlers g -> Forall good_route t -> Forall good_route (table_of ops g t).
Proof.
  intros Ho. revert g t. induction Ho as [|op ops Hop _ IH]; intros g t Hg Ht; [done|].
  assert (forall g l, good_handlers g -> good_handlers l -> l <> [] -> g ++ l <> [] /\ good_handlers (g ++ l)) as Happ.
  { intros g' l ? ? Hne. split; [by destruct g', l|by apply Forall_app]. }
  destruct op as [a|mws]; cbn [table_of registers_handlers] in *.
  - destruct Hop as [Hne Ha]. apply IH; [done|]. unfold table_add. destruct (existsb _ t); [done|]. constructor; [|done].
    destruct (Happ g (a_handlers a)) as [? ?]; done.
  - apply IH; [done|]. unfold table_compile. apply Forall_map. eapply Forall_impl; [exact Ht|].
    intros e (_ & _ & H1 & H2). destruct (Happ mws (raw_handlers e.2)) as [? ?]; done.
Qed.

(** The routes of [t] that a request selects, and what the log of its chain
    must then look like; without a route the answer is the server's. *)
Definition routed_by (t : list entry) (rq : request) (nf : option Z) (evs : list (HandlerChain.event Response.rop)) : Prop :=
  (exists pat m b k, (pat, m) ∈ t /\ mh_method m = rq_method rq /\ pmatch pat (rq_path rq) = Some b /\
     (forall pat' m', (pat', m') ∈ t -> mh_method m' = rq_method rq -> pmatch pat' (rq_path rq) <> None -> lex_le pat pat') /\
     rq_params rq = take CSILK_MAX_PARAMS b /\
     entered evs = map Z.of_nat (seq 0 k) /\ (k <= length (mh_handlers m))%nat /\ quiet_after_stop evs = true) \/
  ((forall pat m, (pat, m) ∈ t -> mh_method m = rq_method rq -> pmatch pat (rq_path rq) = None) /\
   rq_params rq = [] /\ (nf = None -> said evs = [not_found])).

(** The router, the chain and the responses together. *)
Lemma dispatch_spec w t r nf c rx st :
  router_ok w t r -> Forall (fun e => reachable 0 e = true) t -> Forall good_route t ->
  (forall rq h, Forall (fine_action Response.rop_ok) (handler rq h)) ->
  (forall rq pat m, (pat, m) ∈ t -> nexts (handler rq) (mh_handlers m) 0 <= INT_MAX) ->
  winv rx rx st ->
  exists ps rx' evs, _csilk_dispatch_request r nf c rx = Some (request_of c ps, rx', evs) /\ routed_by t (request_of c ps) nf evs /\
    Forall Response.rop_ok (said evs) /\ Response.run_rops render (said evs) rx = Some rx'.
Proof.
  intros Hok Hreach Hgood Hf Hn W. assert (reached rx rx) as Hrx by by exists st. unfold _csilk_dispatch_request.
  destruct (match_ctx_spec w t r (default [] (method c)) (default [] (path c)) (mk_route_ctx (mk_mctx true true [] []) [] 0 0 None))
    as (ret & x & -> & Hd); [done..|]. run_binds. destruct Hd as [(-> & pat & m & b & Hin & Hm & Hb & Hleast & ->)|(-> & Hno & ->)];
    cbn [rc params rc_handlers Z.eqb Pos.eqb].
  - rewrite Forall_forall in Hgood. destruct (Hgood _ Hin) as (Hne & Hnz & _). cbn [snd] in Hne, Hnz.
    destruct (chain_run answer_call internal_error (reached rx) Response.rop_ok rx (handler (request_of c (take CSILK_MAX_PARAMS b)))
      (mh_handlers m)) as (k & E & I); [done|done|by eapply Hn|by apply Hf|done|].
    match goal with |- context [mbind _ ?x] => replace x with (Some k) by (symmetry; exact E) end. run_binds. exists (take CSILK_MAX_PARAMS b). eexists _, _. split; [done|]. destruct I as [_ _ He _ Hq _ _ [_ Hs Hfi]].
    split; [|split; [done|by apply replay_rops]]. left.
    exists pat, m, b. eexists. split; [done|]. split; [done|]. split; [done|]. split; [done|]. split; [done|]. split; [exact He|].
    split; [apply Nat.le_min_r|done].
  - set (rq := request_of c []).
    assert (exists k, (match nf with
         | Some h => run_actions answer_call internal_error (csilk_next answer_call internal_error (handler rq) 1) (handler rq h)
                       (mk_ctx None 0 0 false false [] rx [])
         | None => say answer_call (mk_ctx None 0 0 false false [] rx []) not_found
         end) = Some k /\ said_inv answer_call (reached rx) Response.rop_ok rx k /\ (nf = None -> said (log k) = [not_found])) as (k & -> & I & Hk).
    { destruct nf as [h|].
      - destruct (lone_handler answer_call internal_error (reached rx) Response.rop_ok rx (handler rq) (handler rq h)
          (mk_ctx None 0 0 false false [] rx [])) as (k & E & I); [apply Hf|done|by constructor|]. by exists k.
      - destruct (say_said answer_call internal_error (reached rx) Response.rop_ok rx (mk_ctx None 0 0 false false [] rx []) not_found)
          as (k & E & I & _); [by vm_compute|by constructor|]. exists k. split; [done|]. split; [done|]. intros _.
        unfold say in E. destruct (answer_call not_found _) as [[r' stop]|]; [|done]. injection E as <-. by destruct stop. }
    run_binds. destruct I as [_ Hs Hfi]. exists []. eexists _, _. split; [done|]. split; [|split; [done|by apply replay_rops]].
    right. split; [done|]. by split.
Qed.

(** The request as it was sent. *)
Record sent_as (name : bytes) (urls : list bytes) (hdrs : list (list bytes * list bytes)) (rq : request) : Prop := {
  sa_method : rq_method rq = name;
  sa_path : request_path (concat urls) = Some (rq_path rq);
  sa_query : forall k, nul_free k -> rq_query rq k = Some (query_value (concat urls) k);
  sa_header : forall k, HttpRequest.name_ok k -> rq_header rq k = Some (header_value hdrs k);
}.

Definition final_status (a : a_resp) : Z := if a_status a =? 0 then 200 else a_status a.

(** An answer that HTTP can express: a final status of three digits, and no
    body with a status that has none. *)
Definition sound_answer (a : a_resp) : Prop :=
  100 <= final_status a <= 999 /\ final_status a <> 101 /\ (bodiless (final_status a) = true -> a_body a = []).

(** What is written for [rx] is read back as [a]. *)
Definition read_as (rx : rctx A) (rest : bytes) (a : a_resp) : Prop :=
  Z.of_nat (length (wire_fields (fields (headers (rsp rx))))) + Z.of_nat (length (a_body a)) + 256 < 2 ^ 64 ->
  exists cs es msg, _csilk_send_response true (base rx) = Some (cs, es) /\
    read_message (sent es ++ rest) = Some (msg, rest) /\ m_status msg = final_status a /\ m_body msg = a_body a /\
    (forall k, ~ framing_name k -> lower k <> lower (lit "Connection") ->
       field_values k (m_fields msg) = map trim (omap id (a_vals a k))).

(** A request is served. Register any routes and middlewares, let a
    request within the limits arrive in any reads and spans, and let the
    handlers be any functions of the request to framework calls. Nothing on the
    way is undefined behaviour. Unless memory was refused while parsing, the
    request that is dispatched is the one that was sent; it selects the least
    matching route (the 404 answer without one), whose handlers are entered in
    order, each at most once, none after an abort or a panic; and unless memory
    was refused on the way, an HTTP/1.1 reader of what is then written, whatever
    follows it, recovers the status, the body and the headers that mean what
    the handlers said, in the order in which they said it. *)
Theorem request_served (max_url max_header max_count : Z) (llhttp_method_name : Z -> bytes)
  (ops : list Routing.rop) (nf : option Z) urls hdrs l m (st : A) :
  Forall Routing.rop_ok ops -> Forall registers_handlers ops -> Z.of_nat (length ops) < 32768 ->
  (forall rq h, Forall (fine_action Response.rop_ok) (handler rq h)) ->
  (forall rq pat mh, (pat, mh) ∈ table_of ops [] [] -> nexts (handler rq) (mh_handlers mh) 0 <= INT_MAX) ->
  al_ok st -> 0 <= max_header -> request_events st urls hdrs l -> within_limits max_url max_header max_count urls hdrs = true ->
  concat urls <> [] ->
  let evs := l ++ [EComplete m] in
  exists r, Routing.run_rops ops empty_router = Some r /\
  (out_of_memory max_url max_header max_count llhttp_method_name evs (new_client st) = true \/
   exists c, run_events max_url max_header max_count llhttp_method_name evs (new_client st) = Some (HPE_OK, c) /\
     grows st (HttpRequest.arena (mm c)) /\
     forall rx cl st2 rest, grows (HttpRequest.arena (mm c)) st2 -> fresh_ctx rx cl st2 ->
       exists rq rx' log, _csilk_dispatch_request r nf c rx = Some (rq, rx', log) /\
         sent_as (method_name llhttp_method_name m) urls hdrs rq /\ routed_by (table_of ops [] []) rq nf log /\
         (sound_answer (a_rops render (said log) a_start) -> exists st', Response.arena rx' = Some st' /\
           (refused st2 st' \/ read_as rx' rest (a_rops render (said log) a_start)))).
Proof.
  intros Hops Hreg Hlen Hf Hn Ho Hm Hre Hwl Hne evs.
  destruct (Routing.run_rops_spec ops 0 [] empty_router) as (w & r & Er & Hok & Hreach); [apply empty_router_ok|done|constructor|done|].
  exists r. split; [done|]. pose proof (table_routes ops [] [] Hreg (Forall_nil_2 _) (Forall_nil_2 _)) as Hgr.
  destruct (request_parsed max_url max_header max_count llhttp_method_name urls hdrs l m st Ho Hm Hre) as [Hoom|Hr]; [by left|right].
  rewrite Hwl in Hr. destruct Hr as (c & Erun & Gc & Ep & Em & Hq & Hh). exists c. split; [done|]. split; [done|].
  intros rx cl st2 rest G Hfc. destruct (dispatch_spec w _ r nf c rx st2 Hok Hreach Hgr Hf Hn (fresh_winv _ _ _ Hfc))
    as (ps & rx' & log & Ed & Hr & Hro & Hrun).
  exists (request_of c ps), rx', log. split; [done|]. split; [|split; [done|]].
  - constructor; cbn; [by rewrite Em|rewrite Ep; by destruct (concat urls)|done|done].
  - intros (H1 & H2 & H3). destruct (response_script render rx cl st2 (said log) rest Hfc Hro H1 H2 H3) as (c' & st' & Ec & Ea & Hres).
    rewrite Hrun in Ec. injection Ec as <-. by exists st'.
Qed.

(** ** Panics *)

Lemma string_status c st msg : status (rsp (csilk_string c st msg)) = st.
Proof.
  unfold csilk_string. destruct msg as [m|]; [|done]. destruct (Response.arena _) as [a|].
  - unfold arena_body. by destruct (al_strndup m a).
  - unfold ask. by destruct (answers _) as [|[] ?].
Qed.

Lemma internal_error_status c c' b : answer_call internal_error c = Some (c', b) -> status (rsp c') = 500.
Proof.
  unfold answer_call. change (Response.run_rop render internal_error c) with (Some (csilk_string c 500 (Some (lit "Internal Server Error")))).
  set (c1 := csilk_string _ _ _). intros E. assert (c' = c1) as -> by (cbn [mbind option_bind] in E; congruence). apply string_status.
Qed.


End Serve.

(** ** A request from its bytes to the bytes of its answer *)

Definition serve_handler (rq : request) (h : Z) : list (HandlerChain.action Response.rop) :=
  match h with
  | 1 => csilk_recovery_handler
  | 7 => [Respond (RString 200 (Some (take 64 (default [] (snd <$> List.hd_error (rq_params rq))))))]
  | _ => []
  end.

Definition serve_ops : list Routing.rop :=
  [RCompile [1]; RAdd (mk_args (lit "GET") (lit "/:name") [7] None None None None None None None)].

Lemma serve_handler_fine rq h : Forall (fine_action Response.rop_ok) (serve_handler rq h).
Proof.
  unfold serve_handler. repeat (case_match; try (by repeat constructor)). constructor; [|done]. cbn [fine_action Response.rop_ok].
  unfold small. rewrite length_take. unfold MAX_REQUEST. lia.
Qed.

Lemma serve_nexts rq pat mh : (pat, mh) ∈ table_of serve_ops [] [] -> nexts (serve_handler rq) (mh_handlers mh) 0 <= INT_MAX.
Proof. intros Hin. vm_compute in Hin. apply list_elem_of_singleton in Hin. injection Hin as -> ->. by vm_compute. Qed.

(** The whole of the example, to be evaluated. *)
Definition served_from (ro : option csilk_router_t) (vo : option (llhttp_errno * @HttpRequest.client traced))
  : option (request * rctx traced * list (HandlerChain.event Response.rop)) :=
  r ← ro; '(_, c) ← vo;
  _csilk_dispatch_request (fun _ => None) serve_handler r None c (demo_rctx (HttpRequest.arena (mm c)) []).
Definition served : option (request * rctx traced * list (HandlerChain.event Response.rop)) :=
  served_from (Routing.run_rops serve_ops empty_router)
    (run_events 64 8192 10 (fun _ => []) (wire_events ++ [EComplete HTTP_GET]) (new_client wire_arena)).

Definition served_ok (x : request * rctx traced * list (HandlerChain.event Response.rop)) : bool :=
  let a := a_rops (fun _ => None) (said x.2) a_start in
  bool_decide (rq_params x.1.1 = [(lit "name", lit "a b")]) && (a_status a =? 200) && bool_decide (a_body a = lit "a b") &&
  (Z.of_nat (length (wire_fields (fields (headers (rsp x.1.2))))) + Z.of_nat (length (a_body a)) + 256 <? 2 ^ 64) && all_served x.1.2.

Lemma served_answer rq rx log :
  served = Some (rq, rx, log) ->
  let a := a_rops (fun _ => None) (said log) a_start in
  rq_params rq = [(lit "name", lit "a b")] /\ a_body a = lit "a b" /\ final_status a = 200 /\ sound_answer a /\
  Z.of_nat (length (wire_fields (fields (headers (rsp rx))))) + Z.of_nat (length (a_body a)) + 256 < 2 ^ 64 /\ all_served rx = true.
Proof.
  intros Es a. assert (served_ok (rq, rx, log) = true) as Hok. { apply (fmap_true served_ok _ _ Es). by vm_compute. }
  unfold served_ok in Hok. cbn [fst snd] in Hok. fold a in Hok. clearbody a.
  apply andb_prop in Hok as [[[[H1 H2]%andb_prop H3]%andb_prop H4]%andb_prop H5].
  apply bool_decide_eq_true in H1, H3. apply Z.eqb_eq in H2. apply Z.ltb_lt in H4.
  assert (final_status a = 200) as Hs. { unfold final_status. rewrite H2. reflexivity. }
  split; [exact H1|]. split; [exact H3|]. split; [exact Hs|]. split; [|by split].
  unfold sound_answer. rewrite Hs. split; [lia|]. split; [lia|]. intros [=].
Qed.

Lemma served_intro ro vo r c x :
  ro = Some r -> vo = Some (HPE_OK, c) ->
  _csilk_dispatch_request (fun _ => None) serve_handler r None c (demo_rctx (HttpRequest.arena (mm c)) []) = x -> served_from ro vo = x.
Proof. by intros -> -> <-. Qed.

Lemma demo_fresh (st : traced) : al_ok st -> fresh_ctx (demo_rctx st []) demo_client st.
Proof. intros Ho. constructor; [done|exact Ho|done|done|by vm_compute|by vm_compute]. Qed.

Lemma request_served_witness :
  exists r c rq rx log cs es msg, Routing.run_rops serve_ops empty_router = Some r /\
    run_events 64 8192 10 (fun _ => []) (wire_events ++ [EComplete HTTP_GET]) (new_client wire_arena) = Some (HPE_OK, c) /\
    _csilk_dispatch_request (fun _ => None) serve_handler r None c (demo_rctx (HttpRequest.arena (mm c)) []) = Some (rq, rx, log) /\
    rq_params rq = [(lit "name", lit "a b")] /\
    _csilk_send_response true (base rx) = Some (cs, es) /\ read_message (sent es ++ lit "next") = Some (msg, lit "next") /\
    m_status msg = 200 /\ m_body msg = lit "a b".
Proof.
  destruct (request_served (fun _ => None) serve_handler 64 8192 10 (fun _ => []) serve_ops None wire_urls wire_headers wire_events HTTP_GET
    wire_arena) as (r & Er & [Ho|(c & Ec & G & Hd)]).
  - repeat constructor; apply Nat.leb_le || apply Nat.ltb_lt; by vm_compute.
  - repeat constructor; done.
  - by vm_compute.
  - apply serve_handler_fine.
  - apply serve_nexts.
  - apply wire_arena_ok.
  - lia.
  - apply wire_request.
  - by vm_compute.
  - done.
  - exfalso. vm_compute in Ho. discriminate Ho.
  - destruct (Hd (demo_rctx (HttpRequest.arena (mm c)) []) demo_client _ (lit "next") (grows_refl _ (gr_ok _ _ G))) as (rq & rx & log & Ed & _ & _ & Ha).
    { apply demo_fresh, G. }
    pose proof (served_intro _ _ _ _ _ Er Ec Ed : served = _) as Es.
    destruct (served_answer _ _ _ Es) as (H1 & H3 & Hs & Hso & H4 & Hal). destruct (Ha Hso) as (st' & Ea & [R|Hr]).
    { exfalso. exact (all_served_ok _ _ Ea Hal _ R). }
    destruct (Hr H4) as (cs & es & msg & E1 & E2 & E3 & E4 & _). exists r, c, rq, rx, log, cs, es, msg.
    split; [exact Er|]. split; [exact Ec|]. split; [exact Ed|]. split; [exact H1|]. split; [exact E1|]. split; [exact E2|].
    split; [exact (eq_trans E3 Hs)|exact (eq_trans E4 H3)].
Defined.

(** A handler panics between a half-written answer and another. *)
Definition panicking (h : Z) : list (HandlerChain.action Response.rop) :=
  match h with
  | 1 => csilk_recovery_handler
  | 2 => [Defer 21 true; Respond (RSetHeader (lit "X-Tag") (lit "one")); Next; Respond (RString 200 (Some (lit "fine")))]
  | 3 => [Defer 31 true; Respond (RString 201 None); Panic; Next]
  | _ => [Respond not_found]
  end.

Lemma panicking_fine h : Forall (fine_action Response.rop_ok) (panicking h).
Proof.
  unfold panicking. repeat case_match; repeat constructor; cbn [fine_action Response.rop_ok]; try (vm_compute; exact I); try by vm_compute.
  all: apply (bool_decide_unpack _); by vm_compute.
Qed.

Definition panicked_run : option (@HandlerChain.ctx Response.rop (rctx traced)) :=
  csilk_next (answer_call (fun _ => None)) internal_error panicking 5 (routed (demo_rctx demo_arena []) [1; 2; 3; 4]).

Definition panicked_ok (k : @HandlerChain.ctx Response.rop (rctx traced)) : bool :=
  existsb is_panic (log k) && all_served (HandlerChain.response k) &&
  (Z.of_nat (length (wire_fields (fields (headers (rsp (HandlerChain.response k)))))) + 300 <? 2 ^ 64).

