(* ===== verification/MvccCache.v ===== *)
(** * The MVCC cache

    Models src/src/core/cache/mvcc_cache.c: a hash table whose chains are never
    changed in place, epochs of readers, and the reclamation of replaced nodes.
    A node is a heap object; a chain is the list of its nodes.  The operations of
    all threads are interleaved one operation at a time (each takes effect at
    its compare-and-swap; the spurious failure of the weak one only repeats the
    loop), and a reader keeps its view across any number of operations of
    others.  Allocations consume answers of an oracle.  Touching or freeing a
    node that is not in the heap is undefined behaviour ([None]).  Epochs do not
    reach 2^64 and nesting depths do not reach 2^32.  The thread-local pointer to
    the slot found last only saves the search and is left out; [reclaim_lock] is
    free when an operation starts.  Keys are C strings without their NUL. *)

From stdpp Require Import gmap.
From S2P Require Import Prelude.

#[local] Open Scope Z_scope.

Definition CSILK_MVCC_MAX_READERS : Z := 256.
Definition CSILK_MVCC_RETIRE_THRESHOLD : Z := 32.

(** ** State *)

Record csilk_mvcc_node_t := mk_node { nkey : bytes; nval : bytes; version : Z }.

Record csilk_mvcc_reader_slot_t := mk_slot { active_epoch : Z; nesting_depth : Z }.

Record csilk_mvcc_cache_t := mk_cache {
  capacity : Z;
  global_epoch : Z;
  retired_count : Z;
  retired : list (nat * Z);
  owners : gmap Z Z;
  slots : gmap Z csilk_mvcc_reader_slot_t;
  buckets : gmap Z (list nat);
  heap : gmap nat csilk_mvcc_node_t;
  fresh : nat;
  answers : list bool;
}.

Definition set_epoch c e := mk_cache (capacity c) e (retired_count c) (retired c) (owners c) (slots c) (buckets c) (heap c) (fresh c) (answers c).
Definition set_retired c n r := mk_cache (capacity c) (global_epoch c) n r (owners c) (slots c) (buckets c) (heap c) (fresh c) (answers c).
Definition set_owners c o := mk_cache (capacity c) (global_epoch c) (retired_count c) (retired c) o (slots c) (buckets c) (heap c) (fresh c) (answers c).
Definition set_slots c s := mk_cache (capacity c) (global_epoch c) (retired_count c) (retired c) (owners c) s (buckets c) (heap c) (fresh c) (answers c).
Definition set_buckets c b := mk_cache (capacity c) (global_epoch c) (retired_count c) (retired c) (owners c) (slots c) b (heap c) (fresh c) (answers c).
Definition set_heap c h := mk_cache (capacity c) (global_epoch c) (retired_count c) (retired c) (owners c) (slots c) (buckets c) h (fresh c) (answers c).
Definition set_fresh c n := mk_cache (capacity c) (global_epoch c) (retired_count c) (retired c) (owners c) (slots c) (buckets c) (heap c) n (answers c).
Definition set_answers c a := mk_cache (capacity c) (global_epoch c) (retired_count c) (retired c) (owners c) (slots c) (buckets c) (heap c) (fresh c) a.

Definition ask (c : csilk_mvcc_cache_t) : bool * csilk_mvcc_cache_t := match answers c with [] => (true, c) | a :: l => (a, set_answers c l) end.

Definition hash_key (key : bytes) : Z :=
  foldl (fun h b => wrap64 (Z.lxor h (cval b) * 1099511628211)) 14695981039346656037 key.

Definition bucket_of (c : csilk_mvcc_cache_t) (key : bytes) : Z := hash_key key mod capacity c.
Definition chain (c : csilk_mvcc_cache_t) (i : Z) : list nat := default [] (buckets c !! i).

(** The size of [csilk_mvcc_cache_s] without its buckets. *)
Definition sizeof_cache : Z := 40 + 64 * CSILK_MVCC_MAX_READERS.

(** [Some None]: no memory.  The buckets are initialised one by one; behind an
    allocation whose size has wrapped around that is undefined. *)
Definition csilk_mvcc_cache_new (capacity : Z) (answers : list bool) : option (option csilk_mvcc_cache_t) :=
  let capacity := if capacity =? 0 then 1024 else capacity in
  let size := wrap64 (sizeof_cache + wrap64 (8 * capacity)) in
  let '(ok, c) := ask (mk_cache capacity 1 0 [] ∅ ∅ ∅ ∅ 0 answers) in
  if negb ok then Some None else
  if size <? sizeof_cache + 8 * capacity then None else Some (Some c).

(** ** Readers *)

Definition slot (c : csilk_mvcc_cache_t) (i : Z) : csilk_mvcc_reader_slot_t := default (mk_slot 0 0) (slots c !! i).

(** The first slot from [start] on whose owner is [who], among [n] of them. *)
Fixpoint find_slot (c : csilk_mvcc_cache_t) (who start : Z) (n : nat) (i : Z) : option Z :=
  match n with
  | O => None
  | S n' =>
      let idx := (start + i) mod CSILK_MVCC_MAX_READERS in
      if default 0 (owners c !! idx) =? who then Some idx else find_slot c who start n' (i + 1)
  end.

Definition acquire_reader_slot (c : csilk_mvcc_cache_t) (tid : Z) : Z * csilk_mvcc_cache_t :=
  let my_tid := if tid =? 0 then 1 else tid in
  let start := my_tid mod CSILK_MVCC_MAX_READERS in
  match find_slot c my_tid start 256 0 with
  | Some idx => (idx, c)
  | None =>
      match find_slot c 0 start 256 0 with
      | Some idx => (idx, set_owners c (<[idx := my_tid]> (owners c)))
      | None => (start, c)
      end
  end.

Definition reader_enter (c : csilk_mvcc_cache_t) (i : Z) : csilk_mvcc_cache_t :=
  let s := slot c i in
  set_slots c (<[i := mk_slot (if nesting_depth s =? 0 then global_epoch c else active_epoch s) (nesting_depth s + 1)]> (slots c)).

Definition reader_exit (c : csilk_mvcc_cache_t) (i : Z) : csilk_mvcc_cache_t :=
  let s := slot c i in
  set_slots c (<[i := mk_slot (if nesting_depth s <=? 1 then 0 else active_epoch s) (nesting_depth s - 1)]> (slots c)).

(** ** Reclamation *)

Definition free_node (c : csilk_mvcc_cache_t) (a : nat) : option csilk_mvcc_cache_t :=
  _ ← heap c !! a; Some (set_heap c (delete a (heap c))).

Fixpoint free_nodes (c : csilk_mvcc_cache_t) (l : list nat) : option csilk_mvcc_cache_t :=
  match l with
  | [] => Some c
  | a :: l' => c ← free_node c a; free_nodes c l'
  end.

Definition active_epochs (c : csilk_mvcc_cache_t) : list Z :=
  List.filter (fun e => negb (e =? 0)) (map (fun p => active_epoch p.2) (map_to_list (slots c))).

(** The least epoch of the active readers; there is one. *)
Definition min_epoch (l : list Z) : Z := foldr Z.min (2 ^ 64 - 1) l.

Fixpoint sweep (c : csilk_mvcc_cache_t) (min_active : Z) (l retain : list (nat * Z)) : option (csilk_mvcc_cache_t * list (nat * Z)) :=
  match l with
  | [] => Some (c, retain)
  | (a, r) :: l' =>
      if r + 1 <? min_active then c ← free_node c a; sweep c min_active l' retain
      else sweep c min_active l' ((a, r) :: retain)
  end.

Definition try_reclaim (c : csilk_mvcc_cache_t) : option csilk_mvcc_cache_t :=
  let current := global_epoch c in
  let es := active_epochs c in
  let '(min_active, c) :=
    match es with
    | [] => (current + 2, c)
    | _ => (min_epoch es, if current <=? min_epoch es then set_epoch c (current + 1) else c)
    end in
  '(c, retain) ← sweep c min_active (retired c) [];
  Some (set_retired c (Z.of_nat (length retain)) retain).

Definition retire_node (c : csilk_mvcc_cache_t) (a : nat) (epoch : Z) : option csilk_mvcc_cache_t :=
  let count := retired_count c in
  let c := set_retired c (wrap32 (count + 1)) ((a, epoch) :: retired c) in
  if CSILK_MVCC_RETIRE_THRESHOLD <=? count then try_reclaim c else Some c.

Fixpoint retire_all (c : csilk_mvcc_cache_t) (l : list nat) (epoch : Z) : option csilk_mvcc_cache_t :=
  match l with
  | [] => Some c
  | a :: l' => c ← retire_node c a epoch; retire_all c l' epoch
  end.

(** ** Nodes *)

Definition create_node (c : csilk_mvcc_cache_t) (key val : bytes) (version : Z) : option nat * csilk_mvcc_cache_t :=
  let '(ok, c) := ask c in
  if negb ok then (None, c) else
  let '(ok_key, c) := ask c in
  let '(ok_val, c) := ask c in
  if negb ok_key || (negb ok_val && (0 <? Z.of_nat (length val))) then (None, c) else
  (Some (fresh c), set_fresh (set_heap c (<[fresh c := mk_node key val version]> (heap c))) (S (fresh c))).

(** The node with the key in a chain, and the nodes of the chain without it. *)
Fixpoint find_node (c : csilk_mvcc_cache_t) (key : bytes) (l : list nat) : option (option nat) :=
  match l with
  | [] => Some None
  | a :: l' => n ← heap c !! a; if decide (nkey n = key) then Some (Some a) else find_node c key l'
  end.

(** Copies of the nodes except [found]; [None] as result: an allocation failed,
    after the copies made so far. *)
Fixpoint clone_chain (c : csilk_mvcc_cache_t) (l : list nat) (found : nat) (acc : list nat) : option (bool * list nat * csilk_mvcc_cache_t) :=
  match l with
  | [] => Some (true, acc, c)
  | a :: l' =>
      if decide (a = found) then clone_chain c l' found acc else
      n ← heap c !! a;
      let '(r, c) := create_node c (nkey n) (nval n) (version n) in
      match r with
      | None => Some (false, acc, c)
      | Some b => clone_chain c l' found (acc ++ [b])
      end
  end.

(** ** Operations *)

(** What one turn of a writer's loop leads to: the return value, with the state
    to return in, or the compare-and-swap of the chain, with the copies made for
    it and the nodes it takes out of the chain. *)
Inductive attempt :=
| Return (rc : Z) (c : csilk_mvcc_cache_t)
| Swap (new_chain copies replaced : list nat) (c : csilk_mvcc_cache_t).

(** [first] and copies of the old chain without [found]; all of them are freed
    when an allocation fails. *)
Definition rebuild (c : csilk_mvcc_cache_t) (old : list nat) (found : nat) (first : list nat) : option attempt :=
  '(ok, clones, c) ← clone_chain c old found [];
  if ok : bool then Some (Swap (first ++ clones) clones old c)
  else c ← free_nodes c (clones ++ first); Some (Return (-1) c).

Definition set_try (c : csilk_mvcc_cache_t) (idx : Z) (key : bytes) (new : nat) : option attempt :=
  match chain c idx with
  | [] => Some (Swap [new] [] [] c)
  | head :: rest =>
      h ← heap c !! head;
      if decide (nkey h = key) then Some (Swap (new :: rest) [] [head] c) else
      f ← find_node c key rest;
      match f with
      | None => Some (Swap (new :: head :: rest) [] [] c)
      | Some found => rebuild c (head :: rest) found [new]
      end
  end.

Definition delete_try (c : csilk_mvcc_cache_t) (idx : Z) (key : bytes) : option attempt :=
  match chain c idx with
  | [] => Some (Return (-1) c)
  | head :: rest =>
      h ← heap c !! head;
      if decide (nkey h = key) then Some (Swap rest [] [head] c) else
      f ← find_node c key rest;
      match f with
      | None => Some (Return (-1) c)
      | Some found => rebuild c (head :: rest) found []
      end
  end.

(** The loop of a writer, [cas] the outcomes of its weak compare-and-swap: after
    [false] the copies are freed and the loop starts over. *)
Fixpoint swap_loop (try : csilk_mvcc_cache_t -> option attempt) (c : csilk_mvcc_cache_t) (i idx epoch : Z) (cas : list bool) : option (Z * csilk_mvcc_cache_t) :=
  t ← try (reader_enter c i);
  match t with
  | Return rc c => Some (rc, reader_exit c i)
  | Swap new_chain copies replaced c =>
      match cas with
      | false :: cas' => c ← free_nodes (reader_exit c i) copies; swap_loop try c i idx epoch cas'
      | _ =>
          c ← retire_all (reader_exit (set_buckets c (<[idx := new_chain]> (buckets c))) i) replaced epoch;
          Some (0, c)
      end
  end.

(** [csilk_mvcc_cache_set], whose load of the epoch returned [epoch]. *)
Definition set_at (c : csilk_mvcc_cache_t) (tid : Z) (key val : bytes) (epoch : Z) (cas : list bool) : option (Z * csilk_mvcc_cache_t) :=
  let idx := bucket_of c key in
  let '(r, c) := create_node c key val epoch in
  match r with
  | None => Some (-1, c)
  | Some new =>
      let '(i, c) := acquire_reader_slot c tid in
      swap_loop (fun c => set_try c idx key new) c i idx epoch cas
  end.

Definition csilk_mvcc_cache_set (c : csilk_mvcc_cache_t) (tid : Z) (key val : option bytes) (cas : list bool) : option (Z * csilk_mvcc_cache_t) :=
  match key, val with
  | Some key, Some val => set_at c tid key val (global_epoch c) cas
  | _, _ => Some (-1, c)
  end.

(** A view: the slot it is protected by, the node its pointer leads to, and the
    value and version there when it was taken.  A zeroed view is no view. *)
Record csilk_mvcc_view_t := mk_view { v_slot : Z; v_node : nat; v_data : bytes; v_version : Z }.

Definition csilk_mvcc_cache_get_view (c : csilk_mvcc_cache_t) (tid : Z) (key : option bytes) : option (option csilk_mvcc_view_t * csilk_mvcc_cache_t) :=
  match key with
  | None => Some (None, c)
  | Some key =>
      let '(i, c) := acquire_reader_slot c tid in
      let c := reader_enter c i in
      f ← find_node c key (chain c (bucket_of c key));
      match f with
      | Some a => n ← heap c !! a; Some (Some (mk_view i a (nval n) (version n)), c)
      | None => Some (None, reader_exit c i)
      end
  end.

Definition csilk_mvcc_cache_release_view (c : csilk_mvcc_cache_t) (view : option csilk_mvcc_view_t) : csilk_mvcc_cache_t :=
  match view with
  | None => c
  | Some v => reader_exit c (v_slot v)
  end.

(** What is copied to a buffer of [out_len] bytes, and the length of the value. *)
Definition csilk_mvcc_cache_get_copy (c : csilk_mvcc_cache_t) (tid : Z) (key : option bytes) (out_len : Z) : option (option (bytes * Z) * csilk_mvcc_cache_t) :=
  '(r, c) ← csilk_mvcc_cache_get_view c tid key;
  match r with
  | None => Some (None, c)
  | Some v =>
      n ← heap c !! v_node v;
      let len := Z.of_nat (length (v_data v)) in
      Some (Some (take (Z.to_nat (if len <? out_len then len else out_len)) (nval n), len), csilk_mvcc_cache_release_view c (Some v))
  end.

Definition delete_at (c : csilk_mvcc_cache_t) (tid : Z) (key : bytes) (epoch : Z) (cas : list bool) : option (Z * csilk_mvcc_cache_t) :=
  let idx := bucket_of c key in
  let '(i, c) := acquire_reader_slot c tid in
  swap_loop (fun c => delete_try c idx key) c i idx epoch cas.

Definition csilk_mvcc_cache_delete (c : csilk_mvcc_cache_t) (tid : Z) (key : option bytes) (cas : list bool) : option (Z * csilk_mvcc_cache_t) :=
  match key with
  | None => Some (-1, c)
  | Some key => delete_at c tid key (global_epoch c) cas
  end.

(** The node whose value is returned, without protection. *)
Definition csilk_mvcc_cache_get (c : csilk_mvcc_cache_t) (key : option bytes) : option (option nat) :=
  match key with
  | None => Some None
  | Some key => find_node c key (chain c (bucket_of c key))
  end.

(** [None] also while a reader is active: the loop waits for it. *)
Definition csilk_mvcc_cache_free (c : csilk_mvcc_cache_t) : option csilk_mvcc_cache_t :=
  match active_epochs c with
  | [] =>
      c1 ← free_nodes c (map fst (retired c));
      free_nodes c1 (concat (map (chain c) (seqZ 0 (capacity c))))
  | _ => None
  end.

(** ** Scripts *)

(** The calls of any number of threads, in the order in which they take effect.
    A client keeps the views it has taken; [ORelease k] gives back the [k]-th of
    them, and does nothing for a view that was given back before. *)
Inductive op :=
| OSet (tid : Z) (key val : option bytes) (cas : list bool)
| ODelete (tid : Z) (key : option bytes) (cas : list bool)
| OGetView (tid : Z) (key : option bytes)
| ORelease (k : nat)
| OGetCopy (tid : Z) (key : option bytes) (out_len : nat)
| OGet (key : option bytes).

Inductive result := RInt (rc : Z) | RVal (v : option bytes) | RCopy (v : option (bytes * Z)) | RNone.

Definition step (c : csilk_mvcc_cache_t) (vs : list csilk_mvcc_view_t) (o : op) : option (result * csilk_mvcc_cache_t * list csilk_mvcc_view_t) :=
  match o with
  | OSet tid key val cas => '(rc, c) ← csilk_mvcc_cache_set c tid key val cas; Some (RInt rc, c, vs)
  | ODelete tid key cas => '(rc, c) ← csilk_mvcc_cache_delete c tid key cas; Some (RInt rc, c, vs)
  | OGetView tid key => '(r, c) ← csilk_mvcc_cache_get_view c tid key; Some (RVal (v_data <$> r), c, option_list r ++ vs)
  | ORelease k => Some (RNone, csilk_mvcc_cache_release_view c (vs !! k), delete k vs)
  | OGetCopy tid key out_len => '(r, c) ← csilk_mvcc_cache_get_copy c tid key (Z.of_nat out_len); Some (RCopy r, c, vs)
  | OGet key =>
      r ← csilk_mvcc_cache_get c key;
      match r with
      | None => Some (RVal None, c, vs)
      | Some a => n ← heap c !! a; Some (RVal (Some (nval n)), c, vs)
      end
  end.

Fixpoint run (c : csilk_mvcc_cache_t) (vs : list csilk_mvcc_view_t) (ops : list op) : option (list result * csilk_mvcc_cache_t * list csilk_mvcc_view_t) :=
  match ops with
  | [] => Some ([], c, vs)
  | o :: ops' =>
      '(r, c, vs) ← step c vs o;
      '(rs, c, vs) ← run c vs ops';
      Some (r :: rs, c, vs)
  end.

(** The cache as a finite map: the contents after an operation, if it may have
    this result.  Only where memory may run out may a write fail. *)
Definition answers_with {A} `{EqDecision A} (M : gmap bytes bytes) (x y : A) : option (gmap bytes bytes) := if decide (x = y) then Some M else None.

Definition spec_step (oom : bool) (M : gmap bytes bytes) (o : op) (r : result) : option (gmap bytes bytes) :=
  match o, r with
  | OSet _ (Some key) (Some val) _, RInt rc => if rc =? 0 then Some (<[key := val]> M) else if oom then answers_with M rc (-1) else None
  | OSet _ _ _ _, RInt rc => answers_with M rc (-1)
  | ODelete _ (Some key) _, RInt rc =>
      if rc =? 0 then _ ← M !! key; Some (delete key M)
      else if oom || bool_decide (M !! key = None) then answers_with M rc (-1) else None
  | ODelete _ None _, RInt rc => answers_with M rc (-1)
  | OGetView _ key, RVal v | OGet key, RVal v => answers_with M v (k ← key; M !! k)
  | ORelease _, RNone => Some M
  | OGetCopy _ key out_len, RCopy v => answers_with M v ((fun v => (take out_len v, Z.of_nat (length v))) <$> (k ← key; M !! k))
  | _, _ => None
  end.

Fixpoint spec_run (oom : bool) (M : gmap bytes bytes) (ops : list op) (rs : list result) : option (gmap bytes bytes) :=
  match ops, rs with
  | [], [] => Some M
  | o :: ops', r :: rs' => M ← spec_step oom M o r; spec_run oom M ops' rs'
  | _, _ => None
  end.

(** ** The invariant *)

(** The views that a slot protects. *)
Definition views_on (vs : list csilk_mvcc_view_t) (i : Z) : Z := Z.of_nat (length (List.filter (fun v => v_slot v =? i) vs)).

Definition entered (x : option Z) (i : Z) : Z := if decide (x = Some i) then 1 else 0.

(** Who a node belongs to: [l] are the nodes an operation has taken out of a
    chain, or not yet put into one; it retires them with epoch [e]. *)
Definition protected (c : csilk_mvcc_cache_t) (l : list nat) (e : Z) (v : csilk_mvcc_view_t) : Prop :=
  (exists i, v_node v ∈ chain c i) \/ (v_node v ∈ l /\ active_epoch (slot c (v_slot v)) <= e) \/
  (exists r, (v_node v, r) ∈ retired c /\ active_epoch (slot c (v_slot v)) <= r).

(** The key-value pairs of a list of nodes. *)
Definition holds (c : csilk_mvcc_cache_t) (l : list nat) (k v : bytes) : Prop :=
  exists a n, a ∈ l /\ heap c !! a = Some n /\ nkey n = k /\ nval n = v.

Definition one_key (c : csilk_mvcc_cache_t) (l : list nat) : Prop :=
  NoDup l /\ forall a b n m, a ∈ l -> b ∈ l -> heap c !! a = Some n -> heap c !! b = Some m -> nkey n = nkey m -> a = b.

Record inv (x : option Z) (l : list nat) (e : Z) (vs : list csilk_mvcc_view_t) (M : gmap bytes bytes) (c : csilk_mvcc_cache_t) : Prop := {
  i_chain : forall i a, a ∈ chain c i -> exists n, heap c !! a = Some n /\ bucket_of c (nkey n) = i;
  i_key : forall i, one_key c (chain c i);
  i_map : forall k v, M !! k = Some v <-> holds c (chain c (bucket_of c k)) k v;
  i_loose : NoDup (map fst (retired c) ++ l);
  i_loose_heap : forall a, a ∈ map fst (retired c) ++ l -> is_Some (heap c !! a) /\ forall i, a ∉ chain c i;
  i_cover : forall a, is_Some (heap c !! a) -> (exists i, a ∈ chain c i) \/ a ∈ map fst (retired c) ++ l;
  i_fresh : forall a, is_Some (heap c !! a) -> (a < fresh c)%nat;
  i_epoch : 1 <= global_epoch c;
  i_depth : forall i, nesting_depth (slot c i) = views_on vs i + entered x i;
  i_slot : forall i, (nesting_depth (slot c i) = 0 -> active_epoch (slot c i) = 0) /\
    (0 < nesting_depth (slot c i) -> 1 <= active_epoch (slot c i) <= global_epoch c);
  i_views : forall v, v ∈ vs -> (exists n, heap c !! v_node v = Some n /\ nval n = v_data v) /\ protected c l e v;
}.

(** Fields the invariant does not mention. *)
Lemma inv_answers x l e vs M c a : inv x l e vs M c -> inv x l e vs M (set_answers c a).
Proof. intros [H1 H2 H3 H4 H5 H6 H7 H8 H9 H10 H11]. by constructor. Qed.
Lemma inv_owners x l e vs M c o : inv x l e vs M c -> inv x l e vs M (set_owners c o).
Proof. intros [H1 H2 H3 H4 H5 H6 H7 H8 H9 H10 H11]. by constructor. Qed.

Lemma ask_ok x l e vs M c b c' : inv x l e vs M c -> ask c = (b, c') -> inv x l e vs M c' /\ heap c' = heap c /\ fresh c' = fresh c /\ buckets c' = buckets c /\
  capacity c' = capacity c /\ global_epoch c' = global_epoch c /\ (answers c = [] -> b = true /\ answers c' = []).
Proof.
  intros H. unfold ask. destruct (answers c) eqn:E; intros [= <- <-]; [by split_and!|]. split; [by apply inv_answers|]. by split_and!.
Qed.

Lemma acquire_owners c tid i c' : acquire_reader_slot c tid = (i, c') -> c' = c \/ exists o, c' = set_owners c o.
Proof.
  unfold acquire_reader_slot. set (my := if tid =? 0 then 1 else tid). generalize (find_slot c my (my mod CSILK_MVCC_MAX_READERS) 256 0) (find_slot c 0 (my mod CSILK_MVCC_MAX_READERS) 256 0).
  intros [j|] [k|] E; injection E as _ <-; [by left|by left|right; by eexists|by left].
Qed.

Lemma acquire_ok x l e vs M c tid i c' : inv x l e vs M c -> acquire_reader_slot c tid = (i, c') ->
  inv x l e vs M c' /\ heap c' = heap c /\ buckets c' = buckets c /\ capacity c' = capacity c /\ global_epoch c' = global_epoch c /\ answers c' = answers c.
Proof.
  intros H E. destruct (acquire_owners c tid i c' E) as [->|[o ->]]; [by split_and!|]. split; [by apply inv_owners|]. by split_and!.
Qed.

(** ** Entering and leaving *)

Lemma slot_insert c i s j : slot (set_slots c (<[i := s]> (slots c))) j = if decide (j = i) then s else slot c j.
Proof.
  unfold slot. cbn. destruct (decide (j = i)) as [->|]; [by rewrite lookup_insert_eq|]. by rewrite lookup_insert_ne.
Qed.

(** Changing one slot keeps the views that do not become younger. *)
Lemma inv_slot x y l e vs ws M c i s : inv x l e vs M c ->
  (forall j, (if decide (j = i) then nesting_depth s else nesting_depth (slot c j)) = views_on ws j + entered y j) ->
  (nesting_depth s = 0 -> active_epoch s = 0) -> (0 < nesting_depth s -> 1 <= active_epoch s <= global_epoch c) ->
  (forall v, v ∈ ws -> v_slot v = i -> (exists n, heap c !! v_node v = Some n /\ nval n = v_data v) /\ ((exists j, v_node v ∈ chain c j) \/ v ∈ vs /\ active_epoch s <= active_epoch (slot c i))) ->
  (forall v, v ∈ ws -> v_slot v <> i -> v ∈ vs) ->
  inv y l e ws M (set_slots c (<[i := s]> (slots c))).
Proof.
  intros [H1 H2 H3 H4 H5 H6 H7 H8 H9 H10 H11] Hd H0 Hp Hv Ho. constructor; try done.
  - intros j. rewrite slot_insert. specialize (Hd j). by destruct (decide (j = i)).
  - intros j. rewrite slot_insert. destruct (decide (j = i)); [done|apply H10].
  - intros v Hw. destruct (decide (v_slot v = i)) as [E|E].
    + destruct (Hv v Hw E) as [Hn [Hc|[Hin Ha]]]; (split; [done|]); [by left|]. destruct (H11 v Hin) as [_ [Hc|[[Hl He]|(r & Hr & He)]]].
      * by left.
      * right; left. split; [done|]. rewrite slot_insert, decide_True by done. rewrite E in He. lia.
      * right; right. exists r. split; [done|]. rewrite slot_insert, decide_True by done. rewrite E in He. lia.
    + destruct (H11 v (Ho v Hw E)) as [Hn P]. split; [done|]. unfold protected in *. rewrite slot_insert, decide_False by done. done.
Qed.

Lemma views_on_nonneg vs i : 0 <= views_on vs i.
Proof. unfold views_on. lia. Qed.

Lemma enter_ok l e vs M c i : inv None l e vs M c -> inv (Some i) l e vs M (reader_enter c i).
Proof.
  intros H. pose proof (i_depth _ _ _ _ _ _ H i) as Hd. pose proof (i_slot _ _ _ _ _ _ H i) as [S0 S1]. pose proof (i_epoch _ _ _ _ _ _ H) as He.
  pose proof (views_on_nonneg vs i) as Hn. unfold reader_enter. unfold entered in Hd. rewrite decide_False in Hd by done.
  apply (inv_slot None _ l e vs vs M c i _ H); cbn [nesting_depth active_epoch].
  - intros j. pose proof (i_depth _ _ _ _ _ _ H j) as Hj. unfold entered in *. rewrite decide_False in Hj by done.
    destruct (decide (j = i)) as [->|]; [rewrite decide_True by done; lia|rewrite decide_False by congruence; lia].
  - lia.
  - intros _. destruct (Z.eqb_spec (nesting_depth (slot c i)) 0); [lia|]. apply S1. lia.
  - intros v Hv E. destruct (i_views _ _ _ _ _ _ H v Hv) as [Hh _]. split; [done|]. right. split; [done|].
    destruct (Z.eqb_spec (nesting_depth (slot c i)) 0) as [E0|]; [|done]. exfalso. rewrite E0 in Hd.
    unfold views_on in Hd. assert (v ∈ List.filter (fun v => v_slot v =? i) vs) as Hin; [|destruct (List.filter _ _); [by apply elem_of_nil in Hin|cbn in Hd; lia]].
    apply list_elem_of_In, List.filter_In. rewrite list_elem_of_In in Hv. split; [done|]. by apply Z.eqb_eq.
  - by intros.
Qed.

Lemma exit_ok l e vs M c i : inv (Some i) l e vs M c -> inv None l e vs M (reader_exit c i).
Proof.
  intros H. pose proof (i_depth _ _ _ _ _ _ H i) as Hd. pose proof (i_slot _ _ _ _ _ _ H i) as [S0 S1].
  pose proof (views_on_nonneg vs i) as Hn. unfold reader_exit. unfold entered in Hd. rewrite decide_True in Hd by done.
  apply (inv_slot (Some i) _ l e vs vs M c i _ H); cbn [nesting_depth active_epoch].
  - intros j. pose proof (i_depth _ _ _ _ _ _ H j) as Hj. unfold entered in *. rewrite (decide_False (P := None = Some j)) by done.
    destruct (decide (j = i)) as [->|]; [lia|]. rewrite decide_False in Hj by congruence. lia.
  - intros E. by rewrite (proj2 (Z.leb_le _ _)) by lia.
  - intros E. rewrite (proj2 (Z.leb_gt _ _)) by lia. apply S1. lia.
  - intros v Hv E. destruct (i_views _ _ _ _ _ _ H v Hv) as [Hh _]. split; [done|]. right. split; [done|]. destruct (_ <=? _) eqn:E1; [|done].
    apply Z.leb_le in E1. destruct (decide (nesting_depth (slot c i) = 0)) as [E2|E2]; [rewrite S0 by done; done|]. destruct S1 as [? _]; lia.
  - by intros.
Qed.

(** ** Nodes *)

(** What an operation that only allocates or frees loose nodes leaves alone. *)
Definition frame (c c' : csilk_mvcc_cache_t) : Prop :=
  buckets c' = buckets c /\ capacity c' = capacity c /\ global_epoch c' = global_epoch c /\ (answers c = [] -> answers c' = []).

Lemma node_frame_refl c : frame c c.
Proof. done. Qed.
Lemma node_frame_trans a b c : frame a b -> frame b c -> frame a c.
Proof. intros (A1 & A2 & A3 & A4) (B1 & B2 & B3 & B4). split_and!; try congruence. auto. Qed.

Lemma inv_new x l e vs M c n : inv x l e vs M c -> inv x (l ++ [fresh c]) e vs M (set_fresh (set_heap c (<[fresh c := n]> (heap c))) (S (fresh c))).
Proof.
  intros [H1 H2 H3 H4 H5 H6 H7 H8 H9 H10 H11].
  assert (heap c !! fresh c = None) as Hf by (apply eq_None_not_Some; intros Hs%H7; lia).
  assert (forall a m, heap c !! a = Some m -> <[fresh c := n]> (heap c) !! a = Some m) as Hk by (intros a m Ha; rewrite lookup_insert_ne by congruence; done).
  assert (forall i a m, a ∈ chain c i -> <[fresh c := n]> (heap c) !! a = Some m -> heap c !! a = Some m) as Hb.
  { intros i a m Ha Hm. destruct (H1 i a Ha) as (m' & Hm' & _). pose proof (Hk a m' Hm'). congruence. }
  constructor; try done; cbn [set_fresh set_heap heap retired fresh].
  - intros i a Ha. destruct (H1 i a Ha) as (m & Hm & E). exists m. split; [by apply Hk|done].
  - intros i. destruct (H2 i) as [N K]. split; [done|]. intros a b m m' Ha Hb' Em Em'. apply (K a b m m'); try done; eapply Hb; eauto.
  - intros k v. rewrite H3. split; intros (a & m & Ha & Hm & Ek); exists a, m; (split; [done|]); (split; [|done]); [by apply Hk|by eapply Hb].
  - rewrite (assoc_L (++)). apply NoDup_app. split_and!; [done| |apply NoDup_singleton]. intros a Ha Hs. apply list_elem_of_singleton in Hs. subst a. destruct (H5 _ Ha) as [[m Hm] _]. congruence.
  - intros a. rewrite (assoc_L (++)). intros [Ha|Ha%list_elem_of_singleton]%elem_of_app.
    + destruct (H5 a Ha) as [[m Hm] Hc]. split; [|done]. exists m. by apply Hk.
    + subst a. split; [by rewrite lookup_insert_eq|]. intros i Hi. destruct (H1 i _ Hi) as (m & Hm & _). congruence.
  - intros a [m Hm]. rewrite (assoc_L (++)). destruct (decide (a = fresh c)) as [->|]; [right; apply elem_of_app; right; by left|].
    rewrite lookup_insert_ne in Hm by done. destruct (H6 a) as [Hc|Hl]; [by eexists|by left|right; apply elem_of_app; by left].
  - intros a [m Hm]. destruct (decide (a = fresh c)) as [->|]; [lia|]. rewrite lookup_insert_ne in Hm by done. assert (a < fresh c)%nat; [|lia]. apply H7. by eexists.
  - intros v Hv. destruct (H11 v Hv) as [(m & Hm & Em) P]. split; [exists m; split; [by apply Hk|done]|]. destruct P as [P|[[P Pe]|P]]; [by left|right; left|by right; right].
    split; [apply elem_of_app; by left|done].
Qed.

Lemma create_ok x l e vs M c k v ver r c' : inv x l e vs M c -> create_node c k v ver = (r, c') ->
  frame c c' /\ (forall a n, heap c !! a = Some n -> heap c' !! a = Some n) /\
  match r with
  | None => inv x l e vs M c' /\ answers c <> []
  | Some a => inv x (l ++ [a]) e vs M c' /\ heap c' !! a = Some (mk_node k v ver) /\ heap c !! a = None
  end.
Proof.
  intros H. unfold create_node. destruct (ask c) as [b1 c1] eqn:E1. destruct (ask_ok _ _ _ _ _ _ _ _ H E1) as (I1 & A1 & A2 & A3 & A4 & A5 & A6).
  assert (frame c c1) as F1 by (split_and!; try done; intros Ha; by apply A6). destruct b1; cbn [negb].
  2: { intros [= <- <-]. split; [done|]. split; [by rewrite A1|]. split; [done|]. intros Ha. destruct (A6 Ha). done. }
  destruct (ask c1) as [b2 c2] eqn:E2. destruct (ask_ok _ _ _ _ _ _ _ _ I1 E2) as (I2 & B1 & B2 & B3 & B4 & B5 & B6).
  destruct (ask c2) as [b3 c3] eqn:E3. destruct (ask_ok _ _ _ _ _ _ _ _ I2 E3) as (I3 & C1 & C2 & C3 & C4 & C5 & C6).
  assert (frame c c3) as F3 by (split_and!; try congruence; intros Ha; apply C6, B6, A6, Ha).
  assert (heap c3 = heap c /\ fresh c3 = fresh c) as [Hh Hfr] by (split; congruence).
  destruct (negb b2 || _) eqn:Ec; intros [= <- <-].
  - split; [done|]. split; [by rewrite Hh|]. split; [done|]. intros Ha. destruct (B6 (proj2 (A6 Ha))) as [-> Hb]. destruct (C6 Hb) as [-> _]. done.
  - split; [done|]. assert (heap c !! fresh c3 = None) as Hf by (rewrite Hfr; apply eq_None_not_Some; intros Hs%(i_fresh _ _ _ _ _ _ H); lia).
    cbn [set_fresh set_heap heap]. split; [intros a n Ha; rewrite Hh, lookup_insert_ne by congruence; done|]. split_and!; [by apply inv_new|by rewrite lookup_insert_eq|done].
Qed.

(** Freeing a loose node nobody views. *)
Lemma free_loose x l1 a l2 e vs M c : inv x (l1 ++ a :: l2) e vs M c -> (forall v, v ∈ vs -> v_node v <> a) ->
  exists c', free_node c a = Some c' /\ inv x (l1 ++ l2) e vs M c' /\ frame c c' /\ (forall b, b <> a -> heap c' !! b = heap c !! b).
Proof.
  intros [H1 H2 H3 H4 H5 H6 H7 H8 H9 H10 H11] Hv.
  assert (map fst (retired c) ++ l1 ++ a :: l2 ≡ₚ a :: map fst (retired c) ++ l1 ++ l2) as P by (rewrite !(assoc_L (++)); symmetry; apply Permutation_middle).
  destruct (H5 a) as [[n Hn] Hc]; [rewrite P; by left|]. unfold free_node. rewrite Hn. cbn [mbind option_bind]. eexists. split; [reflexivity|].
  assert (forall i b, b ∈ chain c i -> b <> a) as Hne by (intros i b Hb ->; by apply (Hc i)).
  rewrite P in H4. apply NoDup_cons in H4 as [Na Nl].
  split; [|split; [done|intros b Hb; cbn; by rewrite lookup_delete_ne]]. constructor; try done; cbn [set_heap heap retired fresh].
  - intros i b Hb. rewrite lookup_delete_ne by (symmetry; by apply (Hne i)). by apply H1.
  - intros i. destruct (H2 i) as [N K]. split; [done|]. intros b b' m m' Hb Hb'. cbn [set_heap heap]. rewrite !lookup_delete_ne by (symmetry; by apply (Hne i)). by apply K.
  - intros k v. rewrite H3. split; intros (b & m & Hb & Hm & Ek); exists b, m; (split; [done|]); (split; [|done]); cbn in *;
      [rewrite lookup_delete_ne; [done|symmetry; by eapply Hne]|by apply lookup_delete_Some in Hm as [_ ?]].
  - intros b Hb. destruct (H5 b) as [Hs Hcb]; [rewrite P; by right|]. split; [|done]. rewrite lookup_delete_ne; [done|]. intros ->. done.
  - intros b [m Hm]. apply lookup_delete_Some in Hm as [Hb Hm]. destruct (H6 b) as [?|Hl]; [by eexists|by left|right]. rewrite P in Hl. apply elem_of_cons in Hl as [->|]; done.
  - intros b [m Hm]. apply lookup_delete_Some in Hm as [Hb Hm]. apply H7. by eexists.
  - intros v Hin. destruct (H11 v Hin) as [(m & Hm & Em) Pr]. split; [exists m; split; [|done]; rewrite lookup_delete_ne; [done|symmetry; by apply Hv]|].
    destruct Pr as [Pr|[[Pr Pe]|Pr]]; [by left|right; left|by right; right]. split; [|done]. rewrite elem_of_app, elem_of_cons in Pr. rewrite elem_of_app.
    destruct Pr as [?|[?|?]]; [by left|by destruct (Hv v Hin)|by right].
Qed.

Lemma free_nodes_loose x ns : forall l e vs M c, inv x (l ++ ns) e vs M c -> (forall v, v ∈ vs -> v_node v ∉ ns) ->
  exists c', free_nodes c ns = Some c' /\ inv x l e vs M c' /\ frame c c' /\ (forall b, b ∉ ns -> heap c' !! b = heap c !! b).
Proof.
  induction ns as [|a ns IH]; intros l e vs M c H Hv; [rewrite app_nil_r in H; exists c; split_and!; done|]. cbn [free_nodes].
  destruct (free_loose x l a ns e vs M c H) as (c1 & E1 & I1 & F1 & K1); [intros v Hin E; apply (Hv v Hin); rewrite E; by left|]. rewrite E1. cbn [mbind option_bind].
  destruct (IH l e vs M c1 I1) as (c2 & E2 & I2 & F2 & K2); [intros v Hin E; apply (Hv v Hin); by right|]. exists c2. split_and!; try done; try apply (node_frame_trans c c1 c2 F1 F2).
  intros b [Hb Hb']%not_elem_of_cons. rewrite K2 by done. by apply K1.
Qed.

(** ** Replacing a chain *)

Lemma chain_insert c i l j : chain (set_buckets c (<[i := l]> (buckets c))) j = if decide (j = i) then l else chain c j.
Proof.
  unfold chain. cbn. destruct (decide (j = i)) as [->|]; [by rewrite lookup_insert_eq|]. by rewrite lookup_insert_ne.
Qed.

(** The nodes of the new chain come from the old one and from the loose nodes;
    the others are loose afterwards. *)
Lemma publish_ok x l l' vs M M' c i new : let e := global_epoch c in
  inv x l e vs M c -> new ++ l' ≡ₚ chain c i ++ l -> one_key c new ->
  (forall a n, a ∈ new -> heap c !! a = Some n -> bucket_of c (nkey n) = i) ->
  (forall k v, bucket_of c k = i -> M' !! k = Some v <-> holds c new k v) -> (forall k, bucket_of c k <> i -> M' !! k = M !! k) ->
  inv x l' e vs M' (set_buckets c (<[i := new]> (buckets c))).
Proof.
  intros e [H1 H2 H3 H4 H5 H6 H7 H8 H9 H10 H11] P Hk Hb Hm Ho.
  assert (forall a, a ∈ chain c i \/ a ∈ l <-> a ∈ new \/ a ∈ l') as Hin by (intros a; by rewrite <- !elem_of_app, P).
  assert (NoDup (new ++ l')) as Nd.
  { rewrite P. apply NoDup_app. split_and!; [apply H2| |by apply NoDup_app in H4 as (_ & _ & ?)]. intros a Ha Hl. apply (proj2 (H5 a ltac:(apply elem_of_app; by right)) i Ha). }
  apply NoDup_app in Nd as (Nn & Nx & Nl).
  assert (forall a j, a ∈ chain c j -> j <> i -> a ∉ new /\ a ∉ l') as Hoth.
  { intros a j Ha Hj. cut (~ (a ∈ new \/ a ∈ l')); [tauto|]. rewrite <- Hin. intros [Hi|Hl].
    - destruct (H1 j a Ha) as (n & En & <-). destruct (H1 i a Hi) as (n' & En' & E). congruence.
    - by apply (proj2 (H5 a ltac:(apply elem_of_app; by right)) j). }
  assert (forall a, a ∈ map fst (retired c) -> a ∉ new /\ a ∉ l') as Hret.
  { intros a Ha. cut (~ (a ∈ new \/ a ∈ l')); [tauto|]. rewrite <- Hin. intros [Hi|Hl].
    - by apply (proj2 (H5 a ltac:(apply elem_of_app; by left)) i).
    - apply NoDup_app in H4 as (_ & N & _). by apply (N a Ha). }
  assert (forall a, a ∈ new \/ a ∈ l' -> is_Some (heap c !! a)) as Hsome.
  { intros a. rewrite <- Hin. intros [Hi|Hl]; [destruct (H1 i a Hi) as (n & En & _); by eexists|apply H5, elem_of_app; by right]. }
  constructor; try done; cbn [set_buckets heap retired fresh global_epoch].
  - intros j a. rewrite chain_insert. destruct (decide (j = i)) as [->|]; [|apply H1]. intros Ha. destruct (Hsome a (or_introl Ha)) as [n Hn]. exists n. split; [done|by apply (Hb a)].
  - intros j. rewrite chain_insert. destruct (decide (j = i)); [done|apply H2].
  - intros k v. change (bucket_of (set_buckets c (<[i := new]> (buckets c))) k) with (bucket_of c k). rewrite chain_insert.
    destruct (decide (bucket_of c k = i)) as [E|E]; [by apply Hm|rewrite Ho by done; apply H3].
  - apply NoDup_app. split_and!; [by apply NoDup_app in H4 as (? & _)| |done]. intros a Ha. by apply Hret.
  - intros a Ha. apply elem_of_app in Ha as [Ha|Ha].
    + destruct (H5 a) as [Hs Hc]; [apply elem_of_app; by left|]. split; [done|]. intros j. rewrite chain_insert. destruct (decide (j = i)); [by apply Hret|apply Hc].
    + split; [apply Hsome; by right|]. intros j. rewrite chain_insert. destruct (decide (j = i)); [intros Hn; by apply (Nx a)|]. intros Hc. by apply (proj2 (Hoth a j Hc n)).
  - intros a Ha. destruct (H6 a Ha) as [[j Hj]|Hl].
    + destruct (decide (j = i)) as [->|Hji]; [|left; exists j; rewrite chain_insert, decide_False by done; done].
      destruct (proj1 (Hin a) (or_introl Hj)); [left; exists i; rewrite chain_insert, decide_True by done; done|right; apply elem_of_app; by right].
    + apply elem_of_app in Hl as [Hl|Hl]; [right; apply elem_of_app; by left|].
      destruct (proj1 (Hin a) (or_intror Hl)); [left; exists i; rewrite chain_insert, decide_True by done; done|right; apply elem_of_app; by right].
  - intros v Hv. destruct (H11 v Hv) as [Hn Pr]. split; [done|]. unfold protected. change (slot (set_buckets c (<[i := new]> (buckets c)))) with (slot c).
    assert (active_epoch (slot c (v_slot v)) <= e) as He.
    { destruct (H10 (v_slot v)) as [E0 E1]. pose proof (H9 (v_slot v)). pose proof (views_on_nonneg vs (v_slot v)). unfold entered in *.
      destruct (decide (nesting_depth (slot c (v_slot v)) = 0)); [rewrite E0 by done; unfold e; lia|]. apply E1. destruct (decide _); lia. }
    assert (v_node v ∈ new \/ v_node v ∈ l' -> (exists j, v_node v ∈ chain (set_buckets c (<[i := new]> (buckets c))) j) \/ (v_node v ∈ l' /\ active_epoch (slot c (v_slot v)) <= e) \/
      (exists r, (v_node v, r) ∈ retired c /\ active_epoch (slot c (v_slot v)) <= r)) as Hg.
    { intros [Ha|Ha]; [left; exists i; by rewrite chain_insert, decide_True|right; by left]. }
    destruct Pr as [[j Hj]|[[Pr Pe]|Pr]]; [|by apply Hg, Hin; right|by right; right].
    destruct (decide (j = i)) as [->|]; [by apply Hg, Hin; left|]. left. exists j. by rewrite chain_insert, decide_False.
Qed.

(** ** Retiring and reclaiming *)

Lemma active_epochs_spec c i : active_epoch (slot c i) <> 0 -> active_epoch (slot c i) ∈ active_epochs c.
Proof.
  unfold slot, active_epochs. destruct (slots c !! i) as [s|] eqn:E; [|done]. cbn. intros H. apply list_elem_of_In, List.filter_In. split; [|by apply negb_true_iff, Z.eqb_neq].
  apply List.in_map_iff. exists (i, s). split; [done|]. by apply list_elem_of_In, elem_of_map_to_list.
Qed.

Lemma min_epoch_le l z : z ∈ l -> min_epoch l <= z.
Proof. induction l as [|y l IH]; [by intros ?%elem_of_nil|]. intros [->|H]%elem_of_cons; cbn; [lia|]. specialize (IH H). unfold min_epoch in IH. lia. Qed.

(** The list of retired nodes is moved to the loose ones and back. *)
Lemma inv_retired x l l' rs e vs M c n : inv x l e vs M c -> map fst rs ++ l' ≡ₚ map fst (retired c) ++ l ->
  (forall v r, v ∈ vs -> (v_node v, r) ∈ retired c -> active_epoch (slot c (v_slot v)) <= r -> (v_node v, r) ∈ rs \/ (v_node v ∈ l' /\ active_epoch (slot c (v_slot v)) <= e)) ->
  (forall v, v ∈ vs -> v_node v ∈ l -> active_epoch (slot c (v_slot v)) <= e -> (v_node v, e) ∈ rs \/ v_node v ∈ l') ->
  inv x l' e vs M (set_retired c n rs).
Proof.
  intros [H1 H2 H3 H4 H5 H6 H7 H8 H9 H10 H11] P Hr Hl. constructor; try done; cbn [set_retired retired heap].
  - by rewrite P.
  - intros a. rewrite P. apply H5.
  - intros a Ha. rewrite P. by apply H6.
  - intros v Hv. destruct (H11 v Hv) as [Hn [Pr|[[Pr Pe]|(r & Pr & Pe)]]]; (split; [done|]).
    + by left.
    + destruct (Hl v Hv Pr Pe) as [?|?]; [right; right; by exists e|right; by left].
    + destruct (Hr v r Hv Pr Pe) as [?|[? ?]]; [right; right; by exists r|right; by left].
Qed.

Lemma retired_unviewed x l e vs M c a r min : inv x l e vs M c -> (a, r) ∈ retired c -> r + 1 < min ->
  (forall v, v ∈ vs -> min <= active_epoch (slot c (v_slot v))) -> forall v, v ∈ vs -> v_node v <> a.
Proof.
  intros H Ha Hr Hmin v Hv E. pose proof (Hmin v Hv) as Hm. pose proof (i_loose _ _ _ _ _ _ H) as N. pose proof (list_elem_of_fmap_2 fst _ _ Ha) as Hf. cbn in Hf.
  destruct (i_views _ _ _ _ _ _ H v Hv) as [_ [[i Pr]|[[Pr _]|(r' & Pr & Pe)]]]; rewrite E in *.
  - by apply (proj2 (i_loose_heap _ _ _ _ _ _ H a ltac:(apply elem_of_app; by left)) i).
  - apply NoDup_app in N as (_ & N & _). by apply (N a).
  - apply NoDup_app in N as (N & _). assert (r' = r) as ->; [|lia].
    clear -N Ha Pr. induction (retired c) as [|[b s] rs IH]; [by apply elem_of_nil in Ha|]. cbn in N. apply NoDup_cons in N as [N1 N2].
    apply elem_of_cons in Ha as [Ha|Ha], Pr as [Pr|Pr].
    + congruence.
    + injection Ha as <- <-. destruct N1. by apply (list_elem_of_fmap_2 fst _ _ Pr).
    + injection Pr as <- <-. destruct N1. by apply (list_elem_of_fmap_2 fst _ _ Ha).
    + by apply IH.
Qed.

Lemma sweep_ok x l e vs M min : forall rs retain c, inv x l e vs M (set_retired c 0 (rs ++ retain)) ->
  (forall v, v ∈ vs -> min <= active_epoch (slot c (v_slot v))) ->
  exists c' rt, sweep c min rs retain = Some (c', rt) /\ inv x l e vs M (set_retired c' 0 rt) /\ frame c c'.
Proof.
  induction rs as [|[a r] rs IH]; intros retain c H Hmin; [by exists c, retain|]. cbn [sweep]. destruct (Z.ltb_spec (r + 1) min) as [Hr|Hr].
  - assert (forall v, v ∈ vs -> v_node v <> a) as Hv.
    { apply (retired_unviewed x l e vs M (set_retired c 0 (((a, r) :: rs) ++ retain)) a r min H); [by left|done|done]. }
    assert (inv x (a :: l) e vs M (set_retired c 0 (rs ++ retain))) as I.
    { apply (inv_retired x l (a :: l) (rs ++ retain) e vs M (set_retired c 0 (((a, r) :: rs) ++ retain)) 0 H); cbn [set_retired retired].
      - cbn. symmetry. apply Permutation_middle.
      - intros v s Hin [[= E _]|Hs]%elem_of_cons _; [by destruct (Hv v Hin)|by left].
      - intros v Hin Hl _. right. by right. }
    destruct (free_loose x [] a l e vs M _ I Hv) as (c1 & E1 & I1 & F1 & _). unfold free_node in E1 |- *. cbn [set_retired heap] in E1.
    destruct (heap c !! a) as [n|]; [|done]. cbn [mbind option_bind] in E1 |- *. injection E1 as <-.
    apply (IH retain (set_heap c (delete a (heap c))) I1 Hmin).
  - destruct (IH ((a, r) :: retain) c) as (c' & rt & E & I & F); [|done|by exists c', rt].
    apply (inv_retired x l l (rs ++ (a, r) :: retain) e vs M (set_retired c 0 (((a, r) :: rs) ++ retain)) 0 H); cbn [set_retired retired].
    + apply Permutation_app_tail, Permutation_map. symmetry. apply Permutation_middle.
    + intros v s _ Hs _. left. cbn in Hs. rewrite elem_of_cons, elem_of_app in Hs. rewrite elem_of_app, elem_of_cons. tauto.
    + intros v _ Hl _. by right.
Qed.

Lemma inv_epoch_up x l e vs M c : inv x l e vs M c -> inv x l e vs M (set_epoch c (global_epoch c + 1)).
Proof.
  intros [H1 H2 H3 H4 H5 H6 H7 H8 H9 H10 H11]. constructor; try done; cbn [set_epoch global_epoch]; [lia|].
  intros i. destruct (H10 i) as [E0 E1]. split; [done|]. intros Hd. specialize (E1 Hd). change (slot (set_epoch c (global_epoch c + 1)) i) with (slot c i). lia.
Qed.

Lemma inv_count x l e vs M c n : inv x l e vs M c -> inv x l e vs M (set_retired c n (retired c)).
Proof. intros [H1 H2 H3 H4 H5 H6 H7 H8 H9 H10 H11]. by constructor. Qed.

(** What retiring leaves alone. *)
Definition rframe (c c' : csilk_mvcc_cache_t) : Prop := buckets c' = buckets c /\ capacity c' = capacity c /\ (answers c = [] -> answers c' = []).

Lemma reclaim_ok l e vs M c : inv None l e vs M c -> exists c', try_reclaim c = Some c' /\ inv None l e vs M c' /\ rframe c c'.
Proof.
  intros H. unfold try_reclaim.
  assert (forall v, v ∈ vs -> active_epoch (slot c (v_slot v)) <> 0) as Hact.
  { intros v Hv. pose proof (i_depth _ _ _ _ _ _ H (v_slot v)) as Hd. destruct (i_slot _ _ _ _ _ _ H (v_slot v)) as [_ S1]. unfold entered in Hd. rewrite decide_False in Hd by done.
    assert (0 < views_on vs (v_slot v)) as Hp; [|destruct S1 as [? _]; lia]. unfold views_on.
    assert (v ∈ List.filter (fun w => v_slot w =? v_slot v) vs) as Hin; [|destruct (List.filter _ _); [by apply elem_of_nil in Hin|cbn; lia]].
    apply list_elem_of_In, List.filter_In. rewrite list_elem_of_In in Hv. split; [done|]. by apply Z.eqb_eq. }
  set (p := match active_epochs c with [] => _ | _ => _ end).
  assert (exists min d, p = (min, d) /\ inv None l e vs M d /\ rframe c d /\ (forall v, v ∈ vs -> min <= active_epoch (slot d (v_slot v)))) as (min & d & -> & I & F & Hmin).
  { unfold p. clear p. destruct (active_epochs c) as [|z es] eqn:E.
    - eexists _, c. split_and!; try done. intros v Hv. pose proof (active_epochs_spec c _ (Hact v Hv)) as Hin. rewrite E in Hin. by apply elem_of_nil in Hin.
    - rewrite <- E. eexists _, _. split; [reflexivity|]. assert (forall v, v ∈ vs -> min_epoch (active_epochs c) <= active_epoch (slot c (v_slot v))) as Hm.
      { intros v Hv. apply min_epoch_le, active_epochs_spec, Hact, Hv. }
      rewrite E in *. destruct (_ <=? _); [split; [by apply inv_epoch_up|]|split; [done|]]; split; try done. }
  destruct (sweep_ok None l e vs M min (retired d) [] d) as (c' & rt & E & I' & (F1 & F2 & _ & F4)); [rewrite app_nil_r; by apply inv_count|done|].
  rewrite E. cbn [mbind option_bind]. eexists. split; [reflexivity|]. split.
  - apply (inv_count _ _ _ _ _ _ (Z.of_nat (length rt))) in I'. exact I'.
  - destruct F as (G1 & G2 & G3). split_and!; cbn; try congruence. auto.
Qed.

Lemma retire_ok a l e vs M c : inv None (a :: l) e vs M c -> exists c', retire_node c a e = Some c' /\ inv None l e vs M c' /\ rframe c c'.
Proof.
  intros H. unfold retire_node. assert (inv None l e vs M (set_retired c (wrap32 (retired_count c + 1)) ((a, e) :: retired c))) as I.
  { apply (inv_retired None (a :: l) l _ e vs M c _ H).
    - cbn. apply Permutation_middle.
    - intros v r _ Hr _. left. by right.
    - intros v _ [E|Hl]%elem_of_cons _; [left; rewrite E; by left|by right]. }
  destruct (_ <=? _); [|eexists; split; [reflexivity|]; by split_and!].
  destruct (reclaim_ok l e vs M _ I) as (c' & E & I' & F). exists c'. by split_and!.
Qed.

Lemma rframe_trans a b c : rframe a b -> rframe b c -> rframe a c.
Proof. intros (A1 & A2 & A3) (B1 & B2 & B3). split_and!; try congruence. auto. Qed.

Lemma retire_all_ok ns : forall l e vs M c, inv None (ns ++ l) e vs M c -> exists c', retire_all c ns e = Some c' /\ inv None l e vs M c' /\ rframe c c'.
Proof.
  induction ns as [|a ns IH]; intros l e vs M c H; [by exists c|]. cbn [retire_all]. destruct (retire_ok a (ns ++ l) e vs M c H) as (c1 & E1 & I1 & F1).
  rewrite E1. cbn [mbind option_bind]. destruct (IH l e vs M c1 I1) as (c2 & E2 & I2 & F2). exists c2. split; [done|]. split; [done|]. by apply (rframe_trans c c1 c2).
Qed.

(** ** Look-up and copying *)

Lemma find_node_spec c key l : (forall a, a ∈ l -> is_Some (heap c !! a)) ->
  (exists a n, find_node c key l = Some (Some a) /\ a ∈ l /\ heap c !! a = Some n /\ nkey n = key) \/
  (find_node c key l = Some None /\ forall a n, a ∈ l -> heap c !! a = Some n -> nkey n <> key).
Proof.
  induction l as [|a l IH]; intros Hs; [right; split; [done|]; intros a n Ha; by apply elem_of_nil in Ha|].
  destruct (Hs a ltac:(by left)) as [n Hn]. cbn [find_node]. rewrite Hn. cbn [mbind option_bind]. destruct (decide (nkey n = key)) as [E|E].
  - left. exists a, n. split_and!; try done. by left.
  - destruct IH as [(b & m & Hf & Hb & Hm & Ek)|[Hf Hno]]; [intros b Hb; apply Hs; by right| |].
    + left. exists b, m. split_and!; try done. by right.
    + right. split; [done|]. intros b m [->|Hb]%elem_of_cons Hm; [congruence|by apply (Hno b)].
Qed.

(** The nodes of a chain without one of them, and their copies. *)
Definition others (l : list nat) (a : nat) : list nat := List.filter (fun b => negb (b =? a)%nat) l.

Definition copy_of (c : csilk_mvcc_cache_t) (b b' : nat) : Prop :=
  exists n n', heap c !! b = Some n /\ heap c !! b' = Some n' /\ nkey n' = nkey n /\ nval n' = nval n.

Lemma copy_mono c c' b b' : (forall a n, heap c !! a = Some n -> heap c' !! a = Some n) -> copy_of c b b' -> copy_of c' b b'.
Proof. intros H (n & n' & H1 & H2 & H3). exists n, n'. split_and!; try apply H; done || tauto. Qed.

Lemma clone_ok x e vs M found : forall ns l acc src c, inv x (l ++ acc) e vs M c -> (forall a, a ∈ ns -> is_Some (heap c !! a)) -> Forall2 (copy_of c) src acc ->
  (forall v, v ∈ vs -> v_node v ∉ acc) ->
  exists ok cl c', clone_chain c ns found acc = Some (ok, cl, c') /\ frame c c' /\ (forall a n, heap c !! a = Some n -> heap c' !! a = Some n) /\
    inv x (l ++ cl) e vs M c' /\ (forall v, v ∈ vs -> v_node v ∉ cl) /\ (ok = true -> Forall2 (copy_of c') (src ++ others ns found) cl) /\ (answers c = [] -> ok = true).
Proof.
  induction ns as [|a ns IH]; intros l acc src c H Hs Hc Hv; cbn [clone_chain].
  - exists true, acc, c. rewrite app_nil_r. by split_and!.
  - cbn [others List.filter]. fold (others ns found). destruct (decide (a = found)) as [->|Ha].
    + rewrite Nat.eqb_refl. cbn [negb]. apply IH; try done. intros b Hb. apply Hs. by right.
    + rewrite (proj2 (Nat.eqb_neq _ _)) by done. cbn [negb]. destruct (Hs a ltac:(by left)) as [n Hn]. rewrite Hn. cbn [mbind option_bind].
      destruct (create_node c (nkey n) (nval n) (version n)) as [r c1] eqn:E. destruct (create_ok _ _ _ _ _ _ _ _ _ _ _ H E) as (F & K & G). destruct r as [b|].
      * destruct G as (I & Hb & Hno). destruct (IH l (acc ++ [b]) (src ++ [a]) c1) as (ok & cl & c' & E' & F' & K' & I' & V' & S' & A').
        -- by rewrite (assoc_L (++)).
        -- intros d Hd. destruct (Hs d ltac:(by right)) as [m Hm]. exists m. by apply K.
        -- apply Forall2_app; [eapply Forall2_impl; [exact Hc|]; intros ? ?; by apply copy_mono|]. constructor; [|constructor]. exists n, (mk_node (nkey n) (nval n) (version n)). split_and!; try done. by apply K.
        -- intros v Hin. rewrite elem_of_app, list_elem_of_singleton. intros [Ho|Ho]; [by apply (Hv v Hin)|]. destruct (i_views _ _ _ _ _ _ H v Hin) as [(m & Hm & _) _]. congruence.
        -- exists ok, cl, c'. split; [done|]. split; [by apply (node_frame_trans c c1 c')|]. split; [auto|]. split; [done|]. split; [done|].
           split; [intros Hok; specialize (S' Hok); by rewrite <- (assoc_L (++)) in S'|]. intros Hans. apply A'. by apply F.
      * destruct G as [I Hne]. exists false, acc, c1. by split_and!.
Qed.

(** A chain that holds what [old] holds, except for [key]. *)
Record without (c : csilk_mvcc_cache_t) (key : bytes) (old tl : list nat) : Prop := {
  w_key : one_key c tl;
  w_no : forall a n, a ∈ tl -> heap c !! a = Some n -> nkey n <> key;
  w_holds : forall k v, k <> key -> holds c tl k v <-> holds c old k v;
  w_bucket : forall a n, a ∈ tl -> heap c !! a = Some n -> exists b m, b ∈ old /\ heap c !! b = Some m /\ nkey m = nkey n;
}.

Lemma without_self c key l : one_key c l -> (forall a n, a ∈ l -> heap c !! a = Some n -> nkey n <> key) -> without c key l l.
Proof. intros H Hn. constructor; try done. intros a n Ha Hh. by exists a, n. Qed.

Lemma without_head c key a n l : one_key c (a :: l) -> heap c !! a = Some n -> nkey n = key -> without c key (a :: l) l.
Proof.
  intros [N K] Ha Hk. apply NoDup_cons in N as [N1 N2].
  assert (forall b m, b ∈ l -> heap c !! b = Some m -> nkey m <> key) as Hno.
  { intros b m Hb Hm E. destruct N1. assert (a = b) as -> by (apply (K a b n m); [by left|by right|done|done|congruence]). done. }
  constructor; [split; [done|]; intros b b' m m' Hb Hb'; apply K; by right|done| |].
  - intros k v Hk'. split; intros (b & m & Hb & Hm & E1 & E2); exists b, m; split_and!; try done; [by right|]. apply elem_of_cons in Hb as [->|]; [congruence|done].
  - intros b m Hb Hm. exists b, m. split_and!; try done. by right.
Qed.

Lemma others_in l a b : b ∈ others l a <-> b ∈ l /\ b <> a.
Proof. unfold others. rewrite list_elem_of_In, List.filter_In, negb_true_iff, Nat.eqb_neq, <- list_elem_of_In. done. Qed.

Lemma without_clones c key old found n cl : one_key c old -> (forall a, a ∈ old -> is_Some (heap c !! a)) -> found ∈ old -> heap c !! found = Some n -> nkey n = key -> NoDup cl ->
  Forall2 (copy_of c) (others old found) cl -> without c key old cl.
Proof.
  intros [N K] Hs Hf Hn Hk Nc Hc.
  assert (forall i b m, cl !! i = Some b -> heap c !! b = Some m -> exists a m', others old found !! i = Some a /\ heap c !! a = Some m' /\ nkey m = nkey m' /\ nval m = nval m') as Hb.
  { intros i b m Hi Hm. destruct (Forall2_lookup_r _ _ _ _ _ Hc Hi) as (a & Ha & m' & m2 & H1 & H2 & H3 & H4). exists a, m'. assert (m2 = m) as -> by congruence. by split_and!. }
  assert (forall b m, b ∈ cl -> heap c !! b = Some m -> nkey m <> key) as Hno.
  { intros b m Hin Hm E. apply list_elem_of_lookup_1 in Hin as [i Hi]. destruct (Hb i b m Hi Hm) as (a & m' & Ha & Hm' & E1 & _).
    apply list_elem_of_lookup_2, others_in in Ha as [Ha Hne]. apply Hne, (K a found m' n); try done. congruence. }
  constructor; try done.
  - split; [done|]. intros b b' m m' Hin Hin' Hm Hm' E. apply list_elem_of_lookup_1 in Hin as [i Hi], Hin' as [j Hj].
    destruct (Hb i b m Hi Hm) as (a & p & Ha & Hp & E1 & _). destruct (Hb j b' m' Hj Hm') as (a' & p' & Ha' & Hp' & E2 & _).
    assert (a = a') as ->. { apply list_elem_of_lookup_2, others_in in Ha as [Ha _], Ha' as [Ha' _]. apply (K a a' p p'); try done. congruence. }
    assert (i = j) as ->; [|congruence]. apply (NoDup_lookup (others old found) i j a'); try done. apply NoDup_ListNoDup, List.NoDup_filter, NoDup_ListNoDup, N.
  - intros k v Hkk. split.
    + intros (b & m & Hin & Hm & E1 & E2). apply list_elem_of_lookup_1 in Hin as [i Hi]. destruct (Hb i b m Hi Hm) as (a & m' & Ha & Hm' & F1 & F2).
      apply list_elem_of_lookup_2, others_in in Ha as [Ha _]. exists a, m'. split_and!; try done; congruence.
    + intros (a & m & Hin & Hm & E1 & E2). assert (a ∈ others old found) as Ho by (apply others_in; split; [done|congruence]).
      apply list_elem_of_lookup_1 in Ho as [i Hi]. destruct (Forall2_lookup_l _ _ _ _ _ Hc Hi) as (b & Hbi & m1 & m2 & G1 & G2 & G3 & G4).
      exists b, m2. split_and!; [by apply list_elem_of_lookup_2 in Hbi|done|congruence|congruence].
  - intros b m Hin Hm. apply list_elem_of_lookup_1 in Hin as [i Hi]. destruct (Hb i b m Hi Hm) as (a & m' & Ha & Hm' & E1 & _).
    apply list_elem_of_lookup_2, others_in in Ha as [Ha _]. by exists a, m'.
Qed.

(** Publishing a chain with a new node for the key in front. *)
Lemma publish_set x l l' vs M c key val ver a tl : let e := global_epoch c in let i := bucket_of c key in
  inv x l e vs M c -> (a :: tl) ++ l' ≡ₚ chain c i ++ l -> heap c !! a = Some (mk_node key val ver) -> without c key (chain c i) tl ->
  inv x l' e vs (<[key := val]> M) (set_buckets c (<[i := a :: tl]> (buckets c))).
Proof.
  intros e i H P Ha [[W1 W1'] W2 W3 W4].
  assert (a ∉ tl) as Hna. { intros Hin. by apply (W2 a _ Hin Ha). }
  apply (publish_ok x l l' vs M _ c i (a :: tl) H P).
  - split; [by constructor|]. intros b b' m m' [->|Hb]%elem_of_cons [->|Hb']%elem_of_cons Hm Hm' E; [done| | |by apply (W1' b b' m m')].
    + rewrite Ha in Hm. injection Hm as <-. cbn in E. by destruct (W2 b' m' Hb' Hm').
    + rewrite Ha in Hm'. injection Hm' as <-. cbn in E. by destruct (W2 b m Hb Hm).
  - intros b m [->|Hb]%elem_of_cons Hm; [rewrite Ha in Hm; by injection Hm as <-|]. destruct (W4 b m Hb Hm) as (d & p & Hd & Hp & E).
    destruct (i_chain _ _ _ _ _ _ H i d Hd) as (q & Hq & Eq). rewrite <- E. congruence.
  - intros k v Ek. destruct (decide (k = key)) as [->|Hk].
    + rewrite lookup_insert_eq. split.
      * intros [= <-]. exists a, (mk_node key val ver). split_and!; try done. by left.
      * intros (b & m & [->|Hb]%elem_of_cons & Hm & E1 & E2); [rewrite Ha in Hm; injection Hm as <-; cbn in E2; congruence|by destruct (W2 b m Hb Hm)].
    + rewrite lookup_insert_ne by done. rewrite (i_map _ _ _ _ _ _ H), Ek, <- (W3 k v Hk). split.
      * intros (b & m & Hb & Hm). exists b, m. split; [by right|done].
      * intros (b & m & [->|Hb]%elem_of_cons & Hm & E1 & E2); [rewrite Ha in Hm; injection Hm as <-; cbn in E1; congruence|by exists b, m].
  - intros k Hk. rewrite lookup_insert_ne; [done|]. intros E. apply Hk. by rewrite <- E.
Qed.

Lemma publish_delete x l l' vs M c key tl : let e := global_epoch c in let i := bucket_of c key in
  inv x l e vs M c -> tl ++ l' ≡ₚ chain c i ++ l -> without c key (chain c i) tl ->
  inv x l' e vs (delete key M) (set_buckets c (<[i := tl]> (buckets c))).
Proof.
  intros e i H P [W1 W2 W3 W4]. apply (publish_ok x l l' vs M _ c i tl H P W1).
  - intros b m Hb Hm. destruct (W4 b m Hb Hm) as (d & p & Hd & Hp & E). destruct (i_chain _ _ _ _ _ _ H i d Hd) as (q & Hq & Eq). rewrite <- E. congruence.
  - intros k v Ek. destruct (decide (k = key)) as [->|Hk].
    + rewrite lookup_delete_eq. split; [done|]. intros (b & m & Hb & Hm & E1 & _). by destruct (W2 b m Hb Hm).
    + rewrite lookup_delete_ne by done. by rewrite (i_map _ _ _ _ _ _ H), Ek, <- (W3 k v Hk).
  - intros k Hk. rewrite lookup_delete_ne; [done|]. intros E. apply Hk. by rewrite <- E.
Qed.

Lemma inv_any x e e' vs M c : inv x [] e vs M c -> inv x [] e' vs M c.
Proof.
  intros [H1 H2 H3 H4 H5 H6 H7 H8 H9 H10 H11]. constructor; try done. intros v Hv. destruct (H11 v Hv) as [Hn [P|[[P _]|P]]]; (split; [done|]); [by left|by apply elem_of_nil in P|by right; right].
Qed.

(** ** The operations *)

(** What an operation promises to the others: the new contents, and whether it
    has to succeed. *)
Definition op_post (c : csilk_mvcc_cache_t) (vs : list csilk_mvcc_view_t) (M' : gmap bytes bytes) (c' : csilk_mvcc_cache_t) : Prop :=
  inv None [] 0 vs M' c' /\ capacity c' = capacity c /\ (answers c = [] -> answers c' = []).

Lemma chain_some x l e vs M c i a : inv x l e vs M c -> a ∈ chain c i -> is_Some (heap c !! a).
Proof. intros H Ha. destruct (i_chain _ _ _ _ _ _ H i a Ha) as (n & Hn & _). by eexists. Qed.

Lemma enter_frame c i : frame c (reader_enter c i) /\ heap (reader_enter c i) = heap c.
Proof. done. Qed.

Lemma inv_perm x l l' e vs M c : l ≡ₚ l' -> inv x l e vs M c -> inv x l' e vs M c.
Proof.
  intros P [H1 H2 H3 H4 H5 H6 H7 H8 H9 H10 H11]. constructor; try done; try setoid_rewrite <- P; try done.
  intros v Hv. destruct (H11 v Hv) as [Hn Pr]. split; [done|]. unfold protected in *. by setoid_rewrite <- P.
Qed.

Lemma swap_ends (a b : nat) l : (a :: l) ++ [b] ≡ₚ (b :: l) ++ [a].
Proof. cbn. rewrite <- !Permutation_cons_append. apply Permutation_swap. Qed.

(** What a turn of a loop promises.  The loop owns the nodes [l0]; [M'] are the
    contents after the swap, [R] holds when it swaps, and [Q] when it gives up
    although no allocation failed. *)
Section writer.
Context (i idx e cap : Z) (vs : list csilk_mvcc_view_t) (M M' : gmap bytes bytes) (l0 : list nat) (n0 : csilk_mvcc_node_t) (R Q : Prop).

Definition ready (x : option Z) (c : csilk_mvcc_cache_t) : Prop :=
  inv x l0 e vs M c /\ global_epoch c = e /\ capacity c = cap /\ forall a, a ∈ l0 -> heap c !! a = Some n0.

(** The same, with the copies made in a turn. *)
Definition ready_with (cl : list nat) (c : csilk_mvcc_cache_t) : Prop :=
  inv (Some i) (l0 ++ cl) e vs M c /\ global_epoch c = e /\ capacity c = cap /\ forall a, a ∈ l0 -> heap c !! a = Some n0.

Definition try_ok (c : csilk_mvcc_cache_t) (t : attempt) : Prop :=
  match t with
  | Return rc c' => rc = -1 /\ frame c c' /\ inv (Some i) [] e vs M c' /\ (answers c = [] -> Q)
  | Swap new_chain copies replaced c' =>
      frame c c' /\ inv (Some i) (l0 ++ copies) e vs M c' /\ (forall v, v ∈ vs -> v_node v ∉ copies) /\ (forall a n, heap c !! a = Some n -> heap c' !! a = Some n) /\ R /\
      inv (Some i) replaced e vs M' (set_buckets c' (<[idx := new_chain]> (buckets c')))
  end.

Lemma swap_loop_ok try : (forall c, ready (Some i) c -> exists t, try c = Some t /\ try_ok c t) ->
  forall cas c, ready None c -> exists rc c', swap_loop try c i idx e cas = Some (rc, c') /\ op_post c vs (if rc =? 0 then M' else M) c' /\ (rc = 0 /\ R \/ rc = -1 /\ (answers c = [] -> Q)).
Proof.
  intros Htry cas. induction cas as [|b cas IH]; intros c (I & Hg & Hc & Hn); cbn [swap_loop];
    (destruct (Htry (reader_enter c i)) as (t & -> & Ht); [split; [by apply enter_ok|done]|]); cbn [mbind option_bind]; destruct t as [rc c'|ch cp rp c'].
  1, 3: destruct Ht as (-> & (F1 & F2 & F3 & F4) & I' & Hq); exists (-1), (reader_exit c' i); split; [done|]; split; [|by right]; split; [by apply (inv_any _ e), exit_ok|by split].
  all: destruct Ht as ((F1 & F2 & F3 & F4) & I1 & V1 & K1 & HR & I').
  1: destruct (retire_all_ok rp [] e vs M' (reader_exit (set_buckets c' (<[idx := ch]> (buckets c'))) i)) as (c2 & E2 & I2 & G1 & G2 & G3); [rewrite app_nil_r; by apply exit_ok|].
  1: rewrite E2; exists 0, c2; split; [done|]; split; [split; [by apply (inv_any _ e)|split; [by rewrite G2|auto]]|by left].
  destruct b.
  - destruct (retire_all_ok rp [] e vs M' (reader_exit (set_buckets c' (<[idx := ch]> (buckets c'))) i)) as (c2 & E2 & I2 & G1 & G2 & G3); [rewrite app_nil_r; by apply exit_ok|].
    rewrite E2. exists 0, c2. split; [done|]. split; [split; [by apply (inv_any _ e)|split; [by rewrite G2|auto]]|by left].
  - destruct (free_nodes_loose None cp l0 e vs M (reader_exit c' i)) as (c2 & E2 & I2 & (G1 & G2 & G3 & G4) & K2); [by apply exit_ok|done|]. rewrite E2. cbn [mbind option_bind].
    destruct (IH c2) as (rc & c3 & E3 & (P1 & P2 & P3) & P4).
    + split; [done|]. split; [rewrite G3; cbn; rewrite F3; done|]. split; [rewrite G2; cbn; rewrite F2; done|]. intros a Ha. rewrite K2; [cbn; by apply K1, Hn|].
      pose proof (i_loose _ _ _ _ _ _ I1) as N. apply NoDup_app in N as (_ & _ & N). apply NoDup_app in N as (_ & N & _). by apply N.
    + assert (answers c = [] -> answers c2 = []) as Ha by (intros Ha; apply G4, F4, Ha). exists rc, c3. split; [done|]. split; [|destruct P4 as [?|[? ?]]; [by left|right; auto]].
      split; [done|]. split; [rewrite P2, G2; cbn; rewrite F2; done|auto].
Qed.

(** Rebuilding the chain without the node of the key, when putting [l0] and the
    copies in its place leads to [M']. *)
Lemma rebuild_ok key found n c : ready (Some i) c -> idx = bucket_of c key -> found ∈ chain c idx -> heap c !! found = Some n -> nkey n = key ->
  (forall v, v ∈ vs -> v_node v ∉ l0) -> R ->
  (forall cl c1, ready_with cl c1 -> chain c1 idx = chain c idx -> idx = bucket_of c1 key -> without c1 key (chain c1 idx) cl ->
     inv (Some i) (chain c1 idx) e vs M' (set_buckets c1 (<[idx := l0 ++ cl]> (buckets c1)))) ->
  exists t, rebuild c (chain c idx) found l0 = Some t /\ try_ok c t.
Proof.
  intros (I & Hg & Hc & Hn) Hi Hf Hh Hk Hv HR Hpub. unfold rebuild.
  destruct (clone_ok (Some i) e vs M found (chain c idx) l0 [] [] c) as (ok & cl & c1 & Ecl & (F1 & F2 & F3 & F4) & Hm & I1 & V1 & S1 & A1); [by rewrite app_nil_r| |constructor|intros v _; apply not_elem_of_nil|].
  { intros b. by apply (chain_some _ _ _ _ _ _ idx b I). }
  assert (chain c1 idx = chain c idx) as Ech by (unfold chain; by rewrite F1). rewrite Ecl. cbn [mbind option_bind]. destruct ok.
  - eexists. split; [reflexivity|]. split; [by split_and!|]. split; [done|]. split; [done|]. split; [done|]. split; [done|]. rewrite <- Ech. apply Hpub; [|done| |].
    + split; [done|]. split; [congruence|]. split; [congruence|]. intros a Ha. by apply Hm, Hn.
    + rewrite Hi. unfold bucket_of. by rewrite F2.
    + rewrite Ech. apply (without_clones c1 key (chain c idx) found n cl); try done; [rewrite <- Ech; apply (i_key _ _ _ _ _ _ I1)| |by apply Hm| |by apply S1].
      * intros b Hb. destruct (chain_some _ _ _ _ _ _ idx b I Hb) as [m Hb']. exists m. by apply Hm.
      * pose proof (i_loose _ _ _ _ _ _ I1) as N. apply NoDup_app in N as (_ & _ & N). by apply NoDup_app in N as (_ & _ & N).
  - destruct (free_nodes_loose (Some i) (cl ++ l0) [] e vs M c1) as (c2 & E2 & I2 & G & _).
    { apply (inv_perm _ (l0 ++ cl)); [exact (Permutation_app_comm l0 cl)|done]. }
    { intros v Hin. rewrite elem_of_app. intros [Ho|Ho]; [by apply (V1 v Hin)|by apply (Hv v Hin)]. }
    rewrite E2. cbn [mbind option_bind]. eexists. split; [reflexivity|]. split; [done|]. split; [apply (node_frame_trans c c1 c2); [by split_and!|done]|]. split; [done|].
    intros Hans. by discriminate (A1 Hans).
Qed.

End writer.

Lemma set_try_ok i vs M c key val a cap : let e := global_epoch c in let idx := bucket_of c key in
  ready e cap vs M [a] (mk_node key val e) (Some i) c -> (forall v, v ∈ vs -> v_node v <> a) ->
  exists t, set_try c idx key a = Some t /\ try_ok i idx e vs M (<[key := val]> M) [a] True False c t.
Proof.
  intros e idx Hr Hv. destruct Hr as (H & Hg & Hc & Hn). pose proof (Hn a ltac:(by left)) as Ha. pose proof (i_key _ _ _ _ _ _ H idx) as K. unfold set_try.
  assert (forall b, b ∈ chain c idx -> is_Some (heap c !! b)) as Hs by (intros b; apply (chain_some _ _ _ _ _ _ idx _ H)).
  assert (forall ch tl rp, ch = a :: tl -> ch ++ rp ≡ₚ chain c idx ++ [a] -> without c key (chain c idx) tl -> try_ok i idx e vs M (<[key := val]> M) [a] True False c (Swap ch [] rp c)) as Hsw.
  { intros ch tl rp -> P W. split_and!; try done; [intros v _; apply not_elem_of_nil|]. by apply (publish_set _ [a] rp vs M c key val e a tl). }
  destruct (chain c idx) as [|head rest] eqn:Ec; rewrite <- Ec in *.
  - eexists. split; [reflexivity|]. apply (Hsw _ []); rewrite ?Ec; try done. apply without_self; [by rewrite <- Ec|]. intros b n Hb. by apply elem_of_nil in Hb.
  - destruct (Hs head ltac:(rewrite Ec; by left)) as [h Hh]. rewrite Hh. cbn [mbind option_bind]. destruct (decide (nkey h = key)) as [Ek|Ek].
    { eexists. split; [reflexivity|]. apply (Hsw _ rest); rewrite ?Ec; [done|apply swap_ends|apply (without_head c key head h); [by rewrite <- Ec|done|done]]. }
    destruct (find_node_spec c key rest) as [(found & n & Ef & Hf & Hf' & Hk)|[Ef Hno]]; [intros b Hb; apply Hs; rewrite Ec; by right| |]; rewrite Ef; cbn [mbind option_bind].
    + apply (rebuild_ok i idx e cap vs M _ [a] (mk_node key val e) True False key found n c); try done; [rewrite Ec; by right|intros v Hin; rewrite list_elem_of_singleton; by apply Hv|].
      intros cl c1 (I1 & G1 & G2 & G3) Ech Eb W. rewrite Eb. rewrite Eb in W. clear -I1 G1 G3 W Eb. clearbody e. subst e.
      apply (publish_set _ ([a] ++ cl) _ vs M c1 key val (global_epoch c1) a cl I1); [apply Permutation_app_comm|by apply G3; left|done].
    + eexists. split; [reflexivity|]. apply (Hsw _ (head :: rest)); rewrite ?Ec; [done|rewrite app_nil_r; apply Permutation_cons_append|].
      apply without_self; [by rewrite <- Ec|]. intros b n [->|Hb]%elem_of_cons Hb'; [congruence|by apply (Hno b)].
Qed.

Lemma delete_try_ok i vs M c key n0 cap : let e := global_epoch c in let idx := bucket_of c key in
  ready e cap vs M [] n0 (Some i) c -> exists t, delete_try c idx key = Some t /\ try_ok i idx e vs M (delete key M) [] (is_Some (M !! key)) (M !! key = None) c t.
Proof.
  intros e idx Hr. destruct Hr as (H & Hg & Hc & Hn). pose proof (i_key _ _ _ _ _ _ H idx) as K. unfold delete_try.
  assert (forall b, b ∈ chain c idx -> is_Some (heap c !! b)) as Hs by (intros b; apply (chain_some _ _ _ _ _ _ idx _ H)).
  assert (forall b n, b ∈ chain c idx -> heap c !! b = Some n -> nkey n = key -> is_Some (M !! key)) as HR.
  { intros b n Hb Hh E. exists (nval n). apply (i_map _ _ _ _ _ _ H). by exists b, n. }
  assert ((forall b n, b ∈ chain c idx -> heap c !! b = Some n -> nkey n <> key) -> try_ok i idx e vs M (delete key M) [] (is_Some (M !! key)) (M !! key = None) c (Return (-1) c)) as HQ.
  { intros Hno. split_and!; try done. intros _. apply eq_None_not_Some. intros [v (b & n & Hb & Hh & E & _)%(i_map _ _ _ _ _ _ H)]. by apply (Hno b n). }
  destruct (chain c idx) as [|head rest] eqn:Ec; rewrite <- Ec in *.
  - eexists. split; [reflexivity|]. apply HQ. intros b n Hb. rewrite Ec in Hb. by apply elem_of_nil in Hb.
  - destruct (Hs head ltac:(rewrite Ec; by left)) as [h Hh]. rewrite Hh. cbn [mbind option_bind]. destruct (decide (nkey h = key)) as [Ek|Ek].
    { eexists. split; [reflexivity|]. split_and!; try done; [intros v _; apply not_elem_of_nil|apply (HR head h); [rewrite Ec; by left|done|done]|].
      apply (publish_delete _ [] [head] vs M c key rest); [done| |]; fold idx; rewrite Ec; [rewrite app_nil_r; symmetry; apply Permutation_cons_append|].
      apply (without_head c key head h); [by rewrite <- Ec|done|done]. }
    destruct (find_node_spec c key rest) as [(found & n & Ef & Hf & Hf' & Hk)|[Ef Hno]]; [intros b Hb; apply Hs; rewrite Ec; by right| |]; rewrite Ef; cbn [mbind option_bind].
    + assert (found ∈ chain c idx) as Hin by (rewrite Ec; by right).
      apply (rebuild_ok i idx e cap vs M _ [] n0 (is_Some (M !! key)) (M !! key = None) key found n c); try done; [intros v _; apply not_elem_of_nil|by apply (HR found n)|].
      intros cl c1 (I1 & G1 & G2 & G3) Ech Eb W. rewrite Eb. rewrite Eb in W. clear -I1 G1 G3 W Eb. clearbody e. subst e.
      apply (publish_delete _ ([] ++ cl) _ vs M c1 key cl I1); [apply Permutation_app_comm|done].
    + eexists. split; [reflexivity|]. apply HQ. intros b n. rewrite Ec. intros [->|Hb]%elem_of_cons Hb'; [congruence|by apply (Hno b)].
Qed.

Lemma set_ok vs M c tid key val cas : inv None [] 0 vs M c ->
  exists rc c', csilk_mvcc_cache_set c tid (Some key) (Some val) cas = Some (rc, c') /\ op_post c vs (if rc =? 0 then <[key := val]> M else M) c' /\ (rc = 0 \/ rc = -1 /\ answers c <> []).
Proof.
  intros H. apply (inv_any _ 0 (global_epoch c)) in H. cbn [csilk_mvcc_cache_set]. unfold set_at. destruct (create_node c key val (global_epoch c)) as [r c1] eqn:E1.
  destruct (create_ok _ _ _ _ _ _ _ _ _ _ _ H E1) as ((F1 & F2 & F3 & F4) & Hm & G). destruct r as [a|].
  - destruct G as (I1 & Ha & Hno). destruct (acquire_reader_slot c1 tid) as [i c2] eqn:E2. destruct (acquire_ok _ _ _ _ _ _ _ _ _ I1 E2) as (I2 & B1 & B2 & B3 & B4 & B5).
    destruct (swap_loop_ok i (bucket_of c key) (global_epoch c) (capacity c) vs M (<[key := val]> M) [a] (mk_node key val (global_epoch c)) True False
      (fun c0 => set_try c0 (bucket_of c key) key a)) with (cas := cas) (c := c2) as (rc & c' & E & (P1 & P2 & P3) & P4).
    + intros c0 (J & J1 & J2 & J3). assert (bucket_of c key = bucket_of c0 key) as -> by (unfold bucket_of; by rewrite J2). rewrite <- J1 in *.
      apply (set_try_ok i vs M c0 key val a (capacity c)); [done|]. intros v Hv Ev. destruct (i_views _ _ _ _ _ _ H v Hv) as [(n & Hn & _) _]. congruence.
    + split; [done|]. split; [congruence|]. split; [congruence|]. intros b Hb%list_elem_of_singleton. congruence.
    + assert (answers c = [] -> answers c2 = []) as Hans by (rewrite B5; auto). exists rc, c'. split; [done|]. split; [split; [done|]; split; [congruence|auto]|].
      destruct P4 as [[? _]|[? P4]]; [by left|right; auto].
  - destruct G as [I1 Hne]. exists (-1), c1. split; [done|]. split; [split; [by apply (inv_any _ (global_epoch c))|by split]|]. by right.
Qed.

Lemma delete_ok vs M c tid key cas : inv None [] 0 vs M c ->
  exists rc c', csilk_mvcc_cache_delete c tid (Some key) cas = Some (rc, c') /\ op_post c vs (if rc =? 0 then delete key M else M) c' /\
    (rc = 0 /\ is_Some (M !! key) \/ rc = -1 /\ (answers c = [] -> M !! key = None)).
Proof.
  intros H. apply (inv_any _ 0 (global_epoch c)) in H. cbn [csilk_mvcc_cache_delete]. unfold delete_at.
  destruct (acquire_reader_slot c tid) as [i c2] eqn:E2. destruct (acquire_ok _ _ _ _ _ _ _ _ _ H E2) as (I2 & B1 & B2 & B3 & B4 & B5).
  destruct (swap_loop_ok i (bucket_of c key) (global_epoch c) (capacity c) vs M (delete key M) [] (mk_node [] [] 0) (is_Some (M !! key)) (M !! key = None)
    (fun c0 => delete_try c0 (bucket_of c key) key)) with (cas := cas) (c := c2) as (rc & c' & E & (P1 & P2 & P3) & P4).
  - intros c0 (J & J1 & J2 & J3). assert (bucket_of c key = bucket_of c0 key) as -> by (unfold bucket_of; by rewrite J2). rewrite <- J1 in *.
    by apply (delete_try_ok i vs M c0 key (mk_node [] [] 0) (capacity c)).
  - split; [done|]. split; [congruence|]. split; [congruence|]. intros b Hb. by apply elem_of_nil in Hb.
  - exists rc, c'. split; [done|]. rewrite <- B5. split; [split; [done|]; split; [congruence|by rewrite <- B5]|done].
Qed.

(** ** Readers' operations *)

Lemma views_on_cons v vs j : views_on (v :: vs) j = views_on vs j + (if v_slot v =? j then 1 else 0).
Proof. unfold views_on. cbn [List.filter]. destruct (_ =? _); cbn [length]; lia. Qed.

Lemma views_on_perm vs ws j : vs ≡ₚ ws -> views_on vs j = views_on ws j.
Proof. intros P. unfold views_on. induction P; cbn [List.filter]; repeat destruct (_ =? _); cbn [length]; lia. Qed.

Lemma take_view i e vs M c v j n : inv (Some i) [] e vs M c -> v_slot v = i -> v_node v ∈ chain c j -> heap c !! v_node v = Some n -> v_data v = nval n -> inv None [] e (v :: vs) M c.
Proof.
  intros [H1 H2 H3 H4 H5 H6 H7 H8 H9 H10 H11] Ei Hj Hn Hd. constructor; try done.
  - intros k. rewrite H9, views_on_cons, Ei. unfold entered. rewrite (decide_False (P := None = Some k)) by done.
    destruct (Z.eqb_spec i k) as [->|]; [rewrite decide_True by done; lia|rewrite decide_False by congruence; lia].
  - intros w [->|Hw]%elem_of_cons; [|by apply H11]. split; [by exists n|]. left. by exists j.
Qed.

Lemma drop_view e v vs M c : inv None [] e (v :: vs) M c -> inv (Some (v_slot v)) [] e vs M c.
Proof.
  intros [H1 H2 H3 H4 H5 H6 H7 H8 H9 H10 H11]. constructor; try done.
  - intros k. rewrite H9, views_on_cons. unfold entered. rewrite (decide_False (P := None = Some k)) by done.
    destruct (Z.eqb_spec (v_slot v) k) as [->|]; [rewrite decide_True by done; lia|rewrite decide_False by congruence; lia].
  - intros w Hw. apply H11. by right.
Qed.

Lemma inv_views_perm x l e vs ws M c : vs ≡ₚ ws -> inv x l e vs M c -> inv x l e ws M c.
Proof.
  intros P [H1 H2 H3 H4 H5 H6 H7 H8 H9 H10 H11]. constructor; try done.
  - intros k. by rewrite <- (views_on_perm _ _ _ P).
  - intros v. rewrite <- P. apply H11.
Qed.

Lemma lookup_ok x l e vs M c key : inv x l e vs M c ->
  (exists a n, find_node c key (chain c (bucket_of c key)) = Some (Some a) /\ a ∈ chain c (bucket_of c key) /\ heap c !! a = Some n /\ M !! key = Some (nval n)) \/
  (find_node c key (chain c (bucket_of c key)) = Some None /\ M !! key = None).
Proof.
  intros H. destruct (find_node_spec c key (chain c (bucket_of c key))) as [(a & n & E & Ha & Hn & Hk)|[E Hno]]; [intros a; apply (chain_some _ _ _ _ _ _ _ a H)| |].
  - left. exists a, n. split_and!; try done. apply (i_map _ _ _ _ _ _ H). by exists a, n.
  - right. split; [done|]. apply eq_None_not_Some. intros [v (b & n & Hb & Hh & Ek & _)%(i_map _ _ _ _ _ _ H)]. by apply (Hno b n).
Qed.

Lemma get_view_ok vs M c tid key : inv None [] 0 vs M c ->
  exists r c', csilk_mvcc_cache_get_view c tid (Some key) = Some (r, c') /\ v_data <$> r = M !! key /\ op_post c (option_list r ++ vs) M c'.
Proof.
  intros H. cbn [csilk_mvcc_cache_get_view]. destruct (acquire_reader_slot c tid) as [i c2] eqn:E2. destruct (acquire_ok _ _ _ _ _ _ _ _ _ H E2) as (I2 & B1 & B2 & B3 & B4 & B5).
  apply (enter_ok _ _ _ _ _ i) in I2. assert (op_post c vs M (reader_exit (reader_enter c2 i) i)) as Hx by (split; [by apply exit_ok|split; [done|by rewrite <- B5]]).
  destruct (lookup_ok _ _ _ _ _ _ key I2) as [(a & n & E & Ha & Hn & Hk)|[E Hk]]; rewrite E; cbn [mbind option_bind]; [rewrite Hn|]; cbn [mbind option_bind]; eexists _, _; (split; [reflexivity|]); (split; [by rewrite Hk|]); [|done].
  split; [|split; [done|by rewrite <- B5]]. by apply (take_view i 0 vs M (reader_enter c2 i) _ (bucket_of (reader_enter c2 i) key) n).
Qed.

Lemma release_view_ok v vs M c : inv None [] 0 (v :: vs) M c -> op_post c vs M (csilk_mvcc_cache_release_view c (Some v)).
Proof. intros H. split; [by apply exit_ok, drop_view|done]. Qed.

Lemma get_copy_ok vs M c tid key out_len : inv None [] 0 vs M c -> 0 <= out_len ->
  exists c', csilk_mvcc_cache_get_copy c tid (Some key) out_len = Some ((fun v => (take (Z.to_nat out_len) v, Z.of_nat (length v))) <$> M !! key, c') /\ op_post c vs M c'.
Proof.
  intros H Ho. unfold csilk_mvcc_cache_get_copy. destruct (get_view_ok vs M c tid key H) as (r & c1 & -> & Hr & P1 & P2 & P3). cbn [mbind option_bind]. rewrite <- Hr. destruct r as [v|]; [|by exists c1].
  destruct (i_views _ _ _ _ _ _ P1 v ltac:(by left)) as [(n & Hn & Hd) _]. rewrite Hn. cbn [mbind option_bind fmap option_map]. eexists. split.
  - rewrite Hd. assert (take (Z.to_nat (if Z.of_nat (length (v_data v)) <? out_len then Z.of_nat (length (v_data v)) else out_len)) (v_data v) = take (Z.to_nat out_len) (v_data v)) as ->; [|reflexivity].
    destruct (Z.ltb_spec (Z.of_nat (length (v_data v))) out_len); [by rewrite !take_ge by lia|done].
  - destruct (release_view_ok v vs M c1 P1) as (Q1 & Q2 & Q3). split; [done|]. split; [congruence|auto].
Qed.

(** ** Destruction *)

Lemma free_nodes_all l : forall c, NoDup l -> (forall a, a ∈ l -> is_Some (heap c !! a)) ->
  exists c', free_nodes c l = Some c' /\ forall a, is_Some (heap c' !! a) <-> is_Some (heap c !! a) /\ a ∉ l.
Proof.
  induction l as [|a l IH]; intros c N Hs; [exists c; split; [done|]; intros a; split; [by intros ?; split; [|apply not_elem_of_nil]|by intros [? _]]|].
  apply NoDup_cons in N as [Na N]. cbn [free_nodes]. unfold free_node. destruct (Hs a ltac:(by left)) as [n Hn]. rewrite Hn. cbn [mbind option_bind].
  destruct (IH (set_heap c (delete a (heap c))) N) as (c' & E & Hc).
  - intros b Hb. cbn. rewrite lookup_delete_ne by congruence. apply Hs. by right.
  - exists c'. split; [done|]. intros b. rewrite Hc, not_elem_of_cons. cbn. destruct (decide (b = a)) as [->|Hne]; [|rewrite lookup_delete_ne by done; tauto].
    rewrite lookup_delete_eq. split; [intros [[? ?] _]; done|tauto].
Qed.

(** Chains share no node. *)
Lemma chains_NoDup x l e vs M c idxs : inv x l e vs M c -> NoDup idxs -> NoDup (concat (map (chain c) idxs)).
Proof.
  intros H. induction idxs as [|i js IH]; intros N; [apply NoDup_nil_2|]. apply NoDup_cons in N as [Ni N]. cbn [map concat]. apply NoDup_app. split_and!; [apply (i_key _ _ _ _ _ _ H)| |by apply IH].
  intros a Ha Hin. apply list_elem_of_In, List.in_concat in Hin as (ch & Hch & Hin). apply List.in_map_iff in Hch as (j & <- & Hj). rewrite <- list_elem_of_In in Hin. apply list_elem_of_In in Hj.
  destruct (i_chain _ _ _ _ _ _ H i a Ha) as (n & Hn & E). destruct (i_chain _ _ _ _ _ _ H j a Hin) as (m & Hm & E'). apply Ni. congruence.
Qed.

Lemma list_filter_nil_all {A} (f : A -> bool) l : (forall a, In a l -> f a = false) -> List.filter f l = [].
Proof. intros H. induction l as [|a l IH]; [done|]. cbn. rewrite H by (by left). apply IH. intros b Hb. apply H. by right. Qed.

Lemma cache_free_ok M c : inv None [] 0 [] M c -> 0 < capacity c -> exists c', csilk_mvcc_cache_free c = Some c' /\ heap c' = ∅.
Proof.
  intros H Hcap. unfold csilk_mvcc_cache_free. assert (active_epochs c = []) as ->.
  { unfold active_epochs. apply list_filter_nil_all. intros z Hz. apply List.in_map_iff in Hz as ([i s] & <- & Hi). apply list_elem_of_In, elem_of_map_to_list in Hi.
    assert (slot c i = s) as Es by (unfold slot; by rewrite Hi). pose proof (i_depth _ _ _ _ _ _ H i) as Hd. destruct (i_slot _ _ _ _ _ _ H i) as [S0 _].
    unfold views_on, entered in Hd. rewrite decide_False in Hd by done. cbn in Hd |- *. rewrite <- Es, S0 by done. done. }
  pose proof (i_loose _ _ _ _ _ _ H) as N. rewrite app_nil_r in N. pose proof (i_loose_heap _ _ _ _ _ _ H) as Hl. pose proof (i_cover _ _ _ _ _ _ H) as Hc. rewrite app_nil_r in *.
  destruct (free_nodes_all (map fst (retired c)) c N) as (c1 & E1 & H1); [intros a Ha; by apply Hl|]. rewrite E1. cbn [mbind option_bind].
  destruct (free_nodes_all (concat (map (chain c) (seqZ 0 (capacity c)))) c1) as (c2 & E2 & H2).
  - apply (chains_NoDup _ _ _ _ _ _ _ H), NoDup_seqZ.
  - intros a Hin. apply list_elem_of_In, List.in_concat in Hin as (ch & Hch & Hin). apply List.in_map_iff in Hch as (j & <- & Hj). rewrite <- list_elem_of_In in Hin.
    apply H1. split; [by apply (chain_some _ _ _ _ _ _ j a H)|]. intros Ha. by apply (proj2 (Hl a Ha) j).
  - exists c2. split; [done|]. apply map_empty. intros a. apply eq_None_not_Some. intros [[Ha Hr]%H1 Hno]%H2. destruct (Hc a Ha) as [[i Hi]|]; [|done]. apply Hno.
    apply list_elem_of_In, List.in_concat. exists (chain c i). split; [|by apply list_elem_of_In]. apply List.in_map, list_elem_of_In, elem_of_seqZ.
    destruct (i_chain _ _ _ _ _ _ H i a Hi) as (n & _ & <-). unfold bucket_of. pose proof (Z.mod_pos_bound (hash_key (nkey n)) (capacity c) Hcap). lia.
Qed.

(** ** Whole scripts *)

Lemma answers_with_refl {A} `{EqDecision A} M (x : A) : answers_with M x x = Some M.
Proof. unfold answers_with. by rewrite decide_True. Qed.

Lemma step_ok oom vs M c o : inv None [] 0 vs M c -> (oom = false -> answers c = []) ->
  exists r c' vs' M', step c vs o = Some (r, c', vs') /\ spec_step oom M o r = Some M' /\ op_post c vs' M' c'.
Proof.
  intros H Ho. assert (op_post c vs M c) as Hid by done. destruct o as [tid [key|] [val|] cas|tid [key|] cas|tid [key|]|k|tid [key|] out_len|[key|]]; cbn [step spec_step];
    try (by eexists _, _, _, M; split; [reflexivity|]; split; [apply answers_with_refl|]).
  - destruct (set_ok vs M c tid key val cas H) as (rc & c' & -> & P & Hrc). eexists _, _, _, _. split; [reflexivity|]. split; [|exact P].
    destruct Hrc as [->|[-> Ha]]; [done|]. cbn. destruct oom; [by rewrite answers_with_refl|]. by destruct Ha; apply Ho.
  - destruct (delete_ok vs M c tid key cas H) as (rc & c' & -> & P & Hrc). eexists _, _, _, _. split; [reflexivity|]. split; [|exact P].
    destruct Hrc as [[-> [v Hv]]|[-> Ha]]; cbn; [by rewrite Hv|]. destruct oom; [by rewrite answers_with_refl|]. rewrite bool_decide_true by (by apply Ha, Ho). by rewrite answers_with_refl.
  - destruct (get_view_ok vs M c tid key H) as (r & c' & -> & Hr & P). eexists _, _, _, _. split; [reflexivity|]. split; [|exact P]. rewrite Hr. apply answers_with_refl.
  - eexists _, _, _, M. split; [reflexivity|]. split; [done|]. destruct (vs !! k) as [v|] eqn:E; [|apply lookup_ge_None in E; by rewrite delete_take_drop, take_ge, drop_ge, app_nil_r by lia].
    apply release_view_ok. by apply (inv_views_perm _ _ _ vs); [apply delete_Permutation|].
  - destruct (get_copy_ok vs M c tid key (Z.of_nat out_len) H ltac:(lia)) as (c' & -> & P). eexists _, _, _, _. split; [reflexivity|]. split; [|exact P]. rewrite Nat2Z.id. apply answers_with_refl.
  - cbn [csilk_mvcc_cache_get]. destruct (lookup_ok _ _ _ _ _ _ key H) as [(a & n & -> & _ & Hn & Hk)|[-> Hk]]; cbn [mbind option_bind]; [rewrite Hn; cbn [mbind option_bind]|];
      (eexists _, _, _, M; split; [reflexivity|]; split; [rewrite Hk; apply answers_with_refl|done]).
Qed.

Lemma run_ok oom ops : forall vs M c, inv None [] 0 vs M c -> (oom = false -> answers c = []) ->
  exists rs c' vs' M', run c vs ops = Some (rs, c', vs') /\ spec_run oom M ops rs = Some M' /\ op_post c vs' M' c'.
Proof.
  induction ops as [|o ops IH]; intros vs M c H Ho; [by exists [], c, vs, M|]. cbn [run].
  destruct (step_ok oom vs M c o H Ho) as (r & c1 & vs1 & M1 & -> & Es & P1 & P2 & P3). cbn [mbind option_bind].
  destruct (IH vs1 M1 c1 P1) as (rs & c' & vs' & M' & -> & Er & Q1 & Q2 & Q3); [auto|]. cbn [mbind option_bind]. exists (r :: rs), c', vs', M'. split; [done|].
  cbn [spec_run]. rewrite Es. cbn [mbind option_bind]. split; [done|]. split; [done|]. split; [congruence|auto].
Qed.

Lemma new_ok capacity answers0 c : 0 <= capacity -> csilk_mvcc_cache_new capacity answers0 = Some (Some c) ->
  inv None [] 0 [] ∅ c /\ 0 < MvccCache.capacity c /\ (answers0 = [] -> answers c = []).
Proof.
  intros Hc. unfold csilk_mvcc_cache_new. set (cap := if capacity =? 0 then 1024 else capacity). assert (0 < cap) as Hp by (unfold cap; destruct (Z.eqb_spec capacity 0); lia).
  destruct (ask _) as [b d] eqn:E. destruct b; [|done]. cbn [negb]. destruct (_ <? _); [done|]. intros [= <-].
  assert (inv None [] 0 [] ∅ (mk_cache cap 1 0 [] ∅ ∅ ∅ ∅ 0 answers0)) as I.
  { assert (forall i, chain (mk_cache cap 1 0 [] ∅ ∅ ∅ ∅ 0 answers0) i = []) as Hch by (intros i; unfold chain; cbn; by rewrite lookup_empty).
    constructor; cbn [retired heap fresh]; try (intros i a; rewrite Hch; by intros ?%elem_of_nil).
    - intros i. rewrite Hch. split; [apply NoDup_nil_2|]. intros a b n m Ha. by apply elem_of_nil in Ha.
    - intros k v. rewrite lookup_empty, Hch. split; [done|]. intros (a & n & Ha & _). by apply elem_of_nil in Ha.
    - apply NoDup_nil_2.
    - intros a Ha. by apply elem_of_nil in Ha.
    - intros a [n Hn]. by rewrite lookup_empty in Hn.
    - intros a [n Hn]. by rewrite lookup_empty in Hn.
    - done.
    - intros i. unfold slot. cbn. by rewrite lookup_empty.
    - intros i. unfold slot. cbn. rewrite lookup_empty. cbn. lia.
    - intros v Hv. by apply elem_of_nil in Hv. }
  destruct (ask_ok _ _ _ _ _ _ _ _ I E) as (I' & _ & _ & _ & -> & _ & A). split; [done|]. split; [done|]. intros Ha. by apply A.
Qed.

(** C13: The cache is a finite map that threads share.  For every sequence of
    calls by any threads, with any failing allocations and any spurious failures
    of the compare-and-swaps, no call touches or frees a node that is gone; the
    results are those of a map, and a write fails only where memory may run out;
    every view that was not given back still leads to the value it was taken
    for, whatever was written, deleted and reclaimed since; and when all views
    are given back, destroying the cache frees every node exactly once. *)
Theorem mvcc_cache_refines capacity answers0 c ops : 0 <= capacity -> csilk_mvcc_cache_new capacity answers0 = Some (Some c) ->
  exists rs c' vs M, run c [] ops = Some (rs, c', vs) /\ spec_run (negb (bool_decide (answers0 = []))) ∅ ops rs = Some M /\
    (forall v, v ∈ vs -> nval <$> heap c' !! v_node v = Some (v_data v)) /\
    (vs = [] -> exists d, csilk_mvcc_cache_free c' = Some d /\ heap d = ∅).
Proof.
  intros Hc Hn. destruct (new_ok capacity answers0 c Hc Hn) as (I & Hp & Ha).
  destruct (run_ok (negb (bool_decide (answers0 = []))) ops [] ∅ c I) as (rs & c' & vs & M & E & S & P1 & P2 & P3).
  { intros Hb%negb_false_iff%bool_decide_eq_true. by apply Ha. }
  exists rs, c', vs, M. split; [done|]. split; [done|]. split.
  - intros v Hv. destruct (i_views _ _ _ _ _ _ P1 v Hv) as [(n & -> & <-) _]. done.
  - intros ->. apply (cache_free_ok M); [done|]. by rewrite P2.
Qed.

(** Two keys in one bucket; a view taken before the key is overwritten and
    deleted shows the old value. *)
Definition demo_cache : csilk_mvcc_cache_t := mk_cache 1 1 0 [] ∅ ∅ ∅ ∅ 0 [].
Definition demo_ops : list op :=
  [OSet 1 (Some (lit "a")) (Some (lit "old")) []; OSet 2 (Some (lit "b")) (Some (lit "x")) [false]; OGetView 1 (Some (lit "a"));
   OSet 2 (Some (lit "a")) (Some (lit "new")) [false; false]; ODelete 2 (Some (lit "a")) []; OGet (Some (lit "a"))].

Lemma mvcc_cache_refines_witness : (exists rs c' vs M, run demo_cache [] demo_ops = Some (rs, c', vs) /\ spec_run false ∅ demo_ops rs = Some M /\
    (forall v, v ∈ vs -> nval <$> heap c' !! v_node v = Some (v_data v)) /\ (vs = [] -> exists d, csilk_mvcc_cache_free c' = Some d /\ heap d = ∅)) /\
  ('(rs, _, vs) ← run demo_cache [] demo_ops; Some (rs, map v_data vs)) = Some ([RInt 0; RInt 0; RVal (Some (lit "old")); RInt 0; RInt 0; RVal None], [lit "old"]).
Proof. split; [|by vm_compute]. apply (mvcc_cache_refines 1 [] demo_cache demo_ops); [done|by vm_compute]. Defined.

(** ** Where the promise ends *)

Definition writes (n : nat) : list op := replicate n (OSet 2 (Some (lit "b")) (Some (lit "x")) []).

(** A writer loads the epoch before it enters its reader section.  If the epoch
    moves on twice before it replaces a node, a reader that entered in between
    loses the node under its view. *)
Definition late_view : list op :=
  [OSet 2 (Some (lit "a")) (Some (lit "v")) []; OGetView 1 (Some (lit "a"))] ++ writes 40 ++ [ORelease 0; OGetView 1 (Some (lit "a"))] ++ writes 40 ++ [ORelease 0; OGetView 1 (Some (lit "a"))].

Example stale_epoch_frees_view :
  ('(_, c, vs) ← run demo_cache [] late_view;
   '(rc, c) ← set_at c 3 (lit "a") (lit "w") (global_epoch demo_cache) [];
   '(_, c, vs) ← run c vs (writes 40);
   Some (rc, map v_data vs, map (fun v => heap c !! v_node v) vs)) = Some (0, [lit "v"], [None]).
Proof. by vm_compute. Qed.

(** The pointer that [csilk_mvcc_cache_get] returns is not protected. *)
Example get_pointer_dangles :
  ('(_, c, vs) ← run demo_cache [] [OSet 2 (Some (lit "a")) (Some (lit "v")) []];
   r ← csilk_mvcc_cache_get c (Some (lit "a")); p ← r;
   '(_, c', _) ← run c vs (OSet 2 (Some (lit "a")) (Some (lit "w")) [] :: writes 40);
   Some (nval <$> heap c !! p, heap c' !! p)) = Some (Some (lit "v"), None).
Proof. by vm_compute. Qed.

(** The size of the allocation wraps around for a large capacity. *)
Example new_size_wraps : csilk_mvcc_cache_new (2 ^ 61) [] = None.
Proof. by vm_compute. Qed.
