(* ===== verification/Workflow.v ===== *)
(** * The workflow engine

    Models the scheduler of src/src/workflow: the graph (wf_graph.c), starting a
    run (wf_run.c), running nodes on the thread pool, retries, time-outs, joins
    and completion (wf_node.c), and the lifetime of an execution context
    (wf_ctx.c), for one execution.  Handlers run on other threads; what they
    return and the order in which works complete and timers fire are chosen by
    the sequence of events, and between two steps of [csilk_wf_run] any of them
    may happen.  [after_worker_cb] counts its node down and reads the count again;
    the two are separate steps ([fine_step]).  Touching a context that was released is undefined ([None]).
    One of the completion callbacks is set, and [log] is what would be logged.
    The JSON library is a parameter.  The engine does not check its allocations;
    they succeed.  Token counts do not leave the range of [int]. *)

From stdpp Require Import gmap.
From S2P Require Import Prelude.

#[local] Open Scope Z_scope.

Definition MAX_WORKFLOW_STEPS : Z := 1000.

(** ** Graphs *)

(** [dtokens]: the token counts of the AI metadata, if there is any. *)
Record csilk_data_t := mk_data { dtype : option bytes; dvalue : option bytes; dtokens : option (Z * Z) }.

Record csilk_wf_edge_t := mk_edge { condition : option bytes; target : nat }.

Inductive csilk_wf_join_policy_t := CSILK_WF_JOIN_AND | CSILK_WF_JOIN_OR.

(** A node is named by its index; [edge_capacity] is the room for edges. *)
Record csilk_wf_node_t := mk_wf_node {
  id : bytes;
  edges : list csilk_wf_edge_t;
  edge_capacity : Z;
  incoming_count : Z;
  is_entry : bool;
  error_target : option nat;
  router_fn : option (option csilk_data_t -> option bytes);
  join_policy : csilk_wf_join_policy_t;
  timeout_ms : Z;
  is_interactive : bool;
  output_schema : option bytes;
  max_retries : Z;
  retry_delay_ms : Z;
  is_remote : bool;
}.

(** [mq]: a message queue is attached. *)
Record csilk_wf_t := mk_wf { nodes : list csilk_wf_node_t; node_capacity : Z; max_tokens : Z; ttl_sec : Z; mq : bool }.

Definition csilk_wf_new : csilk_wf_t := mk_wf [] 0 0 0 false.

Definition set_nodes wf l := mk_wf l (node_capacity wf) (max_tokens wf) (ttl_sec wf) (mq wf).

Definition new_node (i : bytes) : csilk_wf_node_t := mk_wf_node i [] 0 0 false None None CSILK_WF_JOIN_AND 0 false None 0 0 false.

(** [grow] and [ok]: whether the two allocations succeed. *)
Definition csilk_wf_add (wf : csilk_wf_t) (i : bytes) (grow ok : bool) : option nat * csilk_wf_t :=
  let full := node_capacity wf <=? Z.of_nat (length (nodes wf)) in
  if full && negb grow then (None, wf) else
  let wf := if full then mk_wf (nodes wf) (if node_capacity wf =? 0 then 16 else node_capacity wf * 2) (max_tokens wf) (ttl_sec wf) (mq wf) else wf in
  if negb ok then (None, wf) else (Some (length (nodes wf)), set_nodes wf (nodes wf ++ [new_node i])).

Definition set_edges n es cap := mk_wf_node (id n) es cap (incoming_count n) (is_entry n) (error_target n) (router_fn n) (join_policy n) (timeout_ms n) (is_interactive n) (output_schema n) (max_retries n) (retry_delay_ms n) (is_remote n).
Definition set_incoming n z := mk_wf_node (id n) (edges n) (edge_capacity n) z (is_entry n) (error_target n) (router_fn n) (join_policy n) (timeout_ms n) (is_interactive n) (output_schema n) (max_retries n) (retry_delay_ms n) (is_remote n).

Definition add_edge (wf : csilk_wf_t) (from : nat) (cond : option bytes) (to : nat) (grow : bool) : option csilk_wf_t :=
  f ← nodes wf !! from;
  _ ← nodes wf !! to;
  let full := edge_capacity f <=? Z.of_nat (length (edges f)) in
  if full && negb grow then Some wf else
  let cap := if full then (if edge_capacity f =? 0 then 4 else edge_capacity f * 2) else edge_capacity f in
  let l := <[from := set_edges f (edges f ++ [mk_edge cond to]) cap]> (nodes wf) in
  t ← l !! to;
  Some (set_nodes wf (<[to := set_incoming t (incoming_count t + 1)]> l)).

(** The setters of node and workflow properties. *)
Definition csilk_wf_on_error (n : csilk_wf_node_t) (t : option nat) : csilk_wf_node_t := mk_wf_node (id n) (edges n) (edge_capacity n) (incoming_count n) (is_entry n) t (router_fn n) (join_policy n) (timeout_ms n) (is_interactive n) (output_schema n) (max_retries n) (retry_delay_ms n) (is_remote n).
Definition csilk_wf_node_set_entry (n : csilk_wf_node_t) (b : bool) : csilk_wf_node_t := mk_wf_node (id n) (edges n) (edge_capacity n) (incoming_count n) b (error_target n) (router_fn n) (join_policy n) (timeout_ms n) (is_interactive n) (output_schema n) (max_retries n) (retry_delay_ms n) (is_remote n).
Definition csilk_wf_route (n : csilk_wf_node_t) (f : option (option csilk_data_t -> option bytes)) : csilk_wf_node_t := mk_wf_node (id n) (edges n) (edge_capacity n) (incoming_count n) (is_entry n) (error_target n) f (join_policy n) (timeout_ms n) (is_interactive n) (output_schema n) (max_retries n) (retry_delay_ms n) (is_remote n).
Definition csilk_wf_node_set_join (n : csilk_wf_node_t) (p : csilk_wf_join_policy_t) : csilk_wf_node_t := mk_wf_node (id n) (edges n) (edge_capacity n) (incoming_count n) (is_entry n) (error_target n) (router_fn n) p (timeout_ms n) (is_interactive n) (output_schema n) (max_retries n) (retry_delay_ms n) (is_remote n).
Definition csilk_wf_node_set_timeout (n : csilk_wf_node_t) (ms : Z) : csilk_wf_node_t := mk_wf_node (id n) (edges n) (edge_capacity n) (incoming_count n) (is_entry n) (error_target n) (router_fn n) (join_policy n) ms (is_interactive n) (output_schema n) (max_retries n) (retry_delay_ms n) (is_remote n).
Definition csilk_wf_node_set_interactive (n : csilk_wf_node_t) (b : bool) : csilk_wf_node_t := mk_wf_node (id n) (edges n) (edge_capacity n) (incoming_count n) (is_entry n) (error_target n) (router_fn n) (join_policy n) (timeout_ms n) b (output_schema n) (max_retries n) (retry_delay_ms n) (is_remote n).
Definition csilk_wf_node_set_schema (n : csilk_wf_node_t) (s : option bytes) : csilk_wf_node_t := mk_wf_node (id n) (edges n) (edge_capacity n) (incoming_count n) (is_entry n) (error_target n) (router_fn n) (join_policy n) (timeout_ms n) (is_interactive n) s (max_retries n) (retry_delay_ms n) (is_remote n).
Definition csilk_wf_node_set_retry (n : csilk_wf_node_t) (r d : Z) : csilk_wf_node_t := mk_wf_node (id n) (edges n) (edge_capacity n) (incoming_count n) (is_entry n) (error_target n) (router_fn n) (join_policy n) (timeout_ms n) (is_interactive n) (output_schema n) r d (is_remote n).
Definition csilk_wf_node_set_remote (n : csilk_wf_node_t) (b : bool) : csilk_wf_node_t := mk_wf_node (id n) (edges n) (edge_capacity n) (incoming_count n) (is_entry n) (error_target n) (router_fn n) (join_policy n) (timeout_ms n) (is_interactive n) (output_schema n) (max_retries n) (retry_delay_ms n) b.
Definition csilk_wf_set_budget (wf : csilk_wf_t) (z : Z) : csilk_wf_t := mk_wf (nodes wf) (node_capacity wf) z (ttl_sec wf) (mq wf).
Definition csilk_wf_set_ttl (wf : csilk_wf_t) (z : Z) : csilk_wf_t := mk_wf (nodes wf) (node_capacity wf) (max_tokens wf) z (mq wf).
Definition csilk_wf_enable_distributed (wf : csilk_wf_t) : csilk_wf_t := mk_wf (nodes wf) (node_capacity wf) (max_tokens wf) (ttl_sec wf) true.

(** A program that builds a workflow; nodes it names exist ([None] otherwise). *)
Inductive build_op :=
| BAdd (i : bytes) (grow ok : bool)
| BEdge (from : nat) (cond : option bytes) (to : nat) (grow : bool)
| BOnError (n : nat) (t : option nat)
| BEntry (n : nat) (b : bool)
| BRoute (n : nat) (f : option (option csilk_data_t -> option bytes))
| BJoin (n : nat) (p : csilk_wf_join_policy_t)
| BTimeout (n : nat) (ms : Z)
| BInteractive (n : nat) (b : bool)
| BSchema (n : nat) (s : option bytes)
| BRetry (n : nat) (r d : Z)
| BRemote (n : nat) (b : bool)
| BBudget (z : Z)
| BTtl (z : Z)
| BDistributed.

Definition on_node (wf : csilk_wf_t) (n : nat) (f : csilk_wf_node_t -> csilk_wf_node_t) : option csilk_wf_t :=
  x ← nodes wf !! n; Some (set_nodes wf (<[n := f x]> (nodes wf))).

Definition build_step (wf : csilk_wf_t) (o : build_op) : option csilk_wf_t :=
  match o with
  | BAdd i grow ok => Some (csilk_wf_add wf i grow ok).2
  | BEdge from cond to grow => add_edge wf from cond to grow
  | BOnError n t => _ ← match t with Some t => nodes wf !! t | None => Some (new_node []) end; on_node wf n (fun x => csilk_wf_on_error x t)
  | BEntry n b => on_node wf n (fun x => csilk_wf_node_set_entry x b)
  | BRoute n f => on_node wf n (fun x => csilk_wf_route x f)
  | BJoin n p => on_node wf n (fun x => csilk_wf_node_set_join x p)
  | BTimeout n ms => on_node wf n (fun x => csilk_wf_node_set_timeout x ms)
  | BInteractive n b => on_node wf n (fun x => csilk_wf_node_set_interactive x b)
  | BSchema n s => on_node wf n (fun x => csilk_wf_node_set_schema x s)
  | BRetry n r d => on_node wf n (fun x => csilk_wf_node_set_retry x r d)
  | BRemote n b => on_node wf n (fun x => csilk_wf_node_set_remote x b)
  | BBudget z => Some (csilk_wf_set_budget wf z)
  | BTtl z => Some (csilk_wf_set_ttl wf z)
  | BDistributed => Some (csilk_wf_enable_distributed wf)
  end.

Fixpoint build_wf (wf : csilk_wf_t) (os : list build_op) : option csilk_wf_t :=
  match os with
  | [] => Some wf
  | o :: os' => wf ← build_step wf o; build_wf wf os'
  end.

Definition csilk_wf_get_node (wf : csilk_wf_t) (i : bytes) : option nat := fst <$> list_find (fun n => id n = i) (nodes wf).

(** ** An execution *)

Record csilk_wf_ctx_t := mk_ctx {
  node_input_counts : list Z;
  total_executions : Z;
  nodes_active : Z;
  node_outputs : list (option csilk_data_t);
  total_tokens : Z;
  is_terminated : bool;
  is_paused : bool;
  node_approved : list bool;
}.

(** A work on the thread pool, or waiting for its retry timer ([waiting]).
    [armed]: the timer for the time-out of the node is running. *)
Record node_work_t := mk_work {
  w_node : nat;
  w_input : option csilk_data_t;
  retry_count : Z;
  is_timed_out : bool;
  timer_initialized : bool;
  armed : bool;
  waiting : bool;
}.

(** What is passed to [_wf_wal_log_event]. *)
Inductive wf_event :=
| WF_EV_START (input : option csilk_data_t)
| WF_EV_NODE_START (node_id : bytes)
| WF_EV_NODE_FINISH (node_id : bytes) (output : option csilk_data_t)
| WF_EV_PAUSE (node_id : bytes) (input : option csilk_data_t)
| WF_EV_END.

(** The context is [Closing] while its TTL timer is being closed. *)
Inductive lifetime := Live | Closing | Released.

#[export] Instance lifetime_eq_dec : EqDecision lifetime.
Proof. solve_decision. Defined.

(** [closing]: works whose timer is being closed; [pending]: the entry nodes that
    [csilk_wf_run] has still to start, while it runs; [remote]: nodes handed to
    the message queue; [callbacks]: the calls of the completion callback. *)
Record run_state := mk_run_state {
  ctx : csilk_wf_ctx_t;
  life : lifetime;
  works : gmap nat node_work_t;
  closing : gset nat;
  next_work : nat;
  pending : option (list nat);
  started : bool;
  initial_input : option csilk_data_t;
  remote : list nat;
  log : list wf_event;
  callbacks : list (option csilk_data_t);
  ttl_armed : bool;
}.

Definition set_ctx w c := mk_run_state c (life w) (works w) (closing w) (next_work w) (pending w) (started w) (initial_input w) (remote w) (log w) (callbacks w) (ttl_armed w).
Definition set_life w l t := mk_run_state (ctx w) l (works w) (closing w) (next_work w) (pending w) (started w) (initial_input w) (remote w) (log w) (callbacks w) t.
Definition set_works w ws := mk_run_state (ctx w) (life w) ws (closing w) (next_work w) (pending w) (started w) (initial_input w) (remote w) (log w) (callbacks w) (ttl_armed w).
Definition set_closing w s := mk_run_state (ctx w) (life w) (works w) s (next_work w) (pending w) (started w) (initial_input w) (remote w) (log w) (callbacks w) (ttl_armed w).
Definition set_next w n := mk_run_state (ctx w) (life w) (works w) (closing w) n (pending w) (started w) (initial_input w) (remote w) (log w) (callbacks w) (ttl_armed w).
Definition set_pending w p := mk_run_state (ctx w) (life w) (works w) (closing w) (next_work w) p (started w) (initial_input w) (remote w) (log w) (callbacks w) (ttl_armed w).
Definition set_remote w r := mk_run_state (ctx w) (life w) (works w) (closing w) (next_work w) (pending w) (started w) (initial_input w) r (log w) (callbacks w) (ttl_armed w).
Definition add_log w e := mk_run_state (ctx w) (life w) (works w) (closing w) (next_work w) (pending w) (started w) (initial_input w) (remote w) (log w ++ [e]) (callbacks w) (ttl_armed w).
Definition add_callback w d := mk_run_state (ctx w) (life w) (works w) (closing w) (next_work w) (pending w) (started w) (initial_input w) (remote w) (log w) (callbacks w ++ [d]) (ttl_armed w).

Definition set_active c a := mk_ctx (node_input_counts c) (total_executions c) a (node_outputs c) (total_tokens c) (is_terminated c) (is_paused c) (node_approved c).
Definition set_counts c l := mk_ctx l (total_executions c) (nodes_active c) (node_outputs c) (total_tokens c) (is_terminated c) (is_paused c) (node_approved c).
Definition set_executions c n := mk_ctx (node_input_counts c) n (nodes_active c) (node_outputs c) (total_tokens c) (is_terminated c) (is_paused c) (node_approved c).
Definition set_outputs c l t := mk_ctx (node_input_counts c) (total_executions c) (nodes_active c) l t (is_terminated c) (is_paused c) (node_approved c).
Definition set_terminated c := mk_ctx (node_input_counts c) (total_executions c) (nodes_active c) (node_outputs c) (total_tokens c) true (is_paused c) (node_approved c).
Definition set_paused c := mk_ctx (node_input_counts c) (total_executions c) (nodes_active c) (node_outputs c) (total_tokens c) (is_terminated c) true (node_approved c).
Definition set_approved c l := mk_ctx (node_input_counts c) (total_executions c) (nodes_active c) (node_outputs c) (total_tokens c) (is_terminated c) (is_paused c) l.

(** ** Graphs that programs build *)

(** The edges from a list of nodes to [n]. *)
Definition edges_to (l : list csilk_wf_node_t) (n : nat) : list csilk_wf_edge_t := filter (fun e => target e = n) (concat (map edges l)).

(** Edges and error targets lead to nodes, and [incoming_count] counts edges. *)
Record graph_ok (wf : csilk_wf_t) : Prop := {
  gr_edges : forall n x, nodes wf !! n = Some x -> Forall (fun e => (target e < length (nodes wf))%nat) (edges x);
  gr_error : forall n x, nodes wf !! n = Some x -> forall t, error_target x = Some t -> (t < length (nodes wf))%nat;
  gr_count : forall n x, nodes wf !! n = Some x -> incoming_count x = Z.of_nat (length (edges_to (nodes wf) n));
}.

Lemma filter_none {A} (P : A -> Prop) `{!forall a, Decision (P a)} l : (forall a, a ∈ l -> ~ P a) -> filter P l = [].
Proof. induction l as [|a l IH]; intros Hn; [done|]. rewrite filter_cons_False by (apply Hn; by left). apply IH. intros b Hb. apply Hn. by right. Qed.

Lemma edges_to_insert l n x y m : l !! n = Some x ->
  Z.of_nat (length (edges_to (<[n := y]> l) m)) = Z.of_nat (length (edges_to l m)) - Z.of_nat (length (filter (fun e => target e = m) (edges x))) + Z.of_nat (length (filter (fun e => target e = m) (edges y))).
Proof.
  unfold edges_to. revert n. induction l as [|z l IH]; intros [|n] Hn; [done|done|injection Hn as ->; cbn; rewrite !filter_app, !length_app; lia|]. change (<[S n := y]> (z :: l)) with (z :: <[n := y]> l). cbn [map concat].
  rewrite !filter_app, !length_app, !Nat2Z.inj_add, (IH n Hn). lia.
Qed.

(** A change of a node that keeps its edges and the number of incoming ones. *)
Lemma on_node_ok wf n f wf' : graph_ok wf -> on_node wf n f = Some wf' -> (forall x, edges (f x) = edges x /\ incoming_count (f x) = incoming_count x) ->
  (forall x t, nodes wf !! n = Some x -> error_target (f x) = Some t -> (t < length (nodes wf))%nat) -> graph_ok wf'.
Proof.
  intros [G1 G2 G3] E Hf Ht. unfold on_node in E. destruct (nodes wf !! n) as [x|] eqn:Hx; [|done]. injection E as <-. destruct (Hf x) as [F1 F2].
  assert (forall m, length (edges_to (<[n := f x]> (nodes wf)) m) = length (edges_to (nodes wf) m)) as He by (intros m; pose proof (edges_to_insert (nodes wf) n x (f x) m Hx) as P; rewrite F1 in P; lia).
  constructor; unfold set_nodes; cbn [nodes]; rewrite ?length_insert; intros m y.
  - rewrite list_lookup_insert. case_decide as Hm; [intros [= <-]; rewrite F1; by apply (G1 n)|apply G1].
  - rewrite list_lookup_insert. case_decide as Hm; [intros [= <-] t; by apply Ht|apply G2].
  - rewrite list_lookup_insert, He. case_decide as Hm; [destruct Hm as [-> _]; intros [= <-]; rewrite F2; by apply G3|apply G3].
Qed.

Lemma add_ok wf i grow ok : graph_ok wf -> graph_ok (csilk_wf_add wf i grow ok).2.
Proof.
  intros G. unfold csilk_wf_add. destruct (_ && negb grow); [done|]. set (wf1 := if _ <=? _ then _ else wf). assert (nodes wf1 = nodes wf) as En by (unfold wf1; by destruct (_ <=? _)).
  destruct ok; cbn [negb snd]; [|destruct G; constructor; by rewrite En]. clearbody wf1. destruct G as [G1 G2 G3].
  assert (forall m, edges_to (nodes wf ++ [new_node i]) m = edges_to (nodes wf) m) as He by (intros m; unfold edges_to; rewrite map_app, concat_app, filter_app; cbn; by rewrite app_nil_r).
  constructor; unfold set_nodes; cbn [nodes]; rewrite En, ?length_app; intros m y Hy; apply lookup_app_Some in Hy as [Hy|[Hge Hy]]; try (apply list_lookup_singleton_Some in Hy as [Hz <-]).
  - eapply Forall_impl; [by apply (G1 m)|]. cbn. lia.
  - constructor.
  - intros t Ht. pose proof (G2 m y Hy t Ht). lia.
  - done.
  - rewrite He. by apply G3.
  - rewrite He. cbn. assert (m = length (nodes wf)) as -> by lia. symmetry. unfold edges_to. cut (filter (fun e => target e = length (nodes wf)) (concat (map edges (nodes wf))) = []); [by intros ->|].
    apply filter_none. intros e (es & He' & Hin)%list_elem_of_In%List.in_concat. apply List.in_map_iff in He' as (x & <- & Hx). apply list_elem_of_In, list_elem_of_lookup_1 in Hx as [k Hk].
    rewrite <- list_elem_of_In in Hin. pose proof (proj1 (Forall_forall _ _) (G1 k x Hk) e Hin). cbn in *. lia.
Qed.

Lemma edge_ok wf from cond to grow wf' : graph_ok wf -> add_edge wf from cond to grow = Some wf' -> graph_ok wf'.
Proof.
  intros [G1 G2 G3] E. unfold add_edge in E. destruct (nodes wf !! from) as [f|] eqn:Ef; [|done]. cbn [mbind option_bind] in E. destruct (nodes wf !! to) as [t0|] eqn:Et; [|done]. cbn [mbind option_bind] in E.
  destruct (_ && negb grow); [by injection E as <-|]. set (cap := if _ <=? _ then _ else _) in E. clearbody cap. set (f' := set_edges f (edges f ++ [mk_edge cond to]) cap) in E.
  set (l := <[from := f']> (nodes wf)) in E. destruct (l !! to) as [t|] eqn:El; [|done]. cbn [mbind option_bind] in E. injection E as <-.
  pose proof (lookup_lt_Some _ _ _ Et) as Hto. assert (length l = length (nodes wf)) as Hl by apply length_insert.
  assert (forall n x, l !! n = Some x -> exists y, nodes wf !! n = Some y /\ incoming_count x = incoming_count y /\ error_target x = error_target y /\ Forall (fun e => (target e < length (nodes wf))%nat) (edges x)) as Hx.
  { intros n x. unfold l. rewrite list_lookup_insert. case_decide as Hd; [|intros Hx; exists x; split; [done|]; split; [done|]; split; [done|]; by apply (G1 n)].
    destruct Hd as [<- _]. intros [= <-]. exists f. split; [done|]. split; [done|]. split; [done|]. cbn. apply Forall_app. split; [by apply (G1 from)|]. by constructor. }
  assert (forall m, Z.of_nat (length (edges_to (<[to := set_incoming t (incoming_count t + 1)]> l) m)) = Z.of_nat (length (edges_to (nodes wf) m)) + (if decide (m = to) then 1 else 0)) as Hc.
  { intros m. rewrite (edges_to_insert l to t _ m El). unfold l. rewrite (edges_to_insert (nodes wf) from f _ m Ef). cbn [edges set_incoming f' set_edges]. rewrite filter_app, length_app.
    unfold set_incoming. cbn [edges]. destruct (decide (m = to)) as [->|Hne]; [rewrite filter_cons_True by done|rewrite filter_cons_False by (cbn; congruence)]; cbn [length filter list_filter]; lia. }
  constructor; unfold set_nodes; cbn [nodes]; rewrite ?length_insert, ?Hl; intros m x; rewrite list_lookup_insert; case_decide as Hd.
  - intros [= <-]. by destruct (Hx to t El) as (y & _ & _ & _ & ?).
  - intros Hm. by destruct (Hx m x Hm) as (y & _ & _ & _ & ?).
  - intros [= <-] e He. destruct (Hx to t El) as (y & Hy & _ & Ey & _). cbn in He. rewrite Ey in He. by apply (G2 to y).
  - intros Hm e He. destruct (Hx m x Hm) as (y & Hy & _ & Ey & _). rewrite Ey in He. by apply (G2 m y).
  - intros [= <-]. destruct Hd as [<- _]. destruct (Hx to t El) as (y & Hy & Ey & _). rewrite Hc, decide_True by done. cbn. rewrite Ey. by rewrite (G3 to y Hy).
  - intros Hm. destruct (Hx m x Hm) as (y & Hy & Ey & _). rewrite Hc, decide_False; [rewrite Ey, (G3 m y Hy); lia|]. intros ->. apply Hd. split; [done|]. lia.
Qed.

Lemma build_ok os : forall wf wf', graph_ok wf -> build_wf wf os = Some wf' -> graph_ok wf'.
Proof.
  induction os as [|o os IH]; intros wf wf' G E; [by injection E as <-|]. cbn [build_wf] in E. destruct (build_step wf o) as [wf1|] eqn:E1; [|done]. cbn [mbind option_bind] in E. apply (IH wf1 wf'); [|done]. clear IH E.
  destruct o; cbn [build_step] in E1; try (injection E1 as <-; by apply add_ok || by destruct G; constructor); try (by apply (edge_ok _ _ _ _ _ _ G E1));
    try (apply (on_node_ok _ _ _ _ G E1); [done|]; intros x t' Hx Ht'; by apply (gr_error _ G _ _ Hx)).
  destruct t as [t|]; [destruct (nodes wf !! t) eqn:Et; [|done]|]; cbn [mbind option_bind] in E1; apply (on_node_ok _ _ _ _ G E1); try done. intros x t' Hx [= <-]. by eapply lookup_lt_Some.
Qed.

Lemma new_wf_ok : graph_ok csilk_wf_new.
Proof. by constructor. Qed.

Section engine.
(** The JSON library: parsing, the strings of the array ["required"] of an object,
    and whether an object has a member. *)
Context {json : Type} (parse : bytes -> option json) (required : json -> list bytes) (has : json -> bytes -> bool).
Context (wf : csilk_wf_t).

Definition live (w : run_state) : bool := match life w with Live => true | _ => false end.

Definition new_ctx : csilk_wf_ctx_t :=
  mk_ctx (replicate (length (nodes wf)) 0) 0 0 (replicate (length (nodes wf)) None) 0 false false (replicate (length (nodes wf)) false).

Definition _wf_cleanup_ctx (w : run_state) : option run_state :=
  if negb (live w) then None else Some (set_life w (if 0 <? ttl_sec wf then Closing else Released) false).

Definition execute_node (w : run_state) (n : nat) (input : option csilk_data_t) : option run_state :=
  if negb (live w) then None else
  let c := ctx w in
  node ← nodes wf !! n;
  approved ← node_approved c !! n;
  if is_terminated c then Some w else
  if is_interactive node && negb approved then Some (add_log (set_ctx w (set_paused c)) (WF_EV_PAUSE (id node) input)) else
  if is_remote node && mq wf && negb approved then
    Some (add_log (set_remote (set_ctx w (set_active (set_paused c) (nodes_active c + 1))) (n :: remote w)) (WF_EV_PAUSE (id node) input))
  else
  let w := add_log w (WF_EV_NODE_START (id node)) in
  let w := set_ctx w (set_active (set_executions c (total_executions c + 1)) (nodes_active c + 1)) in
  let work := mk_work n input 0 false (0 <? timeout_ms node) (0 <? timeout_ms node) false in
  Some (set_next (set_works w (<[next_work w := work]> (works w))) (S (next_work w))).

(** ** Completion of a node *)

Definition free_work (w : run_state) (k : nat) (work : node_work_t) : run_state :=
  if timer_initialized work then set_closing w ({[k]} ∪ closing w) else w.

Definition schema_ok (node : csilk_wf_node_t) (output : option csilk_data_t) : bool :=
  match output, output_schema node with
  | Some d, Some s =>
      match dvalue d with
      | Some v => match parse s, parse v with Some s, Some v => forallb (has v) (required s) | _, _ => false end
      | None => true
      end
  | _, _ => true
  end.

Definition edge_matches (e : csilk_wf_edge_t) (output : option csilk_data_t) : bool :=
  match condition e with
  | None => true
  | Some c => match output with Some d => bool_decide (dtype d = Some c) | None => false end
  end.

Fixpoint follow_edges (w : run_state) (es : list csilk_wf_edge_t) (output : option csilk_data_t) (triggered : Z) : option (run_state * Z) :=
  match es with
  | [] => Some (w, triggered)
  | e :: es' =>
      if negb (edge_matches e output) then follow_edges w es' output triggered else
      if negb (live w) then None else
      let c := ctx w in
      t ← nodes wf !! target e;
      count ← node_input_counts c !! target e;
      if total_executions c <? MAX_WORKFLOW_STEPS then
        let threshold := if incoming_count t =? 0 then 1 else incoming_count t in
        if threshold <=? count + 1 then
          w ← execute_node (set_ctx w (set_counts c (<[target e := 0]> (node_input_counts c)))) (target e) output;
          follow_edges w es' output (triggered + 1)
        else follow_edges (set_ctx w (set_counts c (<[target e := count + 1]> (node_input_counts c)))) es' output triggered
      else follow_edges w es' output triggered
  end.

Definition dispatch (w : run_state) (node : csilk_wf_node_t) (output : option csilk_data_t) : option (run_state * Z) :=
  match router_fn node with
  | Some f =>
      match f output with
      | Some target_id =>
          match csilk_wf_get_node wf target_id with
          | Some n => w ← execute_node w n output; Some (w, 1)
          | None => Some (w, 0)
          end
      | None => Some (w, 0)
      end
  | None => follow_edges w (edges node) output 0
  end.

(** [nodes_active--] *)
Definition leave (w : run_state) : run_state := set_ctx w (set_active (ctx w) (nodes_active (ctx w) - 1)).

Definition record_output (w : run_state) (n : nat) (node : csilk_wf_node_t) (output : option csilk_data_t) : run_state :=
  let c := ctx w in
  let t := match output with Some d => match dtokens d with Some (p, q) => p + q | None => 0 end | None => 0 end in
  let c := set_outputs c (<[n := output]> (node_outputs c)) (total_tokens c + t) in
  let c := if (0 <? max_tokens wf) && (max_tokens wf <? total_tokens c) then set_terminated c else c in
  add_log (set_ctx w c) (WF_EV_NODE_FINISH (id node) output).

(** What [after_worker_cb] still does once it has counted its node down: it
    reads [nodes_active] again, unlocks the mutex of the context and, at zero,
    may end the run ([f_end]: the record of the end and the output to report). *)
Record finish := mk_finish { f_key : nat; f_work : node_work_t; f_end : option (list wf_event * option csilk_data_t) }.

(** The part of [after_worker_cb] behind the retries and the schema, up to
    [nodes_active--]. *)
Definition node_leave (w : run_state) (k : nat) (work : node_work_t) (node : csilk_wf_node_t) (output : option csilk_data_t) : option (run_state * finish) :=
  if negb (live w) then None else
  let w := record_output w (w_node work) node output in
  if is_terminated (ctx w) then Some (leave w, mk_finish k work (Some ([], None))) else
  match output, error_target node with
  | None, Some t => w ← execute_node w t None; Some (leave w, mk_finish k work None)
  | _, _ =>
      '(w, triggered) ← dispatch w node output;
      Some (leave w, mk_finish k work (if triggered =? 0 then Some ([WF_EV_END], output) else None))
  end.

(** The rest of it. *)
Definition node_end (w : run_state) (f : finish) : option run_state :=
  if negb (live w) then None else
  w ← match f_end f with
      | Some (evs, output) => if nodes_active (ctx w) =? 0 then _wf_cleanup_ctx (add_callback (foldl add_log w evs) output) else Some w
      | None => Some w
      end;
  Some (free_work w (f_key f) (f_work f)).

(** [after_worker_cb] up to that point; a retry ends it there. *)
Definition after_worker_begin (w : run_state) (k : nat) (work : node_work_t) (output : option csilk_data_t) : option (run_state * option finish) :=
  let w := set_works w (delete k (works w)) in
  node ← nodes wf !! w_node work;
  let output := if is_timed_out work then None else output in
  match output with
  | None =>
      if retry_count work <? max_retries node then
        let wait := 0 <? retry_delay_ms node in
        let work := mk_work (w_node work) (w_input work) (retry_count work + 1) (is_timed_out work) (timer_initialized work || wait) false wait in
        if negb (live w) then None else Some (set_works w (<[k := work]> (works w)), None)
      else '(w, f) ← node_leave w k work node None; Some (w, Some f)
  | Some d => '(w, f) ← node_leave w k work node (if schema_ok node (Some d) then Some d else None); Some (w, Some f)
  end.

(** The whole of it, with nothing in between. *)
Definition after_worker_cb (w : run_state) (k : nat) (work : node_work_t) (output : option csilk_data_t) : option run_state :=
  '(w, f) ← after_worker_begin w k work output;
  match f with Some f => node_end w f | None => Some w end.

(** ** Starting a run *)

Definition entry_nodes : list nat :=
  let marked := filter (fun n => is_entry <$> nodes wf !! n = Some true) (seq 0 (length (nodes wf))) in
  match marked with
  | [] => take 1 (filter (fun n => incoming_count <$> nodes wf !! n = Some 0) (seq 0 (length (nodes wf))))
  | _ => marked
  end.

(** [_wf_run_ext_internal] up to its first entry node. *)
Definition run_begin (input : option csilk_data_t) : run_state :=
  match nodes wf with
  | [] => mk_run_state new_ctx Released ∅ ∅ 0 None false input [] [] [None] false
  | _ => mk_run_state (set_active new_ctx 1) Live ∅ ∅ 0 (Some entry_nodes) (negb (bool_decide (entry_nodes = []))) input [] [WF_EV_START input] [] (0 <? ttl_sec wf)
  end.

(** One more entry node, or the end of the function. *)
Definition run_step (w : run_state) : option run_state :=
  match pending w with
  | None => Some w
  | Some (n :: rest) => w ← execute_node w n (initial_input w); Some (set_pending w (Some rest))
  | Some [] =>
      if negb (live w) then None else
      let w := leave (set_pending w None) in
      let w := if started w then w else add_callback w None in
      if nodes_active (ctx w) =? 0 then _wf_cleanup_ctx w else Some w
  end.

(** ** Events *)

Inductive event :=
| ERun
| EDone (k : nat) (output : option csilk_data_t)
| ETimeout (k : nat)
| ERetry (k : nat)
| EWorkClosed (k : nat)
| ETtl
| ETtlClosed
| ERemote (n : nat) (output : csilk_data_t).

Definition on_node_timeout (work : node_work_t) : node_work_t :=
  mk_work (w_node work) (w_input work) (retry_count work) true (timer_initialized work) false (waiting work).
Definition on_retry_timer (work : node_work_t) : node_work_t :=
  mk_work (w_node work) (w_input work) (retry_count work) (is_timed_out work) (timer_initialized work) (armed work) false.

(** The result of an offloaded node, while its execution is active. *)
Definition on_remote_result (w : run_state) (n : nat) (output : csilk_data_t) (rest : list nat) : option run_state :=
  let c := ctx w in
  let c := set_active (set_approved c (<[n := true]> (node_approved c))) (nodes_active c - 1) in
  execute_node (set_remote (set_ctx w c) rest) n (Some output).

(** The first occurrence removed, if there is one. *)
Fixpoint remove_one (n : nat) (l : list nat) : option (list nat) :=
  match l with
  | [] => None
  | m :: l' => if decide (n = m) then Some l' else cons m <$> remove_one n l'
  end.

(** An event that the event loop cannot deliver changes nothing. *)
Definition step (w : run_state) (e : event) : option run_state :=
  match e with
  | ERun => run_step w
  | EDone k output =>
      match works w !! k with
      | Some work => if waiting work then Some w else after_worker_cb w k work output
      | None => Some w
      end
  | ETimeout k =>
      match works w !! k with
      | Some work => if armed work then Some (set_works w (<[k := on_node_timeout work]> (works w))) else Some w
      | None => Some w
      end
  | ERetry k =>
      match works w !! k with
      | Some work =>
          if waiting work then (if negb (live w) then None else Some (set_works w (<[k := on_retry_timer work]> (works w)))) else Some w
      | None => Some w
      end
  | EWorkClosed k => Some (set_closing w (closing w ∖ {[k]}))
  | ETtl =>
      if ttl_armed w then (if negb (live w) then None else Some (set_life (set_ctx w (set_terminated (ctx w))) (life w) false)) else Some w
  | ETtlClosed => match life w with Closing => Some (set_life w Released false) | _ => Some w end
  | ERemote n output =>
      match remove_one n (remote w) with
      | Some rest => if live w then on_remote_result w n output rest else Some w
      | None => Some w
      end
  end.

Fixpoint steps (w : run_state) (es : list event) : option run_state :=
  match es with
  | [] => Some w
  | e :: es' => w ← step w e; steps w es'
  end.

(** *** Two threads

    [csilk_wf_run] may be called on another thread than the loop's. While the
    loop is between the two halves of [after_worker_cb] ([mid]), only the other
    thread can go on. *)
Record fine := mk_fine { st : run_state; mid : option finish }.

Inductive fine_event := FEvent (e : event) | FEnd.

Definition fine_step (x : fine) (e : fine_event) : option fine :=
  match mid x, e with
  | Some f, FEnd => w ← node_end (st x) f; Some (mk_fine w None)
  | Some f, FEvent ERun => w ← run_step (st x); Some (mk_fine w (Some f))
  | Some _, FEvent _ => Some x
  | None, FEvent (EDone k output) =>
      match works (st x) !! k with
      | Some work => if waiting work then Some x else '(w, f) ← after_worker_begin (st x) k work output; Some (mk_fine w f)
      | None => Some x
      end
  | None, FEvent e => w ← step (st x) e; Some (mk_fine w None)
  | None, FEnd => Some x
  end.

Fixpoint fine_steps (x : fine) (es : list fine_event) : option fine :=
  match es with
  | [] => Some x
  | e :: es' => x ← fine_step x e; fine_steps x es'
  end.

(** The last step of [csilk_wf_run], in which it drops its own count, does not
    come between the two halves. *)
Definition clash (x : fine) (e : fine_event) : bool :=
  match mid x, e, pending (st x) with Some _, FEvent ERun, Some [] => true | _, _, _ => false end.

Fixpoint no_clash (x : fine) (es : list fine_event) : bool :=
  match es with
  | [] => true
  | e :: es' => negb (clash x e) && match fine_step x e with Some x => no_clash x es' | None => true end
  end.

(** A call of [csilk_wf_run] on the thread of the loop: nothing comes between. *)
Definition csilk_wf_run (input : option csilk_data_t) : option run_state := steps (run_begin input) (replicate (S (length entry_nodes)) ERun).

(** ** The context and its works *)

Definition pend (w : run_state) : Z := match pending w with Some _ => 1 | None => 0 end.

(** What still has to come back to the context. *)
Definition outstanding (w : run_state) : Z := Z.of_nat (size (works w)) + Z.of_nat (length (remote w)) + pend w.

Definition valid (n : nat) : Prop := (n < length (nodes wf))%nat.

(** Edges and error targets lead to nodes. *)
Definition targets_ok : Prop :=
  forall n node, nodes wf !! n = Some node -> Forall (fun e => valid (target e)) (edges node) /\ forall t, error_target node = Some t -> valid t.

(** [k] works are in the hands of [after_worker_cb]. *)
Record core (k : Z) (w : run_state) : Prop := {
  i_counts : length (node_input_counts (ctx w)) = length (nodes wf);
  i_approved : length (node_approved (ctx w)) = length (nodes wf);
  i_live : life w = Live -> nodes_active (ctx w) = outstanding w + k /\ callbacks w = [];
  i_dead : life w <> Live -> outstanding w = 0 /\ k = 0 /\ (length (callbacks w) <= 1)%nat;
  i_works : forall j x, works w !! j = Some x -> valid (w_node x) /\ (j < next_work w)%nat;
  i_closing : forall j, j ∈ closing w -> works w !! j = None /\ (j < next_work w)%nat;
  i_remote : Forall valid (remote w);
  i_pending : forall l, pending w = Some l -> Forall valid l;
  i_ttl : ttl_armed w = true -> life w = Live;
  i_started : started w = false -> life w = Live -> works w = ∅ /\ remote w = [] /\ pending w = Some [];
  i_offload : remote w <> [] -> is_paused (ctx w) = true;
}.

(** A context to which nothing comes back waits for an approval. *)
Definition quiet (w : run_state) : Prop := life w = Live -> outstanding w = 0 -> is_paused (ctx w) = true.

Lemma outstanding_nonneg w : 0 <= outstanding w.
Proof. unfold outstanding, pend. destruct (pending w); lia. Qed.

(** What starting nodes leaves alone. *)
Record grown (w w' : run_state) : Prop := {
  g_life : life w' = life w;
  g_pending : pending w' = pending w;
  g_started : started w' = started w;
  g_input : initial_input w' = initial_input w;
  g_terminated : is_terminated (ctx w') = is_terminated (ctx w);
  g_out : outstanding w <= outstanding w';
  g_paused : is_paused (ctx w) = true -> is_paused (ctx w') = true;
  g_closing : closing w' = closing w;
  g_next : (next_work w <= next_work w')%nat;
  g_works : forall j, (j < next_work w)%nat -> works w' !! j = works w !! j;
}.

Lemma grown_refl w : grown w w.
Proof. by constructor. Qed.

Lemma grown_trans a b c : grown a b -> grown b c -> grown a c.
Proof.
  intros [A1 A2 A3 A4 A5 A6 A7 A8 A9 A10] [B1 B2 B3 B4 B5 B6 B7 B8 B9 B10]. constructor; try congruence; try lia; auto. intros j Hj. rewrite B10 by lia. auto.
Qed.

Lemma fresh_work k w : core k w -> works w !! next_work w = None.
Proof. intros H. apply eq_None_not_Some. intros [x Hx]. apply (i_works _ _ H) in Hx as [_ Hx]. lia. Qed.

Lemma execute_ok k w n input : core k w -> life w = Live -> started w = true -> valid n ->
  exists w', execute_node w n input = Some w' /\ core k w' /\ grown w w' /\ (is_terminated (ctx w) = false -> 0 < outstanding w' \/ is_paused (ctx w') = true).
Proof.
  intros H Hl Hs Hn. unfold execute_node, live. rewrite Hl. cbn [negb]. destruct (lookup_lt_is_Some_2 (nodes wf) n Hn) as [node ->]. cbn [mbind option_bind].
  destruct (lookup_lt_is_Some_2 (node_approved (ctx w)) n) as [ap ->]; [rewrite (i_approved _ _ H); exact Hn|]. cbn [mbind option_bind].
  destruct (is_terminated (ctx w)) eqn:Et; [exists w; split; [done|]; split; [done|]; split; [apply grown_refl|done]|].
  pose proof (outstanding_nonneg w) as Hp. pose proof (fresh_work k w H) as Hf. destruct H as [H1 H2 H3 H4 H5 H6 H7 H8 H9 H10 H11].
  destruct (is_interactive node && negb ap).
  { eexists. split; [reflexivity|]. split; [constructor; done|]. split; [by constructor|]. by right. }
  destruct (is_remote node && mq wf && negb ap); (eexists; split; [reflexivity|]; split; [constructor|split; [constructor|]]; cbn; try done; try congruence).
  - intros Hl'. destruct (H3 Hl') as [-> Hc]. unfold outstanding, pend in *. cbn. split; [lia|done].
  - by constructor.
  - unfold outstanding, pend. cbn. lia.
  - intros _. by right.
  - intros Hl'. destruct (H3 Hl') as [-> Hc]. unfold outstanding, pend in *. cbn. rewrite map_size_insert_None by done. split; [lia|done].
  - intros j x. destruct (decide (j = next_work w)) as [->|Hj]; [rewrite lookup_insert_eq; intros [= <-]; split; [done|lia]|]. rewrite lookup_insert_ne by done. intros Hx. destruct (H5 j x Hx). split; [done|lia].
  - intros j Hj. destruct (H6 j Hj). rewrite lookup_insert_ne by lia. split; [done|lia].
  - unfold outstanding, pend. cbn. rewrite map_size_insert_None by done. lia.
  - lia.
  - intros j Hj. by rewrite lookup_insert_ne by lia.
  - intros _. left. unfold outstanding, pend in *. cbn. rewrite map_size_insert_None by done. destruct (pending w); lia.
Qed.

Lemma counts_ok k w l : core k w -> length l = length (nodes wf) -> core k (set_ctx w (set_counts (ctx w) l)) /\ grown w (set_ctx w (set_counts (ctx w) l)).
Proof. intros [H1 H2 H3 H4 H5 H6 H7 H8 H9 H10 H11] Hl. split; constructor; done. Qed.

(** Once a node was triggered, something is outstanding or the run is paused. *)
Lemma follow_ok k output : forall es w triggered, core k w -> life w = Live -> started w = true -> is_terminated (ctx w) = false -> Forall (fun e => valid (target e)) es -> 0 <= triggered ->
  (0 < triggered -> 0 < outstanding w \/ is_paused (ctx w) = true) ->
  exists w' triggered', follow_edges w es output triggered = Some (w', triggered') /\ core k w' /\ grown w w' /\ 0 <= triggered' /\ (0 < triggered' -> 0 < outstanding w' \/ is_paused (ctx w') = true).
Proof.
  induction es as [|e es IH]; intros w tr H Hl Hs Ht He Hp Hq; [by exists w, tr; split_and!; [..|apply grown_refl| |]|]. cbn [follow_edges]. apply Forall_cons in He as [Hv He].
  destruct (edge_matches e output); cbn [negb]; [|by apply IH]. unfold live. rewrite Hl. cbn [negb]. destruct (lookup_lt_is_Some_2 (nodes wf) (target e) Hv) as [t ->]. cbn [mbind option_bind].
  pose proof (i_counts _ _ H) as Hc. destruct (lookup_lt_is_Some_2 (node_input_counts (ctx w)) (target e)) as [cnt ->]; [unfold valid in Hv; lia|]. cbn [mbind option_bind].
  destruct (_ <? _); [|by apply IH]. destruct (_ <=? cnt + 1).
  - destruct (counts_ok k w (<[target e := 0]> (node_input_counts (ctx w))) H) as [H1 G1]; [by rewrite length_insert|].
    destruct (execute_ok k _ (target e) output H1 Hl Hs Hv) as (w1 & E1 & C1 & G2 & Q1). rewrite E1. cbn [mbind option_bind]. pose proof (grown_trans _ _ _ G1 G2) as G.
    destruct (IH w1 (tr + 1) C1) as (w' & tr' & E' & C' & G' & P' & Q'); [by rewrite (g_life _ _ G)|by rewrite (g_started _ _ G)|by rewrite (g_terminated _ _ G)|done|lia|intros _; by apply Q1|].
    exists w', tr'. split; [done|]. split; [done|]. split; [by apply (grown_trans w w1 w')|done].
  - destruct (counts_ok k w (<[target e := cnt + 1]> (node_input_counts (ctx w))) H) as [H1 G1]; [by rewrite length_insert|].
    destruct (IH _ tr H1) as (w' & tr' & E' & C' & G' & P' & Q'); try done. exists w', tr'. split; [done|]. split; [done|]. split; [by apply (grown_trans _ _ _ G1)|done].
Qed.

Lemma get_node_valid i n : csilk_wf_get_node wf i = Some n -> valid n.
Proof. unfold csilk_wf_get_node. intros ([m x] & Hf & ->)%fmap_Some. cbn. apply list_find_Some in Hf as [Hf _]. by eapply lookup_lt_Some. Qed.

Lemma dispatch_ok k w n node output : targets_ok -> nodes wf !! n = Some node -> core k w -> life w = Live -> started w = true -> is_terminated (ctx w) = false ->
  exists w' triggered, dispatch w node output = Some (w', triggered) /\ core k w' /\ grown w w' /\ 0 <= triggered /\ (0 < triggered -> 0 < outstanding w' \/ is_paused (ctx w') = true).
Proof.
  intros Hok Hn H Hl Hs Ht. unfold dispatch. destruct (router_fn node) as [f|]; [|by apply follow_ok; try done; apply (Hok n)].
  assert (exists w' triggered, Some (w, 0) = Some (w', triggered) /\ core k w' /\ grown w w' /\ 0 <= triggered /\ (0 < triggered -> 0 < outstanding w' \/ is_paused (ctx w') = true)) as Hno.
  { exists w, 0. split; [done|]. split; [done|]. split; [apply grown_refl|done]. }
  destruct (f output) as [tid|]; [|done]. destruct (csilk_wf_get_node wf tid) as [m|] eqn:E; [|done].
  destruct (execute_ok k w m output H Hl Hs (get_node_valid _ _ E)) as (w1 & E1 & C1 & G1 & Q1). rewrite E1. cbn [mbind option_bind]. exists w1, 1. split; [done|]. split; [done|]. split; [done|]. split; [done|auto].
Qed.

Lemma record_ok k w n node output : core k w -> core k (record_output w n node output) /\ works (record_output w n node output) = works w /\ life (record_output w n node output) = life w /\
  started (record_output w n node output) = started w /\ outstanding (record_output w n node output) = outstanding w /\ closing (record_output w n node output) = closing w /\ next_work (record_output w n node output) = next_work w.
Proof.
  intros [H1 H2 H3 H4 H5 H6 H7 H8 H9 H10 H11]. unfold record_output. destruct (_ && _); (split; [constructor; done|done]).
Qed.

Lemma leave_ok k w : core (k + 1) w -> life w = Live -> core k (leave w) /\ outstanding (leave w) = outstanding w /\ life (leave w) = Live.
Proof.
  intros [H1 H2 H3 H4 H5 H6 H7 H8 H9 H10 H11] Hl. split; [|done]. constructor; try done. intros _. destruct (H3 Hl) as [E Hc]. unfold outstanding, pend in *. cbn. split; [lia|done].
Qed.

(** Releasing the context, after the callback was called, if it is. *)
Definition called (w : run_state) (d : option (option csilk_data_t)) : run_state := match d with Some d => add_callback w d | None => w end.

Lemma release_ctx_ok w d : core 0 w -> life w = Live -> nodes_active (ctx w) = 0 -> exists w', _wf_cleanup_ctx (called w d) = Some w' /\ core 0 w' /\ quiet w' /\ closing w' = closing w /\ works w' = works w /\ next_work w' = next_work w.
Proof.
  intros [H1 H2 H3 H4 H5 H6 H7 H8 H9 H10 H11] Hl Ha. unfold _wf_cleanup_ctx, live. destruct (H3 Hl) as [E Hc]. destruct d as [d|]; cbn; rewrite Hl; cbn; (eexists; split; [reflexivity|]);
    (split; [|split; [by destruct (0 <? ttl_sec wf)|done]]);
    (constructor; try done; cbn; try (by destruct (0 <? ttl_sec wf)); intros _; rewrite Hc; split; [|by cbn; auto with lia]; unfold outstanding, pend in *; cbn; lia).
Qed.

Lemma free_work_ok w j work : core 0 w -> quiet w -> works w !! j = None -> (j < next_work w)%nat -> core 0 (free_work w j work) /\ quiet (free_work w j work).
Proof.
  intros [H1 H2 H3 H4 H5 H6 H7 H8 H9 H10 H11] Hq Hj Hn. unfold free_work. destruct (timer_initialized work); [|by split]. split; [|done]. constructor; try done.
  cbn. intros i. rewrite elem_of_union, elem_of_singleton. intros [->|Hi]; [done|by apply H6].
Qed.

(** Between the halves: the work is gone and, unless the run is about to be
    ended, something is outstanding or it is paused. *)
Record leaving (w : run_state) (f : finish) : Prop := {
  lv_life : life w = Live;
  lv_started : started w = true;
  lv_key : works w !! f_key f = None /\ (f_key f < next_work w)%nat;
  lv_quiet : f_end f = None -> outstanding w = 0 -> is_paused (ctx w) = true;
}.

Lemma node_end_normal w triggered j work output : life w = Live ->
  node_end (leave w) (mk_finish j work (if triggered =? 0 then Some ([WF_EV_END], output) else None)) =
  (w' ← (if (triggered =? 0) && (nodes_active (ctx (leave w)) =? 0) then _wf_cleanup_ctx (add_callback (add_log (leave w) WF_EV_END) output) else Some (leave w));
   Some (free_work w' j work)).
Proof. intros Hl. unfold node_end, live. cbn [leave set_ctx life]. rewrite Hl. by destruct (triggered =? 0). Qed.

Lemma node_end_ok w f : core 0 w -> leaving w f -> exists w', node_end w f = Some w' /\ core 0 w' /\ quiet w'.
Proof.
  intros H [Hl Hs [Hk Hn] Hq]. unfold node_end, live. rewrite Hl. cbn [negb]. destruct (f_end f) as [[evs d]|].
  - destruct (Z.eqb_spec (nodes_active (ctx w)) 0) as [Ha|Ha]; cbn [mbind option_bind].
    + assert (core 0 (foldl add_log w evs) /\ life (foldl add_log w evs) = Live /\ nodes_active (ctx (foldl add_log w evs)) = 0 /\
        works (foldl add_log w evs) = works w /\ next_work (foldl add_log w evs) = next_work w) as (C & L & A & W & N).
      { clear -H Hl Ha. revert w H Hl Ha. induction evs as [|e evs IH]; intros w H Hl Ha; [done|]. cbn [foldl].
        destruct (IH (add_log w e)) as (? & ? & ? & -> & ->); [by destruct H; constructor|done..]. }
      destruct (release_ctx_ok _ (Some d) C L A) as (w3 & E3 & C3 & Q3 & K1 & K2 & K3). cbn [called] in E3. rewrite E3. cbn [mbind option_bind].
      eexists. split; [reflexivity|]. apply free_work_ok; congruence || (rewrite K3, N; done) || done.
    + eexists. split; [reflexivity|]. apply free_work_ok; try done. intros _ Hz. destruct Ha. destruct (i_live _ _ H Hl) as [-> _]. lia.
  - cbn [mbind option_bind]. eexists. split; [reflexivity|]. apply free_work_ok; try done. intros _. by apply Hq.
Qed.

Lemma node_leave_ok w j work node output : targets_ok -> core 1 w -> life w = Live -> started w = true -> works w !! j = None -> (j < next_work w)%nat -> nodes wf !! w_node work = Some node ->
  exists w' f, node_leave w j work node output = Some (w', f) /\ core 0 w' /\ leaving w' f.
Proof.
  intros Hok H Hl Hs Hj Hjn Hnode. unfold node_leave, live. rewrite Hl. cbn [negb]. destruct (record_ok 1 w (w_node work) node output H) as (H0 & Rw & Rl & Rs & Ro & Rc & Rn).
  set (w0 := record_output w (w_node work) node output) in *. cbv zeta. clearbody w0. rewrite Hl in Rl. rewrite Hs in Rs.
  assert (forall w2, core 1 w2 -> grown w0 w2 -> forall e, (e = None -> 0 < outstanding w2 \/ is_paused (ctx w2) = true) ->
    core 0 (leave w2) /\ leaving (leave w2) (mk_finish j work e)) as Hlv.
  { intros w2 C2 G e He. assert (life w2 = Live) as L2 by (by rewrite (g_life _ _ G)). destruct (leave_ok 0 w2 C2 L2) as (C3 & O3 & L3). split; [done|].
    constructor; cbn [f_key f_end]; [done|cbn; by rewrite (g_started _ _ G)| |].
    - cbn. rewrite (g_works _ _ G) by lia. split; [by rewrite Rw|]. pose proof (g_next _ _ G). lia.
    - intros He'. rewrite O3. intros Hz. destruct (He He'); [lia|done]. }
  destruct (is_terminated (ctx w0)) eqn:Et; [eexists _, _; split; [reflexivity|]; by apply Hlv; [|apply grown_refl|]|].
  assert (exists w' f, ('(w2, triggered) ← dispatch w0 node output;
      Some (leave w2, mk_finish j work (if triggered =? 0 then Some ([WF_EV_END], output) else None))) = Some (w', f) /\ core 0 w' /\ leaving w' f) as Hnorm.
  { destruct (dispatch_ok 1 w0 (w_node work) node output Hok Hnode H0 Rl Rs Et) as (w2 & tr & E2 & C2 & G2 & P2 & Q2). rewrite E2. cbn [mbind option_bind].
    eexists _, _. split; [reflexivity|]. apply Hlv; [done..|]. destruct (Z.eqb_spec tr 0); [done|]. intros _. apply Q2. lia. }
  destruct output as [d|]; [done|]. destruct (error_target node) as [t|] eqn:Ee; [|done].
  destruct (execute_ok 1 w0 t None H0 Rl Rs (proj2 (Hok _ _ Hnode) t Ee)) as (w2 & E2 & C2 & G2 & Q2). rewrite E2. cbn [mbind option_bind].
  eexists _, _. split; [reflexivity|]. apply Hlv; auto.
Qed.

Lemma works_live w k x : core 0 w -> works w !! k = Some x -> life w = Live /\ started w = true.
Proof.
  intros H Hx. assert (works w <> ∅) as Hne by (intros E; by rewrite E, lookup_empty in Hx). assert (0 < outstanding w) as Ho.
  { unfold outstanding, pend. assert (size (works w) <> 0%nat); [by rewrite map_size_non_empty_iff|]. destruct (pending w); lia. }
  assert (life w = Live) as Hl by (destruct (decide (life w = Live)); [done|]; destruct (i_dead _ _ H) as (? & _); [done|lia]). split; [done|].
  destruct (started w) eqn:Es; [done|]. by destruct (i_started _ _ H Es Hl).
Qed.

(** A work in the hands of [after_worker_cb]. *)
Lemma take_work_ok w j work : core 0 w -> works w !! j = Some work -> core 1 (set_works w (delete j (works w))).
Proof.
  intros H Hj. destruct (works_live w j work H Hj) as [Hl Hs]. pose proof (map_size_delete_Some j (works w) (mk_is_Some _ _ Hj)) as Hsz.
  assert (size (works w) <> 0%nat) as Hne by (rewrite map_size_non_empty_iff; intros E; by rewrite E, lookup_empty in Hj).
  destruct H as [H1 H2 H3 H4 H5 H6 H7 H8 H9 H10 H11]. constructor; try done; cbn.
  - intros _. destruct (H3 Hl) as [E Hc]. split; [|done]. unfold outstanding, pend in *. cbn. lia.
  - intros i x [_ Hx]%lookup_delete_Some. by apply (H5 i x).
  - intros i Hi. destruct (H6 i Hi). split; [|done]. apply lookup_delete_None. by right.
  - intros Hs'. congruence.
Qed.

Lemma after_worker_begin_ok w j work output : targets_ok -> core 0 w -> quiet w -> works w !! j = Some work ->
  exists w' f, after_worker_begin w j work output = Some (w', f) /\ core 0 w' /\ match f with Some f => leaving w' f | None => quiet w' end.
Proof.
  intros Hok H Hq Hj. destruct (works_live w j work H Hj) as [Hl Hs]. destruct (i_works _ _ H j work Hj) as [Hv Hjn]. unfold after_worker_begin, live. destruct (lookup_lt_is_Some_2 (nodes wf) _ Hv) as [node Hnode]. rewrite Hnode. cbn [mbind option_bind].
  pose proof (take_work_ok w j work H Hj) as H1. set (w1 := set_works w (delete j (works w))) in *.
  assert (forall o, exists w' f, ('(w, f) ← node_leave w1 j work node o; Some (w, Some f)) = Some (w', f) /\ core 0 w' /\ match f with Some f => leaving w' f | None => quiet w' end) as Hd.
  { intros o. destruct (node_leave_ok w1 j work node o Hok H1 Hl Hs) as (w' & f & E & C & L); [cbn; by rewrite lookup_delete_eq|done|done|]. rewrite E. cbn [mbind option_bind]. by eexists _, _. }
  destruct (if is_timed_out work then None else output) as [d|]; [apply Hd|]. destruct (_ <? _); [|apply Hd]. unfold w1. cbn [set_works life]. rewrite Hl. cbn [negb]. eexists _, _. split; [reflexivity|]. clear Hd H1 w1.
  destruct H as [H1 H2 H3 H4 H5 H6 H7 H8 H9 H10 H11]. assert (forall x : node_work_t, size (<[j := x]> (delete j (works w))) = size (works w)) as Hsz2 by (intros x; by rewrite insert_delete_eq, map_size_insert_Some by (by eexists)).
  split; [|intros _ Ho; apply Hq; [done|]; unfold outstanding, pend in *; cbn in Ho; rewrite Hsz2 in Ho; done].
  constructor; try done; cbn.
  - intros _. destruct (H3 Hl) as [E Hc]. split; [|done]. unfold outstanding, pend in *. cbn. rewrite Hsz2. lia.
  - intros i x. rewrite insert_delete_eq, lookup_insert. case_decide as Hi; [intros [= <-]; subst; done|apply H5].
  - intros i Hi. destruct (H6 i Hi) as [Hi1 Hi2]. rewrite insert_delete_eq, lookup_insert_ne by congruence. done.
  - intros Hs'. congruence.
Qed.

Lemma after_worker_ok w j work output : targets_ok -> core 0 w -> quiet w -> works w !! j = Some work -> exists w', after_worker_cb w j work output = Some w' /\ core 0 w' /\ quiet w'.
Proof.
  intros Hok H Hq Hj. unfold after_worker_cb. destruct (after_worker_begin_ok w j work output Hok H Hq Hj) as (w' & f & -> & C & L). cbn [mbind option_bind].
  destruct f as [f|]; [by apply node_end_ok|by exists w'].
Qed.

Lemma update_work_ok w j work work' : core 0 w -> quiet w -> works w !! j = Some work -> w_node work' = w_node work -> core 0 (set_works w (<[j := work']> (works w))) /\ quiet (set_works w (<[j := work']> (works w))).
Proof.
  intros H Hq Hj Hn. destruct (works_live w j work H Hj) as [Hl Hs]. assert (size (<[j := work']> (works w)) = size (works w)) as Hsz by (by rewrite map_size_insert_Some by (by eexists)).
  destruct H as [H1 H2 H3 H4 H5 H6 H7 H8 H9 H10 H11]. split; [|intros _; unfold outstanding, pend; cbn; rewrite Hsz; by apply Hq].
  constructor; try done; cbn; unfold outstanding, pend in *; cbn; rewrite ?Hsz; try done.
  - intros i x. rewrite lookup_insert. case_decide as Hi; [intros [= <-]; subst; rewrite Hn; by apply H5|apply H5].
  - intros i Hi. destruct (H6 i Hi). rewrite lookup_insert_ne by congruence. done.
  - congruence.
Qed.

Lemma run_step_ok w : core 0 w -> quiet w -> exists w', run_step w = Some w' /\ core 0 w' /\ quiet w'.
Proof.
  intros H Hq. unfold run_step. destruct (pending w) as [l|] eqn:Ep; [|by exists w].
  assert (life w = Live) as Hl. { destruct (decide (life w = Live)); [done|]. destruct (i_dead _ _ H) as (Ho & _); [done|]. unfold outstanding, pend in Ho. rewrite Ep in Ho. lia. }
  destruct l as [|n rest].
  - unfold live. rewrite Hl. cbn [negb]. set (w1 := leave (set_pending w None)). assert (outstanding w1 = outstanding w - 1) as Ho by (unfold outstanding, pend; cbn; rewrite Ep; lia).
    destruct (i_live _ _ H Hl) as [E Hc]. destruct (started w) eqn:Es.
    + assert (core 0 w1) as C1.
      { destruct H as [H1 H2 H3 H4 H5 H6 H7 H8 H9 H10 H11]. constructor; try done; cbn; [intros _; rewrite Ho; split; [lia|done]|congruence]. }
      change (started w1) with (started w). rewrite Es. destruct (Z.eqb_spec (nodes_active (ctx w1)) 0) as [Ea|Ea].
      * destruct (release_ctx_ok w1 None C1 Hl Ea) as (w' & E' & C' & Q' & _). by exists w'.
      * exists w1. split; [done|]. split; [done|]. intros _ Hz. destruct Ea. destruct (i_live _ _ C1 Hl) as [-> _]. lia.
    + destruct (i_started _ _ H Es Hl) as (Hw & Hr & _). assert (outstanding w = 1) as Ho1 by (unfold outstanding, pend; rewrite Hw, Hr, Ep; done).
      change (started w1) with (started w). rewrite Es. assert (nodes_active (ctx (add_callback w1 None)) = 0) as -> by (cbn; lia). unfold _wf_cleanup_ctx, live. cbn. rewrite Hl. cbn. eexists. split; [reflexivity|].
      split; [|by destruct (0 <? ttl_sec wf)]. destruct H as [H1 H2 H3 H4 H5 H6 H7 H8 H9 H10 H11].
      constructor; try done; cbn; try (by destruct (0 <? ttl_sec wf)). intros _. rewrite Hc. split; [|done]. unfold outstanding, pend in *. cbn. rewrite Hw, Hr. done.
  - assert (started w = true) as Hs. { destruct (started w) eqn:Es; [done|]. destruct (i_started _ _ H Es Hl) as (_ & _ & Hp). congruence. }
    pose proof (i_pending _ _ H _ Ep) as [Hv Hvs]%Forall_cons. destruct (execute_ok 0 w n (initial_input w) H Hl Hs Hv) as (w1 & E1 & C1 & G1 & _). rewrite E1. cbn [mbind option_bind].
    assert (pending w1 = Some (n :: rest)) as Ep1 by (by rewrite (g_pending _ _ G1)). eexists. split; [reflexivity|].
    assert (outstanding (set_pending w1 (Some rest)) = outstanding w1) as Ho by (unfold outstanding, pend; cbn; by rewrite Ep1).
    split; [|intros _; rewrite Ho; unfold outstanding, pend; rewrite Ep1; lia].
    pose proof (g_started _ _ G1) as Gs. destruct C1 as [H1 H2 H3 H4 H5 H6 H7 H8 H9 H10 H11]. constructor; try done; cbn; rewrite ?Ho; try done; [|congruence]. by intros l [= <-].
Qed.

Lemma remove_first_spec n l rest : remove_one n l = Some rest -> length l = S (length rest) /\ n ∈ l /\ forall m, m ∈ rest -> m ∈ l.
Proof.
  revert rest. induction l as [|m l IH]; intros rest E; [done|]. cbn [remove_one] in E. destruct (decide (n = m)) as [->|Hne].
  - injection E as <-. split; [done|]. split; [by left|]. intros m' Hm. by right.
  - destruct (remove_one n l) as [r|] eqn:Er; [|done]. injection E as <-. destruct (IH r eq_refl) as (L & I & S). cbn. split; [lia|]. split; [by right|]. intros m' [->|Hm]%elem_of_cons; [by left|right; auto].
Qed.

Lemma wf_step_ok w e : targets_ok -> core 0 w -> quiet w -> exists w', step w e = Some w' /\ core 0 w' /\ quiet w'.
Proof.
  intros Hok H Hq. assert (exists w', Some w = Some w' /\ core 0 w' /\ quiet w') as Hid by (by exists w). destruct e as [|k o|k|k|k| | |n o]; cbn [step].
  - by apply run_step_ok.
  - destruct (works w !! k) as [work|] eqn:Ek; [|done]. destruct (waiting work); [done|]. by apply after_worker_ok.
  - destruct (works w !! k) as [work|] eqn:Ek; [|done]. destruct (armed work); [|done]. eexists. split; [reflexivity|]. by apply (update_work_ok w k work).
  - destruct (works w !! k) as [work|] eqn:Ek; [|done]. destruct (waiting work); [|done]. unfold live. destruct (works_live w k work H Ek) as [-> _]. cbn [negb]. eexists. split; [reflexivity|]. by apply (update_work_ok w k work).
  - eexists. split; [reflexivity|]. split; [|done]. destruct H as [H1 H2 H3 H4 H5 H6 H7 H8 H9 H10 H11]. constructor; try done. cbn. intros j [Hj _]%elem_of_difference. by apply H6.
  - destruct (ttl_armed w) eqn:Et; [|done]. pose proof (i_ttl _ _ H Et) as Hl. unfold live. rewrite Hl. cbn [negb]. eexists. split; [reflexivity|]. split; [|intros _; exact (Hq Hl)].
    destruct H as [H1 H2 H3 H4 H5 H6 H7 H8 H9 H10 H11]. constructor; try done; cbn; [intros _; exact (H3 Hl)|intros Hs _; exact (H10 Hs Hl)].
  - destruct (life w) eqn:El; try done. eexists. split; [reflexivity|]. split; [|done]. destruct H as [H1 H2 H3 H4 H5 H6 H7 H8 H9 H10 H11]. constructor; try done; cbn. intros _. apply H4. by rewrite El.
  - destruct (remove_one n (remote w)) as [rest|] eqn:Er; [|done]. unfold live. destruct (life w) eqn:Hl; try done. destruct (remove_first_spec _ _ _ Er) as (L & I & S).
    assert (started w = true) as Hs. { destruct (started w) eqn:Es; [done|]. destruct (i_started _ _ H Es Hl) as (_ & Hr & _). rewrite Hr in L. done. }
    unfold on_remote_result. pose proof (proj1 (Forall_forall _ _) (i_remote _ _ H) n I) as Hv.
    destruct (execute_ok 0 (set_remote (set_ctx w (set_active (set_approved (ctx w) (<[n := true]> (node_approved (ctx w)))) (nodes_active (ctx w) - 1))) rest) n (Some o)) as (w' & E' & C' & G' & Q'); try done.
    + destruct H as [H1 H2 H3 H4 H5 H6 H7 H8 H9 H10 H11]. constructor; try done; cbn; try congruence.
      * by rewrite length_insert.
      * intros _. destruct (H3 Hl) as [E Hc]. split; [|done]. unfold outstanding, pend in *. cbn. rewrite L in E. lia.
      * apply Forall_forall. intros m Hm. apply (proj1 (Forall_forall _ _) H7). auto.
      * intros _. apply H11. intros E. by rewrite E in L.
    + exists w'. split; [done|]. split; [done|]. intros _ _. apply (g_paused _ _ G'). apply (i_offload _ _ H). intros E. by rewrite E in L.
Qed.

Lemma entries_valid : Forall valid entry_nodes.
Proof.
  unfold entry_nodes. assert (forall P `{!forall n, Decision (P n)}, Forall valid (filter P (seq 0 (length (nodes wf))))) as Hf.
  { intros P HP. apply Forall_forall. intros n [_ Hn]%list_elem_of_filter. apply elem_of_seq in Hn. unfold valid. lia. }
  pose proof (Hf (fun n => is_entry <$> nodes wf !! n = Some true) _) as Hm. destruct (filter _ _); [apply Forall_take, Hf|done].
Qed.

Lemma run_begin_ok input : core 0 (run_begin input) /\ quiet (run_begin input).
Proof.
  assert (forall w, works w = ∅ -> forall j x, works w !! j = Some x -> valid (w_node x) /\ (j < next_work w)%nat) as Hw by (intros w -> j x; by rewrite lookup_empty).
  unfold run_begin. destruct (nodes wf) as [|x l] eqn:E; (split; [|done]); constructor; unfold new_ctx; cbn -[replicate]; rewrite ?length_replicate; try done; try (by apply Hw); try (intros j Hj; by apply elem_of_empty in Hj).
  - intros l' [= <-]. apply entries_valid.
  - intros Hs%negb_false_iff%bool_decide_eq_true _. by rewrite Hs.
Qed.

Lemma steps_ok es : forall w, targets_ok -> core 0 w -> quiet w -> exists w', steps w es = Some w' /\ core 0 w' /\ quiet w'.
Proof.
  induction es as [|e es IH]; intros w Hok H Hq; [by exists w|]. cbn [steps]. destruct (wf_step_ok w e Hok H Hq) as (w1 & -> & C1 & Q1). cbn [mbind option_bind]. by apply IH.
Qed.

(** The other thread starts a node between the halves. *)
Lemma run_step_between w f : core 0 w -> leaving w f -> pending w <> Some [] -> exists w', run_step w = Some w' /\ core 0 w' /\ leaving w' f.
Proof.
  intros H [Hl Hs [Hk Hn] Hq] Hp. unfold run_step. destruct (pending w) as [[|n rest]|] eqn:Ep; [done| |by exists w].
  pose proof (i_pending _ _ H _ Ep) as [Hv Hvs]%Forall_cons. destruct (execute_ok 0 w n (initial_input w) H Hl Hs Hv) as (w1 & E1 & C1 & G1 & _). rewrite E1. cbn [mbind option_bind].
  assert (pending w1 = Some (n :: rest)) as Ep1 by (by rewrite (g_pending _ _ G1)). eexists. split; [reflexivity|].
  assert (outstanding (set_pending w1 (Some rest)) = outstanding w1) as Ho by (unfold outstanding, pend; cbn; by rewrite Ep1).
  pose proof (g_started _ _ G1) as Gs. pose proof (g_next _ _ G1). split.
  - destruct C1 as [H1 H2 H3 H4 H5 H6 H7 H8 H9 H10 H11]. constructor; try done; cbn; rewrite ?Ho; try done; [|congruence]. by intros l [= <-].
  - constructor; cbn; [by rewrite (g_life _ _ G1)|by rewrite Gs|rewrite (g_works _ _ G1) by lia; split; [done|lia]|].
    intros _. rewrite Ho. unfold outstanding, pend. rewrite Ep1. lia.
Qed.

(** The state of the two threads. *)
Definition fine_ok (x : fine) : Prop := core 0 (st x) /\ match mid x with Some f => leaving (st x) f | None => quiet (st x) end.

Lemma fine_step_ok x e : targets_ok -> fine_ok x -> clash x e = false -> exists x', fine_step x e = Some x' /\ fine_ok x'.
Proof.
  intros Hok [H M] Hc. destruct x as [w [f|]]; unfold clash in Hc; cbn [st mid fine_step] in *.
  - assert (exists x', Some (mk_fine w (Some f)) = Some x' /\ fine_ok x') as Hid by (by eexists). destruct e as [e|].
    + destruct e; try done. destruct (run_step_between w f H M) as (w' & -> & C & L); [by intros E; rewrite E in Hc|]. cbn [mbind option_bind]. by eexists.
    + destruct (node_end_ok w f H M) as (w' & -> & C & Q). cbn [mbind option_bind]. by eexists.
  - assert (exists x', Some (mk_fine w None) = Some x' /\ fine_ok x') as Hid by (by eexists). destruct e as [e|]; [|done].
    assert (exists x', (w ← step w e; Some (mk_fine w None)) = Some x' /\ fine_ok x') as Hstep.
    { destruct (wf_step_ok w e Hok H M) as (w' & -> & C & Q). cbn [mbind option_bind]. by eexists. }
    destruct e as [|k o|k|k|k| | |n o]; try exact Hstep. destruct (works w !! k) as [work|] eqn:Ek; [|done]. destruct (waiting work); [done|].
    destruct (after_worker_begin_ok w k work o Hok H M Ek) as (w' & f & -> & C & L). cbn [mbind option_bind]. by eexists.
Qed.

Lemma fine_steps_ok es : forall x, targets_ok -> fine_ok x -> no_clash x es = true -> exists x', fine_steps x es = Some x' /\ fine_ok x'.
Proof.
  induction es as [|e es IH]; intros x Hok H Hc; [by exists x|]. cbn [fine_steps no_clash] in *. apply andb_prop in Hc as [Hn%negb_true_iff Hc].
  destruct (fine_step_ok x e Hok H Hn) as (x1 & E & H1). rewrite E in *. cbn [mbind option_bind]. by apply IH.
Qed.

End engine.

Lemma graph_targets wf : graph_ok wf -> targets_ok wf.
Proof. intros [G1 G2 G3] n node Hn. split; [by apply (G1 n)|by apply (G2 n)]. Qed.


(** ** A concrete workflow *)

(** Node [a], then [b] and [c] side by side, then [d]. *)
Definition diamond_ops : list build_op :=
  [BAdd (lit "a") true true; BAdd (lit "b") true true; BAdd (lit "c") true true; BAdd (lit "d") true true;
   BEdge 0 None 1 true; BEdge 0 None 2 true; BEdge 1 None 3 true; BEdge 2 None 3 true; BEntry 0 true].
Definition wf_of (os : list build_op) : csilk_wf_t := default csilk_wf_new (build_wf csilk_wf_new os).
Definition diamond : csilk_wf_t := wf_of diamond_ops.

Definition no_json (_ : bytes) : option unit := None.
Definition data (t : string) : option csilk_data_t := Some (mk_data (Some (lit t)) (Some (lit "v")) None).

(** What happens in a workflow: the end of the context, the log and the callbacks. *)
Definition outcome (os : list build_op) (es : list event) : option (lifetime * list wf_event * list (option csilk_data_t)) :=
  w ← steps no_json (fun _ => []) (fun _ _ => false) (wf_of os) (run_begin (wf_of os) None) es; Some (life w, log w, callbacks w).

(** Entry nodes [a] and [b] before [c]; [b] is started while the loop is in the
    middle of the completion of [a]. *)
Definition join_ops : list build_op :=
  [BAdd (lit "a") true true; BAdd (lit "b") true true; BAdd (lit "c") true true; BEdge 0 None 2 true; BEdge 1 None 2 true; BEntry 0 true; BEntry 1 true].
Definition join_events : list fine_event :=
  [FEvent ERun; FEvent (EDone 0 (data "x")); FEvent ERun; FEnd; FEvent ERun; FEvent (EDone 1 (data "x")); FEnd; FEvent (EDone 2 (data "y")); FEnd].


(** ** Observations *)

(** The join policy of a node is never read: a node that waits for any input
    waits for all of them. *)
Example or_join_waits_for_all :
  outcome ([BAdd (lit "a") true true; BAdd (lit "b") true true; BAdd (lit "c") true true; BEdge 0 None 2 true; BEdge 1 None 2 true; BJoin 2 CSILK_WF_JOIN_OR; BEntry 0 true]) [ERun; ERun; EDone 0 (data "x")] =
  Some (Released, [WF_EV_START None; WF_EV_NODE_START (lit "a"); WF_EV_NODE_FINISH (lit "a") (data "x"); WF_EV_END], [data "x"]).
Proof. by vm_compute. Qed.

(** Edges whose condition does not hold are still waited for: after a choice
    between [b] and [c] the node [d] behind both never runs. *)
Example alternatives_never_join :
  outcome [BAdd (lit "a") true true; BAdd (lit "b") true true; BAdd (lit "c") true true; BAdd (lit "d") true true;
     BEdge 0 (Some (lit "x")) 1 true; BEdge 0 (Some (lit "y")) 2 true; BEdge 1 None 3 true; BEdge 2 None 3 true; BEntry 0 true] [ERun; ERun; EDone 0 (data "x"); EDone 1 (data "z")] =
  Some (Released, [WF_EV_START None; WF_EV_NODE_START (lit "a"); WF_EV_NODE_FINISH (lit "a") (data "x"); WF_EV_NODE_START (lit "b"); WF_EV_NODE_FINISH (lit "b") (data "z"); WF_EV_END], [data "z"]).
Proof. by vm_compute. Qed.

(** A node that is the target of a loop waits for the loop before its first run. *)
Example loop_target_never_starts :
  outcome [BAdd (lit "a") true true; BAdd (lit "b") true true; BAdd (lit "c") true true; BEdge 0 None 1 true; BEdge 1 None 2 true; BEdge 2 (Some (lit "again")) 1 true; BEntry 0 true] [ERun; ERun; EDone 0 (data "x")] =
  Some (Released, [WF_EV_START None; WF_EV_NODE_START (lit "a"); WF_EV_NODE_FINISH (lit "a") (data "x"); WF_EV_END], [data "x"]).
Proof. by vm_compute. Qed.

(** A node that timed out once has no result any more: the flag is not reset, and
    the result of a successful retry is dropped. *)
Example retry_after_timeout_is_dropped :
  outcome [BAdd (lit "a") true true; BTimeout 0 100; BRetry 0 1 0; BEntry 0 true] [ERun; ERun; ETimeout 0; EDone 0 None; EDone 0 (data "x")] =
  Some (Released, [WF_EV_START None; WF_EV_NODE_START (lit "a"); WF_EV_NODE_FINISH (lit "a") None; WF_EV_END], [None]).
Proof. by vm_compute. Qed.

(** The limit on the number of steps holds for edges only: a router can go on. *)
Example router_passes_step_limit :
  (w ← steps no_json (fun _ => []) (fun _ _ => false) (wf_of [BAdd (lit "a") true true; BRoute 0 (Some (fun _ => Some (lit "a"))); BEntry 0 true])
     (run_begin (wf_of [BAdd (lit "a") true true; BRoute 0 (Some (fun _ => Some (lit "a"))); BEntry 0 true]) None) (ERun :: ERun :: map (fun k => EDone k None) (seq 0 1005));
   Some (MAX_WORKFLOW_STEPS <? total_executions (ctx w))) = Some true.
Proof. by vm_compute. Qed.

(** An entry node that needs an approval: the context is released at once, without
    a call of the callback. *)
Example paused_entry_is_released : outcome [BAdd (lit "a") true true; BInteractive 0 true; BEntry 0 true] [ERun; ERun] = Some (Released, [WF_EV_START None; WF_EV_PAUSE (lit "a") None], []).
Proof. by vm_compute. Qed.

(** While [b] waits for its approval the end of its sibling [c] ends the run. *)
Example sibling_ends_paused_run :
  outcome [BAdd (lit "a") true true; BAdd (lit "b") true true; BAdd (lit "c") true true; BEdge 0 None 1 true; BEdge 0 None 2 true; BInteractive 1 true; BEntry 0 true] [ERun; ERun; EDone 0 (data "x"); EDone 1 (data "y")] =
  Some (Released, [WF_EV_START None; WF_EV_NODE_START (lit "a"); WF_EV_NODE_FINISH (lit "a") (data "x"); WF_EV_PAUSE (lit "b") (data "x"); WF_EV_NODE_START (lit "c"); WF_EV_NODE_FINISH (lit "c") (data "y"); WF_EV_END], [data "y"]).
Proof. by vm_compute. Qed.

(** When the nodes finish before [csilk_wf_run] returns, the callback is not called. *)
Example early_end_loses_callback : outcome [BAdd (lit "a") true true; BEntry 0 true] [ERun; EDone 0 (data "x"); ERun] =
  Some (Released, [WF_EV_START None; WF_EV_NODE_START (lit "a"); WF_EV_NODE_FINISH (lit "a") (data "x")], []).
Proof. by vm_compute. Qed.

(** When [csilk_wf_run] drops its count between the decrement of
    [nodes_active] by the loop and its second reading, both see zero: the loop
    goes on with a context that was released, and releases it again. *)
Example decrement_race :
  let os := [BAdd (lit "a") true true; BEntry 0 true] in
  let run es := fine_steps no_json (fun _ => []) (fun _ _ => false) (wf_of os) (mk_fine (run_begin (wf_of os) None) None) es in
  (fun x => (life (st x), nodes_active (ctx (st x)))) <$> run [FEvent ERun; FEvent (EDone 0 None); FEvent ERun] = Some (Released, 0) /\
  run [FEvent ERun; FEvent (EDone 0 None); FEvent ERun; FEnd] = None.
Proof. by vm_compute. Qed.

(** [csilk_wf_free] releases the contexts of running executions. *)
Definition csilk_wf_free_contexts (wf : csilk_wf_t) (w : run_state) : option run_state := if live w then _wf_cleanup_ctx wf w else Some w.

Example free_while_running :
  (w ← steps no_json (fun _ => []) (fun _ _ => false) diamond (run_begin diamond None) [ERun; ERun]; w ← csilk_wf_free_contexts diamond w; steps no_json (fun _ => []) (fun _ _ => false) diamond w [EDone 0 None]) = None.
Proof. by vm_compute. Qed.
