(* ===== verification/WorkflowDag.v ===== *)
(** * Acyclic workflows

    What the engine of Workflow promises for a graph without cycles, conditions,
    routers, error targets and approvals, whose entry nodes are those without
    incoming edges: from a start, or from the state a log leads to, every node
    that is not finished runs exactly once, after all nodes it depends on, in
    whatever order works complete, fail, time out and are retried; then the
    completion callback is called. *)

From stdpp Require Import gmap.
From S2P Require Import Prelude Workflow.

#[local] Open Scope Z_scope.

(** ** Logs *)

Definition finished (l : list wf_event) : list bytes := omap (fun e => match e with WF_EV_NODE_FINISH i _ => Some i | _ => None end) l.
Definition begun (l : list wf_event) : list bytes := omap (fun e => match e with WF_EV_NODE_START i => Some i | _ => None end) l.

Lemma finished_app a b : finished (a ++ b) = finished a ++ finished b.
Proof. apply omap_app. Qed.
Lemma begun_app a b : begun (a ++ b) = begun a ++ begun b.
Proof. apply omap_app. Qed.

Section dag.
Context {json : Type} (parse : bytes -> option json) (required : json -> list bytes) (has : json -> bytes -> bool).
Context (wf : csilk_wf_t).

Definition node_id (n : nat) : bytes := match nodes wf !! n with Some x => id x | None => [] end.
Definition edges_from (n : nat) : list csilk_wf_edge_t := match nodes wf !! n with Some x => edges x | None => [] end.
Definition incoming (n : nat) : Z := match nodes wf !! n with Some x => incoming_count x | None => 0 end.

(** The number of edges of a list that lead to [v]. *)
Definition into (l : list csilk_wf_edge_t) (v : nat) : Z := Z.of_nat (length (filter (fun e => target e = v) l)).
Definition edges_of (l : list nat) : list csilk_wf_edge_t := concat (map edges_from l).

(** A log in which a node starts when what it depends on has finished, finishes
    once and after it started, and the end comes when all have finished. *)
Inductive log_ok : list wf_event -> Prop :=
| lo_nil : log_ok []
| lo_start l i : log_ok l -> log_ok (l ++ [WF_EV_START i])
| lo_node l v : log_ok l -> valid wf v -> node_id v ∉ finished l -> (forall u e, e ∈ edges_from u -> target e = v -> node_id u ∈ finished l) -> log_ok (l ++ [WF_EV_NODE_START (node_id v)])
| lo_finish l v o : log_ok l -> valid wf v -> node_id v ∈ begun l -> node_id v ∉ finished l -> log_ok (l ++ [WF_EV_NODE_FINISH (node_id v) o])
| lo_end l : log_ok l -> (forall v, valid wf v -> node_id v ∈ finished l) -> log_ok (l ++ [WF_EV_END]).

Lemma log_ok_prefix l1 l2 : log_ok (l1 ++ l2) -> log_ok l1.
Proof.
  induction l2 as [|e l2 IH] using rev_ind; [by rewrite app_nil_r|]. rewrite (assoc_L (++)). intros H. apply IH. inversion H as [E|l i Hl E|l v Hl _ _ _ E|l v o Hl _ _ _ E|l Hl _ E]; try (apply app_inj_tail in E as [<- _]; done).
  symmetry in E. by apply app_nil in E as [_ ?].
Qed.

(** ** The graph *)

Record dag (rank : nat -> nat) : Prop := {
  d_plain : forall n x, nodes wf !! n = Some x -> router_fn x = None /\ error_target x = None /\ is_interactive x = false /\ is_remote x = false /\ Forall (fun e => condition e = None) (edges x);
  d_entry : forall n x, nodes wf !! n = Some x -> is_entry x = true <-> incoming_count x = 0;
  d_rank : forall n e, e ∈ edges_from n -> (rank n < rank (target e))%nat;
  d_size : Z.of_nat (length (nodes wf)) <= MAX_WORKFLOW_STEPS;
  d_budget : max_tokens wf <= 0;
  d_ttl : ttl_sec wf <= 0;
  d_ids : NoDup (map id (nodes wf));
}.

Context (rank : nat -> nat) (D : dag rank) (G : graph_ok wf).

Lemma node_id_inj u v : valid wf u -> valid wf v -> node_id u = node_id v -> u = v.
Proof.
  unfold valid, node_id. intros Hu Hv. destruct (lookup_lt_is_Some_2 _ _ Hu) as [x Hx], (lookup_lt_is_Some_2 _ _ Hv) as [y Hy]. rewrite Hx, Hy. intros E.
  apply (NoDup_lookup (map id (nodes wf)) u v (id x) (d_ids _ D)); rewrite list_lookup_fmap; [by rewrite Hx|rewrite Hy; cbn; by rewrite E].
Qed.

Lemma into_app a b v : into (a ++ b) v = into a v + into b v.
Proof. unfold into. rewrite filter_app, length_app. lia. Qed.
Lemma into_nonneg l v : 0 <= into l v.
Proof. unfold into. lia. Qed.
Lemma into_perm a b v : a ≡ₚ b -> into a v = into b v.
Proof. intros P. unfold into. by rewrite P. Qed.
Lemma into_cons e l v : into (e :: l) v = (if decide (target e = v) then 1 else 0) + into l v.
Proof. unfold into. rewrite filter_cons. destruct (decide _); cbn [length]; lia. Qed.
Lemma into_pos e l : e ∈ l -> 0 < into l (target e).
Proof. intros [l1 [l2 ->]]%list_elem_of_split. rewrite into_app, into_cons, decide_True by done. pose proof (into_nonneg l1 (target e)). pose proof (into_nonneg l2 (target e)). lia. Qed.

Lemma edges_of_cons n l v : into (edges_of (n :: l)) v = into (edges_from n) v + into (edges_of l) v.
Proof. unfold edges_of. cbn [map concat]. apply into_app. Qed.
Lemma edges_of_app a b : edges_of (a ++ b) = edges_of a ++ edges_of b.
Proof. unfold edges_of. by rewrite map_app, concat_app. Qed.
Lemma edges_of_perm a b v : a ≡ₚ b -> into (edges_of a) v = into (edges_of b) v.
Proof. induction 1; rewrite ?edges_of_cons; try lia. Qed.

(** All edges, and the number of them that lead to a node. *)
Lemma edges_of_all v : valid wf v -> into (edges_of (seq 0 (length (nodes wf)))) v = incoming v.
Proof.
  intros Hv. unfold incoming. destruct (lookup_lt_is_Some_2 _ _ Hv) as [x Hx]. rewrite Hx, (gr_count _ G v x Hx). unfold into, edges_to. do 2 f_equal. f_equal. unfold edges_of. f_equal.
  apply list_eq. intros i. rewrite !list_lookup_fmap. destruct (decide (i < length (nodes wf))%nat) as [Hi|Hi].
  - rewrite lookup_seq_lt by done. cbn. unfold edges_from. destruct (lookup_lt_is_Some_2 _ _ Hi) as [y Hy]. by rewrite Hy.
  - rewrite lookup_seq_ge, lookup_ge_None_2 by lia. done.
Qed.

(** A set of nodes that has all edges into [v] has all nodes with such an edge. *)
Lemma edges_of_split l : NoDup l -> Forall (valid wf) l -> exists l', l ++ l' ≡ₚ seq 0 (length (nodes wf)).
Proof.
  intros N V. assert (l ⊆+ seq 0 (length (nodes wf))) as [l' P]%submseteq_Permutation; [|by exists l'].
  apply NoDup_submseteq; [done|]. intros n Hn. apply elem_of_seq. pose proof (proj1 (Forall_forall _ _) V n Hn) as Hv. unfold valid in Hv. lia.
Qed.

Lemma into_le l v : NoDup l -> Forall (valid wf) l -> valid wf v -> into (edges_of l) v <= incoming v.
Proof.
  intros N V Hv. destruct (edges_of_split l N V) as [l' P]. rewrite <- edges_of_all by done. rewrite <- (edges_of_perm _ _ v P), edges_of_app, into_app. pose proof (into_nonneg (edges_of l') v). lia.
Qed.

Lemma into_all l v u e : NoDup l -> Forall (valid wf) l -> valid wf v -> into (edges_of l) v = incoming v -> e ∈ edges_from u -> target e = v -> u ∈ l.
Proof.
  intros N V Hv E He <-. destruct (decide (u ∈ l)) as [|Hu]; [done|]. exfalso. assert (valid wf u) as Hvu.
  { unfold valid. apply lookup_lt_is_Some_1. unfold edges_from in He. destruct (nodes wf !! u); [by eexists|by apply elem_of_nil in He]. }
  pose proof (into_le (u :: l) (target e) ltac:(by constructor) ltac:(by constructor) Hv) as Hle. rewrite edges_of_cons in Hle. pose proof (into_pos e (edges_from u) He). lia.
Qed.

Lemma valid_length l : NoDup l -> Forall (valid wf) l -> (length l <= length (nodes wf))%nat.
Proof. intros N V. destruct (edges_of_split l N V) as [l' P%Permutation_length]. rewrite length_app, length_seq in P. lia. Qed.

(** ** The state of a run *)

Definition active (w : run_state) : list nat := map (fun p => w_node p.2) (map_to_list (works w)).

Lemma active_insert ws k x : ws !! k = None -> map (fun p : nat * node_work_t => w_node p.2) (map_to_list (<[k := x]> ws)) ≡ₚ w_node x :: map (fun p => w_node p.2) (map_to_list ws).
Proof. intros H. by rewrite (map_to_list_insert ws k x H). Qed.

Lemma active_delete (ws : gmap nat node_work_t) k x : ws !! k = Some x -> map (fun p : nat * node_work_t => w_node p.2) (map_to_list ws) ≡ₚ w_node x :: map (fun p => w_node p.2) (map_to_list (delete k ws)).
Proof. intros H. rewrite <- (active_insert (delete k ws) k x) by apply lookup_delete_eq. by rewrite insert_delete_id. Qed.

(** The run continues after the log [l0], in which the nodes [F0] have finished.  [F]:
    the nodes finished by now; [S]: those started by this run; [P]: nodes that are
    to be started next; [fired]: the edges that were followed, all edges of
    finished nodes but [rem]. *)
Context (l0 : list wf_event) (F0 : list nat).

Record dinv (P : list nat) (rem : list csilk_wf_edge_t) (F S : list nat) (fired : list csilk_wf_edge_t) (w : run_state) : Prop := {
  dv_life : life w = Live;
  dv_terminated : is_terminated (ctx w) = false;
  dv_ttl : ttl_armed w = false;
  dv_remote : remote w = [];
  dv_run : started w = true;
  dv_base : forall v, v ∈ F0 -> v ∈ F;
  dv_fired : fired ++ rem ≡ₚ edges_of F;
  dv_perm : F0 ++ S ≡ₚ F ++ active w;
  dv_nodup : NoDup (F0 ++ S);
  dv_valid : Forall (valid wf) (F0 ++ S);
  dv_ready : forall v, valid wf v -> into fired v = incoming v <-> v ∈ (F0 ++ S) ++ P;
  dv_next : NoDup ((F0 ++ S) ++ P) /\ Forall (valid wf) P;
  dv_counts : forall v, valid wf v -> v ∉ (F0 ++ S) ++ P -> node_input_counts (ctx w) !! v = Some (into fired v);
  dv_executions : total_executions (ctx w) <= Z.of_nat (length (F0 ++ S));
  dv_log : log_ok (l0 ++ log w);
  dv_finished : finished (l0 ++ log w) ≡ₚ map node_id F;
  dv_begun : begun (log w) = map node_id S;
}.

Lemma dinv_F P rem F S fired w : dinv P rem F S fired w -> NoDup F /\ Forall (valid wf) F.
Proof.
  intros H. pose proof (dv_nodup _ _ _ _ _ _ H) as N. pose proof (dv_valid _ _ _ _ _ _ H) as V. rewrite (dv_perm _ _ _ _ _ _ H) in N, V.
  apply NoDup_app in N as (N & _). by apply Forall_app in V as [V _].
Qed.

(** What a ready node depends on has finished. *)
Lemma ready_deps P rem F S fired w v : dinv P rem F S fired w -> valid wf v -> into fired v = incoming v -> forall u e, e ∈ edges_from u -> target e = v -> u ∈ F.
Proof.
  intros H Hv Hi u e He Ht. destruct (dinv_F _ _ _ _ _ _ H) as [N V]. apply (into_all F v u e N V Hv); try done.
  pose proof (into_le F v N V Hv) as Hle. rewrite <- (into_perm _ _ v (dv_fired _ _ _ _ _ _ H)), into_app in *. pose proof (into_nonneg rem v). lia.
Qed.

(** The node [n] put on the thread pool. *)
Definition start (w : run_state) (n : nat) (input : option csilk_data_t) : run_state :=
  let ms := match nodes wf !! n with Some x => timeout_ms x | None => 0 end in
  let c := ctx w in
  let w := add_log w (WF_EV_NODE_START (node_id n)) in
  let w := set_ctx w (set_active (set_executions c (total_executions c + 1)) (nodes_active c + 1)) in
  set_next (set_works w (<[next_work w := mk_work n input 0 false (0 <? ms) (0 <? ms) false]> (works w))) (S (next_work w)).

Lemma execute_start k w n input : core wf k w -> life w = Live -> is_terminated (ctx w) = false -> valid wf n -> execute_node wf w n input = Some (start w n input).
Proof.
  intros H Hl Ht Hv. unfold execute_node, start, live. rewrite Hl. cbn [negb]. unfold node_id. destruct (lookup_lt_is_Some_2 _ _ Hv) as [x Hx]. rewrite Hx. cbn [mbind option_bind].
  destruct (lookup_lt_is_Some_2 (node_approved (ctx w)) n) as [ap ->]; [by rewrite (i_approved _ _ _ H)|]. cbn [mbind option_bind]. rewrite Ht. destruct (d_plain _ D n x Hx) as (_ & _ & -> & -> & _). done.
Qed.

Lemma start_ok k P rem F S fired w v input : core wf k w -> dinv (v :: P) rem F S fired w -> dinv P rem F (S ++ [v]) fired (start w v input).
Proof.
  intros C H. pose proof (fresh_work _ _ _ C) as Hf. pose proof H as [H1 H2 H3 H4 H5 H5' H6 H7 H8 H9 H10 [H11 H11'] H12 H13 H14 H15 H16].
  apply Forall_cons in H11' as [Hv HP]. assert (into fired v = incoming v) as Hr by (apply H10; [done|]; apply elem_of_app; right; by left).
  assert (forall x, x ∈ (F0 ++ S ++ [v]) ++ P <-> x ∈ (F0 ++ S) ++ v :: P) as Hin by (intros x; rewrite !elem_of_app, list_elem_of_singleton, elem_of_cons; tauto).
  assert ((F0 ++ S ++ [v]) ++ P ≡ₚ (F0 ++ S) ++ v :: P) as Hp by (rewrite !(assoc_L (++)), <- (assoc_L (++) _ [v] P); done).
  assert (v ∉ F) as HvF. { intros HF. apply NoDup_app in H11 as (_ & Hd & _). apply (Hd v); [|by left]. rewrite H7. apply elem_of_app. by left. }
  constructor; try done; cbn.
  - unfold active. cbn. rewrite active_insert by done. cbn. rewrite (assoc_L (++)), H7. unfold active. rewrite <- (assoc_L (++)), <- Permutation_cons_append. done.
  - rewrite <- Hp in H11. by apply NoDup_app in H11 as [? _].
  - rewrite (assoc_L (++)). apply Forall_app. split; [done|by constructor].
  - intros x Hx. rewrite Hin. by apply H10.
  - split; [by rewrite Hp|done].
  - intros x Hx. rewrite Hin. by apply H12.
  - rewrite (assoc_L (++)), length_app. cbn [length]. lia.
  - rewrite (assoc_L (++)). apply lo_node; [done|done| |].
    + rewrite H15. intros (u & Eu & Hu)%list_elem_of_fmap. destruct (dinv_F _ _ _ _ _ _ H) as [_ V]. apply node_id_inj in Eu; [by subst|done|by apply (proj1 (Forall_forall _ _) V)].
    + intros u e He Ht. rewrite H15. apply list_elem_of_fmap. exists u. split; [done|]. by apply (ready_deps _ _ _ _ _ _ v H Hv Hr u e).
  - rewrite (assoc_L (++)), finished_app. cbn. by rewrite app_nil_r.
  - by rewrite begun_app, H16, map_app.
Qed.

Lemma start_core k w v input : core wf k w -> life w = Live -> started w = true -> is_terminated (ctx w) = false -> valid wf v -> core wf k (start w v input) /\ grown w (start w v input).
Proof. intros C Hl Hs Ht Hv. destruct (execute_ok wf k w v input C Hl Hs Hv) as (w' & E & C' & Gr & _). rewrite (execute_start k) in E by done. by injection E as <-. Qed.

(** Following one more edge: its target becomes ready, or its count grows. *)
Lemma fire_ok k e rem F S fired w : core wf k w -> dinv [] (e :: rem) F S fired w -> valid wf (target e) ->
  let c := into fired (target e) in
  node_input_counts (ctx w) !! target e = Some c /\ total_executions (ctx w) < MAX_WORKFLOW_STEPS /\ 0 <= c < incoming (target e) /\
  (forall z, c + 1 = incoming (target e) -> dinv [target e] rem F S (fired ++ [e]) (set_ctx w (set_counts (ctx w) (<[target e := z]> (node_input_counts (ctx w)))))) /\
  (c + 1 <> incoming (target e) -> dinv [] rem F S (fired ++ [e]) (set_ctx w (set_counts (ctx w) (<[target e := c + 1]> (node_input_counts (ctx w)))))).
Proof.
  intros C H Hv c. set (v := target e) in *. destruct (dinv_F _ _ _ _ _ _ H) as [N V]. pose proof (into_le F v N V Hv) as Hle. pose proof H as [H1 H2 H3 H4 H5 H5' H6 H7 H8 H9 H10 [H11 H11'] H12 H13 H14 H15 H16].
  rewrite <- (into_perm _ _ v H6), into_app, into_cons in Hle. fold v in Hle. rewrite decide_True in Hle by done. fold c in Hle. pose proof (into_nonneg rem v). pose proof (into_nonneg fired v) as Hc0. fold c in Hc0.
  rewrite app_nil_r in *. assert (v ∉ F0 ++ S) as Hns. { intros Hin. apply H10 in Hin; [|done]. unfold c in *. lia. }
  assert (NoDup ((F0 ++ S) ++ [v])) as Nv by (apply NoDup_app; split; [done|]; split; [intros x Hx ->%list_elem_of_singleton; done|apply NoDup_singleton]).
  assert (Forall (valid wf) ((F0 ++ S) ++ [v])) as Vv by (apply Forall_app; split; [done|by constructor]).
  pose proof (valid_length _ Nv Vv) as Hlen. rewrite length_app in Hlen. cbn [length] in Hlen. pose proof (d_size _ D) as Hsz.
  assert (node_input_counts (ctx w) !! v = Some c) as Hcnt by (by apply H12).
  assert (forall x, into (fired ++ [e]) x = into fired x + (if decide (v = x) then 1 else 0)) as Hinto.
  { intros x. rewrite into_app, into_cons. fold v. change (into [] x) with 0. lia. }
  assert ((fired ++ [e]) ++ rem ≡ₚ edges_of F) as Hf by (rewrite <- (assoc_L (++)); exact H6).
  split; [done|]. split; [unfold MAX_WORKFLOW_STEPS in *; lia|]. split; [lia|]. split.
  - intros z Hz. constructor; try done; cbn.
    + intros x Hx. rewrite Hinto, elem_of_app, list_elem_of_singleton. specialize (H10 x Hx). destruct (decide (v = x)) as [<-|Hne]; [unfold c in *; intuition lia|].
      rewrite Z.add_0_r, H10. split; [by left|]. intros [?|?]; [done|congruence].
    + split; [done|by constructor].
    + intros x Hx. rewrite elem_of_app, list_elem_of_singleton, Hinto. intros Hn. assert (v <> x) as Hne by (intros ->; apply Hn; by right). rewrite decide_False, list_lookup_insert_ne, Z.add_0_r by done. apply H12; [done|]. tauto.
  - intros Hz. constructor; try done; cbn.
    + intros x Hx. rewrite Hinto, app_nil_r. specialize (H10 x Hx). destruct (decide (v = x)) as [<-|Hne]; [unfold c in *; split; [lia|done]|]. by rewrite Z.add_0_r.
    + by rewrite app_nil_r.
    + intros x Hx. rewrite app_nil_r, Hinto. intros Hn. destruct (decide (v = x)) as [<-|Hne].
      * rewrite list_lookup_insert_eq; [done|]. by eapply lookup_lt_Some.
      * rewrite list_lookup_insert_ne by done. rewrite Z.add_0_r. by apply H12.
Qed.

Lemma follow_dag k output : forall rem w tr F S fired, core wf k w -> dinv [] rem F S fired w -> Forall (fun e => condition e = None /\ valid wf (target e)) rem ->
  exists w' tr' S' fired', follow_edges wf w rem output tr = Some (w', tr') /\ core wf k w' /\ grown w w' /\ dinv [] [] F S' fired' w' /\ tr <= tr' /\ (tr < tr' -> works w' <> ∅).
Proof.
  induction rem as [|e rem IH]; intros w tr F S fired C H He; [exists w, tr, S, fired; split; [done|]; split; [done|]; split; [apply grown_refl|]; split; [done|]; split; lia|].
  apply Forall_cons in He as [[Hc Hv] He]. cbn [follow_edges]. unfold edge_matches. rewrite Hc. cbn [negb]. unfold live. rewrite (dv_life _ _ _ _ _ _ H). cbn [negb].
  destruct (lookup_lt_is_Some_2 _ _ Hv) as [t Ht]. rewrite Ht. cbn [mbind option_bind]. destruct (fire_ok k e rem F S fired w C H Hv) as (-> & Hx & Hci & Hfire & Hwait). cbn [mbind option_bind].
  rewrite (proj2 (Z.ltb_lt _ _) Hx). assert (incoming (target e) = incoming_count t) as Ei by (unfold incoming; by rewrite Ht).
  rewrite (proj2 (Z.eqb_neq (incoming_count t) 0)) by lia. pose proof (i_counts _ _ _ C) as Hlen. destruct (Z.leb_spec (incoming_count t) (into fired (target e) + 1)) as [Hle|Hgt].
  - destruct (counts_ok wf k w (<[target e := 0]> (node_input_counts (ctx w))) C) as [C1 G1]; [by rewrite length_insert|]. assert (dinv [target e] rem F S (fired ++ [e]) (set_ctx w (set_counts (ctx w) (<[target e := 0]> (node_input_counts (ctx w)))))) as H1 by (apply Hfire; lia).
    set (w1 := set_ctx w (set_counts (ctx w) (<[target e := 0]> (node_input_counts (ctx w))))) in *. pose proof (dv_life _ _ _ _ _ _ H1) as L1. pose proof (dv_terminated _ _ _ _ _ _ H1) as T1. pose proof (dv_run _ _ _ _ _ _ H1) as R1.
    rewrite (execute_start k) by done. cbn [mbind option_bind]. destruct (start_core k w1 (target e) output C1 L1 R1 T1 Hv) as [C2 G2]. pose proof (start_ok k [] rem F S (fired ++ [e]) w1 (target e) output C1 H1) as H2.
    destruct (IH _ (tr + 1) F _ _ C2 H2 He) as (w' & tr' & S' & fired' & E' & C' & G' & H' & Htr & Hw). exists w', tr', S', fired'. split; [done|]. split; [done|].
    split; [by apply (grown_trans _ _ _ G1), (grown_trans _ _ _ G2)|]. split; [done|]. split; [lia|]. intros _ Hempty.
    pose proof (g_works _ _ G' (next_work w1) ltac:(cbn; lia)) as Hg. rewrite Hempty, lookup_empty in Hg. cbn in Hg. by rewrite lookup_insert_eq in Hg.
  - destruct (counts_ok wf k w (<[target e := into fired (target e) + 1]> (node_input_counts (ctx w))) C) as [C1 G1]; [by rewrite length_insert|].
    destruct (IH _ tr F S (fired ++ [e]) C1) as (w' & tr' & S' & fired' & E' & C' & G' & H' & Htr & Hw); [apply Hwait; lia|done|]. exists w', tr', S', fired'. split; [done|]. split; [done|].
    split; [by apply (grown_trans _ _ _ G1)|done].
Qed.

(** The invariant speaks of the nodes of the works only. *)
Lemma dinv_works P rem F S fired w ws : dinv P rem F S fired w -> map (fun p => w_node p.2) (map_to_list ws) ≡ₚ active w -> dinv P rem F S fired (set_works w ws).
Proof. intros [H1 H2 H3 H4 H5 H5' H6 H7 H8 H9 H10 H11 H12 H13 H14 H15 H16] Hp. constructor; try done. unfold active. cbn. by rewrite Hp. Qed.

Lemma record_dag F S fired w j work output : dinv [] [] F S fired w -> works w !! j = Some work ->
  dinv [] (edges_from (w_node work)) (F ++ [w_node work]) S fired (record_output wf (set_works w (delete j (works w))) (w_node work) (default (new_node []) (nodes wf !! w_node work)) output).
Proof.
  intros H Hj. set (n := w_node work). pose proof H as [H1 H2 H3 H4 H5 H5' H6 H7 H8 H9 H10 H11 H12 H13 H14 H15 H16]. rewrite app_nil_r in H6.
  pose proof (active_delete (works w) j work Hj) as Ha. fold n in Ha. assert (n ∈ F0 ++ S) as Hn by (rewrite H7; apply elem_of_app; right; unfold active; rewrite Ha; by left).
  assert (valid wf n) as Hv by (by apply (proj1 (Forall_forall _ _) H9)). assert (n ∉ F) as HnF. { rewrite H7 in H8. apply NoDup_app in H8 as (_ & Hd & _). intros HF. apply (Hd n HF). unfold active. rewrite Ha. by left. }
  assert (id (default (new_node []) (nodes wf !! n)) = node_id n) as Hid by (unfold node_id; destruct (lookup_lt_is_Some_2 _ _ Hv) as [x ->]; done).
  assert (is_terminated (ctx (record_output wf (set_works w (delete j (works w))) n (default (new_node []) (nodes wf !! n)) output)) = false) as Ht.
  { unfold record_output. pose proof (d_budget _ D). rewrite (proj2 (Z.ltb_ge 0 (max_tokens wf))) by lia. done. }
  constructor; try done; try (unfold record_output; destruct (_ && _); done).
  - intros v Hv'. apply elem_of_app. left. auto.
  - rewrite H6, edges_of_app. unfold edges_of at 3. cbn. by rewrite app_nil_r.
  - unfold active, record_output. destruct (_ && _); cbn; rewrite <- (assoc_L (++)); cbn; rewrite <- Ha; exact H7.
  - unfold record_output. destruct (_ && _); cbn; rewrite Hid, (assoc_L (++)); (apply lo_finish; [done|done| |]).
    1, 3: rewrite begun_app, H16; apply elem_of_app; right; apply list_elem_of_fmap; exists n; split; [done|]; apply elem_of_app in Hn as [Hn|]; [destruct HnF; auto|done].
    all: rewrite H15; intros (u & Eu & Hu)%list_elem_of_fmap; destruct (dinv_F _ _ _ _ _ _ H) as [_ V]; apply node_id_inj in Eu; [by subst|done|by apply (proj1 (Forall_forall _ _) V)].
  - unfold record_output. destruct (_ && _); cbn; rewrite Hid, (assoc_L (++)), finished_app, map_app, H15; done.
  - unfold record_output. destruct (_ && _); cbn; rewrite begun_app, H16; cbn; by rewrite app_nil_r.
Qed.

Lemma into_none l v : (forall u e, u ∈ l -> e ∈ edges_from u -> target e <> v) -> into (edges_of l) v = 0.
Proof.
  induction l as [|n l IH]; intros H; [done|]. rewrite edges_of_cons, IH by (intros u e Hu; apply H; by right). unfold into. rewrite filter_none; [done|]. intros e He. apply (H n); [by left|done].
Qed.

Lemma into_some l v : into (edges_of l) v <> 0 -> exists u e, u ∈ l /\ e ∈ edges_from u /\ target e = v.
Proof.
  induction l as [|n l IH]; intros H; [done|]. rewrite edges_of_cons in H. destruct (decide (into (edges_of l) v = 0)) as [E|E].
  - unfold into in H at 1. destruct (filter (fun e => target e = v) (edges_from n)) as [|e l'] eqn:Ef; [cbn in H; lia|]. assert (e ∈ filter (fun e => target e = v) (edges_from n)) as He by (rewrite Ef; by left).
    apply list_elem_of_filter in He as [Ht He]. exists n, e. split; [by left|done].
  - destruct (IH E) as (u & e & Hu & R). exists u, e. split; [by right|done].
Qed.

(** When no work is left, every node has finished. *)
Lemma all_finished F S fired w : dinv [] [] F S fired w -> works w = ∅ -> forall v, valid wf v -> v ∈ F.
Proof.
  intros H Hw. assert (F0 ++ S ≡ₚ F) as HF. { rewrite (dv_perm _ _ _ _ _ _ H). unfold active. rewrite Hw, map_to_list_empty. by rewrite app_nil_r. }
  destruct (dinv_F _ _ _ _ _ _ H) as [N V]. destruct (edges_of_split F N V) as [F' P]. pose proof (dv_fired _ _ _ _ _ _ H) as Hf. rewrite app_nil_r in Hf.
  intros v. remember (rank v) as r eqn:Er. revert v Er. induction (lt_wf r) as [r _ IH]. intros v -> Hv. rewrite <- HF. pose proof (proj1 (dv_ready _ _ _ _ _ _ H v Hv)) as Hr. rewrite app_nil_r in Hr. apply Hr.
  rewrite (into_perm _ _ v Hf), <- edges_of_all by done. rewrite <- (edges_of_perm _ _ v P), edges_of_app, into_app. rewrite (into_none F'); [lia|].
  intros u e Hu He <-. assert (valid wf u) as Hvu. { assert (u ∈ seq 0 (length (nodes wf))) as Hs by (rewrite <- P; apply elem_of_app; by right). apply elem_of_seq in Hs. unfold valid. lia. }
  assert (u ∈ F) as HuF by (apply (IH (rank u) (d_rank _ D u e He) u); done). pose proof (NoDup_seq 0 (length (nodes wf))) as Ns. rewrite <- P in Ns. apply NoDup_app in Ns as (_ & Hd & _). by apply (Hd u).
Qed.

(** ** Steps of a run *)

Definition running (w : run_state) : Prop := pending w = None /\ works w <> ∅ /\ exists F S fired, dinv [] [] F S fired w.

(** All nodes finished, the new ones once each, and the callback was called. *)
Record completed (w : run_state) : Prop := {
  cp_life : life w = Released;
  cp_works : works w = ∅;
  cp_ttl : ttl_armed w = false;
  cp_idle : remote w = [] /\ pending w = None;
  cp_callback : length (callbacks w) = 1%nat;
  cp_log : log_ok (l0 ++ log w);
  cp_all : forall v, valid wf v -> node_id v ∈ finished (l0 ++ log w);
  cp_end : last (log w) = Some WF_EV_END;
  cp_new : exists S, begun (log w) = map node_id S /\ NoDup (F0 ++ S) /\ Forall (valid wf) (F0 ++ S);
}.

Lemma free_work_running w j work : running w -> running (free_work w j work).
Proof.
  intros (Hp & Hw & F & S & fired & H). unfold free_work. destruct (timer_initialized work); [|by split; [|split; [|eauto]]]. split; [done|]. split; [done|]. exists F, S, fired. by destruct H; constructor.
Qed.

Lemma free_work_completed w j work : completed w -> completed (free_work w j work).
Proof. intros [H1 H2 H3 H4 H5 H6 H7 H8 H9]. unfold free_work. destruct (timer_initialized work); by constructor. Qed.

Lemma node_done_dag w j work output : core wf 0 w -> running w -> works w !! j = Some work ->
  exists w', ('(w1, f) ← node_leave wf (set_works w (delete j (works w))) j work (default (new_node []) (nodes wf !! w_node work)) output; node_end wf w1 f) = Some w' /\ (running w' \/ completed w').
Proof.
  intros C (Hp & _ & F & S & fired & H) Hj. pose proof (i_works _ _ _ C j work Hj) as [Hv _]. pose proof (record_dag F S fired w j work output H Hj) as H0. pose proof (take_work_ok wf w j work C Hj) as C1.
  unfold node_leave, live. cbn [set_works life]. rewrite (dv_life _ _ _ _ _ _ H). cbn [negb]. set (node := default (new_node []) (nodes wf !! w_node work)) in *.
  destruct (record_ok wf 1 (set_works w (delete j (works w))) (w_node work) node output C1) as (C0 & _ & _ & _ & _ & _ & _). assert (pending (record_output wf (set_works w (delete j (works w))) (w_node work) node output) = None) as P0 by (unfold record_output; by destruct (_ && _)).
  set (w0 := record_output wf _ _ _ _) in *. clearbody w0. cbv zeta. rewrite (dv_terminated _ _ _ _ _ _ H0). destruct (lookup_lt_is_Some_2 _ _ Hv) as [x Hx]. assert (node = x) as En by (unfold node; by rewrite Hx).
  destruct (d_plain _ D _ _ Hx) as (Hr & He & _ & _ & Hcond). rewrite En, He. unfold dispatch. rewrite Hr.
  assert (edges_from (w_node work) = edges x) as Ee by (unfold edges_from; by rewrite Hx). rewrite Ee in H0.
  destruct (follow_dag 1 output (edges x) w0 0 _ _ _ C0 H0) as (w2 & tr & S' & fired' & E2 & C2 & G2 & H2 & Htr & Hw2).
  { apply Forall_and. split; [done|]. exact (gr_edges _ G _ _ Hx). }
  pose proof (g_pending _ _ G2) as P2. rewrite P0 in P2. pose proof (dv_life _ _ _ _ _ _ H2) as L2. destruct (leave_ok wf 0 w2 C2 L2) as (C3 & O3 & L3). destruct (i_live _ _ _ C3 L3) as [A3 B3].
  assert (outstanding w2 = Z.of_nat (size (works w2))) as Ho by (unfold outstanding, pend; rewrite P2, (dv_remote _ _ _ _ _ _ H2); cbn; lia). rewrite O3, Ho in A3.
  assert (forall o : option csilk_data_t, exists w', ('(w4, triggered) ← follow_edges wf w0 (edges x) output 0;
      node_end wf (leave w4) (mk_finish j work (if triggered =? 0 then Some ([WF_EV_END], o) else None))) = Some w' /\ (running w' \/ completed w')) as Hgoal.
  { intros o. rewrite E2. cbn [mbind option_bind]. rewrite (node_end_normal _ _ _ _ _ _ L2). destruct (decide (works w2 = ∅)) as [Hemp|Hne].
    - assert (tr = 0) as -> by (destruct (decide (tr = 0)); [done|]; destruct Hw2; [lia|done]). rewrite A3, Hemp. cbn [mbind option_bind]. unfold _wf_cleanup_ctx, live. cbn. rewrite L2. cbn. eexists. split; [reflexivity|]. right.
      apply free_work_completed. pose proof (d_ttl _ D). rewrite (proj2 (Z.ltb_ge 0 (ttl_sec wf))) by lia. pose proof (all_finished _ _ _ _ H2 Hemp) as Hall. pose proof (dv_finished _ _ _ _ _ _ H2) as Hfin. pose proof (dv_begun _ _ _ _ _ _ H2) as Eb.
      assert (forall v, valid wf v -> node_id v ∈ finished (l0 ++ log w2)) as Hallf by (intros v Hv'; rewrite Hfin; apply list_elem_of_fmap; exists v; split; [done|auto]).
      constructor; try done; cbn.
      + split; [exact (dv_remote _ _ _ _ _ _ H2)|done].
      + cbn in B3. by rewrite B3.
      + rewrite (assoc_L (++)). apply lo_end; [exact (dv_log _ _ _ _ _ _ H2)|done].
      + intros v Hv'. rewrite (assoc_L (++)), finished_app. cbn. rewrite app_nil_r. auto.
      + apply last_snoc.
      + exists S'. rewrite begun_app, Eb. cbn. rewrite app_nil_r. split; [done|]. split; [exact (dv_nodup _ _ _ _ _ _ H2)|exact (dv_valid _ _ _ _ _ _ H2)].
    - assert (size (works w2) <> 0%nat) by (by rewrite map_size_non_empty_iff). rewrite (proj2 (Z.eqb_neq (nodes_active (ctx (leave w2))) 0)) by lia. rewrite andb_false_r. cbn [mbind option_bind]. eexists. split; [reflexivity|]. left.
      apply free_work_running. split; [done|]. split; [done|]. exists (F ++ [w_node work]), S', fired'. by destruct H2; constructor. }
  destruct (Hgoal output) as (w' & E' & R'). exists w'. split; [|done]. rewrite <- E', E2. by destruct output.
Qed.

Lemma work_update_running w j work work' : running w -> works w !! j = Some work -> w_node work' = w_node work -> running (set_works w (<[j := work']> (works w))).
Proof.
  intros (Hp & Hw & F & S & fired & H) Hj Hn. split; [done|]. split; [cbn; intros E; by apply insert_non_empty in E|]. exists F, S, fired. apply dinv_works; [done|]. unfold active.
  rewrite <- insert_delete_eq, active_insert by apply lookup_delete_eq. rewrite (active_delete (works w) j work Hj), Hn. done.
Qed.

Lemma step_dag w e : core wf 0 w -> running w -> exists w', step parse required has wf w e = Some w' /\ (running w' \/ completed w').
Proof.
  intros C R. pose proof R as (Hp & _ & F & S & fired & H). assert (exists w', Some w = Some w' /\ (running w' \/ completed w')) as Hid by (exists w; split; [done|by left]). pose proof (dv_life _ _ _ _ _ _ H) as Hl.
  destruct e as [|k o|k|k|k| | |n o]; cbn [step].
  - unfold run_step. by rewrite Hp.
  - destruct (works w !! k) as [work|] eqn:Ek; [|done]. destruct (waiting work); [done|]. unfold after_worker_cb, after_worker_begin. pose proof (i_works _ _ _ C k work Ek) as [Hv _]. pose proof (fun o => node_done_dag w k work o C R Ek) as Hd.
    destruct (lookup_lt_is_Some_2 _ _ Hv) as [x Hx]. rewrite Hx in *. cbn [default mbind option_bind from_option Datatypes.id] in *. destruct (if is_timed_out work then None else o) as [d|]; [|destruct (_ <? _)].
    1, 3: match goal with |- context [node_leave _ _ _ _ _ ?o'] => destruct (Hd o') as (w' & E' & R') end; exists w'; (split; [|done]); rewrite <- E'; by destruct (node_leave _ _ _ _ _ _) as [[? ?]|].
    unfold live. cbn [set_works life]. rewrite Hl. cbn [negb]. eexists. split; [reflexivity|]. left. unfold set_works. cbn [works]. rewrite insert_delete_eq. by apply (work_update_running w k work).
  - destruct (works w !! k) as [work|] eqn:Ek; [|done]. destruct (armed work); [|done]. eexists. split; [reflexivity|]. left. by apply (work_update_running w k work).
  - destruct (works w !! k) as [work|] eqn:Ek; [|done]. destruct (waiting work); [|done]. unfold live. rewrite Hl. cbn [negb]. eexists. split; [reflexivity|]. left. by apply (work_update_running w k work).
  - eexists. split; [reflexivity|]. left. destruct R as (_ & Hw & _). split; [done|]. split; [done|]. exists F, S, fired. by destruct H; constructor.
  - rewrite (dv_ttl _ _ _ _ _ _ H). done.
  - by rewrite Hl.
  - by rewrite (dv_remote _ _ _ _ _ _ H).
Qed.

Lemma step_completed w e : completed w -> exists w', step parse required has wf w e = Some w' /\ completed w'.
Proof.
  intros R. pose proof R as [H1 H2 H3 [H4 H4'] H5 H6 H7 H8 H9]. assert (exists w', Some w = Some w' /\ completed w') as Hid by (by exists w). destruct e as [|k o|k|k|k| | |n o]; cbn [step].
  - unfold run_step. by rewrite H4'.
  - by rewrite H2, lookup_empty.
  - by rewrite H2, lookup_empty.
  - by rewrite H2, lookup_empty.
  - eexists. split; [reflexivity|]. by constructor.
  - by rewrite H3.
  - by rewrite H1.
  - by rewrite H4.
Qed.

Lemma steps_dag es : forall w, core wf 0 w -> quiet w -> running w -> exists w', steps parse required has wf w es = Some w' /\ (running w' \/ completed w') /\ core wf 0 w'.
Proof.
  assert (targets_ok wf) as Hok by apply graph_targets, G.
  assert (forall es w, core wf 0 w -> quiet w -> completed w -> exists w', steps parse required has wf w es = Some w' /\ completed w' /\ core wf 0 w') as Hc.
  { clear es. induction es as [|e es IH]; intros w C Q R; [by exists w|]. cbn [steps]. destruct (step_completed w e R) as (w1 & E1 & R1). destruct (wf_step_ok parse required has wf w e Hok C Q) as (w1' & E1' & C1 & Q1).
    rewrite E1 in E1'. injection E1' as <-. rewrite E1. cbn [mbind option_bind]. by apply IH. }
  induction es as [|e es IH]; intros w C Q R; [exists w; split; [done|]; split; [by left|done]|]. cbn [steps]. destruct (step_dag w e C R) as (w1 & E1 & R1). destruct (wf_step_ok parse required has wf w e Hok C Q) as (w1' & E1' & C1 & Q1).
  rewrite E1 in E1'. injection E1' as <-. rewrite E1. cbn [mbind option_bind]. destruct R1 as [R1|R1]; [by apply IH|]. destruct (Hc es w1 C1 Q1 R1) as (w' & E' & R' & C'). exists w'. split; [done|]. split; [by right|done].
Qed.

(** ** Starting *)

Lemma start_works w v input : works (start w v input) <> ∅.
Proof. unfold start. cbn. apply insert_non_empty. Qed.

Lemma run_entries : forall P w F S fired, pending w = Some P -> core wf 0 w -> quiet w -> dinv P [] F S fired w -> P <> [] \/ works w <> ∅ ->
  exists w' S', steps parse required has wf w (replicate (length P) ERun) = Some w' /\ core wf 0 w' /\ quiet w' /\ pending w' = Some [] /\ dinv [] [] F S' fired w' /\ works w' <> ∅.
Proof.
  induction P as [|v P IH]; intros w F S fired Hp C Q H Hne; [exists w, S; split; [done|]; split_and!; try done; by destruct Hne|]. cbn [length replicate steps step]. destruct (run_step_ok wf w C Q) as (w1 & E1 & C1 & Q1). rewrite E1. cbn [mbind option_bind].
  unfold run_step in E1. rewrite Hp in E1. destruct (dv_next _ _ _ _ _ _ H) as [_ [Hv _]%Forall_cons]. rewrite (execute_start 0) in E1; [|done|exact (dv_life _ _ _ _ _ _ H)|exact (dv_terminated _ _ _ _ _ _ H)|done]. cbn [mbind option_bind] in E1. injection E1 as <-.
  pose proof (start_ok 0 P [] F S fired w v (initial_input w) C H) as H1. destruct (IH (set_pending (start w v (initial_input w)) (Some P)) F (S ++ [v]) fired) as (w' & S' & E' & R'); try done; [by destruct H1; constructor|right; apply start_works|]. by exists w', S'.
Qed.

Lemma entries_spec : nodes wf <> [] -> NoDup (entry_nodes wf) /\ entry_nodes wf <> [] /\ forall v, valid wf v -> v ∈ entry_nodes wf <-> incoming v = 0.
Proof.
  intros Hne. set (marked := filter (fun n => is_entry <$> nodes wf !! n = Some true) (seq 0 (length (nodes wf)))).
  assert (forall v, valid wf v -> v ∈ marked <-> incoming v = 0) as Hm.
  { intros v Hv. unfold marked. rewrite list_elem_of_filter, elem_of_seq. unfold incoming. destruct (lookup_lt_is_Some_2 _ _ Hv) as [x Hx]. rewrite Hx. cbn. rewrite <- (d_entry _ D v x Hx). unfold valid in Hv. split; [intros [[= ->] _]; done|intros ->; split; [done|lia]]. }
  assert (exists v, valid wf v /\ incoming v = 0) as (v & Hv & Hz).
  { assert (forall r v, rank v = r -> valid wf v -> exists u, valid wf u /\ incoming u = 0) as Hx; [|apply (Hx _ 0%nat eq_refl); destruct (nodes wf) eqn:En; [done|]; unfold valid; rewrite En; cbn; lia].
    intros r. induction (lt_wf r) as [r _ IH]. intros v <- Hv. destruct (decide (incoming v = 0)) as [|Hi]; [by exists v|]. rewrite <- edges_of_all in Hi by done.
    apply into_some in Hi as (u & e & Hu & He & <-). apply elem_of_seq in Hu. apply (IH (rank u) (d_rank _ D u e He) u eq_refl). unfold valid. lia. }
  assert (entry_nodes wf = marked) as ->. { unfold entry_nodes. fold marked. destruct marked eqn:Em; [|done]. exfalso. pose proof (proj2 (Hm v Hv) Hz) as Hin. by apply elem_of_nil in Hin. }
  split; [apply NoDup_filter, NoDup_seq|]. split; [|done]. intros E. pose proof (proj2 (Hm v Hv) Hz) as Hin. rewrite E in Hin. by apply elem_of_nil in Hin.
Qed.

Lemma ids_NoDup S : NoDup S -> Forall (valid wf) S -> NoDup (map node_id S).
Proof. intros N V. apply NoDup_fmap_2_strong; [|done]. intros x y Hx Hy. apply node_id_inj; by apply (proj1 (Forall_forall _ _) V). Qed.

End dag.

Lemma steps_app {json} (parse : bytes -> option json) required has wf a : forall w b, steps parse required has wf w (a ++ b) = (w' ← steps parse required has wf w a; steps parse required has wf w' b).
Proof. induction a as [|e a IH]; intros w b; [done|]. cbn [app steps]. destruct (step parse required has wf w e); [apply IH|done]. Qed.

(** After [csilk_wf_run] the entry nodes are on the thread pool. *)
Lemma run_started {json} (parse : bytes -> option json) required has wf rank input : dag wf rank -> graph_ok wf -> nodes wf <> [] ->
  exists w0, csilk_wf_run parse required has wf input = Some w0 /\ core wf 0 w0 /\ quiet w0 /\ running wf [] [] w0.
Proof.
  intros D G Hne. destruct (run_begin_ok wf input) as [C0 Q0]. destruct (entries_spec wf rank D G Hne) as (Ne & Hent & Hspec).
  assert (run_begin wf input = mk_run_state (set_active (new_ctx wf) 1) Live ∅ ∅ 0 (Some (entry_nodes wf)) true input [] [WF_EV_START input] [] false) as Eb.
  { unfold run_begin. destruct (nodes wf); [done|]. pose proof (d_ttl _ _ D). rewrite (proj2 (Z.ltb_ge 0 (ttl_sec wf))) by lia. by rewrite bool_decide_false. }
  unfold csilk_wf_run. rewrite Eb in *. set (wb := mk_run_state _ _ _ _ _ _ _ _ _ _ _ _) in *.
  assert (dinv wf [] [] (entry_nodes wf) [] [] [] [] wb) as H0.
  { pose proof (entries_valid wf) as Hv. constructor; try done; cbn -[replicate].
    - apply NoDup_nil_2.
    - intros v Hv'. change (into [] v) with 0. rewrite Hspec by done. split; by intros ->.
    - intros v Hv' _. rewrite lookup_replicate_2; [done|exact Hv'].
    - apply (lo_start wf []), lo_nil. }
  destruct (run_entries parse required has wf rank D G [] [] (entry_nodes wf) wb [] [] [] eq_refl C0 Q0 H0 (or_introl Hent)) as (w1 & S1 & E1 & C1 & Q1 & P1 & H1 & W1).
  rewrite replicate_S_end, steps_app, E1. cbn [mbind option_bind steps step]. pose proof (dv_life _ _ _ _ _ _ _ _ _ H1) as L1.
  destruct (run_step_ok wf w1 C1 Q1) as (w0 & Ew & Cw & Qw). rewrite Ew. cbn [mbind option_bind]. exists w0. split; [done|]. split; [done|]. split; [done|]. unfold run_step, live in Ew. rewrite P1, L1 in Ew. cbn [negb] in Ew.
  change (started (leave (set_pending w1 None))) with (started w1) in Ew. rewrite (dv_run _ _ _ _ _ _ _ _ _ H1) in Ew.
  assert (size (works w1) <> 0%nat) by (by rewrite map_size_non_empty_iff). destruct (i_live _ _ _ C1 L1) as [A1 _]. unfold outstanding, pend in A1. rewrite P1 in A1.
  rewrite (proj2 (Z.eqb_neq (nodes_active (ctx (leave (set_pending w1 None)))) 0)) in Ew by (cbn; lia). injection Ew as <-. split; [done|]. split; [done|]. exists [], S1, []. by destruct H1; constructor.
Qed.


Definition diamond_rank (n : nat) : nat := match n with O => 0%nat | 1%nat | 2%nat => 1%nat | _ => 2%nat end.

Lemma diamond_dag : dag diamond diamond_rank.
Proof.
  constructor.
  - intros [|[|[|[|n]]]] x Hx; [injection Hx as <-..|done]; (split_and!; [done..|]); by repeat constructor.
  - intros [|[|[|[|n]]]] x Hx; [injection Hx as <-..|done]; done.
  - intros [|[|[|[|n]]]] e He; cbn in He; repeat (apply elem_of_cons in He as [->|He]; [cbn; lia|]); by apply elem_of_nil in He.
  - done.
  - done.
  - done.
  - vm_compute. repeat (constructor; [rewrite ?not_elem_of_cons; split_and?; try done; apply not_elem_of_nil|]). constructor.
Qed.

