(* ===== verification/WorkflowWal.v ===== *)
(** * The log of the workflow engine, and resumption

    Models wf_wal.c (the payload of an event), workflow_wal.c (records, the queue
    of the writer thread) and wf_resume.c (replaying a log and restarting what is
    unfinished).  The file after a crash is any prefix of the bytes written.
    Together with WorkflowDag: an interrupted acyclic workflow is resumed and
    completed, and no finished node runs again.  Allocations succeed, except
    where the writer's queue says otherwise; the context of a resumed run has no
    TTL timer, so resuming a workflow with a TTL is undefined. *)

From stdpp Require Import gmap.
From S2P Require Import Prelude Workflow WorkflowDag.

#[local] Open Scope Z_scope.

(** ** Records *)

Definition CSILK_WF_MAGIC : Z := 0x5746414C.

Definition event_type (e : wf_event) : Z :=
  match e with
  | WF_EV_START _ => 1
  | WF_EV_NODE_START _ => 2
  | WF_EV_NODE_FINISH _ _ => 3
  | WF_EV_PAUSE _ _ => 4
  | WF_EV_END => 5
  end.

(** The three strings of the payload of [_wf_wal_log_event]. *)
Definition event_strings (e : wf_event) : bytes * bytes * bytes :=
  let '(nid, data) := match e with
    | WF_EV_START d => ([], d)
    | WF_EV_NODE_START i => (i, None)
    | WF_EV_NODE_FINISH i d => (i, d)
    | WF_EV_PAUSE i d => (i, d)
    | WF_EV_END => ([], None)
    end in
  let d_type := match data with Some d => default [] (dtype d) | None => [] end in
  let d_val := match data with Some d => default [] (dvalue d) | None => [] end in
  (nid, d_type, d_val).

Definition _wf_wal_log_event (e : wf_event) : bytes :=
  let '(nid, d_type, d_val) := event_strings e in nid ++ NUL :: d_type ++ NUL :: d_val ++ [NUL].

(** [csilk_wf_wal_header_t], packed. *)
Definition wal_header (type timestamp len : Z) : bytes := le 4 CSILK_WF_MAGIC ++ [chr type] ++ le 8 timestamp ++ le 4 len.

Definition encode_record (r : Z * wf_event) : bytes :=
  let p := _wf_wal_log_event r.2 in wal_header (event_type r.2) r.1 (Z.of_nat (length p)) ++ p.

Definition encode_log (l : list (Z * wf_event)) : bytes := concat (map encode_record l).

(** ** The queue of the writer thread *)

Record wal_task_t := mk_task { t_type : Z; t_payload : option bytes; t_len : Z }.

(** [writing]: the task that the thread has popped and not yet written. *)
Record wal := mk_wal { wal_queue : list wal_task_t; writing : option wal_task_t; wal_file : bytes }.

(** [ok] and [okp]: whether the allocations of the task and of its payload succeed. *)
Definition _wf_wal_append (w : wal) (type : Z) (payload : bytes) (ok okp : bool) : Z * wal :=
  if negb ok then (-1, w) else
  let p := if (0 <? Z.of_nat (length payload)) && okp then Some payload else None in
  (0, mk_wal (wal_queue w ++ [mk_task type p (Z.of_nat (length payload))]) (writing w) (wal_file w)).

Definition pop_task (w : wal) : wal :=
  match writing w, wal_queue w with
  | None, t :: q => mk_wal q (Some t) (wal_file w)
  | _, _ => w
  end.

Definition write_record (w : wal) (now : Z) : wal :=
  match writing w with
  | Some t => mk_wal (wal_queue w) None (wal_file w ++ wal_header (t_type t) now (t_len t) ++ (if 0 <? t_len t then default [] (t_payload t) else []))
  | None => w
  end.

(** Whether [_wf_wal_flush] returns. *)
Definition _wf_wal_flush (w : wal) : bool := bool_decide (length (wal_queue w) = 0%nat).

(** ** Reading *)

(** The records up to the first one that is cut off or has no magic number; the
    payload of an empty record is a null pointer. *)
Fixpoint read_records (fuel : nat) (f : bytes) : list (Z * option bytes) :=
  match fuel with
  | O => []
  | S fuel' =>
      if (length f <? 17)%nat then [] else
      if negb (of_le (take 4 f) =? CSILK_WF_MAGIC) then [] else
      let type := cval (nth 4 f NUL) in
      let len := of_le (take 4 (drop 13 f)) in
      let rest := drop 17 f in
      if len =? 0 then (type, None) :: read_records fuel' rest
      else if Z.of_nat (length rest) <? len then []
      else (type, Some (take (Z.to_nat len) rest)) :: read_records fuel' (drop (Z.to_nat len) rest)
  end.

(** The C string at the start of a buffer, which has to end in it. *)
Definition string_at (p : bytes) : option bytes := if bool_decide (NUL ∈ p) then Some (cstr p) else None.

Section resume.
Context (wf : csilk_wf_t).

Record replayed := mk_replayed {
  node_started : list bool;
  node_finished : list bool;
  counts : list Z;
  outputs : list (option csilk_data_t);
  paused : bool;
  wf_ended : bool;
  paused_node_id : option bytes;
}.

Definition replay_init : replayed :=
  let n := length (nodes wf) in mk_replayed (replicate n false) (replicate n false) (replicate n 0) (replicate n None) false false None.

(** [node_input_counts[target]++] for every edge. *)
Fixpoint bump (c : list Z) (es : list csilk_wf_edge_t) : option (list Z) :=
  match es with
  | [] => Some c
  | e :: es' => z ← c !! target e; bump (<[target e := z + 1]> c) es'
  end.

Definition replay_finish (r : replayed) (p : bytes) : option replayed :=
  node_id ← string_at p;
  let nid_len := Z.of_nat (length node_id) in
  let plen := Z.of_nat (length p) in
  if plen <=? nid_len + 1 then Some r else
  let q := drop (Z.to_nat (nid_len + 1)) p in
  data_type ← string_at q;
  let dtype_len := Z.of_nat (length data_type) in
  if plen <=? nid_len + 1 + dtype_len + 1 then Some r else
  data_val ← string_at (drop (Z.to_nat (dtype_len + 1)) q);
  match csilk_wf_get_node wf node_id with
  | None => Some r
  | Some i =>
      n ← nodes wf !! i;
      c ← bump (counts r) (edges n);
      Some (mk_replayed (node_started r) (<[i := true]> (node_finished r)) c (<[i := Some (mk_data (Some data_type) (Some data_val) None)]> (outputs r)) (paused r) (wf_ended r) (paused_node_id r))
  end.

Definition replay_record (r : replayed) (x : Z * option bytes) : option replayed :=
  match x.2 with
  | None => Some (if x.1 =? 5 then mk_replayed (node_started r) (node_finished r) (counts r) (outputs r) (paused r) true (paused_node_id r) else r)
  | Some p =>
      if x.1 =? 2 then
        i ← string_at p;
        Some (match csilk_wf_get_node wf i with
              | Some n => mk_replayed (<[n := true]> (node_started r)) (node_finished r) (counts r) (outputs r) (paused r) (wf_ended r) (paused_node_id r)
              | None => r
              end)
      else if x.1 =? 3 then replay_finish r p
      else if x.1 =? 4 then
        i ← string_at p;
        Some (mk_replayed (node_started r) (node_finished r) (counts r) (outputs r) (paused r || bool_decide (is_Some (csilk_wf_get_node wf i))) (wf_ended r) (Some i))
      else if x.1 =? 5 then Some (mk_replayed (node_started r) (node_finished r) (counts r) (outputs r) (paused r) true (paused_node_id r))
      else Some r
  end.

Fixpoint replay_records (r : replayed) (l : list (Z * option bytes)) : option replayed :=
  match l with
  | [] => Some r
  | x :: l' => r ← replay_record r x; replay_records r l'
  end.

(** ** Resumption *)

Definition resumed_ctx (r : replayed) (approved : list bool) : csilk_wf_ctx_t := mk_ctx (counts r) 0 0 (outputs r) 0 false (paused r) approved.

Definition resumed_world (c : csilk_wf_ctx_t) (l : lifetime) (cb : list (option csilk_data_t)) : run_state := mk_run_state c l ∅ ∅ 0 None true None [] [] cb false.

Definition is_triggered (r : replayed) (i : nat) : bool :=
  match nodes wf !! i with
  | None => false
  | Some n =>
      let st := default false (node_started r !! i) in
      let threshold := if incoming_count n =? 0 then 1 else incoming_count n in
      if st && negb (default false (node_finished r !! i)) then true
      else negb st && (threshold <=? default 0 (counts r !! i))
  end.

(** The output of the last finished node with an edge to [i]. *)
Definition trigger_input (r : replayed) (i : nat) : option csilk_data_t :=
  foldl (fun acc j =>
    match nodes wf !! j with
    | Some p => if existsb (fun e => (target e =? i)%nat) (edges p) && default false (node_finished r !! j) then default None (outputs r !! j) else acc
    | None => acc
    end) None (seq 0 (length (nodes wf))).

Fixpoint trigger_nodes (r : replayed) (w : run_state) (l : list nat) : option run_state :=
  match l with
  | [] => Some w
  | i :: l' =>
      if is_triggered r i then w ← execute_node wf w i (trigger_input r i); trigger_nodes r w l'
      else trigger_nodes r w l'
  end.

Definition csilk_wf_resume (f : bytes) : option run_state :=
  if 0 <? ttl_sec wf then None else
  r ← replay_records replay_init (read_records (length f) f);
  let c := resumed_ctx r (replicate (length (nodes wf)) false) in
  if wf_ended r then Some (resumed_world c Released [None])
  else if paused r then Some (resumed_world c Released [])
  else trigger_nodes r (resumed_world c Live []) (seq 0 (length (nodes wf))).

Definition csilk_wf_signal_continue (f : bytes) (input : option csilk_data_t) : option run_state :=
  if 0 <? ttl_sec wf then None else
  r ← replay_records replay_init (read_records (length f) f);
  let n := length (nodes wf) in
  match paused_node_id r with
  | None => Some (resumed_world (resumed_ctx r (replicate n false)) Released [])
  | Some i =>
      let r := mk_replayed (node_started r) (node_finished r) (counts r) (outputs r) false (wf_ended r) None in
      match csilk_wf_get_node wf i with
      | Some k => execute_node wf (resumed_world (resumed_ctx r (<[k := true]> (replicate n false))) Live []) k input
      | None => Some (resumed_world (resumed_ctx r (replicate n false)) Live [])
      end
  end.

End resume.

(** ** Reading what was written *)

(** An event whose strings are C strings, of a size the header can tell. *)
Definition loggable (e : wf_event) : Prop :=
  let '(a, b, c) := event_strings e in nul_free a /\ nul_free b /\ nul_free c /\ Z.of_nat (length (_wf_wal_log_event e)) < 2 ^ 32.

Definition record_of (e : wf_event) : Z * option bytes := (event_type e, Some (_wf_wal_log_event e)).

Lemma payload_pos e : 0 < Z.of_nat (length (_wf_wal_log_event e)).
Proof. unfold _wf_wal_log_event. destruct (event_strings e) as [[a b] c]. rewrite length_app. cbn. lia. Qed.

Lemma loggable_length e : loggable e -> Z.of_nat (length (_wf_wal_log_event e)) < 2 ^ 32.
Proof. unfold loggable. destruct (event_strings e) as [[a b] c]. by intros (_ & _ & _ & ?). Qed.

Lemma header_length a b c : length (wal_header a b c) = 17%nat.
Proof. unfold wal_header. by rewrite !length_app, !le_length. Qed.

Lemma event_type_range e : 0 <= event_type e < 256.
Proof. destruct e; cbn; lia. Qed.

Lemma header_fields type ts len rest : 0 <= type < 256 -> 0 <= len < 2 ^ 32 -> let f := wal_header type ts len ++ rest in
  of_le (take 4 f) = CSILK_WF_MAGIC /\ cval (nth 4 f NUL) = type /\ of_le (take 4 (drop 13 f)) = len /\ drop 17 f = rest.
Proof.
  intros Ht Hl f. unfold f, wal_header. rewrite <- !(assoc_L (++)). split_and!.
  - rewrite take_app_length' by (by rewrite le_length). by apply of_le_le.
  - rewrite app_nth2 by (rewrite le_length; lia). rewrite le_length. cbn. rewrite cval_chr. by apply Z.mod_small.
  - rewrite drop_app_ge, le_length by (rewrite le_length; lia). change (13 - 4)%nat with 9%nat. rewrite drop_app_ge by (cbn; lia). change (9 - length [chr type])%nat with 8%nat.
    rewrite drop_app_length' by (by rewrite le_length). rewrite take_app_length' by (by rewrite le_length). by apply of_le_le.
  - rewrite !(assoc_L (++)), drop_app_length'; [done|]. by rewrite !length_app, !le_length.
Qed.

Lemma read_encode ts e rest fuel : loggable e -> read_records (S fuel) (encode_record (ts, e) ++ rest) = record_of e :: read_records fuel rest.
Proof.
  intros He. pose proof (loggable_length e He) as Hlen. pose proof (payload_pos e) as Hpos. unfold encode_record. cbn [fst snd]. set (p := _wf_wal_log_event e) in *. rewrite <- (assoc_L (++)).
  destruct (header_fields (event_type e) ts (Z.of_nat (length p)) (p ++ rest) (event_type_range e) ltac:(lia)) as (F1 & F2 & F3 & F4). cbn [read_records]. rewrite F1, F2, F3, F4.
  rewrite (proj2 (Nat.ltb_ge _ _)) by (rewrite length_app, header_length; lia). rewrite Z.eqb_refl. cbn [negb]. rewrite (proj2 (Z.eqb_neq _ _)), (proj2 (Z.ltb_ge _ _)) by (rewrite ?length_app; lia).
  rewrite Nat2Z.id, take_app_length, drop_app_length. done.
Qed.

(** The records that lie within the first [k] bytes. *)
Fixpoint within (l : list (Z * wf_event)) (k : nat) : nat :=
  match l with
  | [] => 0
  | r :: l' => if (length (encode_record r) <=? k)%nat then S (within l' (k - length (encode_record r))) else 0
  end.

Lemma read_cut l : forall k fuel, Forall (fun r => loggable r.2) l -> (length (take k (encode_log l)) <= fuel)%nat ->
  read_records fuel (take k (encode_log l)) = map (fun r => record_of r.2) (take (within l k) l).
Proof.
  induction l as [|[ts e] l IH]; intros k fuel Hl Hf.
  - cbn. rewrite take_nil. by destruct fuel.
  - apply Forall_cons in Hl as [He Hl]. cbn [encode_log map concat within] in *. fold (encode_log l) in *. destruct (Nat.leb_spec (length (encode_record (ts, e))) k) as [Hk|Hk].
    + rewrite take_app_ge in * by lia. rewrite length_app in Hf. assert (17 <= length (encode_record (ts, e)))%nat as H17 by (unfold encode_record; rewrite length_app, header_length; lia).
      destruct fuel as [|fuel]; [lia|]. rewrite read_encode by done. cbn [take map]. rewrite IH by (done || lia). done.
    + rewrite take_app_le by lia. cbn [take map]. destruct fuel as [|fuel]; [done|]. cbn [read_records]. destruct (Nat.ltb_spec (length (take k (encode_record (ts, e)))) 17) as [|Hge]; [done|]. rewrite length_take in Hge.
      pose proof (loggable_length e He) as Hlen. pose proof (payload_pos e) as Hpos. unfold encode_record in *. cbn [fst snd] in *. set (p := _wf_wal_log_event e) in *. rewrite length_app, header_length in Hk.
      rewrite take_app_ge, header_length by (rewrite header_length; lia).
      destruct (header_fields (event_type e) ts (Z.of_nat (length p)) (take (k - 17) p) (event_type_range e) ltac:(lia)) as (F1 & F2 & F3 & F4). rewrite F1, F2, F3, F4, Z.eqb_refl. cbn [negb].
      rewrite (proj2 (Z.eqb_neq _ _)), (proj2 (Z.ltb_lt _ _)) by (rewrite ?length_take; lia). done.
Qed.

(** ** What a replay finds *)

Lemma string_at_app s rest : nul_free s -> string_at (s ++ NUL :: rest) = Some s.
Proof. intros Hs. unfold string_at. rewrite bool_decide_true by (apply elem_of_app; right; by left). by rewrite cstr_app. Qed.

Lemma drop_string (s rest : bytes) : drop (Z.to_nat (Z.of_nat (length s) + 1)) (s ++ NUL :: rest) = rest.
Proof. rewrite drop_app_ge by lia. replace (Z.to_nat (Z.of_nat (length s) + 1) - length s)%nat with 1%nat by lia. done. Qed.

Lemma replay_app wf a : forall r b, replay_records wf r (a ++ b) = (r' ← replay_records wf r a; replay_records wf r' b).
Proof. induction a as [|x a IH]; intros r b; [done|]. cbn [app replay_records]. destruct (replay_record wf r x); [apply IH|done]. Qed.

Section replaying.
Context (wf : csilk_wf_t) (rank : nat -> nat) (D : dag wf rank) (G : graph_ok wf).

Notation node_id := (node_id wf).

Lemma get_node_id v : valid wf v -> csilk_wf_get_node wf (node_id v) = Some v.
Proof.
  intros Hv. destruct (lookup_lt_is_Some_2 _ _ Hv) as [x Hx]. assert (node_id v = id x) as Ev by (unfold WorkflowDag.node_id; by rewrite Hx).
  destruct (csilk_wf_get_node wf (node_id v)) as [u|] eqn:E.
  - f_equal. pose proof (get_node_valid _ _ _ E) as Hu. unfold csilk_wf_get_node in E. apply fmap_Some in E as ([m y] & Hf & ->). apply list_find_Some in Hf as (Hm & Hid & _). cbn in *.
    apply (node_id_inj wf rank D); [done|done|]. unfold WorkflowDag.node_id in *. rewrite Hm. done.
  - exfalso. unfold csilk_wf_get_node in E. apply fmap_None in E. pose proof (proj1 (list_find_None _ _) E) as Hn. apply (proj1 (Forall_forall _ _) Hn x); [by apply list_elem_of_lookup_2 in Hx|done].
Qed.

Lemma finished_nodes l : log_ok wf l -> exists F, finished l = map node_id F /\ NoDup F /\ Forall (valid wf) F.
Proof.
  induction 1 as [|l i H IH|l v H IH Hv Hn Hd|l v o H IH Hv Hb Hn|l H IH Ha]; [exists []; split; [done|]; split; [apply NoDup_nil_2|done]|..]; destruct IH as (F & E & N & V); rewrite finished_app; cbn; rewrite ?app_nil_r; try (by exists F).
  exists (F ++ [v]). rewrite E, map_app. split; [done|]. split; [|apply Forall_app; split; [done|by constructor]]. apply NoDup_app. split; [done|]. split; [|apply NoDup_singleton].
  intros x Hx ->%list_elem_of_singleton. apply Hn. rewrite E. apply list_elem_of_fmap. by exists v.
Qed.

Lemma begun_deps l : log_ok wf l -> forall v, valid wf v -> node_id v ∈ begun l -> forall u e, e ∈ edges_from wf u -> target e = v -> node_id u ∈ finished l.
Proof.
  induction 1 as [|l i H IH|l v' H IH Hv Hn Hd|l v' o H IH Hv Hb Hn|l H IH Ha]; intros v Hvv; [by intros ?%elem_of_nil|..]; rewrite begun_app, finished_app, elem_of_app; cbn; intros [Hin|Hin] u e He Ht;
    try (by apply elem_of_nil in Hin); try (apply elem_of_app; left; by apply (IH v Hvv Hin u e)).
  apply list_elem_of_singleton in Hin. apply (node_id_inj wf rank D) in Hin; [|done|done]. subst v'. apply elem_of_app. left. by apply (Hd u e).
Qed.

Lemma finished_begun l : log_ok wf l -> forall i, i ∈ finished l -> i ∈ begun l.
Proof.
  induction 1 as [|l i H IH|l v' H IH Hv Hn Hd|l v' o H IH Hv Hb Hn|l H IH Ha]; intros j; [by intros ?%elem_of_nil|..]; rewrite begun_app, finished_app, !elem_of_app; cbn; (intros [Hin|Hin]; [left; auto|]); try (by apply elem_of_nil in Hin).
  apply list_elem_of_singleton in Hin. subst j. by left.
Qed.

Lemma ended_finished l : log_ok wf l -> WF_EV_END ∈ l -> forall v, valid wf v -> node_id v ∈ finished l.
Proof.
  induction 1 as [|l i H IH|l v' H IH Hv Hn Hd|l v' o H IH Hv Hb Hn|l H IH Ha]; [by intros ?%elem_of_nil|..]; (intros [Hin|Hin]%elem_of_app v Hvv; rewrite finished_app; apply elem_of_app; left; [by apply IH|]); try (apply list_elem_of_singleton in Hin; done). auto.
Qed.

Record rep (l : list wf_event) (r : replayed) : Prop := {
  rp_started : forall v, valid wf v -> node_started r !! v = Some (bool_decide (node_id v ∈ begun l));
  rp_finished : forall v, valid wf v -> node_finished r !! v = Some (bool_decide (node_id v ∈ finished l));
  rp_counts : forall F v, finished l = map node_id F -> Forall (valid wf) F -> valid wf v -> counts r !! v = Some (into (edges_of wf F) v);
  rp_length : length (counts r) = length (nodes wf);
  rp_paused : paused r = false;
  rp_ended : wf_ended r = true -> WF_EV_END ∈ l;
}.

Lemma bump_ok es : forall c, Forall (fun e => (target e < length c)%nat) es -> exists c', bump c es = Some c' /\ length c' = length c /\ forall v z, c !! v = Some z -> c' !! v = Some (z + into es v).
Proof.
  induction es as [|e es IH]; intros c He; [exists c; split; [done|]; split; [done|]; intros v z Hz; change (into [] v) with 0; by rewrite Z.add_0_r|].
  apply Forall_cons in He as [Ht He]. cbn [bump]. destruct (lookup_lt_is_Some_2 _ _ Ht) as [x Hx]. rewrite Hx. cbn [mbind option_bind].
  destruct (IH (<[target e := x + 1]> c)) as (c' & E & L & K); [by rewrite length_insert|]. exists c'. split; [done|]. split; [by rewrite L, length_insert|]. intros v z Hz. rewrite into_cons.
  destruct (decide (target e = v)) as [<-|Hne]; [rewrite (K (target e) (x + 1)) by (by rewrite list_lookup_insert_eq); f_equal; assert (z = x) by congruence; lia|]. rewrite (K v z) by (by rewrite list_lookup_insert_ne). f_equal; lia.
Qed.

Lemma rep_init : rep [] (replay_init wf).
Proof.
  constructor; cbn; try done.
  - intros v Hv. by rewrite lookup_replicate_2.
  - intros v Hv. by rewrite lookup_replicate_2.
  - intros F v E _ Hv. symmetry in E. apply fmap_nil_inv in E. subst F. by rewrite lookup_replicate_2.
  - apply length_replicate.
Qed.

Lemma bool_decide_snoc (x y : bytes) l : bool_decide (x ∈ l ++ [y]) = bool_decide (x ∈ l) || bool_decide (x = y).
Proof. rewrite <- bool_decide_or. apply bool_decide_ext. by rewrite elem_of_app, list_elem_of_singleton. Qed.

(** A finished node: its flag, and the counts of the targets of its edges. *)
Lemma rep_finish l r v o : rep l r -> valid wf v -> loggable (WF_EV_NODE_FINISH (node_id v) o) -> node_id v ∉ finished l ->
  exists r', replay_record wf r (record_of (WF_EV_NODE_FINISH (node_id v) o)) = Some r' /\ rep (l ++ [WF_EV_NODE_FINISH (node_id v) o]) r'.
Proof.
  intros [R1 R2 R3 R4 R5 R6] Hv Hlog Hn. unfold record_of, replay_record. cbn [fst snd event_type Z.eqb Pos.eqb]. unfold loggable, _wf_wal_log_event in Hlog |- *. destruct (event_strings _) as [[a b] c] eqn:Es.
  assert (a = node_id v) as -> by (by injection Es as <- _ _). destruct Hlog as (Ha & Hb & Hc & _). unfold replay_finish. rewrite string_at_app by done. cbn [mbind option_bind]. rewrite drop_string, length_app. cbn [length]. rewrite length_app. cbn [length]. rewrite length_app. cbn [length].
  rewrite (proj2 (Z.leb_gt _ _)) by lia. rewrite string_at_app by done. cbn [mbind option_bind]. rewrite drop_string, (proj2 (Z.leb_gt _ _)) by lia. rewrite string_at_app by done. cbn [mbind option_bind]. rewrite get_node_id by done.
  destruct (lookup_lt_is_Some_2 _ _ Hv) as [x Hx]. rewrite Hx. cbn [mbind option_bind]. destruct (bump_ok (edges x) (counts r)) as (cs & -> & Lc & Kc); [rewrite R4; exact (gr_edges _ G _ _ Hx)|]. cbn [mbind option_bind].
  eexists. split; [reflexivity|]. constructor; cbn; rewrite ?finished_app, ?begun_app; cbn; rewrite ?app_nil_r; try done.
  - intros u Hu. rewrite bool_decide_snoc. destruct (decide (v = u)) as [<-|Hne].
    + rewrite list_lookup_insert_eq by (eapply lookup_lt_Some; by apply R2). by rewrite (bool_decide_true (node_id v = node_id v)), orb_true_r.
    + rewrite list_lookup_insert_ne, R2 by done. rewrite (bool_decide_false (node_id u = node_id v)), orb_false_r; [done|]. intros E. apply (node_id_inj wf rank D) in E; congruence.
  - intros F u EF VF Hu. destruct F as [|f F _] using rev_ind; [by apply app_nil in EF as [_ ?]|]. rewrite map_app in EF. apply app_inj_tail in EF as [EF Ef]. apply Forall_app in VF as [VF [Hf _]%Forall_cons].
    apply (node_id_inj wf rank D) in Ef; [|done|done]. subst f. rewrite (Kc u (into (edges_of wf F) u)) by (by apply R3). rewrite edges_of_app, into_app. unfold edges_of at 3. cbn. unfold edges_from. by rewrite Hx, app_nil_r.
  - congruence.
  - intros He. apply elem_of_app. left. auto.
Qed.

Lemma replay_ok l : log_ok wf l -> Forall loggable l -> exists r, replay_records wf (replay_init wf) (map record_of l) = Some r /\ rep l r.
Proof.
  intros H. induction H as [|l i H IH|l v H IH Hv Hn Hd|l v o H IH Hv Hb Hn|l H IH Ha]; intros Hl; [exists (replay_init wf); split; [done|apply rep_init]|..]; apply Forall_app in Hl as [Hl [He _]%Forall_cons]; destruct (IH Hl) as (r & E & R);
    rewrite map_app, replay_app, E; cbn [mbind option_bind map replay_records].
  - exists r. split; [done|]. destruct R as [R1 R2 R3 R4 R5 R6]. constructor; rewrite ?begun_app, ?finished_app; cbn; rewrite ?app_nil_r; try done. intros Hw. apply elem_of_app. left. auto.
  - unfold record_of, replay_record. cbn [fst snd event_type Z.eqb Pos.eqb]. unfold loggable, _wf_wal_log_event in *. cbn [event_strings] in *. destruct He as (Hnf & _). rewrite string_at_app by done. cbn [mbind option_bind]. rewrite get_node_id by done.
    eexists. split; [reflexivity|]. destruct R as [R1 R2 R3 R4 R5 R6]. constructor; cbn; rewrite ?begun_app, ?finished_app; cbn; rewrite ?app_nil_r; try done.
    + intros u Hu. rewrite bool_decide_snoc. destruct (decide (v = u)) as [<-|Hne].
      * rewrite list_lookup_insert_eq by (eapply lookup_lt_Some; by apply R1). by rewrite (bool_decide_true (node_id v = node_id v)), orb_true_r.
      * rewrite list_lookup_insert_ne, R1 by done. rewrite (bool_decide_false (node_id u = node_id v)), orb_false_r; [done|]. intros Eu. apply (node_id_inj wf rank D) in Eu; congruence.
    + intros Hw. apply elem_of_app. left. auto.
  - destruct (rep_finish l r v o R Hv He Hn) as (r' & -> & R'). cbn [mbind option_bind]. by exists r'.
  - eexists. split; [reflexivity|]. destruct R as [R1 R2 R3 R4 R5 R6]. constructor; cbn; rewrite ?begun_app, ?finished_app; cbn; rewrite ?app_nil_r; try done. intros _. apply elem_of_app. right. by left.
Qed.

(** ** Restarting *)

Lemma trigger_dag l0 F0 r l : forall F S fired w, core wf 0 w -> dinv wf l0 F0 (filter (fun i => is_triggered wf r i = true) l) [] F S fired w ->
  exists w' S', trigger_nodes wf r w l = Some w' /\ core wf 0 w' /\ pending w' = pending w /\ dinv wf l0 F0 [] [] F S' fired w'.
Proof.
  induction l as [|i l IH]; intros F S fired w C H; [by exists w, S|]. cbn [trigger_nodes]. destruct (is_triggered wf r i) eqn:Ei.
  - rewrite filter_cons_True in H by done. pose proof (proj2 (dv_next _ _ _ _ _ _ _ _ _ H)) as [Hv _]%Forall_cons.
    rewrite (execute_start wf rank D 0) by (done || exact (dv_life _ _ _ _ _ _ _ _ _ H) || exact (dv_terminated _ _ _ _ _ _ _ _ _ H)). cbn [mbind option_bind].
    destruct (start_core wf rank D 0 w i (trigger_input wf r i) C (dv_life _ _ _ _ _ _ _ _ _ H) (dv_run _ _ _ _ _ _ _ _ _ H) (dv_terminated _ _ _ _ _ _ _ _ _ H) Hv) as [C1 G1].
    pose proof (start_ok wf rank D G l0 F0 0 _ _ _ _ _ w i (trigger_input wf r i) C H) as H1. destruct (IH _ _ _ _ C1 H1) as (w' & S' & E' & C' & P' & H'). exists w', S'. split; [done|]. split; [done|]. split; [by rewrite P', (g_pending _ _ G1)|done].
  - rewrite filter_cons_False in H by congruence. by apply (IH F S fired).
Qed.

(** The state a log leads to: what is finished and what has to be restarted. *)
Lemma resumed_dinv l0 F0 r : log_ok wf l0 -> finished l0 = map node_id F0 -> NoDup F0 -> Forall (valid wf) F0 -> rep l0 r ->
  (forall v, valid wf v -> incoming wf v = 0 -> node_id v ∈ begun l0) ->
  let w := resumed_world (resumed_ctx r (replicate (length (nodes wf)) false)) Live [] in
  core wf 0 w /\ dinv wf l0 F0 (filter (fun i => is_triggered wf r i = true) (seq 0 (length (nodes wf)))) [] F0 [] (edges_of wf F0) w.
Proof.
  intros Hlog EF N V R Hent w. pose proof R as [R1 R2 R3 R4 R5 R6]. set (P := filter _ _).
  assert (forall v, valid wf v -> node_id v ∈ finished l0 <-> v ∈ F0) as Hfin.
  { intros v Hv. rewrite EF, list_elem_of_fmap. split; [intros (u & E & Hu); apply (node_id_inj wf rank D) in E; [by subst|done|by apply (proj1 (Forall_forall _ _) V)]|intros Hin; by exists v]. }
  assert (forall v, valid wf v -> node_id v ∈ begun l0 -> into (edges_of wf F0) v = incoming wf v) as Hdeps.
  { intros v Hv Hb. destruct (edges_of_split wf F0 N V) as [F' Pm]. rewrite <- (edges_of_all wf G) by done. rewrite <- (edges_of_perm wf _ _ v Pm), edges_of_app, into_app, (into_none wf F'); [lia|].
    intros u e Hu He Ht. assert (valid wf u) as Hvu. { assert (u ∈ seq 0 (length (nodes wf))) as Hs by (rewrite <- Pm; apply elem_of_app; by right). apply elem_of_seq in Hs. unfold valid. lia. }
    pose proof (begun_deps l0 Hlog v Hv Hb u e He Ht) as Hfu. apply Hfin in Hfu; [|done]. pose proof (NoDup_seq 0 (length (nodes wf))) as Ns. rewrite <- Pm in Ns. apply NoDup_app in Ns as (_ & Hd & _). by apply (Hd u). }
  assert (forall v, valid wf v -> v ∈ P <-> (v ∉ F0 /\ into (edges_of wf F0) v = incoming wf v)) as HP.
  { intros v Hv. unfold P. rewrite list_elem_of_filter, elem_of_seq. unfold is_triggered. pose proof (Hdeps v Hv) as Hd. pose proof (Hent v Hv) as He. unfold incoming in *. destruct (lookup_lt_is_Some_2 _ _ Hv) as [x Hx]. rewrite Hx in *.
    rewrite (R1 v Hv), (R2 v Hv), (R3 F0 v EF V Hv). cbn [default from_option Datatypes.id]. pose proof (into_nonneg (edges_of wf F0) v). pose proof (into_le wf G F0 v N V Hv) as Hle. unfold incoming in Hle. rewrite Hx in Hle.
    assert (0 <= v < 0 + length (nodes wf))%nat as Hr by (unfold valid in Hv; lia).
    destruct (bool_decide_reflect (node_id v ∈ begun l0)) as [Hb|Hb], (bool_decide_reflect (node_id v ∈ finished l0)) as [Hf|Hf]; cbn [andb negb].
    - split; [by intros [? _]|]. intros [Hnf _]. by destruct Hnf; apply Hfin.
    - split; [|done]. intros _. split; [by rewrite <- Hfin|auto].
    - destruct Hb. by apply finished_begun.
    - rewrite <- Hfin by done. destruct (Z.eqb_spec (incoming_count x) 0) as [Hz|Hz]; [destruct Hb; auto|]. rewrite Z.leb_le. split; [intros [Hc _]; split; [done|lia]|intros [_ ->]; split; [lia|done]]. }
  assert (Forall (valid wf) P) as VP by (apply Forall_forall; intros v [_ Hv]%list_elem_of_filter; apply elem_of_seq in Hv; unfold valid; lia).
  split.
  - constructor; cbn; try done. by rewrite length_replicate.
  - constructor; cbn; rewrite ?app_nil_r; try done.
    + intros v Hv. rewrite elem_of_app, (HP v Hv). destruct (decide (v ∈ F0)) as [Hin|Hin]; [|tauto]. split; [by left|]. intros _. apply Hdeps; [done|]. apply finished_begun; [done|]. by apply Hfin.
    + split; [|done]. apply NoDup_app. split; [done|]. split; [|apply NoDup_filter, NoDup_seq]. intros v Hv HvP. apply HP in HvP; [by destruct HvP|by apply (proj1 (Forall_forall _ _) V)].
    + intros v Hv _. by apply R3.
    + lia.
    + by rewrite EF.
Qed.

End replaying.

(** Resuming after the log [l0]. *)
Lemma resume_running wf rank l0 f : dag wf rank -> graph_ok wf -> log_ok wf l0 -> Forall loggable l0 -> read_records (length f) f = map record_of l0 ->
  (forall v, valid wf v -> incoming wf v = 0 -> node_id wf v ∈ begun l0) -> (exists v, valid wf v /\ node_id wf v ∉ finished l0) ->
  exists F0 w0, finished l0 = map (node_id wf) F0 /\ csilk_wf_resume wf f = Some w0 /\ core wf 0 w0 /\ quiet w0 /\ running wf l0 F0 w0.
Proof.
  intros D G Hlog Hl Hf Hent (v & Hv & Hn). destruct (finished_nodes wf l0 Hlog) as (F0 & EF & N & V). destruct (replay_ok wf rank D G l0 Hlog Hl) as (r & Er & R). pose proof (d_ttl _ _ D) as Ht.
  unfold csilk_wf_resume. rewrite (proj2 (Z.ltb_ge 0 (ttl_sec wf))) by lia. rewrite Hf, Er. cbn [mbind option_bind].
  assert (wf_ended r = false) as -> by (destruct (wf_ended r) eqn:E; [|done]; destruct Hn; apply (ended_finished wf l0 Hlog (rp_ended _ _ _ R E)); done). rewrite (rp_paused _ _ _ R).
  destruct (resumed_dinv wf rank D G l0 F0 r Hlog EF N V R Hent) as [C H]. destruct (trigger_dag wf rank D G l0 F0 r _ _ _ _ _ C H) as (w & S & E & Cw & Pw & Hw). exists F0, w. split; [done|]. split; [done|]. split; [done|].
  assert (works w <> ∅) as Hne. { intros Hemp. destruct Hn. rewrite EF. apply list_elem_of_fmap. exists v. split; [done|]. by apply (all_finished wf rank D G l0 F0 _ _ _ w Hw Hemp). }
  split; [|split; [done|]; split; [done|by eauto]]. intros _ Ho. exfalso. assert (size (works w) <> 0%nat) by (by rewrite map_size_non_empty_iff). unfold outstanding, pend in Ho. destruct (pending w); lia.
Qed.

Lemma encode_log_app a b : encode_log (a ++ b) = encode_log a ++ encode_log b.
Proof. unfold encode_log. by rewrite map_app, concat_app. Qed.

(** A file cut behind a record, with records appended. *)
Lemma appended_log wf l k new : log_ok wf (map snd (take (within l k) l) ++ map snd new) -> Forall (fun r => loggable r.2) l -> Forall (fun r => loggable r.2) new ->
  k = length (encode_log (take (within l k) l)) ->
  exists l', take k (encode_log l) ++ encode_log new = encode_log l' /\ log_ok wf (map snd l') /\ Forall (fun r => loggable r.2) l'.
Proof.
  intros Hlog Hl Hn Hk. exists (take (within l k) l ++ new). rewrite encode_log_app, map_app. split; [|split; [done|]].
  - f_equal. rewrite <- (take_drop (within l k) l) at 1. rewrite encode_log_app, Hk at 1. apply take_app_length.
  - apply Forall_app. split; [by apply Forall_take|done].
Qed.


(** ** Logs that can be tested *)

Section check.
Context (wf : csilk_wf_t).

Definition event_ok (l : list wf_event) (e : wf_event) : bool :=
  match e with
  | WF_EV_START _ => true
  | WF_EV_NODE_START i =>
      match csilk_wf_get_node wf i with
      | Some v => bool_decide (i ∉ finished l) && forallb (fun u => forallb (fun e => negb (target e =? v)%nat || bool_decide (node_id wf u ∈ finished l)) (edges_from wf u)) (seq 0 (length (nodes wf)))
      | None => false
      end
  | WF_EV_NODE_FINISH i _ => match csilk_wf_get_node wf i with Some _ => bool_decide (i ∈ begun l) && bool_decide (i ∉ finished l) | None => false end
  | WF_EV_PAUSE _ _ => false
  | WF_EV_END => forallb (fun v => bool_decide (node_id wf v ∈ finished l)) (seq 0 (length (nodes wf)))
  end.

Fixpoint log_check (pre l : list wf_event) : bool :=
  match l with
  | [] => true
  | e :: l' => event_ok pre e && log_check (pre ++ [e]) l'
  end.

Lemma get_node_inv i v : csilk_wf_get_node wf i = Some v -> valid wf v /\ i = node_id wf v.
Proof.
  intros E. split; [by eapply get_node_valid|]. unfold csilk_wf_get_node in E. apply fmap_Some in E as ([m y] & Hf & ->). apply list_find_Some in Hf as (Hm & Hid & _). unfold node_id. cbn in *. by rewrite Hm.
Qed.

Lemma event_ok_log l e : log_ok wf l -> event_ok l e = true -> log_ok wf (l ++ [e]).
Proof.
  intros H E. destruct e as [i|i|i o|i o|]; cbn [event_ok] in E; [by constructor| | |done|].
  - destruct (csilk_wf_get_node wf i) as [v|] eqn:Ei; [|done]. apply get_node_inv in Ei as [Hv ->]. apply andb_true_iff in E as [En%bool_decide_eq_true Ef]. constructor; try done.
    intros u e He Ht. assert (In u (seq 0 (length (nodes wf)))) as Hu. { unfold edges_from in He. destruct (nodes wf !! u) eqn:Eu; [|by apply elem_of_nil in He]. apply in_seq. apply lookup_lt_Some in Eu. lia. }
    pose proof (proj1 (forallb_forall _ _) Ef u Hu) as Eu. rewrite list_elem_of_In in He. pose proof (proj1 (forallb_forall _ _) Eu e He) as Ee. cbn in Ee. rewrite (proj2 (Nat.eqb_eq _ _) Ht) in Ee. by apply bool_decide_eq_true in Ee.
  - destruct (csilk_wf_get_node wf i) as [v|] eqn:Ei; [|done]. apply get_node_inv in Ei as [Hv ->]. apply andb_true_iff in E as [Eb%bool_decide_eq_true En%bool_decide_eq_true]. by constructor.
  - constructor; [done|]. intros v Hv. assert (In v (seq 0 (length (nodes wf)))) as Hu by (apply in_seq; unfold valid in Hv; lia). pose proof (proj1 (forallb_forall _ _) E v Hu) as Eu. by apply bool_decide_eq_true in Eu.
Qed.

Lemma log_check_ok l : forall pre, log_ok wf pre -> log_check pre l = true -> log_ok wf (pre ++ l).
Proof.
  induction l as [|e l IH]; intros pre H E; [by rewrite app_nil_r|]. cbn [log_check] in E. apply andb_true_iff in E as [E1 E2]. change (e :: l) with ([e] ++ l). rewrite (assoc_L (++)). apply IH; [by apply event_ok_log|done].
Qed.

End check.

(** A crash while [b] and [c] run, before or in the record that [c] has
    finished. *)
Definition crashed : list (Z * wf_event) :=
  [(7, WF_EV_START None); (7, WF_EV_NODE_START (lit "a")); (8, WF_EV_NODE_FINISH (lit "a") (data "x")); (8, WF_EV_NODE_START (lit "b")); (8, WF_EV_NODE_START (lit "c")); (9, WF_EV_NODE_FINISH (lit "c") (data "x"))].
Definition crashed_at : nat := length (encode_log (take 5 crashed)).
Definition torn_at : nat := length (encode_log crashed) - 1.

(** What the resumed run then logs until [b] has finished. *)
Definition resumed_records : list (Z * wf_event) :=
  [(10, WF_EV_NODE_START (lit "b")); (10, WF_EV_NODE_START (lit "c")); (11, WF_EV_NODE_FINISH (lit "b") (data "y"))].


(** ** Observations *)

Definition log_file (l : list wf_event) : bytes := encode_log (map (pair 7) l).

(** New records are appended behind a torn one without truncation: the next
    replay reads the torn record on into them and finds payloads without an end. *)
Example second_resume_fails :
  is_Some (csilk_wf_resume diamond (take torn_at (encode_log crashed))) /\
  csilk_wf_resume diamond (take torn_at (encode_log crashed) ++ encode_log resumed_records) = None.
Proof. split; [eexists|]; by vm_compute. Qed.

Definition resumed (os : list build_op) (l : list wf_event) : option (lifetime * list (nat * option csilk_data_t) * list (option csilk_data_t)) :=
  w ← csilk_wf_resume (wf_of os) (log_file l); Some (life w, map (fun p => (w_node p.2, w_input p.2)) (map_to_list (works w)), callbacks w).

(** [_wf_wal_flush] waits for the queue, not for the record that the thread has
    taken out of it: what is replayed next may lack the last event. *)
Example flush_misses_last_record :
  let w := pop_task (_wf_wal_append (mk_wal [] None []) 5 (_wf_wal_log_event WF_EV_END) true true).2 in
  _wf_wal_flush w = true /\ wal_file w = [] /\ wal_file (write_record w 7) = encode_record (7, WF_EV_END).
Proof. by vm_compute. Qed.

(** When the copy of the payload cannot be allocated the header still tells its
    length, and the record behind it is taken for the payload. *)
Example missing_payload_hides_record :
  let w := (_wf_wal_append (mk_wal [] None []) 2 (_wf_wal_log_event (WF_EV_NODE_START (lit "a"))) true false).2 in
  let w := (_wf_wal_append w 5 (_wf_wal_log_event WF_EV_END) true true).2 in
  let f := wal_file (write_record (pop_task (write_record (pop_task w) 7)) 7) in
  map fst (read_records (length f) f) = [2].
Proof. by vm_compute. Qed.

(** After an approval the log keeps its pause: a run that was approved and then
    interrupted is discarded, not resumed. *)
Example approved_run_is_discarded :
  resumed diamond_ops [WF_EV_START None; WF_EV_NODE_START (lit "a"); WF_EV_NODE_FINISH (lit "a") (data "x"); WF_EV_PAUSE (lit "b") (data "x"); WF_EV_NODE_START (lit "b")] = Some (Released, [], []).
Proof. by vm_compute. Qed.

(** A run interrupted before its entry node was logged is not restarted, and its
    context stays: nothing is outstanding, and no callback will come. *)
Example unstarted_run_is_lost : resumed diamond_ops [WF_EV_START (data "x")] = Some (Live, [], []).
Proof. by vm_compute. Qed.

(** So is one interrupted between the last node and the record of the end. *)
Example unended_run_is_lost :
  resumed [BAdd (lit "a") true true; BEntry 0 true] [WF_EV_START None; WF_EV_NODE_START (lit "a"); WF_EV_NODE_FINISH (lit "a") (data "x")] = Some (Live, [], []).
Proof. by vm_compute. Qed.

(** A restarted entry node does not get the input of the run, although it is logged. *)
Example resumed_input_is_lost :
  resumed [BAdd (lit "a") true true; BEntry 0 true] [WF_EV_START (data "x"); WF_EV_NODE_START (lit "a")] = Some (Live, [(0%nat, None)], []).
Proof. by vm_compute. Qed.

(** The replay does not look at conditions: both alternatives are started. *)
Example resume_ignores_conditions :
  resumed [BAdd (lit "a") true true; BAdd (lit "b") true true; BAdd (lit "c") true true; BEdge 0 (Some (lit "x")) 1 true; BEdge 0 (Some (lit "y")) 2 true; BEntry 0 true]
    [WF_EV_START None; WF_EV_NODE_START (lit "a"); WF_EV_NODE_FINISH (lit "a") (data "x")] =
  let d := Some (mk_data (Some (lit "x")) (Some (lit "v")) None) in Some (Live, [(2%nat, d); (1%nat, d)], []).
Proof. by vm_compute. Qed.
