(* ===== verification/Rcu.v ===== *)
(** * Router publication: epochs, leases and deferred reclamation

    Models src/src/core/server/server_rcu.c and src/src/core/config/hooks.c:
    the reader slots, the lease a request takes on the router, the replacement
    of the router, the retired list and its reclamation, the grace period, and
    the arrays of lifecycle hooks that are replaced under the same epochs.

    The threads are interleaved at the granularity of their atomic accesses:
    [tstep] performs one access of the function a thread is in, whose place is
    its [pc] (a weak compare-and-swap may fail without cause).  Only the owner of
    a slot touches its [nesting_depth], so its load and store are one access.
    Memory is sequentially consistent.  A router, a hook array and a retired
    record is a number that is never used again; the retired list and the
    overflow list are the lists of their nodes.  Using a router or an array that
    has been freed, freeing one twice and touching the server after it was freed
    is undefined behaviour ([None]).  There is one server; that a thread used
    another one in between, which replaces its cached slot, is the call
    [CForget].  [pthread_self] is a variable of the development. *)

From stdpp Require Import gmap.
From S2P Require Import Prelude.

#[local] Open Scope Z_scope.

Definition CSILK_RELOAD_MAX_READERS : Z := 256.
Definition readers : nat := Z.to_nat CSILK_RELOAD_MAX_READERS.
Definition UINT64_MAX : Z := 2 ^ 64 - 1.
Definition CSILK_HOOK_SERVER_STOP : nat := 1.
Definition CSILK_HOOK_COUNT : nat := 6.

(** ** Shared state *)

Record csilk_rcu_slot_t := Slot { active_epoch : Z; owner_tid : Z; nesting_depth : Z }.

Record csilk_retired_router_t := Retired {
  node : nat;
  rrouter : option nat;
  dl_handle : option nat;
  tmp_path : option bytes;
  retired_epoch : Z;
}.

(** The server and its reload manager.  [freed], [closed], [unlinked] and
    [calls] record what was freed, closed, unlinked and which hook was called. *)
Record server := Server {
  router : option nat;
  global_epoch : Z;
  reclaim_lock : Z;
  retired_count : Z;
  retired_head : list csilk_retired_router_t;
  overflow_head : list nat;
  slots : list csilk_rcu_slot_t;
  hooks : list (option nat);
  arrays : gmap nat (list Z);
  config_mutex : option nat;
  hook_mutex : option nat;
  live : bool;
  fresh : nat;
  freed : list nat;
  closed : list nat;
  unlinked : list bytes;
  calls : list (nat * Z);
}.

Definition set_router s x := Server x (global_epoch s) (reclaim_lock s) (retired_count s) (retired_head s) (overflow_head s) (slots s) (hooks s) (arrays s) (config_mutex s) (hook_mutex s) (live s) (fresh s) (freed s) (closed s) (unlinked s) (calls s).
Definition set_epoch s x := Server (router s) x (reclaim_lock s) (retired_count s) (retired_head s) (overflow_head s) (slots s) (hooks s) (arrays s) (config_mutex s) (hook_mutex s) (live s) (fresh s) (freed s) (closed s) (unlinked s) (calls s).
Definition set_lock s x := Server (router s) (global_epoch s) x (retired_count s) (retired_head s) (overflow_head s) (slots s) (hooks s) (arrays s) (config_mutex s) (hook_mutex s) (live s) (fresh s) (freed s) (closed s) (unlinked s) (calls s).
Definition set_count s x := Server (router s) (global_epoch s) (reclaim_lock s) x (retired_head s) (overflow_head s) (slots s) (hooks s) (arrays s) (config_mutex s) (hook_mutex s) (live s) (fresh s) (freed s) (closed s) (unlinked s) (calls s).
Definition set_retired s x := Server (router s) (global_epoch s) (reclaim_lock s) (retired_count s) x (overflow_head s) (slots s) (hooks s) (arrays s) (config_mutex s) (hook_mutex s) (live s) (fresh s) (freed s) (closed s) (unlinked s) (calls s).
Definition set_slots s o x := Server (router s) (global_epoch s) (reclaim_lock s) (retired_count s) (retired_head s) o x (hooks s) (arrays s) (config_mutex s) (hook_mutex s) (live s) (fresh s) (freed s) (closed s) (unlinked s) (calls s).
Definition set_hooks s x := Server (router s) (global_epoch s) (reclaim_lock s) (retired_count s) (retired_head s) (overflow_head s) (slots s) x (arrays s) (config_mutex s) (hook_mutex s) (live s) (fresh s) (freed s) (closed s) (unlinked s) (calls s).
Definition set_mutexes s c h := Server (router s) (global_epoch s) (reclaim_lock s) (retired_count s) (retired_head s) (overflow_head s) (slots s) (hooks s) (arrays s) c h (live s) (fresh s) (freed s) (closed s) (unlinked s) (calls s).
Definition set_live s x := Server (router s) (global_epoch s) (reclaim_lock s) (retired_count s) (retired_head s) (overflow_head s) (slots s) (hooks s) (arrays s) (config_mutex s) (hook_mutex s) x (fresh s) (freed s) (closed s) (unlinked s) (calls s).
Definition set_fresh s x := Server (router s) (global_epoch s) (reclaim_lock s) (retired_count s) (retired_head s) (overflow_head s) (slots s) (hooks s) (arrays s) (config_mutex s) (hook_mutex s) (live s) x (freed s) (closed s) (unlinked s) (calls s).
Definition set_arrays s x := Server (router s) (global_epoch s) (reclaim_lock s) (retired_count s) (retired_head s) (overflow_head s) (slots s) (hooks s) x (config_mutex s) (hook_mutex s) (live s) (fresh s) (freed s) (closed s) (unlinked s) (calls s).
Definition set_gone s f c u := Server (router s) (global_epoch s) (reclaim_lock s) (retired_count s) (retired_head s) (overflow_head s) (slots s) (hooks s) (arrays s) (config_mutex s) (hook_mutex s) (live s) (fresh s) f c u (calls s).
Definition set_calls s x := Server (router s) (global_epoch s) (reclaim_lock s) (retired_count s) (retired_head s) (overflow_head s) (slots s) (hooks s) (arrays s) (config_mutex s) (hook_mutex s) (live s) (fresh s) (freed s) (closed s) (unlinked s) x.

Definition set_slot (s : server) (k : nat) (sl : csilk_rcu_slot_t) : server := set_slots s (overflow_head s) (<[k := sl]> (slots s)).

(** ** Threads *)

Inductive hook_op := HAdd (handler : Z) | HRemove (handler : Z) | HClear.

(** Where the wait for a grace period returns to. *)
Inductive gk := GRet | GHook (old : nat) | GFree.

(** Where the reclamation returns to. *)
Inductive ck := KSet | KGrace (g : gk).

Inductive place :=
| Idle
(* acquire_rcu_slot_slow *)
| AOwn (i : nat)
| AClaim (i : nat)
| AClear (k : nat)
| ADepth (k : nat)
| AOvHead
| AOv (l : list nat)
| AOvCas (k : nat) (l : list nat)
| AAlloc
| AHead (k : nat)
| APush (k : nat) (old : list nat)
(* csilk_server_router_acquire *)
| RDepth (k : nat)
| REpoch (k : nat)
| RStore (k : nat) (e : Z)
| RNested (k : nat)
| RRouter (k : nat)
| RUnslotted
(* csilk_server_router_release *)
| LDepth (k : nat)
| LActive (k : nat)
(* rcu_thread_exit_destructor *)
| XActive (k : nat)
| XDepth (k : nat)
| XOwner (k : nat)
(* _csilk_reload_try_reclaim *)
| CLock (c : ck)
| CEpoch (c : ck)
| CScan (c : ck) (cur : Z) (i : nat) (mn : Z) (has : bool)
| COvHead (c : ck) (cur mn : Z) (has : bool)
| CScanOv (c : ck) (cur : Z) (l : list nat) (mn : Z) (has : bool)
| CTake (c : ck) (mn : Z)
| CFree (c : ck) (mn : Z) (l retain : list csilk_retired_router_t) (n : Z)
| CHead (c : ck) (retain : list csilk_retired_router_t) (n : Z)
| CPush (c : ck) (retain : list csilk_retired_router_t) (old : option nat) (n : Z)
| CCount (c : ck) (n : Z)
| CUnlock (c : ck)
(* csilk_server_set_router_full *)
| SLock (r : nat) (dl : option nat) (tmp : option bytes)
| SSwap (r : nat) (dl : option nat) (tmp : option bytes)
| SEpoch (old dl : option nat) (tmp : option bytes)
| SAlloc (old dl : option nat) (tmp : option bytes) (e : Z)
| SDup (rec : csilk_retired_router_t)
| SHead (rec : csilk_retired_router_t)
| SPush (rec : csilk_retired_router_t) (old : option nat)
| SCount
| SUnlock
(* csilk_server_wait_grace_period *)
| GTarget (g : gk)
| GScan (g : gk) (target : Z) (i : nat)
| GOvHead (g : gk) (target : Z)
| GOv (g : gk) (target : Z) (l : list nat)
(* csilk_server_add_hook, csilk_server_remove_hook, csilk_server_clear_hooks *)
| HLock (ty : nat) (op : hook_op)
| HLoad (ty : nat) (op : hook_op)
| HPub (ty : nat) (new old : option nat)
| HEpoch (old : nat)
| HFree (old : nat)
| HUnlock
(* _csilk_trigger_hooks *)
| TLoad (ty : nat) (c : bool)
| TCount (ty : nat) (c : bool) (a : nat)
| TRun (a : nat) (count i : nat)
(* _csilk_reload_mgr_free *)
| FTls
| FStat (i : nat)
| FOwner (i : nat)
| FOvHead
| FOv (l : list nat)
| FOvOwner (k : nat) (l : list nat)
| FSlots
| FTake
| FFree (l : list csilk_retired_router_t).

(** A lease: its slot, if it has one, and the router it was given. *)
Notation lease := (option nat * option nat)%type.

Record thread := Thread { pc : place; tls : option nat; toks : list lease; ret : Z }.

Definition goes (s : server) (th : thread) (p : place) : option (server * thread) := Some (s, Thread p (tls th) (toks th) (ret th)).

(** The slot is cached and the lease continues with it. *)
Definition got_slot (s : server) (th : thread) (k : nat) (p : place) : option (server * thread) := Some (s, Thread p (Some k) (toks th) (ret th)).

Definition ret_grace (g : gk) : place :=
  match g with GRet => Idle | GHook old => HFree old | GFree => FTls end.

Definition ret_reclaim (c : ck) : place :=
  match c with KSet => SUnlock | KGrace g => ret_grace g end.

Definition head_ptr (l : list csilk_retired_router_t) : option nat := node <$> head l.

Definition gone (s : server) (x : nat) : bool := bool_decide (x ∈ freed s).

Definition free_router (s : server) (x : nat) : option server :=
  if gone s x then None else Some (set_gone s (x :: freed s) (closed s) (unlinked s)).

(** What is done with a retired record whose readers are gone. *)
Definition free_record (s : server) (rec : csilk_retired_router_t) : option server :=
  s ← match rrouter rec with Some x => free_router s x | None => Some s end;
  Some (set_gone s (freed s)
    (match dl_handle rec with Some h => h :: closed s | None => closed s end)
    (match tmp_path rec with Some p => p :: unlinked s | None => unlinked s end)).

Definition free_array (s : server) (a : nat) : option server :=
  if gone s a then None else Some (set_gone s (a :: freed s) (closed s) (unlinked s)).

(** The handlers of an array: reading a freed one is undefined. *)
Definition handlers (s : server) (a : nat) : option (list Z) :=
  if gone s a then None else Some (default [] (arrays s !! a)).

Definition new_array (s : server) (l : list Z) : server := set_fresh (set_arrays s (<[fresh s := l]> (arrays s))) (S (fresh s)).

Fixpoint find_handler (h : Z) (l : list Z) : option nat :=
  match l with
  | [] => None
  | x :: l' => if x =? h then Some O else S <$> find_handler h l'
  end.

Definition put_pc (s : server) (th : thread) (r : Z) (p : place) : option (server * thread) := Some (s, Thread p (tls th) (toks th) r).

(** The copy an operation publishes; [ok]: there is memory for it. *)
Definition hook_copy (ok : bool) (s : server) (th : thread) (ty : nat) (op : hook_op) : option (server * thread) :=
  let old := default None (hooks s !! ty) in
  let publish l := if ok then put_pc (new_array s l) th 0 (HPub ty (Some (fresh s)) old) else
    put_pc s th (match op with HRemove _ => -1 | _ => 0 end) HUnlock in
  match op with
  | HAdd h =>
      match old with
      | None => publish [h]
      | Some a => l ← handlers s a; publish (h :: l)
      end
  | HRemove h =>
      match old with
      | None => put_pc s th (-1) HUnlock
      | Some a =>
          l ← handlers s a;
          match find_handler h l with
          | None => put_pc s th (-1) HUnlock
          | Some i => if (length l =? 1)%nat then put_pc s th 0 (HPub ty None old) else publish (delete i l)
          end
      end
  | HClear =>
      match old with
      | None => put_pc s th 0 HUnlock
      | Some _ => put_pc s th 0 (HPub ty None old)
      end
  end.

(** A scan for the least epoch of the readers, one slot further. *)
Definition scan_slot (sl : csilk_rcu_slot_t) (mn : Z) (has : bool) : Z * bool :=
  let r := active_epoch sl in
  if r =? 0 then (mn, has) else (if r <? mn then r else mn, true).

Definition waits_for (sl : csilk_rcu_slot_t) (target : Z) : bool :=
  negb (active_epoch sl =? 0) && (active_epoch sl <=? target).

(** A call of a thread; [CStep] is one access of the function it is in. *)
Inductive call :=
| CStep (ok : bool)
| CAcquire
| CUse (j : nat)
| CRelease (j : nat)
| CExit
| CForget
| CSetRouter (dl : option nat) (tmp : option bytes)
| CGrace
| CHook (ty : nat) (op : hook_op)
| CTrigger (ty : nat) (c : bool)
| CServerFree.

Record world := World { srv : server; threads : list thread }.

Section Threads.

Variable pthread_self : nat -> Z.

Definition my_tid (t : nat) : Z := if pthread_self t =? 0 then 1 else pthread_self t.

(** The slot probed at the [i]-th turn. *)
Definition probe (t i : nat) : nat :=
  let start := my_tid t mod CSILK_RELOAD_MAX_READERS in
  Z.to_nat ((start + Z.of_nat i) mod CSILK_RELOAD_MAX_READERS).

(** One access of [acquire_rcu_slot_slow]. *)
Definition acquire_rcu_slot_slow (t : nat) (ok : bool) (s : server) (th : thread) : option (server * thread) :=
  match pc th with
  | AOwn i =>
      sl ← slots s !! probe t i;
      if owner_tid sl =? my_tid t then got_slot s th (probe t i) (RDepth (probe t i)) else
      goes s th (if (S i <? readers)%nat then AOwn (S i) else AClaim 0)
  | AClaim i =>
      sl ← slots s !! probe t i;
      if owner_tid sl =? 0 then
        goes (set_slot s (probe t i) (Slot (active_epoch sl) (my_tid t) (nesting_depth sl))) th (AClear (probe t i))
      else goes s th (if (S i <? readers)%nat then AClaim (S i) else AOvHead)
  | AClear k =>
      sl ← slots s !! k;
      goes (set_slot s k (Slot 0 (owner_tid sl) (nesting_depth sl))) th (ADepth k)
  | ADepth k =>
      sl ← slots s !! k;
      got_slot (set_slot s k (Slot (active_epoch sl) (owner_tid sl) 0)) th k (RDepth k)
  | AOvHead => goes s th (AOv (overflow_head s))
  | AOv [] => goes s th AAlloc
  | AOv (k :: l) =>
      sl ← slots s !! k;
      if owner_tid sl =? my_tid t then got_slot s th k (RDepth k) else goes s th (AOvCas k l)
  | AOvCas k l =>
      sl ← slots s !! k;
      if owner_tid sl =? 0 then goes (set_slot s k (Slot (active_epoch sl) (my_tid t) (nesting_depth sl))) th (AClear k)
      else goes s th (AOv l)
  | AAlloc =>
      if ok then goes (set_slots s (overflow_head s) (slots s ++ [Slot 0 (my_tid t) 0])) th (AHead (length (slots s)))
      else goes s th RUnslotted
  | AHead k => goes s th (APush k (overflow_head s))
  | APush k old =>
      if ok && bool_decide (head (overflow_head s) = head old) then
        got_slot (set_slots s (k :: overflow_head s) (slots s)) th k (RDepth k)
      else goes s th (APush k (overflow_head s))
  | _ => Some (s, th)
  end.

(** One access of [csilk_server_router_acquire] once it has a slot, or none. *)
Definition csilk_server_router_acquire (s : server) (th : thread) : option (server * thread) :=
  match pc th with
  | RDepth k =>
      sl ← slots s !! k;
      goes (set_slot s k (Slot (active_epoch sl) (owner_tid sl) (wrap32 (nesting_depth sl + 1)))) th
        (if nesting_depth sl =? 0 then REpoch k else RNested k)
  | REpoch k => goes s th (RStore k (global_epoch s))
  | RStore k e =>
      sl ← slots s !! k;
      goes (set_slot s k (Slot e (owner_tid sl) (nesting_depth sl))) th (RRouter k)
  | RNested k => _ ← slots s !! k; goes s th (RRouter k)
  | RRouter k => Some (s, Thread Idle (tls th) (toks th ++ [(Some k, router s)]) (ret th))
  | RUnslotted => Some (s, Thread Idle (tls th) (toks th ++ [(None, router s)]) (ret th))
  | _ => Some (s, th)
  end.

Definition csilk_server_router_release (s : server) (th : thread) : option (server * thread) :=
  match pc th with
  | LDepth k =>
      sl ← slots s !! k;
      goes (if 0 <? nesting_depth sl then set_slot s k (Slot (active_epoch sl) (owner_tid sl) (nesting_depth sl - 1)) else s) th
        (if nesting_depth sl <=? 1 then LActive k else Idle)
  | LActive k =>
      sl ← slots s !! k;
      goes (set_slot s k (Slot 0 (owner_tid sl) (nesting_depth sl))) th Idle
  | _ => Some (s, th)
  end.

Definition rcu_thread_exit_destructor (s : server) (th : thread) : option (server * thread) :=
  match pc th with
  | XActive k => sl ← slots s !! k; goes (set_slot s k (Slot 0 (owner_tid sl) (nesting_depth sl))) th (XDepth k)
  | XDepth k => sl ← slots s !! k; goes (set_slot s k (Slot (active_epoch sl) (owner_tid sl) 0)) th (XOwner k)
  | XOwner k =>
      sl ← slots s !! k;
      Some (set_slot s k (Slot (active_epoch sl) 0 (nesting_depth sl)), Thread Idle None (toks th) (ret th))
  | _ => Some (s, th)
  end.

Definition _csilk_reload_try_reclaim (ok : bool) (s : server) (th : thread) : option (server * thread) :=
  match pc th with
  | CLock c => if reclaim_lock s =? 0 then goes (set_lock s 1) th (CEpoch c) else goes s th (ret_reclaim c)
  | CEpoch c => goes s th (CScan c (global_epoch s) 0 UINT64_MAX false)
  | CScan c cur i mn has =>
      sl ← slots s !! i;
      let '(mn, has) := scan_slot sl mn has in
      goes s th (if (S i <? readers)%nat then CScan c cur (S i) mn has else COvHead c cur mn has)
  | COvHead c cur mn has => goes s th (CScanOv c cur (overflow_head s) mn has)
  | CScanOv c cur [] mn has => goes s th (CTake c (if has then mn else wrap64 (cur + 2)))
  | CScanOv c cur (k :: l) mn has =>
      sl ← slots s !! k;
      let '(mn, has) := scan_slot sl mn has in
      goes s th (CScanOv c cur l mn has)
  | CTake c mn => goes (set_retired s []) th (CFree c mn (retired_head s) [] 0)
  | CFree c mn [] retain n => goes s th (match retain with [] => CCount c n | _ => CHead c retain n end)
  | CFree c mn (rec :: l) retain n =>
      if retired_epoch rec <? mn then s ← free_record s rec; goes s th (CFree c mn l retain n)
      else goes s th (CFree c mn l (rec :: retain) (wrap32 (n + 1)))
  | CHead c retain n => goes s th (CPush c retain (head_ptr (retired_head s)) n)
  | CPush c retain old n =>
      if ok && bool_decide (head_ptr (retired_head s) = old) then goes (set_retired s (retain ++ retired_head s)) th (CCount c n)
      else goes s th (CPush c retain (head_ptr (retired_head s)) n)
  | CCount c n => goes (set_count s n) th (CUnlock c)
  | CUnlock c => goes (set_lock s 0) th (ret_reclaim c)
  | _ => Some (s, th)
  end.

Definition csilk_server_set_router_full (t : nat) (ok : bool) (s : server) (th : thread) : option (server * thread) :=
  match pc th with
  | SLock r dl tmp =>
      match config_mutex s with
      | None => goes (set_mutexes s (Some t) (hook_mutex s)) th (SSwap r dl tmp)
      | Some _ => Some (s, th)
      end
  | SSwap r dl tmp => goes (set_router s (Some r)) th (SEpoch (router s) dl tmp)
  | SEpoch old dl tmp =>
      goes (set_epoch s (wrap64 (global_epoch s + 1))) th
        (match old, dl, tmp with None, None, None => CLock KSet | _, _, _ => SAlloc old dl tmp (global_epoch s) end)
  | SAlloc old dl tmp e =>
      if ok then goes (set_fresh s (S (fresh s))) th (SDup (Retired (fresh s) old dl tmp e)) else goes s th (CLock KSet)
  | SDup rec =>
      goes s th (SHead (Retired (node rec) (rrouter rec) (dl_handle rec) (if ok then tmp_path rec else None) (retired_epoch rec)))
  | SHead rec => goes s th (SPush rec (head_ptr (retired_head s)))
  | SPush rec old =>
      if ok && bool_decide (head_ptr (retired_head s) = old) then goes (set_retired s (rec :: retired_head s)) th SCount
      else goes s th (SPush rec (head_ptr (retired_head s)))
  | SCount => goes (set_count s (wrap32 (retired_count s + 1))) th (CLock KSet)
  | SUnlock => goes (set_mutexes s None (hook_mutex s)) th Idle
  | _ => Some (s, th)
  end.

Definition csilk_server_wait_grace_period (s : server) (th : thread) : option (server * thread) :=
  match pc th with
  | GTarget g => goes s th (GScan g (global_epoch s) 0)
  | GScan g target i =>
      sl ← slots s !! i;
      goes s th (if waits_for sl target then GScan g target 0 else
        if (S i <? readers)%nat then GScan g target (S i) else GOvHead g target)
  | GOvHead g target => goes s th (GOv g target (overflow_head s))
  | GOv g target [] => goes s th (CLock (KGrace g))
  | GOv g target (k :: l) =>
      sl ← slots s !! k;
      goes s th (if waits_for sl target then GScan g target 0 else GOv g target l)
  | _ => Some (s, th)
  end.

(** One access of [csilk_server_add_hook], [csilk_server_remove_hook] or
    [csilk_server_clear_hooks]. *)
Definition change_hooks (t : nat) (ok : bool) (s : server) (th : thread) : option (server * thread) :=
  match pc th with
  | HLock ty op =>
      match hook_mutex s with
      | None => goes (set_mutexes s (config_mutex s) (Some t)) th (HLoad ty op)
      | Some _ => Some (s, th)
      end
  | HLoad ty op => hook_copy ok s th ty op
  | HPub ty new old =>
      goes (set_hooks s (<[ty := new]> (hooks s))) th (match old with Some a => HEpoch a | None => HUnlock end)
  | HEpoch a => goes (set_epoch s (wrap64 (global_epoch s + 1))) th (GTarget (GHook a))
  | HFree a => s ← free_array s a; goes s th HUnlock
  | HUnlock => goes (set_mutexes s (config_mutex s) None) th Idle
  | _ => Some (s, th)
  end.

Definition _csilk_trigger_hooks (t : nat) (s : server) (th : thread) : option (server * thread) :=
  match pc th with
  | TLoad ty c => goes s th (match default None (hooks s !! ty) with Some a => TCount ty c a | None => Idle end)
  | TCount ty c a =>
      l ← handlers s a;
      goes s th (if (0 <? length l)%nat && ((ty <=? CSILK_HOOK_SERVER_STOP)%nat || c) then TRun a (length l) 0 else Idle)
  | TRun a count i =>
      l ← handlers s a;
      h ← l !! i;
      goes (set_calls s (calls s ++ [(t, h)])) th (if (S i <? count)%nat then TRun a count (S i) else Idle)
  | _ => Some (s, th)
  end.

Definition _csilk_reload_mgr_free (s : server) (th : thread) : option (server * thread) :=
  match pc th with
  | FTls => Some (s, Thread (FStat 0) None (toks th) (ret th))
  | FStat i =>
      sl ← slots s !! i;
      if active_epoch sl =? 0 then goes s th (FOwner i) else Some (s, th)
  | FOwner i =>
      sl ← slots s !! i;
      goes (set_slot s i (Slot (active_epoch sl) 0 (nesting_depth sl))) th (if (S i <? readers)%nat then FStat (S i) else FOvHead)
  | FOvHead => goes s th (FOv (overflow_head s))
  | FOv [] => goes s th FSlots
  | FOv (k :: l) =>
      sl ← slots s !! k;
      if active_epoch sl =? 0 then goes s th (FOvOwner k l) else Some (s, th)
  | FOvOwner k l =>
      sl ← slots s !! k;
      goes (set_slot s k (Slot (active_epoch sl) 0 (nesting_depth sl))) th (FOv l)
  | FSlots => goes (set_slots s [] (take readers (slots s))) th FTake
  | FTake => goes (set_retired s []) th (FFree (retired_head s))
  | FFree [] => goes (set_live s false) th Idle
  | FFree (rec :: l) => s ← free_record s rec; goes s th (FFree l)
  | _ => Some (s, th)
  end.

(** One access of thread [t]. *)
Definition tstep (t : nat) (ok : bool) (s : server) (th : thread) : option (server * thread) :=
  match pc th with
  | Idle => Some (s, th)
  | _ =>
      if negb (live s) then None else
      match pc th with
      | Idle => Some (s, th)
      | AOwn _ | AClaim _ | AClear _ | ADepth _ | AOvHead | AOv _ | AOvCas _ _ | AAlloc | AHead _ | APush _ _ => acquire_rcu_slot_slow t ok s th
      | RDepth _ | REpoch _ | RStore _ _ | RNested _ | RRouter _ | RUnslotted => csilk_server_router_acquire s th
      | LDepth _ | LActive _ => csilk_server_router_release s th
      | XActive _ | XDepth _ | XOwner _ => rcu_thread_exit_destructor s th
      | CLock _ | CEpoch _ | CScan _ _ _ _ _ | COvHead _ _ _ _ | CScanOv _ _ _ _ _ | CTake _ _ | CFree _ _ _ _ _
      | CHead _ _ _ | CPush _ _ _ _ | CCount _ _ | CUnlock _ => _csilk_reload_try_reclaim ok s th
      | SLock _ _ _ | SSwap _ _ _ | SEpoch _ _ _ | SAlloc _ _ _ _ | SDup _ | SHead _ | SPush _ _ | SCount | SUnlock =>
          csilk_server_set_router_full t ok s th
      | GTarget _ | GScan _ _ _ | GOvHead _ _ | GOv _ _ _ => csilk_server_wait_grace_period s th
      | HLock _ _ | HLoad _ _ | HPub _ _ _ | HEpoch _ | HFree _ | HUnlock => change_hooks t ok s th
      | TLoad _ _ | TCount _ _ _ | TRun _ _ _ => _csilk_trigger_hooks t s th
      | FTls | FStat _ | FOwner _ | FOvHead | FOv _ | FOvOwner _ _ | FSlots | FTake | FFree _ => _csilk_reload_mgr_free s th
      end
  end.

(** A thread that is in no function of the component enters one.  The router
    that is published is a new one. *)
Definition enter (a : call) (s : server) (th : thread) : option (server * thread) :=
  match a with
  | CStep _ => Some (s, th)
  | CAcquire => goes s th (match tls th with Some k => RDepth k | None => AOwn 0 end)
  | CUse j =>
      match toks th !! j with
      | Some (_, Some x) => if gone s x then None else Some (s, th)
      | _ => Some (s, th)
      end
  | CRelease j =>
      match toks th !! j with
      | Some (k, _) => Some (s, Thread (match k with Some k => LDepth k | None => Idle end) (tls th) (delete j (toks th)) (ret th))
      | None => Some (s, th)
      end
  | CExit => goes s th (match tls th with Some k => XActive k | None => Idle end)
  | CForget => Some (s, Thread Idle None (toks th) (ret th))
  | CSetRouter dl tmp => goes (set_fresh s (S (fresh s))) th (SLock (fresh s) dl tmp)
  | CGrace => goes s th (GTarget GRet)
  | CHook ty op => if (ty <? CSILK_HOOK_COUNT)%nat then goes s th (HLock ty op) else put_pc s th (match op with HRemove _ => -1 | _ => 0 end) Idle
  | CTrigger ty c => if (ty <? CSILK_HOOK_COUNT)%nat then goes s th (TLoad ty c) else Some (s, th)
  | CServerFree => goes s th (GTarget GFree)
  end.

Definition act (t : nat) (a : call) (s : server) (th : thread) : option (server * thread) :=
  match a with
  | CStep ok => tstep t ok s th
  | _ => match pc th with Idle => enter a s th | _ => Some (s, th) end
  end.

Definition step (W : world) (e : nat * call) : option world :=
  match threads W !! e.1 with
  | None => Some W
  | Some th => '(s, th) ← act e.1 e.2 (srv W) th; Some (World s (<[e.1 := th]> (threads W)))
  end.

Fixpoint run (W : world) (tr : list (nat * call)) : option world :=
  match tr with
  | [] => Some W
  | e :: tr => W ← step W e; run W tr
  end.

(** [_csilk_reload_mgr_init]. *)
Definition _csilk_reload_mgr_init (r : option nat) : server :=
  Server r 1 0 0 [] [] (replicate readers (Slot 0 0 0)) (replicate CSILK_HOOK_COUNT None) ∅ None None true
    (match r with Some x => S x | None => O end) [] [] [] [].

Definition start (n : nat) (r : option nat) : world := World (_csilk_reload_mgr_init r) (replicate n (Thread Idle None [] 0)).

End Threads.
