(* ===== verification/RcuInv.v ===== *)
(** * The invariants of router publication

    What holds between the accesses of the threads of [Rcu]: whose slots are
    whose and how many leases they count, which mutex is held where, where each
    router and hook array is, and what a scan of the slots has established.
    [frame] is what a step leaves to the other threads; [local_ok] is kept by
    every step of its thread. *)

From stdpp Require Import gmap.
From S2P Require Import Prelude Rcu.

#[local] Open Scope Z_scope.

(** Cases of a step of a thread. *)
Ltac tcases p H :=
  unfold Rcu.tstep in H; destruct p; cbn [pc] in H; try (destruct (live _); [|discriminate H]); cbn [negb] in H;
  repeat match type of H with
  | context [acquire_rcu_slot_slow] => unfold acquire_rcu_slot_slow in H; cbn [pc] in H
  | context [csilk_server_router_acquire] => unfold csilk_server_router_acquire in H; cbn [pc] in H
  | context [csilk_server_router_release] => unfold csilk_server_router_release in H; cbn [pc] in H
  | context [rcu_thread_exit_destructor] => unfold rcu_thread_exit_destructor in H; cbn [pc] in H
  | context [_csilk_reload_try_reclaim] => unfold _csilk_reload_try_reclaim in H; cbn [pc] in H
  | context [csilk_server_set_router_full] => unfold csilk_server_set_router_full in H; cbn [pc] in H
  | context [csilk_server_wait_grace_period] => unfold csilk_server_wait_grace_period in H; cbn [pc] in H
  | context [change_hooks] => unfold change_hooks in H; cbn [pc] in H
  | context [_csilk_trigger_hooks] => unfold _csilk_trigger_hooks in H; cbn [pc] in H
  | context [_csilk_reload_mgr_free] => unfold _csilk_reload_mgr_free in H; cbn [pc] in H
  end;
  unfold goes, got_slot in H.

(** Decides the conditions of a step. *)
Ltac tinv H :=
  repeat match type of H with
  | None = Some _ => discriminate H
  | Some (_, _) = Some (_, _) => injection H as <- <-
  | (_ ← ?x; _) = Some _ => let E := fresh "E" in destruct x eqn:E; cbn [mbind option_bind] in H
  | (if ?b then _ else _) = Some _ => let E := fresh "E" in destruct b eqn:E
  | match ?x with _ => _ end = Some _ => let E := fresh "E" in destruct x eqn:E
  | let '(_, _) := ?x in _ = Some _ => let E := fresh "E" in destruct x eqn:E
  end.

Section Invariants.

Variable pthread_self : nat -> Z.

(** ** Places *)

(** Where a reclamation or a grace period returns to. *)
Definition kont (p : place) : option ck :=
  match p with
  | CLock c | CEpoch c | CScan c _ _ _ _ | COvHead c _ _ _ | CScanOv c _ _ _ _ | CTake c _ | CFree c _ _ _ _
  | CHead c _ _ | CPush c _ _ _ | CCount c _ | CUnlock c => Some c
  | GTarget g | GScan g _ _ | GOvHead g _ | GOv g _ _ => Some (KGrace g)
  | _ => None
  end.

(** Between taking the reclamation lock and taking the retired list. *)
Definition scanning (p : place) : bool :=
  match p with
  | CEpoch _ | CScan _ _ _ _ _ | COvHead _ _ _ _ | CScanOv _ _ _ _ _ | CTake _ _ => true
  | _ => false
  end.

Definition unlocked_scan (p : place) : bool :=
  scanning p && match kont p with Some (KGrace _) => true | _ => false end.

Definition freeing (p : place) : bool :=
  match p with
  | FTls | FStat _ | FOwner _ | FOvHead | FOv _ | FOvOwner _ _ | FSlots | FTake | FFree _ => true
  | _ => false
  end.

(** The server is being freed. *)
Definition closing (p : place) : bool :=
  freeing p || match kont p with Some (KGrace GFree) => true | _ => false end.

(** A thread that has exited, or has not used the server. *)
Definition exited (th : thread) : bool :=
  match pc th, tls th, toks th with Idle, None, [] => true | _, _, _ => false end.

(** ** Invariants *)

#[local] Opaque readers.
#[local] Notation my_tid := (my_tid pthread_self).
#[local] Notation tstep := (tstep pthread_self).

(** The slot, if it belongs to thread [t]. *)
Definition mine (s : server) (t k : nat) : option csilk_rcu_slot_t :=
  sl ← slots s !! k; if owner_tid sl =? my_tid t then Some sl else None.

(** A slot every scan visits. *)
Definition reach (s : server) (k : nat) : Prop := (k < readers)%nat \/ k ∈ overflow_head s.

Definition leases (k : nat) (l : list lease) : Z := Z.of_nat (length (filter (fun x => x.1 = Some k) l)).

(** A lease that is counted in the depth but not in the list. *)
Definition inflight (p : place) (k : nat) : Z :=
  match p with
  | REpoch k' | RStore k' _ | RNested k' | RRouter k' | LDepth k' => if (k =? k')%nat then 1 else 0
  | _ => 0
  end.

(** The slot may be active without a lease. *)
Definition busy (p : place) (k : nat) : bool :=
  match p with
  | RRouter k' | LDepth k' | LActive k' => (k =? k')%nat
  | _ => false
  end.

(** The slot a place works on. *)
Definition place_slot (p : place) : option nat :=
  match p with
  | AClear k | ADepth k | RDepth k | REpoch k | RStore k _ | RNested k | RRouter k | LDepth k | LActive k
  | XActive k | XDepth k | XOwner k => Some k
  | _ => None
  end.

Definition acquiring (p : place) : bool :=
  match p with
  | AOwn _ | AClaim _ | AClear _ | ADepth _ | AOvHead | AOv _ | AOvCas _ _ | AAlloc | AHead _ | APush _ _
  | RDepth _ | REpoch _ | RStore _ _ | RNested _ | RRouter _ => true
  | _ => false
  end.

Definition array_size (s : server) (a : nat) : nat := length (default [] (arrays s !! a)).

(** What holds at a place of the thread's own data. *)
Definition place_ok (s : server) (t : nat) (l : list lease) (p : place) : Prop :=
  match p with
  | RUnslotted => False
  | AOwn i | AClaim i | CScan _ _ i _ _ | GScan _ _ i => (i < readers)%nat
  | AClear k | ADepth k | REpoch k | LActive k => leases k l = 0
  | AOv o | CScanOv _ _ o _ _ | GOv _ _ o => o ⊆ overflow_head s
  | AOvCas k o => k ∈ overflow_head s /\ o ⊆ overflow_head s
  | AHead k | APush k _ => leases k l = 0 /\ (readers <= k < length (slots s))%nat /\ exists sl, mine s t k = Some sl
  | RStore k e => leases k l = 0 /\ 1 <= e <= global_epoch s
  | RNested k => 0 < leases k l
  | RRouter k => exists sl, mine s t k = Some sl /\ 1 <= active_epoch sl <= global_epoch s
  | XActive _ | XDepth _ | XOwner _ => l = []
  | HLock ty _ | HLoad ty _ => (ty < length (hooks s))%nat
  | TLoad _ _ => l <> []
  | TCount _ _ a => l <> [] /\ (a < fresh s)%nat
  | TRun a n i => l <> [] /\ (a < fresh s)%nat /\ (i < n)%nat /\ n = array_size s a
  | _ => freeing p = false
  end.

(** The thread's own slots: each lease has an active one, and depths count them. *)
Record local_ok (s : server) (t : nat) (th : thread) : Prop := {
  lo_tls : forall k, tls th = Some k -> is_Some (mine s t k) /\ reach s k;
  lo_slot : forall k, place_slot (pc th) = Some k -> is_Some (mine s t k) /\ reach s k;
  lo_toks : forall o r, (o, r) ∈ toks th -> exists k sl, o = Some k /\ mine s t k = Some sl /\ 1 <= active_epoch sl <= global_epoch s /\ reach s k;
  lo_depth : forall k sl, mine s t k = Some sl -> nesting_depth sl = leases k (toks th) + inflight (pc th) k;
  lo_active : forall k sl, mine s t k = Some sl -> leases k (toks th) = 0 -> busy (pc th) k = false -> active_epoch sl = 0;
  lo_place : place_ok s t (toks th) (pc th);
  lo_few : acquiring (pc th) = true -> Z.of_nat (length (toks th)) < 2 ^ 32 - 1;
}.

Definition in_config (p : place) : bool :=
  match p with
  | SSwap _ _ _ | SEpoch _ _ _ | SAlloc _ _ _ _ | SDup _ | SHead _ | SPush _ _ | SCount | SUnlock => true
  | _ => match kont p with Some KSet => true | _ => false end
  end.

Definition in_hooks (p : place) : bool :=
  match p with
  | HLoad _ _ | HPub _ _ _ | HEpoch _ | HFree _ | HUnlock => true
  | _ => match kont p with Some (KGrace (GHook _)) => true | _ => false end
  end.

Record mutex_ok (s : server) (t : nat) (p : place) : Prop := {
  mo_config : in_config p = true -> config_mutex s = Some t;
  mo_hooks : in_hooks p = true -> hook_mutex s = Some t;
  mo_pub : forall ty new old, p = HPub ty new old -> hooks s !! ty = Some old;
}.

(** *** Objects: routers and hook arrays *)

Definition gk_ids (g : gk) : list nat := match g with GHook a => [a] | _ => [] end.

(** The retired records a place has in hand. *)
Definition place_recs (p : place) : list csilk_retired_router_t :=
  match p with
  | CFree _ _ l retain _ => l ++ retain
  | CHead _ retain _ | CPush _ retain _ _ => retain
  | SAlloc old dl tmp e => [Retired 0 old dl tmp e]
  | SDup rec | SHead rec | SPush rec _ => [rec]
  | FFree l => l
  | _ => []
  end.

(** The routers a place is about to retire, or has retired. *)
Definition place_doomed (p : place) : list nat :=
  match p with
  | SEpoch old _ _ => option_list old
  | _ => omap rrouter (place_recs p)
  end.

Definition place_ids (p : place) : list nat :=
  match p with
  | SLock r _ _ | SSwap r _ _ => [r]
  | HPub _ new _ => option_list new
  | HEpoch a | HFree a => [a]
  | _ => match kont p with Some (KGrace g) => gk_ids g | _ => [] end
  end ++ place_doomed p.

Definition published (s : server) : list nat := option_list (router s) ++ omap id (hooks s).

Definition server_ids (s : server) : list nat := published s ++ freed s ++ omap rrouter (retired_head s).

Definition world_ids (W : world) : list nat := server_ids (srv W) ++ mjoin (place_ids ∘ pc <$> threads W).

(** The array a place reads. *)
Definition reads (p : place) : option nat :=
  match p with TCount _ _ a | TRun a _ _ => Some a | _ => None end.

(** Thread [th] holds [x] under slot [k], active since epoch [e]. *)
Definition thread_holds (s : server) (th : thread) (k : nat) (e : Z) (x : nat) : Prop :=
  exists r sl, (Some k, r) ∈ toks th /\ (r = Some x \/ reads (pc th) = Some x) /\ slots s !! k = Some sl /\ active_epoch sl = e.

Definition holds (W : world) (k : nat) (e : Z) (x : nat) : Prop :=
  exists t th, threads W !! t = Some th /\ thread_holds (srv W) th k e x.

Definition record_of (W : world) (rec : csilk_retired_router_t) : Prop :=
  rec ∈ retired_head (srv W) \/ exists t th, threads W !! t = Some th /\ rec ∈ place_recs (pc th).

Definition doomed (W : world) (x : nat) : Prop :=
  x ∈ omap rrouter (retired_head (srv W)) \/ exists t th, threads W !! t = Some th /\ x ∈ place_doomed (pc th).

(** The slots of [done] have been scanned for the least epoch. *)
Definition scanned (W : world) (done : nat -> Prop) (mn : Z) (has : bool) : Prop :=
  (forall k e x, holds W k e x -> doomed W x -> done k -> mn <= e) /\ (has = false -> mn = UINT64_MAX).

(** The readers of array [a] are still to be waited for at slots of [todo]. *)
Definition waiting (W : world) (g : gk) (target : Z) (todo : nat -> Prop) : Prop :=
  forall k e a, g = GHook a -> holds W k e a -> e <= target /\ todo k.

(** What a scan has established. *)
Definition scan_ok (W : world) (p : place) : Prop :=
  match p with
  | CScan _ _ i mn has => scanned W (fun k => k < i)%nat mn has
  | COvHead _ _ mn has => scanned W (fun k => k < readers)%nat mn has
  | CScanOv _ _ l mn has => scanned W (fun k => k ∉ l) mn has
  | CTake _ mn => forall k e x, holds W k e x -> doomed W x -> mn <= e
  | CFree _ mn l _ _ => forall k e x rec, holds W k e x -> rec ∈ l -> rrouter rec = Some x -> mn <= e
  | GScan g target i => waiting W g target (fun k => i <= k)%nat
  | GOvHead g target => waiting W g target (fun k => readers <= k)%nat
  | GOv g target l => waiting W g target (fun k => k ∈ l)
  | _ => True
  end.

(** After the grace period nobody holds the array that is about to be freed. *)
Definition past_grace (p : place) : option nat :=
  match p with
  | GTarget _ | GScan _ _ _ | GOvHead _ _ | GOv _ _ _ => None
  | HFree a => Some a
  | _ => match kont p with Some (KGrace (GHook a)) => Some a | _ => None end
  end.

Record server_ok (s : server) : Prop := {
  so_slots : (readers <= length (slots s))%nat;
  so_overflow : forall k, k ∈ overflow_head s -> (readers <= k < length (slots s))%nat;
  so_unowned : forall k sl, slots s !! k = Some sl -> owner_tid sl = 0 -> active_epoch sl = 0 /\ nesting_depth sl = 0;
  so_epoch : 1 <= global_epoch s;
}.

Record world_ok (W : world) : Prop := {
  wo_server : server_ok (srv W);
  wo_hooks : length (hooks (srv W)) = CSILK_HOOK_COUNT;
  wo_nodup : NoDup (world_ids W);
  wo_fresh : forall x, x ∈ world_ids W -> (x < fresh (srv W))%nat;
  wo_local : forall t th, threads W !! t = Some th -> local_ok (srv W) t th;
  wo_mutex : forall t th, threads W !! t = Some th -> mutex_ok (srv W) t (pc th);
  wo_scan : forall t th, threads W !! t = Some th -> scan_ok W (pc th);
  wo_grace : forall t th a k e, threads W !! t = Some th -> past_grace (pc th) = Some a -> ~ holds W k e a;
  wo_held : forall k e x, holds W k e x -> x ∉ freed (srv W);
  wo_closing : forall t th u thu, threads W !! t = Some th -> closing (pc th) = true -> threads W !! u = Some thu ->
    toks thu = [] /\ (u <> t -> exited thu = true);
  wo_epochs : forall k e x rec, holds W k e x -> record_of W rec -> rrouter rec = Some x -> e <= retired_epoch rec;
}.

(** ** What a step leaves to the other threads *)

Hypothesis self_distinct : forall t u, my_tid t = my_tid u -> t = u.

Lemma my_tid_pos (t : nat) : my_tid t <> 0.
Proof. unfold Rcu.my_tid. destruct (pthread_self t =? 0) eqn:E; lia. Qed.

Lemma probe_lt (t i : nat) : (probe pthread_self t i < readers)%nat.
Proof.
  unfold probe. #[local] Transparent readers. unfold readers. #[local] Opaque readers.
  assert (0 <= (my_tid t mod CSILK_RELOAD_MAX_READERS + Z.of_nat i) mod CSILK_RELOAD_MAX_READERS < CSILK_RELOAD_MAX_READERS) by (apply Z.mod_pos_bound; done).
  lia.
Qed.

Lemma mine_slot (s : server) (t k : nat) sl : mine s t k = Some sl -> slots s !! k = Some sl /\ owner_tid sl = my_tid t.
Proof. unfold mine. intros H. destruct (slots s !! k) as [x|]; cbn in H; [|done]. case_match; simplify_eq. split; [done|lia]. Qed.

Lemma slot_mine (s : server) (t k : nat) sl : slots s !! k = Some sl -> owner_tid sl = my_tid t -> mine s t k = Some sl.
Proof. unfold mine. intros -> Ho. cbn. by rewrite Ho, Z.eqb_refl. Qed.

Lemma mine_set_slot (s : server) (u k k' : nat) sl sl' : slots s !! k = Some sl ->
  mine (set_slot s k sl') u k' = if (k =? k')%nat then (if owner_tid sl' =? my_tid u then Some sl' else None) else mine s u k'.
Proof.
  intros Hk. unfold mine, set_slot. cbn [slots set_slots]. destruct (Nat.eqb_spec k k') as [->|Hne].
  - rewrite list_lookup_insert_eq by (by eapply lookup_lt_Some). done.
  - by rewrite list_lookup_insert_ne.
Qed.

(** What a step of thread [t] guarantees to the others. *)
Record frame (t : nat) (s s' : server) : Prop := {
  fr_mine : forall u k, u <> t -> mine s' u k = mine s u k;
  fr_epoch : global_epoch s <= global_epoch s';
  fr_overflow : overflow_head s ⊆ overflow_head s';
  fr_length : (length (slots s) <= length (slots s'))%nat;
  fr_hooklen : length (hooks s') = length (hooks s);
  fr_fresh : (fresh s <= fresh s')%nat;
  fr_arrays : forall a, (a < fresh s)%nat -> arrays s' !! a = arrays s !! a;
  fr_config : forall u, u <> t -> config_mutex s = Some u -> config_mutex s' = Some u;
  fr_hookm : forall u, u <> t -> hook_mutex s = Some u -> hook_mutex s' = Some u;
  fr_hooks : forall u, u <> t -> hook_mutex s = Some u -> hooks s' = hooks s;
}.

Lemma rcu_frame_refl (t : nat) (s : server) : frame t s s.
Proof. by constructor. Qed.

(** Writing a slot that is one's own, or free. *)
Lemma frame_slot (t : nat) (s : server) (k : nat) sl sl' : slots s !! k = Some sl ->
  owner_tid sl = my_tid t \/ owner_tid sl = 0 -> owner_tid sl' = my_tid t \/ owner_tid sl' = 0 -> frame t s (set_slot s k sl').
Proof.
  intros Hk Ho Ho'. constructor; cbn; try done; [|by rewrite length_insert].
  intros u k' Hu. assert (my_tid u <> my_tid t) by (intros ?%self_distinct; done). pose proof (my_tid_pos u).
  rewrite (mine_set_slot _ _ _ _ sl) by done. unfold mine. destruct (Nat.eqb_spec k k') as [<-|]; [|done].
  rewrite Hk. cbn. destruct (Z.eqb_spec (owner_tid sl) (my_tid u)), (Z.eqb_spec (owner_tid sl') (my_tid u)); done || lia.
Qed.

(** Adding a slot. *)
Lemma frame_new_slot (t : nat) (s : server) o sl : overflow_head s ⊆ o -> owner_tid sl = my_tid t -> frame t s (set_slots s o (slots s ++ [sl])).
Proof.
  intros Hsub Ho. constructor; cbn; try done; [|rewrite length_app; lia].
  intros u k Hu. assert (my_tid u <> my_tid t) by (intros ?%self_distinct; done).
  unfold mine. cbn. destruct (decide (k < length (slots s))%nat).
  - by rewrite lookup_app_l.
  - rewrite (lookup_ge_None_2 (slots s)) by lia. cbn. rewrite lookup_app_r by lia.
    destruct (k - length (slots s))%nat; cbn; [|done]. by destruct (Z.eqb_spec (owner_tid sl) (my_tid u)); [lia|].
Qed.

Lemma hook_copy_frame (t : nat) ok s th ty op s' th' : hook_copy ok s th ty op = Some (s', th') -> frame t s s'.
Proof.
  assert (Hnew : forall l, frame t s (new_array s l)).
  { intros l. constructor; cbn; try done; [lia|]. intros a Ha. rewrite lookup_insert_ne; [done|lia]. }
  unfold hook_copy, put_pc. intros H. repeat (case_match; simplify_option_eq); eauto using rcu_frame_refl.
Qed.

Lemma free_record_frame (t : nat) s rec s' : free_record s rec = Some s' -> frame t s s'.
Proof. unfold free_record, free_router. intros H. repeat (case_match; simplify_option_eq); by constructor. Qed.

Lemma tstep_frame (t : nat) ok s p tl tk rt s' th' : tstep t ok s (Thread p tl tk rt) = Some (s', th') ->
  freeing p = false -> local_ok s t (Thread p tl tk rt) -> mutex_ok s t p -> global_epoch s < UINT64_MAX - 2 -> 1 <= global_epoch s -> frame t s s'.
Proof.
  intros H Hf HL HM He He1. pose proof (lo_slot _ _ _ HL) as Hsl. cbn in Hsl.
  assert (Hown : forall k sl, place_slot p = Some k -> slots s !! k = Some sl -> owner_tid sl = my_tid t).
  { intros k sl Hk Hsk. destruct (Hsl k Hk) as [[sl' Hm] _]. apply mine_slot in Hm as [? ?]. naive_solver. }
  assert (Hw : wrap64 (global_epoch s + 1) = global_epoch s + 1) by (apply wrap64_small; unfold UINT64_MAX in *; lia).
  tcases p H; try done;
    repeat first [progress simplify_option_eq | case_match]; try (by apply rcu_frame_refl);
    try (by eapply frame_slot; [done|cbn; eauto|cbn; eauto]); try (by constructor; cbn; try done; lia).
  - eapply frame_slot; [done|right; lia|by left].
  - eapply frame_slot; [done|right; lia|by left].
  - by apply frame_new_slot.
  - constructor; cbn; try done. set_solver.
  - by eapply free_record_frame.
  - constructor; cbn; try done. congruence.
  - pose proof (mo_config _ _ _ HM eq_refl). constructor; cbn; try done. congruence.
  - constructor; cbn; try done; congruence.
  - by eapply hook_copy_frame.
  - pose proof (mo_hooks _ _ _ HM eq_refl). constructor; cbn; try done; [by rewrite length_insert|congruence].
  - unfold free_array in *. case_match; simplify_eq. by constructor.
  - pose proof (mo_hooks _ _ _ HM eq_refl). constructor; cbn; try done; congruence.
Qed.

(** ** The leases of a thread *)

Lemma leases_nonneg (k : nat) l : 0 <= leases k l.
Proof. unfold leases. lia. Qed.

Lemma leases_le (k : nat) l : leases k l <= Z.of_nat (length l).
Proof. unfold leases. pose proof (length_filter (fun x : lease => x.1 = Some k) l). lia. Qed.

Lemma leases_in (k : nat) r l : (Some k, r) ∈ l -> 0 < leases k l.
Proof.
  unfold leases. intros Hin. assert (Hf : (Some k, r) ∈ filter (fun x : lease => x.1 = Some k) l) by (apply list_elem_of_filter; done).
  destruct (filter _ l); [by apply not_elem_of_nil in Hf|cbn; lia].
Qed.

Lemma leases_ex (k : nat) l : 0 < leases k l -> exists r, (Some k, r) ∈ l.
Proof.
  unfold leases. destruct (filter (fun x : lease => x.1 = Some k) l) as [|[o r] f] eqn:E; [cbn; lia|]. intros _.
  assert (Hin : (o, r) ∈ filter (fun x : lease => x.1 = Some k) l) by (rewrite E; left).
  apply list_elem_of_filter in Hin as [? ?]. cbn in *. subst. eauto.
Qed.

Lemma leases_snoc (k k' : nat) r l : leases k (l ++ [(Some k', r)]) = leases k l + (if (k =? k')%nat then 1 else 0).
Proof.
  unfold leases. rewrite filter_app, length_app. destruct (Nat.eqb_spec k k') as [->|].
  - rewrite filter_cons_True by done. cbn. lia.
  - rewrite filter_cons_False by (cbn; congruence). cbn. lia.
Qed.

Lemma leases_delete (k k' j : nat) r l : l !! j = Some (Some k', r) ->
  leases k l = leases k (delete j l) + (if (k =? k')%nat then 1 else 0).
Proof.
  intros Hj. unfold leases. rewrite (delete_Permutation _ _ _ Hj) at 1. destruct (Nat.eqb_spec k k') as [->|].
  - rewrite filter_cons_True by done. cbn [length]. lia.
  - rewrite filter_cons_False by (cbn; congruence). lia.
Qed.

Lemma reach_mono (s s' : server) (k : nat) : overflow_head s ⊆ overflow_head s' -> reach s k -> reach s' k.
Proof. unfold reach. set_solver. Qed.

(** A place stays valid when the thread's own slots do not change. *)
Lemma place_ok_mono (s s' : server) (t : nat) l p : (forall k, mine s' t k = mine s t k) -> global_epoch s <= global_epoch s' ->
  overflow_head s ⊆ overflow_head s' -> (length (slots s) <= length (slots s'))%nat -> length (hooks s') = length (hooks s) ->
  (fresh s <= fresh s')%nat -> (forall a, (a < fresh s)%nat -> arrays s' !! a = arrays s !! a) -> place_ok s t l p -> place_ok s' t l p.
Proof.
  intros Hm He Ho Hl Hh Hf Ha. unfold place_ok, array_size.
  destruct p; try done; try (intros ?; rewrite ?Hh; done); rewrite ?Hm; try (by intros; etrans).
  - intros [? ?]. split; [by apply Ho|by etrans].
  - intros (? & ? & ?). rewrite ?Hm. split_and!; try done; lia.
  - intros (? & ? & ?). rewrite ?Hm. split_and!; try done; lia.
  - intros [? ?]. split; [done|lia].
  - intros (sl & ? & ?). exists sl. split; [done|lia].
  - intros [? ?]. split; [done|lia].
  - intros (? & ? & ? & ->). rewrite Ha by done. split_and!; try done; lia.
Qed.

Lemma local_stable (t u : nat) (s s' : server) th : u <> t -> frame t s s' -> local_ok s u th -> local_ok s' u th.
Proof.
  intros Hu HF HL. pose proof (fun k => fr_mine _ _ _ HF u k Hu) as Hm.
  pose proof (fr_epoch _ _ _ HF). pose proof (fr_overflow _ _ _ HF) as Ho. destruct HL. constructor; try done.
  - intros k Hk. rewrite Hm. split; [by eapply lo_tls0|by eapply reach_mono, lo_tls0].
  - intros k Hk. rewrite Hm. split; [by eapply lo_slot0|by eapply reach_mono, lo_slot0].
  - intros o r Hin. destruct (lo_toks0 o r Hin) as (k & sl & ? & ? & ? & ?). exists k, sl. rewrite Hm. split_and!; try done; try lia; by eapply reach_mono.
  - intros k sl. rewrite Hm. apply lo_depth0.
  - intros k sl. rewrite Hm. apply lo_active0.
  - destruct HF. eapply place_ok_mono; eauto.
Qed.

(** The thread goes on without changing its slots. *)
Lemma local_moves (s s' : server) (t : nat) p p' tl tl' tk rt rt' : local_ok s t (Thread p tl tk rt) ->
  (forall k, mine s' t k = mine s t k) -> global_epoch s <= global_epoch s' -> overflow_head s ⊆ overflow_head s' ->
  (forall k, inflight p' k = inflight p k) -> (forall k, busy p k = true -> busy p' k = true) ->
  (forall k, place_slot p' = Some k -> is_Some (mine s t k) /\ reach s' k) ->
  (forall k, tl' = Some k -> is_Some (mine s t k) /\ reach s' k) ->
  place_ok s' t tk p' -> (acquiring p' = true -> acquiring p = true) -> local_ok s' t (Thread p' tl' tk rt').
Proof.
  intros [] Hm He Ho Hi Hb Hs Ht Hp Ha. cbn in *. constructor; cbn in *; try done.
  - intros k Hk. rewrite Hm. auto.
  - intros k Hk. rewrite Hm. auto.
  - intros o r Hin. destruct (lo_toks0 o r Hin) as (k & sl & ? & ? & ? & ?). exists k, sl. rewrite Hm. split_and!; try done; try lia; by eapply reach_mono.
  - intros k sl. rewrite Hm, Hi. apply lo_depth0.
  - intros k sl. rewrite Hm. intros H1 H2 H3. apply (lo_active0 k sl H1 H2). destruct (busy p k) eqn:E; [|done]. by rewrite Hb in H3.
  - auto.
Qed.

(** The thread writes slot [k], which is its own or free. *)
Lemma local_writes (s : server) (t k : nat) sl sl' p p' tl tl' tk rt rt' : local_ok s t (Thread p tl tk rt) ->
  slots s !! k = Some sl ->
  (owner_tid sl' = my_tid t -> nesting_depth sl' = leases k tk + inflight p' k /\ (leases k tk = 0 -> busy p' k = false -> active_epoch sl' = 0)) ->
  (0 < leases k tk -> owner_tid sl' = my_tid t /\ active_epoch sl' = active_epoch sl) ->
  (forall k', k' <> k -> inflight p' k' = inflight p k' /\ (busy p k' = true -> busy p' k' = true)) ->
  (forall k', place_slot p' = Some k' -> is_Some (mine (set_slot s k sl') t k') /\ reach s k') ->
  (forall k', tl' = Some k' -> is_Some (mine (set_slot s k sl') t k') /\ reach s k') ->
  place_ok (set_slot s k sl') t tk p' -> (acquiring p' = true -> acquiring p = true) -> local_ok (set_slot s k sl') t (Thread p' tl' tk rt').
Proof.
  intros [] Hk Hd Ha Hne Hs Ht Hp Hac. cbn in *. constructor; cbn in *; try done.
  - intros o r Hin. destruct (lo_toks0 o r Hin) as (k' & sl0 & -> & Hm & Hr & ?). pose proof (leases_in _ _ _ Hin).
    destruct (decide (k' = k)) as [->|Hk'].
    + destruct (Ha ltac:(done)) as [Ho He]. apply mine_slot in Hm as [Hm _]. simplify_eq. exists k, sl'.
      split_and!; try done; [|lia|lia]. apply slot_mine; [|done]. cbn. apply list_lookup_insert_eq. by eapply lookup_lt_Some.
    + exists k', sl0. split_and!; try done; [|lia|lia]. rewrite (mine_set_slot _ _ _ _ sl) by done. by rewrite (proj2 (Nat.eqb_neq _ _)).
  - intros k' sl0. rewrite (mine_set_slot _ _ _ _ sl) by done. destruct (Nat.eqb_spec k k') as [<-|Hk'].
    + case_match; [|done]. intros [= <-]. apply Hd. lia.
    + rewrite (proj1 (Hne k' ltac:(done))). apply lo_depth0.
  - intros k' sl0. rewrite (mine_set_slot _ _ _ _ sl) by done. destruct (Nat.eqb_spec k k') as [<-|Hk'].
    + case_match; [|done]. intros [= <-]. apply Hd. lia.
    + intros H1 H2 H3. apply (lo_active0 k' sl0 H1 H2). destruct (busy p k') eqn:E; [|done]. by rewrite (proj2 (Hne k' ltac:(done))) in H3.
  - auto.
Qed.

Lemma free_record_slots s rec s' : free_record s rec = Some s' -> slots s' = slots s /\ overflow_head s' = overflow_head s /\ global_epoch s' = global_epoch s.
Proof. unfold free_record, free_router. intros H. repeat (case_match; simplify_option_eq); done. Qed.

Lemma hook_copy_slots ok s th ty op s' th' : hook_copy ok s th ty op = Some (s', th') -> slots s' = slots s /\ overflow_head s' = overflow_head s /\ global_epoch s' = global_epoch s.
Proof. unfold hook_copy, put_pc. intros H. repeat (case_match; simplify_option_eq); done. Qed.

Lemma server_ok_same s s' : slots s' = slots s -> overflow_head s' = overflow_head s -> global_epoch s <= global_epoch s' -> server_ok s -> server_ok s'.
Proof. intros Hs Ho He []. constructor; rewrite ?Hs, ?Ho; try done. lia. Qed.

Lemma server_ok_slot s k sl : server_ok s -> (owner_tid sl = 0 -> active_epoch sl = 0 /\ nesting_depth sl = 0) -> server_ok (set_slot s k sl).
Proof.
  intros [] Hsl. constructor; cbn; rewrite ?length_insert; try done.
  intros k' sl' H Ho. apply list_lookup_insert_Some in H as [(<- & <- & _)|[_ H]]; [auto|by eapply so_unowned0].
Qed.

Lemma tstep_server_ok (t : nat) ok s p tl tk rt s' th' : tstep t ok s (Thread p tl tk rt) = Some (s', th') ->
  freeing p = false -> local_ok s t (Thread p tl tk rt) -> global_epoch s < UINT64_MAX - 2 -> server_ok s -> server_ok s'.
Proof.
  intros H Hf HL He HS. pose proof (lo_slot _ _ _ HL) as Hsl. cbn in Hsl. pose proof (my_tid_pos t) as Hpos. pose proof (so_epoch _ HS) as He1.
  assert (Hown : forall k sl, place_slot p = Some k -> slots s !! k = Some sl -> owner_tid sl = my_tid t).
  { intros k sl Hk Hsk. destruct (Hsl k Hk) as [[sl' Hm] _]. apply mine_slot in Hm as [? ?]. naive_solver. }
  assert (Hw : wrap64 (global_epoch s + 1) = global_epoch s + 1) by (apply wrap64_small; unfold UINT64_MAX in *; lia).
  tcases p H; try done;
    repeat first [progress simplify_option_eq | case_match]; try done;
    try (apply server_ok_slot; [done|]; cbn; intros; exfalso; by erewrite Hown in * by done);
    try (by apply server_ok_slot; [done|]); try (eapply server_ok_same; [..|exact HS]; cbn; done || lia).
  - destruct HS. constructor; cbn; try done.
    + rewrite length_app. lia.
    + intros k ?%so_overflow0. rewrite length_app. lia.
    + intros k sl Hk Ho. apply lookup_app_Some in Hk as [Hk|[_ Hk]]; [eauto|]. apply list_lookup_singleton_Some in Hk as [_ <-]. done.
  - destruct HS, (lo_place _ _ _ HL) as (_ & ? & _). constructor; cbn; try done.
    intros k' [->|?]%elem_of_cons; [done|auto].
  - apply server_ok_slot; [done|]. intros _. cbn. pose proof (lo_place _ _ _ HL) as Hl. cbn in Hl. subst tk.
    assert (Hm : mine s t k = Some H0) by (apply slot_mine; eauto).
    pose proof (lo_depth _ _ _ HL k _ Hm). pose proof (lo_active _ _ _ HL k _ Hm eq_refl eq_refl). done.
  - destruct (free_record_slots _ _ _ Heqo) as (? & ? & ?). eapply server_ok_same; [..|exact HS]; done || lia.
  - destruct (hook_copy_slots _ _ _ _ _ _ _ H) as (? & ? & ?). eapply server_ok_same; [..|exact HS]; done || lia.
  - unfold free_array in *. case_match; simplify_eq. eapply server_ok_same; [..|exact HS]; cbn; done || lia.
Qed.

(** The thread goes on, and no slot has changed. *)
Lemma local_goes (s s' : server) (t : nat) p p' tl tk rt rt' : local_ok s t (Thread p tl tk rt) ->
  slots s' = slots s -> overflow_head s' = overflow_head s -> global_epoch s <= global_epoch s' ->
  (forall k, inflight p' k = inflight p k) -> (forall k, busy p k = true -> busy p' k = true) -> place_slot p' = None ->
  place_ok s' t tk p' -> (acquiring p' = true -> acquiring p = true) -> local_ok s' t (Thread p' tl tk rt').
Proof.
  intros HL Hs Ho He Hi Hb Hp Hpl Ha. eapply local_moves; [exact HL|..]; try done.
  - intros k. unfold mine. by rewrite Hs.
  - by rewrite Ho.
  - by rewrite Hp.
  - intros k Hk. unfold reach. rewrite Ho. by apply (lo_tls _ _ _ HL k).
Qed.

Lemma readers_pos : (0 < readers)%nat.
Proof. #[local] Transparent readers. unfold readers, CSILK_RELOAD_MAX_READERS. #[local] Opaque readers. lia. Qed.

Lemma mine_set_eq (s : server) (t k : nat) sl sl' : slots s !! k = Some sl -> owner_tid sl' = my_tid t -> mine (set_slot s k sl') t k = Some sl'.
Proof. intros Hk Ho. rewrite (mine_set_slot _ _ _ _ sl) by done. by rewrite Nat.eqb_refl, Ho, Z.eqb_refl. Qed.

Lemma mine_set_some (s : server) (t k k' : nat) sl sl' : slots s !! k = Some sl -> owner_tid sl' = my_tid t ->
  is_Some (mine s t k') -> is_Some (mine (set_slot s k sl') t k').
Proof.
  intros Hk Ho Hs. destruct (decide (k' = k)) as [->|]; [by rewrite (mine_set_eq _ _ _ sl)|].
  rewrite (mine_set_slot _ _ _ _ sl) by done. by rewrite (proj2 (Nat.eqb_neq _ _)).
Qed.

(** Leases are on slots of one's own. *)
Lemma leases_unowned s t th k : local_ok s t th -> mine s t k = None -> leases k (toks th) = 0.
Proof.
  intros HL Hm. destruct (decide (leases k (toks th) = 0)); [done|]. pose proof (leases_nonneg k (toks th)).
  destruct (leases_ex k (toks th) ltac:(lia)) as [r Hin]. destruct (lo_toks _ _ _ HL _ _ Hin) as (? & ? & [= <-] & ? & _). congruence.
Qed.

(** The thread writes slot [k], which is or becomes its own. *)
Lemma local_writes_own (s : server) (t k : nat) sl sl' p p' tl tl' tk rt rt' : local_ok s t (Thread p tl tk rt) ->
  slots s !! k = Some sl -> owner_tid sl' = my_tid t -> reach s k ->
  nesting_depth sl' = leases k tk + inflight p' k -> (leases k tk = 0 -> busy p' k = false -> active_epoch sl' = 0) ->
  (0 < leases k tk -> active_epoch sl' = active_epoch sl) ->
  (forall k', k' <> k -> inflight p' k' = inflight p k' /\ (busy p k' = true -> busy p' k' = true)) ->
  place_slot p' = None \/ place_slot p' = Some k -> tl' = tl \/ tl' = Some k ->
  place_ok (set_slot s k sl') t tk p' -> (acquiring p' = true -> acquiring p = true) -> local_ok (set_slot s k sl') t (Thread p' tl' tk rt').
Proof.
  intros HL Hk Ho Hr Hd Ha Hac Hne Hp Ht Hpl Hq. eapply local_writes; [exact HL|exact Hk|..]; try done.
  - auto.
  - intros k' Hk'. destruct Hp as [Hp|Hp]; [congruence|]. assert (k' = k) as -> by congruence. by rewrite (mine_set_eq _ _ _ sl).
  - intros k' Hk'. destruct Ht as [->| ->].
    + destruct (lo_tls _ _ _ HL k' Hk'). split; [by eapply mine_set_some|done].
    + simplify_eq. by rewrite (mine_set_eq _ _ _ sl).
Qed.

(** Taking a free slot. *)
Lemma local_claims (s : server) (t k : nat) sl p tl tk rt : local_ok s t (Thread p tl tk rt) -> server_ok s -> acquiring p = true ->
  (forall k, inflight p k = 0) -> (forall k, busy p k = false) -> reach s k -> slots s !! k = Some sl -> owner_tid sl = 0 ->
  local_ok (set_slot s k (Slot (active_epoch sl) (my_tid t) (nesting_depth sl))) t (Thread (AClear k) tl tk rt).
Proof.
  intros HL HS Hp Hi Hb Hr Hk Ho. destruct (so_unowned _ HS _ _ Hk Ho) as [Ha Hd].
  assert (Hm : mine s t k = None).
  { unfold mine. rewrite Hk. cbn. pose proof (my_tid_pos t). by destruct (Z.eqb_spec (owner_tid sl) (my_tid t)); [lia|]. }
  pose proof (leases_unowned _ _ _ _ HL Hm) as Hl. cbn in Hl.
  eapply local_writes_own; [exact HL|exact Hk|..]; cbn; auto; try done; try lia.
  intros k' _. rewrite Hi, Hb. done.
Qed.

(** The thread goes on with a slot of its own. *)
Lemma local_gets (s : server) (t k : nat) sl p tl tk rt : local_ok s t (Thread p tl tk rt) -> acquiring p = true ->
  (forall k, inflight p k = 0) -> (forall k, busy p k = false) -> reach s k -> slots s !! k = Some sl -> owner_tid sl = my_tid t ->
  local_ok s t (Thread (RDepth k) (Some k) tk rt).
Proof.
  intros HL Hp Hi Hb Hr Hk Ho. pose proof (slot_mine _ _ _ _ Hk Ho) as Hm.
  eapply local_moves; [exact HL|..]; cbn; try done.
  - intros k'. by rewrite Hb.
  - intros k' [= <-]. by rewrite Hm.
  - intros k' [= <-]. by rewrite Hm.
Qed.

Lemma local_new_slot (s : server) (t : nat) tl tk rt : local_ok s t (Thread AAlloc tl tk rt) -> server_ok s ->
  local_ok (set_slots s (overflow_head s) (slots s ++ [Slot 0 (my_tid t) 0])) t (Thread (AHead (length (slots s))) tl tk rt).
Proof.
  intros HL HS. set (s' := set_slots _ _ _).
  assert (Hlt : forall k, (k < length (slots s))%nat -> mine s' t k = mine s t k) by (intros k Hk; unfold mine; cbn; by rewrite lookup_app_l).
  assert (Hn : mine s' t (length (slots s)) = Some (Slot 0 (my_tid t) 0)).
  { apply slot_mine; [|done]. cbn. by rewrite lookup_app_r, Nat.sub_diag. }
  assert (Hold : forall k sl, mine s t k = Some sl -> mine s' t k = Some sl).
  { intros k sl Hm. rewrite Hlt; [done|]. apply mine_slot in Hm as [?%lookup_lt_Some _]. done. }
  assert (Hnew : forall k sl, mine s' t k = Some sl -> mine s t k = Some sl \/ k = length (slots s) /\ sl = Slot 0 (my_tid t) 0).
  { intros k sl Hm. destruct (decide (k < length (slots s))%nat); [left; by rewrite <- Hlt|].
    pose proof Hm as Hm'. apply mine_slot in Hm' as [Hk%lookup_lt_Some _]. cbn in Hk. rewrite length_app in Hk. cbn in Hk.
    assert (k = length (slots s)) as -> by lia. rewrite Hn in Hm. simplify_eq. by right. }
  assert (Hz : leases (length (slots s)) tk = 0).
  { apply (leases_unowned _ _ _ _ HL). unfold mine. by rewrite lookup_ge_None_2. }
  destruct HL. cbn in *. constructor; cbn.
  - intros k Hk. destruct (lo_tls0 k Hk) as [[sl Hm] ?]. by rewrite (Hold _ _ Hm).
  - done.
  - intros o r Hin. destruct (lo_toks0 o r Hin) as (k & sl & ? & Hm & ?). exists k, sl. by rewrite (Hold _ _ Hm).
  - intros k sl [Hm|[-> ->]]%Hnew; [by rewrite (lo_depth0 _ _ Hm)|cbn; lia].
  - intros k sl [Hm|[-> ->]]%Hnew; [by apply (lo_active0 _ _ Hm)|done].
  - rewrite Hn. pose proof (so_slots _ HS). split_and!; try done; [rewrite length_app; cbn; lia|eauto].
  - auto.
Qed.

Lemma local_pushed (s : server) (t k : nat) o tl tk rt : local_ok s t (Thread (APush k o) tl tk rt) ->
  local_ok (set_slots s (k :: overflow_head s) (slots s)) t (Thread (RDepth k) (Some k) tk rt).
Proof.
  intros HL. destruct (lo_place _ _ _ HL) as (Hz & ? & sl & Hm). cbn in Hz, Hm.
  assert (is_Some (mine s t k)) by eauto. eapply local_moves; [exact HL|..]; cbn; try done; [set_solver|..].
  - intros k' [= <-]. split; [done|]. right. left.
  - intros k' [= <-]. split; [done|]. right. left.
Qed.

Lemma acquire_slow_local (t : nat) ok s p tl tk rt s' th' : acquire_rcu_slot_slow pthread_self t ok s (Thread p tl tk rt) = Some (s', th') ->
  (p = AAlloc -> ok = true) -> local_ok s t (Thread p tl tk rt) -> server_ok s -> local_ok s' t th'.
Proof.
  intros H Hok HL HS. pose proof (lo_slot _ _ _ HL) as Hsl. pose proof (lo_place _ _ _ HL) as Hpl. cbn in Hsl, Hpl. pose proof readers_pos.
  unfold acquire_rcu_slot_slow, goes, got_slot in H. cbn [pc tls toks ret] in H.
  destruct p; repeat first [progress simplify_option_eq | case_match]; try done;
    try (by eapply local_goes; [exact HL|..]; cbn; try done; try lia);
    try (by eapply local_gets; [exact HL|done|done|done|left; apply probe_lt|eassumption|lia]);
    try (by eapply local_claims; [exact HL|done|done|done|done|left; apply probe_lt|eassumption|lia]).
  - eapply local_goes; [exact HL|..]; try done. by apply Nat.ltb_lt.
  - eapply local_goes; [exact HL|..]; try done. by apply Nat.ltb_lt.
  - destruct (Hsl k eq_refl) as [[sl Hm] Hr]. pose proof (lo_depth _ _ _ HL k _ Hm). apply mine_slot in Hm as [? ?]. simplify_eq.
    eapply local_writes_own; [exact HL|eassumption|..]; cbn in *; auto; try done; try lia.
  - destruct (Hsl k eq_refl) as [[sl Hm] Hr]. pose proof (lo_depth _ _ _ HL k _ Hm).
    pose proof (lo_active _ _ _ HL k _ Hm Hpl eq_refl). apply mine_slot in Hm as [? ?]. simplify_eq.
    eapply local_writes_own; [exact HL|eassumption|..]; cbn in *; auto; try done; try lia.
  - eapply local_gets; [exact HL|done|done|done|right; apply Hpl; left|eassumption|lia].
  - eapply local_goes; [exact HL|..]; try done. split; [apply Hpl; left|]. etrans; [|exact Hpl]. set_solver.
  - eapply local_claims; [exact HL|done|done|done|done|right; apply (proj1 Hpl)|eassumption|lia].
  - eapply local_goes; [exact HL|..]; try done. apply (proj2 Hpl).
  - by apply local_new_slot.
  - by specialize (Hok eq_refl).
  - by eapply local_pushed.
  - by eapply local_pushed.
Qed.

(** The lease is complete. *)
Lemma local_leased (s : server) (t k : nat) r tl tk rt : local_ok s t (Thread (RRouter k) tl tk rt) ->
  local_ok s t (Thread Idle tl (tk ++ [(Some k, r)]) rt).
Proof.
  intros HL. destruct (lo_slot _ _ _ HL k eq_refl) as [_ Hr]. destruct (lo_place _ _ _ HL) as (sl & Hm & He).
  destruct HL. cbn in *. constructor; cbn; try done.
  - intros o r' [Hin|Hin]%elem_of_app; [eauto|]. apply list_elem_of_singleton in Hin. simplify_eq. eauto 10.
  - intros k' sl' Hm'. rewrite leases_snoc, (lo_depth0 _ _ Hm'). lia.
  - intros k' sl' Hm'. rewrite leases_snoc. intros Hz _. pose proof (leases_nonneg k' tk). apply (lo_active0 _ _ Hm'); [|by destruct (k' =? k)%nat; [lia|]].
    destruct (k' =? k)%nat; lia.
Qed.

Lemma acquire_local (t : nat) s p tl tk rt s' th' : csilk_server_router_acquire s (Thread p tl tk rt) = Some (s', th') ->
  local_ok s t (Thread p tl tk rt) -> server_ok s -> local_ok s' t th'.
Proof.
  intros H HL HS. pose proof (lo_slot _ _ _ HL) as Hsl. pose proof (lo_place _ _ _ HL) as Hpl. pose proof (lo_few _ _ _ HL) as Hfew.
  pose proof (lo_depth _ _ _ HL) as Hdep. pose proof (lo_active _ _ _ HL) as Hact. cbn in Hsl, Hpl, Hfew, Hdep, Hact. pose proof (so_epoch _ HS).
  unfold csilk_server_router_acquire, goes in H. cbn [pc tls toks ret] in H.
  destruct p; repeat first [progress simplify_option_eq | case_match]; try done; destruct (Hsl k eq_refl) as [[sl Hm] Hr];
    pose proof (Hdep _ _ Hm) as Hd; pose proof (Hact _ _ Hm) as Ha; pose proof (leases_nonneg k tk); cbn in Hd, Ha;
    pose proof (leases_le k tk); rewrite ?Nat.eqb_refl in Hd; pose proof (mine_slot _ _ _ _ Hm) as [Hk Ho]; simplify_eq.
  - eapply local_writes_own; [exact HL|eassumption|..]; cbn; auto; try done; try lia.
    + rewrite Nat.eqb_refl, wrap32_small; lia.
    + intros k' Hne. by rewrite (proj2 (Nat.eqb_neq _ _)).
  - eapply local_writes_own; [exact HL|eassumption|..]; cbn; auto; try done; try lia.
    + rewrite Nat.eqb_refl, wrap32_small; lia.
    + intros k' Hne. by rewrite (proj2 (Nat.eqb_neq _ _)).
  - eapply local_moves; [exact HL|..]; cbn; try done; try lia; try (intros k' [= <-]; by rewrite Hm); by apply (lo_tls _ _ _ HL).
  - eapply local_writes_own; [exact HL|eassumption|..]; cbn; auto; try done; try lia.
    + by rewrite Nat.eqb_refl.
    + eexists. erewrite mine_set_eq; [split; [done|]|..]; try done. cbn. lia.
  - eapply local_moves; [exact HL|..]; cbn; try done; try (intros k' [= <-]; by rewrite Hm); try (by apply (lo_tls _ _ _ HL)).
    destruct (leases_ex k tk Hpl) as [r Hin]. destruct (lo_toks _ _ _ HL _ _ Hin) as (? & sl' & [= <-] & ? & ? & _). naive_solver.
  - by apply local_leased.
Qed.

Lemma release_local (t : nat) s p tl tk rt s' th' : csilk_server_router_release s (Thread p tl tk rt) = Some (s', th') ->
  local_ok s t (Thread p tl tk rt) -> local_ok s' t th'.
Proof.
  intros H HL. pose proof (lo_slot _ _ _ HL) as Hsl. pose proof (lo_place _ _ _ HL) as Hpl.
  pose proof (lo_depth _ _ _ HL) as Hdep. pose proof (lo_active _ _ _ HL) as Hact. cbn in Hsl, Hpl, Hdep, Hact.
  unfold csilk_server_router_release, goes in H. cbn [pc tls toks ret] in H.
  destruct p; repeat first [progress simplify_option_eq | case_match]; try done; destruct (Hsl k eq_refl) as [[sl Hm] Hr];
    pose proof (Hdep _ _ Hm) as Hd; pose proof (Hact _ _ Hm) as Ha; pose proof (leases_nonneg k tk); cbn in Hd, Ha;
    rewrite ?Nat.eqb_refl in Hd; pose proof (mine_slot _ _ _ _ Hm) as [Hk Ho]; simplify_eq; try lia;
    (eapply local_writes_own; [exact HL|eassumption|..]; cbn; rewrite ?Nat.eqb_refl; auto; try done; try lia;
     intros k' Hne; by rewrite (proj2 (Nat.eqb_neq _ _))).
Qed.

Lemma exit_local (t : nat) s p tl tk rt s' th' : rcu_thread_exit_destructor s (Thread p tl tk rt) = Some (s', th') ->
  local_ok s t (Thread p tl tk rt) -> local_ok s' t th'.
Proof.
  intros H HL. pose proof (lo_slot _ _ _ HL) as Hsl. pose proof (lo_place _ _ _ HL) as Hpl.
  pose proof (lo_depth _ _ _ HL) as Hdep. pose proof (lo_active _ _ _ HL) as Hact. cbn in Hsl, Hpl, Hdep, Hact.
  unfold rcu_thread_exit_destructor, goes in H. cbn [pc tls toks ret] in H.
  destruct p; repeat first [progress simplify_option_eq | case_match]; try done; destruct (Hsl k eq_refl) as [[sl Hm] Hr];
    pose proof (Hdep _ _ Hm) as Hd; pose proof (Hact _ _ Hm eq_refl eq_refl) as Ha; cbn in Hd, Ha;
    pose proof (mine_slot _ _ _ _ Hm) as [Hk Ho]; simplify_eq.
  - by eapply local_writes_own; [exact HL|eassumption|..]; cbn; auto; try done; try lia.
  - by eapply local_writes_own; [exact HL|eassumption|..]; cbn; auto; try done; try lia.
  - eapply local_writes; [exact HL|eassumption|..]; cbn; auto; try done.
Qed.

Lemma hook_copy_local (t : nat) ok s ty op tl tk rt s' th' : hook_copy ok s (Thread (HLoad ty op) tl tk rt) ty op = Some (s', th') ->
  local_ok s t (Thread (HLoad ty op) tl tk rt) -> local_ok s' t th'.
Proof.
  intros H HL. unfold hook_copy, put_pc in H. cbn [tls toks] in H.
  repeat (case_match; simplify_option_eq); by eapply local_goes; [exact HL|..].
Qed.

(** The places that work on no slot. *)
Lemma other_local (t : nat) ok s p tl tk rt s' th' : tstep t ok s (Thread p tl tk rt) = Some (s', th') -> place_slot p = None -> acquiring p = false ->
  freeing p = false -> freeing (pc th') = false -> local_ok s t (Thread p tl tk rt) -> global_epoch s < UINT64_MAX - 2 -> server_ok s ->
  (forall ty a, hooks s !! ty = Some (Some a) -> (a < fresh s)%nat) -> local_ok s' t th'.
Proof.
  intros H Hps Hac Hf Hf' HL He HS Hfr. pose proof (lo_place _ _ _ HL) as Hpl. cbn in Hpl. pose proof readers_pos.
  pose proof (so_epoch _ HS) as He1.
  assert (Hw : wrap64 (global_epoch s + 1) = global_epoch s + 1) by (apply wrap64_small; unfold UINT64_MAX in *; lia).
  tcases p H; try done; clear Hps Hac Hf;
    repeat first [progress simplify_option_eq | case_match]; try done;
    try (by eapply local_goes; [exact HL|..]; cbn; rewrite ?Hw; try done; try lia);
    try (by destruct c as [|[]]; try done; eapply local_goes; [exact HL|..]; cbn; try done; lia);
    try (by eapply local_goes; [exact HL|..]; try done; apply Nat.ltb_lt);
    try (by eapply local_goes; [exact HL|..]; try done; cbn; etrans; [|exact Hpl]; set_solver).
  - destruct (free_record_slots _ _ _ Heqo) as (? & ? & ?). eapply local_goes; [exact HL|..]; try done; lia.
  - by eapply hook_copy_local.
  - unfold free_array in *. case_match; simplify_eq. by eapply local_goes; [exact HL|..].
  - eapply local_goes; [exact HL|..]; try done. split; [done|]. cbn in *. destruct (hooks s' !! ty) as [[a|]|] eqn:E; naive_solver.
  - eapply local_goes; [exact HL|..]; try done. unfold handlers in *. case_match; simplify_eq. destruct Hpl as [? ?]. cbn. split_and!; try done.
    match goal with H : _ && _ = true |- _ => apply andb_prop in H as [?%Nat.ltb_lt _] end. done.
  - destruct Hpl as (? & ? & ? & ?). eapply local_goes; [exact HL|..]; try done. cbn. split_and!; try done. by apply Nat.ltb_lt.
Qed.

Lemma tstep_local (t : nat) ok s p tl tk rt s' th' : tstep t ok s (Thread p tl tk rt) = Some (s', th') -> (p = AAlloc -> ok = true) ->
  freeing p = false -> freeing (pc th') = false -> local_ok s t (Thread p tl tk rt) -> global_epoch s < UINT64_MAX - 2 -> server_ok s ->
  (forall ty a, hooks s !! ty = Some (Some a) -> (a < fresh s)%nat) -> local_ok s' t th'.
Proof.
  intros H Hok Hf Hf' HL He HS Hfr. pose proof H as H0. unfold Rcu.tstep in H0.
  destruct p; cbn [pc] in H0; try (destruct (live s); [cbn [negb] in H0|discriminate H0]);
    first [by eapply acquire_slow_local|by eapply acquire_local|by eapply release_local|by eapply exit_local|by eapply other_local].
Qed.

(** A thread enters a function, or drops its cached slot. *)
Lemma local_starts (s : server) (t : nat) p tl tl' tk rt : local_ok s t (Thread Idle tl tk rt) ->
  (acquiring p = true -> Z.of_nat (length tk) < 2 ^ 32 - 1) -> (forall k, inflight p k = 0) ->
  (forall k, place_slot p = Some k -> tl = Some k) -> place_ok s t tk p -> tl' = tl \/ tl' = None -> local_ok s t (Thread p tl' tk rt).
Proof.
  intros [] Hf Hi Hs Hp Ht. cbn in *. constructor; cbn; try done.
  - intros k. destruct Ht as [->| ->]; [apply lo_tls0|done].
  - intros k Hk. apply lo_tls0. auto.
  - intros k sl Hm. rewrite Hi. auto.
  - intros k sl Hm Hl _. eauto.
Qed.

(** A lease is given back. *)
Lemma local_drops (s : server) (t j k : nat) r tl tk rt : local_ok s t (Thread Idle tl tk rt) -> tk !! j = Some (Some k, r) ->
  local_ok s t (Thread (LDepth k) tl (delete j tk) rt).
Proof.
  intros [] Hj. pose proof (list_elem_of_lookup_2 _ _ _ Hj) as Hin. cbn in *.
  destruct (lo_toks0 _ _ Hin) as (? & sl & [= <-] & Hm & ? & ?). constructor; cbn; try done.
  - intros k' [= <-]. rewrite Hm. done.
  - intros o r' Hin'. eapply lo_toks0. rewrite (delete_Permutation _ _ _ Hj). right. exact Hin'.
  - intros k' sl' Hm'. rewrite (lo_depth0 _ _ Hm'), (leases_delete k' _ _ _ _ Hj). lia.
  - intros k' sl' Hm' Hl Hb. apply (lo_active0 _ _ Hm'); [|done]. rewrite (leases_delete k' _ _ _ _ Hj), Hl, Hb. lia.
Qed.

(** A call that a thread enters. *)
Lemma enter_local (t : nat) a s tl tk rt s' th' : enter a s (Thread Idle tl tk rt) = Some (s', th') ->
  local_ok s t (Thread Idle tl tk rt) -> (a = CAcquire -> Z.of_nat (length tk) < 2 ^ 32 - 1) -> (forall ty c, a = CTrigger ty c -> tk <> []) ->
  (a = CExit -> tk = []) -> length (hooks s) = CSILK_HOOK_COUNT -> local_ok s' t th'.
Proof.
  intros H HL Hac Htr Hex Hh. unfold enter, goes, put_pc in H. cbn [pc tls toks ret] in H. pose proof readers_pos.
  destruct a; repeat first [progress simplify_option_eq | case_match]; try done;
    try (by eapply local_goes; [exact HL|..]; cbn; eauto; try lia).
  - eapply local_starts; [exact HL|..]; cbn; auto; try done.
  - eapply local_starts; [exact HL|..]; cbn; auto; try done.
  - by eapply local_drops.
  - destruct (lo_toks _ _ _ HL None o0) as (? & ? & ? & _); [|done]. by eapply list_elem_of_lookup_2.
  - eapply local_starts; [exact HL|..]; cbn; auto; try done.
  - eapply local_starts; [exact HL|..]; cbn; auto; try done.
  - eapply local_starts; [exact HL|..]; cbn; auto; try done; rewrite Hh; by apply Nat.ltb_lt.
Qed.

End Invariants.
