(* ===== verification/RcuFlow.v ===== *)
(** * What a step of router publication moves

    For every access of a thread of [Rcu]: the routers and hook arrays are
    moved, never duplicated; what a thread comes to hold was published; a record
    that is retired carries the epoch; and what is freed was in a place that
    frees it. *)

From stdpp Require Import gmap.
From S2P Require Import Prelude Rcu RcuInv.

#[local] Open Scope Z_scope.

Section Flow.

Variable pthread_self : nat -> Z.

#[local] Opaque readers.
#[local] Notation my_tid := (my_tid pthread_self).
#[local] Notation tstep := (tstep pthread_self).
#[local] Notation local_ok := (local_ok pthread_self).

(** ** Where the objects go *)

Lemma mjoin_insert {A} (f : A -> list nat) (l : list A) (i : nat) x : l !! i = Some x ->
  exists rest, mjoin (f <$> l) ≡ₚ f x ++ rest /\ forall y, mjoin (f <$> <[i := y]> l) ≡ₚ f y ++ rest.
Proof.
  intros Hi. pose proof (lookup_lt_Some _ _ _ Hi). exists (mjoin (f <$> take i l) ++ mjoin (f <$> drop (S i) l)). split.
  - rewrite <- (take_drop_middle l i x Hi) at 1. rewrite fmap_app, fmap_cons, join_app. cbn. solve_Permutation.
  - intros y. rewrite insert_take_drop by done. rewrite fmap_app, fmap_cons, join_app. cbn. solve_Permutation.
Qed.

Lemma omap_id_mjoin (l : list (option nat)) : omap id l = mjoin (option_list <$> l).
Proof. induction l as [|[x|] l IH]; [done| |]; cbn in *; by rewrite IH. Qed.

Lemma hooks_insert (l : list (option nat)) (i : nat) x : l !! i = Some x ->
  exists rest, omap id l ≡ₚ option_list x ++ rest /\ forall y, omap id (<[i := y]> l) ≡ₚ option_list y ++ rest.
Proof.
  intros Hi. destruct (mjoin_insert option_list l i x Hi) as (rest & H1 & H2). exists rest.
  split; [|intros y]; rewrite omap_id_mjoin; auto.
Qed.

Lemma free_record_ids s rec s' : free_record s rec = Some s' ->
  published s' = published s /\ retired_head s' = retired_head s /\ freed s' = option_list (rrouter rec) ++ freed s /\ fresh s' = fresh s /\
  forall x, rrouter rec = Some x -> x ∉ freed s.
Proof.
  unfold free_record, free_router, gone. intros H. repeat (case_match; simplify_option_eq); split_and!; try done.
  all: intros y Hy; simplify_eq; try done; by apply bool_decide_eq_false.
Qed.

Lemma hook_copy_ids ok s tl tk rt ty op s' th' : hook_copy ok s (Thread (HLoad ty op) tl tk rt) ty op = Some (s', th') ->
  server_ids s' = server_ids s /\ (place_ids (pc th') = [] \/ place_ids (pc th') = [fresh s] /\ fresh s' = S (fresh s)).
Proof. unfold hook_copy, put_pc. intros H. repeat (case_match; simplify_option_eq); split; auto. Qed.

(** No object is duplicated; a new one is fresh. *)
Definition ids_flow (s : server) (l : list nat) (s' : server) (l' : list nat) : Prop :=
  server_ids s' ++ l' ⊆+ server_ids s ++ l \/ server_ids s' ++ l' ⊆+ fresh s :: server_ids s ++ l /\ fresh s' = S (fresh s).

Lemma omap_rrouter_cons rec l : omap rrouter (rec :: l) = option_list (rrouter rec) ++ omap rrouter l.
Proof. cbn. by destruct (rrouter rec). Qed.

Ltac flow :=
  unfold server_ids, published, place_ids, place_doomed;
  cbn [kont place_recs router hooks freed retired_head set_retired set_router set_hooks gk_ids option_list];
  rewrite ?omap_rrouter_cons, ?omap_app, ?omap_rrouter_cons; cbn [omap list_omap]; solve_submseteq.

Lemma tstep_ids (t : nat) ok s p tl tk rt s' th' : tstep t ok s (Thread p tl tk rt) = Some (s', th') ->
  mutex_ok s t p -> ids_flow s (place_ids p) s' (place_ids (pc th')).
Proof.
  intros H HM. unfold ids_flow.
  tcases p H; repeat first [progress simplify_option_eq | case_match]; cbn [pc]; try (left; reflexivity); try (left; flow);
    try (by left; destruct c as [|[]]).
  - destruct (free_record_ids _ _ _ Heqo) as (Hp & Hr & Hf & _). left. unfold server_ids. rewrite Hp, Hr, Hf. flow.
  - destruct (hook_copy_ids _ _ _ _ _ _ _ _ _ H) as [-> [->|[-> ->]]]; [by left|right]. split; [flow|done].
  - destruct (hooks_insert _ _ _ (mo_pub _ _ _ HM _ _ _ eq_refl)) as (rest & H1 & H2). left.
    unfold server_ids, published. cbn [hooks set_hooks router freed retired_head]. rewrite (H2 new), H1. flow.
  - destruct (hooks_insert _ _ _ (mo_pub _ _ _ HM _ _ _ eq_refl)) as (rest & H1 & H2). left.
    unfold server_ids, published. cbn [hooks set_hooks router freed retired_head]. rewrite (H2 new), H1. flow.
  - unfold free_array in *. case_match; simplify_eq. left. flow.
  - destruct (free_record_ids _ _ _ Heqo) as (Hp & Hr & Hf & _). left. unfold server_ids. rewrite Hp, Hr, Hf. flow.
Qed.

Lemma enter_ids a s tl tk rt s' th' : enter a s (Thread Idle tl tk rt) = Some (s', th') -> ids_flow s [] s' (place_ids (pc th')).
Proof.
  intros H. unfold ids_flow. unfold enter, goes, put_pc in H. cbn [pc tls toks ret] in H.
  destruct a; repeat first [progress simplify_option_eq | case_match]; try (by left); right. split; [flow|done].
Qed.

(** ** What a step adds to the objects in use *)

(** The leases stay where they are, or the object is published. *)
Definition holds_flow (s : server) (th : thread) (s' : server) (th' : thread) : Prop :=
  forall k e x, thread_holds s' th' k e x -> thread_holds s th k e x \/ x ∈ published s.

Lemma holds_same s th s' th' : (forall y, y ∈ toks th' -> y ∈ toks th) -> (forall x, reads (pc th') = Some x -> reads (pc th) = Some x \/ x ∈ published s) ->
  (forall k sl', 0 < leases k (toks th') -> slots s' !! k = Some sl' -> exists sl, slots s !! k = Some sl /\ active_epoch sl = active_epoch sl') ->
  holds_flow s th s' th'.
Proof.
  intros Ht Hr Hs k e x (r & sl' & Hin & Hx & Hsl & He). destruct (Hs k sl' (leases_in _ _ _ Hin) Hsl) as (sl & ? & ?).
  destruct Hx as [->|Hx]; [|destruct (Hr x Hx); [|by right]].
  - left. exists (Some x), sl. split_and!; auto; congruence.
  - left. exists r, sl. split_and!; auto; congruence.
Qed.

(** Writing slot [k]: it has no lease, or its epoch does not change. *)
Lemma holds_write s th k sl sl' p tl : slots s !! k = Some sl -> leases k (toks th) = 0 \/ active_epoch sl' = active_epoch sl ->
  reads p = None -> holds_flow s th (set_slot s k sl') (Thread p tl (toks th) (ret th)).
Proof.
  intros Hk Hl Hp. apply holds_same; cbn; [done|by rewrite Hp|]. intros k' sl0 Hlk Hsl.
  apply list_lookup_insert_Some in Hsl as [(<- & <- & _)|[? Hsl]]; [|eauto]. exists sl. split; [done|]. destruct Hl; [lia|done].
Qed.

Lemma hooks_published s ty a : hooks s !! ty = Some (Some a) -> a ∈ published s.
Proof.
  intros H. apply elem_of_app. right. apply list_elem_of_omap. exists (Some a). split; [|done]. by eapply list_elem_of_lookup_2.
Qed.

Lemma tstep_holds (t : nat) ok s p tl tk rt s' th' : tstep t ok s (Thread p tl tk rt) = Some (s', th') -> (p = AAlloc -> ok = true) ->
  freeing p = false -> local_ok s t (Thread p tl tk rt) -> holds_flow s (Thread p tl tk rt) s' th'.
Proof.
  intros H Hok Hf HL. pose proof (lo_place _ _ _ _ HL) as Hpl. cbn in Hpl.
  tcases p H; try done; repeat first [progress simplify_option_eq | case_match];
    try (by apply holds_same; cbn; eauto);
    try (by eapply (holds_write _ (Thread _ _ _ _)); [eassumption|cbn; auto|done]).
  - apply holds_same; cbn; [done|done|]. intros k sl' Hl Hk. destruct (leases_ex _ _ Hl) as [r Hin].
    destruct (lo_toks _ _ _ _ HL _ _ Hin) as (? & sl & [= <-] & [Hsl _]%mine_slot & _).
    rewrite lookup_app_l in Hk by (by eapply lookup_lt_Some). naive_solver.
  - eapply (holds_write _ (Thread _ _ _ _)); [eassumption|left; apply Hpl|done].
  - intros k' e x (r & sl & Hin & Hx & Hsl & He). cbn in Hin, Hx. destruct Hx as [->|]; [|done].
    apply elem_of_app in Hin as [Hin|Hin]; [left; exists (Some x), sl; auto|right].
    apply list_elem_of_singleton in Hin. injection Hin as -> Hx. apply elem_of_app. left. rewrite <- Hx. left.
  - apply holds_same; cbn; eauto. by destruct c as [|[]].
  - destruct (free_record_slots _ _ _ Heqo) as (Hs & _). apply holds_same; cbn; [done|done|]. rewrite Hs. eauto.
  - apply holds_same; cbn; eauto. by destruct c as [|[]].
  - destruct (hook_copy_slots _ _ _ _ _ _ _ H) as (Hs & _). unfold hook_copy, put_pc in H.
    apply holds_same; [| |rewrite Hs; eauto]; repeat (case_match; simplify_option_eq); done.
  - unfold free_array in *. case_match; simplify_eq. by apply holds_same; cbn; eauto.
  - apply holds_same; cbn; eauto. intros x [= <-]. right. apply (hooks_published _ ty). cbn in *. destruct (hooks s' !! ty); naive_solver.
Qed.

Lemma enter_holds a s tl tk rt s' th' : enter a s (Thread Idle tl tk rt) = Some (s', th') -> holds_flow s (Thread Idle tl tk rt) s' th'.
Proof.
  intros H. unfold enter, goes, put_pc in H. cbn [pc tls toks ret] in H.
  destruct a; repeat first [progress simplify_option_eq | case_match]; try (by apply holds_same; cbn; eauto).
  all: apply holds_same; cbn; eauto; intros y Hy;
    match goal with H : _ !! _ = Some _ |- _ => rewrite (delete_Permutation _ _ _ H); by right end.
Qed.

(** The retired records of a thread and of the list: a new one carries the epoch. *)
Definition recs_flow (s : server) (p : place) (s' : server) (p' : place) : Prop :=
  (forall rec, rec ∈ retired_head s' ++ place_recs p' ->
    (exists rec0, rec0 ∈ retired_head s ++ place_recs p /\ rrouter rec0 = rrouter rec /\ retired_epoch rec0 = retired_epoch rec) \/
    (exists dl tmp, p = SEpoch (rrouter rec) dl tmp) /\ retired_epoch rec = global_epoch s) /\
  (forall old dl tmp, p' = SEpoch old dl tmp -> exists r dl' tmp', p = SSwap r dl' tmp').

Lemma recs_flow_sub s p s' p' : (forall rec, rec ∈ retired_head s' ++ place_recs p' -> rec ∈ retired_head s ++ place_recs p) ->
  (forall old dl tmp, p' <> SEpoch old dl tmp) -> recs_flow s p s' p'.
Proof. intros Hr Hp. split; [intros rec ?%Hr; left; eauto|]. intros old dl tmp E. by destruct (Hp old dl tmp). Qed.

(** The replaced router is recorded with the epoch of its replacement. *)
Lemma recs_flow_new s s' old dl tmp : retired_head s' = retired_head s -> recs_flow s (SEpoch old dl tmp) s' (SAlloc old dl tmp (global_epoch s)).
Proof.
  intros Hr. split; [|done]. intros rec. cbn. rewrite Hr. intros [Hin|Hin]%elem_of_app.
  - left. exists rec. set_solver.
  - apply list_elem_of_singleton in Hin as ->. right. cbn. eauto.
Qed.

(** A record is copied. *)
Lemma recs_flow_copy s p s' rec rec' p' : place_recs p = [rec] -> retired_head s' = retired_head s -> place_recs p' = [rec'] ->
  rrouter rec = rrouter rec' -> retired_epoch rec = retired_epoch rec' -> (forall old dl tmp, p' <> SEpoch old dl tmp) -> recs_flow s p s' p'.
Proof.
  intros Hp Hr Hp' H1 H2 Hn. split; [|intros old dl tmp E; by destruct (Hn old dl tmp)].
  intros rec0. rewrite Hr, Hp', Hp. intros [Hin|Hin]%elem_of_app; left; [exists rec0; set_solver|].
  apply list_elem_of_singleton in Hin as ->. exists rec. set_solver.
Qed.

Lemma tstep_recs (t : nat) ok s p tl tk rt s' th' : tstep t ok s (Thread p tl tk rt) = Some (s', th') -> recs_flow s p s' (pc th').
Proof.
  intros H.
  tcases p H; repeat first [progress simplify_option_eq | case_match]; cbn [pc place_recs retired_head] in *; try (by apply recs_flow_sub);
    try (apply recs_flow_sub; [cbn; set_solver|done]); try (by apply recs_flow_sub; destruct c as [|[]]).
  - destruct (free_record_ids _ _ _ Heqo) as (_ & Hr & _). apply recs_flow_sub; [cbn; rewrite Hr; set_solver|done].
  - split; [intros rec Hin; left; by exists rec|eauto].
  - by apply recs_flow_new.
  - by apply recs_flow_new.
  - by apply recs_flow_new.
  - by eapply (recs_flow_copy _ _ _ (Retired 0 old dl tmp e)).
  - by eapply (recs_flow_copy _ _ _ rec).
  - by eapply (recs_flow_copy _ _ _ rec).
  - unfold hook_copy, put_pc in H. repeat (case_match; simplify_option_eq); by apply recs_flow_sub.
  - unfold free_array in *. case_match; simplify_eq. by apply recs_flow_sub.
  - destruct (free_record_ids _ _ _ Heqo) as (_ & Hr & _). apply recs_flow_sub; [cbn; rewrite Hr; set_solver|done].
Qed.

(** What a step frees. *)
Lemma tstep_freed (t : nat) ok s p tl tk rt s' th' x : tstep t ok s (Thread p tl tk rt) = Some (s', th') -> freeing p = false -> x ∈ freed s' ->
  x ∈ freed s \/ p = HFree x \/ exists c mn rec l retain n, p = CFree c mn (rec :: l) retain n /\ rrouter rec = Some x /\ retired_epoch rec < mn.
Proof.
  intros H Hf Hin.
  tcases p H; repeat first [progress simplify_option_eq | case_match]; try (left; done).
  - destruct (free_record_ids _ _ _ Heqo) as (_ & _ & Hf' & _). rewrite Hf' in Hin. apply elem_of_app in Hin as [Hin|Hin]; [|by left].
    right. right. destruct (rrouter c0) eqn:E; [|by apply not_elem_of_nil in Hin]. apply list_elem_of_singleton in Hin. subst. repeat eexists; [done|lia].
  - unfold hook_copy, put_pc in H. repeat (case_match; simplify_option_eq); by left.
  - unfold free_array in *. case_match; simplify_eq. cbn in Hin. apply elem_of_cons in Hin as [->|?]; auto.
Qed.

Lemma free_record_mutex s rec s' : free_record s rec = Some s' -> config_mutex s' = config_mutex s /\ hook_mutex s' = hook_mutex s.
Proof. unfold free_record, free_router. intros H. repeat (case_match; simplify_option_eq); done. Qed.

Lemma hook_copy_pub ok s th ty op s' th' : hook_copy ok s th ty op = Some (s', th') ->
  config_mutex s' = config_mutex s /\ hook_mutex s' = hook_mutex s /\ hooks s' = hooks s /\ in_config (pc th') = false /\
  forall ty' new old, pc th' = HPub ty' new old -> ty' = ty /\ old = default None (hooks s !! ty).
Proof.
  unfold hook_copy, put_pc. intros H.
  repeat (case_match; simplify_option_eq); split_and!; try done; intros ??? [= <- <- <-]; auto.
Qed.

Lemma tstep_mutex (t : nat) ok s p tl tk rt s' th' : tstep t ok s (Thread p tl tk rt) = Some (s', th') ->
  local_ok s t (Thread p tl tk rt) -> mutex_ok s t p -> mutex_ok s' t (pc th').
Proof.
  intros H HL [Hc Hh Hp]. pose proof (lo_place _ _ _ _ HL) as Hpl. cbn in Hpl.
  tcases p H; repeat first [progress simplify_option_eq | case_match]; cbn [pc] in *; try (by constructor; auto);
    try (by constructor; destruct c as [|[]]; cbn in *; auto).
  - destruct (free_record_mutex _ _ _ Heqo) as [E1 E2]. constructor; [rewrite E1; exact Hc|rewrite E2; exact Hh|done].
  - destruct (free_record_mutex _ _ _ Heqo) as [E1 E2]. constructor; [rewrite E1; exact Hc|rewrite E2; exact Hh|done].
  - destruct (hook_copy_pub _ _ _ _ _ _ _ H) as (E1 & E2 & E3 & E4 & E5). specialize (Hh eq_refl). constructor.
    + by rewrite E4.
    + by rewrite E2.
    + intros ty' new old E. destruct (E5 _ _ _ E) as [-> ->]. rewrite E3. by destruct (lookup_lt_is_Some_2 _ _ Hpl) as [x ->].
  - unfold free_array in *. case_match; simplify_eq. by constructor; auto.
Qed.

End Flow.
