(* ===== verification/RcuScan.v ===== *)
(** * Scans of the reader slots

    What a reclamation and a wait for a grace period of [Rcu] have established
    at each place of their scans, and that a step of the scan keeps it. *)

From stdpp Require Import gmap.
From S2P Require Import Prelude Rcu RcuInv RcuFlow.

#[local] Open Scope Z_scope.

Section Scans.

Variable pthread_self : nat -> Z.

#[local] Opaque readers.
#[local] Notation tstep := (tstep pthread_self).
#[local] Notation local_ok := (local_ok pthread_self).

(** A step neither starts to free the server nor leaves a grace period early. *)
Lemma tstep_closing (t : nat) ok s p tl tk rt s' th' : tstep t ok s (Thread p tl tk rt) = Some (s', th') ->
  (closing (pc th') = true -> closing p = true /\ toks th' = tk) /\
  forall a, past_grace (pc th') = Some a -> past_grace p = Some a \/ exists target, p = GOv (GHook a) target [].
Proof.
  intros H.
  tcases p H; tinv H; cbn [pc toks]; repeat case_match; try (by split; auto);
    try (by destruct c as [|[]]; split; auto); try (by destruct g; split; auto; intros a [= <-]; eauto).
  unfold hook_copy, put_pc in H. repeat (case_match; simplify_option_eq); by split.
Qed.

(** ** Scans *)

Lemma scan_slot_least sl mn has mn' has' : scan_slot sl mn has = (mn', has') ->
  mn' <= mn /\ (active_epoch sl <> 0 -> mn' <= active_epoch sl) /\ (has' = false -> has = false /\ mn' = mn).
Proof. unfold scan_slot. intros H. repeat case_match; simplify_eq; split_and!; try done; lia. Qed.

Lemma scanned_slot W W' (done done' : nat -> Prop) mn mn' has has' sl i :
  (forall k e x, holds W' k e x -> doomed W' x -> holds W k e x /\ doomed W x) ->
  (forall k e x, holds W k e x -> 1 <= e /\ exists sl, slots (srv W) !! k = Some sl /\ active_epoch sl = e) ->
  (forall k, done' k -> done k \/ k = i) -> slots (srv W) !! i = Some sl -> scan_slot sl mn has = (mn', has') ->
  scanned W done mn has -> scanned W' done' mn' has'.
Proof.
  intros Hb Hr Hd Hi Hsc [Hs Hm]. destruct (scan_slot_least _ _ _ _ _ Hsc) as (H1 & H2 & H3). split.
  - intros k e x Hh Hx Hk. destruct (Hb k e x Hh Hx) as [Hh' Hx']. destruct (Hd k Hk) as [Hk'| ->].
    + specialize (Hs k e x Hh' Hx' Hk'). lia.
    + destruct (Hr i e x Hh') as (? & sl' & ? & <-). simplify_eq. apply H2. lia.
  - intros Hn. destruct (H3 Hn) as [? ->]. auto.
Qed.

Lemma waits_for_true sl target : 1 <= active_epoch sl -> active_epoch sl <= target -> waits_for sl target = true.
Proof. unfold waits_for. intros. apply andb_true_intro. split; [|lia]. apply negb_true_iff. lia. Qed.

Lemma waiting_next W W' g target (todo todo' : nat -> Prop) : (forall k e a, g = GHook a -> holds W' k e a -> holds W k e a) ->
  waiting W g target todo -> (forall k e a, holds W k e a -> todo k -> e <= target -> todo' k) -> waiting W' g target todo'.
Proof. intros Hb Hw Ht k e a Hg Hh. destruct (Hw k e a Hg (Hb k e a Hg Hh)). split; [done|eauto]. Qed.

(** A slot that need not be waited for has no reader from before. *)
Lemma waiting_passed W target (todo todo' : nat -> Prop) i sl :
  (forall k e x, holds W k e x -> 1 <= e /\ exists sl, slots (srv W) !! k = Some sl /\ active_epoch sl = e) ->
  slots (srv W) !! i = Some sl -> waits_for sl target = false -> (forall k, k <> i -> todo k -> todo' k) ->
  forall k e a, holds W k e a -> todo k -> e <= target -> todo' k.
Proof.
  intros Hr Hi Hw Ht k e a Hh Hk He. apply Ht; [|done]. intros ->. destruct (Hr i e a Hh) as (? & sl' & ? & <-). simplify_eq.
  by rewrite waits_for_true in Hw.
Qed.

Lemma place_rec_id p rec x : rec ∈ place_recs p -> rrouter rec = Some x -> x ∈ place_ids p.
Proof.
  intros Hin Hx. unfold place_ids. apply elem_of_app. right. unfold place_doomed.
  assert (Ho : x ∈ omap rrouter (place_recs p)) by (apply list_elem_of_omap; eauto).
  destruct p; try done. by apply not_elem_of_nil in Ho.
Qed.

Lemma place_doomed_cases p x : x ∈ place_doomed p -> (exists dl tmp, p = SEpoch (Some x) dl tmp) \/ exists rec, rec ∈ place_recs p /\ rrouter rec = Some x.
Proof.
  unfold place_doomed. intros H.
  destruct p; try (right; by apply list_elem_of_omap in H). left. destruct old; [|by apply not_elem_of_nil in H].
  apply list_elem_of_singleton in H. subst. eauto.
Qed.

Lemma past_grace_id p a : past_grace p = Some a -> a ∈ place_ids p.
Proof. intros H. apply elem_of_app. left. destruct p; cbn in *; simplify_eq; try left; by destruct c as [|[]]; simplify_eq; left. Qed.

(** A scan that goes on knows more. *)
Lemma tstep_scan W W' (t : nat) ok p tl tk rt s' th' : tstep t ok (srv W) (Thread p tl tk rt) = Some (s', th') ->
  local_ok (srv W) t (Thread p tl tk rt) -> server_ok (srv W) -> global_epoch (srv W) < UINT64_MAX - 2 ->
  (forall k e x, holds W' k e x -> scanning p = true /\ doomed W' x \/ x ∈ place_ids p -> holds W k e x) ->
  (scanning p = true -> forall x, doomed W' x -> doomed W x) ->
  (forall k e x, holds W k e x -> 1 <= e <= global_epoch (srv W) /\ reach (srv W) k /\ exists sl, slots (srv W) !! k = Some sl /\ active_epoch sl = e) ->
  (forall c mn rec x, p = CTake c mn -> rec ∈ retired_head (srv W) -> rrouter rec = Some x -> doomed W' x) ->
  scan_ok W p -> scan_ok W' (pc th').
Proof.
  intros H HL HS He Hb Hd Hr Hrec Hp. pose proof (lo_place _ _ _ _ HL) as Hpl. cbn in Hpl.
  assert (Hb' : scanning p = true -> forall k e x, holds W' k e x -> doomed W' x -> holds W k e x /\ doomed W x).
  { intros Hsc k e x Hh Hx. split; [apply Hb; auto|auto]. }
  assert (Hr' : forall k e x, holds W k e x -> 1 <= e /\ exists sl, slots (srv W) !! k = Some sl /\ active_epoch sl = e).
  { intros k e x Hh. destruct (Hr k e x Hh) as (? & _ & ?). split; [lia|done]. }
  tcases p H; tinv H; cbn [pc]; repeat case_match; try done; cbn [scan_ok] in *; try done;
    try (by destruct c as [|[]]); try (eapply (scanned_slot W W'); [by apply Hb'|done| |eassumption|eassumption|exact Hp]).
  - split; [lia|done].
  - intros k ?. cbn. lia.
  - intros k ?. cbn. match goal with H : (_ <? _)%nat = false |- _ => apply Nat.ltb_ge in H end. lia.
  - destruct Hp as [Hs Hm]. split; [|done]. intros k e x Hh Hx Hk. destruct (Hb' eq_refl k e x Hh Hx) as [Hh' Hx'].
    eapply Hs; [done..|]. by destruct (Hr k e x Hh') as (_ & [?|?] & _).
  - intros k e x Hh Hx. destruct (Hb' eq_refl k e x Hh Hx). eapply (proj1 Hp); [done..|]. apply not_elem_of_nil.
  - intros k e x Hh Hx. exfalso. destruct (Hb' eq_refl k e x Hh Hx) as [Hh' Hx']. destruct (Hr k e x Hh') as (? & _).
    pose proof (proj1 Hp k e x Hh' Hx' (not_elem_of_nil _)). rewrite (proj2 Hp eq_refl) in *. lia.
  - intros k ?. destruct (decide (k = n)); [by right|left]. rewrite elem_of_cons. naive_solver.
  - intros k e x rec Hh Hin Hx. pose proof (Hrec _ _ _ _ eq_refl Hin Hx) as Hd'. destruct (Hb' eq_refl k e x Hh Hd'). eauto.
  - intros k e x rec Hh Hin Hx. eapply (Hp k e x rec); [|by right|done]. apply Hb; [done|right]. by eapply (place_rec_id _ rec); [cbn; set_solver|].
  - intros k e x rec Hh Hin Hx. eapply (Hp k e x rec); [|by right|done]. apply Hb; [done|right]. by eapply (place_rec_id _ rec); [cbn; set_solver|].
  - intros k e a -> Hh. split; [|lia]. apply (Hr k e a). apply Hb; [done|right; left].
  - eapply waiting_next; [|exact Hp|..]; [|cbn; lia]. intros k e a -> Hh. apply Hb; [done|right; left].
  - eapply waiting_next; [|exact Hp|..]; [intros k e a -> Hh; apply Hb; [done|right; left]|].
    eapply waiting_passed; [exact Hr'|eassumption|done|]. cbn. lia.
  - eapply waiting_next; [|exact Hp|..]; [intros k e a -> Hh; apply Hb; [done|right; left]|].
    eapply waiting_passed; [exact Hr'|eassumption|done|]. cbn. match goal with H : (_ <? _)%nat = false |- _ => apply Nat.ltb_ge in H end. lia.
  - eapply waiting_next; [|exact Hp|..]; [intros k e a -> Hh; apply Hb; [done|right; left]|].
    cbn. intros k e a Hh Hk _. destruct (Hr k e a Hh) as (_ & [?|?] & _); [lia|done].
  - eapply waiting_next; [|exact Hp|..]; [|cbn; lia]. intros k e a -> Hh. apply Hb; [done|right; left].
  - eapply waiting_next; [|exact Hp|..]; [intros k e a -> Hh; apply Hb; [done|right; left]|].
    eapply waiting_passed; [exact Hr'|eassumption|done|]. cbn. intros k Hne [->|?]%elem_of_cons; done.
  - unfold hook_copy, put_pc in H. repeat (case_match; simplify_option_eq); done.
Qed.

End Scans.
