(* ===== verification/RcuSafe.v ===== *)
(** * Readers keep what they hold: the safety of router replacement

    The discipline the component of [Rcu] relies on, and the proof that under
    it no thread ever touches a router or a hook array that has been freed,
    nothing is freed twice, and every lease protects its router. *)

From stdpp Require Import gmap.
From S2P Require Import Prelude Rcu RcuInv RcuFlow RcuScan.

#[local] Open Scope Z_scope.

Section Safety.

Variable pthread_self : nat -> Z.

Definition others (W : world) (t : nat) (f : thread -> bool) : bool :=
  forallb (fun p => (p.1 =? t)%nat || f p.2) (imap pair (threads W)).

(** What callers have to respect: no router is published while a reclamation
    that does not hold the configuration mutex is between its scan and its
    taking of the retired list; hooks are triggered under a lease; a thread
    exits, and the server is freed, when the leases have been given back; there
    is memory for an overflow slot; counters do not overflow. *)
Definition allowed (W : world) (e : nat * call) : bool :=
  live (srv W) && (global_epoch (srv W) <? UINT64_MAX - 2) && others W e.1 (fun th => negb (closing (pc th))) &&
  match threads W !! e.1 with
  | None => true
  | Some th =>
      match e.2 with
      | CStep ok =>
          match pc th with
          | AAlloc => ok
          | SSwap _ _ _ => others W e.1 (fun th => negb (unlocked_scan (pc th)))
          | _ => true
          end
      | CAcquire => Z.of_nat (length (toks th)) <? 2 ^ 32 - 1
      | CTrigger _ _ => (0 <? length (toks th))%nat
      | CExit => (length (toks th) =? 0)%nat
      | CServerFree => (length (toks th) =? 0)%nat && others W e.1 exited
      | _ => true
      end
  end.

Fixpoint disciplined (W : world) (tr : list (nat * call)) : bool :=
  match tr with
  | [] => true
  | e :: tr => allowed W e && match step pthread_self W e with Some W => disciplined W tr | None => true end
  end.




#[local] Opaque readers.
#[local] Notation my_tid := (my_tid pthread_self).
#[local] Notation tstep := (tstep pthread_self).
#[local] Notation local_ok := (local_ok pthread_self).
#[local] Notation world_ok := (world_ok pthread_self).
#[local] Notation frame := (frame pthread_self).

Hypothesis self_distinct : forall t u, my_tid t = my_tid u -> t = u.

(** ** One step in the world *)

(** The world after a step of thread [t]. *)
Definition put (W : world) (t : nat) (s : server) (th : thread) : world := World s (<[t := th]> (threads W)).

Lemma world_put_lookup W t s th u thu : threads (put W t s th) !! u = Some thu -> u = t /\ thu = th \/ u <> t /\ threads W !! u = Some thu.
Proof. cbn. intros [(-> & <- & _)|[? ?]]%list_lookup_insert_Some; auto. Qed.

Lemma put_same W t th : threads W !! t = Some th -> put W t (srv W) th = W.
Proof. intros H. unfold put. rewrite list_insert_id by done. by destruct W. Qed.

Lemma world_ids_split W t th : threads W !! t = Some th -> exists rest,
  world_ids W ≡ₚ server_ids (srv W) ++ place_ids (pc th) ++ rest /\
  forall s th', world_ids (put W t s th') ≡ₚ server_ids s ++ place_ids (pc th') ++ rest.
Proof.
  intros H. destruct (mjoin_insert (place_ids ∘ pc) _ _ _ H) as (rest & H1 & H2). exists rest. split.
  - unfold world_ids. by rewrite H1.
  - intros s th'. unfold world_ids. cbn. by rewrite H2.
Qed.

Lemma submseteq_nodup (l k : list nat) : l ⊆+ k -> NoDup k -> NoDup l.
Proof. intros [k' ->]%submseteq_Permutation. by intros (? & _)%NoDup_app. Qed.

Lemma flow_ids (a b rest : list nat) (n n' : nat) : NoDup (b ++ rest) -> (forall x, x ∈ b ++ rest -> (x < n)%nat) -> (n <= n')%nat ->
  a ⊆+ b \/ a ⊆+ n :: b /\ n' = S n -> NoDup (a ++ rest) /\ forall x, x ∈ a ++ rest -> (x < n')%nat.
Proof.
  intros Hn Hf Hle [Hs|[Hs ->]]; apply (submseteq_skips_r rest) in Hs; (split; [|intros x Hx]).
  - by eapply submseteq_nodup.
  - eapply elem_of_submseteq in Hx; [|exact Hs]. specialize (Hf x Hx). lia.
  - eapply submseteq_nodup; [exact Hs|]. cbn. apply NoDup_cons. split; [|done]. intros ?%Hf. lia.
  - eapply elem_of_submseteq in Hx; [|exact Hs]. cbn in Hx. apply elem_of_cons in Hx as [->|Hx%Hf]; lia.
Qed.

Lemma ids_put W t th s' th' : threads W !! t = Some th -> NoDup (world_ids W) -> (forall x, x ∈ world_ids W -> (x < fresh (srv W))%nat) ->
  (fresh (srv W) <= fresh s')%nat -> ids_flow (srv W) (place_ids (pc th)) s' (place_ids (pc th')) ->
  NoDup (world_ids (put W t s' th')) /\ forall x, x ∈ world_ids (put W t s' th') -> (x < fresh s')%nat.
Proof.
  intros Hth Hn Hf Hle Hids. destruct (world_ids_split W t th Hth) as (rest & E & E'). specialize (E' s' th'). rewrite (assoc (++)) in E, E'.
  destruct (flow_ids _ _ rest _ (fresh s') ltac:(by rewrite <- E) ltac:(intros x; rewrite <- E; apply Hf) Hle Hids) as [H1 H2].
  split; [by rewrite E'|]. intros x. rewrite E'. apply H2.
Qed.

(** What a thread has in hand is neither published nor freed. *)
Lemma in_hand W t th x : NoDup (world_ids W) -> threads W !! t = Some th -> x ∈ place_ids (pc th) -> x ∉ published (srv W) /\ x ∉ freed (srv W).
Proof.
  intros Hn H Hx. destruct (world_ids_split W t th H) as (rest & E & _). rewrite E in Hn. apply NoDup_app in Hn as (_ & Hd & _).
  split; intros Hin; apply (Hd x); try (apply elem_of_app; by left); unfold server_ids; rewrite !elem_of_app; auto.
Qed.

Lemma place_doomed_ids p x : x ∈ place_doomed p -> x ∈ place_ids p.
Proof. intros H. apply elem_of_app. by right. Qed.

Lemma doomed_unpublished W x : NoDup (world_ids W) -> doomed W x -> x ∉ published (srv W).
Proof.
  intros Hn [H|(t & th & Ht & H)]; [|by eapply in_hand, place_doomed_ids]. unfold world_ids, server_ids in Hn.
  rewrite <- app_assoc in Hn. apply NoDup_app in Hn as (_ & Hd & _). intros Hp. apply (Hd x Hp). rewrite !elem_of_app. auto.
Qed.

Lemma published_unfreed W x : NoDup (world_ids W) -> x ∈ published (srv W) -> x ∉ freed (srv W).
Proof.
  intros Hn Hp Hf. unfold world_ids, server_ids in Hn. rewrite <- app_assoc in Hn. apply NoDup_app in Hn as (_ & Hd & _).
  apply (Hd x Hp). rewrite !elem_of_app. auto.
Qed.

Lemma record_doomed W rec x : record_of W rec -> rrouter rec = Some x -> doomed W x.
Proof.
  intros [H|(t & th & Ht & H)] Hx; [left|right].
  - apply list_elem_of_omap. eauto.
  - exists t, th. split; [done|]. assert (Ho : x ∈ omap rrouter (place_recs (pc th))) by (apply list_elem_of_omap; eauto).
    unfold place_doomed. destruct (pc th); try done. by apply not_elem_of_nil in Ho.
Qed.

(** What is held is held under an active slot every scan visits. *)
Lemma holds_range W k e x : world_ok W -> holds W k e x ->
  1 <= e <= global_epoch (srv W) /\ reach (srv W) k /\ exists sl, slots (srv W) !! k = Some sl /\ active_epoch sl = e.
Proof.
  intros HW (t & th & Ht & r & sl & Hin & _ & Hsl & <-). destruct (lo_toks _ _ _ _ (wo_local _ _ HW _ _ Ht) _ _ Hin) as (k' & sl' & [= <-] & [Hm _]%mine_slot & ? & ?).
  simplify_eq. eauto.
Qed.

Section Step.

Context (W : world) (t : nat) (th th' : thread) (s' : server).
Hypothesis HW : world_ok W.
Hypothesis Hth : threads W !! t = Some th.
Hypothesis Hframe : frame t (srv W) s'.
Hypothesis Hids : ids_flow (srv W) (place_ids (pc th)) s' (place_ids (pc th')).
Hypothesis Hholds : holds_flow (srv W) th s' th'.
Hypothesis Hrecs : recs_flow (srv W) (pc th) s' (pc th').

Let W' : world := put W t s' th'.

(** What is held afterwards was held before, or was published. *)
Lemma holds_back k e x : holds W' k e x -> holds W k e x \/ x ∈ published (srv W).
Proof.
  intros (u & thu & Hu & Hh). apply world_put_lookup in Hu as [[-> ->]|[Hne Hu]].
  - destruct (Hholds k e x Hh); [left; exists t, th; auto|by right].
  - left. exists u, thu. split; [done|]. destruct Hh as (r & sl & Hin & Hx & Hsl & He). exists r, sl. split_and!; try done.
    destruct (lo_toks _ _ _ _ (wo_local _ _ HW _ _ Hu) _ _ Hin) as (k' & sl' & [= <-] & Hm & _).
    pose proof Hm as Hm'. rewrite <- (fr_mine _ _ _ _ Hframe u k Hne) in Hm'. apply mine_slot in Hm as [Hm _], Hm' as [Hm' _]. cbn in Hsl. congruence.
Qed.

Lemma record_back rec : record_of W' rec ->
  (exists rec0, record_of W rec0 /\ rrouter rec0 = rrouter rec /\ retired_epoch rec0 = retired_epoch rec) \/
  (exists dl tmp, pc th = SEpoch (rrouter rec) dl tmp) /\ retired_epoch rec = global_epoch (srv W).
Proof.
  intros H. assert (H' : rec ∈ retired_head s' ++ place_recs (pc th') \/ record_of W rec).
  { destruct H as [H|(u & thu & Hu & H)]; [left; set_solver|]. apply world_put_lookup in Hu as [[-> ->]|[Hne Hu]]; [left; set_solver|].
    right. right. eauto. }
  clear H. destruct H' as [H|H]; [|left; eauto]. destruct (proj1 Hrecs rec H) as [(rec0 & H0 & ? & ?)|?]; [left|by right].
  exists rec0. split; [|done]. apply elem_of_app in H0 as [?|?]; [by left|right; eauto].
Qed.

Lemma doomed_back x : doomed W' x -> doomed W x \/ exists r dl tmp, pc th = SSwap r dl tmp.
Proof.
  assert (Hrec : forall rec, record_of W' rec -> rrouter rec = Some x -> doomed W x).
  { intros rec Hr Hx. destruct (record_back rec Hr) as [(rec0 & H0 & ? & _)|[(dl & tmp & E) _]].
    - eapply record_doomed; [done|congruence].
    - right. exists t, th. split; [done|]. rewrite E, Hx. left. }
  intros [H|(u & thu & Hu & H)].
  - apply list_elem_of_omap in H as (rec & H & Hx). left. eapply Hrec; [by left|done].
  - apply place_doomed_cases in H as [(dl & tmp & E)|(rec & Hr & Hx)]; [|left; eapply Hrec; [right; eauto|done]].
    apply world_put_lookup in Hu as [[-> ->]|[Hne Hu]]; [right; by eapply (proj2 Hrecs)|left].
    right. exists u, thu. split; [done|]. rewrite E. left.
Qed.

(** A held object that somebody is to free, or has retired, was held before. *)
Lemma holds_back_unpublished k e x : holds W' k e x -> x ∉ published (srv W) -> holds W k e x.
Proof. intros [?|?]%holds_back ?; done. Qed.

Hypothesis Hswap : forall r dl tmp u thu, pc th = SSwap r dl tmp -> u <> t -> threads W !! u = Some thu -> scanning (pc thu) = false.

(** The scans of the other threads. *)
Lemma scan_stable u thu : u <> t -> threads W !! u = Some thu -> scan_ok W' (pc thu).
Proof.
  intros Hne Hu. pose proof (wo_scan _ _ HW _ _ Hu) as Hs. pose proof (wo_nodup _ _ HW) as Hn.
  assert (Hids' : forall k e x, holds W' k e x -> x ∈ place_ids (pc thu) -> holds W k e x).
  { intros k e x Hh Hx. apply holds_back_unpublished; [done|]. by eapply (in_hand W u thu). }
  assert (Hd : scanning (pc thu) = true -> forall k e x, holds W' k e x -> doomed W' x -> holds W k e x /\ doomed W x).
  { intros Hsc k e x Hh [Hx|(r & dl & tmp & E)]%doomed_back.
    - split; [|done]. apply holds_back_unpublished; [done|]. by apply doomed_unpublished.
    - rewrite (Hswap r dl tmp u thu) in Hsc; done. }
  clearbody W'. destruct (pc thu) eqn:E; try done; cbn [scan_ok] in *.
  - destruct Hs as [Hs Hm]. split; [|done]. intros k e x Hh Hx Hk. destruct (Hd eq_refl k e x Hh Hx). eauto.
  - destruct Hs as [Hs Hm]. split; [|done]. intros k e x Hh Hx Hk. destruct (Hd eq_refl k e x Hh Hx). eauto.
  - destruct Hs as [Hs Hm]. split; [|done]. intros k e x Hh Hx Hk. destruct (Hd eq_refl k e x Hh Hx). eauto.
  - intros k e x Hh Hx. destruct (Hd eq_refl k e x Hh Hx). eauto.
  - intros k e x rec Hh Hin Hx. eapply (Hs k e x rec); [|done|done]. apply Hids'; [done|]. by eapply (place_rec_id _ rec); [cbn; set_solver|].
  - eapply waiting_next; [|exact Hs|auto]. intros k e a -> Hh. apply Hids'; [done|left].
  - eapply waiting_next; [|exact Hs|auto]. intros k e a -> Hh. apply Hids'; [done|left].
  - eapply waiting_next; [|exact Hs|auto]. intros k e a -> Hh. apply Hids'; [done|left].
Qed.

Hypothesis Hserver : server_ok s'.
Hypothesis Hlocal : local_ok s' t th'.
Hypothesis Hmutex : mutex_ok s' t (pc th').
Hypothesis Hfreed : forall x, x ∈ freed s' -> x ∈ freed (srv W) \/ x ∉ published (srv W) /\ forall k e, ~ holds W k e x.
Hypothesis Hscan : scan_ok W' (pc th').
Hypothesis Hgrace : forall a k e, past_grace (pc th') = Some a -> ~ holds W' k e a.
Hypothesis Hopen : forall u thu, u <> t -> threads W !! u = Some thu -> closing (pc thu) = false.
Hypothesis Hclosing : closing (pc th') = true -> toks th' = [] /\ forall u thu, u <> t -> threads W !! u = Some thu -> exited thu = true.

Lemma ids_step : NoDup (world_ids W') /\ forall x, x ∈ world_ids W' -> (x < fresh s')%nat.
Proof. eapply ids_put; [exact Hth|apply HW|apply HW|apply (fr_fresh _ _ _ _ Hframe)|exact Hids]. Qed.

Lemma world_step : world_ok W'.
Proof.
  pose proof ids_step as [Hn Hf]. pose proof (wo_nodup _ _ HW) as Hn0. constructor; try done.
  - cbn. rewrite (fr_hooklen _ _ _ _ Hframe). apply HW.
  - intros u thu [[-> ->]|[Hne Hu]]%world_put_lookup; [done|]. eapply local_stable; [done..|]. by apply HW.
  - intros u thu [[-> ->]|[Hne Hu]]%world_put_lookup; [done|]. destruct ((wo_mutex _ _ HW) u thu Hu). constructor; cbn.
    + intros ?%mo_config. by eapply fr_config.
    + intros ?%mo_hooks. by eapply fr_hookm.
    + intros ty new old E. rewrite (fr_hooks _ _ _ _ Hframe u); [by eapply mo_pub|done|]. apply mo_hooks. by rewrite E.
  - intros u thu [[-> ->]|[Hne Hu]]%world_put_lookup; [done|]. by eapply scan_stable.
  - intros u thu a k e [[-> ->]|[Hne Hu]]%world_put_lookup Ha; [auto|]. intros Hh. eapply ((wo_grace _ _ HW) u thu a); [done..|].
    apply holds_back_unpublished; [done|]. eapply (in_hand W u thu); [done..|]. by apply past_grace_id.
  - intros k e x Hh. cbn. intros [Hx|[Hx Hno]]%Hfreed.
    + apply holds_back in Hh as [Hh|Hp]; [by eapply (wo_held _ _ HW)|by eapply published_unfreed].
    + eapply Hno, holds_back_unpublished; eauto.
  - intros u thu v thv Hu Hc Hv. apply world_put_lookup in Hu as [[-> ->]|[Hne Hu]]; [|by rewrite (Hopen u thu) in Hc].
    destruct (Hclosing Hc) as [Ht He]. apply world_put_lookup in Hv as [[-> ->]|[Hne Hv]]; [done|].
    specialize (He v thv Hne Hv). split; [|done]. unfold exited in He. by repeat case_match.
  - intros k e x rec Hh Hr Hx. destruct (record_back rec Hr) as [(rec0 & H0 & E1 & E2)|[(dl & tmp & E) Ee]].
    + rewrite <- E2. assert (doomed W x) by (eapply record_doomed; [done|congruence]).
      apply (wo_epochs _ _ HW k e x rec0); [|done|congruence]. apply holds_back_unpublished; [done|]. by apply doomed_unpublished.
    + rewrite Ee. apply (holds_range W k e x); [done|]. apply holds_back_unpublished; [done|].
      eapply (in_hand W t th); [done..|]. rewrite E, Hx. apply place_doomed_ids. left.
Qed.

End Step.

(** ** No step is undefined *)

Lemma gone_false s x : x ∉ freed s -> gone s x = false.
Proof. intros H. by apply bool_decide_eq_false. Qed.

Lemma free_record_some s rec : (forall x, rrouter rec = Some x -> x ∉ freed s) -> is_Some (free_record s rec).
Proof.
  intros H. unfold free_record, free_router. destruct (rrouter rec) as [x|]; cbn; [|by eexists]. rewrite gone_false by auto. cbn. by eexists.
Qed.

Lemma handlers_some s a : a ∉ freed s -> handlers s a = Some (default [] (arrays s !! a)).
Proof. intros H. unfold handlers. by rewrite gone_false. Qed.

Lemma hook_copy_some ok s th ty op : (forall a, hooks s !! ty = Some (Some a) -> a ∉ freed s) -> is_Some (hook_copy ok s th ty op).
Proof.
  intros H. unfold hook_copy, put_pc. assert (Ha : forall a, default None (hooks s !! ty) = Some a -> a ∉ freed s).
  { intros a E. apply H. destruct (hooks s !! ty) as [o|]; cbn in E; by subst. }
  destruct op; destruct (default None (hooks s !! ty)) as [a|]; rewrite ?(handlers_some _ _ (Ha _ eq_refl)); cbn; repeat case_match; by eexists.
Qed.

(** An array that is being read is held. *)
Lemma reading_held W t th a : world_ok W -> threads W !! t = Some th -> reads (pc th) = Some a -> toks th <> [] -> a ∉ freed (srv W).
Proof.
  intros HW Ht Ha Hn. destruct (toks th) as [|[o r] l] eqn:E; [done|]. assert (Hin : (o, r) ∈ toks th) by (rewrite E; left).
  destruct (lo_toks _ _ _ _ (wo_local _ _ HW _ _ Ht) _ _ Hin) as (k & sl & -> & [Hm _]%mine_slot & _).
  eapply (wo_held _ _ HW k). exists t, th. split; [done|]. exists r, sl. auto.
Qed.

Lemma tstep_some W t ok p tl tk rt : world_ok W -> threads W !! t = Some (Thread p tl tk rt) -> live (srv W) = true ->
  is_Some (tstep t ok (srv W) (Thread p tl tk rt)).
Proof.
  intros HW Ht Hlive. pose proof (wo_local _ _ HW _ _ Ht) as HL. pose proof (lo_place _ _ _ _ HL) as Hpl. cbn in Hpl.
  pose proof (wo_server _ _ HW) as HS. pose proof (wo_nodup _ _ HW) as Hn. pose proof (fun x => in_hand W t _ x Hn Ht) as Hin. cbn [pc] in Hin.
  assert (Hslot : forall k, place_slot p = Some k -> is_Some (slots (srv W) !! k)).
  { intros k Hk. destruct (lo_slot _ _ _ _ HL k Hk) as [[sl [Hm _]%mine_slot] _]. eauto. }
  assert (Hst : forall i, (i < readers)%nat -> is_Some (slots (srv W) !! i)).
  { intros i Hi. apply lookup_lt_is_Some. pose proof (so_slots _ HS). lia. }
  assert (Hov : forall k, k ∈ overflow_head (srv W) -> is_Some (slots (srv W) !! k)).
  { intros k Hk. apply lookup_lt_is_Some. pose proof (so_overflow _ HS k Hk). lia. }
  pose proof (fun i => Hst _ (probe_lt pthread_self t i)) as Hpr.
  unfold Rcu.tstep. rewrite Hlive. destruct p; cbn [pc negb]; try (eexists; reflexivity);
    
    unfold acquire_rcu_slot_slow, csilk_server_router_acquire, csilk_server_router_release, rcu_thread_exit_destructor,
      _csilk_reload_try_reclaim, csilk_server_set_router_full, csilk_server_wait_grace_period, change_hooks, _csilk_trigger_hooks, _csilk_reload_mgr_free;
    cbn [pc]; try (destruct (Hslot k eq_refl) as [sl ->]; cbn; repeat case_match; try done; eexists; reflexivity);
    try (destruct (Hpr i) as [sl ->]; cbn; repeat case_match; try done; eexists; reflexivity);
    try (destruct (Hst i Hpl) as [sl ->]; cbn; repeat case_match; try done; eexists; reflexivity);
    try (destruct l as [|k l]; [eexists; reflexivity|]; destruct (Hov k) as [sl ->]; [set_solver|]; cbn; repeat case_match; try done; eexists; reflexivity);
    try (destruct (Hov k (proj1 Hpl)) as [sl ->]; cbn; repeat case_match; try done; eexists; reflexivity);
    try (repeat case_match; try done; eexists; reflexivity).
  - destruct l as [|rec l]; [eexists; reflexivity|]. assert (is_Some (free_record (srv W) rec)) as [s E].
    { apply free_record_some. intros x Hx. apply Hin. by eapply (place_rec_id _ rec); [left|]. }
    rewrite E. cbn. case_match; try done; eexists; reflexivity.
  - apply hook_copy_some. intros a Ha. eapply published_unfreed; [done|]. by eapply hooks_published.
  - unfold free_array. rewrite gone_false; [eexists; reflexivity|]. apply Hin. left.
  - rewrite handlers_some; [eexists; reflexivity|]. eapply (reading_held W t); [done|exact Ht|done|apply Hpl].
  - destruct Hpl as (? & ? & Hi & Hc). rewrite handlers_some; [|by eapply (reading_held W t)]. cbn. subst count. unfold array_size in Hi.
    apply lookup_lt_is_Some in Hi as [h ->]. eexists; reflexivity.
Qed.

(** ** Steps and calls keep the invariant *)

Lemma others_true W t f : others W t f = true <-> forall u th, u <> t -> threads W !! u = Some th -> f th = true.
Proof.
  unfold others. rewrite forallb_forall. split.
  - intros H u th Hne Hu. assert (Hin : In (u, th) (imap pair (threads W))).
    { apply list_elem_of_In, list_elem_of_lookup. exists u. by rewrite list_lookup_imap, Hu. }
    specialize (H _ Hin). cbn in H. apply orb_prop in H as [H%Nat.eqb_eq|H]; done.
  - intros H [u th] Hin. apply list_elem_of_In, list_elem_of_lookup in Hin as [i Hi]. rewrite list_lookup_imap in Hi.
    destruct (threads W !! i) eqn:E; cbn in Hi; [|done]. injection Hi as <- <-. cbn. destruct (Nat.eqb_spec i t); [done|]. cbn. eauto.
Qed.

Lemma tstep_ok W t ok p tl tk rt s' th' : world_ok W -> threads W !! t = Some (Thread p tl tk rt) -> allowed W (t, CStep ok) = true ->
  tstep t ok (srv W) (Thread p tl tk rt) = Some (s', th') -> freeing (pc th') = false -> world_ok (put W t s' th').
Proof.
  intros HW Ht Hal H Hf'. pose proof (wo_local _ _ HW _ _ Ht) as HL. pose proof (lo_place _ _ _ _ HL) as Hpl. cbn in Hpl.
  pose proof (wo_server _ _ HW) as HS. pose proof (wo_nodup _ _ HW) as Hn. pose proof (wo_mutex _ _ HW _ _ Ht) as HM. cbn in HM.
  unfold allowed in Hal. cbn [fst snd] in Hal. rewrite Ht in Hal. cbn [pc] in Hal. rewrite !andb_true_iff in Hal. destruct Hal as [[[Hlive He%Z.ltb_lt] Hop] Hal].
  assert (Hf : freeing p = false) by (destruct p; try done).
  assert (Hfresh : forall ty a, hooks (srv W) !! ty = Some (Some a) -> (a < fresh (srv W))%nat).
  { intros ty a Ha. apply (wo_fresh _ _ HW). unfold world_ids, server_ids. rewrite !elem_of_app. left. left. by eapply hooks_published. }
  pose proof (tstep_frame _ self_distinct _ _ _ _ _ _ _ _ _ H Hf HL HM He (so_epoch _ HS)) as Hfr.
  assert (Hal' : p = AAlloc -> ok = true) by (intros ->; exact Hal).
  assert (Hsw : forall r dl tmp u thu, p = SSwap r dl tmp -> u <> t -> threads W !! u = Some thu -> scanning (pc thu) = false).
  { intros r dl tmp u thu -> Hne Hu. destruct (scanning (pc thu)) eqn:Es; [|done]. exfalso.
    pose proof (proj1 (others_true _ _ _) Hal u thu Hne Hu) as Hun. unfold unlocked_scan in Hun. rewrite Es in Hun. cbn in Hun.
    assert (Hk : kont (pc thu) = Some KSet) by (destruct (pc thu); try done; cbn in *; by destruct c as [|[]]).
    pose proof (mo_config _ _ _ (wo_mutex _ _ HW _ _ Hu)) as Hc. pose proof (mo_config _ _ _ HM eq_refl) as Hc'.
    rewrite Hc in Hc'; [congruence|]. unfold in_config. rewrite Hk. by destruct (pc thu). }
  pose proof (tstep_ids _ _ _ _ _ _ _ _ _ _ H HM) as Hids. pose proof (tstep_holds _ _ _ _ _ _ _ _ _ _ H Hal' Hf HL) as Hho.
  pose proof (tstep_recs _ _ _ _ _ _ _ _ _ _ H) as Hre. pose proof (tstep_closing _ _ _ _ _ _ _ _ _ _ H) as [Hcl Hpg].
  eapply (world_step W t (Thread p tl tk rt)); try done.
  - by eapply tstep_server_ok.
  - by eapply tstep_local.
  - by eapply tstep_mutex.
  - intros x Hx. destruct (tstep_freed _ _ _ _ _ _ _ _ _ _ _ H Hf Hx) as [?|[->|(c & mn & rec & l & retain & n & -> & Hr & Hlt)]]; [by left|right..].
    + split; [eapply (in_hand W t); [done..|left]|]. intros k e. by apply (wo_grace _ _ HW _ _ _ _ _ Ht).
    + split; [eapply (in_hand W t); [done..|by eapply (place_rec_id _ rec); [left|]]|]. intros k e Hh.
      pose proof (wo_scan _ _ HW _ _ Ht k e x rec Hh ltac:(left) Hr). enough (e <= retired_epoch rec) by lia.
      apply (wo_epochs _ _ HW k e x rec); [done| |done]. right. exists t. eexists. split; [done|]. cbn. left.
  - eapply tstep_scan; [exact H|done..| | | | |]; cbn.
    + intros k e x Hh Hx. eapply holds_back_unpublished; [done..|]. destruct Hx as [[Hsc Hd]|Hx]; [|by eapply (in_hand W t)].
      apply doomed_unpublished; [done|]. eapply doomed_back in Hd as [Hd|(r & dl & tmp & E)]; [done| |done..]. cbn in E. by subst.
    + intros Hsc x Hd. eapply doomed_back in Hd as [Hd|(r & dl & tmp & E)]; [done| |done..]. cbn in E. by subst.
    + intros k e x. by apply holds_range.
    + intros c mn rec x -> Hin Hx. unfold Rcu.tstep, _csilk_reload_try_reclaim, goes in H. cbn [pc] in H. rewrite Hlive in H. injection H as <- <-. apply (record_doomed _ rec); [|done].
      right. exists t. eexists. split; [apply list_lookup_insert_eq; by eapply lookup_lt_Some|]. cbn [pc place_recs]. apply elem_of_app. by left.
    + by apply (wo_scan _ _ HW _ _ Ht).
  - intros a k e Ha Hh. assert (Hh' : holds W k e a).
    { eapply holds_back_unpublished; [done..|]. eapply (in_hand W t); [done|exact Ht|]. destruct (Hpg a Ha) as [Ha'|[target ->]]; [by apply past_grace_id|left]. }
    destruct (Hpg a Ha) as [Ha'|[target ->]]; [by eapply (wo_grace _ _ HW)|].
    destruct (wo_scan _ _ HW _ _ Ht k e a eq_refl Hh') as [_ []%not_elem_of_nil].
  - intros u thu Hne Hu. pose proof (proj1 (others_true _ _ _) Hop u thu Hne Hu). by apply negb_true_iff.
  - intros Hc. destruct (Hcl Hc) as [Hc' Htk]. destruct (wo_closing _ _ HW t _ t _ Ht Hc' Ht) as [Hz _]. cbn in Hz.
    split; [congruence|]. intros u thu Hne Hu. by apply (wo_closing _ _ HW t _ u thu Ht Hc' Hu).
Qed.

Lemma enter_recs a s tl tk rt s' th' : enter a s (Thread Idle tl tk rt) = Some (s', th') ->
  recs_flow s Idle s' (pc th') /\ (s' = s \/ s' = set_fresh s (S (fresh s))) /\ mutex_ok s' 0 (pc th') /\ (forall W, scan_ok W (pc th')) /\
  past_grace (pc th') = None /\ (closing (pc th') = true -> a = CServerFree) /\ in_config (pc th') = false /\ in_hooks (pc th') = false.
Proof.
  intros H. unfold enter, goes, put_pc in H. cbn [pc tls toks ret] in H.
  destruct a; tinv H; cbn [pc]; repeat case_match; split_and!; try done; try (by apply recs_flow_sub); auto; by constructor.
Qed.

Lemma enter_world_ok W t a tl tk rt s' th' : world_ok W -> threads W !! t = Some (Thread Idle tl tk rt) -> allowed W (t, a) = true -> (forall ok, a <> CStep ok) ->
  enter a (srv W) (Thread Idle tl tk rt) = Some (s', th') -> world_ok (put W t s' th').
Proof.
  intros HW Ht Hal Hns H. pose proof (wo_local _ _ HW _ _ Ht) as HL. pose proof (wo_server _ _ HW) as HS.
  destruct (enter_recs _ _ _ _ _ _ _ H) as (Hre & Hs & Hm & Hsc & Hpg & Hcl & Hic & Hih).
  unfold allowed in Hal. cbn [fst snd] in Hal. rewrite Ht in Hal. cbn [toks] in Hal. rewrite !andb_true_iff in Hal. destruct Hal as [[[_ _] Hop] Hal].
  assert (Hfr : frame t (srv W) s') by (destruct Hs as [->| ->]; constructor; cbn; try done; lia).
  assert (Hsame : slots s' = slots (srv W) /\ overflow_head s' = overflow_head (srv W) /\ global_epoch s' = global_epoch (srv W) /\ freed s' = freed (srv W)).
  { by destruct Hs as [->| ->]. }
  destruct Hsame as (E1 & E2 & E3 & E4).
  eapply (world_step W t (Thread Idle tl tk rt)); try done.
  - by eapply enter_ids.
  - by eapply enter_holds.
  - eapply server_ok_same; [..|exact HS]; try done. lia.
  - eapply enter_local; [done|exact H|done|..]; try (intros; subst a); try apply (wo_hooks _ _ HW); try lia.
    + by destruct tk.
    + by apply Nat.eqb_eq, nil_length_inv in Hal.
  - constructor; [by rewrite Hic|by rewrite Hih|apply Hm].
  - rewrite E4. auto.
  - by rewrite Hpg.
  - intros u thu Hne Hu. pose proof (proj1 (others_true _ _ _) Hop u thu Hne Hu). by apply negb_true_iff.
  - intros Hc. rewrite (Hcl Hc) in *. apply andb_true_iff in Hal as [Hz He]. cbn in H. injection H as <- <-. cbn.
    split; [by apply Nat.eqb_eq, nil_length_inv in Hz|]. by apply others_true.
Qed.

Lemma enter_some W t a th : world_ok W -> threads W !! t = Some th -> is_Some (enter a (srv W) th).
Proof.
  intros HW Ht. unfold enter, goes, put_pc. destruct a; repeat case_match; try (eexists; reflexivity). exfalso. simplify_eq.
  match goal with H : gone _ _ = true |- _ => apply bool_decide_eq_true in H as Hg end.
  match goal with H : toks th !! _ = Some _ |- _ => apply list_elem_of_lookup_2 in H as Hin end.
  destruct (lo_toks _ _ _ _ (wo_local _ _ HW _ _ Ht) _ _ Hin) as (k & sl & -> & [Hm _]%mine_slot & _).
  eapply (wo_held _ _ HW k); [|exact Hg]. exists t, th. split; [done|]. eexists _, sl. eauto.
Qed.

(** ** Freeing the server *)

(** Thread [t] frees the server; the others have exited. *)
Record shut_ok (W : world) (t : nat) : Prop := {
  sh_nodup : NoDup (world_ids W);
  sh_fresh : forall x, x ∈ world_ids W -> (x < fresh (srv W))%nat;
  sh_slots : (readers <= length (slots (srv W)))%nat;
  sh_overflow : forall k, k ∈ overflow_head (srv W) -> (k < length (slots (srv W)))%nat;
  sh_idle : forall u th, threads W !! u = Some th -> toks th = [];
  sh_place : exists th, threads W !! t = Some th /\ freeing (pc th) = true /\
    match pc th with
    | FStat i | FOwner i => (i < readers)%nat
    | FOv l => l ⊆ overflow_head (srv W)
    | FOvOwner k l => k ∈ overflow_head (srv W) /\ l ⊆ overflow_head (srv W)
    | _ => True
    end;
}.

(** The server has been freed. *)
Definition dead (W : world) : Prop :=
  live (srv W) = false /\ NoDup (world_ids W) /\ forall u th, threads W !! u = Some th -> toks th = [].

Lemma enter_shut W t ok p tl tk rt s' th' : world_ok W -> threads W !! t = Some (Thread p tl tk rt) -> allowed W (t, CStep ok) = true ->
  tstep t ok (srv W) (Thread p tl tk rt) = Some (s', th') -> freeing (pc th') = true -> shut_ok (put W t s' th') t.
Proof.
  intros HW Ht Hal H Hf'. pose proof (wo_local _ _ HW _ _ Ht) as HL. pose proof (lo_place _ _ _ _ HL) as Hpl. cbn in Hpl.
  pose proof (wo_server _ _ HW) as HS. pose proof (wo_mutex _ _ HW _ _ Ht) as HM. cbn in HM.
  unfold allowed in Hal. cbn [fst snd] in Hal. rewrite !andb_true_iff in Hal. destruct Hal as [[[_ He%Z.ltb_lt] _] _].
  assert (Hf : freeing p = false) by (destruct p; try done).
  pose proof (tstep_frame _ self_distinct _ _ _ _ _ _ _ _ _ H Hf HL HM He (so_epoch _ HS)) as Hfr.
  pose proof (tstep_ids _ _ _ _ _ _ _ _ _ _ H HM) as Hids. destruct (tstep_closing _ _ _ _ _ _ _ _ _ _ H) as [Hcl _].
  destruct (Hcl ltac:(by unfold closing; rewrite Hf')) as [Hc Htk].
  assert (HS' : server_ok s') by (by eapply tstep_server_ok).
  destruct (ids_step W t _ th' s' HW Ht Hfr Hids) as [Hnd Hfd]. constructor; try done; cbn.
  - apply HS'.
  - intros k Hk. pose proof (so_overflow _ HS' k Hk). lia.
  - intros u thu Hu. apply (world_put_lookup W t s' th') in Hu as [[-> ->]|[Hne Hu]].
    + rewrite Htk. by apply (wo_closing _ _ HW t _ t _ Ht Hc Ht).
    + by apply (wo_closing _ _ HW t _ u _ Ht Hc Hu).
  - exists th'. split; [apply list_lookup_insert_eq; by eapply lookup_lt_Some|]. split; [done|].
    tcases p H; tinv H; cbn [pc] in *; repeat case_match; try done; by destruct c as [|[]].
Qed.

(** What a step of freeing the server keeps. *)
Lemma free_frame t ok s p tl tk rt s' th' : tstep t ok s (Thread p tl tk rt) = Some (s', th') -> freeing p = true ->
  fresh s' = fresh s /\ toks th' = tk /\ mutex_ok s t p.
Proof.
  intros H Hf. destruct p; try discriminate Hf; (unfold Rcu.tstep, _csilk_reload_mgr_free, goes in H; cbn [pc] in H; destruct (live s); [|discriminate H]; cbn [negb] in H;
    tinv H; (split_and!; [|done|by constructor]); try done).
  by destruct (free_record_ids _ _ _ E0) as (_ & _ & _ & ? & _).
Qed.

Lemma free_some W t ok p tl tk rt : shut_ok W t -> threads W !! t = Some (Thread p tl tk rt) -> live (srv W) = true ->
  is_Some (tstep t ok (srv W) (Thread p tl tk rt)).
Proof.
  intros [] Ht Hlive. destruct sh_place0 as (th & Ht' & Hf & Hpl). assert (th = Thread p tl tk rt) as -> by congruence. cbn [pc] in *.
  assert (Hst : forall i, (i < readers)%nat -> is_Some (slots (srv W) !! i)) by (intros i Hi; apply lookup_lt_is_Some; lia).
  assert (Hov : forall k, k ∈ overflow_head (srv W) -> is_Some (slots (srv W) !! k)) by (intros k Hk; apply lookup_lt_is_Some; auto).
  unfold Rcu.tstep. rewrite Hlive. destruct p; try discriminate Hf; unfold _csilk_reload_mgr_free; cbn [pc negb]; try (eexists; reflexivity).
  - destruct (Hst i Hpl) as [sl ->]. cbn. case_match; eexists; reflexivity.
  - destruct (Hst i Hpl) as [sl ->]. cbn. eexists; reflexivity.
  - destruct l as [|k l]; [eexists; reflexivity|]. assert (Hk : k ∈ overflow_head (srv W)) by set_solver. destruct (Hov k Hk) as [sl ->]. cbn. case_match; eexists; reflexivity.
  - destruct (Hov k (proj1 Hpl)) as [sl ->]. cbn. eexists; reflexivity.
  - destruct l as [|rec l]; [eexists; reflexivity|]. assert (is_Some (free_record (srv W) rec)) as [s E].
    { apply free_record_some. intros x Hx. eapply (in_hand W t); [done|exact Ht|]. by eapply (place_rec_id _ rec); [left|]. }
    rewrite E. eexists; reflexivity.
Qed.

Lemma mgr_free_ok W t ok p tl tk rt s' th' : shut_ok W t -> threads W !! t = Some (Thread p tl tk rt) ->
  tstep t ok (srv W) (Thread p tl tk rt) = Some (s', th') -> shut_ok (put W t s' th') t \/ dead (put W t s' th').
Proof.
  intros HW Ht H. destruct (sh_place _ _ HW) as (th & Ht' & Hf & Hpl). assert (th = Thread p tl tk rt) as -> by congruence. cbn [pc] in *.
  destruct (free_frame _ _ _ _ _ _ _ _ _ H Hf) as (Hfr & Htk & HM).
  destruct (ids_put W t _ s' th' Ht (sh_nodup _ _ HW) (sh_fresh _ _ HW) ltac:(lia) (tstep_ids _ _ _ _ _ _ _ _ _ _ H HM)) as [Hn Hfd].
  assert (Hti : forall u th, threads (put W t s' th') !! u = Some th -> toks th = []).
  { intros u thu [[-> ->]|[Hne Hu]]%world_put_lookup; [rewrite Htk; exact (sh_idle _ _ HW _ _ Ht)|exact (sh_idle _ _ HW _ _ Hu)]. }
  assert (Hput : threads (put W t s' th') !! t = Some th') by (apply list_lookup_insert_eq; by eapply lookup_lt_Some).
  destruct HW. destruct p; try discriminate Hf; unfold Rcu.tstep, _csilk_reload_mgr_free, goes in H; cbn [pc] in H;
    (destruct (live (srv W)); [|discriminate H]); cbn [negb] in H; tinv H; cbn in Hput; try (right; by split_and!);
    left; constructor; cbn in *; rewrite ?length_insert; try done; try (eexists; split; [exact Hput|]; split; [done|]); cbn; auto; try done.
  - apply readers_pos.
  - eexists. split; [exact Hput|]. cbn. case_match eqn:Ei; (split; [done|]); [|done]. by apply (Nat.ltb_lt (S i)).
  - split; [apply Hpl; left|]. etrans; [|exact Hpl]. set_solver.
  - apply (proj2 Hpl).
  - rewrite length_take. lia.
  - by intros k ?%not_elem_of_nil.
  - destruct (free_record_slots _ _ _ E0) as (-> & _ & _). done.
  - destruct (free_record_slots _ _ _ E0) as (-> & -> & _). done.
Qed.

(** ** Every disciplined run is safe *)

Definition safe (W : world) : Prop := world_ok W \/ (exists t, shut_ok W t) \/ dead W.

Lemma act_cases t a s p tl tk rt : (exists ok, a = CStep ok) \/ p = Idle /\ (forall ok, a <> CStep ok) \/
  p <> Idle /\ act pthread_self t a s (Thread p tl tk rt) = Some (s, Thread p tl tk rt).
Proof.
  assert (Hp : p = Idle \/ p <> Idle) by (destruct p; auto).
  assert (Ha : (exists ok, a = CStep ok) \/ forall ok, a <> CStep ok) by (destruct a; eauto).
  destruct Ha as [Ha|Ha]; [by left|]. right. destruct Hp as [->|Hp]; [by left|right]. split; [done|].
  assert (Hm : forall x y : option (server * thread), match p with Idle => x | _ => y end = y) by (intros; by destruct p).
  destruct a; [by destruct (Ha ok)|..]; exact (Hm _ _).
Qed.

Lemma act_idle t a s tl tk rt : (forall ok, a <> CStep ok) -> act pthread_self t a s (Thread Idle tl tk rt) = enter a s (Thread Idle tl tk rt).
Proof. intros H. destruct a; [by destruct (H ok)|done..]. Qed.

Lemma safe_step W e : safe W -> allowed W e = true -> exists W', step pthread_self W e = Some W' /\ safe W'.
Proof.
  intros HW Hal. destruct e as [t a]. unfold step. cbn [fst snd]. destruct (threads W !! t) as [[p tl tk rt]|] eqn:Ht; [|by exists W].
  assert (Hlive : live (srv W) = true) by (unfold allowed in Hal; rewrite !andb_true_iff in Hal; apply Hal).
  destruct (act_cases t a (srv W) p tl tk rt) as [[ok ->]|[[-> Hns]|[Hp E]]].
  - cbn [act]. destruct HW as [HW|[[t0 HW]|[Hd _]]]; [| |congruence].
    + destruct (tstep_some W t ok _ _ _ _ HW Ht Hlive) as [[s' th'] E]. rewrite E. exists (put W t s' th'). split; [done|].
      destruct (freeing (pc th')) eqn:Hf; [right; left; exists t; by eapply enter_shut|left; by eapply tstep_ok].
    + assert (t0 = t) as ->.
      { destruct (decide (t0 = t)); [done|]. exfalso. destruct (sh_place _ _ HW) as (th & Hth & Hf & _).
        unfold allowed in Hal. rewrite !andb_true_iff in Hal. destruct Hal as [[_ Hop] _].
        pose proof (proj1 (others_true _ _ _) Hop t0 th ltac:(done) Hth) as Hc. unfold closing in Hc. by rewrite Hf in Hc. }
      destruct (free_some W t ok _ _ _ _ HW Ht Hlive) as [[s' th'] E]. rewrite E. exists (put W t s' th'). split; [done|].
      destruct (mgr_free_ok W t ok _ _ _ _ _ _ HW Ht E); [right; left; by exists t|by right; right].
  - rewrite act_idle by done. destruct HW as [HW|[[t0 HW]|[Hd _]]]; [| |congruence].
    + destruct (enter_some W t a _ HW Ht) as [[s' th'] E]. rewrite E. exists (put W t s' th'). split; [done|]. left. by eapply enter_world_ok.
    + exfalso. destruct (sh_place _ _ HW) as (th & Hth & Hf & _). destruct (decide (t0 = t)) as [->|]; [by simplify_eq|].
      unfold allowed in Hal. rewrite !andb_true_iff in Hal. destruct Hal as [[_ Hop] _].
      pose proof (proj1 (others_true _ _ _) Hop t0 th ltac:(done) Hth) as Hc. unfold closing in Hc. by rewrite Hf in Hc.
  - rewrite E. exists W. split; [|done]. cbn. f_equal. exact (put_same W t _ Ht).
Qed.

Lemma safe_run tr : forall W, safe W -> disciplined W tr = true -> exists W', run pthread_self W tr = Some W' /\ safe W'.
Proof.
  induction tr as [|e tr IH]; intros W HW Hd; [by exists W|]. cbn [disciplined] in Hd. apply andb_true_iff in Hd as [Hal Hd].
  destruct (safe_step W e HW Hal) as (W1 & E & HW1). rewrite E in Hd. destruct (IH W1 HW1 Hd) as (W2 & E2 & HW2).
  exists W2. split; [|done]. cbn. by rewrite E.
Qed.

Lemma mjoin_nils n : mjoin (replicate n (@nil nat)) = [].
Proof. induction n as [|n IH]; [done|exact IH]. Qed.

Lemma start_world_ok n r : world_ok (start n r).
Proof.
  assert (Hth : forall t th, threads (start n r) !! t = Some th -> th = Thread Idle None [] 0).
  { intros t th H. cbn in H. by apply lookup_replicate in H as [-> _]. }
  assert (Hids : world_ids (start n r) = option_list r).
  { unfold world_ids, start. cbn [threads srv]. rewrite fmap_replicate. cbn [compose pc place_ids]. rewrite mjoin_nils. unfold server_ids, published. cbn. by rewrite !app_nil_r. }
  assert (Hno : forall k e x, ~ holds (start n r) k e x).
  { intros k e x (t & th & ->%Hth & ? & ? & Hin & _). by apply not_elem_of_nil in Hin. }
  constructor; try (intros; exfalso; by eapply Hno).
  - constructor; cbn; [by rewrite length_replicate|by intros k ?%not_elem_of_nil| |done].
    intros k sl [-> _]%lookup_replicate _. done.
  - done.
  - rewrite Hids. destruct r; [apply NoDup_singleton|constructor].
  - intros x. rewrite Hids. cbn. destruct r; [intros ->%list_elem_of_singleton; lia|by intros ?%not_elem_of_nil].
  - intros t th ->%Hth. assert (Hm : forall k, mine pthread_self (srv (start n r)) t k = None).
    { intros k. destruct (mine _ _ _ _) as [sl|] eqn:E; [|done]. apply mine_slot in E as [[-> _]%lookup_replicate Ho].
      by destruct (my_tid_pos pthread_self t). }
    constructor; cbn; try done; try (intros k sl; by rewrite Hm). by intros o r' ?%not_elem_of_nil.
  - intros t th ->%Hth. by constructor.
  - by intros t th ->%Hth.
  - by intros t th a k e ->%Hth.
  - by intros t th u thu ->%Hth.
Qed.

Lemma safe_leases W : safe W -> (forall t th o x, threads W !! t = Some th -> (o, Some x) ∈ toks th -> x ∉ freed (srv W)) /\ NoDup (freed (srv W)).
Proof.
  assert (Hnd : NoDup (world_ids W) -> NoDup (freed (srv W))).
  { unfold world_ids, server_ids. intros Hn. apply NoDup_app in Hn as (Hn & _). apply NoDup_app in Hn as (_ & _ & Hn). by apply NoDup_app in Hn as (Hn & _). }
  assert (Hno : (forall u th, threads W !! u = Some th -> toks th = []) -> forall t th o x, threads W !! t = Some th -> (o, Some x) ∈ toks th -> x ∉ freed (srv W)).
  { intros H t th o x Ht Hin. rewrite (H t th Ht) in Hin. by apply not_elem_of_nil in Hin. }
  intros [HW|[[t HW]|(_ & Hn & Hi)]].
  - split; [|apply Hnd, HW]. intros t th o x Ht Hin. destruct (lo_toks _ _ _ _ (wo_local _ _ HW _ _ Ht) _ _ Hin) as (k & sl & -> & [Hm _]%mine_slot & _).
    eapply (wo_held _ _ HW k). exists t, th. split; [done|]. eexists _, sl. eauto.
  - split; [apply Hno, (sh_idle _ _ HW)|apply Hnd, (sh_nodup _ _ HW)].
  - split; [by apply Hno|by apply Hnd].
Qed.

End Safety.

(** C4: Whatever the interleaving of any number of threads that take and give
    back leases on the router, replace it, wait for grace periods, change and
    trigger hooks, exit and finally free the server: as long as callers respect
    the discipline, no access touches a router, a hook array or a server that has
    been freed, nothing is freed twice, and the router of every lease that is
    held has not been freed. *)
Theorem rcu_readers_safe (pthread_self : nat -> Z) (n : nat) (r : option nat) (tr : list (nat * call)) :
  (forall t u, my_tid pthread_self t = my_tid pthread_self u -> t = u) ->
  disciplined pthread_self (start n r) tr = true ->
  exists W, run pthread_self (start n r) tr = Some W /\
    (forall t th o x, threads W !! t = Some th -> (o, Some x) ∈ toks th -> x ∉ freed (srv W)) /\ NoDup (freed (srv W)).
Proof.
  intros Hself Hd. destruct (safe_run pthread_self Hself tr (start n r)) as (W & E & HW); [left; apply start_world_ok|done|].
  exists W. split; [done|]. by eapply safe_leases.
Qed.

(** ** Runs *)

Definition self (t : nat) : Z := Z.of_nat t + 1.

Definition go (t n : nat) : list (nat * call) := replicate n (t, CStep true).

(** Thread 0 takes a lease, thread 1 replaces the router and cannot reclaim the
    old one; the lease is given back, thread 2 registers two hooks, the second of
    which waits for a grace period and reclaims the router. *)
Definition reload_run : list (nat * call) :=
  (0%nat, CAcquire) :: go 0 600 ++ (1%nat, CSetRouter (Some 7%nat) None) :: go 1 600 ++ (0%nat, CUse 0) :: (0%nat, CTrigger 4 true) :: go 0 3 ++
  (0%nat, CRelease 0) :: go 0 2 ++ (2%nat, CHook 4 (HAdd 5)) :: go 2 9 ++ (2%nat, CHook 4 (HAdd 6)) :: go 2 900.

Lemma rcu_readers_safe_witness : exists W, run self (start 3 (Some 0%nat)) reload_run = Some W /\
  (forall t th o x, threads W !! t = Some th -> (o, Some x) ∈ toks th -> x ∉ freed (srv W)) /\ NoDup (freed (srv W)).
Proof.
  apply (rcu_readers_safe self 3 (Some 0%nat) reload_run).
  - intros t u. unfold my_tid, self. repeat case_match; lia.
  - vm_compute. reflexivity.
Defined.

(** The router, its library and the first hook array are freed. *)
Lemma reload_run_frees : option_map (fun W => (freed (srv W), closed (srv W), hooks (srv W) !! 4%nat, retired_count (srv W))) (run self (start 3 (Some 0%nat)) reload_run) =
  Some ([3; 0], [7], Some (Some 4), 0%Z)%nat.
Proof. vm_compute. reflexivity. Qed.

Definition add_hook (t n : nat) (h : Z) : list (nat * call) := (t, CHook 4 (HAdd h)) :: go t n.

(** Registering a hook reclaims without the configuration mutex.  Thread 1 has
    found no reader; before it takes the retired list, thread 0 takes a lease and
    thread 2 replaces the router.  The epoch the scan assumes for the case that
    there is no reader is past that of the replacement. *)
Definition reclaim_race : list (nat * call) :=
  add_hook 1 9 5 ++ add_hook 1 523 6 ++ (0%nat, CAcquire) :: go 0 600 ++ (2%nat, CSetRouter None None) :: go 2 600 ++ go 1 600.

Lemma hook_registration_frees_held_router :
  option_map (fun W => (freed (srv W), toks <$> threads W !! 0%nat)) (run self (start 3 (Some 0%nat)) reclaim_race) = Some ([1; 0], Some [(Some 1, Some 0)])%nat /\
  run self (start 3 (Some 0%nat)) (reclaim_race ++ [(0%nat, CUse 0)]) = None.
Proof. vm_compute. auto. Qed.

(** Hooks of a request are triggered before its lease is taken and after it was
    given back: the array that is read may be freed meanwhile. *)
Lemma hooks_outside_lease :
  run self (start 2 (Some 0%nat)) (add_hook 1 9 5 ++ (0%nat, CTrigger 4 true) :: go 0 1 ++ add_hook 1 900 6 ++ go 0 1) = None.
Proof. vm_compute. reflexivity. Qed.

(** Freeing the server forgets only the slot of the calling thread: another
    thread that has used the server writes to it when it exits. *)
Lemma exit_after_free :
  run self (start 2 (Some 0%nat)) ((0%nat, CAcquire) :: go 0 600 ++ (0%nat, CRelease 0) :: go 0 2 ++ (1%nat, CServerFree) :: go 1 1200 ++
    (0%nat, CExit) :: go 0 1) = None.
Proof. vm_compute. reflexivity. Qed.

(** Without memory for an overflow slot a lease protects nothing: when all 256
    slots are owned, thread 256 is given a router that is then freed. *)
Definition unslotted_run : list (nat * call) :=
  mjoin ((fun t => (t, CAcquire) :: go t 263) <$> seq 0 256) ++ (256%nat, CAcquire) :: go 256 514 ++ (256%nat, CStep false) :: go 256 1 ++
  mjoin ((fun t => (t, CRelease 0) :: go t 2) <$> seq 0 256) ++ (0%nat, CSetRouter None None) :: go 0 600.

Lemma unslotted_lease_is_unprotected :
  option_map (fun W => (freed (srv W), toks <$> threads W !! 256%nat)) (run self (start 257 (Some 0%nat)) unslotted_run) = Some ([0], Some [(None, Some 0)])%nat.
Proof. vm_compute. reflexivity. Qed.

(** A handler that changes hooks while it holds its lease waits for itself. *)
Lemma own_lease_waits :
  option_map (fun W => pc <$> threads W !! 0%nat)
    (run self (start 1 (Some 0%nat)) (add_hook 0 9 5 ++ (0%nat, CAcquire) :: go 0 600 ++ add_hook 0 5 6 ++ go 0 4000)) = Some (Some (GScan (GHook 1%nat) 2 0)).
Proof. vm_compute. reflexivity. Qed.
